(* ===== verification/_CoqProject ===== *)
-Q . S2P
Prelude.v
GoStr.v
GoHash.v
Errors.v
GoJson.v
Api.v
K8sUtil.v
Pipelines.v
SecretIndex.v
Kube.v
K8sResources.v
Config.v
Optimize.v
Samples.v
SecretRefs.v
RelatedSecrets.v
Build.v
SecretPlan.v
SecretSize.v
SecretBridge.v
WorkloadPlan.v
Published.v
Workload.v
AgentPod.v
AgentController.v
AgentSafety.v
ConfigCheck.v
Round.v
VectorReconciler.v
VectorSafety.v
AggregatorPod.v
AggregatorController.v
AggregatorReconciler.v
AggregatorSafety.v
Finalizer.v
PipelineReconciler.v
CheckSkip.v
PipelineSafety.v
Manager.v
CollectorBinary.v
Checkpoint.v
Races.v
Footprint.v
Watches.v
