(* ===== verification/Prelude.v ===== *)
(** * The Vector operator, verified

    A Kubernetes operator (Go, under [src/]) that collects the pipelines of many teams
    ([VectorPipeline], [ClusterVectorPipeline]), builds one Vector configuration per
    workload out of them (the agents of a [Vector], a [VectorAggregator], a
    [ClusterVectorAggregator]), and keeps the objects of each workload on the cluster as the
    configuration needs them. This library models the program as it is written, a
    definition per function or part of one, and proves what makes it correct. This file is
    the shared vocabulary and documents the whole.

    ** How the program works

    A pipeline names sources, transforms, sinks and, through [SECRET[alias.key]]
    placeholders, values of Secrets. A round of a pipeline resolves its Secrets, has every
    workload it matches build and check a configuration with it alone, and writes the
    verdict to its status. A round of a workload selects the valid pipelines, drops those
    whose secret values collide with or overflow the one assets Secret they share, decides
    which of the others must wait until the Pods have moved from the old configuration to
    the new (the bridge), builds, optionally checks the configuration in a Pod of its own,
    and writes Secrets and workload in an order in which no Pod starts without what it
    reads. Events of pipelines reach the workloads through a delayed queue.

    ** The files, in the order they are built on one another

    The language and its library
    - [Prelude]: results with errors, loops with early returns, the iteration order of maps
      and sorting ([GoRuntime]), lists of distinct entries, sums over maps.
    - [GoStr], [GoHash], [GoJson], [Errors]: strings, CRC-32, FNV, MD5, SHA-256 on words
      with their wrap-around, [encoding/json], and [error] values with their chains.

    Data
    - [Api], [Pipelines] ([api/v1alpha1], [internal/pipeline]): the resources, the hash
      and the verdict in their status; [SecretIndex]: which pipelines use a Secret.
    - [K8sUtil], [Kube], [K8sResources] ([internal/utils/k8s]): labels and selectors; the
      API server as the interface [KubeApi] and the monad [K] that records the world after
      every write; [createOrUpdate].
    - [Config], [Optimize] ([internal/config]): the configuration, the source optimiser.

    Secrets of pipelines
    - [SecretRefs]: scanning, rewriting and resolving placeholders.
    - [RelatedSecrets]: the Secrets of a pipeline and the token that notices a change.
    - [SecretPlan], [SecretSize]: who is left out of the shared Secret and why.
    - [SecretBridge]: what of the old Secret is kept and who waits.
    - [WorkloadPlan] ([internal/controller/secrets.go]): selection, plan and attribution.

    Building and publishing
    - [Build] ([agent.go], [aggregator.go], [config.go]): [buildAgentConfig] and
      [BuildAggregatorConfig]; [Published]: the data a round stages against the references of
      the configuration it builds.
    - [ConfigCheck]: validating a configuration in a Pod before it is used; [CheckSkip]: when
      that is skipped.
    - [Workload], [AgentPod], [AgentController], [AgentSafety]: the objects of an agent
      ([internal/vector/vectoragent]), the order of the writes, and why Pods start.
    - [Round], [VectorReconciler], [VectorSafety]: a whole round of a [Vector].
    - [AggregatorPod], [AggregatorController], [AggregatorReconciler], [AggregatorSafety]:
      the same for both aggregators; [Finalizer]: deleting one.
    - [Footprint]: which objects a publication touches and whose they are.

    The operator around them
    - [PipelineReconciler], [PipelineSafety]: a round of a pipeline; [Races]: its verdict
      against those the workloads write meanwhile.
    - [Watches] ([SetupWithManager]): which changes lead to a round, and of what.
    - [Manager] ([cmd/manager]): flags, cache, the delayed queue.
    - [CollectorBinary] ([internal/evcollector], [cmd/event_collector]) and [Checkpoint]
      ([internal/checkpoint], [cmd/checkpoint_merger]): the two helper binaries.
    - [Samples]: concrete inputs the witnesses run on.

    ** What is shown

    - Pods start. [vector_pods_start], [aggregator_pods_start]: over any sequence of rounds,
      with any pipelines, Secrets, failing calls and interruptions, a Pod created at any
      moment finds every file and key its configuration refers to; [agent_round_safe] is one
      round of an agent with checkpoint migration. The hypotheses are needed:
      [agent_mode_switch_unsafe], [events_source_unsafe], [plan_can_drop_values].
    - Sharing a Secret is fair and safe. The greedy passes are characterised without
      mentioning them ([collision_attribution_exact], [size_exclusion_exact],
      [bridge_incremental_exact]), do not depend on iteration order
      ([collision_deterministic]), leave survivors that fit ([survivors_never_collide],
      [size_budgets_hold]), and the bridge ends ([bridge_converges],
      [prune_decision_converges]).
    - Placeholders mean what they say: [scan_rewrite_exact],
      [safe_value_substitution], [agent_refs_resolved], [related_secrets_exact].
    - Tenants stay apart: [agent_tenancy], [attribution_round_trip],
      [workload_selection_exact]; workloads as well: [workloads_isolated]. They do not in
      [component_names_collide], [namesakes_share_rbac].
    - Verdicts are earned and revised: [pipeline_valid_only_if_checked],
      [pipeline_next_round], [configcheck_sound], [rotation_noticed],
      [rotation_poll_bounds], [delay_delivers]. What a pipeline needs is stated by its text
      ([needs], [token_of], [concerned]), not by what the round computed. Verdicts can cross: [verdict_lost_iff] says
      which are lost, [stale_round_powerless] what a round that read too early can still do
      ([verdicts_lost] is both on a concrete pipeline).
    - Changes are noticed: [drift_leads_to_round], [status_updates_quiet]; pipelines that come
      before the first workload are not: [early_pipeline_waits].
    - The helpers: [collector_delivers], [reload_exact], [merger_resumes], [merger_spares],
      [merger_idempotent]. Deletion: [finalizer_exact], [finalizer_leaks_binding],
      [deletion_leaves_collector].

    ** The environment

    What is not under [src/] is a parameter. [GoRuntime] is what Go leaves open: every loop
    over a map has an identity and visits the entries in an order of its own, and
    [sort.Slice] returns some sorted permutation; theorems hold for every runtime, witnesses
    use [stable_runtime]. [Libraries] are the third-party functions of the builders
    ([mapstructure], label selectors, [strcase], the generated [Secret.Size]), with the
    documented behaviour a theorem needs as a named hypothesis. [KubeApi] is the client: a read returns
    what is stored, a failed write has its effect or none, [CreateOrUpdate] works on the
    stored object; [simple_api] implements it. Whole listings, clock readings and the Secrets a
    round reads are its arguments, so they may be stale or change from round to round.
    - One writer: between the rounds of a workload nobody else changes its objects
      ([workloads_isolated]: other workloads do not); Pods and garbage collection only read
      them. The status of a pipeline has several writers, which is the subject of [Races].
    - [WatchRuntime]: the predicates and handlers of controller-runtime; [plain_watch]
      implements it.
    - The reads that decide on pruning go to the API server; cached reads show the
      operator's own objects, since the cache has no label filter or one they all carry
      ([own_objects_cached]).
    - Nothing outside answers with the operator's own error for a skipped check
      ([api_not_skipping]).
    - The checks of a pipeline's round, concurrent in the code, write objects of their own
      and are run one after the other, in any order.

    ** Fuel

    Functions that are not structurally recursive have fuel that is enough by construction:
    [json_parse] passes twice the length of its input plus two, as every call but the first
    consumes a byte or follows one that did; readers of raw elements take the length of
    their input, the loops over hashes a count of blocks. Loops that end for a reason of the
    program (the event loops, the wait of a check) are driven by the list of what they
    observe, and a theorem says what holds after every such list.

    ** Not modelled

    - Generated deep copies; registration of types; build information; metrics.
    - Flag parsing, TLS, health checks and the start of controller-runtime in the [main]s; how
      many rounds [SetupWithManager] allows at once.
    - [cmd/evgen] and the end-to-end framework, which produce load for tests.
    - Informers, gRPC, viper, the label-selector parser and gzip: third-party or the
      standard library's I/O; their results are arguments or parameters. *)

From stdpp Require Export gmap strings list sorting pretty.
From Stdlib Require Export ZArith Lia.

#[global] Open Scope Z_scope.

(** stdpp keeps [simpl] out of [String.append]; the proofs here compute with it. *)
#[global] Arguments String.append !_ _ / : simpl nomatch.

Declare Scope operator_scope.
Delimit Scope operator_scope with op.

(** ** Fallible code: Go's [(T, error)] results *)

Inductive res (E A : Type) : Type :=
| Ok (a : A)
| Err (e : E).
Arguments Ok {E A} a.
Arguments Err {E A} e.

#[export] Instance res_ret {E} : MRet (res E) := λ A a, Ok a.
#[export] Instance res_bind {E} : MBind (res E) := λ A B f m,
  match m with Ok a => f a | Err e => Err e end.
#[export] Instance res_fmap {E} : FMap (res E) := λ A B f m,
  match m with Ok a => Ok (f a) | Err e => Err e end.

Definition is_Ok {E A} (m : res E A) : Prop := ∃ a, m = Ok a.

#[export] Instance is_Ok_dec {E A} (m : res E A) : Decision (is_Ok m).
Proof. destruct m as [a|e]; [left; by exists a | right; by intros [a ?]]. Defined.

(** [if err := check; err != nil { return err }] *)
Definition guard_err {E} (b : bool) (e : E) : res E unit :=
  if b then Err e else Ok tt.

(** A loop with an early error return, threading its state. *)
Fixpoint foldM {E A S} (f : S → A → res E S) (s : S) (l : list A) : res E S :=
  match l with
  | [] => Ok s
  | x :: l => s' ← f s x; foldM f s' l
  end.

Section res_lemmas.
Context {E : Type}.

Lemma bind_Ok {A B} (f : A → res E B) (m : res E A) b :
  m ≫= f = Ok b ↔ ∃ a, m = Ok a ∧ f a = Ok b.
Proof. destruct m; split; [eauto | by intros (? & [= ->] & ?) | done | by intros (? & ? & _)]. Qed.

Lemma bind_Err {A B} (f : A → res E B) (m : res E A) e :
  m ≫= f = Err e ↔ m = Err e ∨ ∃ a, m = Ok a ∧ f a = Err e.
Proof.
  destruct m; split.
  - eauto.
  - by intros [?|(? & [= ->] & ?)].
  - intros [= ->]; by left.
  - by intros [[= ->]|(? & ? & _)].
Qed.

Lemma mapM_Ok {A B} (f : A → res E B) l k :
  mapM f l = Ok k ↔ Forall2 (λ x y, f x = Ok y) l k.
Proof.
  split.
  - revert k. induction l as [|x l IH]; intros k; simpl.
    + intros [= <-]. constructor.
    + intros (y & Hy & (ys & Hys & [= <-])%bind_Ok)%bind_Ok. eauto.
  - induction 1 as [|x y l k Hx _ IH]; simpl; [done|]. rewrite Hx. simpl. by rewrite IH.
Qed.

Lemma mapM_is_Ok {A B} (f : A → res E B) l : is_Ok (mapM f l) ↔ Forall (λ x, is_Ok (f x)) l.
Proof.
  split.
  - intros [k Hk%mapM_Ok]. apply Forall_forall. intros x [i Hi]%list_elem_of_lookup.
    destruct (Forall2_lookup_l _ _ _ _ _ Hk Hi) as (y & _ & ?). by exists y.
  - induction 1 as [|x l [y Hy] _ [k Hk]]; simpl; [by eexists|]. rewrite Hy. simpl. rewrite Hk. by eexists.
Qed.

Lemma foldM_app {A S} (f : S → A → res E S) s l1 l2 :
  foldM f s (l1 ++ l2) = (s' ← foldM f s l1; foldM f s' l2).
Proof.
  revert s. induction l1 as [|x l1 IH]; intros s; simpl; [done|].
  destruct (f s x); simpl; [apply IH|done].
Qed.

(** An invariant of the loop body is an invariant of the loop. *)
Lemma foldM_inv {A S} (f : S → A → res E S) (P : S → Prop) l s s' :
  (∀ s x s', x ∈ l → P s → f s x = Ok s' → P s') →
  P s → foldM f s l = Ok s' → P s'.
Proof.
  revert s. induction l as [|x l IH]; intros s Hf Hs; simpl; [by intros [= <-]|].
  intros (s1 & H1 & H2)%bind_Ok. eapply IH; [|eapply Hf; eauto; set_solver|exact H2].
  intros; eapply Hf; eauto; set_solver.
Qed.

Lemma foldM_total {A S} (f : S → A → res E S) s l :
  (∀ s x, x ∈ l → is_Ok (f s x)) → is_Ok (foldM f s l).
Proof.
  revert s. induction l as [|x l IH]; intros s Hf; simpl; [by eexists|].
  destruct (Hf s x) as [s' ->]; [by left|]. apply IH. intros; apply Hf; by right.
Qed.

Lemma guard_err_Ok b (e : E) : guard_err b e = Ok tt ↔ b = false.
Proof. by destruct b. Qed.
End res_lemmas.

(** ** What the Go runtime leaves open

    [range] over a map visits the entries in an unspecified order, and
    [sort.Slice] is not stable: the order of elements its comparator does not
    separate is unspecified. Every definition of the library that ranges over a
    map or sorts takes the runtime as a parameter, so a theorem about it holds
    for every order; [range_map] also takes the identity of the loop, so that two
    loops over equal maps need not agree. [range_assoc] is the same loop over a
    map represented by an association list (nested maps, see [value]). [unicode_is_print] is the table of
    printable code points from 0x80 on, which follows the Go release, and [json_float]
    the text [encoding/json] writes for the [float64] nearest to a literal. [gzip] is
    what [compress/gzip] writes, from which the data can be read back, and [rfc3339] a
    time (in nanoseconds) as the local time zone shows it. *)
Class GoRuntime : Type := {
  range_map {K} `{Countable K} {A} : positive → gmap K A → list (K * A);
  range_map_perm {K} `{Countable K} {A} (i : positive) (m : gmap K A) :
    range_map i m ≡ₚ map_to_list m;
  range_assoc {A} : positive → list (string * A) → list (string * A);
  range_assoc_perm {A} (i : positive) (l : list (string * A)) : range_assoc i l ≡ₚ l;
  sort_slice {A} : (A → A → bool) → list A → list A;
  sort_slice_perm {A} (less : A → A → bool) (l : list A) : sort_slice less l ≡ₚ l;
  sort_slice_sorted {A} (less : A → A → bool) (l : list A) :
    (∀ x y, less y x = false ∨ less x y = false) →
    (∀ x y z, less y x = false → less z y = false → less z x = false) →
    StronglySorted (λ x y, less y x = false) (sort_slice less l);
  unicode_is_print : Z → bool;
  json_float : string → string;
  gzip : string → string;
  gzip_inj a b : gzip a = gzip b → a = b;
  rfc3339 : Z → string
}.

(** A runtime that exists: [map_to_list] order and a stable merge sort. *)
#[local] Instance neg_less_dec {A} (less : A → A → bool) :
  RelDecision (λ x y, less y x = false).
Proof. intros x y. apply _. Defined.

Program Definition stable_runtime : GoRuntime := {|
  range_map K _ _ A _ m := map_to_list m;
  range_assoc A _ l := l;
  sort_slice A less l := merge_sort (λ x y, less y x = false) l;
  unicode_is_print _ := true;
  json_float text := text;
  gzip data := data;
  rfc3339 t := pretty t
|}.
Next Obligation. done. Qed.
Next Obligation. done. Qed.
Next Obligation. intros A less l. apply merge_sort_Permutation. Qed.
Next Obligation.
  intros A less l Htot Htrans. apply StronglySorted_merge_sort.
  - intros x y z ??. eapply Htrans; eauto.
  - intros x y. apply Htot.
Qed.
Next Obligation. done. Qed.

Section runtime_lemmas.
Context {RT : GoRuntime}.

Lemma range_map_lookup `{Countable K} {A} i (m : gmap K A) k a :
  (k, a) ∈ range_map i m ↔ m !! k = Some a.
Proof. rewrite range_map_perm. apply elem_of_map_to_list. Qed.

Lemma range_map_keys_NoDup `{Countable K} {A} i (m : gmap K A) :
  NoDup (range_map i m).*1.
Proof. rewrite range_map_perm. apply NoDup_fst_map_to_list. Qed.

Lemma range_map_empty `{Countable K} {A} i : range_map i (∅ : gmap K A) = [].
Proof.
  apply Permutation_nil. by rewrite range_map_perm, map_to_list_empty.
Qed.

Lemma range_keys `{Countable K} {A} i (m : gmap K A) k : k ∈ (range_map i m).*1 ↔ is_Some (m !! k).
Proof.
  rewrite list_elem_of_fmap. split.
  - intros ([k' a] & -> & Hin%range_map_lookup). by eexists.
  - intros [a Ha]. exists (k, a). split; [done | by apply range_map_lookup].
Qed.

Lemma sort_slice_elem_of {A} less (l : list A) x : x ∈ sort_slice less l ↔ x ∈ l.
Proof. by rewrite sort_slice_perm. Qed.

(** A sort by a strict total order has one possible result. *)
Lemma sort_slice_unique {A} (less : A → A → bool) (l l' : list A) :
  (∀ x y, less y x = false ∨ less x y = false) →
  (∀ x y z, less y x = false → less z y = false → less z x = false) →
  (∀ x y, x ∈ l → y ∈ l → less x y = false → less y x = false → x = y) →
  l' ≡ₚ l → StronglySorted (λ x y, less y x = false) l' →
  sort_slice less l = l'.
Proof.
  intros Htot Htrans Hanti Hl' Hsort.
  eapply (StronglySorted_unique_strong (λ x y, less y x = false)).
  - intros x1 x2 H1%sort_slice_elem_of H2 ??. rewrite Hl' in H2. by apply Hanti.
  - by apply sort_slice_sorted.
  - done.
  - by rewrite sort_slice_perm, Hl'.
Qed.
End runtime_lemmas.

(** Two runtimes, and any permutation of the input, agree on such a sort. *)
Lemma sort_slice_agree (RT1 RT2 : GoRuntime) {A} (less : A → A → bool) (l1 l2 : list A) :
  (∀ x y, less y x = false ∨ less x y = false) →
  (∀ x y z, less y x = false → less z y = false → less z x = false) →
  (∀ x y, x ∈ l1 → y ∈ l1 → less x y = false → less y x = false → x = y) →
  l1 ≡ₚ l2 →
  @sort_slice RT1 _ less l1 = @sort_slice RT2 _ less l2.
Proof.
  intros Htot Htrans Hanti Hperm. apply sort_slice_unique; try done.
  - by rewrite sort_slice_perm.
  - by apply sort_slice_sorted.
Qed.

(** [sort.Strings] *)
Definition sort_strings `{GoRuntime} : list string → list string := sort_slice String.ltb.

Section string_order.
Implicit Types x y : string.

Lemma string_ltb_le x y : String.ltb y x = false ↔ String.le x y.
Proof.
  unfold String.le, String.leb, String.ltb. rewrite String.compare_antisym.
  destruct (x ?= y)%string; naive_solver.
Qed.

Lemma string_lt_total x y : String.ltb y x = false ∨ String.ltb x y = false.
Proof. rewrite !string_ltb_le. apply (total String.le). Qed.

Lemma string_lt_trans x y z :
  String.ltb y x = false → String.ltb z y = false → String.ltb z x = false.
Proof. rewrite !string_ltb_le. apply transitivity. Qed.

Lemma string_lt_anti x y :
  String.ltb x y = false → String.ltb y x = false → x = y.
Proof. rewrite !string_ltb_le. intros. by apply (anti_symm String.le). Qed.

Lemma string_lt_irrefl x : String.ltb x x = false.
Proof. by rewrite string_ltb_le. Qed.
End string_order.

#[export] Hint Resolve string_lt_total string_lt_trans string_lt_anti string_lt_irrefl : core.

(** Elements of a list are told apart by a function that is injective on it. *)
Lemma NoDup_fmap_elem_inj {A B} (f : A → B) l x y :
  NoDup (f <$> l) → x ∈ l → y ∈ l → f x = f y → x = y.
Proof.
  induction l as [|z l IH]; simpl; [set_solver|].
  intros [Hni Hnd]%NoDup_cons [->|Hx]%elem_of_cons [->|Hy]%elem_of_cons Hf; auto;
    destruct Hni; [rewrite Hf | rewrite <- Hf]; by apply list_elem_of_fmap_2.
Qed.

Lemma list_filter_all {A} (P : A → Prop) `{∀ x, Decision (P x)} (l : list A) :
  Forall P l → filter P l = l.
Proof. induction 1; [done|]. by rewrite filter_cons_True; f_equal. Qed.

Lemma list_filter_none {A} (P : A → Prop) `{∀ x, Decision (P x)} (l : list A) :
  Forall (λ x, ¬ P x) l → filter P l = [].
Proof. induction 1; [done|]. by rewrite filter_cons_False. Qed.

(** Where an element stands in a list that was extended by one. *)
Lemma snoc_split {A} (l d1 d2 : list A) x y :
  l ++ [x] = d1 ++ y :: d2 →
  (d2 = [] ∧ x = y ∧ d1 = l) ∨ (∃ d2', d2 = d2' ++ [x] ∧ l = d1 ++ y :: d2').
Proof.
  destruct d2 as [|z d2 _] using rev_ind.
  - intros [-> [= ->]]%app_inj_tail. by left.
  - rewrite app_comm_cons, (assoc_L (++)). intros [-> ->]%app_inj_tail. right. by exists d2.
Qed.

Lemma list_filter_ext_elem {A} (P Q : A → Prop) `{∀ x, Decision (P x), ∀ x, Decision (Q x)} (l : list A) :
  (∀ x, x ∈ l → P x ↔ Q x) → filter P l = filter Q l.
Proof.
  induction l as [|x l IH]; intros Hl; [done|].
  assert (IH' : filter P l = filter Q l) by (apply IH; intros y Hy; apply Hl; by right).
  destruct (decide (P x)) as [Hp|Hp].
  - rewrite !filter_cons_True by (done || by apply Hl; [left|]). by rewrite IH'.
  - rewrite !filter_cons_False; [done | | done]. intros Hq. apply Hp, Hl; [by left | done].
Qed.

(** A stronger filter that misses an element keeps fewer. *)
Lemma filter_length_lt {A} (P Q : A → Prop) `{∀ x, Decision (P x), ∀ x, Decision (Q x)} l x :
  (∀ y, P y → Q y) → x ∈ l → Q x → ¬ P x →
  (length (filter P l) < length (filter Q l))%nat.
Proof.
  intros HPQ Hx HQ HP.
  assert (Hle : ∀ l, (length (filter P l) <= length (filter Q l))%nat).
  { clear l Hx. induction l as [|y l IH]; [done|].
    destruct (decide (P y)).
    - rewrite !filter_cons_True by auto. simpl. lia.
    - rewrite (filter_cons_False P) by done. destruct (decide (Q y));
        [rewrite filter_cons_True by done | rewrite filter_cons_False by done]; simpl; lia. }
  induction l as [|y l IH]; [set_solver|]. apply elem_of_cons in Hx as [<-|Hx].
  - rewrite (filter_cons_False P), (filter_cons_True Q) by done. simpl. pose proof (Hle l). lia.
  - specialize (IH Hx). destruct (decide (P y)).
    + rewrite !filter_cons_True by auto. simpl. lia.
    + rewrite (filter_cons_False P) by done. destruct (decide (Q y));
        [rewrite filter_cons_True by done | rewrite filter_cons_False by done]; simpl; lia.
Qed.

Lemma StronglySorted_fmap_inv {A B} (f : A → B) (R : relation B) (l : list A) :
  StronglySorted R (f <$> l) → StronglySorted (λ x y, R (f x) (f y)) l.
Proof.
  induction l as [|x l IH]; [constructor|]. rewrite fmap_cons.
  intros [Hs Hall]%StronglySorted_inv. constructor; [auto|].
  rewrite Forall_fmap in Hall. exact Hall.
Qed.

Lemma StronglySorted_fmap_2 {A B} (f : A → B) (R : relation B) (l : list A) :
  StronglySorted (λ x y, R (f x) (f y)) l → StronglySorted R (f <$> l).
Proof.
  induction 1 as [|x l _ IH Hall]; [constructor|]. rewrite fmap_cons.
  constructor; [done|]. rewrite Forall_fmap. exact Hall.
Qed.

Lemma StronglySorted_weaken {A} (R1 R2 : relation A) (l : list A) :
  (∀ x y, R1 x y → R2 x y) → StronglySorted R1 l → StronglySorted R2 l.
Proof.
  intros HR. induction 1 as [|x l _ IH Hall]; constructor; [done|].
  eapply Forall_impl; eauto.
Qed.

Lemma StronglySorted_filter {A} (R : relation A) (P : A → Prop) `{∀ x, Decision (P x)} (l : list A) :
  StronglySorted R l → StronglySorted R (filter P l).
Proof.
  induction 1 as [|x l _ IH Hall]; [constructor|]. rewrite filter_cons. case_decide; [|done].
  constructor; [done|]. rewrite Forall_forall in *. intros y [_ Hy]%list_elem_of_filter. auto.
Qed.

(** Sorted strings of which no two are equal increase. *)
Lemma StronglySorted_strict (l : list string) :
  NoDup l → StronglySorted String.le l → StronglySorted (λ a b, String.ltb a b = true) l.
Proof.
  intros Hnd Hs. induction Hs as [|x l _ IH Hall]; [constructor|]. apply NoDup_cons in Hnd as [Hx Hnd].
  constructor; [by apply IH|]. rewrite Forall_forall in *. intros y Hy. specialize (Hall y Hy).
  apply string_ltb_le in Hall. destruct (String.ltb x y) eqn:Hxy; [done|].
  destruct Hx. by rewrite (string_lt_anti x y).
Qed.

(** [sort.Strings] does not depend on the runtime. *)
Lemma sort_strings_spec `{GoRuntime} l : sort_strings l = merge_sort String.le l.
Proof.
  apply sort_slice_unique; eauto using merge_sort_Permutation.
  eapply StronglySorted_weaken; [|apply (StronglySorted_merge_sort String.le); apply _].
  intros x y. by rewrite string_ltb_le.
Qed.

Lemma sublist_elem {A} (l1 l2 : list A) x : l1 `sublist_of` l2 → x ∈ l1 → x ∈ l2.
Proof. intros Hs%sublist_submseteq Hx. by eapply elem_of_submseteq. Qed.

(** ** Grouping: [m[f(x)] = append(m[f(x)], x)] *)

Section grouping.
Context `{Countable K} {A : Type} (f : A → K).

Definition group_add (m : gmap K (list A)) (x : A) : gmap K (list A) :=
  <[f x := default [] (m !! f x) ++ [x]]> m.

Lemma group_add_fold l (m : gmap K (list A)) k :
  (∀ k l, m !! k = Some l → l ≠ []) →
  fold_left group_add l m !! k =
    match default [] (m !! k) ++ filter (λ x, f x = k) l with [] => None | l => Some l end.
Proof.
  revert m. induction l as [|x l IH]; intros m Hm; cbn [fold_left].
  - rewrite filter_nil, app_nil_r. destruct (m !! k) as [[|]|] eqn:Hk; try done. by apply Hm in Hk.
  - rewrite IH; unfold group_add.
    + destruct (decide (f x = k)) as [<-|Hne].
      * rewrite lookup_insert_eq, filter_cons_True by done. simpl. by rewrite <- (assoc_L (++)).
      * by rewrite lookup_insert_ne, filter_cons_False by done.
    + intros k' l' [[_ <-]|[_ Hl]]%lookup_insert_Some; [by destruct (default _ _) | by eapply Hm].
Qed.

Lemma group_add_lookup l k :
  fold_left group_add l ∅ !! k = match filter (λ x, f x = k) l with [] => None | l => Some l end.
Proof. rewrite group_add_fold by (intros ??; by rewrite lookup_empty). by rewrite lookup_empty. Qed.

Lemma group_add_Some l k g :
  fold_left group_add l ∅ !! k = Some g ↔ g = filter (λ x, f x = k) l ∧ g ≠ [].
Proof. rewrite group_add_lookup. destruct (filter _ l); naive_solver. Qed.
End grouping.

(** ** Sums over the entries of a map *)

Definition Zsum (l : list Z) : Z := foldr Z.add 0 l.

#[export] Instance Zsum_perm : Proper ((≡ₚ) ==> (=)) Zsum.
Proof. induction 1; simpl; lia. Qed.

Lemma Zsum_app l1 l2 : Zsum (l1 ++ l2) = Zsum l1 + Zsum l2.
Proof. induction l1; simpl; lia. Qed.

Section msum.
Context `{Countable K} {A : Type} (f : K → A → Z).

Definition msum (m : gmap K A) : Z := Zsum (uncurry f <$> map_to_list m).

Lemma msum_empty : msum ∅ = 0.
Proof. unfold msum. by rewrite map_to_list_empty. Qed.

Lemma msum_insert m k a : m !! k = None → msum (<[k := a]> m) = f k a + msum m.
Proof. intros Hk. unfold msum. by rewrite map_to_list_insert. Qed.

Lemma msum_delete m k a : m !! k = Some a → msum (delete k m) = msum m - f k a.
Proof.
  intros Hk. pose proof (msum_insert (delete k m) k a (lookup_delete_eq m k)) as Hi.
  rewrite insert_delete_id in Hi by done. lia.
Qed.

(** Replacing an entry changes the sum by the difference of the two. *)
Lemma msum_insert_old m k a :
  msum (<[k := a]> m) =
    msum m + f k a - match m !! k with Some old => f k old | None => 0 end.
Proof.
  destruct (m !! k) as [old|] eqn:Hk; [|rewrite msum_insert by done; lia].
  rewrite <- insert_delete_eq, msum_insert by apply lookup_delete_eq.
  rewrite (msum_delete _ _ _ Hk). lia.
Qed.

Lemma msum_nonneg m : (∀ k a, 0 <= f k a) → 0 <= msum m.
Proof.
  intros Hf. unfold msum. induction (map_to_list m) as [|[k a] l IH]; [done|].
  specialize (Hf k a). change (0 <= f k a + Zsum (uncurry f <$> l)). lia.
Qed.

Lemma msum_union m1 m2 : m1 ##ₘ m2 → msum (m1 ∪ m2) = msum m1 + msum m2.
Proof.
  induction m1 as [|k a m1 Hk IH] using map_ind; intros Hd.
  - by rewrite (left_id_L ∅ (∪)), msum_empty.
  - apply map_disjoint_insert_l in Hd as [Hk2 Hd].
    rewrite <- insert_union_l, !msum_insert, IH; [lia|done|done|by apply lookup_union_None].
Qed.

Lemma msum_mono m1 m2 : (∀ k a, 0 <= f k a) → m1 ⊆ m2 → msum m1 <= msum m2.
Proof.
  intros Hf Hm. rewrite <- (map_difference_union m1 m2) by done.
  rewrite msum_union by (by apply map_disjoint_difference_r1).
  pose proof (msum_nonneg (m2 ∖ m1) Hf). lia.
Qed.

(** A loop that adds up the entries in the runtime's order. *)
Lemma fold_range_msum `{GoRuntime} i m z :
  fold_left (λ total '(k, a), total + f k a) (range_map i m) z = z + msum m.
Proof.
  unfold msum. rewrite <- (range_map_perm i m). revert z.
  induction (range_map i m) as [|[k a] l IH]; intros z; [simpl; lia|].
  cbn [fold_left]. rewrite IH. change (Zsum (uncurry f <$> (k, a) :: l)) with
    (f k a + Zsum (uncurry f <$> l)). lia.
Qed.
End msum.

(** Entry by entry not larger. *)
Lemma msum_le `{Countable K} {A} (f : K → A → Z) (m1 m2 : gmap K A) :
  (∀ k a, 0 <= f k a) →
  (∀ k a, m1 !! k = Some a → ∃ b, m2 !! k = Some b ∧ f k a <= f k b) →
  msum f m1 <= msum f m2.
Proof.
  intros Hf. revert m2. induction m1 as [|k a m1 Hk IH] using map_ind; intros m2 Hle.
  - rewrite msum_empty. by apply msum_nonneg.
  - destruct (Hle k a) as (b & Hb & Hab); [apply lookup_insert_eq|].
    rewrite msum_insert by done.
    assert (Hm : msum f m1 <= msum f (delete k m2)); [|rewrite (msum_delete _ _ _ _ Hb) in Hm; lia].
    apply IH. intros k' a' Hk'. assert (k ≠ k') by congruence.
    destruct (Hle k' a') as (b' & ? & ?); [by rewrite lookup_insert_ne|].
    exists b'. by rewrite lookup_delete_ne.
Qed.
