(* ===== verification/GoStr.v ===== *)
(** * Go strings

    The functions of Go's [strings], [strconv] and [unicode/utf8] that the
    operator uses, on byte strings (a Go string is a byte sequence, and so is a
    [string] here), with the lemmas the components need. Nothing here models
    code of the repository: it is the vocabulary the models are written in. *)

From S2P Require Export Prelude.
From Stdlib Require Import Ascii.

Definition byte_val (c : ascii) : Z := Z.of_N (N_of_ascii c).
Definition byte_chr (z : Z) : ascii := ascii_of_N (Z.to_N z).

Definition bytes_of (s : string) : list Z := byte_val <$> String.list_ascii_of_string s.
Definition string_of_bytes (l : list Z) : string :=
  String.string_of_list_ascii (byte_chr <$> l).

(** [len(s)] *)
Definition go_len (s : string) : Z := Z.of_nat (String.length s).

(** [strings.HasPrefix], [strings.TrimPrefix] *)
Fixpoint has_prefix (p s : string) : bool :=
  match p, s with
  | EmptyString, _ => true
  | String a p, String b s => bool_decide (a = b) && has_prefix p s
  | _, _ => false
  end.

Fixpoint string_drop (n : nat) (s : string) : string :=
  match n, s with
  | S n, String _ s => string_drop n s
  | _, _ => s
  end.

Definition trim_prefix (p s : string) : string :=
  if has_prefix p s then string_drop (String.length p) s else s.

(** Per-byte map and test. *)
Fixpoint string_map (f : ascii → ascii) (s : string) : string :=
  match s with EmptyString => EmptyString | String c s => String (f c) (string_map f s) end.

Fixpoint string_forall (f : ascii → bool) (s : string) : bool :=
  match s with EmptyString => true | String c s => f c && string_forall f s end.

Fixpoint string_exists (f : ascii → bool) (s : string) : bool :=
  match s with EmptyString => false | String c s => f c || string_exists f s end.

Definition string_in (c : ascii) (s : string) : bool := string_exists (λ d, bool_decide (c = d)) s.

(** [strings.ReplaceAll(s, a, b)] for one-byte [a] and [b] *)
Definition replace_byte (a b : ascii) : string → string :=
  string_map (λ c, if bool_decide (c = a) then b else c).

(** [strings.ContainsAny] with an ASCII set of characters *)
Definition contains_any (s chars : string) : bool := string_exists (λ c, string_in c chars) s.

(** [strings.Join] *)
Fixpoint join (sep : string) (l : list string) : string :=
  match l with
  | [] => ""
  | [x] => x
  | x :: l => x +:+ sep +:+ join sep l
  end.

(** [strings.ToLower] on the ASCII letters (every use compares the result with
    an ASCII word that no other letter's lower case spells). *)
Definition ascii_lower (c : ascii) : ascii :=
  if (65 <=? byte_val c) && (byte_val c <=? 90) then byte_chr (byte_val c + 32) else c.
Definition to_lower : string → string := string_map ascii_lower.

(** [strconv.Itoa], [%d] *)
Definition itoa (z : Z) : string := pretty z.

(** ** UTF-8 *)

Definition between (lo hi b : Z) : bool := (lo <=? b) && (b <=? hi).

(** The range of the second byte that the first byte [b0] of a three or four
    byte sequence admits (no overlong forms, no surrogates, at most U+10FFFF). *)
Definition utf8_second_ok (b0 b1 : Z) : bool :=
  if b0 =? 0xE0 then between 0xA0 0xBF b1
  else if b0 =? 0xED then between 0x80 0x9F b1
  else if b0 =? 0xF0 then between 0x90 0xBF b1
  else if b0 =? 0xF4 then between 0x80 0x8F b1
  else between 0x80 0xBF b1.

(** [utf8.Valid] *)
Fixpoint utf8_valid (l : list Z) : bool :=
  match l with
  | [] => true
  | b0 :: t =>
      if b0 <? 0x80 then utf8_valid t else
      match t with
      | b1 :: t1 =>
          if between 0xC2 0xDF b0 then between 0x80 0xBF b1 && utf8_valid t1 else
          match t1 with
          | b2 :: t2 =>
              if between 0xE0 0xEF b0
              then utf8_second_ok b0 b1 && between 0x80 0xBF b2 && utf8_valid t2 else
              match t2 with
              | b3 :: t3 =>
                  between 0xF0 0xF4 b0 && utf8_second_ok b0 b1 &&
                  between 0x80 0xBF b2 && between 0x80 0xBF b3 && utf8_valid t3
              | [] => false
              end
          | [] => false
          end
      | [] => false
      end
  end.

(** ** [strconv.Quote] *)

Definition hex_digit (z : Z) : ascii :=
  if z <? 10 then byte_chr (48 + z) else byte_chr (87 + z).

(** The [n] low hexadecimal digits of [z], most significant first. *)
Fixpoint hex_digits (n : nat) (z : Z) : string :=
  match n with
  | O => ""
  | S n => hex_digits n (z / 16) +:+ String (hex_digit (z mod 16)) ""
  end.

Definition quote_ascii (b : Z) : string :=
  if (b =? 34) || (b =? 92) then String (byte_chr 92) (String (byte_chr b) "")
  else if between 0x20 0x7E b then String (byte_chr b) ""
  else if b =? 7 then "\a" else if b =? 8 then "\b" else if b =? 12 then "\f"
  else if b =? 10 then "\n" else if b =? 13 then "\r" else if b =? 9 then "\t"
  else if b =? 11 then "\v" else "\x" +:+ hex_digits 2 b.

Definition quote_rune `{GoRuntime} (r : Z) (bs : list Z) : string :=
  if unicode_is_print r then string_of_bytes bs
  else if r <? 0x10000 then "\u" +:+ hex_digits 4 r else "\U" +:+ hex_digits 8 r.

Fixpoint quote_bytes `{GoRuntime} (l : list Z) : string :=
  match l with
  | [] => ""
  | b0 :: t =>
      let bad := "\x" +:+ hex_digits 2 b0 +:+ quote_bytes t in
      if b0 <? 0x80 then quote_ascii b0 +:+ quote_bytes t else
      match t with
      | b1 :: t1 =>
          if between 0xC2 0xDF b0 then
            if between 0x80 0xBF b1
            then quote_rune ((b0 mod 32) * 64 + b1 mod 64) [b0; b1] +:+ quote_bytes t1
            else bad
          else
          match t1 with
          | b2 :: t2 =>
              if between 0xE0 0xEF b0 then
                if utf8_second_ok b0 b1 && between 0x80 0xBF b2
                then quote_rune ((b0 mod 16) * 4096 + (b1 mod 64) * 64 + b2 mod 64) [b0; b1; b2]
                       +:+ quote_bytes t2
                else bad
              else
              match t2 with
              | b3 :: t3 =>
                  if between 0xF0 0xF4 b0 && utf8_second_ok b0 b1 &&
                     between 0x80 0xBF b2 && between 0x80 0xBF b3
                  then quote_rune ((b0 mod 8) * 262144 + (b1 mod 64) * 4096 +
                                   (b2 mod 64) * 64 + b3 mod 64) [b0; b1; b2; b3]
                         +:+ quote_bytes t3
                  else bad
              | [] => bad
              end
          | [] => bad
          end
      | [] => bad
      end
  end.

Definition dquote : string := String (byte_chr 34) "".

(** [%q] of a string *)
Definition quote `{GoRuntime} (s : string) : string :=
  dquote +:+ quote_bytes (bytes_of s) +:+ dquote.

(** ** Lemmas on strings *)

Section string_lemmas.
Implicit Types s t u : string.

Lemma str_app_assoc s t u : (s +:+ t) +:+ u = s +:+ (t +:+ u).
Proof. induction s as [|c s IH]; simpl; [done | by rewrite IH]. Qed.

Lemma str_app_nil_r s : s +:+ "" = s.
Proof. induction s as [|c s IH]; simpl; [done | by rewrite IH]. Qed.

Lemma str_app_inj s t u : s +:+ t = s +:+ u → t = u.
Proof. induction s as [|c s IH]; simpl; [done | intros [=]; auto]. Qed.

Lemma str_length_app s t : String.length (s +:+ t) = (String.length s + String.length t)%nat.
Proof. induction s as [|c s IH]; simpl; [done | by rewrite IH]. Qed.

Lemma str_app_nil s t : s +:+ t = "" → s = "" ∧ t = "".
Proof. by destruct s, t. Qed.

(** Two ways to cut a string overlap one way or the other. *)
Lemma str_app_split s t s' t' :
  s +:+ t = s' +:+ t' →
  (∃ m, s = s' +:+ m ∧ t' = m +:+ t) ∨ (∃ m, m ≠ "" ∧ s' = s +:+ m ∧ t = m +:+ t').
Proof.
  revert s'. induction s as [|c s IH]; intros s' Heq; simpl in *.
  - subst. destruct s' as [|c' s']; [left; by exists "" | right; by exists (String c' s')].
  - destruct s' as [|c' s']; simpl in *.
    + left. exists (String c s). simpl. by rewrite <- Heq.
    + injection Heq as -> Heq. destruct (IH _ Heq) as [(m & -> & ->)|(m & ? & -> & ->)].
      * left. by exists m.
      * right. by exists m.
Qed.

Lemma str_drop_app s t : string_drop (String.length s) (s +:+ t) = t.
Proof. induction s as [|c s IH]; simpl; [by destruct t | done]. Qed.

Lemma has_prefix_spec p s : has_prefix p s = true ↔ ∃ t, s = p +:+ t.
Proof.
  revert s. induction p as [|a p IH]; intros s; simpl; [naive_solver|].
  destruct s as [|b s]; simpl; [naive_solver|].
  rewrite andb_true_iff, bool_decide_eq_true, IH. naive_solver.
Qed.

Lemma has_prefix_app p t : has_prefix p (p +:+ t) = true.
Proof. apply has_prefix_spec; eauto. Qed.

Lemma trim_prefix_app p t : trim_prefix p (p +:+ t) = t.
Proof. unfold trim_prefix. by rewrite has_prefix_app, str_drop_app. Qed.

Lemma string_forall_app f s t : string_forall f (s +:+ t) = string_forall f s && string_forall f t.
Proof. induction s as [|c s IH]; simpl; [done | by rewrite IH, andb_assoc]. Qed.

Lemma string_forall_impl (f g : ascii → bool) s :
  (∀ c, f c = true → g c = true) → string_forall f s = true → string_forall g s = true.
Proof.
  intros Hfg. induction s as [|c s IH]; simpl; [done|]. rewrite !andb_true_iff. naive_solver.
Qed.

Lemma string_map_length f s : String.length (string_map f s) = String.length s.
Proof. induction s as [|c s IH]; simpl; [done | by rewrite IH]. Qed.

Lemma string_map_app f s t : string_map f (s +:+ t) = string_map f s +:+ string_map f t.
Proof. induction s as [|c s IH]; simpl; [done | by rewrite IH]. Qed.

Lemma string_forall_map (f : ascii → bool) g s :
  (∀ c, f (g c) = true) → string_forall f (string_map g s) = true.
Proof. intros Hf. induction s as [|c s IH]; simpl; [done | by rewrite Hf]. Qed.

Lemma bytes_of_app s t : bytes_of (s +:+ t) = bytes_of s ++ bytes_of t.
Proof. induction s as [|c s IH]; [done|]. cbn. f_equal. exact IH. Qed.

Lemma bytes_of_cons c s : bytes_of (String c s) = byte_val c :: bytes_of s.
Proof. done. Qed.

Lemma bytes_of_length s : length (bytes_of s) = String.length s.
Proof. induction s as [|c s IH]; [done|]. rewrite bytes_of_cons. simpl. by rewrite IH. Qed.

Lemma byte_chr_val c : byte_chr (byte_val c) = c.
Proof. unfold byte_chr, byte_val. rewrite N2Z.id. apply ascii_N_embedding. Qed.

Lemma byte_val_range c : 0 <= byte_val c < 256.
Proof. unfold byte_val. pose proof (N_ascii_bounded c). lia. Qed.

Lemma byte_val_chr z : 0 <= z < 256 → byte_val (byte_chr z) = z.
Proof. intros Hz. unfold byte_val, byte_chr. rewrite N_ascii_embedding by lia. lia. Qed.

Lemma byte_val_inj c d : byte_val c = byte_val d → c = d.
Proof. intros Heq. by rewrite <- (byte_chr_val c), <- (byte_chr_val d), Heq. Qed.

Lemma bytes_of_inj s t : bytes_of s = bytes_of t → s = t.
Proof.
  revert t. induction s as [|c s IH]; intros [|d t]; try done.
  rewrite !bytes_of_cons. intros [= Hc%byte_val_inj Hs]. subst. f_equal. by apply IH.
Qed.

Lemma string_of_bytes_of s : string_of_bytes (bytes_of s) = s.
Proof.
  induction s as [|c s IH]; [done|]. rewrite bytes_of_cons. unfold string_of_bytes in *.
  cbn. rewrite byte_chr_val. f_equal. exact IH.
Qed.

Lemma go_len_nonneg s : 0 <= go_len s.
Proof. unfold go_len. lia. Qed.

Lemma go_len_app s t : go_len (s +:+ t) = go_len s + go_len t.
Proof. unfold go_len. rewrite str_length_app. lia. Qed.
End string_lemmas.

#[export] Hint Resolve byte_val_range go_len_nonneg : core.
