(* ===== verification/GoHash.v ===== *)
(** * Checksums of Go's standard library

    CRC-32 (IEEE), 32-bit FNV-1a, MD5 and SHA-256 on byte lists, with machine
    words as [Z] below [2^32]. Nothing here models code of the repository. *)

From S2P Require Export GoStr.

Definition w32 (z : Z) : Z := Z.land z 0xFFFFFFFF.
Definition rotl32 (n x : Z) : Z :=
  w32 (Z.lor (Z.shiftl x n) (Z.shiftr x (32 - n))).
Definition rotr32 (n x : Z) : Z := rotl32 (32 - n) x.
Definition not32 (x : Z) : Z := Z.lxor x 0xFFFFFFFF.

(** ** [crc32.ChecksumIEEE] *)

Fixpoint crc32_bits (n : nat) (crc : Z) : Z :=
  match n with
  | O => crc
  | S n => crc32_bits n (if Z.testbit crc 0 then Z.lxor (Z.shiftr crc 1) 0xEDB88320 else Z.shiftr crc 1)
  end.

Definition crc32_byte (crc b : Z) : Z := crc32_bits 8 (Z.lxor crc (Z.land b 0xFF)).

Definition crc32_ieee (l : list Z) : Z := not32 (fold_left crc32_byte l 0xFFFFFFFF).

(** ** [fnv.New32a] *)

Definition fnv32a (l : list Z) : Z :=
  fold_left (λ h b, w32 (Z.lxor h b * 16777619)) l 2166136261.

(** ** Padding of the Merkle-Damgard hashes *)

Definition be_bytes (n : nat) (z : Z) : list Z :=
  (λ i, Z.land (Z.shiftr z (8 * Z.of_nat i)) 0xFF) <$> rev (seq 0 n).
Definition le_bytes (n : nat) (z : Z) : list Z :=
  (λ i, Z.land (Z.shiftr z (8 * Z.of_nat i)) 0xFF) <$> seq 0 n.
Definition be_word (l : list Z) : Z := fold_left (λ a b, a * 256 + b) l 0.
Definition le_word (l : list Z) : Z := be_word (rev l).

Definition pad_zeros (len : Z) : nat := Z.to_nat ((55 - len) mod 64).

Definition md_pad (enc : Z → list Z) (l : list Z) : list Z :=
  let len := Z.of_nat (length l) in
  l ++ [0x80] ++ replicate (pad_zeros len) 0 ++ enc (8 * len).

(** The chunks of [n] bytes of a list whose length [n] divides. *)
Fixpoint chunks (fuel n : nat) (l : list Z) : list (list Z) :=
  match fuel, l with
  | O, _ | _, [] => []
  | S fuel, _ => take n l :: chunks fuel n (drop n l)
  end.

Definition words (dec : list Z → Z) (block : list Z) : list Z := dec <$> chunks 16 4 block.

(** ** [sha256.Sum256] *)

(** The constants are the first 32 bits of the fractional parts of the cube roots of
    the first 64 primes, and of the square roots of the first eight. *)
Definition small_primes : list Z :=
  Eval cbv in List.filter (λ p, forallb (λ d, negb (p mod d =? 0)) (seqZ 2 (p - 2))) (seqZ 2 310).

(** The integer cube root, bit by bit from [2^n]. *)
Fixpoint icbrt (n : nat) (r x : Z) : Z :=
  match n with
  | O => r
  | S n => let r' := r + 2 ^ Z.of_nat n in icbrt n (if r' * r' * r' <=? x then r' else r) x
  end.

Definition sha256_k : list Z := (λ p, icbrt 36 0 (Z.shiftl p 96) mod 2 ^ 32) <$> small_primes.

(** The message schedule, newest word first; [ws] holds the 16 words of the block. *)
Fixpoint sha256_schedule (n : nat) (ws : list Z) : list Z :=
  match n with
  | O => rev ws
  | S n =>
      let w i := nth i ws 0 in
      let s0 := Z.lxor (Z.lxor (rotr32 7 (w 14%nat)) (rotr32 18 (w 14%nat))) (Z.shiftr (w 14%nat) 3) in
      let s1 := Z.lxor (Z.lxor (rotr32 17 (w 1%nat)) (rotr32 19 (w 1%nat))) (Z.shiftr (w 1%nat) 10) in
      sha256_schedule n (w32 (w 15%nat + s0 + w 6%nat + s1) :: ws)
  end.

Definition sha256_round (st : list Z) (kw : Z * Z) : list Z :=
  match st with
  | [a; b; c; d; e; f; g; h] =>
      let s1 := Z.lxor (Z.lxor (rotr32 6 e) (rotr32 11 e)) (rotr32 25 e) in
      let sel := Z.lxor (Z.land e f) (Z.land (not32 e) g) in
      let t1 := h + s1 + sel + kw.1 + kw.2 in
      let s0 := Z.lxor (Z.lxor (rotr32 2 a) (rotr32 13 a)) (rotr32 22 a) in
      let maj := Z.lxor (Z.lxor (Z.land a b) (Z.land a c)) (Z.land b c) in
      [w32 (t1 + s0 + maj); a; b; c; w32 (d + t1); e; f; g]
  | _ => st
  end.

Definition sha256_block (st : list Z) (block : list Z) : list Z :=
  let ws := sha256_schedule 48 (rev (words be_word block)) in
  zip_with (λ a b, w32 (a + b)) st (fold_left sha256_round (zip sha256_k ws) st).

Definition sha256_init : list Z := (λ p, Z.sqrt (Z.shiftl p 64) mod 2 ^ 32) <$> take 8 small_primes.

Definition sha256 (l : list Z) : list Z :=
  let m := md_pad (be_bytes 8) l in
  mjoin (be_bytes 4 <$> fold_left sha256_block (chunks (length m) 64 m) sha256_init).

(** ** [md5.Sum] *)

Definition md5_k : list Z :=
  [0xd76aa478; 0xe8c7b756; 0x242070db; 0xc1bdceee; 0xf57c0faf; 0x4787c62a; 0xa8304613; 0xfd469501;
   0x698098d8; 0x8b44f7af; 0xffff5bb1; 0x895cd7be; 0x6b901122; 0xfd987193; 0xa679438e; 0x49b40821;
   0xf61e2562; 0xc040b340; 0x265e5a51; 0xe9b6c7aa; 0xd62f105d; 0x02441453; 0xd8a1e681; 0xe7d3fbc8;
   0x21e1cde6; 0xc33707d6; 0xf4d50d87; 0x455a14ed; 0xa9e3e905; 0xfcefa3f8; 0x676f02d9; 0x8d2a4c8a;
   0xfffa3942; 0x8771f681; 0x6d9d6122; 0xfde5380c; 0xa4beea44; 0x4bdecfa9; 0xf6bb4b60; 0xbebfbc70;
   0x289b7ec6; 0xeaa127fa; 0xd4ef3085; 0x04881d05; 0xd9d4d039; 0xe6db99e5; 0x1fa27cf8; 0xc4ac5665;
   0xf4292244; 0x432aff97; 0xab9423a7; 0xfc93a039; 0x655b59c3; 0x8f0ccc92; 0xffeff47d; 0x85845dd1;
   0x6fa87e4f; 0xfe2ce6e0; 0xa3014314; 0x4e0811a1; 0xf7537e82; 0xbd3af235; 0x2ad7d2bb; 0xeb86d391].

Definition md5_shift (i : Z) : Z :=
  nth (Z.to_nat (4 * (i / 16) + i mod 4)) [7; 12; 17; 22; 5; 9; 14; 20; 4; 11; 16; 23; 6; 10; 15; 21] 0.

Definition md5_round (ws : list Z) (st : list Z) (ik : nat * Z) : list Z :=
  match st with
  | [a; b; c; d] =>
      let i := Z.of_nat ik.1 in
      let '(f, g) :=
        if i <? 16 then (Z.lor (Z.land b c) (Z.land (not32 b) d), i)
        else if i <? 32 then (Z.lor (Z.land d b) (Z.land (not32 d) c), (5 * i + 1) mod 16)
        else if i <? 48 then (Z.lxor (Z.lxor b c) d, (3 * i + 5) mod 16)
        else (Z.lxor c (Z.lor b (not32 d)), (7 * i) mod 16) in
      [d; w32 (b + rotl32 (md5_shift i) (w32 (a + f + ik.2 + nth (Z.to_nat g) ws 0))); b; c]
  | _ => st
  end.

Definition md5_block (st : list Z) (block : list Z) : list Z :=
  zip_with (λ a b, w32 (a + b)) st
    (fold_left (md5_round (words le_word block)) (zip (seq 0 64) md5_k) st).

Definition md5 (l : list Z) : list Z :=
  let m := md_pad (le_bytes 8) l in
  mjoin (le_bytes 4 <$> fold_left md5_block (chunks (length m) 64 m)
           [0x67452301; 0xefcdab89; 0x98badcfe; 0x10325476]).

(** Published test vectors of the four functions. *)
Example crc32_vector : crc32_ieee (bytes_of "123456789") = 0xCBF43926.
Proof. vm_compute. reflexivity. Qed.
Example fnv32a_vector : fnv32a (bytes_of "foobar") = 0xbf9cf968.
Proof. vm_compute. reflexivity. Qed.
Example md5_vector :
  be_word (md5 (bytes_of "12345678901234567890123456789012345678901234567890123456789012345678901234567890"))
  = 0x57edf4a22be3c955ac49da2e2107b67a.
Proof. vm_compute. reflexivity. Qed.
Example sha256_vector :
  be_word (sha256 (bytes_of "abcdbcdecdefdefgefghfghighijhijkijkljklmklmnlmnomnopnopq"))
  = 0x248d6a61d20638b8e5c026930c3e6039a33ce45964ff2167f6ecedd419db06c1.
Proof. vm_compute. reflexivity. Qed.

(** ** Ranges *)

Lemma lxor_range (n a b : Z) : 0 <= n → 0 <= a < 2 ^ n → 0 <= b < 2 ^ n → 0 <= Z.lxor a b < 2 ^ n.
Proof.
  intros Hn Ha Hb. assert (Hnn : 0 <= Z.lxor a b) by (apply Z.lxor_nonneg; lia).
  split; [done|]. destruct (decide (n = 0)) as [->|Hn0].
  { change (2 ^ 0) with 1 in *. by replace a with 0 by lia; replace b with 0 by lia. }
  assert (Hlog : ∀ x, 0 <= x < 2 ^ n → Z.log2 x < n).
  { intros x Hx. destruct (decide (x = 0)) as [->|]; [simpl; lia|].
    apply Z.log2_lt_pow2; lia. }
  destruct (decide (Z.lxor a b = 0)) as [->|Hne]; [lia|].
  apply Z.log2_lt_pow2; [lia|]. eapply Z.le_lt_trans; [apply Z.log2_lxor; lia|].
  apply Z.max_lub_lt; by apply Hlog.
Qed.

Lemma crc32_bits_range n c : 0 <= c < 2 ^ 32 → 0 <= crc32_bits n c < 2 ^ 32.
Proof.
  revert c. induction n as [|n IH]; intros c Hc; cbn [crc32_bits]; [done|]. apply IH.
  assert (0 <= Z.shiftr c 1 < 2 ^ 32).
  { rewrite Z.shiftr_div_pow2 by lia. change (2 ^ 1) with 2.
    split; [apply Z_div_pos; lia | apply Z.div_lt_upper_bound; lia]. }
  destruct (Z.testbit c 0); [|done]. apply lxor_range; lia.
Qed.

Lemma crc32_byte_range c b : 0 <= c < 2 ^ 32 → 0 <= crc32_byte c b < 2 ^ 32.
Proof.
  intros Hc. apply crc32_bits_range, lxor_range; [lia | done |].
  change 0xFF with (Z.ones 8). rewrite Z.land_ones by lia.
  pose proof (Z.mod_pos_bound b (2 ^ 8)). lia.
Qed.

Lemma crc32_ieee_range l : 0 <= crc32_ieee l < 2 ^ 32.
Proof.
  unfold crc32_ieee, not32. apply lxor_range; [lia | | lia].
  assert (Hi : 0 <= 0xFFFFFFFF < 2 ^ 32) by lia. revert Hi.
  generalize 0xFFFFFFFF. induction l as [|b l IH]; intros c Hc; simpl; [done|].
  apply IH. by apply crc32_byte_range.
Qed.
