(* ===== verification/Errors.v ===== *)
(** * Errors

    The error values of the operator. Go's [error] is an interface; the
    implementations the program creates or tests for are the constructors here.
    [error_string] is their [Error()] method, [err_unwrap] is [errors.Unwrap],
    and the [errors.As] tests of the controllers search [err_chain]. *)

From S2P Require Export GoStr.

(** The [metav1.StatusReason]s of API server errors the program tells apart. *)
Inductive api_reason :=
| ReasonNotFound
| ReasonAlreadyExists
| ReasonConflict
| ReasonInvalid
| ReasonOther (code : string).

#[export] Instance api_reason_eq_dec : EqDecision api_reason.
Proof. solve_decision. Defined.

(** [config.SecretKeyTooLongError] *)
Record SecretKeyTooLongError := {
  tl_pipeline : string;
  tl_alias : string;
  tl_key : string;
  tl_flat_key : string
}.

(** [config.SecretValueUnsafeError] *)
Record SecretValueUnsafeError := {
  vu_namespace : string;
  vu_name : string;
  vu_key : string
}.

Inductive err :=
| ErrText (msg : string)                 (** [errors.New], [fmt.Errorf] without [%w] *)
| ErrWrap (pre : string) (e : err)       (** [fmt.Errorf(pre + "%w", e)] *)
| ErrSentinel (name msg : string)        (** a package-level [errors.New] compared by [errors.Is] *)
| ErrWrapSentinel (e : err) (post : string)  (** [fmt.Errorf("%w" + post, e)] *)
| ErrApi (reason : api_reason) (msg : string)
| ErrKeyTooLong (e : SecretKeyTooLongError)
| ErrResolve (e : err)                   (** [config.SecretResolveError] *)
| ErrValueUnsafe (e : SecretValueUnsafeError)
| ErrSizeData (e : err)                  (** [config.SecretSizeDataError] *)
| ErrSecretShape (msg : string)          (** [controller.invalidSecretShapeError] *)
| ErrJoin (e1 e2 : err)                  (** [errors.Join] *)
| ErrWraps (pre : string) (e1 : err) (mid : string) (e2 : err).
                                         (** [fmt.Errorf(pre + "%w" + mid + "%w", e1, e2)] *)

#[export] Instance err_eq_dec : EqDecision err.
Proof. intros e1 e2. unfold Decision. repeat decide equality. Defined.

Definition nl : string := String (byte_chr 10) "".

(** [validation.DNS1123SubdomainMaxLength] *)
Definition DNS1123SubdomainMaxLength : Z := 253.

Section error_string.
Context `{GoRuntime}.

(** [SecretKeyTooLongError.Error] *)
Definition SecretKeyTooLongError_Error (e : SecretKeyTooLongError) : string :=
  "secret reference " +:+ quote (tl_alias e +:+ "." +:+ tl_key e) +:+
  ": generated key " +:+ quote (tl_flat_key e) +:+ " is " +:+
  itoa (go_len (tl_flat_key e)) +:+ " characters, over the " +:+
  itoa DNS1123SubdomainMaxLength +:+
  " character Kubernetes Secret key limit; shorten the pipeline name, the secret alias, or the source key".

(** [SecretValueUnsafeError.Error] *)
Definition SecretValueUnsafeError_Error (e : SecretValueUnsafeError) : string :=
  "secret " +:+ vu_namespace e +:+ "/" +:+ vu_name e +:+ ": key " +:+ quote (vu_key e) +:+
  " holds a value that cannot be safely substituted into the generated config (it must be valid UTF-8 with no double quote, backslash, or control byte); rotate it to a value that satisfies this".

Fixpoint error_string (e : err) : string :=
  match e with
  | ErrText s => s
  | ErrWrap pre e => pre +:+ error_string e
  | ErrSentinel _ s => s
  | ErrWrapSentinel e post => error_string e +:+ post
  | ErrApi _ s => s
  | ErrKeyTooLong e => SecretKeyTooLongError_Error e
  | ErrResolve e => error_string e
  | ErrValueUnsafe e => SecretValueUnsafeError_Error e
  | ErrSizeData e => error_string e
  | ErrSecretShape s => s
  | ErrJoin e1 e2 => error_string e1 +:+ nl +:+ error_string e2
  | ErrWraps pre e1 mid e2 => pre +:+ error_string e1 +:+ mid +:+ error_string e2
  end.
End error_string.

(** [errors.Unwrap]; nil for a join and for several [%w] *)
Definition err_unwrap (e : err) : option err :=
  match e with
  | ErrWrap _ e | ErrWrapSentinel e _ | ErrResolve e | ErrSizeData e => Some e
  | _ => None
  end.

(** The chain [errors.As] and [errors.Is] visit. *)
Fixpoint err_chain (e : err) : list err :=
  e :: match e with
       | ErrWrap _ e | ErrWrapSentinel e _ | ErrResolve e | ErrSizeData e => err_chain e
       | ErrJoin e1 e2 | ErrWraps _ e1 _ e2 => err_chain e1 ++ err_chain e2
       | _ => []
       end.

(** [errors.As(err, &t)] for the types the controllers look for. *)
Definition errors_as (sel : err → bool) (e : err) : bool := existsb sel (err_chain e).

Definition is_resolve_error (e : err) : bool :=
  match e with ErrResolve _ => true | _ => false end.
Definition is_size_data_error (e : err) : bool :=
  match e with ErrSizeData _ => true | _ => false end.
Definition is_value_unsafe_error (e : err) : bool :=
  match e with ErrValueUnsafe _ => true | _ => false end.
Definition is_secret_shape_error (e : err) : bool :=
  match e with ErrSecretShape _ => true | _ => false end.

(** [ReasonForError] of the API machinery: of the first status in the chain. *)
Definition ReasonForError (e : err) : option api_reason :=
  head (omap (λ e, match e with ErrApi reason _ => Some reason | _ => None end) (err_chain e)).
Definition is_not_found (e : err) : bool :=
  match ReasonForError e with Some ReasonNotFound => true | _ => false end.
Definition is_already_exists (e : err) : bool :=
  match ReasonForError e with Some ReasonAlreadyExists => true | _ => false end.

Notation result := (res err).
