(* ===== verification/GoJson.v ===== *)
(** * JSON as [encoding/json] reads and writes it

    The values [json.Unmarshal] builds in an [any] and the parts of
    [encoding/json] the operator goes through: parsing a document into such a
    value, quoting a string, compacting raw JSON. Nothing here models code of the
    repository. A nested Go map is an association list in which every key occurs
    once; the order in which a loop visits it is the runtime's ([range_assoc]). *)

From S2P Require Export Errors.
From Stdlib Require Import Ascii.

(** A Go [any] as it occurs in component options. *)
Inductive value :=
| VNull
| VBool (b : bool)
| VNum (text : string)   (** a [float64] read from this literal *)
| VInt (z : Z)           (** an [int] written in the program *)
| VStr (s : string)
| VList (l : list value)
| VMap (l : list (string * value))
| VStrMap (l : list (string * string)).

Section value_ind.
Variable P : value → Prop.
Hypothesis Hnull : P VNull.
Hypothesis Hbool : ∀ b, P (VBool b).
Hypothesis Hnum : ∀ t, P (VNum t).
Hypothesis Hint : ∀ z, P (VInt z).
Hypothesis Hstr : ∀ s, P (VStr s).
Hypothesis Hlist : ∀ l, Forall P l → P (VList l).
Hypothesis Hmap : ∀ l, Forall (λ kv, P kv.2) l → P (VMap l).
Hypothesis Hstrmap : ∀ l, P (VStrMap l).

Fixpoint value_ind' (v : value) : P v :=
  match v with
  | VNull => Hnull
  | VBool b => Hbool b
  | VNum t => Hnum t
  | VInt z => Hint z
  | VStr s => Hstr s
  | VList l => Hlist l ((fix go l : Forall P l :=
      match l with [] => Forall_nil_2 _ | v :: l => Forall_cons_2 _ v l (value_ind' v) (go l) end) l)
  | VMap l => Hmap l ((fix go l : Forall (λ kv, P kv.2) l :=
      match l with
      | [] => Forall_nil_2 _
      | (k, v) :: l => Forall_cons_2 (λ kv, P kv.2) (k, v) l (value_ind' v) (go l)
      end) l)
  | VStrMap l => Hstrmap l
  end.
End value_ind.

(** ** Strings *)

Definition ch (z : Z) : ascii := byte_chr z.
Definition is_ch (c : ascii) (z : Z) : bool := byte_val c =? z.

Definition hex_val (c : ascii) : option Z :=
  let b := byte_val c in
  if between 48 57 b then Some (b - 48)
  else if between 97 102 b then Some (b - 87)
  else if between 65 70 b then Some (b - 55)
  else None.

Definition hex4 (a b c d : ascii) : option Z :=
  a ← hex_val a; b ← hex_val b; c ← hex_val c; d ← hex_val d;
  Some (((a * 16 + b) * 16 + c) * 16 + d).

(** [utf8.AppendRune] *)
Definition utf8_encode (r : Z) : string :=
  string_of_bytes
    (if r <? 0x80 then [r]
     else if r <? 0x800 then [0xC0 + r / 64; 0x80 + r mod 64]
     else if between 0xD800 0xDFFF r || (0x10FFFF <? r) then [0xEF; 0xBF; 0xBD]
     else if r <? 0x10000 then [0xE0 + r / 4096; 0x80 + r / 64 mod 64; 0x80 + r mod 64]
     else [0xF0 + r / 262144; 0x80 + r / 4096 mod 64; 0x80 + r / 64 mod 64; 0x80 + r mod 64]).

(** Every byte that starts no valid sequence becomes [bad]; [esc] rewrites a valid
    multi-byte rune. *)
Fixpoint utf8_rewrite (bad : string) (esc : list Z → option string) (l : list Z) : string :=
  match l with
  | [] => ""
  | b0 :: t =>
      let rest := utf8_rewrite bad esc t in
      let one := String (ch b0) rest in
      let inv := bad +:+ rest in
      let run bs := match esc bs with Some s => s | None => string_of_bytes bs end in
      if b0 <? 0x80 then one else
      match t with
      | b1 :: t1 =>
          if between 0xC2 0xDF b0 then
            if between 0x80 0xBF b1 then run [b0; b1] +:+ utf8_rewrite bad esc t1 else inv
          else
          match t1 with
          | b2 :: t2 =>
              if between 0xE0 0xEF b0 then
                if utf8_second_ok b0 b1 && between 0x80 0xBF b2
                then run [b0; b1; b2] +:+ utf8_rewrite bad esc t2 else inv
              else
              match t2 with
              | b3 :: t3 =>
                  if between 0xF0 0xF4 b0 && utf8_second_ok b0 b1 &&
                     between 0x80 0xBF b2 && between 0x80 0xBF b3
                  then run [b0; b1; b2; b3] +:+ utf8_rewrite bad esc t3 else inv
              | [] => inv
              end
          | [] => inv
          end
      | [] => inv
      end
  end.

Definition utf8_sanitize (s : string) : string :=
  utf8_rewrite (string_of_bytes [0xEF; 0xBF; 0xBD]) (λ _, None) (bytes_of s).

(** The characters of a JSON string literal after its opening quote, up to and
    excluding the closing one, with escapes decoded; the rest of the input. *)
Fixpoint json_chars (s : string) : option (string * string) :=
  match s with
  | EmptyString => None
  | String c s1 =>
      if is_ch c 34 then Some ("", s1)
      else if is_ch c 92 then
        match s1 with
        | String e s2 =>
            let simple (z : Z) := match json_chars s2 with
                                  | Some (t, r) => Some (String (ch z) t, r)
                                  | None => None
                                  end in
            if is_ch e 34 || is_ch e 92 || is_ch e 47 then simple (byte_val e)
            else if is_ch e 98 then simple 8 else if is_ch e 102 then simple 12
            else if is_ch e 110 then simple 10 else if is_ch e 114 then simple 13
            else if is_ch e 116 then simple 9
            else if is_ch e 117 then
              match s2 with
              | String a (String b (String d (String f s3))) =>
                  match hex4 a b d f with
                  | None => None
                  | Some r =>
                      let alone := match json_chars s3 with
                                   | Some (t, rest) => Some (utf8_encode r +:+ t, rest)
                                   | None => None
                                   end in
                      if between 0xD800 0xDBFF r then
                        match s3 with
                        | String bs (String u (String a' (String b' (String d' (String f' s4))))) =>
                            if is_ch bs 92 && is_ch u 117 then
                              match hex4 a' b' d' f' with
                              | Some r' =>
                                  if between 0xDC00 0xDFFF r' then
                                    match json_chars s4 with
                                    | Some (t, rest) =>
                                        Some (utf8_encode (0x10000 + (r - 0xD800) * 1024 + (r' - 0xDC00)) +:+ t, rest)
                                    | None => None
                                    end
                                  else alone
                              | None => alone
                              end
                            else alone
                        | _ => alone
                        end
                      else alone
                  end
              | _ => None
              end
            else None
        | EmptyString => None
        end
      else if byte_val c <? 32 then None
      else match json_chars s1 with Some (t, r) => Some (String c t, r) | None => None end
  end.

(** ** Documents *)

Fixpoint skip_ws (s : string) : string :=
  match s with
  | String c s' =>
      if is_ch c 32 || is_ch c 9 || is_ch c 10 || is_ch c 13 then skip_ws s' else s
  | EmptyString => EmptyString
  end.

Definition is_digit (c : ascii) : bool := between 48 57 (byte_val c).

(** The longest prefix whose bytes all satisfy [f], and the rest. *)
Fixpoint span (f : ascii → bool) (s : string) : string * string :=
  match s with
  | String c s' => if f c then let '(a, b) := span f s' in (String c a, b) else ("", s)
  | EmptyString => ("", "")
  end.

(** A JSON number, as its literal text. *)
Definition json_number (s : string) : option (string * string) :=
  let '(sign, s1) := match s with
                     | String c s' => if is_ch c 45 then ("-", s') else ("", s)
                     | _ => ("", s)
                     end in
  let '(int, s2) := match s1 with
                    | String c s' => if is_ch c 48 then ("0", s') else span is_digit s1
                    | _ => ("", s1)
                    end in
  if bool_decide (int = "") then None else
  let frac := match s2 with
              | String c s' =>
                  if is_ch c 46 then
                    let '(ds, r) := span is_digit s' in
                    if bool_decide (ds = "") then None else Some ("." +:+ ds, r)
                  else Some ("", s2)
              | _ => Some ("", s2)
              end in
  '(fr, s3) ← frac;
  let exp := match s3 with
             | String c s' =>
                 if is_ch c 101 || is_ch c 69 then
                   let '(sg, s'') := match s' with
                                     | String d t => if is_ch d 43 || is_ch d 45
                                                     then (String d "", t) else ("", s')
                                     | _ => ("", s')
                                     end in
                   let '(ds, r) := span is_digit s'' in
                   if bool_decide (ds = "") then None else Some (String c sg +:+ ds, r)
                 else Some ("", s3)
             | _ => Some ("", s3)
             end in
  '(ex, s4) ← exp;
  Some (sign +:+ int +:+ fr +:+ ex, s4).

(** [m[k] = v] on the association list of a map under construction. *)
Fixpoint assoc_set {A} (k : string) (v : A) (l : list (string * A)) : list (string * A) :=
  match l with
  | [] => [(k, v)]
  | (k', v') :: l => if bool_decide (k = k') then (k, v) :: l else (k', v') :: assoc_set k v l
  end.

Fixpoint assoc_get {A} (k : string) (l : list (string * A)) : option A :=
  match l with
  | [] => None
  | (k', v) :: l => if bool_decide (k = k') then Some v else assoc_get k l
  end.

Definition expect (p s : string) : option string :=
  if has_prefix p s then Some (string_drop (String.length p) s) else None.

(** A value, the elements of an array after [[] or [,], the members of an object
    after [{] or [,]; [n] bounds the number of calls. *)
Fixpoint json_value (n : nat) (s : string) : option (value * string) :=
  match n with
  | O => None
  | S n =>
      match skip_ws s with
      | EmptyString => None
      | String c s1 as s0 =>
          if is_ch c 34 then
            '(t, r) ← json_chars s1; Some (VStr (utf8_sanitize t), r)
          else if is_ch c 91 then
            match skip_ws s1 with
            | String d r => if is_ch d 93 then Some (VList [], r) else
                '(l, r) ← json_elems n s1; Some (VList l, r)
            | _ => None
            end
          else if is_ch c 123 then
            match skip_ws s1 with
            | String d r => if is_ch d 125 then Some (VMap [], r) else
                '(l, r) ← json_members n [] s1; Some (VMap l, r)
            | _ => None
            end
          else if is_ch c 116 then r ← expect "true" s0; Some (VBool true, r)
          else if is_ch c 102 then r ← expect "false" s0; Some (VBool false, r)
          else if is_ch c 110 then r ← expect "null" s0; Some (VNull, r)
          else '(t, r) ← json_number s0; Some (VNum t, r)
      end
  end
with json_elems (n : nat) (s : string) : option (list value * string) :=
  match n with
  | O => None
  | S n =>
      '(v, r) ← json_value n s;
      match skip_ws r with
      | String c r => if is_ch c 44 then '(l, r) ← json_elems n r; Some (v :: l, r)
                      else if is_ch c 93 then Some ([v], r) else None
      | _ => None
      end
  end
with json_members (n : nat) (acc : list (string * value)) (s : string) :
    option (list (string * value) * string) :=
  match n with
  | O => None
  | S n =>
      match skip_ws s with
      | String c s1 =>
          if is_ch c 34 then
            '(k, r) ← json_chars s1;
            r ← expect ":" (skip_ws r);
            '(v, r) ← json_value n r;
            let acc := assoc_set (utf8_sanitize k) v acc in
            match skip_ws r with
            | String c r => if is_ch c 44 then json_members n acc r
                            else if is_ch c 125 then Some (acc, r) else None
            | _ => None
            end
          else None
      | _ => None
      end
  end.

(** [json.Unmarshal] of a document into an [any] ([None]: a syntax error). Every
    call but the first consumes a byte or is made right after one that did, so
    twice the length is enough calls. *)
Definition json_parse (s : string) : option value :=
  match json_value (2 * String.length s + 2) s with
  | Some (v, r) => if bool_decide (skip_ws r = "") then Some v else None
  | None => None
  end.

(** ** [json.Marshal] *)

(** A rune inside a marshalled string: U+2028 and U+2029 are escaped. *)
Definition json_line_sep (bs : list Z) : option string :=
  if bool_decide (bs = [0xE2; 0x80; 0xA8]) then Some "\u2028"
  else if bool_decide (bs = [0xE2; 0x80; 0xA9]) then Some "\u2029" else None.

Definition json_escape_ascii (c : ascii) : string :=
  let b := byte_val c in
  if b =? 34 then String (ch 92) dquote
  else if b =? 92 then "\\"
  else if b =? 8 then "\b" else if b =? 12 then "\f" else if b =? 10 then "\n"
  else if b =? 13 then "\r" else if b =? 9 then "\t"
  else if (b <? 32) || (b =? 60) || (b =? 62) || (b =? 38) then "\u00" +:+ hex_digits 2 b
  else String c "".

(** The escapes of ASCII characters are applied before the multi-byte ones: they
    produce and consume ASCII only. *)
Fixpoint json_escape_bytes (s : string) : string :=
  match s with EmptyString => "" | String c s => json_escape_ascii c +:+ json_escape_bytes s end.

Definition json_quote (s : string) : string :=
  dquote +:+ utf8_rewrite "\ufffd" json_line_sep (bytes_of (json_escape_bytes s)) +:+ dquote.

(** A struct or a map with its members already in marshalling order. *)
Definition json_obj (members : list (string * string)) : string :=
  "{" +:+ join "," ((λ '(k, v), json_quote k +:+ ":" +:+ v) <$> members) +:+ "}".

(** [compact(..., escape = true)]: the text a [Marshaler] returned, without white
    space outside strings and with the HTML characters escaped. *)
Fixpoint json_compact_go (in_str esc : bool) (s : string) : string :=
  match s with
  | EmptyString => ""
  | String c s =>
      if in_str then
        let b := byte_val c in
        let out := if (b =? 60) || (b =? 62) || (b =? 38) then "\u00" +:+ hex_digits 2 b
                   else String c "" in
        out +:+ json_compact_go (esc || negb (is_ch c 34)) (negb esc && is_ch c 92) s
      else if is_ch c 32 || is_ch c 9 || is_ch c 10 || is_ch c 13 then json_compact_go false false s
      else String c (json_compact_go (is_ch c 34) false s)
  end.

(** [utf8_rewrite] with no replacement text for invalid bytes would drop them, so
    the line separators are rewritten byte by byte. *)
Fixpoint json_compact_seps (l : list Z) : string :=
  match l with
  | 0xE2 :: 0x80 :: 0xA8 :: l => "\u2028" +:+ json_compact_seps l
  | 0xE2 :: 0x80 :: 0xA9 :: l => "\u2029" +:+ json_compact_seps l
  | b :: l => String (ch b) (json_compact_seps l)
  | [] => ""
  end.

Definition json_compact (s : string) : string :=
  json_compact_seps (bytes_of (json_compact_go false false s)).

(** ** Lemmas *)

(** A byte that stands for itself inside a JSON string. *)
Definition json_plain (b : Z) : bool := negb ((b =? 34) || (b =? 92) || (b <? 32)).

(** Plain bytes pass through the decoding of a string literal unchanged, whatever
    follows them. *)
Lemma json_chars_plain v s :
  Forall (λ b, json_plain b = true) (bytes_of v) →
  json_chars (v +:+ s) = (λ '(t, r), (v +:+ t, r)) <$> json_chars s.
Proof.
  induction v as [|c v IH]; intros Hv.
  - simpl. by destruct (json_chars s) as [[t r]|].
  - rewrite bytes_of_cons in Hv. apply Forall_cons in Hv as [Hc Hv].
    unfold json_plain in Hc. rewrite negb_true_iff, !orb_false_iff in Hc.
    destruct Hc as [[H34 H92] H32]. cbn [String.append json_chars].
    unfold is_ch. rewrite H34, H92, H32, IH by done.
    by destruct (json_chars s) as [[t r]|].
Qed.

(** Valid UTF-8 is its own sanitized form. *)
Lemma utf8_rewrite_valid bad l :
  utf8_valid l = true → utf8_rewrite bad (λ _, None) l = string_of_bytes l.
Proof.
  remember (length l) as n eqn:Hn. revert l Hn.
  induction n as [n IH] using lt_wf_ind. intros l ->.
  assert (Hsob : ∀ b l, string_of_bytes (b :: l) = String (ch b) (string_of_bytes l)) by done.
  destruct l as [|b0 t]; [done|]. cbn [utf8_valid utf8_rewrite].
  destruct (b0 <? 0x80).
  { intros Hv. rewrite IH with (m := length t) by (simpl; auto with lia). by rewrite Hsob. }
  destruct t as [|b1 t1]; [done|]. destruct (between 0xC2 0xDF b0).
  { intros [-> Hv]%andb_true_iff. rewrite IH with (m := length t1) by (simpl; auto with lia). done. }
  destruct t1 as [|b2 t2]; [done|]. destruct (between 0xE0 0xEF b0).
  { intros [-> Hv]%andb_true_iff. rewrite IH with (m := length t2) by (simpl; auto with lia). done. }
  destruct t2 as [|b3 t3]; [done|]. intros [Hb Hv]%andb_true_iff. rewrite Hb.
  rewrite IH with (m := length t3) by (simpl; auto with lia). done.
Qed.

Lemma utf8_sanitize_valid s : utf8_valid (bytes_of s) = true → utf8_sanitize s = s.
Proof. intros. unfold utf8_sanitize. rewrite utf8_rewrite_valid by done. apply string_of_bytes_of. Qed.

Lemma json_parse_string s :
  json_parse (dquote +:+ s) =
    ('(t, r) ← json_chars s; if bool_decide (skip_ws r = "") then Some (VStr (utf8_sanitize t)) else None).
Proof.
  unfold json_parse. replace (2 * String.length (dquote +:+ s) + 2)%nat
    with (S (2 * String.length (dquote +:+ s) + 1)) by lia.
  change (json_value (S ?n) (dquote +:+ s)) with
    ('(t, r) ← json_chars s; Some (VStr (utf8_sanitize t), r)).
  by destruct (json_chars s) as [[t r]|].
Qed.
