(* ===== verification/Api.v ===== *)
(** * The pipeline resources

    [src/api/v1alpha1]: the spec and status of VectorPipeline and
    ClusterVectorPipeline, the methods both share ([pipeline.Pipeline] is the
    interface over the two, told apart by [p_kind]), and the Kubernetes objects
    the operator reads, reduced to the fields it looks at. Times are seconds.

    [Libraries] gathers the functions of third-party packages the program calls;
    their code is not in the repository, so every definition that reaches one
    takes it as a parameter. *)

From S2P Require Export GoJson.

(** [corev1.Secret], as far as the operator reads it. *)
Record Secret := {
  sec_namespace : string;
  sec_name : string;
  sec_uid : string;
  sec_resource_version : string;
  sec_labels : gmap string string;
  sec_annotations : gmap string string;
  sec_owners : list string;
  sec_data : gmap string string
}.

(** [types.NamespacedName], [client.ObjectKey] *)
Definition NamespacedName : Type := string * string.

Record PipelineSecretBackend := {
  backend_type : string;
  backend_name : string;
  backend_namespace : string
}.

#[export] Instance PipelineSecretBackend_eq_dec : EqDecision PipelineSecretBackend.
Proof. solve_decision. Defined.

(** [runtime.RawExtension]: the text of the field as the API server stored it. *)
Record RawExtension := { re_raw : string }.

Record VectorPipelineSpec := {
  spec_sources : option RawExtension;
  spec_transforms : option RawExtension;
  spec_sinks : option RawExtension;
  spec_secret : gmap string PipelineSecretBackend
}.

Inductive VectorPipelineRole :=
| VectorPipelineRoleUnknown
| VectorPipelineRoleAgent
| VectorPipelineRoleAggregator.

#[export] Instance VectorPipelineRole_eq_dec : EqDecision VectorPipelineRole.
Proof. solve_decision. Defined.

Record VectorPipelineStatus := {
  st_role : option VectorPipelineRole;
  st_config_check_result : option bool;
  st_reason : option string;
  st_last_applied_pipeline_hash : option Z;
  st_related_secrets_hash : option Z
}.

#[export] Instance VectorPipelineStatus_eq_dec : EqDecision VectorPipelineStatus.
Proof. solve_decision. Defined.

(** Which of the two resources a [Pipeline] is: what the type assertion
    [p.( *VectorPipeline)] answers. *)
Inductive pipeline_kind := KVectorPipeline | KClusterVectorPipeline.

#[export] Instance pipeline_kind_eq_dec : EqDecision pipeline_kind.
Proof. solve_decision. Defined.

Record Pipeline := {
  p_kind : pipeline_kind;
  GetNamespace : string;
  GetName : string;
  GetCreationTimestamp : Z;
  p_deletion_timestamp : option Z;
  GetLabels : gmap string string;
  GetAnnotations : gmap string string;
  GetSpec : VectorPipelineSpec;
  p_status : VectorPipelineStatus
}.

(** [p.( *v1alpha1.VectorPipeline)] *)
Definition is_vp (p : Pipeline) : bool := bool_decide (p_kind p = KVectorPipeline).

(** [client.ObjectKeyFromObject] *)
Definition ObjectKey (p : Pipeline) : NamespacedName := (GetNamespace p, GetName p).

(** [m[k]] on a [map[string]string]: the zero value for an absent key. *)
Definition map_get (m : gmap string string) (k : string) : string := default "" (m !! k).

Definition IsValid (p : Pipeline) : bool := default false (st_config_check_result (p_status p)).
Definition IsDeleted (p : Pipeline) : bool := bool_decide (is_Some (p_deletion_timestamp p)).
Definition GetConfigCheckResult (p : Pipeline) : option bool := st_config_check_result (p_status p).
Definition GetReason (p : Pipeline) : option string := st_reason (p_status p).
Definition GetLastAppliedPipeline (p : Pipeline) : option Z :=
  st_last_applied_pipeline_hash (p_status p).
Definition GetRelatedSecretsHash (p : Pipeline) : option Z := st_related_secrets_hash (p_status p).
Definition GetRole (p : Pipeline) : VectorPipelineRole :=
  default VectorPipelineRoleUnknown (st_role (p_status p)).

Definition with_status (f : VectorPipelineStatus → VectorPipelineStatus) (p : Pipeline) : Pipeline :=
  {| p_kind := p_kind p; GetNamespace := GetNamespace p; GetName := GetName p;
     GetCreationTimestamp := GetCreationTimestamp p;
     p_deletion_timestamp := p_deletion_timestamp p;
     GetLabels := GetLabels p; GetAnnotations := GetAnnotations p;
     GetSpec := GetSpec p; p_status := f (p_status p) |}.

Definition SetConfigCheck (v : bool) : Pipeline → Pipeline :=
  with_status (λ s, {| st_role := st_role s; st_config_check_result := Some v;
    st_reason := st_reason s; st_last_applied_pipeline_hash := st_last_applied_pipeline_hash s;
    st_related_secrets_hash := st_related_secrets_hash s |}).
Definition SetReason (v : option string) : Pipeline → Pipeline :=
  with_status (λ s, {| st_role := st_role s; st_config_check_result := st_config_check_result s;
    st_reason := v; st_last_applied_pipeline_hash := st_last_applied_pipeline_hash s;
    st_related_secrets_hash := st_related_secrets_hash s |}).
Definition SetLastAppliedPipeline (v : option Z) : Pipeline → Pipeline :=
  with_status (λ s, {| st_role := st_role s; st_config_check_result := st_config_check_result s;
    st_reason := st_reason s; st_last_applied_pipeline_hash := v;
    st_related_secrets_hash := st_related_secrets_hash s |}).
Definition SetRelatedSecretsHash (v : option Z) : Pipeline → Pipeline :=
  with_status (λ s, {| st_role := st_role s; st_config_check_result := st_config_check_result s;
    st_reason := st_reason s; st_last_applied_pipeline_hash := st_last_applied_pipeline_hash s;
    st_related_secrets_hash := v |}).
Definition SetRole (v : option VectorPipelineRole) : Pipeline → Pipeline :=
  with_status (λ s, {| st_role := v; st_config_check_result := st_config_check_result s;
    st_reason := st_reason s; st_last_applied_pipeline_hash := st_last_applied_pipeline_hash s;
    st_related_secrets_hash := st_related_secrets_hash s |}).

(** ** Component configuration, as [mapstructure] decodes it *)

Record Source := {
  src_name : string;
  src_type : string;
  src_ns_selector : string;      (** [ExtraNamespaceLabelSelector] *)
  src_label_selector : string;   (** [ExtraLabelSelector] *)
  src_field_selector : string;   (** [ExtraFieldSelector] *)
  src_use_cache : bool;          (** [UseApiServerCache] *)
  src_options : list (string * value)
}.

(** [Transform] and [Sink] have the same fields. *)
Record Component := {
  c_name : string;
  c_type : string;
  c_inputs : list string;
  c_options : list (string * value)
}.

(** ** Third-party code *)

Class Libraries : Type := {
  (** [runtime.RawExtension.MarshalJSON] *)
  raw_marshal : RawExtension → result string;
  (** [mapstructure.Decode] into [map[string]*Source], [*Transform], [*Sink] *)
  decode_sources : gmap string value → result (gmap string Source);
  decode_components : gmap string value → result (gmap string Component);
  (** [labels.Parse]: the error, if any *)
  labels_parse : string → option err;
  (** [strcase.KebabCase] *)
  kebab_case : string → string;
  (** The generated protobuf [Secret.Size] *)
  secret_size : Secret → Z
}.
