(* ===== verification/K8sUtil.v ===== *)
(** * Kubernetes helpers

    [src/internal/utils/k8s]: label merging and matching and the namespace
    selector ([label.go], [k8s.go]). *)

From S2P Require Export Api.

(** [NamespaceNameToLabel] *)
Definition NamespaceNameToLabel (namespace : string) : string :=
  "kubernetes.io/metadata.name=" +:+ namespace.

Section labels.
Context `{GoRuntime}.

(** [MergeLabels]: a nil [dst] becomes an empty map, a nil [src] is an empty one. *)
Definition MergeLabels (dst src : gmap string string) : gmap string string :=
  fold_left (λ dst '(k, v), match dst !! k with Some _ => dst | None => <[k := v]> dst end)
    (range_map 1 src) dst.

(** [MatchLabels]; a nil selector has no entries. *)
Definition MatchLabels (selector labels : gmap string string) : bool :=
  forallb (λ '(k, v), bool_decide (map_get labels k = v)) (range_map 1 selector).

(** [mergeMaps] *)
Definition mergeMaps (new old : gmap string string) : gmap string string :=
  fold_left (λ old '(k, v), <[k := v]> old) (range_map 1 new) old.

Lemma MatchLabels_spec selector labels :
  MatchLabels selector labels = true ↔
  ∀ k v, selector !! k = Some v → map_get labels k = v.
Proof.
  unfold MatchLabels. rewrite forallb_forall. split.
  - intros Hall k v Hk. specialize (Hall (k, v)). simpl in Hall.
    rewrite bool_decide_eq_true in Hall. apply Hall.
    by apply list_elem_of_In, range_map_lookup.
  - intros Hall [k v] Hin%list_elem_of_In%range_map_lookup.
    apply bool_decide_eq_true. by apply Hall.
Qed.

(** The loop of [mergeMaps] and of [MergeLabels] over any order of the entries. *)
Lemma fold_insert_lookup {A} (l : list (string * A)) (m : gmap string A) k :
  NoDup l.*1 →
  fold_left (λ m '(k, v), <[k := v]> m) l m !! k =
    match (list_to_map l : gmap string A) !! k with Some v => Some v | None => m !! k end.
Proof.
  revert m. induction l as [|[k' v'] l IH]; intros m; simpl; [done|].
  intros [Hni Hnd]%NoDup_cons. rewrite IH by done.
  destruct (decide (k = k')) as [->|Hne].
  - rewrite lookup_insert_eq, lookup_insert_eq.
    by rewrite (not_elem_of_list_to_map_1 l k') by done.
  - by rewrite !lookup_insert_ne by done.
Qed.

Lemma range_map_to_map {A} i (m : gmap string A) :
  (list_to_map (range_map i m) : gmap string A) = m.
Proof.
  etrans; [|apply (list_to_map_to_list m)].
  apply list_to_map_proper; [apply range_map_keys_NoDup | apply range_map_perm].
Qed.

(** [mergeMaps] is the left-biased union. *)
Lemma mergeMaps_spec new old : mergeMaps new old = new ∪ old.
Proof.
  apply map_eq. intros k. unfold mergeMaps.
  rewrite fold_insert_lookup by apply range_map_keys_NoDup.
  rewrite range_map_to_map, lookup_union. by destruct (new !! k), (old !! k).
Qed.

Lemma MergeLabels_spec dst src : MergeLabels dst src = dst ∪ src.
Proof.
  apply map_eq. intros k. unfold MergeLabels.
  rewrite <- (range_map_to_map 1 src) at 2.
  generalize (range_map_keys_NoDup 1 src). generalize (range_map 1 src) as l. intros l.
  revert dst. induction l as [|[k' v'] l IH]; intros dst; simpl.
  - intros _. by rewrite (right_id_L ∅ (∪)).
  - intros [Hni Hnd]%NoDup_cons. rewrite IH by done.
    rewrite !lookup_union.
    destruct (decide (k = k')) as [->|Hne].
    + rewrite (not_elem_of_list_to_map_1 l k') by done. rewrite lookup_insert_eq.
      destruct (dst !! k') as [w|] eqn:Hd; [by rewrite Hd | by rewrite lookup_insert_eq].
    + rewrite (lookup_insert_ne (list_to_map l)) by done.
      destruct (dst !! k') as [w|]; [done | by rewrite lookup_insert_ne].
Qed.
End labels.

(** ** Volumes ([volumes.go]) *)

(** The source of a pod volume; those the operator neither makes nor looks into are
    their text. *)
Inductive volume_source :=
| VSecret (secret_name : string)
| VEmptyDir
| VHostPath (path : string)
| VOther (spec : string).

#[export] Instance volume_source_eq_dec : EqDecision volume_source.
Proof. solve_decision. Defined.

Record Volume := { vol_name : string; vol_source : volume_source }.
Record VolumeMount := { vm_name : string; vm_mount_path : string; vm_read_only : bool }.

#[export] Instance Volume_eq_dec : EqDecision Volume.
Proof. solve_decision. Defined.
#[export] Instance VolumeMount_eq_dec : EqDecision VolumeMount.
Proof. solve_decision. Defined.

(** Fields the operator copies without looking into them are kept as pairs of the
    field and its text ([settings]). *)
Notation settings := (list (string * string)).

(** An environment variable: a value, a field of the pod, or another source. *)
Inductive env_source :=
| EnvValue (value : string)
| EnvField (path : string)
| EnvOther (spec : string).

Record EnvVar := { env_name : string; env_from : env_source }.
Record ContainerPort := { port_name : string; port_number : Z; port_protocol : string }.

(** [ResourceRequirements]: the text of each list, if it is set. *)
Record Resources := { res_requests : option string; res_limits : option string }.

Record Container := {
  cont_name : string;
  cont_image : string;
  cont_args : list string;
  cont_env : list EnvVar;
  cont_env_from : list string;
  cont_ports : list ContainerPort;
  cont_mounts : list VolumeMount;
  cont_resources : Resources;
  cont_settings : settings
}.

Record PodSpec := {
  ps_volumes : list Volume;
  ps_init_containers : list Container;
  ps_containers : list Container;
  ps_settings : settings
}.

Definition SecretAssetsVolumeName : string := "secret-assets".

Definition SetAuthoritativeVolume (volumes : list Volume) (v : Volume) : list Volume :=
  filter (λ existing, vol_name existing ≠ vol_name v) volumes ++ [v].

Definition SetAuthoritativeVolumeMount (mounts : list VolumeMount) (m : VolumeMount) : list VolumeMount :=
  filter (λ existing, vm_name existing ≠ vm_name m ∧ vm_mount_path existing ≠ vm_mount_path m) mounts
    ++ [m].

Definition HasOperatorSecretAssetsMount (spec : PodSpec) (secretName mountPath : string) : bool :=
  let hasVolume :=
    existsb (λ v, bool_decide (vol_name v = SecretAssetsVolumeName) &&
                  bool_decide (vol_source v = VSecret secretName)) (ps_volumes spec) in
  if negb hasVolume then false else
  existsb (λ c, existsb (λ m, bool_decide (vm_name m = SecretAssetsVolumeName) &&
                              bool_decide (vm_mount_path m = mountPath)) (cont_mounts c))
    (ps_containers spec).

Lemma HasOperatorSecretAssetsMount_spec spec n p :
  HasOperatorSecretAssetsMount spec n p = true ↔
  {| vol_name := SecretAssetsVolumeName; vol_source := VSecret n |} ∈ ps_volumes spec ∧
  ∃ c m, c ∈ ps_containers spec ∧ m ∈ cont_mounts c ∧
    vm_name m = SecretAssetsVolumeName ∧ vm_mount_path m = p.
Proof.
  unfold HasOperatorSecretAssetsMount.
  assert (Hv : existsb (λ v, bool_decide (vol_name v = SecretAssetsVolumeName) &&
                  bool_decide (vol_source v = VSecret n)) (ps_volumes spec) = true ↔
               {| vol_name := SecretAssetsVolumeName; vol_source := VSecret n |} ∈ ps_volumes spec).
  { rewrite existsb_exists. split.
    - intros ([nm so] & Hin%list_elem_of_In & [?%bool_decide_eq_true ?%bool_decide_eq_true]%andb_true_iff).
      simpl in *; by subst.
    - intros Hin%list_elem_of_In. eexists; split; [done|].
      by rewrite !bool_decide_eq_true_2. }
  destruct (existsb _ (ps_volumes spec)) eqn:Hb; simpl; [|naive_solver].
  rewrite existsb_exists. setoid_rewrite existsb_exists.
  setoid_rewrite andb_true_iff. setoid_rewrite bool_decide_eq_true.
  setoid_rewrite <- list_elem_of_In. naive_solver.
Qed.
