(* ===== verification/Pipelines.v ===== *)
(** * The pipeline package

    [src/internal/pipeline]: the hash a pipeline's status remembers ([hash.go]),
    the selection of the pipelines a workload builds from and the status writes
    ([pipeline.go]). *)

From S2P Require Export K8sUtil GoHash.

(** ** Annotations ([common/annotations.go]) *)

Definition AnnotationServiceName : string := "observability.kaasops.io/service-name".
Definition AnnotationRestartedAt : string := "vector-operator.kaasops.io/restartedAt".
Definition AnnotationForceConfigCheck : string := "vector-operator.kaasops.io/force-configcheck".
Definition AnnotationConfigOptimization : string := "vector-operator.kaasops.io/config-optimization".
Definition AnnotationValueDisabled : string := "disabled".

(** ** [json.Marshal] of the spec and of [tmp] *)

Definition marshal_error (what : string) : err := ErrText ("json: error calling MarshalJSON for " +:+ what).

Section marshal.
Context `{GoRuntime, Libraries}.

(** A [*runtime.RawExtension] field: what its marshaler returned, validated and compacted. *)
Definition marshal_raw (e : RawExtension) : result string :=
  text ← raw_marshal e;
  match json_parse text with
  | Some _ => Ok (json_compact text)
  | None => Err (marshal_error "*runtime.RawExtension")
  end.

Definition marshal_opt_raw (key : string) (e : option RawExtension) : result (list (string * string)) :=
  match e with
  | None => Ok []
  | Some e => text ← marshal_raw e; Ok [(key, text)]
  end.

Definition marshal_backend (b : PipelineSecretBackend) : string :=
  json_obj ([("type", json_quote (backend_type b)); ("name", json_quote (backend_name b))] ++
            if bool_decide (backend_namespace b = "") then []
            else [("namespace", json_quote (backend_namespace b))]).

(** Maps are marshalled in the order of their keys. *)
Definition sorted_members {A} (f : A → string) (m : gmap string A) : list (string * string) :=
  omap (λ k, v ← m !! k; Some (k, f v)) (sort_strings (range_map 1 m).*1).

Definition marshal_spec (s : VectorPipelineSpec) : result string :=
  sources ← marshal_opt_raw "sources" (spec_sources s);
  transforms ← marshal_opt_raw "transforms" (spec_transforms s);
  sinks ← marshal_opt_raw "sinks" (spec_sinks s);
  let secret := if bool_decide (spec_secret s = ∅) then []
                else [("secret", json_obj (sorted_members marshal_backend (spec_secret s)))] in
  Ok (json_obj (sources ++ transforms ++ sinks ++ secret)).

(** A member with [omitempty]. *)
Definition omitempty_str (key v : string) : list (string * string) :=
  if bool_decide (v = "") then [] else [(key, json_quote v)].

(** [json.Marshal(tmp{...})]; a resource without labels has a nil map. *)
Definition marshal_tmp (p : Pipeline) : result string :=
  spec ← marshal_spec (GetSpec p);
  let labels := if bool_decide (GetLabels p = ∅) then "null"
                else json_obj (sorted_members json_quote (GetLabels p)) in
  Ok (json_obj ([("Spec", spec); ("Labels", labels);
                 ("ServiceName", json_quote (map_get (GetAnnotations p) AnnotationServiceName))] ++
                omitempty_str "ConfigOptimization" (map_get (GetAnnotations p) AnnotationConfigOptimization) ++
                omitempty_str "ForceConfigCheck" (map_get (GetAnnotations p) AnnotationForceConfigCheck))).

(** [hash.Get] *)
Definition hash_Get (input : string) : Z := crc32_ieee (bytes_of input).

Definition GetPipelineHash (p : Pipeline) : result Z :=
  a ← marshal_tmp p;
  Ok (hash_Get a).

(** True when the remembered hash matches, that is when the pipeline is unchanged. *)
Definition IsPipelineChanged (p : Pipeline) : result bool :=
  hash ← GetPipelineHash p;
  match GetLastAppliedPipeline p with
  | Some h => Ok (hash =? h)
  | None => Ok false
  end.
End marshal.

(** ** Listing *)

Inductive FilterScope := AllPipelines | NamespacedPipeline | ClusterPipelines.

#[export] Instance FilterScope_eq_dec : EqDecision FilterScope.
Proof. solve_decision. Defined.

Record FilterPipelines := {
  f_scope : FilterScope;
  f_selector : option (gmap string string);   (** [Selector.MatchLabels] *)
  f_role : VectorPipelineRole;
  f_namespace : string
}.

(** The two lists of the API server, either of which may fail. *)
Record PipelineLister := {
  list_vps : result (list Pipeline);
  list_cvps : result (list Pipeline)
}.

Section list.
Context `{GoRuntime}.

Definition listPipelines (client : PipelineLister) (filter : FilterPipelines) (requireValid : bool)
    : result (list Pipeline) :=
  let matchLabels := default ∅ (f_selector filter) in
  let keep (p : Pipeline) :=
    negb (IsDeleted p) && (negb requireValid || IsValid p) &&
    bool_decide (GetRole p = f_role filter) in
  result ←
    (if bool_decide (f_scope filter = AllPipelines ∨ f_scope filter = NamespacedPipeline) then
       _ ← guard_err (bool_decide (f_scope filter = NamespacedPipeline ∧ f_namespace filter = ""))
             (ErrText "namespace not specified");
       vps ← list_vps client;
       Ok (List.filter (λ vp, keep vp &&
             bool_decide (f_scope filter = AllPipelines ∨ GetNamespace vp = f_namespace filter) &&
             MatchLabels matchLabels (GetLabels vp)) vps)
     else Ok []);
  (if bool_decide (f_scope filter = AllPipelines ∨ f_scope filter = ClusterPipelines) then
     cvps ← list_cvps client;
     Ok (result ++ List.filter (λ cvp, keep cvp && MatchLabels matchLabels (GetLabels cvp)) cvps)
   else Ok result).

Definition GetValidPipelines (client : PipelineLister) (filter : FilterPipelines) :=
  listPipelines client filter true.
Definition GetAllPipelines (client : PipelineLister) (filter : FilterPipelines) :=
  listPipelines client filter false.
End list.

(** ** Status writes *)

(** A call of [k8s.PatchStatus]: the object and the base its merge patch is
    computed against. *)
Record StatusPatch := { sp_obj : Pipeline; sp_base : Pipeline }.

Section status.
Context `{GoRuntime, Libraries}.

(** The patch sent; the pipeline handed in afterwards is [sp_obj]. *)
Definition SetSuccessStatus (p base : Pipeline) : result StatusPatch :=
  let base := SetReason (Some "") base in
  let p := SetReason None (SetConfigCheck true p) in
  hash ← GetPipelineHash p;
  Ok {| sp_obj := SetLastAppliedPipeline (Some hash) p; sp_base := base |}.

Definition SetFailedStatus (p : Pipeline) (reason : string) (base : Pipeline) : result StatusPatch :=
  let p := SetReason (Some reason) (SetConfigCheck false p) in
  hash ← GetPipelineHash p;
  Ok {| sp_obj := SetLastAppliedPipeline (Some hash) p; sp_base := base |}.
End status.

(** ** Lemmas *)

Section pipeline_lemmas.
Context `{GoRuntime, Libraries}.

Lemma GetPipelineHash_with_status f p : GetPipelineHash (with_status f p) = GetPipelineHash p.
Proof. done. Qed.

Lemma GetPipelineHash_range p h : GetPipelineHash p = Ok h → 0 <= h < 2 ^ 32.
Proof. intros (a & _ & [= <-])%bind_Ok. apply crc32_ieee_range. Qed.

(** Either status write leaves a pipeline that counts as unchanged. *)
Lemma SetSuccessStatus_Ok p base sp :
  SetSuccessStatus p base = Ok sp →
  ∃ h, GetPipelineHash p = Ok h ∧ sp_base sp = SetReason (Some "") base ∧
    sp_obj sp = SetLastAppliedPipeline (Some h) (SetReason None (SetConfigCheck true p)).
Proof. intros (h & Hh & [= <-])%bind_Ok. eauto. Qed.

Lemma SetFailedStatus_Ok p reason base sp :
  SetFailedStatus p reason base = Ok sp →
  ∃ h, GetPipelineHash p = Ok h ∧ sp_base sp = base ∧
    sp_obj sp = SetLastAppliedPipeline (Some h) (SetReason (Some reason) (SetConfigCheck false p)).
Proof. intros (h & Hh & [= <-])%bind_Ok. eauto. Qed.

Lemma IsPipelineChanged_true p :
  IsPipelineChanged p = Ok true ↔
  ∃ h, GetPipelineHash p = Ok h ∧ GetLastAppliedPipeline p = Some h.
Proof.
  unfold IsPipelineChanged. rewrite bind_Ok. split.
  - intros (h & Hh & Heq). destruct (GetLastAppliedPipeline p) as [h'|]; [|done].
    injection Heq as ->%Z.eqb_eq. eauto.
  - intros (h & Hh & ->). exists h. by rewrite Z.eqb_refl.
Qed.

(** What a listing keeps of a resource of either kind. *)
Definition selected (filter : FilterPipelines) (requireValid : bool) (p : Pipeline) : Prop :=
  IsDeleted p = false ∧ (requireValid = true → IsValid p = true) ∧ GetRole p = f_role filter ∧
  ∀ k v, default ∅ (f_selector filter) !! k = Some v → map_get (GetLabels p) k = v.

Lemma elem_of_List_filter {A} (f : A → bool) l x : x ∈ List.filter f l ↔ x ∈ l ∧ f x = true.
Proof. rewrite !list_elem_of_In. apply filter_In. Qed.

Lemma selected_spec filter requireValid p :
  selected filter requireValid p ↔
  negb (IsDeleted p) && (negb requireValid || IsValid p) && bool_decide (GetRole p = f_role filter)
    && MatchLabels (default ∅ (f_selector filter)) (GetLabels p) = true.
Proof.
  unfold selected. rewrite <- MatchLabels_spec, !andb_true_iff, negb_true_iff, orb_true_iff,
    negb_true_iff, bool_decide_eq_true.
  destruct requireValid; naive_solver.
Qed.

(** A listing is exactly the selected resources of the kinds in scope. *)
Lemma listPipelines_elem client filter requireValid ps :
  listPipelines client filter requireValid = Ok ps →
  ∀ p, p ∈ ps ↔ selected filter requireValid p ∧
    ((∃ vps, list_vps client = Ok vps ∧ p ∈ vps ∧
        (f_scope filter = AllPipelines ∨
         f_scope filter = NamespacedPipeline ∧ GetNamespace p = f_namespace filter)) ∨
     (∃ cvps, list_cvps client = Ok cvps ∧ p ∈ cvps ∧ f_scope filter ≠ NamespacedPipeline)).
Proof.
  unfold listPipelines. intros Hl p. rewrite selected_spec.
  destruct (f_scope filter) eqn:Hs; simpl in Hl.
  - apply bind_Ok in Hl as (l1 & (vps & Hvps & [= <-])%bind_Ok & (cvps & Hcvps & [= <-])%bind_Ok).
    rewrite elem_of_app, !elem_of_List_filter, !andb_true_iff, !bool_decide_eq_true.
    rewrite Hvps, Hcvps. naive_solver.
  - apply bind_Ok in Hl as (l1 & (? & ? & (vps & Hvps & [= <-])%bind_Ok)%bind_Ok & [= <-]).
    rewrite !elem_of_List_filter, !andb_true_iff, !bool_decide_eq_true.
    rewrite Hvps. naive_solver.
  - apply bind_Ok in Hl as (cvps & Hcvps & [= <-]).
    rewrite !elem_of_List_filter, !andb_true_iff. rewrite Hcvps.
    split; [intros (? & ? & ?); split; [tauto|right; by eexists]|].
    by intros (? & [(? & ? & ? & [|[]])|(? & [= <-] & ? & _)]).
Qed.
End pipeline_lemmas.

(** Marshalling a map sorts its keys, so the runtime's map order does not show. *)
Section runtime_independence.
Context (RT1 RT2 : GoRuntime) `{Libraries}.

Lemma range_map_agree `{Countable K} {A} i j (m : gmap K A) :
  @range_map RT1 K _ _ A i m ≡ₚ @range_map RT2 K _ _ A j m.
Proof. by rewrite !range_map_perm. Qed.

Lemma sort_strings_agree l1 l2 : l1 ≡ₚ l2 → @sort_strings RT1 l1 = @sort_strings RT2 l2.
Proof. intros. apply sort_slice_agree; eauto. Qed.

Lemma sorted_members_agree {A} (f : A → string) m :
  @sorted_members RT1 A f m = @sorted_members RT2 A f m.
Proof.
  unfold sorted_members.
  by rewrite (sort_strings_agree _ (@range_map RT2 _ _ _ _ 1 m).*1) by (by rewrite (range_map_agree 1 1)).
Qed.

Lemma marshal_spec_agree s : @marshal_spec RT1 _ s = @marshal_spec RT2 _ s.
Proof. unfold marshal_spec. by rewrite sorted_members_agree. Qed.

Lemma GetPipelineHash_agree p : @GetPipelineHash RT1 _ p = @GetPipelineHash RT2 _ p.
Proof. unfold GetPipelineHash, marshal_tmp. by rewrite marshal_spec_agree, sorted_members_agree. Qed.
End runtime_independence.
