(* ===== verification/SecretIndex.v ===== *)
(** * The secret index

    [SecretIndex] of [src/internal/pipeline/secretindex.go]: the two maps the Secret
    watch looks pipelines up in. Every method holds the lock for its whole body, so
    an execution is a sequence of [Set]s. The pipelines a lookup returns are those
    whose last [Set] named the Secret, and the two maps stay inverse to each other
    without leaving empty sets behind. *)

From S2P Require Export Pipelines.

(** [map[types.NamespacedName]struct{}] *)
Notation nn_set := (gmap NamespacedName unit).

Record SecretIndex := {
  pipelineToSecrets : gmap NamespacedName nn_set;
  secretToPipelines : gmap NamespacedName nn_set
}.

Definition NewSecretIndex : SecretIndex := {| pipelineToSecrets := ∅; secretToPipelines := ∅ |}.

(** [newSet] *)
Definition set_of (secrets : list NamespacedName) : nn_set :=
  fold_left (λ m s, <[s := tt]> m) secrets ∅.

(** The body of the loop over the Secrets linked so far. *)
Definition unlink (pipeline : NamespacedName) (newSet : nn_set)
    (m : gmap NamespacedName nn_set) (old : NamespacedName) : gmap NamespacedName nn_set :=
  match newSet !! old with
  | Some _ => m
  | None =>
      let ps := delete pipeline (default ∅ (m !! old)) in
      if bool_decide (size ps = 0%nat) then delete old m else <[old := ps]> m
  end.

(** The body of the loop over the new Secrets. *)
Definition link (pipeline : NamespacedName) (m : gmap NamespacedName nn_set) (s : NamespacedName)
    : gmap NamespacedName nn_set :=
  <[s := <[pipeline := tt]> (default ∅ (m !! s))]> m.

Section operations.
Context `{GoRuntime}.

(** [SecretIndex.Set] *)
Definition index_Set (si : SecretIndex) (pipeline : NamespacedName) (secrets : list NamespacedName)
    : SecretIndex :=
  let newSet := set_of secrets in
  let olds := (range_map 31 (default ∅ (pipelineToSecrets si !! pipeline))).*1 in
  let unlinked := fold_left (unlink pipeline newSet) olds (secretToPipelines si) in
  if bool_decide (size newSet = 0%nat) then
    {| pipelineToSecrets := delete pipeline (pipelineToSecrets si); secretToPipelines := unlinked |}
  else
    {| pipelineToSecrets := <[pipeline := newSet]> (pipelineToSecrets si);
       secretToPipelines := fold_left (link pipeline) (range_map 32 newSet).*1 unlinked |}.

Definition PipelinesFor (si : SecretIndex) (secret : NamespacedName) : list NamespacedName :=
  (range_map 33 (default ∅ (secretToPipelines si !! secret))).*1.

(** An execution: the [Set]s in the order they took the lock. *)
Definition run_sets (ops : list (NamespacedName * list NamespacedName)) : SecretIndex :=
  fold_left (λ si '(p, secrets), index_Set si p secrets) ops NewSecretIndex.
End operations.

(** ** The contract *)

(** The Secrets of the last [Set] of a pipeline. *)
Fixpoint declared (ops : list (NamespacedName * list NamespacedName)) (p : NamespacedName)
    : list NamespacedName :=
  match ops with
  | [] => []
  | (q, secrets) :: ops =>
      if bool_decide (p ∈ ops.*1) then declared ops p
      else if bool_decide (q = p) then secrets else []
  end.

Lemma declared_snoc ops q secrets p :
  declared (ops ++ [(q, secrets)]) p = if bool_decide (q = p) then secrets else declared ops p.
Proof.
  induction ops as [|[q' s'] ops IH]; simpl; [done|]. rewrite IH, fmap_app. simpl.
  destruct (decide (q = p)) as [->|Hq].
  - rewrite !(bool_decide_eq_true_2 (p = p)) by done. by rewrite bool_decide_eq_true_2 by set_solver.
  - rewrite !(bool_decide_eq_false_2 (q = p)) by done.
    rewrite (bool_decide_ext (p ∈ ops.*1 ++ [q]) (p ∈ ops.*1)); [done|].
    rewrite elem_of_app, list_elem_of_singleton. naive_solver.
Qed.

(** A map of sets relates a key to the members of its set; no set is empty. *)
Definition related (m : gmap NamespacedName nn_set) (k x : NamespacedName) : Prop :=
  ∃ s, m !! k = Some s ∧ is_Some (s !! x).
Definition no_empty (m : gmap NamespacedName nn_set) : Prop := ∀ k s, m !! k = Some s → s ≠ ∅.

(** The index over the pairs (pipeline, secret) that [R] holds of. *)
Definition indexes (si : SecretIndex) (R : NamespacedName → NamespacedName → Prop) : Prop :=
  (∀ p s, related (pipelineToSecrets si) p s ↔ R p s) ∧
  (∀ p s, related (secretToPipelines si) s p ↔ R p s) ∧
  no_empty (pipelineToSecrets si) ∧ no_empty (secretToPipelines si).

Section index_lemmas.
Context `{GoRuntime}.

Lemma related_default m k x : related m k x ↔ is_Some (default ∅ (m !! k) !! x).
Proof.
  unfold related. destruct (m !! k) as [s|]; simpl; [naive_solver|].
  rewrite lookup_empty. split; [by intros (? & ? & _) | by intros [? ?]].
Qed.

Lemma set_of_lookup secrets s : is_Some (set_of secrets !! s) ↔ s ∈ secrets.
Proof.
  unfold set_of. assert (Hm : ∀ m : nn_set, is_Some (fold_left (λ m s, <[s := tt]> m) secrets m !! s) ↔
    s ∈ secrets ∨ is_Some (m !! s)).
  { induction secrets as [|x l IH]; intros m; simpl; [set_solver|].
    rewrite IH, lookup_insert_is_Some', elem_of_cons. naive_solver. }
  rewrite Hm, lookup_empty, is_Some_alt. naive_solver.
Qed.

Lemma set_of_empty secrets : size (set_of secrets) = 0%nat ↔ secrets = [].
Proof.
  rewrite map_size_empty_iff. split; [|by intros ->]. intros He.
  destruct secrets as [|s l]; [done|]. exfalso.
  destruct (proj2 (set_of_lookup (s :: l) s)) as [u Hu]; [by left|].
  by rewrite He, lookup_empty in Hu.
Qed.

Lemma unlink_related pipeline newSet m old :
  (∀ k x, related (unlink pipeline newSet m old) k x ↔
     related m k x ∧ ¬ (k = old ∧ x = pipeline ∧ newSet !! old = None)) ∧
  (no_empty m → no_empty (unlink pipeline newSet m old)).
Proof.
  unfold unlink. destruct (newSet !! old) as [u|] eqn:Hn; [split; [naive_solver | done]|].
  case_bool_decide as Hz; [apply map_size_empty_iff in Hz|].
  - split; [|intros Hne k s [_ Hk]%lookup_delete_Some; by eapply Hne].
    intros k x. rewrite !related_default. destruct (decide (k = old)) as [->|Hk].
    + rewrite lookup_delete_eq. simpl. rewrite lookup_empty.
      assert (Hx : delete pipeline (default ∅ (m !! old)) !! x = None) by (by rewrite Hz, lookup_empty).
      apply lookup_delete_None in Hx as [->|Hx]; [|rewrite Hx]; (split; [by intros []|naive_solver]).
    + rewrite lookup_delete_ne by done. naive_solver.
  - split.
    + intros k x. rewrite !related_default. destruct (decide (k = old)) as [->|Hk].
      * rewrite lookup_insert_eq. simpl. rewrite lookup_delete_is_Some. naive_solver.
      * rewrite lookup_insert_ne by done. naive_solver.
    + intros Hne k s [[_ <-]|[_ Hk]]%lookup_insert_Some; [|by eapply Hne].
      intros He. by rewrite He, map_size_empty in Hz.
Qed.

Lemma unlink_all pipeline newSet olds m :
  (∀ k x, related (fold_left (unlink pipeline newSet) olds m) k x ↔
     related m k x ∧ ¬ (k ∈ olds ∧ x = pipeline ∧ newSet !! k = None)) ∧
  (no_empty m → no_empty (fold_left (unlink pipeline newSet) olds m)).
Proof.
  revert m. induction olds as [|old olds IH]; intros m; cbn [fold_left].
  - split; [|done]. intros k x. set_solver.
  - destruct (unlink_related pipeline newSet m old) as [Hr Hn].
    destruct (IH (unlink pipeline newSet m old)) as [IHr IHn]. split; [|tauto].
    intros k x. rewrite IHr, Hr, elem_of_cons. naive_solver.
Qed.

Lemma link_all pipeline news m :
  (∀ k x, related (fold_left (link pipeline) news m) k x ↔
     related m k x ∨ k ∈ news ∧ x = pipeline) ∧
  (no_empty m → no_empty (fold_left (link pipeline) news m)).
Proof.
  revert m. induction news as [|s news IH]; intros m; cbn [fold_left].
  - split; [|done]. intros k x. set_solver.
  - destruct (IH (link pipeline m s)) as [IHr IHn]. split.
    + intros k x. rewrite IHr, elem_of_cons, !related_default. unfold link.
      destruct (decide (k = s)) as [->|Hk].
      * rewrite lookup_insert_eq. simpl. rewrite lookup_insert_is_Some'. naive_solver.
      * rewrite lookup_insert_ne by done. naive_solver.
    + intros Hne. apply IHn. unfold link. intros k t [[_ <-]|[_ Hk]]%lookup_insert_Some; [|by eapply Hne].
      apply insert_non_empty.
Qed.

(** [Set] replaces the pairs of one pipeline and keeps the others. *)
Lemma index_Set_indexes si R p secrets :
  indexes si R →
  indexes (index_Set si p secrets) (λ q s, if decide (q = p) then s ∈ secrets else R q s).
Proof.
  intros (Hp & Hs & Hnp & Hns). unfold index_Set.
  set (olds := (range_map 31 (default ∅ (pipelineToSecrets si !! p))).*1).
  assert (Hold : ∀ s, s ∈ olds ↔ R p s).
  { intros s. unfold olds. by rewrite range_keys, <- related_default. }
  destruct (unlink_all p (set_of secrets) olds (secretToPipelines si)) as [Hur Hun].
  assert (Hnone : ∀ s, set_of secrets !! s = None ↔ s ∉ secrets).
  { intros s. by rewrite <- set_of_lookup, eq_None_not_Some. }
  case_bool_decide as Hz; [apply set_of_empty in Hz; subst secrets|]; unfold indexes; simpl.
  - split_and!; [| |intros k t [_ Hk]%lookup_delete_Some; by eapply Hnp | tauto].
    + intros q s. rewrite related_default. case_decide as Hq; subst.
      * rewrite lookup_delete_eq. simpl. rewrite lookup_empty.
        split; [by intros [] | by intros ?%elem_of_nil].
      * by rewrite lookup_delete_ne, <- related_default.
    + intros q s. rewrite Hur, Hs, Hold, Hnone. case_decide; set_solver.
  - destruct (link_all p (range_map 32 (set_of secrets)).*1
      (fold_left (unlink p (set_of secrets)) olds (secretToPipelines si))) as [Hlr Hln].
    split_and!; [| | |tauto].
    + intros q s. rewrite related_default. case_decide as Hq; subst.
      * rewrite lookup_insert_eq. simpl. apply set_of_lookup.
      * by rewrite lookup_insert_ne, <- related_default.
    + intros q s. rewrite Hlr, Hur, Hs, Hold, Hnone, range_keys, set_of_lookup.
      case_decide; [subst | naive_solver].
      destruct (decide (s ∈ secrets)); naive_solver.
    + intros k t [[_ <-]|[_ Hk]]%lookup_insert_Some; [|by eapply Hnp].
      by rewrite <- map_size_empty_iff.
Qed.

Lemma run_sets_indexes ops : indexes (run_sets ops) (λ p s, s ∈ declared ops p).
Proof.
  induction ops as [|[p secrets] ops IH] using rev_ind.
  - unfold indexes, related. simpl. split_and!; intros ??; rewrite lookup_empty; [| |done|done];
      (split; [by intros (? & ? & _) | by intros ?%elem_of_nil]).
  - unfold run_sets. rewrite fold_left_app. simpl.
    pose proof (index_Set_indexes _ _ p secrets IH) as (H1 & H2 & H3).
    split_and!; [| |apply H3..]; intros q s; rewrite declared_snoc;
      [rewrite H1 | rewrite H2]; case_decide; case_bool_decide; naive_solver.
Qed.

(** A lookup returns exactly the pipelines whose last [Set] named the Secret,
    each once, and neither map keeps an empty set, whatever the history of [Set]s
    and the iteration order of the maps. *)
Lemma secret_index_exact ops secret :
  (∀ p, p ∈ PipelinesFor (run_sets ops) secret ↔ secret ∈ declared ops p) ∧
  NoDup (PipelinesFor (run_sets ops) secret) ∧
  (∀ p, pipelineToSecrets (run_sets ops) !! p = None ↔ declared ops p = []) ∧
  (∀ s, secretToPipelines (run_sets ops) !! s = None ↔ ∀ p, s ∉ declared ops p).
Proof.
  destruct (run_sets_indexes ops) as (Hp & Hs & Hnp & Hns). split_and!.
  - intros p. unfold PipelinesFor. by rewrite range_keys, <- related_default, Hs.
  - apply range_map_keys_NoDup.
  - intros p. destruct (pipelineToSecrets (run_sets ops) !! p) as [t|] eqn:Ht.
    + split; [done|]. intros Hd. destruct (map_choose t (Hnp _ _ Ht)) as (s & u & Hu).
      assert (s ∈ declared ops p) as Hin by (apply Hp; exists t; eauto). by rewrite Hd in Hin; apply elem_of_nil in Hin.
    + split; [|done]. intros _. destruct (declared ops p) as [|s l] eqn:Hd; [done|].
      destruct (proj2 (Hp p s)) as (t & Ht' & _); [rewrite Hd; by left|]. by rewrite Ht in Ht'.
  - intros s. destruct (secretToPipelines (run_sets ops) !! s) as [t|] eqn:Ht.
    + split; [done|]. intros Hd. destruct (map_choose t (Hns _ _ Ht)) as (p & u & Hu).
      destruct (Hd p). apply Hs. exists t. eauto.
    + split; [|done]. intros _ p Hin%Hs. destruct Hin as (t & Ht' & _). by rewrite Ht in Ht'.
Qed.
End index_lemmas.
