(* ===== verification/Kube.v ===== *)
(** * The API server

    The objects the operator writes and the client it writes them with. The client
    is third-party code: [KubeApi] is its interface, whose laws say what its
    documentation promises (a read returns what is stored, a failed call has either
    no effect or its effect, [controllerutil.CreateOrUpdate] applies the mutation to
    the stored object or to the one passed in). Theorems about the controllers are
    proved against the interface; [simple_api] implements it.

    [K] is the monad of code that talks to the API server: it threads the cluster and
    records, after every write, what is stored, so that a statement can speak of all
    the states a round passes through, wherever it stops. *)

From S2P Require Export Pipelines.

(** ** Objects *)

Record ObjectMeta := {
  om_namespace : string;
  om_name : string;
  om_labels : gmap string string;
  om_annotations : gmap string string;
  om_owners : list string;
  om_created : bool          (** [!CreationTimestamp.IsZero()] *)
}.

Record PodTemplate := { pt_meta : ObjectMeta; pt_spec : PodSpec }.

Record DeploymentSpec := {
  dep_replicas : option Z;
  dep_template : PodTemplate;
  dep_settings : settings
}.

(** A volume claim template: its name and the storage it requests. *)
Record ClaimTemplate := { ct_name : string; ct_storage : Z; ct_settings : settings }.

Record StatefulSetSpec := {
  sts_replicas : option Z;
  sts_service_name : string;
  sts_pod_management : string;
  sts_claims : list ClaimTemplate;
  sts_template : PodTemplate;
  sts_update_strategy : string;
  sts_pvc_retention : string;
  sts_min_ready : string;
  sts_settings : settings
}.

Record DaemonSetSpec := { ds_selector : gmap string string; ds_template : PodTemplate }.

(** The part of an object that depends on its type; specs that are only copied are
    their text. *)
Inductive Body :=
| BDeployment (spec : DeploymentSpec)
| BStatefulSet (spec : StatefulSetSpec)
| BDaemonSet (spec : DaemonSetSpec)
| BSecret (data : gmap string string)
| BConfigMap (data : gmap string string)
| BService (spec : settings)
| BServiceAccount
| BClusterRole (rules : settings)
| BClusterRoleBinding (role_ref : settings) (subjects : settings)
| BPodMonitor (spec : settings)
| BPodDisruptionBudget (spec : settings)
| BVMPodScrape (spec : settings)
| BHPA (spec : settings)
| BPod (spec : PodSpec)
| BNamespace (deleting : bool).

Record Object := { o_meta : ObjectMeta; o_body : Body }.

Inductive obj_kind :=
| KDeployment | KStatefulSet | KDaemonSet | KSecret | KConfigMap | KService | KServiceAccount
| KClusterRole | KClusterRoleBinding | KPodMonitor | KPodDisruptionBudget | KVMPodScrape | KHPA
| KPod | KNamespace.

#[export] Instance obj_kind_eq_dec : EqDecision obj_kind.
Proof. solve_decision. Defined.

Definition kind_code (k : obj_kind) : nat :=
  match k with
  | KDeployment => 0 | KStatefulSet => 1 | KDaemonSet => 2 | KSecret => 3 | KConfigMap => 4
  | KService => 5 | KServiceAccount => 6 | KClusterRole => 7 | KClusterRoleBinding => 8
  | KPodMonitor => 9 | KPodDisruptionBudget => 10 | KVMPodScrape => 11 | KHPA => 12
  | KPod => 13 | KNamespace => 14
  end.

Definition kind_decode (n : nat) : option obj_kind :=
  [KDeployment; KStatefulSet; KDaemonSet; KSecret; KConfigMap; KService; KServiceAccount;
   KClusterRole; KClusterRoleBinding; KPodMonitor; KPodDisruptionBudget; KVMPodScrape; KHPA;
   KPod; KNamespace] !! n.

#[export] Instance obj_kind_countable : Countable obj_kind.
Proof. by apply (inj_countable kind_code kind_decode); intros []. Defined.

Definition body_kind (b : Body) : obj_kind :=
  match b with
  | BDeployment _ => KDeployment | BStatefulSet _ => KStatefulSet | BDaemonSet _ => KDaemonSet
  | BSecret _ => KSecret | BConfigMap _ => KConfigMap | BService _ => KService
  | BServiceAccount => KServiceAccount | BClusterRole _ => KClusterRole
  | BClusterRoleBinding _ _ => KClusterRoleBinding | BPodMonitor _ => KPodMonitor
  | BPodDisruptionBudget _ => KPodDisruptionBudget | BVMPodScrape _ => KVMPodScrape
  | BHPA _ => KHPA | BPod _ => KPod | BNamespace _ => KNamespace
  end.

Notation ObjKey := (obj_kind * string * string)%type.

Definition key_of (o : Object) : ObjKey :=
  (body_kind (o_body o), om_namespace (o_meta o), om_name (o_meta o)).

Notation store := (gmap ObjKey Object).

(** The server sets the creation timestamp. *)
Definition mark_created (o : Object) : Object :=
  {| o_meta := {| om_namespace := om_namespace (o_meta o); om_name := om_name (o_meta o);
                  om_labels := om_labels (o_meta o); om_annotations := om_annotations (o_meta o);
                  om_owners := om_owners (o_meta o); om_created := true |};
     o_body := o_body o |}.

(** ** Status patches *)

(** A JSON merge patch against [base] leaves alone the fields [obj] and [base] agree on. *)
Definition merge_field {A} `{EqDecision A} (base obj stored : A) : A :=
  if decide (obj = base) then stored else obj.

Definition merge_status (base obj stored : VectorPipelineStatus) : VectorPipelineStatus :=
  {| st_role := merge_field (st_role base) (st_role obj) (st_role stored);
     st_config_check_result := merge_field (st_config_check_result base)
       (st_config_check_result obj) (st_config_check_result stored);
     st_reason := merge_field (st_reason base) (st_reason obj) (st_reason stored);
     st_last_applied_pipeline_hash := merge_field (st_last_applied_pipeline_hash base)
       (st_last_applied_pipeline_hash obj) (st_last_applied_pipeline_hash stored);
     st_related_secrets_hash := merge_field (st_related_secrets_hash base)
       (st_related_secrets_hash obj) (st_related_secrets_hash stored) |}.

(** The status of a Vector or an aggregator ([VectorCommonStatus]). *)
Record WorkloadStatus := {
  ws_config_check_result : option bool;
  ws_reason : option string;
  ws_last_applied_config_hash : option Z;
  ws_last_applied_global_hash : option Z;
  ws_last_config_published_at : option Z
}.

Definition merge_workload_status (base obj stored : WorkloadStatus) : WorkloadStatus :=
  {| ws_config_check_result := merge_field (ws_config_check_result base)
       (ws_config_check_result obj) (ws_config_check_result stored);
     ws_reason := merge_field (ws_reason base) (ws_reason obj) (ws_reason stored);
     ws_last_applied_config_hash := merge_field (ws_last_applied_config_hash base)
       (ws_last_applied_config_hash obj) (ws_last_applied_config_hash stored);
     ws_last_applied_global_hash := merge_field (ws_last_applied_global_hash base)
       (ws_last_applied_global_hash obj) (ws_last_applied_global_hash stored);
     ws_last_config_published_at := merge_field (ws_last_config_published_at base)
       (ws_last_config_published_at obj) (ws_last_config_published_at stored) |}.

(** ** The client *)

(** What is stored besides the operator's objects: the pipelines by kind and name,
    and the status of the workload resource being reconciled. *)
Definition pipe_key (p : Pipeline) : bool * NamespacedName := (is_vp p, ObjectKey p).
Notation pipes := (gmap (bool * NamespacedName) Pipeline).

Record world := { w_objects : store; w_pipelines : pipes; w_status : WorkloadStatus }.

Definition set_objects (f : store → store) (w : world) : world :=
  {| w_objects := f (w_objects w); w_pipelines := w_pipelines w; w_status := w_status w |}.
Definition set_pipelines (f : pipes → pipes) (w : world) : world :=
  {| w_objects := w_objects w; w_pipelines := f (w_pipelines w); w_status := w_status w |}.
Definition set_status (f : WorkloadStatus → WorkloadStatus) (w : world) : world :=
  {| w_objects := w_objects w; w_pipelines := w_pipelines w; w_status := f (w_status w) |}.

Class KubeApi := {
  cluster : Type;
  seen : cluster → world;
  (** [client.Reader.Get] *)
  api_get : ObjKey → cluster → result Object * cluster;
  (** [controllerutil.CreateOrUpdate]: the object passed in and the mutation *)
  api_create_or_update : Object → (Object → Object) → cluster → result Object * cluster;
  (** [client.Create] and [client.Delete] *)
  api_create : Object → cluster → result unit * cluster;
  api_delete : ObjKey → cluster → result unit * cluster;
  (** [Status().Patch(obj, MergeFrom(base))] *)
  api_patch_pipeline : StatusPatch → cluster → result unit * cluster;
  api_patch_status : WorkloadStatus → WorkloadStatus → cluster → result unit * cluster;
  (** [time.Now] *)
  api_now : cluster → Z * cluster;

  api_get_spec k c : let '(r, c') := api_get k c in
    seen c' = seen c ∧
    match r with
    | Ok o => w_objects (seen c) !! k = Some o
    | Err e => is_not_found e = true → w_objects (seen c) !! k = None
    end;
  api_create_or_update_spec o f c : let '(r, c') := api_create_or_update o f c in
    let base := default o (w_objects (seen c) !! key_of o) in
    let written := set_objects <[key_of o := mark_created (f base)]> (seen c) in
    match r with
    | Ok o' => o' = mark_created (f base) ∧ seen c' = written
    | Err _ => seen c' = seen c ∨ seen c' = written
    end;
  api_create_spec o c : let '(r, c') := api_create o c in
    let written := set_objects <[key_of o := mark_created o]> (seen c) in
    match r with
    | Ok _ => w_objects (seen c) !! key_of o = None ∧ seen c' = written
    | Err _ => seen c' = seen c ∨ w_objects (seen c) !! key_of o = None ∧ seen c' = written
    end;
  api_delete_spec k c : let '(r, c') := api_delete k c in
    let gone := set_objects (delete k) (seen c) in
    match r with
    | Ok _ => seen c' = gone
    | Err e => if is_not_found e then w_objects (seen c) !! k = None ∧ seen c' = seen c
               else seen c' = seen c ∨ seen c' = gone
    end;
  api_patch_pipeline_spec sp c : let '(r, c') := api_patch_pipeline sp c in
    let patched := set_pipelines (alter (with_status (merge_status (p_status (sp_base sp))
      (p_status (sp_obj sp)))) (pipe_key (sp_obj sp))) (seen c) in
    match r with
    | Ok _ => seen c' = patched
    | Err _ => seen c' = seen c ∨ seen c' = patched
    end;
  api_patch_status_spec base obj c : let '(r, c') := api_patch_status base obj c in
    let patched := set_status (merge_workload_status base obj) (seen c) in
    match r with
    | Ok _ => seen c' = patched
    | Err _ => seen c' = seen c ∨ seen c' = patched
    end;
  api_now_spec c : seen (api_now c).2 = seen c
}.

(** ** Code that talks to the API server *)

Section monad.
Context `{KubeApi}.

(** The worlds after each write, the cluster at the end, and the result. *)
Definition K (A : Type) : Type := cluster → list world * cluster * result A.

Definition k_ret {A} (a : A) : K A := λ c, ([], c, Ok a).
Definition k_fail {A} (e : err) : K A := λ c, ([], c, Err e).
Definition k_bind {A B} (f : A → K B) (m : K A) : K B := λ c,
  let '(tr, c, r) := m c in
  match r with
  | Ok a => let '(tr', c, r) := f a c in (tr ++ tr', c, r)
  | Err e => (tr, c, Err e)
  end.

#[export] Instance K_ret : MRet K := @k_ret.
#[export] Instance K_bind : MBind K := @k_bind.

(** [err] as a value: the calls whose error the code looks at. *)
Definition k_try {A} (m : K A) : K (result A) := λ c,
  let '(tr, c, r) := m c in (tr, c, Ok r).

Definition k_lift {A} (r : result A) : K A := λ c, ([], c, r).

Definition k_get (k : ObjKey) : K Object := λ c, let '(r, c) := api_get k c in ([], c, r).
Definition k_now : K Z := λ c, let '(t, c) := api_now c in ([], c, Ok t).
Definition k_update (o : Object) (f : Object → Object) : K Object := λ c,
  let '(r, c) := api_create_or_update o f c in ([seen c], c, r).
Definition k_create (o : Object) : K unit := λ c,
  let '(r, c) := api_create o c in ([seen c], c, r).
Definition k_delete (k : ObjKey) : K unit := λ c,
  let '(r, c) := api_delete k c in ([seen c], c, r).

(** [k8s.PatchStatus] *)
Definition PatchStatus (sp : StatusPatch) : K unit := λ c,
  let '(r, c) := api_patch_pipeline sp c in ([seen c], c, r).
Definition PatchWorkloadStatus (obj base : WorkloadStatus) : K unit := λ c,
  let '(r, c) := api_patch_status base obj c in ([seen c], c, r).

(** A read whose NotFound means absent. *)
Definition k_find (k : ObjKey) : K (option Object) :=
  r ← k_try (k_get k);
  match r with
  | Ok o => mret (Some o)
  | Err e => if is_not_found e then mret None else k_fail e
  end.

(** A loop over a list, stopping at the first error. *)
Fixpoint k_iter {A} (f : A → K unit) (l : list A) : K unit :=
  match l with
  | [] => mret tt
  | x :: l => _ ← f x; k_iter f l
  end.

Definition k_when (b : bool) (m : K unit) : K unit := if b then m else mret tt.

(** [fmt.Errorf(pre + "%w", err)] around a call. *)
Definition k_wrap {A} (pre : string) (m : K A) : K A := λ c,
  let '(tr, c, r) := m c in
  (tr, c, match r with Ok a => Ok a | Err e => Err (ErrWrap pre e) end).

(** ** Triples

    [I] holds in every world a run passes through, however it ends; [Q] when it
    returns without an error. *)
Definition triple (I P : world → Prop) {A} (m : K A) (Q : A → world → Prop) : Prop :=
  ∀ c, I (seen c) → P (seen c) →
    let '(tr, c', r) := m c in
    Forall I tr ∧ I (seen c') ∧ match r with Ok a => Q a (seen c') | Err _ => True end.

Lemma triple_pre I (P P' : world → Prop) {A} (m : K A) Q :
  (∀ w, I w → P w → P' w) → triple I P' m Q → triple I P m Q.
Proof. intros HP Hm c Hc Hpre. apply Hm; auto. Qed.

Lemma triple_post I P {A} (m : K A) (Q Q' : A → world → Prop) :
  (∀ a w, I w → Q a w → Q' a w) → triple I P m Q → triple I P m Q'.
Proof.
  intros HQ Hm c Hc Hpre. specialize (Hm c Hc Hpre). destruct (m c) as [[tr c'] [a|e]]; naive_solver.
Qed.

Lemma triple_pure I P (φ : Prop) {A} (m : K A) Q :
  (φ → triple I P m Q) → triple I (λ w, P w ∧ φ) m Q.
Proof. intros Hm c Hc [Hpre Hφ]. by apply Hm. Qed.

Lemma triple_ret I P {A} (a : A) (Q : A → world → Prop) :
  (∀ w, I w → P w → Q a w) → triple I P (mret a) Q.
Proof. intros HQ c Hc Hpre. simpl. split; [constructor|]. auto. Qed.

Lemma triple_fail I P {A} e (Q : A → world → Prop) : triple I P (k_fail e) Q.
Proof. intros c Hc Hpre. simpl. split; [constructor|]. auto. Qed.

Lemma triple_lift I P {A} (r : result A) (Q : A → world → Prop) :
  (∀ a w, r = Ok a → I w → P w → Q a w) → triple I P (k_lift r) Q.
Proof. intros HQ c Hc Hpre. simpl. split; [constructor|]. destruct r; auto. Qed.

Lemma triple_bind I P {A B} (m : K A) (f : A → K B) R Q :
  triple I P m R → (∀ a, triple I (R a) (f a) Q) → triple I P (m ≫= f) Q.
Proof.
  intros Hm Hf c Hc Hpre. specialize (Hm c Hc Hpre). unfold mbind, K_bind, k_bind.
  destruct (m c) as [[tr c1] [a|e]]; [|done]. destruct Hm as (Htr & Hc1 & HR).
  specialize (Hf a c1 Hc1 HR). destruct (f a c1) as [[tr' c2] r]. destruct Hf as (Htr' & ? & ?).
  split; [by apply Forall_app | done].
Qed.

(** A run that only reads. *)
Lemma triple_get I P k (Q : Object → world → Prop) :
  (∀ o w, w_objects w !! k = Some o → I w → P w → Q o w) → triple I P (k_get k) Q.
Proof.
  intros HQ c Hc Hpre. unfold k_get. pose proof (api_get_spec k c) as Hs.
  destruct (api_get k c) as [[o|e] c']; destruct Hs as [-> Hs]; (split; [constructor|]); auto.
Qed.

Lemma triple_find I P k (Q : option Object → world → Prop) :
  (∀ w, I w → P w → Q (w_objects w !! k) w) → triple I P (k_find k) Q.
Proof.
  intros HQ c Hc Hpre. unfold k_find, k_try, k_get, mbind, K_bind, k_bind.
  pose proof (api_get_spec k c) as Hs. specialize (HQ _ Hc Hpre).
  destruct (api_get k c) as [[o|e] c']; destruct Hs as [Hs1 Hs2]; simpl.
  - rewrite Hs1. rewrite Hs2 in HQ. split; [constructor | done].
  - destruct (is_not_found e); simpl; rewrite Hs1; (split; [constructor|]); [|done].
    by rewrite Hs2 in HQ.
Qed.

Lemma triple_now I P (Q : Z → world → Prop) :
  (∀ t w, I w → P w → Q t w) → triple I P k_now Q.
Proof.
  intros HQ c Hc Hpre. unfold k_now. pose proof (api_now_spec c) as Hs.
  destruct (api_now c) as [t c']. simpl in Hs. rewrite Hs. split; [constructor | auto].
Qed.

Lemma triple_update I P o f (Q : Object → world → Prop) :
  (∀ w, I w → P w →
     let o' := mark_created (f (default o (w_objects w !! key_of o))) in
     let w' := set_objects <[key_of o := o']> w in I w' ∧ Q o' w') →
  triple I P (k_update o f) Q.
Proof.
  intros HQ c Hc Hpre. unfold k_update. pose proof (api_create_or_update_spec o f c) as Hs.
  destruct (HQ _ Hc Hpre) as [HI HQ']. destruct (api_create_or_update o f c) as [[o'|e] c']; simpl in Hs.
  - destruct Hs as [-> ->]. split; [by constructor | done].
  - destruct Hs as [->| ->]; (split; [by constructor | done]).
Qed.

Lemma set_objects_id f w : f (w_objects w) = w_objects w → set_objects f w = w.
Proof. intros Hf. unfold set_objects. rewrite Hf. by destruct w. Qed.

(** A deletion that takes NotFound for success. *)
Lemma triple_delete I P k (Q : unit → world → Prop) :
  (∀ w, I w → P w → I (set_objects (delete k) w)) →
  (∀ w, I w → P w → Q tt (set_objects (delete k) w)) →
  triple I P (k_delete k) Q.
Proof.
  intros HI HQ c Hc Hpre. unfold k_delete. pose proof (api_delete_spec k c) as Hs.
  specialize (HI _ Hc Hpre). specialize (HQ _ Hc Hpre).
  destruct (api_delete k c) as [[[]|e] c']; simpl in Hs.
  - rewrite Hs. split; [by constructor | done].
  - destruct (is_not_found e); [destruct Hs as [_ ->] | destruct Hs as [->| ->]];
      (split; [by constructor | done]).
Qed.

Definition k_delete_ignore (k : ObjKey) : K unit :=
  r ← k_try (k_delete k);
  match r with
  | Ok _ => mret tt
  | Err e => if is_not_found e then mret tt else k_fail e
  end.

Lemma triple_delete_ignore I P k (Q : unit → world → Prop) :
  (∀ w, I w → P w → I (set_objects (delete k) w) ∧ Q tt (set_objects (delete k) w)) →
  triple I P (k_delete_ignore k) Q.
Proof.
  intros HQ c Hc Hpre. unfold k_delete_ignore, k_try, k_delete, mbind, K_bind, k_bind.
  pose proof (api_delete_spec k c) as Hs. destruct (HQ _ Hc Hpre) as [HI HQ'].
  destruct (api_delete k c) as [[[]|e] c']; simpl in *.
  - rewrite Hs. split; [by constructor | done].
  - destruct (is_not_found e); simpl.
    + destruct Hs as [Hn ->]. rewrite set_objects_id in HQ' by (by apply delete_id).
      split; [by constructor | done].
    + destruct Hs as [->| ->]; (split; [by constructor | done]).
Qed.

Lemma triple_create I P o (Q : unit → world → Prop) :
  (∀ w, I w → P w → w_objects w !! key_of o = None →
     let w' := set_objects <[key_of o := mark_created o]> w in I w' ∧ Q tt w') →
  triple I P (k_create o) Q.
Proof.
  intros HQ c Hc Hpre. unfold k_create. pose proof (api_create_spec o c) as Hs. specialize (HQ _ Hc Hpre).
  destruct (api_create o c) as [[[]|e] c']; simpl in Hs.
  - destruct Hs as [Hn ->]. destruct (HQ Hn). split; [by constructor | done].
  - destruct Hs as [->|[Hn ->]]; [|destruct (HQ Hn)]; (split; [by constructor | done]).
Qed.

(** A call whose error the code looks at. *)
Lemma triple_try I P {A} (m : K A) Q :
  triple I P m Q →
  triple I P (k_try m) (λ r w, match r with Ok a => Q a w | Err _ => True end).
Proof.
  intros Hm c Hc Hpre. specialize (Hm c Hc Hpre). unfold k_try.
  destruct (m c) as [[tr c'] [a|e]]; naive_solver.
Qed.

(** A deletion whose outcome does not matter. *)
Lemma triple_try_delete I P k (Q : world → Prop) :
  (∀ w, I w → P w → (I (set_objects (delete k) w) ∧ Q (set_objects (delete k) w)) ∧ Q w) →
  triple I P (k_try (k_delete_ignore k)) (λ _, Q).
Proof.
  intros HQ c Hc Hpre. unfold k_delete_ignore, k_try, k_delete, mbind, K_bind, k_bind.
  pose proof (api_delete_spec k c) as Hs. destruct (HQ _ Hc Hpre) as [[HI HQ1] HQ2].
  destruct (api_delete k c) as [[[]|e] c']; simpl in *.
  - rewrite Hs. split; [by constructor | done].
  - destruct (is_not_found e); simpl.
    + destruct Hs as [Hn ->]. split; [by constructor | done].
    + destruct Hs as [->| ->]; (split; [by constructor | done]).
Qed.

Lemma triple_patch I P sp (Q : unit → world → Prop) :
  (∀ w, I w → P w →
     let w' := set_pipelines (alter (with_status (merge_status (p_status (sp_base sp))
       (p_status (sp_obj sp)))) (pipe_key (sp_obj sp))) w in I w' ∧ Q tt w') →
  triple I P (PatchStatus sp) Q.
Proof.
  intros HQ c Hc Hpre. unfold PatchStatus. pose proof (api_patch_pipeline_spec sp c) as Hs.
  destruct (HQ _ Hc Hpre) as [HI HQ']. destruct (api_patch_pipeline sp c) as [[[]|e] c']; simpl in Hs.
  - rewrite Hs. split; [by constructor | done].
  - destruct Hs as [->| ->]; (split; [by constructor | done]).
Qed.

Lemma triple_patch_status I P obj base (Q : unit → world → Prop) :
  (∀ w, I w → P w →
     let w' := set_status (merge_workload_status base obj) w in I w' ∧ Q tt w') →
  triple I P (PatchWorkloadStatus obj base) Q.
Proof.
  intros HQ c Hc Hpre. unfold PatchWorkloadStatus. pose proof (api_patch_status_spec base obj c) as Hs.
  destruct (HQ _ Hc Hpre) as [HI HQ']. destruct (api_patch_status base obj c) as [[[]|e] c']; simpl in Hs.
  - rewrite Hs. split; [by constructor | done].
  - destruct Hs as [->| ->]; (split; [by constructor | done]).
Qed.

Lemma triple_wrap I P {A} pre (m : K A) Q : triple I P m Q → triple I P (k_wrap pre m) Q.
Proof.
  intros Hm c Hc Hpre. specialize (Hm c Hc Hpre). unfold k_wrap.
  by destruct (m c) as [[tr c'] [a|e]].
Qed.

Lemma triple_when I P b m (Q : unit → world → Prop) :
  (b = true → triple I P m Q) → (b = false → ∀ w, I w → P w → Q tt w) → triple I P (k_when b m) Q.
Proof. destruct b; intros Ht Hf; [auto|]. apply triple_ret. auto. Qed.

Lemma triple_iter I (P : world → Prop) {A} (f : A → K unit) l :
  (∀ x, x ∈ l → triple I P (f x) (λ _, P)) → triple I P (k_iter f l) (λ _, P).
Proof.
  induction l as [|x l IH]; intros Hf; simpl; [by apply triple_ret|].
  eapply triple_bind; [apply Hf; by left|]. intros []. apply IH. intros; apply Hf; by right.
Qed.
End monad.

(** ** An API server

    The world, a clock, and which of the calls to come fail. *)
Record simple_cluster := {
  sc_world : world;
  sc_fails : nat → bool;
  sc_calls : nat;
  sc_clock : Z
}.

Definition call_failed : err := ErrText "the server is currently unable to handle the request".
Definition not_found_error : err := ErrApi ReasonNotFound "not found".
Definition already_exists_error : err := ErrApi ReasonAlreadyExists "already exists".

(** One call: it fails without an effect, or answers from the world. *)
Definition simple_call {A} (act : world → result A * world) (c : simple_cluster) : result A * simple_cluster :=
  let next w := {| sc_world := w; sc_fails := sc_fails c; sc_calls := S (sc_calls c); sc_clock := sc_clock c |} in
  if sc_fails c (sc_calls c) then (Err call_failed, next (sc_world c))
  else let '(r, w) := act (sc_world c) in (r, next w).

Definition simple_get (k : ObjKey) (w : world) : result Object * world :=
  (match w_objects w !! k with Some o => Ok o | None => Err not_found_error end, w).

Definition simple_update (o : Object) (f : Object → Object) (w : world) : result Object * world :=
  let o' := mark_created (f (default o (w_objects w !! key_of o))) in
  (Ok o', set_objects <[key_of o := o']> w).

Definition simple_create (o : Object) (w : world) : result unit * world :=
  match w_objects w !! key_of o with
  | Some _ => (Err already_exists_error, w)
  | None => (Ok tt, set_objects <[key_of o := mark_created o]> w)
  end.

Definition simple_delete (k : ObjKey) (w : world) : result unit * world :=
  match w_objects w !! k with
  | Some _ => (Ok tt, set_objects (delete k) w)
  | None => (Err not_found_error, w)
  end.

Definition simple_patch (sp : StatusPatch) (w : world) : result unit * world :=
  (Ok tt, set_pipelines (alter (with_status (merge_status (p_status (sp_base sp))
    (p_status (sp_obj sp)))) (pipe_key (sp_obj sp))) w).

#[export] Program Instance simple_api : KubeApi := {|
  cluster := simple_cluster;
  seen := sc_world;
  api_get k := simple_call (simple_get k);
  api_create_or_update o f := simple_call (simple_update o f);
  api_create o := simple_call (simple_create o);
  api_delete k := simple_call (simple_delete k);
  api_patch_pipeline sp := simple_call (simple_patch sp);
  api_patch_status base obj := simple_call (λ w, (Ok tt, set_status (merge_workload_status base obj) w));
  api_now c := (sc_clock c, {| sc_world := sc_world c; sc_fails := sc_fails c; sc_calls := sc_calls c;
                               sc_clock := sc_clock c + 1000000000 |})
|}.
Next Obligation.
  intros k c. unfold simple_call, simple_get. destruct (sc_fails _ _); [done|].
  by destruct (w_objects (sc_world c) !! k) eqn:Hk.
Qed.
Next Obligation.
  intros o f c. unfold simple_call, simple_update. destruct (sc_fails _ _); [by left | done].
Qed.
Next Obligation.
  intros o c. unfold simple_call, simple_create. destruct (sc_fails _ _); [by left|].
  destruct (w_objects (sc_world c) !! key_of o) eqn:Hk; [by left | done].
Qed.
Next Obligation.
  intros k c. unfold simple_call, simple_delete. destruct (sc_fails _ _); [by left|].
  by destruct (w_objects (sc_world c) !! k) eqn:Hk.
Qed.
Next Obligation. intros sp c. unfold simple_call. destruct (sc_fails _ _); [by left | done]. Qed.
Next Obligation. intros b o c. unfold simple_call. destruct (sc_fails _ _); [by left | done]. Qed.
Next Obligation. done. Qed.

(** A cluster at a time, none of whose calls fail. *)
Definition calm (w : world) (t : Z) : simple_cluster :=
  {| sc_world := w; sc_fails := λ _, false; sc_calls := 0; sc_clock := t |}.
