(* ===== verification/K8sResources.v ===== *)
(** * Creating and updating resources

    [src/internal/utils/k8s/k8s.go] and [namespace.go]: one [createOrUpdate] function
    per type, what each takes from the desired object and what it leaves to others. *)

From S2P Require Export Kube.

Section create_or_update.
Context `{GoRuntime, KubeApi}.

(** The three metadata fields the operator owns; annotations of others are kept. *)
Definition own_meta (desired existing : ObjectMeta) : ObjectMeta :=
  {| om_namespace := om_namespace existing; om_name := om_name existing;
     om_labels := om_labels desired;
     om_annotations := mergeMaps (om_annotations desired) (om_annotations existing);
     om_owners := om_owners desired; om_created := om_created existing |}.

(** A mutation that takes the whole spec (or data, or rules) of the desired object. *)
Definition mutate_whole (desired existing : Object) : Object :=
  {| o_meta := own_meta (o_meta desired) (o_meta existing); o_body := o_body desired |}.

Definition createOrUpdateDeployment (m : ObjectMeta) (spec : DeploymentSpec) : K Object :=
  let desired := {| o_meta := m; o_body := BDeployment spec |} in
  k_wrap "failed to create or update Deployment: "
    (k_update desired (λ existing,
      let currentReplicas :=
        match o_body existing with BDeployment s => dep_replicas s | _ => None end in
      {| o_meta := own_meta m (o_meta existing);
         o_body := BDeployment {|
           dep_replicas := match dep_replicas spec with Some r => Some r | None => currentReplicas end;
           dep_template := dep_template spec; dep_settings := dep_settings spec |} |})).

(** The update of a StatefulSet that exists: only the mutable fields. *)
Definition update_statefulset (desired existing : StatefulSetSpec) : StatefulSetSpec :=
  {| sts_replicas := match sts_replicas desired with
                     | Some r => Some r | None => sts_replicas existing end;
     sts_service_name := sts_service_name existing;
     sts_pod_management := sts_pod_management existing;
     sts_claims := sts_claims existing;
     sts_template := sts_template desired;
     sts_update_strategy := sts_update_strategy desired;
     sts_pvc_retention := sts_pvc_retention desired;
     sts_min_ready := sts_min_ready desired;
     sts_settings := sts_settings existing |}.

Definition createOrUpdateStatefulSet (m : ObjectMeta) (spec : StatefulSetSpec) : K Object :=
  let desired := {| o_meta := m; o_body := BStatefulSet spec |} in
  k_wrap "failed to create or update StatefulSet: "
    (k_update desired (λ existing,
      {| o_meta := own_meta m (o_meta existing);
         o_body := match o_body existing with
                   | BStatefulSet s => if om_created (o_meta existing)
                                       then BStatefulSet (update_statefulset spec s) else BStatefulSet spec
                   | _ => BStatefulSet spec
                   end |})).

(** Whether the desired StatefulSet changes a field that cannot be; only logged. *)
Definition statefulSetImmutableChanged (existing desired : StatefulSetSpec) : bool :=
  bool_decide (sts_service_name existing ≠ sts_service_name desired) ||
  bool_decide (sts_pod_management existing ≠ sts_pod_management desired) ||
  bool_decide (length (sts_claims existing) ≠ length (sts_claims desired)) ||
  existsb (λ '(e, d), bool_decide (ct_name d ≠ ct_name e) || negb (ct_storage d =? ct_storage e))
    (zip (sts_claims existing) (sts_claims desired)).

Definition createOrUpdateDaemonSet (desired : Object) : K Object :=
  k_wrap "failed to create or update Daemonset: " (k_update desired (mutate_whole desired)).
Definition createOrUpdateSecret (desired : Object) : K Object :=
  k_wrap "failed to create or update Secret: " (k_update desired (mutate_whole desired)).
Definition createOrUpdateConfigMap (desired : Object) : K Object :=
  k_wrap "failed to create or update ConfigMap: " (k_update desired (mutate_whole desired)).
Definition createOrUpdateService (desired : Object) : K Object :=
  k_wrap "failed to create or update Service: " (k_update desired (mutate_whole desired)).
Definition createOrUpdateServiceAccount (desired : Object) : K Object :=
  k_wrap "failed to create or update ServiceAccount: " (k_update desired (mutate_whole desired)).

(** A ClusterRole keeps the owners it has. *)
Definition createOrUpdateClusterRole (desired : Object) : K Object :=
  k_wrap "failed to create or update ClusterRole: "
    (k_update desired (λ existing,
      let m := own_meta (o_meta desired) (o_meta existing) in
      {| o_meta := {| om_namespace := om_namespace m; om_name := om_name m; om_labels := om_labels m;
                      om_annotations := om_annotations m; om_owners := om_owners (o_meta existing);
                      om_created := om_created m |};
         o_body := o_body desired |})).

Definition createOrUpdateClusterRoleBinding (desired : Object) : K Object :=
  k_wrap "failed to create or update ClusterRoleBinding: " (k_update desired (mutate_whole desired)).
Definition createOrUpdatePodMonitor (desired : Object) : K Object :=
  k_wrap "failed to create or update PodMonitor: " (k_update desired (mutate_whole desired)).
Definition createOrUpdateHPA (desired : Object) : K Object :=
  k_wrap "failed to create or update HPA: " (k_update desired (mutate_whole desired)).
Definition createOrUpdatePodDisruptionBudget (desired : Object) : K Object :=
  k_wrap "failed to create or update PodDisruptionBudget: " (k_update desired (mutate_whole desired)).
Definition createOrUpdatePodSrape (desired : Object) : K Object :=
  k_wrap "failed to create or update VMPodScrape: " (k_update desired (mutate_whole desired)).

Definition NewNotSupportedError (desired : Object) : err :=
  ErrWrapSentinel (ErrSentinel "ErrNotSupported" "not Supported type for create or update kubernetes resource")
    (".
 " +:+ om_name (o_meta desired)).

Definition CreateOrUpdateResource (desired : Object) : K Object :=
  match o_body desired with
  | BDeployment spec => createOrUpdateDeployment (o_meta desired) spec
  | BStatefulSet spec => createOrUpdateStatefulSet (o_meta desired) spec
  | BDaemonSet _ => createOrUpdateDaemonSet desired
  | BSecret _ => createOrUpdateSecret desired
  | BConfigMap _ => createOrUpdateConfigMap desired
  | BService _ => createOrUpdateService desired
  | BServiceAccount => createOrUpdateServiceAccount desired
  | BClusterRole _ => createOrUpdateClusterRole desired
  | BClusterRoleBinding _ _ => createOrUpdateClusterRoleBinding desired
  | BPodMonitor _ => createOrUpdatePodMonitor desired
  | BPodDisruptionBudget _ => createOrUpdatePodDisruptionBudget desired
  | BVMPodScrape _ => createOrUpdatePodSrape desired
  | BHPA _ => createOrUpdateHPA desired
  | BPod _ | BNamespace _ => k_fail (NewNotSupportedError desired)
  end.

(** [CreatePod]: a pod that exists already counts as created. *)
Definition CreatePod (pod : Object) : K unit :=
  r ← k_try (k_create pod);
  match r with
  | Ok _ => mret tt
  | Err e => if is_already_exists e then mret tt else k_fail e
  end.

Definition GetPod (key : NamespacedName) : K Object := k_get (KPod, key.1, key.2).
Definition GetSecret (key : NamespacedName) : K Object := k_get (KSecret, key.1, key.2).
Definition DeletePod (key : NamespacedName) : K unit := k_delete (KPod, key.1, key.2).
Definition DeleteSecret (key : NamespacedName) : K unit := k_delete (KSecret, key.1, key.2).

(** [NamespaceIsTerminating] *)
Definition NamespaceIsTerminating (name : string) : K bool :=
  r ← k_find (KNamespace, "", name);
  match r with
  | None => mret true
  | Some ns => mret (match o_body ns with BNamespace deleting => deleting | _ => false end)
  end.
End create_or_update.

(** ** What a call leaves behind *)

Section contract.
Context `{GoRuntime, KubeApi}.

(** The mutation each type's function passes to [controllerutil.CreateOrUpdate]. *)
Definition mutation_meta (b : Body) (desired existing : ObjectMeta) : ObjectMeta :=
  let m := own_meta desired existing in
  match b with
  | BClusterRole _ =>
      {| om_namespace := om_namespace m; om_name := om_name m; om_labels := om_labels m;
         om_annotations := om_annotations m; om_owners := om_owners existing;
         om_created := om_created m |}
  | _ => m
  end.

Definition mutation_body (desired existing : Body) (created : bool) : Body :=
  match desired with
  | BDeployment spec =>
      let current := match existing with BDeployment s => dep_replicas s | _ => None end in
      BDeployment {|
        dep_replicas := match dep_replicas spec with Some r => Some r | None => current end;
        dep_template := dep_template spec; dep_settings := dep_settings spec |}
  | BStatefulSet spec =>
      match existing with
      | BStatefulSet s => if created then BStatefulSet (update_statefulset spec s) else BStatefulSet spec
      | _ => BStatefulSet spec
      end
  | _ => desired
  end.

Definition mutation (desired existing : Object) : Object :=
  {| o_meta := mutation_meta (o_body desired) (o_meta desired) (o_meta existing);
     o_body := mutation_body (o_body desired) (o_body existing) (om_created (o_meta existing)) |}.

Definition supported (o : Object) : Prop := body_kind (o_body o) ≠ KPod ∧ body_kind (o_body o) ≠ KNamespace.

Lemma CreateOrUpdateResource_eq desired :
  supported desired →
  ∃ pre, CreateOrUpdateResource desired = k_wrap pre (k_update desired (mutation desired)).
Proof.
  destruct desired as [m b]. intros [? ?].
  destruct b; simpl in *; try done; eexists; unfold CreateOrUpdateResource; simpl; reflexivity.
Qed.

(** The object stored by a call that reached the server. *)
Definition applied (desired : Object) (w : world) : Object :=
  mark_created (mutation desired (default desired (w_objects w !! key_of desired))).

Lemma triple_resource I P desired (Q : Object → world → Prop) :
  supported desired →
  (∀ w, I w → P w →
     let w' := set_objects <[key_of desired := applied desired w]> w in I w' ∧ Q (applied desired w) w') →
  triple I P (CreateOrUpdateResource desired) Q.
Proof.
  intros [pre ->]%CreateOrUpdateResource_eq HQ. apply triple_wrap, triple_update, HQ.
Qed.

Lemma resource_run desired c :
  supported desired →
  let '(tr, c', r) := CreateOrUpdateResource desired c in
  let w' := set_objects <[key_of desired := applied desired (seen c)]> (seen c) in
  match r with
  | Ok o => o = applied desired (seen c) ∧ seen c' = w'
  | Err _ => seen c' = seen c ∨ seen c' = w'
  end.
Proof.
  intros [pre ->]%CreateOrUpdateResource_eq. unfold k_wrap, k_update.
  pose proof (api_create_or_update_spec desired (mutation desired) c) as Hs.
  by destruct (api_create_or_update desired (mutation desired) c) as [[o|e] c'].
Qed.

(** Every stored object is filed under its own kind, namespace and name, and the
    server has given it a creation timestamp. *)
Definition well_keyed (w : world) : Prop :=
  ∀ k o, w_objects w !! k = Some o → key_of o = k ∧ om_created (o_meta o) = true.

Lemma mutation_body_kind b b' created : body_kind (mutation_body b b' created) = body_kind b.
Proof. destruct b; try reflexivity. simpl. destruct b'; try reflexivity. by destruct created. Qed.

Lemma mutation_key desired existing :
  body_kind (o_body existing) = body_kind (o_body desired) →
  key_of (mark_created (mutation desired existing)) = key_of existing.
Proof.
  intros Hk. unfold key_of. simpl. rewrite mutation_body_kind, Hk.
  by destruct desired as [m []].
Qed.

Lemma applied_key desired w : well_keyed w → key_of (applied desired w) = key_of desired.
Proof.
  intros Hw. unfold applied. destruct (w_objects w !! key_of desired) as [e|] eqn:He; simpl.
  - apply Hw in He as [He _]. rewrite mutation_key; [done|]. unfold key_of in He. congruence.
  - by apply mutation_key.
Qed.

Lemma mergeMaps_idem m1 m2 : mergeMaps m1 (mergeMaps m1 m2) = mergeMaps m1 m2.
Proof.
  rewrite !mergeMaps_spec, (assoc_L (∪)). f_equal. apply map_eq. intros k.
  rewrite lookup_union. by destruct (m1 !! k).
Qed.

Lemma mutation_body_idem b b' created :
  mutation_body b (mutation_body b b' created) true = mutation_body b b' created.
Proof.
  destruct b; try reflexivity; simpl; [by destruct (dep_replicas spec)|].
  assert (Hs : ∀ s, update_statefulset spec (update_statefulset spec s) = update_statefulset spec s)
    by (intros s; unfold update_statefulset; simpl; by destruct (sts_replicas spec)).
  assert (Hi : update_statefulset spec spec = spec)
    by (unfold update_statefulset; by destruct spec as [[]]).
  destruct b'; simpl; try (by rewrite Hi). destruct created; [by rewrite Hs | by rewrite Hi].
Qed.

(** A second call finds nothing to change. *)
Lemma mutation_idem desired existing :
  let o := mark_created (mutation desired existing) in mark_created (mutation desired o) = o.
Proof.
  destruct desired as [m b]. unfold mutation, mark_created. simpl. rewrite mutation_body_idem. f_equal.
  destruct b; simpl; by rewrite mergeMaps_idem.
Qed.

Definition template_of (o : Object) : option PodTemplate :=
  match o_body o with
  | BDeployment s => Some (dep_template s)
  | BStatefulSet s => Some (sts_template s)
  | BDaemonSet s => Some (ds_template s)
  | _ => None
  end.

Definition replicas_of (o : Object) : option Z :=
  match o_body o with BDeployment s => dep_replicas s | BStatefulSet s => sts_replicas s | _ => None end.

(** The fields of a StatefulSet the server rejects changes of. *)
Definition immutable_fields (o : Object) : option (string * string * list ClaimTemplate * settings) :=
  match o_body o with
  | BStatefulSet s => Some (sts_service_name s, sts_pod_management s, sts_claims s, sts_settings s)
  | _ => None
  end.

(** What the object stored by a call has of the desired object and what it keeps of
    the one it replaces. *)
Record reconciled (desired : Object) (existing : option Object) (o : Object) : Prop := {
  rc_key : key_of o = key_of desired;
  rc_labels : om_labels (o_meta o) = om_labels (o_meta desired);
  rc_annotations : om_annotations (o_meta o) =
    om_annotations (o_meta desired) ∪ default ∅ (om_annotations ∘ o_meta <$> existing);
  rc_owners : om_owners (o_meta o) = om_owners (o_meta desired) ∨
    body_kind (o_body desired) = KClusterRole ∧
    om_owners (o_meta o) = default (om_owners (o_meta desired)) (om_owners ∘ o_meta <$> existing);
  rc_template : template_of o = template_of desired;
  rc_replicas : replicas_of o =
    match replicas_of desired with Some r => Some r | None => existing ≫= replicas_of end;
  rc_immutable e : existing = Some e → immutable_fields o = immutable_fields e;
  rc_other : body_kind (o_body desired) ∉ [KDeployment; KStatefulSet] → o_body o = o_body desired
}.

Lemma applied_reconciled desired w :
  supported desired → well_keyed w →
  reconciled desired (w_objects w !! key_of desired) (applied desired w).
Proof.
  intros Hs Hw. pose proof (applied_key desired w Hw) as Hkey. unfold applied in *.
  destruct (w_objects w !! key_of desired) as [e|] eqn:He; simpl in *.
  - apply Hw in He as [He Hcr].
    assert (Hk : body_kind (o_body e) = body_kind (o_body desired)) by (unfold key_of in He; congruence).
    clear He Hw Hs. destruct desired as [m b], e as [m' b'].
    destruct b, b'; try discriminate Hk; simpl in *; split; simpl; try done;
      rewrite ?mergeMaps_spec; try done; try (by left); try (by right); try set_solver.
    all: unfold template_of, replicas_of, immutable_fields; simpl; rewrite ?Hcr; simpl; try done.
    all: by intros ? [= <-].
  - clear Hw Hs He. destruct desired as [m b]. destruct b; simpl in *; split; simpl;
      rewrite ?mergeMaps_spec, ?(idemp_L (∪)), ?(right_id_L ∅ (∪)); try done; try (by left); try (by right).
    all: try (by destruct (dep_replicas spec)).
    all: unfold template_of, replicas_of; simpl.
    all: try (by destruct (dep_replicas spec)).
    all: destruct (om_created m); simpl; try done; destruct spec as [[]]; done.
Qed.

(** C31: [CreateOrUpdateResource] on any supported type: on success exactly one object
    is written, the reconciled one (the operator's labels, template and spec; foreign
    annotations and, for a nil replica count, the live replica count kept; the
    immutable fields of a StatefulSet and the owners of a ClusterRole untouched); on
    an error nothing was written or that same object was. *)
Theorem create_or_update_exact desired c :
  supported desired → well_keyed (seen c) →
  let '(tr, c', r) := CreateOrUpdateResource desired c in
  let old := w_objects (seen c) !! key_of desired in
  well_keyed (seen c') ∧
  match r with
  | Ok o => reconciled desired old o ∧ seen c' = set_objects <[key_of desired := o]> (seen c)
  | Err _ => seen c' = seen c ∨
      ∃ o, reconciled desired old o ∧ seen c' = set_objects <[key_of desired := o]> (seen c)
  end.
Proof.
  intros Hs Hw. pose proof (resource_run desired c Hs) as Hr.
  pose proof (applied_reconciled desired (seen c) Hs Hw) as Ha.
  assert (Hw' : well_keyed (set_objects <[key_of desired := applied desired (seen c)]> (seen c))).
  { intros k o. simpl. intros [[<- <-]|[_ Hk]]%lookup_insert_Some; [|by apply Hw].
    split; [by apply applied_key | done]. }
  destruct (CreateOrUpdateResource desired c) as [[tr c'] [o|e]].
  - by destruct Hr as [-> ->].
  - destruct Hr as [->| ->]; (split; [done|]); [by left | right; by eexists].
Qed.

(** Reconciling is idempotent: after a successful call a second one, in the same
    world, leaves the world as it is, whether or not it succeeds. *)
Lemma create_or_update_idempotent desired c tr c' o :
  supported desired → well_keyed (seen c) →
  CreateOrUpdateResource desired c = (tr, c', Ok o) →
  ∀ c1, seen c1 = seen c' →
    let '(_, c2, r) := CreateOrUpdateResource desired c1 in
    seen c2 = seen c1 ∧ match r with Ok o' => o' = o | Err _ => True end.
Proof.
  intros Hs Hw Hrun c1 Hc1. pose proof (resource_run desired c Hs) as Hr. rewrite Hrun in Hr.
  destruct Hr as [Ho Hc']. pose proof (resource_run desired c1 Hs) as Hr1.
  assert (Hidem : applied desired (seen c1) = o).
  { rewrite Hc1, Hc'. unfold applied at 1. simpl. rewrite lookup_insert_eq. simpl. rewrite Ho.
    unfold applied. destruct (w_objects (seen c) !! key_of desired) as [e|] eqn:He; simpl.
    - apply mutation_idem.
    - apply mutation_idem. }
  assert (Hsame : set_objects <[key_of desired := applied desired (seen c1)]> (seen c1) = seen c1).
  { apply set_objects_id, insert_id. rewrite Hidem, Hc1, Hc', Ho. simpl. by rewrite lookup_insert_eq. }
  rewrite Hsame in Hr1. destruct (CreateOrUpdateResource desired c1) as [[tr2 c2] [o'|e]].
  - destruct Hr1 as [-> ->]. done.
  - by destruct Hr1.
Qed.
End contract.

(** ** Witnesses *)

Definition sample_meta : ObjectMeta :=
  {| om_namespace := "ns"; om_name := "d"; om_labels := {["a" := "b"]}; om_annotations := ∅;
     om_owners := []; om_created := false |}.
Definition sample_template : PodTemplate :=
  {| pt_meta := sample_meta;
     pt_spec := {| ps_volumes := []; ps_init_containers := []; ps_containers := []; ps_settings := [] |} |}.
Definition sample_deployment (replicas : option Z) : Object :=
  {| o_meta := sample_meta;
     o_body := BDeployment {| dep_replicas := replicas; dep_template := sample_template; dep_settings := [] |} |}.

(** A Deployment an autoscaler has set to four replicas. *)
Definition sample_status_world (o : store) : world :=
  {| w_objects := o; w_pipelines := ∅;
     w_status := {| ws_config_check_result := None; ws_reason := None; ws_last_applied_config_hash := None;
                    ws_last_applied_global_hash := None; ws_last_config_published_at := None |} |}.
Definition sample_world : world :=
  sample_status_world {[key_of (sample_deployment None) := mark_created (sample_deployment (Some 4))]}.

Lemma sample_world_keyed : well_keyed sample_world.
Proof.
  intros k o Hk. change (w_objects sample_world) with
    ({[key_of (sample_deployment None) := mark_created (sample_deployment (Some 4))]} : store) in Hk.
  by apply lookup_singleton_Some in Hk as [<- <-].
Qed.

Lemma sample_supported : supported (sample_deployment None).
Proof. done. Qed.

Definition sample_calm : @cluster simple_api := calm sample_world 0.

Lemma sample_calm_keyed : well_keyed (@seen simple_api sample_calm).
Proof. exact sample_world_keyed. Qed.

Lemma create_or_update_exact_witness :
  let '(_, c', _) := @CreateOrUpdateResource stable_runtime simple_api (sample_deployment None) sample_calm in
  well_keyed (sc_world c').
Proof.
  pose proof (@create_or_update_exact stable_runtime simple_api (sample_deployment None) sample_calm
    sample_supported sample_calm_keyed) as Hx.
  destruct (CreateOrUpdateResource _ _) as [[tr c'] r]. exact (proj1 Hx).
Defined.

Lemma create_or_update_idempotent_witness :
  match @CreateOrUpdateResource stable_runtime simple_api (sample_deployment None) sample_calm with
  | (_, c', Ok o) =>
      let '(_, c2, _) := @CreateOrUpdateResource stable_runtime simple_api (sample_deployment None) c' in
      sc_world c2 = sc_world c'
  | _ => False
  end.
Proof.
  destruct (@CreateOrUpdateResource stable_runtime simple_api (sample_deployment None) sample_calm)
    as [[tr c'] [o|e]] eqn:Hr; [|discriminate Hr].
  pose proof (@create_or_update_idempotent stable_runtime simple_api _ _ _ _ _
    sample_supported sample_calm_keyed Hr c' eq_refl) as Hx.
  destruct (CreateOrUpdateResource _ c') as [[tr2 c2] r]. exact (proj1 Hx).
Defined.
