(* ===== verification/Config.v ===== *)
(** * The configuration a build produces

    [src/internal/config]: the types of [types.go], the names of [utils.go], the
    defaults of [default.go], the source types of [vector_source_types.go], and
    the parts of [config.go] and [aggregator.go] that do not depend on secrets. *)

From S2P Require Export Pipelines.

(** ** Component names ([utils.go]) *)

Definition generateName (Namespace Name : string) : string :=
  if bool_decide (Namespace = "") then Name else Namespace +:+ "-" +:+ Name.

Definition addPrefix (Namespace Name componentName : string) : string :=
  generateName Namespace Name +:+ "-" +:+ componentName.

(** ** Types ([types.go]) *)

Record ApiSpec := { api_address : string; api_enabled : bool; api_playground : bool }.

Record PipelineConfig := {
  Sources : gmap string Source;
  Transforms : gmap string Component;
  Sinks : gmap string Component
}.

Inductive protocol := ProtocolTCP | ProtocolUDP.

#[export] Instance protocol_eq_dec : EqDecision protocol.
Proof. solve_decision. Defined.

Definition protocol_name (p : protocol) : string :=
  match p with ProtocolTCP => "TCP" | ProtocolUDP => "UDP" end.

Record ServicePort := {
  IsKubernetesEvents : bool;
  sp_pipeline_name : string;
  sp_source_name : string;
  sp_namespace : string;
  sp_port : Z;
  sp_protocol : protocol;
  sp_service_name : string
}.

Record internalConfig := {
  servicePort : gmap string ServicePort;
  optimizedSources : Z;
  sourceGroups : Z;
  secretAssets : gmap string string
}.

Record VectorConfig := {
  DataDir : string;
  ExpireMetricsSecs : option Z;
  Api : ApiSpec;
  cfg_pipeline : PipelineConfig;
  cfg_secret : option (list (string * value));   (** [Secret]; nil as [None] *)
  internal : internalConfig
}.

Definition with_pipeline (f : PipelineConfig → PipelineConfig) (c : VectorConfig) : VectorConfig :=
  {| DataDir := DataDir c; ExpireMetricsSecs := ExpireMetricsSecs c; Api := Api c;
     cfg_pipeline := f (cfg_pipeline c); cfg_secret := cfg_secret c; internal := internal c |}.
Definition with_internal (f : internalConfig → internalConfig) (c : VectorConfig) : VectorConfig :=
  {| DataDir := DataDir c; ExpireMetricsSecs := ExpireMetricsSecs c; Api := Api c;
     cfg_pipeline := cfg_pipeline c; cfg_secret := cfg_secret c; internal := f (internal c) |}.
Definition with_sources (f : gmap string Source → gmap string Source) (c : PipelineConfig) : PipelineConfig :=
  {| Sources := f (Sources c); Transforms := Transforms c; Sinks := Sinks c |}.
Definition with_transforms (f : gmap string Component → gmap string Component) (c : PipelineConfig) :=
  {| Sources := Sources c; Transforms := f (Transforms c); Sinks := Sinks c |}.
Definition with_sinks (f : gmap string Component → gmap string Component) (c : PipelineConfig) :=
  {| Sources := Sources c; Transforms := Transforms c; Sinks := f (Sinks c) |}.

Definition with_src_name (n : string) (s : Source) : Source :=
  {| src_name := n; src_type := src_type s; src_ns_selector := src_ns_selector s;
     src_label_selector := src_label_selector s; src_field_selector := src_field_selector s;
     src_use_cache := src_use_cache s; src_options := src_options s |}.
Definition with_src_options (o : list (string * value)) (s : Source) : Source :=
  {| src_name := src_name s; src_type := src_type s; src_ns_selector := src_ns_selector s;
     src_label_selector := src_label_selector s; src_field_selector := src_field_selector s;
     src_use_cache := src_use_cache s; src_options := o |}.
Definition with_c_options (o : list (string * value)) (c : Component) : Component :=
  {| c_name := c_name c; c_type := c_type c; c_inputs := c_inputs c; c_options := o |}.

Definition SecretAssets (c : VectorConfig) : gmap string string := secretAssets (internal c).

Definition OptimizationSummary (c : VectorConfig) : Z * Z :=
  (optimizedSources (internal c), sourceGroups (internal c)).

(** [fmt.Sprintf("%d/%s", port.Port, port.Protocol)] *)
Definition service_port_key (port : ServicePort) : string :=
  itoa (sp_port port) +:+ "/" +:+ protocol_name (sp_protocol port).

Definition addServicePort (port : ServicePort) (c : internalConfig) : result internalConfig :=
  let key := service_port_key port in
  match servicePort c !! key with
  | None => Ok {| servicePort := <[key := port]> (servicePort c);
                  optimizedSources := optimizedSources c; sourceGroups := sourceGroups c;
                  secretAssets := secretAssets c |}
  | Some v => Err (ErrText ("duplicate port " +:+ key +:+ " in " +:+ sp_pipeline_name v +:+
                            " and " +:+ sp_pipeline_name port))
  end.

(** [json.Marshal(c.globalOptions)] has one field. *)
Definition GetGlobalConfigHash (c : VectorConfig) : Z :=
  hash_Get (json_obj [("ExpireMetricsSecs",
    match ExpireMetricsSecs c with Some n => itoa n | None => "null" end)]).

(** ** Source types ([vector_source_types.go]) *)

Definition KubernetesLogsType : string := "kubernetes_logs".
Definition VectorType : string := "vector".
Definition InternalMetricsType : string := "internal_metrics".
Definition kubernetesEventsType : string := "kubernetes_events".

Definition aggregatorTypes : gset string := list_to_set
  ["amqp"; "aws_s3"; "aws_sqs"; "aws_kinesis_firehose"; "datadog_agent"; "fluent"; "gcp_pubsub";
   "http_client"; "http_server"; "heroku_logs"; "internal_logs"; InternalMetricsType; "kafka";
   "logstash"; "nats"; "opentelemetry"; "pulsar"; "redis"; "socket"; "splunk_hec"; "statsd";
   "syslog"; VectorType; kubernetesEventsType].

Definition agentTypes : gset string := list_to_set
  ["apache_metrics"; "dnstap"; "demo_logs"; "docker_logs"; "eventstoredb_metrics"; "file";
   "http_client"; "host_metrics"; "internal_logs"; InternalMetricsType; "journald";
   KubernetesLogsType; "mongodb_metrics"; "nginx_metrics"; "opentelemetry"; "postgresql_metrics";
   "prometheus_pushgateway"; "prometheus_remote_write"; "prometheus_scrape"].

Definition isAggregator (name : string) : bool := bool_decide (name ∈ aggregatorTypes).
Definition isAgent (name : string) : bool := bool_decide (name ∈ agentTypes).

(** ** Defaults ([default.go]) *)

Definition BlackholeSinkType : string := "blackhole".
Definition PrometheusExporterType : string := "prometheus_exporter".
Definition RouteTransformType : string := "route".
Definition RemapTransformType : string := "remap".
Definition DefaultSourceName : string := "defaultSource".
Definition DefaultSinkName : string := "defaultSink".
Definition DefaultInternalMetricsSourceName : string := "internalMetricsSource".
Definition DefaultInternalMetricsSinkName : string := "internalMetricsSink".
Definition DefaultInternalMetricsSinkPort : Z := 9598.
Definition DefaultAggregatorSourcePort : Z := 8989.
Definition DefaultNamespace : string := "default".
Definition DefaultPipelineName : string := "default-pipeline".
Definition AgentApiPort : Z := 8686.

(** [net.JoinHostPort(net.IPv6zero.String(), port)]: the zero address is [::]. *)
Definition join_v6 (port : Z) : string := "[::]:" +:+ itoa port.
(** [net.JoinHostPort(net.IPv4zero.String(), port)] *)
Definition join_v4 (port : Z) : string := "0.0.0.0:" +:+ itoa port.

Definition plain_source (name type : string) (options : list (string * value)) : Source :=
  {| src_name := name; src_type := type; src_ns_selector := ""; src_label_selector := "";
     src_field_selector := ""; src_use_cache := false; src_options := options |}.

Definition defaultAgentSource : Source := plain_source DefaultSourceName KubernetesLogsType [].
Definition defaultAggregatorSource : Source :=
  plain_source DefaultSourceName VectorType [("address", VStr (join_v6 DefaultAggregatorSourcePort))].
Definition defaultSink : Component :=
  {| c_name := DefaultSinkName; c_type := BlackholeSinkType; c_inputs := [DefaultSourceName];
     c_options := [("rate", VInt 100); ("print_interval_secs", VInt 60)] |}.
Definition defaultAgentPipelineConfig : PipelineConfig :=
  {| Sources := {[DefaultSourceName := defaultAgentSource]}; Transforms := ∅;
     Sinks := {[DefaultSinkName := defaultSink]} |}.
Definition defaultAggregatorPipelineConfig : PipelineConfig :=
  {| Sources := {[DefaultSourceName := defaultAggregatorSource]}; Transforms := ∅;
     Sinks := {[DefaultSinkName := defaultSink]} |}.
Definition defaultInternalMetricsSource : Source :=
  plain_source DefaultInternalMetricsSourceName InternalMetricsType [].
Definition defaultInternalMetricsSink : Component :=
  {| c_name := DefaultInternalMetricsSinkName; c_type := PrometheusExporterType;
     c_inputs := [DefaultInternalMetricsSourceName];
     c_options := [("address", VStr (join_v6 DefaultInternalMetricsSinkPort))] |}.

(** ** Decoding a spec ([config.go]) *)

(** A [map[string]interface{}] field of [pipelineConfig_]: [json.Unmarshal] leaves
    it nil for an absent member or a [null] and refuses anything but an object. *)
Definition json_map_field (key : string) (top : list (string * value)) : result (gmap string value) :=
  match assoc_get key top with
  | None | Some VNull => Ok ∅
  | Some (VMap l) => Ok (list_to_map l)
  | Some _ => Err (ErrText ("json: cannot unmarshal into Go struct field pipelineConfig_." +:+ key))
  end.

Section unmarshal.
Context `{GoRuntime, Libraries}.

Definition UnmarshalJson (spec : VectorPipelineSpec) : result PipelineConfig :=
  b ← marshal_spec spec;
  match json_parse b with
  | Some (VMap top) =>
      sources ← json_map_field "sources" top;
      transforms ← json_map_field "transforms" top;
      sinks ← json_map_field "sinks" top;
      s ← decode_sources sources;
      t ← decode_components transforms;
      k ← decode_components sinks;
      Ok {| Sources := s; Transforms := t; Sinks := k |}
  | _ => Err (ErrText "json: cannot unmarshal")
  end.
End unmarshal.

(** A [PipelineSecretGetter]: nil is [None]. *)
Definition SecretGetter : Type := option (string → string → result Secret).

Record VectorConfigParams := {
  AggregatorName : string;
  ApiEnabled : bool;
  PlaygroundEnabled : bool;
  UseApiServerCache : bool;
  InternalMetrics : bool;
  params_ExpireMetricsSecs : option Z;
  OptimizeSources : bool;
  PipelineSecretGetter : SecretGetter
}.

Definition newVectorConfig (p : VectorConfigParams) : VectorConfig :=
  {| DataDir := "/vector-data-dir";
     ExpireMetricsSecs := params_ExpireMetricsSecs p;
     Api := {| api_address := join_v6 AgentApiPort; api_enabled := ApiEnabled p;
               api_playground := PlaygroundEnabled p |};
     cfg_pipeline := {| Sources := ∅; Transforms := ∅; Sinks := ∅ |};
     cfg_secret := None;
     internal := {| servicePort := ∅; optimizedSources := 0; sourceGroups := 0; secretAssets := ∅ |} |}.

Record SPGroup := { spg_pipeline : string; spg_namespace : string; spg_service : string }.

#[export] Instance SPGroup_eq_dec : EqDecision SPGroup.
Proof. solve_decision. Defined.
#[export] Program Instance SPGroup_countable : Countable SPGroup :=
  inj_countable' (λ g, (spg_pipeline g, spg_namespace g, spg_service g))
    (λ '(a, b, c), {| spg_pipeline := a; spg_namespace := b; spg_service := c |}) _.
Next Obligation. by intros []. Qed.

(** [evcollector.ReceiverParams], [evcollector.Config] *)
Record ReceiverParams := {
  rp_service_name : string;
  rp_service_namespace : string;
  rp_port : string;
  rp_watched_namespace : string
}.

Section config_queries.
Context `{GoRuntime}.

Definition isExporterSinkExists (sinks : gmap string Component) : bool :=
  existsb (λ '(_, sink), bool_decide (c_type sink = PrometheusExporterType)) (range_map 2 sinks).

(** The loop of [VectorRole]: the two counts. *)
Definition count_role (acc : Z * Z) (s : Source) : result (Z * Z) :=
  let '(agentCount, aggregatorCount) := acc in
  if isAgent (src_type s) then Ok (agentCount + 1, aggregatorCount + 1)
  else if isAggregator (src_type s) then Ok (agentCount, aggregatorCount + 1)
  else Err (ErrText ("unsupported source type: " +:+ src_type s)).

Definition VectorRole (c : PipelineConfig) : result VectorPipelineRole :=
  if bool_decide (size (Sources c) = 0%nat) then Err (ErrText "sources list is empty") else
  '(agentCount, aggregatorCount) ← foldM count_role (0, 0) (range_map 3 (Sources c)).*2;
  if Z.of_nat (size (Sources c)) =? agentCount then Ok VectorPipelineRoleAgent
  else if Z.of_nat (size (Sources c)) =? aggregatorCount then Ok VectorPipelineRoleAggregator
  else Err (ErrText "unknown vector role").

(** [append(m[spg], s)] for every service port *)
Definition GetSourcesServicePorts (c : VectorConfig) : gmap SPGroup (list ServicePort) :=
  fold_left (λ m s,
    let spg := {| spg_pipeline := sp_pipeline_name s; spg_namespace := sp_namespace s;
                  spg_service := sp_service_name s |} in
    <[spg := default [] (m !! spg) ++ [s]]> m)
    (range_map 4 (servicePort (internal c))).*2 ∅.

(** [None] is nil; the config's [MaxBatchSize] is left at zero here. *)
Definition GetEventCollectorConfig (namespace : string) (c : VectorConfig) : option (list ReceiverParams) :=
  let items := omap (λ s, if IsKubernetesEvents s then
      Some {| rp_service_namespace := namespace; rp_service_name := sp_service_name s;
              rp_watched_namespace := sp_namespace s; rp_port := itoa (sp_port s) |}
    else None) (range_map 5 (servicePort (internal c))).*2 in
  match items with [] => None | _ => Some items end.
End config_queries.

(** ** Ports ([aggregator.go]) *)

(** [strconv.ParseInt(s, 10, bits)]: an optional sign and digits, within range. *)
Definition parse_digits (s : string) : option Z :=
  if bool_decide (s = "") then None else
  (fix go (acc : Z) (s : string) : option Z :=
     match s with
     | EmptyString => Some acc
     | String c s => if is_digit c then go (acc * 10 + (byte_val c - 48)) s else None
     end) 0 s.

Definition ParseInt (bits : Z) (s : string) : result Z :=
  let v := match s with
           | String c s' => if is_ch c 45 then Z.opp <$> parse_digits s'
                            else if is_ch c 43 then parse_digits s' else parse_digits s
           | EmptyString => None
           end in
  match v with
  | None => Err (ErrText "strconv.ParseInt: invalid syntax")
  | Some v => if between (- 2 ^ (bits - 1)) (2 ^ (bits - 1) - 1) v then Ok v
              else Err (ErrText "strconv.ParseInt: value out of range")
  end.

Definition parsePort (port : string) : result Z :=
  p ← ParseInt 32 port;
  if (p <? 0) || (65535 <? p) then Err (ErrText "port out of range") else Ok p.

Definition extractProtocol (opts : list (string * value)) : protocol :=
  match assoc_get "mode" opts with
  | Some (VStr s) => if bool_decide (to_lower s = "udp") then ProtocolUDP else ProtocolTCP
  | _ => ProtocolTCP
  end.

Definition getServiceName `{Libraries} (nameFromAnnotations aggregatorName pipelineName : string) : string :=
  if bool_decide (nameFromAnnotations ≠ "") then nameFromAnnotations
  else kebab_case (aggregatorName +:+ "-aggregator-" +:+ pipelineName).

(** The index of the last occurrence of a byte, and of the first. *)
Fixpoint last_index (b : Z) (s : string) : option nat :=
  match s with
  | EmptyString => None
  | String c s => match last_index b s with
                  | Some i => Some (S i)
                  | None => if is_ch c b then Some 0%nat else None
                  end
  end.
Fixpoint index_byte (b : Z) (s : string) : option nat :=
  match s with
  | EmptyString => None
  | String c s => if is_ch c b then Some 0%nat else S <$> index_byte b s
  end.

Definition substring (from to : nat) (s : string) : string := String.substring from (to - from) s.

(** [net.SplitHostPort]: the port, or [None] for an address it refuses. *)
Definition split_port (hostport : string) : option string :=
  let n := String.length hostport in
  i ← last_index 58 hostport;
  let port := substring (S i) n hostport in
  if match hostport with String c _ => is_ch c 91 | EmptyString => false end then
    e ← index_byte 93 hostport;
    if bool_decide (S e = n) then None
    else if bool_decide (S e = i) then
      if bool_decide (is_Some (index_byte 91 (substring 1 n hostport))) then None
      else if bool_decide (is_Some (index_byte 93 (substring (S e) n hostport))) then None
      else Some port
    else None
  else
    let host := substring 0 i hostport in
    if bool_decide (is_Some (index_byte 58 host)) then None
    else if bool_decide (is_Some (index_byte 91 hostport)) then None
    else if bool_decide (is_Some (index_byte 93 hostport)) then None
    else Some port.

Example split_port_v6 : split_port "[::]:8989" = Some "8989".
Proof. reflexivity. Qed.
Example split_port_v4 : split_port "0.0.0.0:42000" = Some "42000".
Proof. reflexivity. Qed.
Example split_port_bad : split_port "a:b:1" = None ∧ split_port "unix" = None.
Proof. by split; reflexivity. Qed.

(** ** Lemmas *)

Definition known_type (s : Source) : bool := isAgent (src_type s) || isAggregator (src_type s).

(** The loop of [VectorRole]: the second count is the number of sources. *)
Lemma count_role_fold l a b :
  foldM count_role (a, b) l =
    match List.find (λ s, negb (known_type s)) l with
    | Some s => Err (ErrText ("unsupported source type: " +:+ src_type s))
    | None => Ok (a + Z.of_nat (length (List.filter (λ s, isAgent (src_type s)) l)), b + Z.of_nat (length l))
    end.
Proof.
  revert a b. induction l as [|s l IH]; intros a b; cbn [foldM List.find List.filter length].
  - do 2 f_equal; lia.
  - unfold count_role at 2, known_type at 1.
    destruct (isAgent (src_type s)); simpl.
    + rewrite IH. destruct (List.find _ l); simpl; [done|]. do 2 f_equal; lia.
    + destruct (isAggregator (src_type s)); simpl; [|done].
      rewrite IH. destruct (List.find _ l); simpl; [done|]. do 2 f_equal; lia.
Qed.

Lemma filter_length_all {A} (f : A → bool) l :
  length (List.filter f l) = length l ↔ Forall (λ x, f x = true) l.
Proof.
  induction l as [|x l IH]; simpl; [by split|].
  pose proof (List.filter_length_le f l) as Hle. rewrite Forall_cons.
  destruct (f x); simpl; [rewrite <- IH; naive_solver lia|].
  split; [lia | by intros [? _]].
Qed.

(** ** Service ports *)

(** Every service port is filed under its own key. *)
Definition ports_filed (i : internalConfig) : Prop :=
  ∀ k sp, servicePort i !! k = Some sp → k = service_port_key sp.

Lemma addServicePort_Ok port i i' :
  addServicePort port i = Ok i' →
  servicePort i !! service_port_key port = None ∧
  servicePort i' = <[service_port_key port := port]> (servicePort i) ∧
  optimizedSources i' = optimizedSources i ∧ sourceGroups i' = sourceGroups i ∧ secretAssets i' = secretAssets i.
Proof. unfold addServicePort. destruct (servicePort i !! _) eqn:Hk; [done|]. by intros [= <-]. Qed.

Lemma addServicePort_filed port i i' : ports_filed i → addServicePort port i = Ok i' → ports_filed i'.
Proof.
  intros Hi (Hk & Hp & _)%addServicePort_Ok k sp. rewrite Hp.
  intros [[<- <-]|[_ ?]]%lookup_insert_Some; [done | by apply Hi].
Qed.

Definition group_of (s : ServicePort) : SPGroup :=
  {| spg_pipeline := sp_pipeline_name s; spg_namespace := sp_namespace s; spg_service := sp_service_name s |}.

(** ** Properties *)

(** A pipeline's role. An empty source list and an unsupported type are errors;
    otherwise the role is agent when every source can run in an agent, and
    aggregator as soon as one cannot: agent-only types next to aggregator-only ones
    count as aggregator types too, so a mixture is never refused. *)
Lemma VectorRole_exact `{GoRuntime} pc :
  let all (P : Source → Prop) := ∀ k s, Sources pc !! k = Some s → P s in
  (VectorRole pc = Ok VectorPipelineRoleAgent ↔
     Sources pc ≠ ∅ ∧ all (λ s, isAgent (src_type s) = true)) ∧
  (VectorRole pc = Ok VectorPipelineRoleAggregator ↔
     all (λ s, known_type s = true) ∧ ¬ all (λ s, isAgent (src_type s) = true)) ∧
  (is_Ok (VectorRole pc) ↔ Sources pc ≠ ∅ ∧ all (λ s, known_type s = true)).
Proof.
  cbv zeta. unfold VectorRole.
  assert (Hall : ∀ P : Source → Prop,
    Forall P (range_map 3 (Sources pc)).*2 ↔ ∀ k s, Sources pc !! k = Some s → P s).
  { intros P. rewrite Forall_fmap, Forall_forall. split.
    - intros Hf k s Hk%(range_map_lookup 3). by apply (Hf (k, s)).
    - intros Hf [k s] Hk%range_map_lookup. by eapply Hf. }
  assert (Hlen : length (range_map 3 (Sources pc)).*2 = size (Sources pc))
    by (by rewrite length_fmap, range_map_perm, length_map_to_list).
  rewrite <- !Hall. case_bool_decide as Hsz.
  { assert (Sources pc = ∅) as He by (by apply map_size_empty_inv).
    assert (Hnil : (range_map 3 (Sources pc)).*2 = []) by (by rewrite He, range_map_empty).
    rewrite Hnil. split_and!; split; try done.
    - by intros [? _].
    - intros [_ Hno]. by destruct Hno.
    - by intros [? [=]].
    - by intros [? _]. }
  assert (Hne : Sources pc ≠ ∅) by (intros He; by rewrite He in Hsz).
  rewrite count_role_fold, Hlen. set (l := (range_map 3 (Sources pc)).*2) in *.
  destruct (List.find _ l) as [s|] eqn:Hf.
  - apply List.find_some in Hf as [Hs%list_elem_of_In Hbad%negb_true_iff]. simpl.
    assert (Hno : ¬ Forall (λ s, known_type s = true) l)
      by (rewrite Forall_forall; intros Hk; specialize (Hk s Hs); congruence).
    assert (Hno' : ¬ Forall (λ s, isAgent (src_type s) = true) l).
    { intros Hk. apply Hno. eapply Forall_impl; [exact Hk|]. unfold known_type. by intros ? ->. }
    split_and!; split; try (by intros [=]); try (by intros [? [=]]); intros [Hx Hy]; destruct (Hno Hx) || destruct (Hno' Hy) || destruct (Hno Hy).
  - assert (Hk : Forall (λ s, known_type s = true) l).
    { apply Forall_forall. intros s Hs%list_elem_of_In. apply (List.find_none _ _ Hf) in Hs.
      by apply negb_false_iff in Hs. }
    simpl. rewrite <- filter_length_all, Hlen, !Z.add_0_l.
    set (na := length (List.filter (λ s, isAgent (src_type s)) l)).
    destruct (Z.eqb_spec (Z.of_nat (size (Sources pc))) (Z.of_nat na)) as [Heq|Heq].
    + assert (na = size (Sources pc)) by lia. split_and!; split; try done; try tauto. intros _. by eexists.
    + rewrite Z.eqb_refl. split_and!; split; try done; try (intros [_ ?]; lia).
      * intros _. split; [done|lia].
      * intros _. by eexists.
Qed.

(** The service ports of a configuration, grouped per Service. Every port is in
    the one group of its pipeline, namespace and service name, as often as it is
    configured, and no group is empty. *)
Lemma GetSourcesServicePorts_exact `{GoRuntime} c :
  (∀ g l, GetSourcesServicePorts c !! g = Some l →
     l ≠ [] ∧ l ≡ₚ filter (λ s, group_of s = g) (map_to_list (servicePort (internal c))).*2) ∧
  (∀ k s, servicePort (internal c) !! k = Some s →
     ∃ l, GetSourcesServicePorts c !! group_of s = Some l ∧ s ∈ l).
Proof.
  assert (Hm : GetSourcesServicePorts c = fold_left (group_add group_of) (range_map 4 (servicePort (internal c))).*2 ∅)
    by done.
  rewrite Hm. split.
  - intros g l [-> Hne]%group_add_Some. split; [done|]. by rewrite range_map_perm.
  - intros k s Hs%(range_map_lookup 4).
    assert (Hin : s ∈ filter (λ s', group_of s' = group_of s) (range_map 4 (servicePort (internal c))).*2).
    { apply list_elem_of_filter. split; [done|]. apply list_elem_of_fmap. by exists (k, s). }
    eexists. split; [apply group_add_Some; split; [done|]|done].
    intros Hnil. rewrite Hnil in Hin. set_solver.
Qed.

(** What [parsePort] accepts is a port number. *)
Lemma parsePort_range port p : parsePort port = Ok p → 0 <= p <= 65535.
Proof.
  unfold parsePort. intros (q & _ & Hq)%bind_Ok.
  destruct ((q <? 0) || (65535 <? q)) eqn:Hr; [done|]. injection Hq as <-. lia.
Qed.
