(* ===== verification/Optimize.v ===== *)
(** * Collapsing the agent's sources

    [src/internal/config/agent_optimize.go]: the sources of namespaced pipelines
    that differ only in the namespace they watch are replaced by one source per
    group and route transforms that give every consumer its namespace's events
    back. *)

From S2P Require Export Config.

Definition optimizedSourcePrefix : string := "optimizedSource".
Definition optimizedBucketerPrefix : string := "optimizedBucketer".
Definition optimizedRouterPrefix : string := "optimizedRouter".
Definition flatRoutingThreshold : Z := 16.
Definition maxRouteBuckets : Z := 256.
Definition maxNamespacesPerSource : Z := 1000.

Definition with_inputs (f : list string → list string) (c : Component) : Component :=
  {| c_name := c_name c; c_type := c_type c; c_inputs := f (c_inputs c); c_options := c_options c |}.

(** ** Sources of one namespace *)

Definition singleNamespaceOf (src : Source) : option string :=
  let ns := trim_prefix (NamespaceNameToLabel "") (src_ns_selector src) in
  if bool_decide (ns = "") || bool_decide (ns = src_ns_selector src) || contains_any ns ",=!() "
  then None else Some ns.

(** The first result of [singleNamespaceOf] where the second is ignored. *)
Definition namespace_of (src : Source) : string := default "" (singleNamespaceOf src).

Fixpoint dedup (seen : gset string) (l : list string) : list string :=
  match l with
  | [] => []
  | x :: l => if bool_decide (x ∈ seen) then dedup seen l else x :: dedup ({[x]} ∪ seen) l
  end.

(** ** Signatures: [json.Marshal] of the settings *)

Section signature.
Context `{GoRuntime}.

Definition members_less (m1 m2 : string * string) : bool := String.ltb m1.1 m2.1.

(** A value of the options; maps are written in the order of their keys. *)
Fixpoint json_marshal (v : value) : string :=
  match v with
  | VNull => "null"
  | VBool b => if b then "true" else "false"
  | VNum text => json_float text
  | VInt z => itoa z
  | VStr s => json_quote s
  | VList l => "[" +:+ join "," (json_marshal <$> l) +:+ "]"
  | VMap l => json_obj (sort_slice members_less ((λ '(k, item), (k, json_marshal item)) <$> l))
  | VStrMap l => json_obj (sort_slice members_less ((λ '(k, s), (k, json_quote s)) <$> l))
  end.

(** The options of a source without any are a nil map. *)
Definition marshal_options (options : list (string * value)) : string :=
  match options with [] => "null" | _ => json_marshal (VMap options) end.

Definition json_bool (b : bool) : string := if b then "true" else "false".

Definition sourceSignature (src : Source) : string :=
  json_obj [("Type", json_quote (src_type src));
            ("ExtraLabelSelector", json_quote (src_label_selector src));
            ("ExtraFieldSelector", json_quote (src_field_selector src));
            ("UseApiServerCache", json_bool (src_use_cache src));
            ("Options", marshal_options (src_options src))].

Definition sortedNamespacesOf (sources : list Source) : list string :=
  sort_strings (dedup ∅ (namespace_of <$> sources)).
End signature.

(** ** Buckets *)

(** The doubling loop; eight rounds reach [maxRouteBuckets]. *)
Fixpoint bucket_loop (fuel : nat) (n buckets : Z) : Z :=
  match fuel with
  | O => buckets
  | S fuel => if (buckets * buckets <? n) && (buckets <? maxRouteBuckets)
              then bucket_loop fuel n (buckets * 2) else buckets
  end.

(** Conditions evaluated per event. *)
Definition route_cost (n buckets : Z) : Z := buckets + (n + buckets - 1) / buckets.

Definition bucketCount (n : Z) : Z :=
  let buckets := bucket_loop 8 n 1 in
  let half := buckets / 2 in
  if (0 <? half) && (half + (n + half - 1) / half <=? buckets + (n + buckets - 1) / buckets)
  then half else buckets.

Definition nsBucket (ns : string) (buckets : Z) : Z :=
  nth 0 (md5 (bytes_of ns)) 0 mod buckets.

(** ** Rewiring *)

Fixpoint rewrite_inputs (seen : gset string) (routeOutput : gmap string string) (inputs : list string)
    : list string :=
  match inputs with
  | [] => []
  | input :: inputs =>
      let input := default input (routeOutput !! input) in
      if bool_decide (input ∈ seen) then rewrite_inputs seen routeOutput inputs
      else input :: rewrite_inputs ({[input]} ∪ seen) routeOutput inputs
  end.

Definition rewriteInputs (inputs : list string) (routeOutput : gmap string string) : list string :=
  rewrite_inputs ∅ routeOutput inputs.

Section collapse.
Context `{GoRuntime}.

Definition namespace_condition (ns : string) : string := ".kubernetes.pod_namespace == " +:+ quote ns.

Definition namespaceRoutes (namespaces : list string) : gmap string string :=
  fold_left (λ routes ns, <[ns := namespace_condition ns]> routes) namespaces ∅.

(** A [map[string]string] option. *)
Definition str_map (m : gmap string string) : value := VStrMap (map_to_list m).

Definition route_transform (name : string) (inputs : list string) (routes : gmap string string) : Component :=
  {| c_name := name; c_type := RouteTransformType; c_inputs := inputs;
     c_options := [("route", str_map routes)] |}.

Definition bucket_program (buckets : Z) : string :=
  "%bucket = mod(parse_int!(slice!(md5(string!(.kubernetes.pod_namespace)), 0, 2), base: 16), " +:+
  itoa buckets +:+ ")".

Definition bucket_condition (b : Z) : string := "%bucket == " +:+ itoa b.

(** [bucketNamespaces] *)
Definition bucket_namespaces (buckets : Z) (namespaces : list string) : gmap Z (list string) :=
  fold_left (λ m ns, let b := nsBucket ns buckets in <[b := default [] (m !! b) ++ [ns]]> m)
    namespaces ∅.

(** The transforms built so far and the output of each namespace. *)
Record routing := {
  rt_transforms : gmap string Component;
  rt_l1_routes : gmap string string;
  rt_output : gmap string string
}.

(** One iteration of the loop over the buckets. *)
Definition bucket_step (gid l1 : string) (r : routing) (bm : Z * list string) : routing :=
  let '(b, members) := bm in
  let key := itoa b in
  let l2 := optimizedRouterPrefix +:+ "-" +:+ gid +:+ "-" +:+ key in
  {| rt_transforms := <[l2 := route_transform l2 [l1 +:+ "." +:+ key] (namespaceRoutes members)]> (rt_transforms r);
     rt_l1_routes := <[key := bucket_condition b]> (rt_l1_routes r);
     rt_output := fold_left (λ o ns, <[ns := l2 +:+ "." +:+ ns]> o) members (rt_output r) |}.

Definition flat_routing (transforms : gmap string Component) (gid collapsed : string) (namespaces : list string)
    : routing :=
  let router := optimizedRouterPrefix +:+ "-" +:+ gid in
  {| rt_transforms := <[router := route_transform router [collapsed] (namespaceRoutes namespaces)]> transforms;
     rt_l1_routes := ∅;
     rt_output := fold_left (λ o ns, <[ns := router +:+ "." +:+ ns]> o) namespaces ∅ |}.

Definition bucket_routing (transforms : gmap string Component) (gid collapsed : string) (namespaces : list string)
    : routing :=
  let buckets := bucketCount (Z.of_nat (length namespaces)) in
  let bucketer := optimizedBucketerPrefix +:+ "-" +:+ gid in
  let transforms := <[bucketer := {| c_name := bucketer; c_type := RemapTransformType;
    c_inputs := [collapsed]; c_options := [("source", VStr (bucket_program buckets))] |}]> transforms in
  let l1 := optimizedRouterPrefix +:+ "-" +:+ gid +:+ "-l1" in
  let r := fold_left (bucket_step gid l1) (range_map 22 (bucket_namespaces buckets namespaces))
             {| rt_transforms := transforms; rt_l1_routes := ∅; rt_output := ∅ |} in
  {| rt_transforms := <[l1 := route_transform l1 [bucketer] (rt_l1_routes r)]> (rt_transforms r);
     rt_l1_routes := rt_l1_routes r; rt_output := rt_output r |}.

(** [routeOutput[src.Name] = nsOutput[ns]]: the zero value for an absent namespace. *)
Definition route_output (nsOutput : gmap string string) (sources : list Source) : gmap string string :=
  fold_left (λ o src, <[src_name src := map_get nsOutput (namespace_of src)]> o) sources ∅.

(** [collapseSourceGroup] on a non-empty group. *)
Definition collapseSourceGroup (cfg : PipelineConfig) (gid : string) (namespaces : list string)
    (sources : list Source) : PipelineConfig :=
  match sources with
  | [] => cfg
  | src0 :: _ =>
      let name := optimizedSourcePrefix +:+ "-" +:+ gid in
      let collapsed := {| src_name := name; src_type := src_type src0;
        src_ns_selector := "kubernetes.io/metadata.name in (" +:+ join "," namespaces +:+ ")";
        src_label_selector := src_label_selector src0; src_field_selector := src_field_selector src0;
        src_use_cache := src_use_cache src0; src_options := src_options src0 |} in
      let r := if Z.of_nat (length namespaces) <=? flatRoutingThreshold
               then flat_routing (Transforms cfg) gid name namespaces
               else bucket_routing (Transforms cfg) gid name namespaces in
      let routeOutput := route_output (rt_output r) sources in
      let rewire := with_inputs (λ inputs, rewriteInputs inputs routeOutput) in
      {| Sources := <[name := collapsed]>
           (fold_left (λ m src, delete (src_name src) m) sources (Sources cfg));
         Transforms := rewire <$> rt_transforms r;
         Sinks := rewire <$> Sinks cfg |}
  end.
End collapse.

(** ** Groups *)

Section optimize.
Context `{GoRuntime}.

(** [groups[sig] = append(groups[sig], src)] for the sources that can be collapsed. *)
Definition group_step (optOut : gset string) (groups : gmap string (list Source)) (src : Source)
    : gmap string (list Source) :=
  if bool_decide (src_type src ≠ KubernetesLogsType) then groups
  else if bool_decide (src_name src ∈ optOut) then groups
  else match singleNamespaceOf src with
       | None => groups
       | Some _ => let sig := sourceSignature src in
                   <[sig := default [] (groups !! sig) ++ [src]]> groups
       end.

Definition source_groups (cfg : PipelineConfig) (optOut : gset string) : gmap string (list Source) :=
  fold_left (group_step optOut) (range_map 23 (Sources cfg)).*2 ∅.

Definition taken (sources : gmap string Source) (gid : string) : bool :=
  bool_decide (is_Some (sources !! (optimizedSourcePrefix +:+ "-" +:+ gid))) ||
  bool_decide (is_Some (sources !! (optimizedSourcePrefix +:+ "-" +:+ gid +:+ "-0"))).

(** The loop that looks for a free group ID; a source can block two rounds at most
    once, so one round more than there are sources is enough. *)
Fixpoint free_gid (fuel : nat) (sources : gmap string Source) (gid : string) : option string :=
  match fuel with
  | O => None
  | S fuel => if taken sources gid then free_gid fuel sources (gid +:+ "x") else Some gid
  end.

(** [namespaces[lo:hi]] *)
Definition sublist (lo hi : Z) (l : list string) : list string :=
  take (Z.to_nat (hi - lo)) (drop (Z.to_nat lo) l).

(** [nsChunk[ns]]: 0 for an absent namespace. *)
Definition ns_chunk (namespaces : list string) (ns : string) : Z :=
  match list_find (λ n, n = ns) namespaces with
  | Some (i, _) => Z.of_nat i / maxNamespacesPerSource
  | None => 0
  end.

Definition collapse_chunk (gid : string) (namespaces : list string) (sources : list Source)
    (cfg : PipelineConfig) (c : nat) : PipelineConfig :=
  let lo := Z.of_nat c * maxNamespacesPerSource in
  let hi := Z.min (lo + maxNamespacesPerSource) (Z.of_nat (length namespaces)) in
  let chunkNamespaces := sublist lo hi namespaces in
  let chunkSources := List.filter (λ src, ns_chunk namespaces (namespace_of src) =? Z.of_nat c) sources in
  collapseSourceGroup cfg (gid +:+ "-" +:+ itoa (Z.of_nat c)) chunkNamespaces chunkSources.

Definition chunk_count (namespaces : list string) : Z :=
  (Z.of_nat (length namespaces) + maxNamespacesPerSource - 1) / maxNamespacesPerSource.

Definition name_less (s1 s2 : Source) : bool := String.ltb (src_name s1) (src_name s2).

(** One iteration of the loop over the signatures. *)
Definition optimize_group (groups : gmap string (list Source)) (cfg : VectorConfig) (sig : string)
    : option VectorConfig :=
  let sources := default [] (groups !! sig) in
  if bool_decide (length sources < 2)%nat then Some cfg else
  let sources := sort_slice name_less sources in
  let namespaces := sortedNamespacesOf sources in
  gid ← free_gid (S (size (Sources (cfg_pipeline cfg)))) (Sources (cfg_pipeline cfg))
          (hex_digits 8 (hash_Get sig));
  let chunks := chunk_count namespaces in
  let pc := if chunks =? 1 then collapseSourceGroup (cfg_pipeline cfg) gid namespaces sources
            else fold_left (collapse_chunk gid namespaces sources) (seq 0 (Z.to_nat chunks)) (cfg_pipeline cfg) in
  Some (with_internal (λ i,
    {| servicePort := servicePort i;
       optimizedSources := optimizedSources i + Z.of_nat (length sources);
       sourceGroups := sourceGroups i + chunks;
       secretAssets := secretAssets i |})
    (with_pipeline (λ _, pc) cfg)).

(** [None] would mean that the search for a group ID did not end. *)
Definition optimizeAgentSources (cfg : VectorConfig) (optOut : gset string) : option VectorConfig :=
  let groups := source_groups (cfg_pipeline cfg) optOut in
  fold_left (λ cfg sig, cfg ← cfg; optimize_group groups cfg sig)
    (sort_strings (range_map 24 groups).*1) (Some cfg).
End optimize.

(** ** Lemmas: groups *)

Section group_lemmas.
Context `{GoRuntime}.

(** The sources that take part. *)
Definition collapsible (optOut : gset string) (src : Source) : Prop :=
  src_type src = KubernetesLogsType ∧ src_name src ∉ optOut ∧ singleNamespaceOf src ≠ None.

#[export] Instance collapsible_dec optOut src : Decision (collapsible optOut src).
Proof. unfold collapsible. apply _. Defined.

Lemma group_step_spec optOut groups src :
  group_step optOut groups src =
    if decide (collapsible optOut src) then group_add sourceSignature groups src else groups.
Proof.
  unfold group_step, collapsible. case_decide as Hc.
  - destruct Hc as (Ht & Ho & Hn). rewrite (bool_decide_eq_false_2 (_ ≠ _)) by (intros Hx; by apply Hx).
    rewrite bool_decide_eq_false_2 by done.
    by destruct (singleNamespaceOf src).
  - case_bool_decide; [done|]. case_bool_decide; [done|].
    destruct (singleNamespaceOf src) eqn:Hs; [|done]. by destruct Hc.
Qed.

Lemma source_groups_spec cfg optOut :
  source_groups cfg optOut =
    fold_left (group_add sourceSignature) (filter (collapsible optOut) (range_map 23 (Sources cfg)).*2) ∅.
Proof.
  unfold source_groups. generalize (range_map 23 (Sources cfg)).*2. intros l.
  generalize (∅ : gmap string (list Source)). induction l as [|s l IH]; intros m; [done|].
  cbn [fold_left]. rewrite IH, group_step_spec, filter_cons. by case_decide.
Qed.

(** A group holds the collapsible sources of the configuration with its signature. *)
Lemma source_groups_elem cfg optOut sig l s :
  source_groups cfg optOut !! sig = Some l →
  s ∈ l ↔ (∃ k, Sources cfg !! k = Some s) ∧ collapsible optOut s ∧ sourceSignature s = sig.
Proof.
  rewrite source_groups_spec. intros [-> _]%group_add_Some.
  rewrite !list_elem_of_filter, list_elem_of_fmap. split.
  - intros (? & ? & [k s'] & -> & Hk%range_map_lookup). eauto.
  - intros ([k Hk%(range_map_lookup 23)] & ? & ?). split; [done|]. split; [done|]. by exists (k, s).
Qed.

Definition grouped (cfg : PipelineConfig) (optOut : gset string) (sig : string) (s : Source) : Prop :=
  (∃ k, Sources cfg !! k = Some s) ∧ collapsible optOut s ∧ sourceSignature s = sig.

Lemma elem_of_dedup seen l x : x ∈ dedup seen l ↔ x ∈ l ∧ x ∉ seen.
Proof.
  revert seen. induction l as [|y l IH]; intros seen; simpl; [set_solver|].
  case_bool_decide; rewrite ?elem_of_cons, IH; [set_solver|]. destruct (decide (x = y)); set_solver.
Qed.

Lemma NoDup_dedup seen l : NoDup (dedup seen l).
Proof.
  revert seen. induction l as [|y l IH]; intros seen; simpl; [constructor|].
  case_bool_decide; [done|]. constructor; [|done]. rewrite elem_of_dedup. set_solver.
Qed.

Lemma sortedNamespacesOf_elem sources ns :
  ns ∈ sortedNamespacesOf sources ↔ ∃ s, s ∈ sources ∧ namespace_of s = ns.
Proof.
  unfold sortedNamespacesOf, sort_strings. rewrite sort_slice_elem_of, elem_of_dedup, list_elem_of_fmap.
  set_solver.
Qed.

Lemma sortedNamespacesOf_NoDup sources : NoDup (sortedNamespacesOf sources).
Proof. unfold sortedNamespacesOf, sort_strings. rewrite sort_slice_perm. apply NoDup_dedup. Qed.

(** An invariant of collapsing parts of one group is an invariant of the
    optimisation. *)
Lemma optimize_group_inv (I : PipelineConfig → Prop) cfg0 optOut cfg sig cfg' :
  (∀ pc gid nss sources, I pc →
     (∀ s, s ∈ sources → grouped cfg0 optOut sig s) →
     (∀ ns, ns ∈ nss → ∃ s, grouped cfg0 optOut sig s ∧ namespace_of s = ns) →
     I (collapseSourceGroup pc gid nss sources)) →
  I (cfg_pipeline cfg) → optimize_group (source_groups cfg0 optOut) cfg sig = Some cfg' →
  I (cfg_pipeline cfg').
Proof.
  intros Hstep HI. unfold optimize_group.
  set (sources := sort_slice name_less (default [] (source_groups cfg0 optOut !! sig))).
  assert (Hsrc : ∀ s, s ∈ sources → grouped cfg0 optOut sig s).
  { intros s. unfold sources. rewrite sort_slice_elem_of.
    destruct (source_groups cfg0 optOut !! sig) as [l|] eqn:Hl; simpl; [|set_solver].
    by intros Hs%(source_groups_elem _ _ _ _ _ Hl). }
  assert (Hns : ∀ ns, ns ∈ sortedNamespacesOf sources → ∃ s, grouped cfg0 optOut sig s ∧ namespace_of s = ns).
  { intros ns (s & Hs & <-)%sortedNamespacesOf_elem. eauto. }
  case_bool_decide; [by intros [= <-]|]. intros (gid & _ & [= <-])%bind_Some. simpl.
  case_match; [by apply Hstep|].
  revert HI. generalize (cfg_pipeline cfg). generalize (seq 0 (Z.to_nat (chunk_count (sortedNamespacesOf sources)))).
  intros cs. induction cs as [|c cs IH]; intros pc Hpc; [done|]. cbn [fold_left]. apply IH, Hstep; [done| |].
  - intros s [Hs _]%list_elem_of_In%List.filter_In. by apply Hsrc, list_elem_of_In.
  - intros ns Hin%subseteq_take%subseteq_drop. by apply Hns.
Qed.

Lemma optimize_inv (I : PipelineConfig → Prop) cfg optOut cfg' :
  (∀ pc gid nss sources sig, I pc →
     (∀ s, s ∈ sources → grouped (cfg_pipeline cfg) optOut sig s) →
     (∀ ns, ns ∈ nss → ∃ s, grouped (cfg_pipeline cfg) optOut sig s ∧ namespace_of s = ns) →
     I (collapseSourceGroup pc gid nss sources)) →
  I (cfg_pipeline cfg) → optimizeAgentSources cfg optOut = Some cfg' → I (cfg_pipeline cfg').
Proof.
  intros Hstep HI. unfold optimizeAgentSources. generalize (sort_strings (range_map 24 (source_groups (cfg_pipeline cfg) optOut)).*1).
  intros sigs. cut (∀ c, Some cfg = Some c → I (cfg_pipeline c)); [|by intros c [= <-]]. clear HI.
  generalize (Some cfg). induction sigs as [|sig sigs IH]; intros o Ho; [by apply Ho|].
  cbn [fold_left]. apply IH. intros c (c0 & -> & Hg)%bind_Some.
  eapply optimize_group_inv; [|by apply Ho|exact Hg]. eauto.
Qed.
End group_lemmas.
