(* ===== verification/Samples.v ===== *)
(** * Sample instances

    Concrete inputs for the theorems that take hypotheses: an implementation of
    [Libraries] that follows the documented behaviour of the packages closely
    enough to run the definitions, and a few pipelines and Secrets. *)

From S2P Require Export Config.

(** JSON is written here with single quotes. *)
Definition js (s : string) : string := replace_byte (ch 39) (ch 34) s.

(** ** Decoding components, as [mapstructure] does on a well-formed document *)

Definition str_field (k : string) (l : list (string * value)) : string :=
  match assoc_get k l with Some (VStr s) => s | _ => "" end.

Definition strs_field (k : string) (l : list (string * value)) : list string :=
  match assoc_get k l with
  | Some (VList vs) => omap (λ v, match v with VStr s => Some s | _ => None end) vs
  | _ => []
  end.

(** The [mapstructure] remain field. *)
Definition remain (ks : list string) (l : list (string * value)) : list (string * value) :=
  filter (λ kv, kv.1 ∉ ks) l.

Definition sample_source (v : value) : result Source :=
  match v with
  | VMap l => Ok {| src_name := ""; src_type := str_field "type" l;
      src_ns_selector := str_field "extra_namespace_label_selector" l;
      src_label_selector := str_field "extra_label_selector" l;
      src_field_selector := str_field "extra_field_selector" l;
      src_use_cache := match assoc_get "use_apiserver_cache" l with Some (VBool b) => b | _ => false end;
      src_options := remain ["type"; "extra_namespace_label_selector"; "extra_label_selector";
                             "extra_field_selector"; "use_apiserver_cache"] l |}
  | _ => Err (ErrText "expected a map")
  end.

Definition sample_component (v : value) : result Component :=
  match v with
  | VMap l => Ok {| c_name := ""; c_type := str_field "type" l; c_inputs := strs_field "inputs" l;
                    c_options := remain ["type"; "inputs"] l |}
  | _ => Err (ErrText "expected a map")
  end.

Definition decode_map {A} (f : value → result A) (m : gmap string value) : result (gmap string A) :=
  l ← mapM (λ '(k, v), a ← f v; Ok (k, a)) (map_to_list m);
  Ok (list_to_map l).

(** ** Protobuf sizes *)

(** Bytes of a varint. *)
Definition sov (n : Z) : Z := (Z.log2 (Z.lor n 1) + 7) / 7.

Definition sample_entry_size (k v : string) : Z :=
  let entry := 1 + go_len k + sov (go_len k) + 1 + go_len v + sov (go_len v) in
  1 + entry + sov entry.

Lemma sov_nonneg n : 0 <= sov n.
Proof. pose proof (Z.log2_nonneg (Z.lor n 1)). unfold sov. apply Z.div_pos; lia. Qed.

Lemma sample_entry_size_nonneg k v : 0 <= sample_entry_size k v.
Proof.
  unfold sample_entry_size, go_len. cbv zeta.
  pose proof (sov_nonneg (Z.of_nat (String.length k))). pose proof (sov_nonneg (Z.of_nat (String.length v))).
  set (n := 1 + Z.of_nat (String.length k) + _ + 1 + Z.of_nat (String.length v) + _).
  pose proof (sov_nonneg n). lia.
Qed.

Definition sample_meta_size (s : Secret) : Z :=
  16 + go_len (sec_name s) + go_len (sec_namespace s) + go_len (sec_uid s) +
  msum sample_entry_size (sec_labels s) + msum sample_entry_size (sec_annotations s).

#[export] Instance sample_libraries : Libraries := {|
  raw_marshal e := Ok (if bool_decide (re_raw e = "") then "null" else re_raw e);
  decode_sources := decode_map sample_source;
  decode_components := decode_map sample_component;
  labels_parse s := if string_in (ch 33) s then Some (ErrText "unable to parse requirement") else None;
  kebab_case := string_map (λ c, if is_ch c 95 then ch 45 else ascii_lower c);
  secret_size s := sample_meta_size s + msum sample_entry_size (sec_data s)
|}.

(** ** Sample resources *)

Definition sample_spec (secret : gmap string PipelineSecretBackend) (token : string) : VectorPipelineSpec :=
  {| spec_sources := Some {| re_raw := js "{'in':{'type':'kubernetes_logs'}}" |};
     spec_transforms := None;
     spec_sinks := Some {| re_raw := js "{'out':{'type':'http','inputs':['in'],'auth':{'token':'" +:+ token +:+ js "'}}}" |};
     spec_secret := secret |}.

Definition sample_status : VectorPipelineStatus :=
  {| st_role := Some VectorPipelineRoleAgent; st_config_check_result := Some true; st_reason := None;
     st_last_applied_pipeline_hash := None; st_related_secrets_hash := None |}.

Definition sample_vp (ns name : string) (created : Z) (spec : VectorPipelineSpec) : Pipeline :=
  {| p_kind := KVectorPipeline; GetNamespace := ns; GetName := name; GetCreationTimestamp := created;
     p_deletion_timestamp := None; GetLabels := ∅; GetAnnotations := ∅; GetSpec := spec;
     p_status := sample_status |}.

Definition sample_backend (n : string) : PipelineSecretBackend :=
  {| backend_type := "kubernetes_secret"; backend_name := n; backend_namespace := "" |}.

(** Two pipelines of one namespace that need the same flat key: [a] with the alias
    [b_c] and [a-b] with the alias [c]. *)
Definition sample_a : Pipeline :=
  sample_vp "team" "a" 1 (sample_spec {["b_c" := sample_backend "s1"]} "SECRET[b_c.k]").
Definition sample_ab : Pipeline :=
  sample_vp "team" "a-b" 2 (sample_spec {["c" := sample_backend "s2"]} "SECRET[c.k]").

Definition sample_secret (name value : string) : Secret :=
  {| sec_namespace := "team"; sec_name := name; sec_uid := "u"; sec_resource_version := "7";
     sec_labels := ∅; sec_annotations := ∅; sec_owners := []; sec_data := {["k" := value]} |}.

Definition sample_get (ns name : string) : result Secret :=
  if bool_decide (ns = "team") && bool_decide (name = "s1" ∨ name = "s2")
  then Ok (sample_secret name ("value of " +:+ name))
  else Err (ErrText "not found").

Definition sample_getter : SecretGetter := Some sample_get.
