(* ===== verification/SecretRefs.v ===== *)
(** * Secret references

    [src/internal/config/secrets.go], first half: the [SECRET[alias.key]]
    placeholders of a pipeline's options, how a build finds and rewrites them to
    [SECRET[k8s.<flat key>]], and which Secret value each one resolves to. *)

From S2P Require Export Samples.
From Stdlib Require Import Ascii.

Definition SecretsMountPath : string := "/etc/vector/secrets".
Definition SecretsBackendName : string := "k8s".

Record secretRef := { ref_alias : string; ref_key : string }.

#[export] Instance secretRef_eq_dec : EqDecision secretRef.
Proof. solve_decision. Defined.

(** ** The two regular expressions

    [secretRefRegex] is [SECRET\[([A-Za-z0-9_]+)\.([A-Za-z0-9_./\-]+)\]]. Neither
    group's class contains the character that must follow the group, so the
    leftmost-first match at a position is unique: the literal, the longest run of
    alias characters, a dot, the longest run of key characters, a bracket. *)

Definition is_alnum (c : ascii) : bool :=
  let b := byte_val c in between 65 90 b || between 97 122 b || between 48 57 b.
Definition alias_char (c : ascii) : bool := is_alnum c || is_ch c 95.
Definition ref_key_char (c : ascii) : bool :=
  alias_char c || is_ch c 46 || is_ch c 47 || is_ch c 45.
(** [keyCharsetRegex], [^[A-Za-z0-9_.-]+$] *)
Definition key_char (c : ascii) : bool := alias_char c || is_ch c 46 || is_ch c 45.
Definition key_charset (key : string) : bool := bool_decide (key ≠ "") && string_forall key_char key.

Definition ref_open : string := "SECRET[".

Definition nonempty (s : string) : option string := if bool_decide (s = "") then None else Some s.

(** The submatches and the length of a match at the start of [s]. *)
Definition match_ref (s : string) : option (string * string * nat) :=
  s1 ← expect ref_open s;
  let '(alias, s2) := span alias_char s1 in
  alias ← nonempty alias;
  s3 ← expect "." s2;
  let '(key, s4) := span ref_key_char s3 in
  key ← nonempty key;
  _ ← expect "]" s4;
  Some (alias, key, (String.length ref_open + String.length alias + 1 + String.length key + 1)%nat).

(** A string cut into the matches of [secretRefRegex] and the characters between
    them, as [ReplaceAllStringFunc] and [FindAllStringSubmatch] see it: [skip]
    characters still belong to the last match. *)
Inductive piece :=
| PText (c : ascii)
| PRef (alias key : string).

Fixpoint scan_pieces (skip : nat) (s : string) : list piece :=
  match s with
  | EmptyString => []
  | String c s' =>
      match skip with
      | S skip => scan_pieces skip s'
      | O => match match_ref s with
             | Some (alias, key, n) => PRef alias key :: scan_pieces (pred n) s'
             | None => PText c :: scan_pieces 0 s'
             end
      end
  end.

Definition pieces (s : string) : list piece := scan_pieces 0 s.

(** The text of a match: [m] of [ReplaceAllStringFunc]. *)
Definition render_ref (alias key : string) : string :=
  ref_open +:+ alias +:+ "." +:+ key +:+ "]".

Definition render_piece (p : piece) : string :=
  match p with PText c => String c "" | PRef a k => render_ref a k end.

Fixpoint render (ps : list piece) : string :=
  match ps with [] => "" | p :: ps => render_piece p +:+ render ps end.

Definition refs_of_pieces (ps : list piece) : list secretRef :=
  omap (λ p, match p with PRef a k => Some {| ref_alias := a; ref_key := k |} | PText _ => None end) ps.

(** ** Flat keys *)

Definition flatKey (ns name alias key : string) : string :=
  let base := generateName ns name in
  let joined := base +:+ "-" +:+ alias +:+ "-" +:+ key in
  replace_byte (ch 45) (ch 95) joined.

Definition qualified_name (ns name : string) : string :=
  if bool_decide (ns = "") then name else ns +:+ "/" +:+ name.

Definition pipelineID (p : Pipeline) : string := qualified_name (GetNamespace p) (GetName p).

(** ** [scanAndRewriteSecretRefs] *)

Section scan.
Context `{GoRuntime}.
Context (ns name : string) (declared : gmap string PipelineSecretBackend).

(** What the callback of [ReplaceAllStringFunc] makes of one match. *)
Definition rewrite_ref (alias key : string) : result string :=
  let m := render_ref alias key in
  match declared !! alias with
  | None => Err (ErrText ("secret reference " +:+ quote m +:+ ": backend " +:+ quote alias +:+
                          " is not declared in spec.secret"))
  | Some _ =>
      if negb (key_charset key) then
        Err (ErrText ("secret reference " +:+ quote m +:+ ": key " +:+ quote key +:+
                      " must match ^[A-Za-z0-9_.-]+$"))
      else
        let flat := flatKey ns name alias key in
        if DNS1123SubdomainMaxLength <? go_len flat then
          Err (ErrKeyTooLong {| tl_pipeline := qualified_name ns name; tl_alias := alias;
                                tl_key := key; tl_flat_key := flat |})
        else Ok (render_ref SecretsBackendName flat)
  end.

(** The string case: the replaced text, the references found, and the error the
    last offending match left in [walkErr]. *)
Fixpoint rewrite_pieces (ps : list piece) : string * list secretRef * option err :=
  match ps with
  | [] => ("", [], None)
  | PText c :: ps =>
      let '(out, refs, e) := rewrite_pieces ps in (String c out, refs, e)
  | PRef alias key :: ps =>
      let '(out, refs, e) := rewrite_pieces ps in
      match rewrite_ref alias key with
      | Ok m' => (m' +:+ out, {| ref_alias := alias; ref_key := key |} :: refs, e)
      | Err e1 => (render_ref alias key +:+ out, refs, Some (default e1 e))
      end
  end.

Definition walk_string (val : string) : result (list secretRef * string) :=
  let '(out, refs, walkErr) := rewrite_pieces (pieces val) in
  match walkErr with Some e => Err e | None => Ok (refs, out) end.

(** The loop over the entries of a map or a list: the references in the order
    visited, up to the first error. *)
Definition collect {A} (rs : list (result (list secretRef * A))) : result (list secretRef) :=
  foldM (λ refs r, '(more, _) ← r; Ok (refs ++ more)) [] rs.

(** [val[i] = nv], [val[k] = nv] *)
Definition rewritten_elem (r : result (list secretRef * value)) : result value :=
  '(_, nv) ← r; Ok nv.
Definition rewritten_item (kr : string * result (list secretRef * value)) : result (string * value) :=
  nv ← rewritten_elem kr.2; Ok (kr.1, nv).

(** [walk]: the references found below a value and the value with its strings
    rewritten in place. *)
Fixpoint walk (v : value) : result (list secretRef * value) :=
  match v with
  | VStr s => '(refs, out) ← walk_string s; Ok (refs, VStr out)
  | VMap l =>
      let rs := (λ '(k, item), (k, walk item)) <$> l in
      refs ← collect (range_assoc 10 rs).*2;
      items ← mapM rewritten_item rs;
      Ok (refs, VMap items)
  | VList l =>
      let rs := walk <$> l in
      refs ← collect rs;
      items ← mapM rewritten_elem rs;
      Ok (refs, VList items)
  | _ => Ok ([], v)
  end.

Definition scanAndRewriteSecretRefs (options : list (string * value))
    : result (list secretRef * list (string * value)) :=
  '(refs, v) ← walk (VMap options);
  match v with VMap options => Ok (refs, options) | _ => Ok (refs, options) end.
End scan.

(** ** [UsedSecretBackends] *)

(** Every string below a value, in any order: the program only collects a set. *)
Fixpoint value_strings (v : value) : list string :=
  match v with
  | VStr s => [s]
  | VMap l => l ≫= (λ '(_, item), value_strings item)
  | VList l => l ≫= value_strings
  | _ => []
  end.

(** The component option maps in the order the three loops append them. *)
Definition comps_of `{GoRuntime} (i : positive) (cfg : PipelineConfig) : list (list (string * value)) :=
  (src_options <$> (range_map (i~0) (Sources cfg)).*2) ++
  (c_options <$> (range_map (i~1) (Transforms cfg)).*2) ++
  (c_options <$> (range_map (i~0~1) (Sinks cfg)).*2).

Definition UsedSecretBackends `{GoRuntime, Libraries} (p : Pipeline) : result (gset string) :=
  let declared := spec_secret (GetSpec p) in
  if bool_decide (declared = ∅) then Ok ∅ else
  match UnmarshalJson (GetSpec p) with
  | Err e => Err (ErrWrap ("pipeline " +:+ pipelineID p +:+ ": ") e)
  | Ok cfg =>
      let strings := comps_of 7 cfg ≫= (λ opts, value_strings (VMap opts)) in
      Ok (list_to_set (filter (λ alias, is_Some (declared !! alias))
                         (ref_alias <$> (strings ≫= (λ s, refs_of_pieces (pieces s))))))
  end.

(** ** Values *)

(** [secretValueSafeForJSONText] *)
Definition json_unsafe_byte (b : Z) : bool := (b =? 34) || (b =? 92) || (b <? 32).

Definition secretValueSafeForJSONText (value : string) : bool :=
  if go_len value =? 0 then true
  else if negb (utf8_valid (bytes_of value)) then false
  else forallb (λ b, negb (json_unsafe_byte b)) (bytes_of value).

(** ** [processPipelineSecrets] *)

Record pendingSecretRef := {
  pr_flat : string;
  pr_resolveNS : string;
  pr_secretName : string;
  pr_key : string;
  pr_pipeline : string
}.

#[export] Instance pendingSecretRef_eq_dec : EqDecision pendingSecretRef.
Proof. solve_decision. Defined.

Section process.
Context `{GoRuntime}.

(** The shape check of one declared backend. *)
Definition check_backend_shape (p : Pipeline) (alias : string) (backend : PipelineSecretBackend)
    : result unit :=
  if is_vp p && bool_decide (backend_namespace backend ≠ "") then
    Err (ErrText ("pipeline " +:+ GetName p +:+ ": secret backend " +:+ quote alias +:+
                  ": namespace is not allowed in VectorPipeline"))
  else if negb (is_vp p) && bool_decide (backend_namespace backend = "") then
    Err (ErrText ("pipeline " +:+ GetName p +:+ ": secret backend " +:+ quote alias +:+
                  ": namespace is required"))
  else Ok tt.

Definition zero_backend : PipelineSecretBackend :=
  {| backend_type := ""; backend_name := ""; backend_namespace := "" |}.

(** The [pendingSecretRef] queued for a reference; [declared[ref.Alias]] is the
    zero backend for an absent alias. *)
Definition pending_of (p : Pipeline) (ref : secretRef) : pendingSecretRef :=
  let backend := default zero_backend (spec_secret (GetSpec p) !! ref_alias ref) in
  {| pr_flat := flatKey (GetNamespace p) (GetName p) (ref_alias ref) (ref_key ref);
     pr_resolveNS := if is_vp p then GetNamespace p else backend_namespace backend;
     pr_secretName := backend_name backend;
     pr_key := ref_key ref;
     pr_pipeline := pipelineID p |}.

(** One iteration of the loop over [comps]: the options, rewritten in place, and
    the extended queue. *)
Definition process_comp (p : Pipeline) (opts : list (string * value)) (pending : list pendingSecretRef)
    : result (list (string * value) * list pendingSecretRef) :=
  match opts with
  | [] => Ok (opts, pending)
  | _ =>
      match scanAndRewriteSecretRefs (GetNamespace p) (GetName p) (spec_secret (GetSpec p)) opts with
      | Err e => Err (ErrWrap ("pipeline " +:+ GetName p +:+ ": ") e)
      | Ok (refs, opts') => Ok (opts', pending ++ (pending_of p <$> refs))
      end
  end.

Fixpoint process_comps (p : Pipeline) (comps : list (list (string * value)))
    (pending : list pendingSecretRef)
    : result (list (list (string * value)) * list pendingSecretRef) :=
  match comps with
  | [] => Ok ([], pending)
  | opts :: comps =>
      '(opts', pending) ← process_comp p opts pending;
      '(comps', pending) ← process_comps p comps pending;
      Ok (opts' :: comps', pending)
  end.

Definition processPipelineSecrets (p : Pipeline) (getter : SecretGetter)
    (comps : list (list (string * value))) (pending : list pendingSecretRef)
    : result (list (list (string * value)) * list pendingSecretRef) :=
  let declared := spec_secret (GetSpec p) in
  _ ← mapM (λ '(alias, backend), check_backend_shape p alias backend) (range_map 8 declared);
  _ ← guard_err (bool_decide (declared ≠ ∅) && bool_decide (getter = None))
        (ErrText ("pipeline " +:+ GetName p +:+ ": secrets are not supported in this context"));
  process_comps p comps pending.
End process.

(** ** [resolvePendingSecrets] *)

Record resolve_state := {
  rs_data : gmap string string;
  rs_origins : gmap string pendingSecretRef
}.

(** The tuples two references on one flat key must agree on. *)
Definition pr_tuple (r : pendingSecretRef) : string * string * string :=
  (pr_resolveNS r, pr_secretName r, pr_key r).

Section resolve.
Context `{GoRuntime}.
Context (getter : string → string → result Secret).

Definition collision_error (ref origin : pendingSecretRef) : err :=
  ErrText ("secret flat key " +:+ quote (pr_flat ref) +:+ " collides between pipeline " +:+
           pr_pipeline origin +:+ " and pipeline " +:+ pr_pipeline ref +:+
           ": their namespace/name pair is only distinguishable by a hyphen; rename one of them").

Definition key_not_found (ref : pendingSecretRef) : err :=
  ErrText ("secret " +:+ pr_resolveNS ref +:+ "/" +:+ pr_secretName ref +:+ ": key " +:+
           quote (pr_key ref) +:+ " not found").

Definition value_unsafe (ref : pendingSecretRef) : err :=
  ErrValueUnsafe {| vu_namespace := pr_resolveNS ref; vu_name := pr_secretName ref;
                    vu_key := pr_key ref |}.

Definition get_failed (ref : pendingSecretRef) (e : err) : err :=
  ErrWrap ("failed to get secret " +:+ pr_resolveNS ref +:+ "/" +:+ pr_secretName ref +:+ ": ") e.

(** The value a reference resolves to. The per-call cache of the source only
    saves reads: the getter of a reconcile is itself memoized, so asking again
    gives the same Secret. *)
Definition resolve_ref (ref : pendingSecretRef) : result string :=
  match getter (pr_resolveNS ref) (pr_secretName ref) with
  | Err e => Err (ErrResolve (get_failed ref e))
  | Ok secret =>
      match sec_data secret !! pr_key ref with
      | None => Err (key_not_found ref)
      | Some val => if negb (secretValueSafeForJSONText val) then Err (value_unsafe ref) else Ok val
      end
  end.

Definition resolve_step (s : resolve_state) (ref : pendingSecretRef) : result resolve_state :=
  origins ←
    match rs_origins s !! pr_flat ref with
    | Some origin =>
        if bool_decide (pr_tuple origin ≠ pr_tuple ref) then Err (collision_error ref origin)
        else Ok (rs_origins s)
    | None => Ok (<[pr_flat ref := ref]> (rs_origins s))
    end;
  val ← resolve_ref ref;
  Ok {| rs_data := <[pr_flat ref := val]> (rs_data s); rs_origins := origins |}.

Definition resolve_all (pending : list pendingSecretRef) : result (gmap string string) :=
  s ← foldM resolve_step {| rs_data := ∅; rs_origins := ∅ |} pending;
  Ok (rs_data s).
End resolve.

Definition directory_backend : list (string * value) :=
  [(SecretsBackendName, VMap [("type", VStr "directory"); ("path", VStr SecretsMountPath)])].

(** With references to resolve there is a getter: a nil one makes
    [processPipelineSecrets] fail for every pipeline that declares a backend. *)
Definition nil_getter (_ _ : string) : result Secret :=
  Err (ErrText "invalid memory address or nil pointer dereference").

Definition resolvePendingSecrets `{GoRuntime} (cfg : VectorConfig) (getter : SecretGetter)
    (pending : list pendingSecretRef) : result VectorConfig :=
  match pending with
  | [] => Ok cfg
  | _ =>
      data ← resolve_all (default nil_getter getter) pending;
      Ok {| DataDir := DataDir cfg; ExpireMetricsSecs := ExpireMetricsSecs cfg; Api := Api cfg;
            cfg_pipeline := cfg_pipeline cfg;
            cfg_secret := Some directory_backend;
            internal := {| servicePort := servicePort (internal cfg);
                           optimizedSources := optimizedSources (internal cfg);
                           sourceGroups := sourceGroups (internal cfg);
                           secretAssets := data |} |}
  end.

(** ** Lemmas: scanning *)

Lemma span_spec f s a b :
  span f s = (a, b) →
  s = a +:+ b ∧ string_forall f a = true ∧
  match b with String c _ => f c = false | EmptyString => True end.
Proof.
  revert a b. induction s as [|c s IH]; intros a b; simpl.
  - by intros [= <- <-].
  - destruct (f c) eqn:Hc; [|by intros [= <- <-]].
    destruct (span f s) as [a' b'] eqn:Hs. intros [= <- <-].
    destruct (IH _ _ eq_refl) as (-> & Ha & Hb).
    split; [done|]. cbn [string_forall]. by rewrite Hc, Ha.
Qed.

Lemma span_app f a b :
  string_forall f a = true →
  match b with String c _ => f c = false | EmptyString => True end →
  span f (a +:+ b) = (a, b).
Proof.
  intros Ha Hb. induction a as [|c a IH]; simpl in *.
  - destruct b as [|c b]; simpl; [done | by rewrite Hb].
  - apply andb_true_iff in Ha as [-> Ha]. by rewrite IH.
Qed.

Lemma expect_spec p s t : expect p s = Some t ↔ s = p +:+ t.
Proof.
  unfold expect. split.
  - destruct (has_prefix p s) eqn:Hp; [|done]. intros [= <-].
    apply has_prefix_spec in Hp as [u ->]. by rewrite str_drop_app.
  - intros ->. by rewrite has_prefix_app, str_drop_app.
Qed.

Lemma nonempty_spec s t : nonempty s = Some t ↔ s = t ∧ t ≠ "".
Proof. unfold nonempty. case_bool_decide; naive_solver. Qed.

(** What the two groups of [secretRefRegex] can hold. *)
Definition valid_ref (alias key : string) : Prop :=
  (alias ≠ "" ∧ string_forall alias_char alias = true) ∧
  (key ≠ "" ∧ string_forall ref_key_char key = true).

Lemma render_ref_length alias key :
  String.length (render_ref alias key) =
  (String.length ref_open + String.length alias + 1 + String.length key + 1)%nat.
Proof. unfold render_ref. rewrite !str_length_app. simpl. lia. Qed.

(** [match_ref] is exactly the regular expression, anchored. *)
Lemma match_ref_spec s alias key n :
  match_ref s = Some (alias, key, n) ↔
  valid_ref alias key ∧ n = String.length (render_ref alias key) ∧
  ∃ rest, s = render_ref alias key +:+ rest.
Proof.
  rewrite render_ref_length. unfold match_ref, render_ref. split.
  - intros (s1 & ->%expect_spec & Hm)%bind_Some.
    destruct (span alias_char s1) as [a s2] eqn:Hs1.
    apply span_spec in Hs1 as (-> & Ha & _).
    apply bind_Some in Hm as (? & [<- Ha0]%nonempty_spec & Hm).
    apply bind_Some in Hm as (s3 & ->%expect_spec & Hm).
    destruct (span ref_key_char s3) as [k s4] eqn:Hs3.
    apply span_spec in Hs3 as (-> & Hk & _).
    apply bind_Some in Hm as (? & [<- Hk0]%nonempty_spec & Hm).
    apply bind_Some in Hm as (rest & ->%expect_spec & [= <- <- <-]).
    split; [done|]. split; [done|]. exists rest. by rewrite !str_app_assoc.
  - intros ([[Ha0 Ha] [Hk0 Hk]] & -> & rest & ->). rewrite !str_app_assoc.
    assert (Hex : ∀ p t, expect p (p +:+ t) = Some t) by (intros; by apply expect_spec).
    assert (Hn : ∀ x, x ≠ "" → nonempty x = Some x) by (intros; by apply nonempty_spec).
    rewrite Hex. cbn [mbind option_bind]. rewrite (span_app _ alias) by done.
    rewrite (Hn alias) by done. cbn [mbind option_bind]. rewrite Hex. cbn [mbind option_bind].
    rewrite (span_app _ key) by done. rewrite (Hn key) by done.
    cbn [mbind option_bind]. by rewrite Hex.
Qed.

Lemma match_ref_render alias key rest :
  valid_ref alias key →
  match_ref (render_ref alias key +:+ rest) =
    Some (alias, key, String.length (render_ref alias key)).
Proof. intros. apply match_ref_spec. eauto. Qed.

(** How a string is cut, as a relation. *)
Inductive Pieces : string → list piece → Prop :=
| Pieces_nil : Pieces "" []
| Pieces_text c s ps :
    match_ref (String c s) = None → Pieces s ps → Pieces (String c s) (PText c :: ps)
| Pieces_ref alias key s ps :
    valid_ref alias key → Pieces s ps → Pieces (render_ref alias key +:+ s) (PRef alias key :: ps).

Lemma scan_pieces_skip n s : scan_pieces n s = scan_pieces 0 (string_drop n s).
Proof.
  revert s. induction n as [|n IH]; intros s; [by destruct s|].
  destruct s as [|c s]; [done|]. simpl. apply IH.
Qed.

Lemma scan_pieces_ref alias key s :
  valid_ref alias key →
  pieces (render_ref alias key +:+ s) = PRef alias key :: pieces s.
Proof.
  intros Hv. unfold pieces. pose proof (match_ref_render alias key s Hv) as Hm.
  destruct (render_ref alias key) as [|c r] eqn:Hr; [done|]. simpl. simpl in Hm.
  rewrite Hm. simpl. by rewrite scan_pieces_skip, str_drop_app.
Qed.

Lemma scan_pieces_text c s :
  match_ref (String c s) = None → pieces (String c s) = PText c :: pieces s.
Proof. intros Hm. unfold pieces. cbn [scan_pieces]. by rewrite Hm. Qed.

Lemma Pieces_pieces s : Pieces s (pieces s).
Proof.
  remember (String.length s) as n eqn:Hn. revert s Hn.
  induction n as [n IH] using lt_wf_ind. intros s ->.
  destruct s as [|c s]; [constructor|].
  destruct (match_ref (String c s)) as [[[a k] n]|] eqn:Hm.
  - apply match_ref_spec in Hm as (Hv & _ & rest & Heq). rewrite Heq.
    rewrite scan_pieces_ref by done. constructor; [done|]. eapply IH; [|done].
    rewrite Heq, str_length_app, render_ref_length. simpl. lia.
  - rewrite scan_pieces_text by done. constructor; [done|]. eapply IH; [|done]. simpl; lia.
Qed.

Lemma Pieces_fun s ps : Pieces s ps → ps = pieces s.
Proof.
  induction 1 as [|c s ps Hm _ ->|a k s ps Hv _ ->]; [done| |].
  - by rewrite scan_pieces_text.
  - by rewrite scan_pieces_ref.
Qed.

Lemma Pieces_render s ps : Pieces s ps → render ps = s.
Proof. induction 1 as [|c s ps Hm _ IH|a k s ps Hv _ IH]; simpl; by rewrite ?IH. Qed.

Lemma Pieces_valid s ps a k : Pieces s ps → PRef a k ∈ ps → valid_ref a k.
Proof. induction 1; set_solver. Qed.

(** ** Lemmas: rewriting creates no new match *)

(** How often, and where first, an opening bracket occurs. *)
Fixpoint count_byte (b : Z) (s : string) : nat :=
  match s with EmptyString => 0%nat | String c s => ((if is_ch c b then 1 else 0) + count_byte b s)%nat end.

Lemma count_byte_app b s t : count_byte b (s +:+ t) = (count_byte b s + count_byte b t)%nat.
Proof. induction s as [|c s IH]; simpl; [done|]. rewrite IH. lia. Qed.

Lemma count_byte_none b f s :
  (∀ c, f c = true → is_ch c b = false) → string_forall f s = true → count_byte b s = 0%nat.
Proof.
  intros Hf. induction s as [|c s IH]; simpl; [done|].
  intros [Hc ?]%andb_true_iff. rewrite Hf by done. auto.
Qed.

Ltac char_class :=
  unfold ref_key_char, key_char, alias_char, is_alnum, is_ch, between in *;
  repeat match goal with
         | H : context [bool_decide _] |- _ => rewrite bool_decide_eq_true in H
         end;
  lia.

Lemma ref_key_not_open c : ref_key_char c = true → is_ch c 91 = false.
Proof. char_class. Qed.
Lemma alias_not_open c : alias_char c = true → is_ch c 91 = false.
Proof. char_class. Qed.

Lemma render_ref_open alias key : valid_ref alias key → count_byte 91 (render_ref alias key) = 1%nat.
Proof.
  intros [[_ Ha] [_ Hk]]. unfold render_ref. rewrite !count_byte_app.
  rewrite (count_byte_none 91 alias_char alias), (count_byte_none 91 ref_key_char key);
    eauto using ref_key_not_open, alias_not_open.
Qed.

(** A nonempty suffix of a match ends in a closing bracket. *)
Fixpoint last_byte (d : Z) (s : string) : Z :=
  match s with EmptyString => d | String c s => last_byte (byte_val c) s end.

Lemma last_byte_app d s t : last_byte d (s +:+ t) = last_byte (last_byte d s) t.
Proof. revert d. induction s as [|c s IH]; intros d; simpl; auto. Qed.

Lemma last_byte_indep d d' s : s ≠ "" → last_byte d s = last_byte d' s.
Proof. by destruct s. Qed.

(** A match that starts inside text cannot reach into the [SECRET[] that follows:
    it ends before it. *)
Lemma render_ref_before_open t u alias key rest :
  valid_ref alias key → t ≠ "" →
  t +:+ ref_open +:+ u = render_ref alias key +:+ rest →
  ∃ m, t = render_ref alias key +:+ m.
Proof.
  intros Hv Ht Heq.
  destruct (str_app_split _ _ _ _ Heq) as [(m & -> & _)|(m & Hm & Hr & Hu)]; [eauto|].
  exfalso. destruct (str_app_split _ _ _ _ Hu) as [(m' & Ho & _)|(m' & _ & -> & _)].
  - assert (Hl : last_byte 0 (render_ref alias key) = 93).
    { unfold render_ref. by rewrite !last_byte_app. }
    rewrite Hr, last_byte_app, (last_byte_indep _ 0) in Hl by done.
    clear -Ho Hl Hm. unfold ref_open in Ho.
    repeat (destruct m as [|? m]; simpl in *; simplify_eq; try done).
  - pose proof (render_ref_open _ _ Hv) as Hc. rewrite Hr, !count_byte_app in Hc.
    change (count_byte 91 ref_open) with 1%nat in Hc.
    unfold render_ref in Hr.
    assert (Ht1 : count_byte 91 t = 0%nat) by lia.
    destruct (str_app_split _ _ _ _ Hr) as [(w & Hw & Hr')|(w & _ & -> & _)].
    + clear -Ht Ht1 Hw Hr'. unfold ref_open in *.
      repeat (destruct t as [|? t]; simpl in *; simplify_eq; try done).
    + rewrite count_byte_app in Ht1. change (count_byte 91 ref_open) with 1%nat in Ht1. lia.
Qed.

Lemma match_ref_before_open t u u' :
  t ≠ "" → match_ref (t +:+ ref_open +:+ u) = None → match_ref (t +:+ ref_open +:+ u') = None.
Proof.
  intros Ht Hnone. destruct (match_ref (t +:+ ref_open +:+ u')) as [[[a k] n]|] eqn:Hm; [|done].
  apply match_ref_spec in Hm as (Hv & _ & rest & Heq).
  destruct (render_ref_before_open _ _ _ _ _ Hv Ht Heq) as [m ->].
  rewrite str_app_assoc, match_ref_render in Hnone; done.
Qed.

(** The pieces with every reference replaced by another. *)
Definition map_refs (f : string → string → string * string) (ps : list piece) : list piece :=
  (λ p, match p with PRef a k => let '(a', k') := f a k in PRef a' k' | PText c => PText c end) <$> ps.

(** The text before the first reference, and what follows it. *)
Lemma render_map_refs_split f ps :
  (∃ t, render ps = t ∧ render (map_refs f ps) = t) ∨
  (∃ t u u', render ps = t +:+ ref_open +:+ u ∧ render (map_refs f ps) = t +:+ ref_open +:+ u').
Proof.
  induction ps as [|[c|a k] ps IH]; simpl.
  - left. by exists "".
  - destruct IH as [(t & -> & ->)|(t & u & u' & -> & ->)].
    + left. by exists (String c t).
    + right. by exists (String c t), u, u'.
  - right. destruct (f a k) as [a' k']. exists "". unfold render_ref. simpl.
    eexists _, _. rewrite !str_app_assoc. split; reflexivity.
Qed.

(** Replacing the references of a string by valid ones leaves its text free of
    references: scanning the result finds the replacements and nothing else. *)
Lemma Pieces_map_refs f s ps :
  (∀ a k, PRef a k ∈ ps → valid_ref (f a k).1 (f a k).2) →
  Pieces s ps → Pieces (render (map_refs f ps)) (map_refs f ps).
Proof.
  intros Hf Hps. induction Hps as [|c s ps Hm Hps IH|a k s ps Hv Hps IH]; simpl.
  - constructor.
  - constructor; [|apply IH; set_solver]. rewrite <- (Pieces_render _ _ Hps) in Hm.
    destruct (render_map_refs_split f ps) as [(t & Ht & Ht')|(t & u & u' & Ht & Ht')].
    + unfold map_refs in *. by rewrite Ht', <- Ht.
    + unfold map_refs in *. rewrite Ht'. rewrite Ht in Hm.
      by apply (match_ref_before_open (String c t) u).
  - pose proof (Hf a k ltac:(set_solver)) as Hv'. destruct (f a k) as [a' k'].
    constructor; [done|]. apply IH. set_solver.
Qed.

(** A value and the same value with its references [SECRET[a.k]] replaced by
    [SECRET[k8s.flat]]: the keys, the shape, the scalars and the text around the references
    are the same. *)
Inductive refs_rewritten (ns name : string) : value → value → Prop :=
| rr_string s ps :
    Pieces s ps →
    refs_rewritten ns name (VStr s) (VStr (render (map_refs (λ a k, (SecretsBackendName, flatKey ns name a k)) ps)))
| rr_list l l' : Forall2 (refs_rewritten ns name) l l' → refs_rewritten ns name (VList l) (VList l')
| rr_map (l l' : list (string * value)) :
    l'.*1 = l.*1 → Forall2 (refs_rewritten ns name) l.*2 l'.*2 → refs_rewritten ns name (VMap l) (VMap l')
| rr_other v :
    match v with VStr _ | VList _ | VMap _ => False | _ => True end → refs_rewritten ns name v v.

(** A string without references stays as it is. *)
Lemma refs_rewritten_text ns name s v :
  refs_of_pieces (pieces s) = [] → refs_rewritten ns name (VStr s) v → v = VStr s.
Proof.
  intros Hs Hr. inversion Hr as [s' ps Hps Heq| | |v' Hv Heq]; subst; [|done].
  rewrite <- (Pieces_fun _ _ Hps) in Hs. f_equal. rewrite <- (Pieces_render _ _ Hps).
  clear Hps Hr. induction ps as [|[c|a k] ps IH]; [done | |done].
  simpl. f_equal. by apply IH.
Qed.

(** ** Lemmas: what a successful scan did *)

Definition dns_name (s : string) : Prop := string_forall key_char s = true.

(** The references found in the strings of a value. *)
Definition string_refs (s : string) : list secretRef := refs_of_pieces (pieces s).
Definition value_refs (v : value) : list secretRef := value_strings v ≫= string_refs.

(** The reference [SECRET[k8s.<flat>]] a reference is rewritten to. *)
Definition flat_ref (ns name : string) (r : secretRef) : secretRef :=
  {| ref_alias := SecretsBackendName; ref_key := flatKey ns name (ref_alias r) (ref_key r) |}.

Lemma generateName_chars ns name : dns_name ns → dns_name name → dns_name (generateName ns name).
Proof.
  unfold dns_name, generateName. intros Hns Hname. case_bool_decide; [done|].
  rewrite !string_forall_app, Hns, Hname. done.
Qed.

Lemma alias_key_char c : alias_char c = true → key_char c = true.
Proof. unfold key_char. by intros ->. Qed.
Lemma key_ref_char c : key_char c = true → ref_key_char c = true.
Proof.
  unfold key_char, ref_key_char. rewrite !orb_true_iff. tauto.
Qed.

Lemma flatKey_chars ns name alias key :
  dns_name ns → dns_name name → string_forall alias_char alias = true →
  string_forall key_char key = true → string_forall key_char (flatKey ns name alias key) = true.
Proof.
  intros Hns Hname Ha Hk. unfold flatKey, replace_byte.
  assert (Hj : string_forall key_char (generateName ns name +:+ "-" +:+ alias +:+ "-" +:+ key) = true).
  { rewrite !string_forall_app. rewrite (generateName_chars _ _ Hns Hname), Hk.
    rewrite (string_forall_impl _ _ _ alias_key_char Ha). done. }
  revert Hj. generalize (generateName ns name +:+ "-" +:+ alias +:+ "-" +:+ key).
  intros s. induction s as [|c s IH]; simpl; [done|].
  intros [Hc Hs]%andb_true_iff. rewrite IH by done. rewrite andb_true_r.
  by case_bool_decide.
Qed.

Lemma flatKey_nonempty ns name alias key : flatKey ns name alias key ≠ "".
Proof.
  intros Heq%(f_equal String.length). revert Heq. unfold flatKey, replace_byte.
  rewrite string_map_length, !str_length_app. simpl. lia.
Qed.

Section scan_lemmas.
Context `{GoRuntime}.
Context (ns name : string) (declared : gmap string PipelineSecretBackend).

(** The three conditions a reference must meet. *)
Definition good_ref (r : secretRef) : Prop :=
  is_Some (declared !! ref_alias r) ∧ key_charset (ref_key r) = true ∧
  go_len (flatKey ns name (ref_alias r) (ref_key r)) <= DNS1123SubdomainMaxLength.

Lemma rewrite_ref_Ok alias key m :
  rewrite_ref ns name declared alias key = Ok m ↔
  good_ref {| ref_alias := alias; ref_key := key |} ∧
  m = render_ref SecretsBackendName (flatKey ns name alias key).
Proof.
  unfold rewrite_ref, good_ref. simpl.
  destruct (declared !! alias) as [b|]; [|split; [done | by intros [[[? [=]] _] _]]].
  destruct (key_charset key); simpl; [|split; [done | by intros [(_ & [=] & _) _]]].
  destruct (Z.ltb_spec DNS1123SubdomainMaxLength (go_len (flatKey ns name alias key))).
  - split; [done|]. intros [(_ & _ & ?) _]. lia.
  - split; [intros [= <-]; eauto|]. by intros [_ ->].
Qed.

Lemma rewrite_pieces_spec ps out refs :
  rewrite_pieces ns name declared ps = (out, refs, None) ↔
  Forall good_ref (refs_of_pieces ps) ∧ refs = refs_of_pieces ps ∧
  out = render (map_refs (λ a k, (SecretsBackendName, flatKey ns name a k)) ps).
Proof.
  revert out refs. induction ps as [|[c|a k] ps IH]; intros out refs; simpl.
  - split; [intros [= <- <-]; eauto | by intros (_ & -> & ->)].
  - destruct (rewrite_pieces ns name declared ps) as [[out' refs'] e'].
    split.
    + intros [= <- <- ->]. destruct (IH out' refs') as [IH' _].
      destruct (IH' eq_refl) as (? & ? & ->). eauto.
    + intros (Hg & -> & ->). by pose proof (proj2 (IH _ _) (conj Hg (conj eq_refl eq_refl))) as [= -> -> ->].
  - destruct (rewrite_pieces ns name declared ps) as [[out' refs'] e'].
    pose proof (rewrite_ref_Ok a k) as Hr.
    destruct (rewrite_ref ns name declared a k) as [m|e1].
    + destruct (Hr m) as [[Hg ->] _]; [done|]. split.
      * intros [= <- <- ->]. destruct (IH out' refs') as [IH' _].
        destruct (IH' eq_refl) as (? & -> & ->). split; [by constructor | done].
      * intros ([_ Hgs]%Forall_cons & -> & ->). by pose proof (proj2 (IH _ _) (conj Hgs (conj eq_refl eq_refl))) as [= -> -> ->].
    + split; [by intros [=]|]. intros ([Hg _]%Forall_cons & _ & _).
      destruct (Hr (render_ref SecretsBackendName (flatKey ns name a k))) as [_ Hr'].
      by discriminate Hr'.
Qed.

Lemma walk_string_Ok s refs out :
  walk_string ns name declared s = Ok (refs, out) ↔
  Forall good_ref (string_refs s) ∧ refs = string_refs s ∧
  out = render (map_refs (λ a k, (SecretsBackendName, flatKey ns name a k)) (pieces s)).
Proof.
  unfold walk_string, string_refs.
  pose proof (rewrite_pieces_spec (pieces s)) as Hs.
  destruct (rewrite_pieces ns name declared (pieces s)) as [[out' refs'] [e|]].
  - split; [done|]. intros (Hg & _ & _).
    by pose proof (proj2 (Hs _ _) (conj Hg (conj eq_refl eq_refl))).
  - split.
    + intros [= <- <-]. by apply Hs.
    + intros (Hg & -> & ->). by pose proof (proj2 (Hs _ _) (conj Hg (conj eq_refl eq_refl))) as [= -> ->].
Qed.

Lemma elem_of_string_refs s a k :
  {| ref_alias := a; ref_key := k |} ∈ string_refs s ↔ PRef a k ∈ pieces s.
Proof.
  unfold string_refs, refs_of_pieces. rewrite list_elem_of_omap. split.
  - intros ([c|a' k'] & ? & ?); by simplify_eq.
  - intros. by exists (PRef a k).
Qed.

Lemma refs_of_map_refs ps :
  refs_of_pieces (map_refs (λ a k, (SecretsBackendName, flatKey ns name a k)) ps) =
  flat_ref ns name <$> refs_of_pieces ps.
Proof. induction ps as [|[c|a k] ps IH]; simpl; [done | done | by f_equal]. Qed.

Lemma flat_ref_valid alias key :
  dns_name ns → dns_name name → valid_ref alias key → key_charset key = true →
  valid_ref SecretsBackendName (flatKey ns name alias key).
Proof.
  intros Hns Hname [[_ Ha] _] [_ Hk]%andb_true_iff. split; [done|].
  split; [apply flatKey_nonempty|].
  eapply string_forall_impl; [apply key_ref_char|]. by apply flatKey_chars.
Qed.

(** Scanning the rewritten string finds the rewritten references only. *)
Lemma walk_string_rescan s refs out :
  dns_name ns → dns_name name →
  walk_string ns name declared s = Ok (refs, out) →
  string_refs out = flat_ref ns name <$> string_refs s.
Proof.
  intros Hns Hname (Hg & -> & ->)%walk_string_Ok. unfold string_refs at 1.
  rewrite <- (Pieces_fun _ (map_refs (λ a k, (SecretsBackendName, flatKey ns name a k)) (pieces s))).
  - apply refs_of_map_refs.
  - apply (Pieces_map_refs _ s); [|apply Pieces_pieces]. intros a k Hin. simpl.
    pose proof (Pieces_valid _ _ _ _ (Pieces_pieces s) Hin) as Hv.
    apply flat_ref_valid; [done..|].
    apply elem_of_string_refs in Hin. rewrite Forall_forall in Hg.
    by destruct (Hg _ Hin) as (_ & ? & _).
Qed.
End scan_lemmas.

Section walk_lemmas.
Context `{GoRuntime}.
Context (ns name : string) (declared : gmap string PipelineSecretBackend).

Lemma collect_Ok {A} (rs : list (result (list secretRef * A))) refs :
  collect rs = Ok refs ↔ ∃ xs, rs = Ok <$> xs ∧ refs = xs ≫= fst.
Proof.
  unfold collect. enough (∀ acc, foldM (λ refs r, '(more, _) ← r; Ok (refs ++ more)) acc rs = Ok refs ↔
    ∃ xs, rs = Ok <$> xs ∧ refs = acc ++ (xs ≫= fst)) as Hen by apply Hen.
  induction rs as [|r rs IH]; intros acc; simpl.
  - split.
    + intros [= <-]. exists []. by rewrite app_nil_r.
    + intros (xs & Hxs & ->). symmetry in Hxs. apply fmap_nil_inv in Hxs as ->.
      by rewrite app_nil_r.
  - destruct r as [[more a]|e]; simpl.
    + rewrite IH. split.
      * intros (xs & -> & ->). exists ((more, a) :: xs). simpl. by rewrite <- app_assoc.
      * intros ([|x xs] & Hxs & ->); [done|]. injection Hxs as <- ->. exists xs. simpl.
        by rewrite <- app_assoc.
    + split; [done|]. by intros ([|x xs] & Hxs & _).
Qed.

Lemma collect_Permutation_Ok {A} (rs rs' : list (result (list secretRef * A))) refs :
  rs ≡ₚ rs' → collect rs = Ok refs → ∃ xs, rs' = Ok <$> xs ∧ refs ≡ₚ xs ≫= fst.
Proof.
  intros Hp (xs & -> & ->)%collect_Ok. symmetry in Hp.
  apply Permutation_map_inv in Hp as (xs' & -> & Hp). exists xs'. split; [done|]. by rewrite Hp.
Qed.

Lemma value_refs_list l : value_refs (VList l) = l ≫= value_refs.
Proof.
  unfold value_refs. simpl. induction l as [|v l IH]; [done|]. cbn. by rewrite bind_app, IH.
Qed.

Lemma value_refs_map l : value_refs (VMap l) = l.*2 ≫= value_refs.
Proof.
  unfold value_refs. simpl. induction l as [|[k v] l IH]; [done|]. cbn. by rewrite bind_app, IH.
Qed.

Notation walk := (walk ns name declared).
Notation good_ref := (good_ref ns name declared).

(** What [walk] does to one value. *)
Definition walk_sound (v : value) (x : list secretRef * value) : Prop :=
  x.1 ≡ₚ value_refs v ∧ Forall good_ref (value_refs v) ∧
  (dns_name ns → dns_name name → value_refs x.2 = flat_ref ns name <$> value_refs v) ∧
  refs_rewritten ns name v x.2.

Lemma walk_sound_list l xs :
  Forall2 walk_sound l xs →
  xs ≫= fst ≡ₚ l ≫= value_refs ∧ Forall good_ref (l ≫= value_refs) ∧
  (dns_name ns → dns_name name → xs.*2 ≫= value_refs = flat_ref ns name <$> (l ≫= value_refs)) ∧
  Forall2 (refs_rewritten ns name) l xs.*2.
Proof.
  induction 1 as [|v [r v'] l xs (Hr & Hg & Hs & Hw) _ (IHr & IHg & IHs & IHw)]; csimpl in *; [done|].
  split; [by rewrite Hr, IHr|]. split; [by apply Forall_app|]. split; [|by constructor].
  intros Hns Hname. by rewrite fmap_app, Hs, IHs.
Qed.

Lemma walk_Ok_all l xs :
  Forall (λ v, ∀ x, walk v = Ok x → walk_sound v x) l →
  walk <$> l = Ok <$> xs → Forall2 walk_sound l xs.
Proof.
  intros Hl. revert xs. induction Hl as [|v l Hv _ IH]; intros [|x xs]; try done.
  cbn. intros [= Hx Hxs]. constructor; auto.
Qed.

Lemma fmap_walk_snd (l : list (string * value)) :
  ((λ '(k, item), (k, walk item)) <$> l).*2 = walk <$> l.*2.
Proof. induction l as [|[k v] l IH]; [done|]. cbn. by f_equal. Qed.

Lemma walk_items_map l xs items :
  walk <$> l.*2 = Ok <$> xs →
  mapM rewritten_item ((λ '(k, item), (k, walk item)) <$> l) = Ok items →
  items.*2 = xs.*2.
Proof.
  revert xs items. induction l as [|[k v] l IH]; intros [|[r v'] xs] items; try done.
  - by intros _ [= <-].
  - cbn. intros [= Hv Hl]. rewrite Hv. cbn.
    intros (items' & Hi & [= <-])%bind_Ok. simpl. f_equal. by apply IH.
Qed.

Lemma walk_items_keys (l : list (string * value)) items :
  mapM rewritten_item ((λ '(k, item), (k, walk item)) <$> l) = Ok items → items.*1 = l.*1.
Proof.
  revert items. induction l as [|[k v] l IH]; intros items; cbn; [by intros [= <-]|].
  intros (kv & Hkv & (items' & Hi & [= <-])%bind_Ok)%bind_Ok. apply bind_Ok in Hkv as (nv & _ & [= <-]).
  cbn. f_equal. by apply IH.
Qed.

Lemma walk_items_total l xs :
  walk <$> l.*2 = Ok <$> xs →
  is_Ok (mapM rewritten_item ((λ '(k, item), (k, walk item)) <$> l)).
Proof.
  revert xs. induction l as [|[k v] l IH]; intros [|[r v'] xs]; try done.
  - intros _. by eexists.
  - cbn. intros [= Hv Hl]. rewrite Hv. cbn. destruct (IH _ Hl) as [items ->]. by eexists.
Qed.

Lemma walk_items_list l xs items :
  walk <$> l = Ok <$> xs →
  mapM rewritten_elem (walk <$> l) = Ok items → items = xs.*2.
Proof.
  intros ->. revert items. induction xs as [|[r v'] xs IH]; intros items; cbn.
  - by intros [= <-].
  - intros (items' & Hi & [= <-])%bind_Ok. by rewrite (IH items').
Qed.

Lemma walk_Ok v : ∀ x, walk v = Ok x → walk_sound v x.
Proof.
  induction v using value_ind'; intros x; simpl;
    try (intros [= <-]; split; [done|]; split; [constructor|]; split; [done | by apply rr_other]).
  - intros ([refs out] & Hs & [= <-])%bind_Ok.
    unfold walk_sound, value_refs. simpl. rewrite !app_nil_r.
    pose proof Hs as (Hg & -> & Hout)%walk_string_Ok. split; [done|]. split; [done|].
    split; [intros; by eapply walk_string_rescan|]. rewrite Hout. apply rr_string, Pieces_pieces.
  - intros (refs & Hc & (items & Hi & [= <-])%bind_Ok)%bind_Ok.
    apply collect_Ok in Hc as (xs & Hxs & ->).
    rewrite (walk_items_list _ _ _ Hxs Hi).
    unfold walk_sound. simpl. rewrite !value_refs_list.
    destruct (walk_sound_list l xs) as (? & ? & ? & ?); [by apply walk_Ok_all|].
    split_and!; [done..|by apply rr_list].
  - intros (refs & Hc & (items & Hi & [= <-])%bind_Ok)%bind_Ok.
    eapply collect_Permutation_Ok in Hc as (xs & Hxs & Hrefs);
      [|by rewrite (range_assoc_perm 10)].
    rewrite fmap_walk_snd in Hxs. pose proof (walk_items_map _ _ _ Hxs Hi) as Hvalues.
    unfold walk_sound. simpl. rewrite !value_refs_map, Hrefs, Hvalues.
    destruct (walk_sound_list l.*2 xs) as (? & ? & ? & ?); [apply walk_Ok_all; [by apply Forall_fmap | done]|].
    split_and!; [done..|]. apply rr_map; [by apply walk_items_keys | by rewrite Hvalues].
Qed.

(** A value all of whose references are good is accepted. *)
Lemma walk_total v : Forall good_ref (value_refs v) → is_Ok (walk v).
Proof.
  assert (Hsome : ∀ l : list value, Forall (λ v, Forall good_ref (value_refs v) → is_Ok (walk v)) l →
    Forall good_ref (l ≫= value_refs) → ∃ xs, walk <$> l = Ok <$> xs).
  { clear v. induction 1 as [|v l Hv _ IH]; [by exists []|]. csimpl.
    intros [Hg1 Hg2]%Forall_app. destruct (Hv Hg1) as [x Hx], (IH Hg2) as [xs Hxs].
    exists (x :: xs). csimpl. by rewrite Hx, Hxs. }
  induction v using value_ind'; simpl; try (intros _; by eexists).
  - unfold value_refs. simpl. rewrite app_nil_r. intros Hg.
    eexists. apply bind_Ok.
    exists (string_refs s, render (map_refs (λ a k, (SecretsBackendName, flatKey ns name a k)) (pieces s))).
    split; [apply walk_string_Ok; eauto | done].
  - rewrite value_refs_list. intros Hg. destruct (Hsome _ H0 Hg) as [xs Hxs].
    eexists. apply bind_Ok. eexists. split; [apply collect_Ok; eauto|].
    apply bind_Ok. exists xs.*2. split; [|done]. rewrite Hxs. clear.
    induction xs as [|[r v'] xs IH]; cbn; [done|]. by rewrite IH.
  - rewrite value_refs_map. intros Hg.
    destruct (Hsome l.*2) as [xs Hxs]; [by apply Forall_fmap | done|].
    pose proof (range_assoc_perm 10 ((λ '(k, item), (k, walk item)) <$> l)) as Hp.
    apply (fmap_Permutation snd) in Hp. rewrite fmap_walk_snd, Hxs in Hp.
    apply Permutation_map_inv in Hp as (ys & Hys & _).
    destruct (walk_items_total _ _ Hxs) as [items Hitems].
    exists (ys ≫= fst, VMap items). apply bind_Ok. exists (ys ≫= fst).
    split; [by apply collect_Ok; exists ys|]. apply bind_Ok. by exists items.
Qed.
End walk_lemmas.

(** ** Lemmas: resolution *)

(** References that share a flat key name the same value. *)
Definition consistent (rs : list pendingSecretRef) : Prop :=
  ∀ r1 r2, r1 ∈ rs → r2 ∈ rs → pr_flat r1 = pr_flat r2 → pr_tuple r1 = pr_tuple r2.

Section resolve_lemmas.
Context `{GoRuntime}.
Context (getter : string → string → result Secret).

Lemma resolve_ref_tuple r1 r2 v :
  pr_tuple r1 = pr_tuple r2 → resolve_ref getter r1 = Ok v → resolve_ref getter r2 = Ok v.
Proof.
  unfold pr_tuple, resolve_ref. intros [= -> -> ->].
  destruct (getter _ _) as [s|e]; [|done]. destruct (sec_data s !! pr_key r2); [|done].
  by destruct (negb _).
Qed.

(** The loop invariant: [done] is the part of the queue already processed. *)
Definition resolve_inv (done : list pendingSecretRef) (s : resolve_state) : Prop :=
  consistent done ∧
  (∀ r, r ∈ done → ∃ o, rs_origins s !! pr_flat r = Some o ∧ pr_tuple o = pr_tuple r) ∧
  (∀ f o, rs_origins s !! f = Some o → o ∈ done ∧ pr_flat o = f) ∧
  (∀ r, r ∈ done → ∃ v, resolve_ref getter r = Ok v ∧ rs_data s !! pr_flat r = Some v) ∧
  (∀ f v, rs_data s !! f = Some v → ∃ r, r ∈ done ∧ pr_flat r = f).

Lemma resolve_step_inv dn s r s' :
  resolve_inv dn s → resolve_step getter s r = Ok s' → resolve_inv (dn ++ [r]) s'.
Proof.
  intros (Hc & Ho1 & Ho2 & Hd1 & Hd2) Hstep.
  apply bind_Ok in Hstep as (origins & Horig & (v & Hv & [= <-])%bind_Ok). simpl in *.
  assert (Hor : ∃ o, origins !! pr_flat r = Some o ∧ pr_tuple o = pr_tuple r ∧
                (∀ f, f ≠ pr_flat r → origins !! f = rs_origins s !! f) ∧
                (o = r ∨ o ∈ dn) ∧ pr_flat o = pr_flat r ∧
                (∀ r', r' ∈ dn → pr_flat r' = pr_flat r → pr_tuple r' = pr_tuple r)).
  { destruct (rs_origins s !! pr_flat r) as [o|] eqn:Hlk.
    - case_bool_decide as Ht; [done|]. injection Horig as <-.
      destruct (Ho2 _ _ Hlk) as [Hin Hf]. exists o. repeat split; eauto.
      intros r' Hr' Hf'. rewrite <- Ht. symmetry. apply Hc; congruence.
    - injection Horig as <-. exists r. rewrite lookup_insert_eq.
      split; [done|]. split; [done|]. split; [intros; by rewrite lookup_insert_ne|].
      split; [by left|]. split; [done|]. intros r' Hr' Hf'.
      destruct (Ho1 _ Hr') as (o & Ho & _). congruence. }
  destruct Hor as (o & Ho & Hot & Hne & Hoin & Hof & Hsame).
  unfold resolve_inv. simpl. split_and!.
  - intros r1 r2 [H1| ->%list_elem_of_singleton]%elem_of_app [H2| ->%list_elem_of_singleton]%elem_of_app Hf;
      [by apply Hc | by apply Hsame | by symmetry; apply Hsame | done].
  - intros r' Hr'. destruct (decide (pr_flat r' = pr_flat r)) as [Hf|Hf].
    + exists o. rewrite Hf. split; [done|]. rewrite Hot.
      apply elem_of_app in Hr' as [Hr'| ->%list_elem_of_singleton]; [symmetry; auto | done].
    + apply elem_of_app in Hr' as [Hr'| ->%list_elem_of_singleton]; [|done].
      rewrite Hne by done. by apply Ho1.
  - intros f o' Ho'. destruct (decide (f = pr_flat r)) as [->|Hf].
    + assert (o' = o) as -> by congruence. set_solver.
    + rewrite Hne in Ho' by done. destruct (Ho2 _ _ Ho'). set_solver.
  - intros r' Hr'. destruct (decide (pr_flat r' = pr_flat r)) as [Hf|Hf].
    + exists v. rewrite Hf, lookup_insert_eq. split; [|done].
      eapply resolve_ref_tuple; [|exact Hv].
      apply elem_of_app in Hr' as [Hr'| ->%list_elem_of_singleton]; [symmetry; auto | done].
    + rewrite lookup_insert_ne by done.
      apply elem_of_app in Hr' as [Hr'| ->%list_elem_of_singleton]; [auto | done].
  - intros f v' [[<- _]|[_ Hf]]%lookup_insert_Some; [set_solver|].
    destruct (Hd2 _ _ Hf) as (r' & ? & ?). set_solver.
Qed.

Lemma resolve_loop_inv rs dn s s' :
  resolve_inv dn s → foldM (resolve_step getter) s rs = Ok s' → resolve_inv (dn ++ rs) s'.
Proof.
  revert dn s. induction rs as [|r rs IH]; intros dn s Hs; simpl.
  - intros [= <-]. by rewrite app_nil_r.
  - intros (s1 & H1 & H2)%bind_Ok. rewrite (cons_middle r dn rs), (assoc_L (++)).
    eapply IH; [by eapply resolve_step_inv | done].
Qed.

Lemma resolve_inv_nil : resolve_inv [] {| rs_data := ∅; rs_origins := ∅ |}.
Proof.
  unfold resolve_inv, consistent. simpl. split_and!; try set_solver;
    intros f x Hx; by rewrite lookup_empty in Hx.
Qed.

Lemma resolve_step_total dn s r v :
  resolve_inv dn s → consistent (dn ++ [r]) → resolve_ref getter r = Ok v →
  is_Ok (resolve_step getter s r).
Proof.
  intros (_ & _ & Ho & _) Hc Hv. unfold resolve_step. rewrite Hv.
  destruct (rs_origins s !! pr_flat r) as [o|] eqn:Hlk; [|by eexists].
  destruct (Ho _ _ Hlk) as [Hin Hf].
  rewrite bool_decide_eq_false_2; [by eexists|]. intros Hne. apply Hne. apply Hc; set_solver.
Qed.

(** Resolution succeeds exactly on a consistent queue all of whose references
    have a safe value, and the data is then those values under their flat keys. *)
Lemma resolve_all_Ok rs data :
  resolve_all getter rs = Ok data →
  consistent rs ∧
  (∀ r, r ∈ rs → ∃ v, resolve_ref getter r = Ok v ∧ data !! pr_flat r = Some v) ∧
  (∀ f v, data !! f = Some v → ∃ r, r ∈ rs ∧ pr_flat r = f).
Proof.
  intros (s & Hs & [= <-])%bind_Ok.
  by apply (resolve_loop_inv rs [] _ _ resolve_inv_nil) in Hs as (? & _ & _ & ? & ?).
Qed.

Lemma resolve_all_total rs :
  consistent rs → (∀ r, r ∈ rs → is_Ok (resolve_ref getter r)) → is_Ok (resolve_all getter rs).
Proof.
  intros Hc Hr. unfold resolve_all.
  enough (∀ rs dn s, resolve_inv dn s → consistent (dn ++ rs) →
    (∀ r, r ∈ rs → is_Ok (resolve_ref getter r)) → is_Ok (foldM (resolve_step getter) s rs)) as Hen.
  { destruct (Hen rs [] _ resolve_inv_nil Hc Hr) as [s ->]. by eexists. }
  clear Hc Hr rs. induction rs as [|r rs IH]; intros dn s Hs Hc Hr; simpl; [by eexists|].
  destruct (Hr r) as [v Hv]; [set_solver|].
  destruct (resolve_step_total dn s r v) as [s' Hs']; [done | | done |].
  { intros r1 r2 ??. apply Hc; set_solver. }
  rewrite Hs'. simpl. apply (IH (dn ++ [r])).
  - by eapply resolve_step_inv.
  - by rewrite <- (assoc_L (++)).
  - set_solver.
Qed.
End resolve_lemmas.

(** ** Lemmas: a pipeline's references *)

(** The option maps of a configuration. *)
Definition component_options (pc : PipelineConfig) (o : list (string * value)) : Prop :=
  (∃ k s, Sources pc !! k = Some s ∧ o = src_options s) ∨
  (∃ k c, Transforms pc !! k = Some c ∧ o = c_options c) ∨
  (∃ k c, Sinks pc !! k = Some c ∧ o = c_options c).

Section process_lemmas.
Context `{GoRuntime}.
Context (p : Pipeline).

Notation ns := (GetNamespace p).
Notation name := (GetName p).
Notation declared := (spec_secret (GetSpec p)).

Definition options_refs (o : list (string * value)) : list secretRef := value_refs (VMap o).

(** What a successful iteration did to one option map. *)
Definition rewritten (o o' : list (string * value)) : Prop :=
  (dns_name ns → dns_name name → options_refs o' = flat_ref ns name <$> options_refs o) ∧
  refs_rewritten ns name (VMap o) (VMap o').

Lemma scan_Ok o refs o' :
  scanAndRewriteSecretRefs ns name declared o = Ok (refs, o') →
  refs ≡ₚ options_refs o ∧ Forall (good_ref ns name declared) (options_refs o) ∧ rewritten o o'.
Proof.
  intros ([r v] & Hw & Heq)%bind_Ok.
  pose proof (walk_Ok _ _ _ _ _ Hw) as (Hr & Hg & Hs). simpl in Hr, Hs.
  simpl in Hw. apply bind_Ok in Hw as (? & _ & (items & _ & [= -> <-])%bind_Ok).
  by injection Heq as <- <-.
Qed.

Lemma scan_total o :
  Forall (good_ref ns name declared) (options_refs o) →
  is_Ok (scanAndRewriteSecretRefs ns name declared o).
Proof.
  intros [[refs v] Hw]%walk_total. unfold scanAndRewriteSecretRefs.
  rewrite Hw. simpl. destruct v; by eexists.
Qed.

Lemma process_comp_Ok o o' pending pending' :
  process_comp p o pending = Ok (o', pending') →
  ∃ refs, pending' = pending ++ (pending_of p <$> refs) ∧ refs ≡ₚ options_refs o ∧
    Forall (good_ref ns name declared) (options_refs o) ∧ rewritten o o'.
Proof.
  destruct o as [|kv o].
  - intros [= <- <-]. exists []. rewrite app_nil_r. split_and!; [done..|]. split; [done | by apply rr_map].
  - unfold process_comp. destruct (scanAndRewriteSecretRefs _ _ _ _) as [[refs o2]|e] eqn:Hs; [|done].
    intros [= <- <-]. exists refs. split; [done|]. by apply scan_Ok.
Qed.

Lemma process_comps_Ok comps comps' pending pending' :
  process_comps p comps pending = Ok (comps', pending') →
  ∃ refs, pending' = pending ++ (pending_of p <$> refs) ∧ refs ≡ₚ comps ≫= options_refs ∧
    Forall (good_ref ns name declared) (comps ≫= options_refs) ∧ Forall2 rewritten comps comps'.
Proof.
  revert comps' pending pending'.
  induction comps as [|o comps IH]; intros comps' pending pending'; simpl.
  - intros [= <- <-]. exists []. by rewrite app_nil_r.
  - intros ([o' q] & (refs & -> & Hr & Hg & Hw)%process_comp_Ok & Hc)%bind_Ok.
    apply bind_Ok in Hc as ([cs q'] & (refs' & -> & Hr' & Hg' & Hw')%IH & [= <- <-]).
    exists (refs ++ refs'). csimpl. rewrite fmap_app, (assoc_L (++)). split; [done|].
    split; [by rewrite Hr, Hr'|]. split; [by apply Forall_app | by constructor].
Qed.

Lemma process_comps_total comps pending :
  Forall (good_ref ns name declared) (comps ≫= options_refs) → is_Ok (process_comps p comps pending).
Proof.
  revert pending. induction comps as [|o comps IH]; intros pending; csimpl; [by eexists|].
  intros [Hg Hgs]%Forall_app. cbn [process_comps].
  assert (is_Ok (process_comp p o pending)) as [[o' q] ->].
  { destruct o as [|kv o]; [by eexists|]. unfold process_comp.
    destruct (scan_total _ Hg) as [[refs o'] ->]. by eexists. }
  simpl. destruct (IH q Hgs) as [[cs q'] ->]. by eexists.
Qed.

(** The backends have the shape the kind of pipeline requires. *)
Definition shapes_ok : Prop :=
  ∀ alias b, declared !! alias = Some b → (backend_namespace b ≠ "" ↔ p_kind p = KClusterVectorPipeline).

Lemma check_backend_shape_Ok alias b u :
  check_backend_shape p alias b = Ok u ↔ (backend_namespace b ≠ "" ↔ p_kind p = KClusterVectorPipeline).
Proof.
  unfold check_backend_shape, is_vp. destruct u.
  destruct (p_kind p); simpl; repeat case_bool_decide; simpl; naive_solver.
Qed.

Lemma shapes_checked i :
  is_Ok (mapM (λ '(alias, backend), check_backend_shape p alias backend) (range_map i declared)) ↔
  shapes_ok.
Proof.
  unfold shapes_ok. split.
  - intros [us Hus] alias b Hb. apply mapM_Ok in Hus.
    apply (range_map_lookup i) in Hb. apply list_elem_of_lookup in Hb as [j Hj].
    destruct (Forall2_lookup_l _ _ _ _ _ Hus Hj) as (u & _ & Hu).
    by apply (check_backend_shape_Ok alias b u).
  - intros Hs. exists (replicate (length (range_map i declared)) tt). apply mapM_Ok.
    apply Forall2_same_length_lookup_2; [by rewrite length_replicate|].
    intros j [alias b] u Hj _. apply check_backend_shape_Ok. eapply Hs.
    apply (range_map_lookup i). by eapply list_elem_of_lookup_2.
Qed.

(** When a pipeline's secrets are accepted. *)
Definition secrets_ok (getter : SecretGetter) (comps : list (list (string * value))) : Prop :=
  shapes_ok ∧ (declared = ∅ ∨ getter ≠ None) ∧
  Forall (good_ref ns name declared) (comps ≫= options_refs).

Lemma processPipelineSecrets_Ok getter comps comps' pending pending' :
  processPipelineSecrets p getter comps pending = Ok (comps', pending') →
  secrets_ok getter comps ∧ Forall2 rewritten comps comps' ∧
  ∃ refs, pending' = pending ++ (pending_of p <$> refs) ∧ refs ≡ₚ comps ≫= options_refs.
Proof.
  intros (us & Hus & ([] & Hg%guard_err_Ok & Hc)%bind_Ok)%bind_Ok.
  apply process_comps_Ok in Hc as (refs & -> & Hr & Hgs & Hw).
  split; [|split; [done | by exists refs]].
  split; [by apply (shapes_checked 8); eexists|]. split; [|done].
  apply andb_false_iff in Hg as [Hg%bool_decide_eq_false|Hg%bool_decide_eq_false]; [left | by right].
  destruct (decide (declared = ∅)); [done | tauto].
Qed.

Lemma processPipelineSecrets_total getter comps pending :
  secrets_ok getter comps → is_Ok (processPipelineSecrets p getter comps pending).
Proof.
  intros (Hs & Hd & Hg). unfold processPipelineSecrets.
  destruct (proj2 (shapes_checked 8) Hs) as [us ->]. simpl.
  assert (bool_decide (declared ≠ ∅) && bool_decide (getter = None) = false) as ->.
  { rewrite andb_false_iff, !bool_decide_eq_false. tauto. }
  simpl. by apply process_comps_total.
Qed.
End process_lemmas.

Lemma UnmarshalJson_agree (RT1 RT2 : GoRuntime) `{Libraries} spec :
  @UnmarshalJson RT1 _ spec = @UnmarshalJson RT2 _ spec.
Proof. unfold UnmarshalJson. by rewrite (marshal_spec_agree RT1 RT2). Qed.

Lemma comps_of_agree (RT1 RT2 : GoRuntime) i j cfg : @comps_of RT1 i cfg ≡ₚ @comps_of RT2 j cfg.
Proof. unfold comps_of. rewrite !(range_map_agree RT1 RT2). done. Qed.

#[export] Instance secrets_ok_perm p getter :
  Proper ((≡ₚ) ==> iff) (secrets_ok p getter).
Proof. intros c1 c2 Hc. unfold secrets_ok. by rewrite Hc. Qed.

(** ** Properties *)

Section properties.
Context `{GoRuntime}.

(** C20: a build's scan of a component's options succeeds exactly when every
    [SECRET[alias.key]] in them names a declared backend, has a key of the
    charset and gets a flat key of at most 253 bytes; it then reports each of
    these references, and scanning the rewritten options again finds the
    rewritten references [SECRET[k8s.<flat key>]], one for one and no other, while the
    keys, the shape and the text around the references stay as they are. *)
Theorem scan_rewrite_exact ns name declared options :
  dns_name ns → dns_name name →
  (is_Ok (scanAndRewriteSecretRefs ns name declared options) ↔
   Forall (good_ref ns name declared) (value_refs (VMap options))) ∧
  (∀ refs options',
     scanAndRewriteSecretRefs ns name declared options = Ok (refs, options') →
     refs ≡ₚ value_refs (VMap options) ∧
     value_refs (VMap options') = flat_ref ns name <$> value_refs (VMap options) ∧
     refs_rewritten ns name (VMap options) (VMap options')).
Proof.
  intros Hns Hname. unfold scanAndRewriteSecretRefs. split; [split|].
  - intros [[refs o] ([r v] & Hw & _)%bind_Ok]. by apply walk_Ok in Hw as (_ & ? & _).
  - intros [[refs v] Hw]%walk_total. rewrite Hw. simpl. destruct v; by eexists.
  - intros refs options' ([r v] & Hw & Heq)%bind_Ok.
    pose proof (walk_Ok _ _ _ _ _ Hw) as (Hr & _ & Hs & Hv). simpl in Hr, Hs, Hv.
    simpl in Hw. apply bind_Ok in Hw as (? & _ & (items & _ & [= -> <-])%bind_Ok).
    injection Heq as <- <-. auto.
Qed.

(** resolution succeeds exactly when references on one flat key agree on the
    value they name and every reference has a safe value; the assets then hold
    each value under its flat key and nothing else. *)
Lemma resolve_all_exact getter rs :
  (is_Ok (resolve_all getter rs) ↔
   consistent rs ∧ ∀ r, r ∈ rs → is_Ok (resolve_ref getter r)) ∧
  (∀ data, resolve_all getter rs = Ok data →
   ∀ f v, data !! f = Some v ↔ ∃ r, r ∈ rs ∧ pr_flat r = f ∧ resolve_ref getter r = Ok v).
Proof.
  split; [split|].
  - intros [data (Hc & Hd & _)%resolve_all_Ok]. split; [done|].
    intros r (v & ? & _)%Hd. by exists v.
  - intros [Hc Hr]. by apply resolve_all_total.
  - intros data (Hc & Hd & Hdom)%resolve_all_Ok f v. split.
    + intros Hf. destruct (Hdom _ _ Hf) as (r & Hr & <-).
      destruct (Hd _ Hr) as (v' & Hv' & Hf'). exists r. split_and!; congruence.
    + intros (r & Hr & <- & Hv). destruct (Hd _ Hr) as (v' & Hv' & Hf'). congruence.
Qed.

(** C21: a value the guard accepts decodes to itself when it is substituted into
    JSON text inside a string: the bytes after it are read as they would be
    without it, and the string it fills is the value. *)
Theorem safe_value_substitution value :
  secretValueSafeForJSONText value = true →
  (∀ rest, json_chars (value +:+ rest) = (λ '(t, r), (value +:+ t, r)) <$> json_chars rest) ∧
  json_parse (dquote +:+ value +:+ dquote) = Some (VStr value).
Proof.
  intros Hsafe.
  assert (Forall (λ b, json_plain b = true) (bytes_of value) ∧
                   utf8_valid (bytes_of value) = true) as [Hplain Hvalid].
  { unfold secretValueSafeForJSONText in Hsafe. destruct (go_len value =? 0) eqn:Hlen.
    - apply Z.eqb_eq in Hlen. unfold go_len in Hlen. destruct value; [by split | simpl in Hlen; lia].
    - destruct (utf8_valid (bytes_of value)); [|done]. simpl in Hsafe. split; [|done].
      rewrite forallb_forall in Hsafe. apply Forall_forall. intros b Hb%list_elem_of_In. by apply Hsafe. }
  pose proof (json_chars_plain value) as Hjc.
  split; [intros; by apply Hjc|].
  rewrite json_parse_string, Hjc by done. change (json_chars dquote) with (Some ("", "")).
  cbn [mbind option_bind fmap option_fmap option_map].
  by rewrite str_app_nil_r, utf8_sanitize_valid.
Qed.
End properties.

(** ** Witnesses *)

Lemma scan_rewrite_exact_witness :
  is_Ok (@scanAndRewriteSecretRefs stable_runtime "team" "a-b" {["c" := sample_backend "s2"]}
           [("token", VStr "x-SECRET[c.k]")]) ↔
  Forall (good_ref "team" "a-b" {["c" := sample_backend "s2"]})
    (value_refs (VMap [("token", VStr "x-SECRET[c.k]")])).
Proof.
  exact (proj1 (@scan_rewrite_exact stable_runtime "team" "a-b" {["c" := sample_backend "s2"]}
                  [("token", VStr "x-SECRET[c.k]")] eq_refl eq_refl)).
Defined.

Lemma safe_value_substitution_witness :
  json_parse (dquote +:+ "p4ss word" +:+ dquote) = Some (VStr "p4ss word").
Proof. exact (proj2 (safe_value_substitution "p4ss word" eq_refl)). Defined.
