(* ===== verification/RelatedSecrets.v ===== *)
(** * The Secrets a pipeline is related to

    The first part of [src/internal/controller/secrets.go]: the reader of Secrets
    with its per-reconcile cache ([pipelineSecretGetter]), the Secrets a pipeline
    uses with their change token ([resolveRelatedSecrets], [relatedSecretsToken]).
    The cache makes one reconcile's reads a function of the name, which is what the
    other files take a [SecretGetter] to be; the token's input determines the
    identities it was made from. *)

From S2P Require Export Samples SecretRefs.

(** ** [pipelineSecretGetter] *)

(** The cache and the number of reads made: the API server may answer each read
    differently, so a reader is indexed by the read. *)
Record getter_state := { gs_cache : gmap string (result Secret); gs_reads : nat }.

Section getter.
Context (reader : nat → string → string → result Secret).

(** The function [pipelineSecretGetter] returns, for a reader that is not nil. *)
Definition getter_call (s : getter_state) (namespace name : string) : result Secret * getter_state :=
  let key := namespace +:+ "/" +:+ name in
  match gs_cache s !! key with
  | Some entry => (entry, s)
  | None =>
      let r := reader (gs_reads s) namespace name in
      (r, {| gs_cache := <[key := r]> (gs_cache s); gs_reads := S (gs_reads s) |})
  end.

(** The calls of one reconcile, in order, and what they returned. *)
Fixpoint getter_run (s : getter_state) (calls : list NamespacedName) : list (result Secret) * getter_state :=
  match calls with
  | [] => ([], s)
  | (namespace, name) :: calls =>
      let '(r, s) := getter_call s namespace name in
      let '(rs, s) := getter_run s calls in
      (r :: rs, s)
  end.

Definition getter_start : getter_state := {| gs_cache := ∅; gs_reads := 0 |}.
End getter.

(** ** [relatedSecretsToken] *)

(** [corev1.ObjectReference], the fields used. *)
Record SecretIdentity := {
  id_namespace : string;
  id_name : string;
  id_uid : string;
  id_resource_version : string
}.

(** [appendField]: the length in eight bytes, big endian, then the text. *)
Definition append_field (buf : list Z) (s : string) : list Z :=
  buf ++ be_bytes 8 (go_len s mod 2 ^ 64) ++ bytes_of s.

Definition append_identity (buf : list Z) (id : SecretIdentity) : list Z :=
  append_field (append_field (append_field (append_field buf (id_namespace id)) (id_name id))
    (id_uid id)) (id_resource_version id).

Definition token_buffer (identities : list SecretIdentity) : list Z :=
  fold_left append_identity identities [].

(** [int64] of a 64-bit word. *)
Definition int64_of (z : Z) : Z := if z <? 2 ^ 63 then z else z - 2 ^ 64.

Definition relatedSecretsToken (identities : list SecretIdentity) : option Z :=
  match identities with
  | [] => None
  | _ => Some (int64_of (be_word (take 8 (sha256 (token_buffer identities)))))
  end.

(** [relatedSecretsHashEqual] *)
Definition relatedSecretsHashEqual (a b : option Z) : bool :=
  match a, b with
  | Some a, Some b => a =? b
  | None, None => true
  | _, _ => false
  end.

(** ** [resolveRelatedSecrets] *)

Section resolve_related.
Context `{GoRuntime}.

(** The shape of the declared backends, in the order of their aliases. *)
Definition check_related_shape (p : Pipeline) (alias : string) : result unit :=
  let backend := default zero_backend (spec_secret (GetSpec p) !! alias) in
  if is_vp p && bool_decide (backend_namespace backend ≠ "") then
    Err (ErrSecretShape ("secret backend " +:+ quote alias +:+ ": namespace is not allowed in VectorPipeline"))
  else if negb (is_vp p) && bool_decide (backend_namespace backend = "") then
    Err (ErrSecretShape ("secret backend " +:+ quote alias +:+ ": namespace is required"))
  else Ok tt.

(** The Secret of an alias. *)
Definition related_ref (p : Pipeline) (alias : string) : NamespacedName :=
  let backend := default zero_backend (spec_secret (GetSpec p) !! alias) in
  (if is_vp p then GetNamespace p else backend_namespace backend, backend_name backend).

(** [seen] and [refs]: each Secret once, under the first alias that names it. *)
Definition add_related (p : Pipeline) (st : gmap NamespacedName string * list NamespacedName) (alias : string)
    : gmap NamespacedName string * list NamespacedName :=
  let '(seen, refs) := st in
  let ref := related_ref p alias in
  match seen !! ref with
  | Some _ => (seen, refs)
  | None => (<[ref := alias]> seen, refs ++ [ref])
  end.

(** [types.NamespacedName.String] *)
Definition nn_string (n : NamespacedName) : string := n.1 +:+ "/" +:+ n.2.

Definition identity_of (secret : Secret) : SecretIdentity :=
  {| id_namespace := sec_namespace secret; id_name := sec_name secret;
     id_uid := sec_uid secret; id_resource_version := sec_resource_version secret |}.

Definition read_identity (reader : string → string → result Secret) (seen : gmap NamespacedName string)
    (ref : NamespacedName) : result SecretIdentity :=
  match reader ref.1 ref.2 with
  | Err e => Err (ErrWrap ("secret backend " +:+ quote (default "" (seen !! ref)) +:+
                           ": failed to get secret " +:+ nn_string ref +:+ ": ") e)
  | Ok secret => Ok (identity_of secret)
  end.

(** The [refs] are returned on failed reads too, hence the pair. *)
Definition resolveRelatedSecrets (reader : SecretGetter) (p : Pipeline) (used : gset string)
    : list NamespacedName * result (option Z) :=
  let declared := spec_secret (GetSpec p) in
  if bool_decide (size declared = 0%nat) then ([], Ok None) else
  match reader with
  | None => ([], Err (ErrText ("pipeline " +:+ GetName p +:+ ": secrets are not supported in this context")))
  | Some get =>
      let declaredAliases := sort_strings (range_map 34 declared).*1 in
      match mapM (check_related_shape p) declaredAliases with
      | Err e => ([], Err e)
      | Ok _ =>
          let aliases := filter (λ alias, alias ∈ used) declaredAliases in
          if bool_decide (length aliases = 0%nat) then ([], Ok None) else
          let '(seen, refs) := fold_left (add_related p) aliases (∅, []) in
          (refs, identities ← mapM (read_identity get seen) refs; Ok (relatedSecretsToken identities))
      end
  end.
End resolve_related.

(** ** The cache: one reconcile reads each Secret once *)

(** A Kubernetes namespace holds no slash. *)
Definition slash_free (s : string) : Prop := string_in (ch 47) s = false.

Lemma string_exists_app f s t : string_exists f (s +:+ t) = string_exists f s || string_exists f t.
Proof. induction s as [|c s IH]; simpl; [done|]. by rewrite IH, orb_assoc. Qed.

Definition cache_key (c : NamespacedName) : string := c.1 +:+ "/" +:+ c.2.

Lemma cache_key_inj c d : slash_free c.1 → slash_free d.1 → cache_key c = cache_key d → c = d.
Proof.
  destruct c as [ns n], d as [ns' n']. unfold cache_key. simpl. intros Hc Hd Heq.
  destruct (str_app_split _ _ _ _ Heq) as [(m & -> & Hm)|(m & Hne & -> & Hm)]; destruct m as [|a m]; simpl in *.
  - rewrite str_app_nil_r. by simplify_eq.
  - simplify_eq. exfalso. revert Hc. unfold slash_free, string_in. rewrite string_exists_app. simpl.
    by rewrite orb_true_r.
  - done.
  - simplify_eq. exfalso. revert Hd. unfold slash_free, string_in. rewrite string_exists_app. simpl.
    by rewrite orb_true_r.
Qed.

Section getter_lemmas.
Context (reader : nat → string → string → result Secret).

(** A run from [s]: the cache only grows, each read fills one new entry. *)
Lemma getter_run_spec calls s rs s' :
  getter_run reader s calls = (rs, s') → size (gs_cache s) = gs_reads s →
  gs_cache s ⊆ gs_cache s' ∧ size (gs_cache s') = gs_reads s' ∧
  (gs_reads s <= gs_reads s')%nat ∧
  dom (gs_cache s') = dom (gs_cache s) ∪ list_to_set (cache_key <$> calls) ∧
  Forall2 (λ c r, gs_cache s' !! cache_key c = Some r) calls rs ∧
  ∀ k r, gs_cache s' !! k = Some r → gs_cache s !! k = Some r ∨
    ∃ c t, c ∈ calls ∧ cache_key c = k ∧ (t < gs_reads s')%nat ∧ r = reader t c.1 c.2.
Proof.
  revert s rs. induction calls as [|[ns n] calls IH]; intros s rs; cbn [getter_run].
  - intros [= <- <-] Hs. split_and!; [done|done|done|set_solver|constructor|by left].
  - unfold getter_call. fold (cache_key (ns, n)).
    change (ns +:+ "/" +:+ n) with (cache_key (ns, n)).
    destruct (gs_cache s !! cache_key (ns, n)) as [r|] eqn:Hk.
    + destruct (getter_run reader s calls) as [rs' s1] eqn:Hr. intros [= <- <-] Hs.
      destruct (IH _ _ Hr Hs) as (Hsub & Hsz & Hle & Hdom & Hall & Hfrom). split_and!; [done|done|done| | |].
      * rewrite Hdom. apply elem_of_dom_2 in Hk. set_solver.
      * constructor; [by eapply lookup_weaken | done].
      * intros k r' [?|(c & t & ? & ?)]%Hfrom; [by left|]. right. exists c, t. set_solver.
    + set (r := reader (gs_reads s) ns n).
      destruct (getter_run reader _ calls) as [rs' s1] eqn:Hr. intros [= <- <-] Hs.
      destruct (IH _ _ Hr) as (Hsub & Hsz & Hle & Hdom & Hall & Hfrom); simpl in *.
      { rewrite map_size_insert_None by done. lia. }
      assert (Hr1 : gs_cache s1 !! cache_key (ns, n) = Some r)
        by (eapply lookup_weaken; [apply lookup_insert_eq | done]).
      split_and!; [|done|lia| | |].
      * etrans; [|exact Hsub]. by apply insert_subseteq.
      * rewrite Hdom, dom_insert_L. set_solver.
      * by constructor.
      * intros k r' [[[<- <-]|[_ ?]]%lookup_insert_Some|(c & t & ? & ?)]%Hfrom.
        -- right. exists (ns, n), (gs_reads s). split_and!; [by left|done|lia|done].
        -- by left.
        -- right. exists c, t. set_solver.
Qed.
End getter_lemmas.

(** ** The token's framing *)

Lemma be_bytes_length n z : length (be_bytes n z) = n.
Proof. unfold be_bytes. by rewrite length_fmap, length_rev, length_seq. Qed.

Lemma be_bytes_S n z : be_bytes (S n) z = Z.land (Z.shiftr z (8 * Z.of_nat n)) 0xFF :: be_bytes n z.
Proof. unfold be_bytes. rewrite seq_S, rev_app_distr. done. Qed.

Lemma be_word_bytes n z a :
  fold_left (λ a b, a * 256 + b) (be_bytes n z) a = a * 256 ^ Z.of_nat n + z mod 256 ^ Z.of_nat n.
Proof.
  revert a. induction n as [|n IH]; intros a.
  - simpl. rewrite Z.mod_1_r. lia.
  - rewrite be_bytes_S. cbn [fold_left]. rewrite IH.
    change 0xFF with (Z.ones 8). rewrite Z.land_ones, Z.shiftr_div_pow2 by lia.
    replace (2 ^ (8 * Z.of_nat n)) with (256 ^ Z.of_nat n) by (rewrite Z.pow_mul_r by lia; done).
    replace (256 ^ Z.of_nat (S n)) with (256 ^ Z.of_nat n * 256) by
      (rewrite Nat2Z.inj_succ, Z.pow_succ_r by lia; lia).
    rewrite Z.rem_mul_r by lia. change (2 ^ 8) with 256. lia.
Qed.

Lemma be_bytes_inj n z z' :
  0 <= z < 256 ^ Z.of_nat n → 0 <= z' < 256 ^ Z.of_nat n → be_bytes n z = be_bytes n z' → z = z'.
Proof.
  intros Hz Hz' Heq. pose proof (be_word_bytes n z 0) as H1. pose proof (be_word_bytes n z' 0) as H2.
  rewrite Heq, H2, !Z.mod_small in H1 by done. lia.
Qed.

(** A field and what follows it are read off its front. *)
Definition field (s : string) : list Z := be_bytes 8 (go_len s mod 2 ^ 64) ++ bytes_of s.
Definition short (s : string) : Prop := go_len s < 2 ^ 64.

Lemma field_inj s s' l l' : short s → short s' → field s ++ l = field s' ++ l' → s = s' ∧ l = l'.
Proof.
  unfold short, field. intros Hs Hs'. rewrite <- !(assoc_L (++)).
  intros [Hlen Hrest]%app_inj_1; [|by rewrite !be_bytes_length].
  pose proof (go_len_nonneg s). pose proof (go_len_nonneg s').
  apply be_bytes_inj in Hlen; [|apply Z.mod_pos_bound; lia..].
  rewrite !Z.mod_small in Hlen by lia. unfold go_len in Hlen. apply Nat2Z.inj in Hlen.
  apply app_inj_1 in Hrest as [Hb ->]; [|by rewrite !bytes_of_length].
  split; [by apply bytes_of_inj | done].
Qed.

Lemma field_nonempty s l : field s ++ l ≠ [].
Proof. unfold field. by rewrite be_bytes_S. Qed.

Definition identity_fields (id : SecretIdentity) : list string :=
  [id_namespace id; id_name id; id_uid id; id_resource_version id].
Definition identity_short (id : SecretIdentity) : Prop := Forall short (identity_fields id).

Lemma token_buffer_fields ids : token_buffer ids = (ids ≫= identity_fields) ≫= field.
Proof.
  unfold token_buffer. change (fold_left append_identity ids [] = [] ++ (ids ≫= identity_fields) ≫= field).
  generalize (@nil Z) as buf. induction ids as [|id ids IH]; intros buf; cbn [fold_left].
  - by rewrite app_nil_r.
  - rewrite IH. unfold append_identity, append_field. simpl. unfold field.
    by rewrite <- !(assoc_L (++)).
Qed.

Lemma fields_inj (l l' : list string) :
  Forall short l → Forall short l' → l ≫= field = l' ≫= field → l = l'.
Proof.
  intros Hl. revert l'. induction Hl as [|s l Hs _ IH]; intros k [|s' l' Hs' Hl'] Heq; [done|..].
  - by destruct (field_nonempty s' (l' ≫= field)).
  - by destruct (field_nonempty s (l ≫= field)).
  - apply field_inj in Heq as [-> Heq]; [|done..]. f_equal. by apply IH.
Qed.

Lemma identity_fields_inj ids ids' : ids ≫= identity_fields = ids' ≫= identity_fields → ids = ids'.
Proof.
  revert ids'. induction ids as [|[a b c d] ids IH]; intros [|[a' b' c' d'] ids']; simpl; [done..|].
  intros [= -> -> -> -> ->%IH]. done.
Qed.

Definition is_byte (b : Z) : Prop := 0 <= b < 256.

Lemma be_bytes_bytes n z : Forall is_byte (be_bytes n z).
Proof.
  unfold be_bytes. apply Forall_fmap, Forall_true. intros i. unfold is_byte. simpl.
  change 0xFF with (Z.ones 8). rewrite Z.land_ones by lia. by apply Z.mod_pos_bound.
Qed.

Lemma be_word_range l : Forall is_byte l → 0 <= be_word l < 256 ^ Z.of_nat (length l).
Proof.
  unfold be_word. induction l as [|b l IH] using rev_ind; [done|].
  intros [Hl [Hb _]%Forall_cons]%Forall_app. rewrite fold_left_app, length_app. simpl.
  rewrite Nat2Z.inj_add, Z.pow_add_r by lia. specialize (IH Hl). unfold is_byte in Hb. lia.
Qed.

Lemma sha256_bytes l : Forall is_byte (sha256 l).
Proof.
  unfold sha256. apply Forall_join, Forall_fmap, Forall_true. intros w. apply be_bytes_bytes.
Qed.

Lemma int64_range z : 0 <= z < 2 ^ 64 → - 2 ^ 63 <= int64_of z < 2 ^ 63.
Proof. unfold int64_of. intros Hz. case_match; lia. Qed.

Lemma token_range ids h : relatedSecretsToken ids = Some h → - 2 ^ 63 <= h < 2 ^ 63.
Proof.
  destruct ids as [|id ids]; [done|]. intros [= <-]. apply int64_range.
  set (b := take 8 (sha256 (token_buffer (id :: ids)))).
  assert (Hb : Forall is_byte b) by apply Forall_take, sha256_bytes.
  pose proof (be_word_range b Hb) as Hr.
  assert (Hl : (length b <= 8)%nat) by apply firstn_le_length.
  assert (256 ^ Z.of_nat (length b) <= 256 ^ 8) by (apply Z.pow_le_mono_r; lia). lia.
Qed.

(** ** The Secrets of the used backends *)

(** The first occurrences of the elements of a list. *)
Fixpoint first_named (l : list NamespacedName) : list NamespacedName :=
  match l with [] => [] | x :: l => x :: filter (λ y, y ≠ x) (first_named l) end.

Lemma first_named_elem l x : x ∈ first_named l ↔ x ∈ l.
Proof.
  induction l as [|y l IH]; simpl; [done|]. rewrite !elem_of_cons, list_elem_of_filter, IH.
  destruct (decide (x = y)); tauto.
Qed.

Lemma first_named_NoDup l : NoDup (first_named l).
Proof.
  induction l as [|y l IH]; simpl; [constructor|]. constructor; [|by apply NoDup_filter].
  intros [Hn _]%list_elem_of_filter. by apply Hn.
Qed.

Section related.
Context `{GoRuntime}.
Context (p : Pipeline).

(** The shape a backend must have, and the Secret it names. *)
Definition backend_shape_ok (b : PipelineSecretBackend) : Prop :=
  if is_vp p then backend_namespace b = "" else backend_namespace b ≠ "".
#[export] Instance backend_shape_ok_dec b : Decision (backend_shape_ok b).
Proof. unfold backend_shape_ok. destruct (is_vp p); apply _. Defined.
Definition backend_secret (b : PipelineSecretBackend) : NamespacedName :=
  (if is_vp p then GetNamespace p else backend_namespace b, backend_name b).

Lemma check_related_shape_Ok alias b :
  spec_secret (GetSpec p) !! alias = Some b → is_Ok (check_related_shape p alias) ↔ backend_shape_ok b.
Proof.
  intros Hb. unfold check_related_shape, backend_shape_ok, is_Ok. rewrite Hb. simpl.
  destruct (is_vp p); simpl; case_bool_decide; naive_solver.
Qed.

Lemma related_ref_backend alias b :
  spec_secret (GetSpec p) !! alias = Some b → related_ref p alias = backend_secret b.
Proof. intros Hb. unfold related_ref. by rewrite Hb. Qed.

Lemma check_related_shape_Err alias e : check_related_shape p alias = Err e → is_secret_shape_error e = true.
Proof. unfold check_related_shape. case_match; [by intros [= <-]|]. case_match; [by intros [= <-]|done]. Qed.

Lemma add_related_spec aliases seen refs seen' refs' :
  fold_left (add_related p) aliases (seen, refs) = (seen', refs') →
  (∀ ref, is_Some (seen !! ref) ↔ ref ∈ refs) →
  refs' = refs ++ filter (λ ref, ref ∉ refs) (first_named (related_ref p <$> aliases)).
Proof.
  revert seen refs. induction aliases as [|a aliases IH]; intros seen refs; cbn [fold_left].
  - intros [= <- <-] _. by rewrite app_nil_r.
  - intros Hf Hseen. unfold add_related at 2 in Hf. rewrite fmap_cons. cbn [first_named].
    destruct (seen !! related_ref p a) as [b|] eqn:Ha.
    + rewrite (IH _ _ Hf Hseen). assert (Hin : related_ref p a ∈ refs) by (apply Hseen; by rewrite Ha).
      rewrite filter_cons_False by (intros Hn; by apply Hn). f_equal. rewrite list_filter_filter.
      apply list_filter_ext_elem. intros x _. split; [|by intros []]. intros Hx. split; [done|]. by intros ->.
    + assert (Hni : related_ref p a ∉ refs) by (rewrite <- Hseen, Ha; by intros []).
      rewrite (IH _ _ Hf) by (intros ref; rewrite lookup_insert_is_Some', Hseen; set_solver).
      rewrite filter_cons_True by done. rewrite <- (assoc_L (++)). do 2 f_equal.
      rewrite list_filter_filter. apply list_filter_ext_elem. intros x _. set_solver.
Qed.

Lemma mapM_unit_Err {A} (f : A → result unit) l e :
  mapM f l = Err e → ∃ x, x ∈ l ∧ f x = Err e.
Proof.
  induction l as [|x l IH]; simpl; [done|].
  intros [Hx|(u & _ & [Hm|(? & _ & [=])]%bind_Err)]%bind_Err; [exists x; set_solver|].
  destruct (IH Hm) as (y & ? & ?). exists y. set_solver.
Qed.
End related.

Section related_reads.
Context `{GoRuntime}.

(** The Secrets a pipeline uses: those of its used backends in the order of the aliases,
    each where it is named first. *)
Definition used_in_order (p : Pipeline) (used : gset string) (refs : list NamespacedName) : Prop :=
  let declared := spec_secret (GetSpec p) in
  ∃ aliases, StronglySorted (λ a b, String.ltb a b = true) aliases ∧
    (∀ alias, alias ∈ aliases ↔ is_Some (declared !! alias) ∧ alias ∈ used) ∧
    refs = first_named (omap (λ alias, backend_secret p <$> declared !! alias) aliases).

Definition uses (p : Pipeline) (used : gset string) (ref : NamespacedName) : Prop :=
  ∃ alias b, spec_secret (GetSpec p) !! alias = Some b ∧ alias ∈ used ∧ ref = backend_secret p b.

Lemma used_in_order_elem p used refs : used_in_order p used refs → NoDup refs ∧ ∀ ref, ref ∈ refs ↔ uses p used ref.
Proof.
  intros (aliases & _ & Hal & ->). split; [apply first_named_NoDup|]. intros ref.
  rewrite first_named_elem, list_elem_of_omap. unfold uses. split.
  - intros (alias & [[b Hb] Hu]%Hal & Href). rewrite Hb in Href. injection Href as <-. by exists alias, b.
  - intros (alias & b & Hb & Hu & ->). exists alias. rewrite Hal, Hb. eauto.
Qed.

(** The token of some Secrets: what their namespaces, names, uids and versions hash to,
    every one preceded by its length. *)
Definition secrets_token (secrets : list Secret) : option Z :=
  match secrets with
  | [] => None
  | _ => Some (int64_of (be_word (take 8 (sha256
           ((secrets ≫= λ s, [sec_namespace s; sec_name s; sec_uid s; sec_resource_version s]) ≫= field)))))
  end.

Lemma secrets_token_spec secrets : relatedSecretsToken (identity_of <$> secrets) = secrets_token secrets.
Proof.
  assert (Hbuf : token_buffer (identity_of <$> secrets) =
    (secrets ≫= λ s, [sec_namespace s; sec_name s; sec_uid s; sec_resource_version s]) ≫= field).
  { rewrite token_buffer_fields. f_equal. induction secrets as [|s ss IH]; [done|]. by rewrite fmap_cons, !bind_cons, IH. }
  unfold secrets_token. rewrite <- Hbuf. by destruct secrets.
Qed.

Lemma declared_aliases p alias :
  is_Some (spec_secret (GetSpec p) !! alias) ↔
  alias ∈ sort_strings (range_map 34 (spec_secret (GetSpec p))).*1.
Proof.
  unfold sort_strings. rewrite sort_slice_elem_of, list_elem_of_fmap. split.
  - intros [b Hb]. exists (alias, b). split; [done | by apply range_map_lookup].
  - intros ([a b] & -> & Hin%range_map_lookup). by eexists.
Qed.

(** The token of the references that were all read. *)
Lemma token_reads get seen refs :
  let res := identities ← mapM (read_identity get seen) refs; Ok (relatedSecretsToken identities) in
  (∀ tok, res = Ok tok ↔ ∃ secrets,
     Forall2 (λ ref s, get ref.1 ref.2 = Ok s) refs secrets ∧ tok = secrets_token secrets) ∧
  ((∃ e, res = Err e) ↔ ∃ ref e, ref ∈ refs ∧ get ref.1 ref.2 = Err e).
Proof.
  cbv zeta. setoid_rewrite <- secrets_token_spec.
  assert (Hr : ∀ ref id, read_identity get seen ref = Ok id ↔ ∃ s, get ref.1 ref.2 = Ok s ∧ identity_of s = id).
  { intros ref id. unfold read_identity. destruct (get ref.1 ref.2); naive_solver. }
  assert (Hall : ∀ ids, mapM (read_identity get seen) refs = Ok ids ↔
    ∃ secrets, Forall2 (λ ref s, get ref.1 ref.2 = Ok s) refs secrets ∧ ids = identity_of <$> secrets).
  { intros ids. rewrite mapM_Ok. split.
    - induction 1 as [|ref id refs ids (s & Hs & <-)%Hr _ (ss & Hss & ->)]; [by exists []|].
      exists (s :: ss). split; [by constructor | done].
    - intros (ss & Hss & ->). apply Forall2_fmap_r. eapply Forall2_impl; [done|]. intros ref s ?. apply Hr. by exists s. }
  split.
  - intros tok. rewrite bind_Ok. setoid_rewrite Hall. naive_solver.
  - split.
    + intros [e [Hm|(ids & _ & [=])]%bind_Err]. clear Hall. induction refs as [|ref refs IH]; simpl in Hm; [done|].
      apply bind_Err in Hm as [Hm|(id & _ & [Hm|(? & _ & [=])]%bind_Err)].
      * unfold read_identity in Hm. destruct (get ref.1 ref.2) as [s|e'] eqn:Hg; [done|].
        exists ref, e'. split; [by left | done].
      * destruct (IH Hm) as (ref' & e' & ? & ?). exists ref', e'. split; [by right | done].
    + intros (ref & e & Hin & Hg). destruct (mapM (read_identity get seen) refs) as [ids|e'] eqn:Hm; [|by eexists].
      destruct (proj1 (Hall ids) eq_refl) as (ss & Hss & _). apply list_elem_of_lookup in Hin as [i Hi].
      destruct (Forall2_lookup_l _ _ _ _ _ Hss Hi) as (s & _ & Hs). simpl in Hs. congruence.
Qed.

Lemma no_reads (get : string → string → result Secret) tok :
  (Ok None : result (option Z)) = Ok tok ↔ ∃ secrets,
    Forall2 (λ (ref : NamespacedName) s, get ref.1 ref.2 = Ok s) [] secrets ∧ tok = secrets_token secrets.
Proof.
  split; [intros [= <-]; by exists []|]. intros (ss & Hss%Forall2_nil_inv_l & ->). by subst.
Qed.

(** The used ones of the declared aliases, in their order. *)
Lemma used_aliases p (used : gset string) :
  let sel := filter (λ alias, alias ∈ used) (sort_strings (range_map 34 (spec_secret (GetSpec p))).*1) in
  used_in_order p used (first_named (related_ref p <$> sel)).
Proof.
  intros sel. assert (Hsel : ∀ alias, alias ∈ sel ↔ is_Some (spec_secret (GetSpec p) !! alias) ∧ alias ∈ used).
  { intros alias. unfold sel. rewrite list_elem_of_filter, declared_aliases. tauto. }
  exists sel. split; [|split; [done|]].
  - apply StronglySorted_filter. rewrite sort_strings_spec.
    apply StronglySorted_strict; [|apply (StronglySorted_merge_sort String.le); apply _].
    rewrite merge_sort_Permutation. apply range_map_keys_NoDup.
  - f_equal. assert (Hall : Forall (λ alias, is_Some (spec_secret (GetSpec p) !! alias)) sel).
    { apply Forall_forall. intros alias Ha. by apply Hsel. }
    clear Hsel. induction Hall as [|alias sel [b Hb] _ IH]; [done|].
    rewrite fmap_cons, IH. cbn [omap list_omap]. rewrite Hb. simpl. by rewrite (related_ref_backend p alias b).
Qed.

(** What follows the shape check. *)
Lemma related_body (get : string → string → result Secret) p (used : gset string) :
  let sel := filter (λ alias, alias ∈ used) (sort_strings (range_map 34 (spec_secret (GetSpec p))).*1) in
  ∃ refs res,
    (if bool_decide (length sel = 0%nat) then ([], Ok None) else
     let '(seen, refs) := fold_left (add_related p) sel (∅, []) in
     (refs, identities ← mapM (read_identity get seen) refs; Ok (relatedSecretsToken identities)))
    = (refs, res) ∧ used_in_order p used refs ∧
    (∀ tok, res = Ok tok ↔ ∃ secrets,
       Forall2 (λ ref s, get ref.1 ref.2 = Ok s) refs secrets ∧ tok = secrets_token secrets) ∧
    ((∃ e, res = Err e) ↔ ∃ ref e, ref ∈ refs ∧ get ref.1 ref.2 = Err e).
Proof.
  intros sel. pose proof (used_aliases p used) as Hused. cbv zeta in Hused. fold sel in Hused.
  case_bool_decide as Hl.
  - apply length_zero_iff_nil in Hl. rewrite Hl in Hused. exists [], (Ok None).
    split_and!; [done | done | apply no_reads|]. split; [by intros []|]. intros (? & ? & ?%elem_of_nil & _). done.
  - destruct (fold_left (add_related p) sel (∅, [])) as [seen refs] eqn:Hf.
    apply add_related_spec in Hf; [|intros ref; rewrite lookup_empty, is_Some_alt; set_solver].
    assert (Hrefs : refs = first_named (related_ref p <$> sel)).
    { rewrite Hf. simpl. apply list_filter_all, Forall_forall. intros x _. apply not_elem_of_nil. }
    eexists refs, _. split; [done|]. split; [by rewrite Hrefs | apply token_reads].
Qed.
(** What [resolveRelatedSecrets] does with a reader. *)
Lemma resolve_shaped get p used :
  (∀ alias b, spec_secret (GetSpec p) !! alias = Some b → backend_shape_ok p b) →
  let '(refs, res) := resolveRelatedSecrets (Some get) p used in
  used_in_order p used refs ∧
  (∀ tok, res = Ok tok ↔ ∃ secrets,
     Forall2 (λ ref s, get ref.1 ref.2 = Ok s) refs secrets ∧ tok = secrets_token secrets) ∧
  ((∃ e, res = Err e) ↔ ∃ ref e, ref ∈ refs ∧ get ref.1 ref.2 = Err e).
Proof.
  intros Hshape. pose proof (declared_aliases p) as Hal. set (declared := spec_secret (GetSpec p)) in *.
  pose proof (related_body get p used) as (refs & res & Hbody & Hres). fold declared in Hbody.
  unfold resolveRelatedSecrets. fold declared.
  destruct (bool_decide_reflect (size declared = 0%nat)) as [Hz|Hz].
  { apply map_size_empty_iff in Hz. rewrite Hz in Hbody. unfold sort_strings in Hbody. rewrite range_map_empty in Hbody.
    assert (Hnil : sort_slice String.ltb [] = []) by apply Permutation_nil_r, sort_slice_perm.
    rewrite fmap_nil, Hnil in Hbody. by injection Hbody as <- <-. }
  set (aliases := sort_strings (range_map 34 declared).*1) in *.
  destruct (mapM (check_related_shape p) aliases) as [us|e] eqn:Hm; [by rewrite Hbody|].
  apply mapM_unit_Err in Hm as (alias & Ha & He). exfalso. apply Hal in Ha as [b Hb].
  destruct (proj2 (check_related_shape_Ok p alias b Hb) (Hshape alias b Hb)) as [u Hu]. congruence.
Qed.

Lemma resolve_misshaped get p used alias b :
  spec_secret (GetSpec p) !! alias = Some b → ¬ backend_shape_ok p b →
  ∃ e, resolveRelatedSecrets (Some get) p used = ([], Err e) ∧ is_secret_shape_error e = true.
Proof.
  intros Hb Hbad. pose proof (proj1 (declared_aliases p alias) (ex_intro _ b Hb)) as Ha.
  unfold resolveRelatedSecrets. set (declared := spec_secret (GetSpec p)) in *.
  rewrite bool_decide_eq_false_2.
  2: { rewrite map_size_empty_iff. intros Hz. by rewrite Hz, lookup_empty in Hb. }
  destruct (mapM (check_related_shape p) _) as [us|e] eqn:Hm.
  - exfalso. apply mapM_Ok in Hm. apply list_elem_of_lookup in Ha as [i Hi].
    destruct (Forall2_lookup_l _ _ _ _ _ Hm Hi) as (u & _ & Hu). apply Hbad.
    apply (check_related_shape_Ok p alias b); [done | by exists u].
  - exists e. split; [done|]. apply mapM_unit_Err in Hm as (a & _ & He). by eapply check_related_shape_Err.
Qed.

Lemma resolve_none_declared reader p used :
  spec_secret (GetSpec p) = ∅ → resolveRelatedSecrets reader p used = ([], Ok None).
Proof. intros He. unfold resolveRelatedSecrets. by rewrite He, bool_decide_eq_true_2. Qed.

Lemma resolve_no_reader p used :
  spec_secret (GetSpec p) ≠ ∅ →
  ∃ e, resolveRelatedSecrets None p used = ([], Err e) ∧ is_secret_shape_error e = false.
Proof.
  intros Hne. unfold resolveRelatedSecrets. rewrite bool_decide_eq_false_2 by (by rewrite map_size_empty_iff).
  by eexists.
Qed.
End related_reads.

(** ** What a pipeline needs, by its text

    An alias is referred to when a reference to it occurs in a string of the options of
    some component. *)

Section needs.
Context `{GoRuntime, Libraries}.
Context (p : Pipeline).

Definition refers_to (alias : string) : Prop :=
  ∃ cfg options key, UnmarshalJson (GetSpec p) = Ok cfg ∧ component_options cfg options ∧
    {| ref_alias := alias; ref_key := key |} ∈ options_refs options.

Definition well_shaped : Prop := ∀ alias b, spec_secret (GetSpec p) !! alias = Some b → backend_shape_ok p b.

(** The Secrets of the declared backends that are referred to. *)
Definition needs (secret : NamespacedName) : Prop :=
  ∃ alias b, spec_secret (GetSpec p) !! alias = Some b ∧ refers_to alias ∧ secret = backend_secret p b.

(** The Secrets a pipeline needs were all read, and the token is theirs. *)
Definition secrets_read (get : string → string → result Secret) (token : option Z) : Prop :=
  ∃ (used : gset string) refs secrets,
    (∀ alias, alias ∈ used ↔ is_Some (spec_secret (GetSpec p) !! alias) ∧ refers_to alias) ∧
    used_in_order p used refs ∧ Forall2 (λ ref s, get ref.1 ref.2 = Ok s) refs secrets ∧
    token = secrets_token secrets.

(** The token of a round: there is none without backends, or when the components cannot be
    read. *)
Definition token_of (reader : SecretGetter) (token : option Z) : Prop :=
  if decide (spec_secret (GetSpec p) = ∅) then token = None else
  match UnmarshalJson (GetSpec p) with
  | Err _ => token = None
  | Ok _ => ∃ get, reader = Some get ∧ well_shaped ∧ secrets_read get token
  end.

Lemma comps_of_elem i cfg options : options ∈ comps_of i cfg ↔ component_options cfg options.
Proof.
  unfold comps_of, component_options. rewrite !elem_of_app, !list_elem_of_fmap.
  assert (Hr : ∀ A i (m : gmap string A) (a : A), a ∈ (range_map i m).*2 ↔ ∃ k, m !! k = Some a).
  { intros A j m a. rewrite list_elem_of_fmap. split.
    - intros ([k x] & -> & Hk%range_map_lookup). by exists k.
    - intros [k Hk]. exists (k, a). by rewrite range_map_lookup. }
  setoid_rewrite Hr. naive_solver.
Qed.

Lemma UsedSecretBackends_elem used alias :
  UsedSecretBackends p = Ok used → alias ∈ used ↔ is_Some (spec_secret (GetSpec p) !! alias) ∧ refers_to alias.
Proof.
  unfold UsedSecretBackends, refers_to. case_bool_decide as Hd.
  { intros [= <-]. rewrite Hd, lookup_empty. split; [set_solver | by intros [[] _]]. }
  destruct (UnmarshalJson (GetSpec p)) as [cfg|e]; [|done]. intros [= <-].
  rewrite elem_of_list_to_set, list_elem_of_filter, list_elem_of_fmap. apply and_iff_compat_l.
  split.
  - intros ([a key] & -> & (s & Hr & (o & Hs & Ho%comps_of_elem)%list_elem_of_bind)%list_elem_of_bind).
    exists cfg, o, key. split_and!; [done..|]. apply list_elem_of_bind. by exists s.
  - intros (cfg' & o & key & [= <-] & Ho & (s & Hr & Hs)%list_elem_of_bind).
    exists {| ref_alias := alias; ref_key := key |}. split; [done|].
    apply list_elem_of_bind. exists s. split; [done|]. apply list_elem_of_bind. exists o. by rewrite comps_of_elem.
Qed.

Lemma UsedSecretBackends_Ok used :
  UsedSecretBackends p = Ok used → spec_secret (GetSpec p) ≠ ∅ → ∃ cfg, UnmarshalJson (GetSpec p) = Ok cfg.
Proof.
  unfold UsedSecretBackends. intros Hu Hne. rewrite bool_decide_eq_false_2 in Hu by done.
  destruct (UnmarshalJson (GetSpec p)) as [cfg|e]; [by exists cfg | done].
Qed.

Lemma UsedSecretBackends_Err e :
  UsedSecretBackends p = Err e → spec_secret (GetSpec p) ≠ ∅ ∧ ∃ e', UnmarshalJson (GetSpec p) = Err e'.
Proof.
  unfold UsedSecretBackends. case_bool_decide as Hd; [done|]. intros Hu. split; [done|].
  destruct (UnmarshalJson (GetSpec p)) as [cfg|e']; [done | by exists e'].
Qed.

Lemma uses_needs used secret : UsedSecretBackends p = Ok used → uses p used secret ↔ needs secret.
Proof.
  intros Hu. unfold uses, needs. setoid_rewrite (UsedSecretBackends_elem used _ Hu).
  split; [intros (a & b & Hb & [_ Hr] & ->) | intros (a & b & Hb & Hr & ->)]; exists a, b; rewrite ?Hb; eauto.
Qed.
End needs.

(** ** Properties *)

(** Within one reconcile the caching reader is a function of the Secret's name:
    however the API server's answers change, every call for a name returns what the
    first one did, an answer the server gave in this reconcile; every Secret is read
    once. This is what lets the builders and detectors take a pure reader. *)
Lemma secret_getter_pure reader calls :
  (∀ c, c ∈ calls → slash_free c.1) →
  let '(rs, s) := getter_run reader getter_start calls in
  ∃ get : string → string → result Secret,
    rs = (λ c, get c.1 c.2) <$> calls ∧
    gs_reads s = size (list_to_set calls : gset NamespacedName) ∧
    ∀ c, c ∈ calls → ∃ t, (t < gs_reads s)%nat ∧ get c.1 c.2 = reader t c.1 c.2.
Proof.
  intros Hfree. destruct (getter_run reader getter_start calls) as [rs s] eqn:Hr.
  apply getter_run_spec in Hr as (_ & Hsz & _ & Hdom & Hall & Hfrom); [|done]. simpl in *.
  set (get ns n := default (Err (ErrText "")) (gs_cache s !! cache_key (ns, n))).
  assert (Hget : ∀ c r, gs_cache s !! cache_key c = Some r → get c.1 c.2 = r)
    by (intros [ns n] r Hc; unfold get; simpl; by rewrite Hc).
  exists get. split_and!.
  - clear -Hall Hget. induction Hall as [|c r calls rs Hc _ IH]; [done|].
    rewrite fmap_cons. f_equal; [symmetry; by apply Hget | done].
  - rewrite <- Hsz, <- size_dom, Hdom, dom_empty_L, (left_id_L ∅ (∪)).
    assert (Hs : (list_to_set (cache_key <$> calls) : gset string) = set_map cache_key (list_to_set calls : gset NamespacedName))
      by set_solver.
    rewrite Hs. unfold set_map. rewrite size_list_to_set; [by rewrite length_fmap|].
    apply NoDup_fmap_2_strong; [|apply NoDup_elements].
    intros c d. rewrite !elem_of_elements, !elem_of_list_to_set. intros ??. by apply cache_key_inj; apply Hfree.
  - intros c Hc. destruct (proj1 (elem_of_dom (gs_cache s) (cache_key c))) as [r Hk].
    { rewrite Hdom. set_solver. }
    destruct (Hfrom _ _ Hk) as [Hn|(d & t & Hd & Heq & Ht & ->)]; [by rewrite lookup_empty in Hn|].
    apply cache_key_inj in Heq as ->; [|by apply Hfree..]. exists t. split; [done | by apply Hget].
Qed.

(** The change token is absent exactly when no Secret is used, fits the int64 of
    the status, and hashes an input that determines the identities: two lists of
    identities with equal inputs are equal, however their names are crafted. *)
Lemma related_token_framing ids ids' :
  Forall identity_short ids → Forall identity_short ids' →
  (relatedSecretsToken ids = None ↔ ids = []) ∧
  (∀ h, relatedSecretsToken ids = Some h → - 2 ^ 63 <= h < 2 ^ 63) ∧
  (token_buffer ids = token_buffer ids' → ids = ids').
Proof.
  intros Hs Hs'. split_and!; [by destruct ids | apply token_range |].
  rewrite !token_buffer_fields. intros Heq. apply identity_fields_inj.
  apply fields_inj in Heq; [done|apply Forall_bind..]; by eapply Forall_impl.
Qed.

(** C30: the Secrets of a pipeline and its token, on every branch. Without declared backends
    there are none. With some, a context without a reader is an error that is not the
    pipeline's; a declared backend of the wrong shape is a permanent error without
    references, whether or not it is used. Otherwise the references are the Secrets of the
    used backends in the order of the aliases, each once, also when a read fails; the token
    is what the identities read for them hash to in that order, whatever the iteration order
    of the map of the backends, and an error exactly when some read fails. *)
Theorem related_secrets_exact `{GoRuntime} get p used :
  let declared := spec_secret (GetSpec p) in
  (declared = ∅ → ∀ reader, resolveRelatedSecrets reader p used = ([], Ok None)) ∧
  (declared ≠ ∅ → ∃ e, resolveRelatedSecrets None p used = ([], Err e) ∧ is_secret_shape_error e = false) ∧
  let '(refs, res) := resolveRelatedSecrets (Some get) p used in
  ((∃ alias b, declared !! alias = Some b ∧ ¬ backend_shape_ok p b) →
    refs = [] ∧ ∃ e, res = Err e ∧ is_secret_shape_error e = true) ∧
  ((∀ alias b, declared !! alias = Some b → backend_shape_ok p b) →
    used_in_order p used refs ∧ NoDup refs ∧ (∀ ref, ref ∈ refs ↔ uses p used ref) ∧
    (∀ tok, res = Ok tok ↔ ∃ secrets,
       Forall2 (λ ref s, get ref.1 ref.2 = Ok s) refs secrets ∧ tok = secrets_token secrets) ∧
    ((∃ e, res = Err e) ↔ ∃ ref e, ref ∈ refs ∧ get ref.1 ref.2 = Err e)).
Proof.
  intros declared. split; [intros ? reader; by apply resolve_none_declared|].
  split; [apply resolve_no_reader|]. destruct (resolveRelatedSecrets (Some get) p used) as [refs res] eqn:Hr. split.
  - intros (alias & b & Hb & Hbad). destruct (resolve_misshaped get p used alias b Hb Hbad) as (e & He & Hs).
    rewrite He in Hr. injection Hr as <- <-. eauto.
  - intros Hshape. pose proof (resolve_shaped get p used Hshape) as Ht. rewrite Hr in Ht.
    destruct Ht as (Hused & Htok & Herr). destruct (used_in_order_elem _ _ _ Hused). by split_and!.
Qed.

(** ** Witnesses *)

(** A server whose answer to every read after the first is an error. *)
Definition sample_reader (t : nat) (ns name : string) : result Secret :=
  match t with O | S O => sample_get ns name | _ => Err (ErrText "gone") end.
Definition sample_calls : list NamespacedName := [("team", "s1"); ("team", "s2"); ("team", "s1")].

Lemma secret_getter_pure_witness :
  ∃ get : string → string → result Secret,
    (getter_run sample_reader getter_start sample_calls).1 = (λ c, get c.1 c.2) <$> sample_calls.
Proof.
  pose proof (secret_getter_pure sample_reader sample_calls) as Hp.
  destruct (getter_run sample_reader getter_start sample_calls) as [rs s] eqn:Hr.
  destruct Hp as (get & Hrs & _).
  - intros c [->|[->|[->|[]%elem_of_nil]%elem_of_cons]%elem_of_cons]%elem_of_cons; reflexivity.
  - exists get. exact Hrs.
Defined.

Definition sample_identities : list SecretIdentity :=
  [identity_of (sample_secret "s1" "x"); identity_of (sample_secret "s2" "y")].

Lemma related_token_framing_witness :
  relatedSecretsToken sample_identities = None ↔ sample_identities = [].
Proof.
  apply (related_token_framing sample_identities sample_identities);
    repeat (constructor; [repeat (constructor; [vm_compute; reflexivity|]); constructor|]); constructor.
Defined.
