(* ===== verification/Build.v ===== *)
(** * Building a workload's configuration

    [buildAgentConfig] of [src/internal/config/agent.go] and
    [BuildAggregatorConfig] of [src/internal/config/aggregator.go]: the pipelines
    are decoded, checked, renamed and merged, their secret references rewritten and
    resolved. An option map is shared between the component in the configuration
    and the list handed to [processPipelineSecrets], which rewrites it in place;
    here the rewritten options are put back into the component before it is
    inserted. *)

From S2P Require Export SecretRefs Optimize.

Definition ErrNotAllowedSourceType : err :=
  ErrSentinel "ErrNotAllowedSourceType" "type kubernetes_logs only allowed".
Definition ErrClusterScopeNotAllowed : err :=
  ErrSentinel "ErrClusterScopeNotAllowed" "logs from external namespace not allowed".

Definition unmarshal_failed (p : Pipeline) (e : err) : err :=
  ErrWrap ("failed to unmarshal pipeline " +:+ GetName p +:+ ": ") e.

Section merge.
Context `{GoRuntime, Libraries}.

(** The renaming of a transform or a sink and of its inputs. *)
Definition rename_component (p : Pipeline) (kv : string * Component) : string * Component :=
  let '(k, v) := kv in
  let pre := addPrefix (GetNamespace p) (GetName p) in
  (pre k, {| c_name := pre k; c_type := c_type v; c_inputs := pre <$> c_inputs v; c_options := c_options v |}).

(** [cfg.Sources[v.Name] = v], and the same for transforms and sinks. *)
Definition insert_all {A} (l : list (string * A)) (m : gmap string A) : gmap string A :=
  fold_left (λ m '(name, v), <[name := v]> m) l m.

(** The options [processPipelineSecrets] rewrote, back in their components. *)
Definition put_sources (l : list (string * Source)) (opts : list (list (string * value)))
    : list (string * Source) :=
  zip_with (λ '(n, s) o, (n, with_src_options o s)) l opts.
Definition put_components (l : list (string * Component)) (opts : list (list (string * value)))
    : list (string * Component) :=
  zip_with (λ '(n, c) o, (n, with_c_options o c)) l opts.

(** The end of an iteration over the pipelines: the components enter the
    configuration and their references the queue. *)
Definition merge_pipeline (p : Pipeline) (getter : SecretGetter)
    (sources : list (string * Source)) (transforms sinks : list (string * Component))
    (pc : PipelineConfig) (pending : list pendingSecretRef)
    : result (PipelineConfig * list pendingSecretRef) :=
  let comps := (src_options <$> sources.*2) ++ (c_options <$> transforms.*2) ++ (c_options <$> sinks.*2) in
  '(comps, pending) ← processPipelineSecrets p getter comps pending;
  let ns := length sources in
  let nt := length transforms in
  Ok ({| Sources := insert_all (put_sources sources (take ns comps)) (Sources pc);
         Transforms := insert_all (put_components transforms (take nt (drop ns comps))) (Transforms pc);
         Sinks := insert_all (put_components sinks (drop nt (drop ns comps))) (Sinks pc) |}, pending).

(** "Add exporter pipeline" *)
Definition add_exporter (params : VectorConfigParams) (pc : PipelineConfig) : PipelineConfig :=
  if InternalMetrics params && negb (isExporterSinkExists (Sinks pc)) then
    {| Sources := <[DefaultInternalMetricsSourceName := defaultInternalMetricsSource]> (Sources pc);
       Transforms := Transforms pc;
       Sinks := <[DefaultInternalMetricsSinkName := defaultInternalMetricsSink]> (Sinks pc) |}
  else pc.

Definition is_empty_config (pc : PipelineConfig) : bool :=
  bool_decide (size (Sources pc) = 0%nat) && bool_decide (size (Sinks pc) = 0%nat).
End merge.

(** ** The agent *)

Section agent.
Context `{GoRuntime, Libraries}.

(** "Validate source": a VectorPipeline reads the logs of its own namespace. *)
Definition validate_source (p : Pipeline) (k : string) (v : Source) : result Source :=
  if negb (is_vp p) then Ok v else
  if bool_decide (src_type v ≠ KubernetesLogsType) then Err ErrNotAllowedSourceType else
  match labels_parse (src_label_selector v) with
  | Some e => Err (ErrWrap ("invalid pod selector for source " +:+ k +:+ ": ") e)
  | None =>
    match labels_parse (src_ns_selector v) with
    | Some e => Err (ErrWrap ("invalid namespace selector for source " +:+ k +:+ ": ") e)
    | None =>
      let own := NamespaceNameToLabel (GetNamespace p) in
      let selector := if bool_decide (src_ns_selector v = "") then own else src_ns_selector v in
      if bool_decide (selector ≠ own) then Err ErrClusterScopeNotAllowed else
      Ok {| src_name := src_name v; src_type := src_type v; src_ns_selector := selector;
            src_label_selector := src_label_selector v; src_field_selector := src_field_selector v;
            src_use_cache := src_use_cache v; src_options := src_options v |}
    end
  end.

Definition use_cache (params : VectorConfigParams) (v : Source) : Source :=
  {| src_name := src_name v; src_type := src_type v; src_ns_selector := src_ns_selector v;
     src_label_selector := src_label_selector v; src_field_selector := src_field_selector v;
     src_use_cache := if bool_decide (src_type v = KubernetesLogsType) && UseApiServerCache params
                      then true else src_use_cache v;
     src_options := src_options v |}.

(** One iteration of the loop over the sources. *)
Definition agent_source (params : VectorConfigParams) (p : Pipeline) (kv : string * Source)
    : result (string * Source) :=
  let '(k, v) := kv in
  v ← validate_source p k v;
  let name := addPrefix (GetNamespace p) (GetName p) k in
  Ok (name, with_src_name name (use_cache params v)).

Record agent_state := {
  ag_config : PipelineConfig;
  ag_opt_out : gset string;
  ag_pending : list pendingSecretRef
}.

Definition opted_out (p : Pipeline) : bool :=
  bool_decide (map_get (GetAnnotations p) AnnotationConfigOptimization = AnnotationValueDisabled).

(** One iteration of the loop over the pipelines. *)
Definition agent_pipeline (params : VectorConfigParams) (s : agent_state) (p : Pipeline)
    : result agent_state :=
  match UnmarshalJson (GetSpec p) with
  | Err e => Err (unmarshal_failed p e)
  | Ok pc =>
      sources ← mapM (agent_source params p) (range_map 25 (Sources pc));
      let transforms := rename_component p <$> range_map 26 (Transforms pc) in
      let sinks := rename_component p <$> range_map 27 (Sinks pc) in
      '(cfg, pending) ← merge_pipeline p (PipelineSecretGetter params) sources transforms sinks
                          (ag_config s) (ag_pending s);
      Ok {| ag_config := cfg;
            ag_opt_out := if opted_out p then list_to_set sources.*1 ∪ ag_opt_out s else ag_opt_out s;
            ag_pending := pending |}
  end.

Definition agent_init (params : VectorConfigParams) : agent_state :=
  {| ag_config := cfg_pipeline (newVectorConfig params); ag_opt_out := ∅; ag_pending := [] |}.

(** The optimisation always ends ([optimize_total]): the [None] branch is not taken. *)
Definition optimize_if (params : VectorConfigParams) (optOut : gset string) (cfg : VectorConfig) : VectorConfig :=
  if OptimizeSources params then default cfg (optimizeAgentSources cfg optOut) else cfg.

Definition buildAgentConfig (params : VectorConfigParams) (pipelines : list Pipeline) : result VectorConfig :=
  s ← foldM (agent_pipeline params) (agent_init params) pipelines;
  let cfg := with_pipeline (λ _, ag_config s) (newVectorConfig params) in
  let cfg := optimize_if params (ag_opt_out s) cfg in
  let cfg := with_pipeline (add_exporter params) cfg in
  let cfg := if is_empty_config (cfg_pipeline cfg)
             then with_pipeline (λ _, defaultAgentPipelineConfig) cfg else cfg in
  resolvePendingSecrets cfg (PipelineSecretGetter params) (ag_pending s).
End agent.

(** ** The aggregator *)

Section aggregator.
Context `{GoRuntime, Libraries}.

Definition firstKubernetesEventsPort : Z := 42000.

Record aggregator_state := {
  gg_config : PipelineConfig;
  gg_internal : internalConfig;
  gg_port : Z;                      (** [kubernetesEventsPort], an [int32] *)
  gg_pending : list pendingSecretRef
}.

(** What the loop over the sources of one pipeline carries. *)
Record source_state := {
  ss_internal : internalConfig;
  ss_port : Z;
  ss_events_exists : bool           (** [kubernetesEventsAlreadyExists] *)
}.

Definition int32 (z : Z) : Z := (z + 2 ^ 31) mod 2 ^ 32 - 2 ^ 31.

Definition service_name (params : VectorConfigParams) (p : Pipeline) : string :=
  getServiceName (map_get (GetAnnotations p) AnnotationServiceName) (AggregatorName params) (GetName p).

Definition service_port (params : VectorConfigParams) (p : Pipeline) (events : bool) (k : string)
    (port : Z) (proto : protocol) : ServicePort :=
  {| IsKubernetesEvents := events; sp_pipeline_name := GetName p; sp_source_name := k;
     sp_namespace := GetNamespace p; sp_port := port; sp_protocol := proto;
     sp_service_name := service_name params p |}.

(** The default case: a source that listens on an address gets a service port. *)
Definition address_port (params : VectorConfigParams) (p : Pipeline) (k : string) (v : Source)
    (i : internalConfig) : result internalConfig :=
  match assoc_get "address" (src_options v) with
  | None => Ok i
  | Some val =>
      let address := match val with VStr s => s | _ => "" end in
      match split_port address with
      | None => Ok i
      | Some port =>
          match parsePort port with
          | Err e => Err (ErrWrap ("failed to parse port " +:+ port +:+ ": ") e)
          | Ok portN => addServicePort (service_port params p false k portN (extractProtocol (src_options v))) i
          end
      end
  end.

(** One iteration of the loop over the sources. The settings of a
    [kubernetes_events] source keep the name of the source in the pipeline. *)
Definition aggregator_source (params : VectorConfigParams) (p : Pipeline) (s : source_state)
    (kv : string * Source) : result (source_state * (string * Source)) :=
  let '(k, v) := kv in
  let name := addPrefix (GetNamespace p) (GetName p) k in
  if bool_decide (src_type v = kubernetesEventsType) then
    if ss_events_exists s then
      Err (ErrText "pipeline can only contain one source with the type kubernetes_events")
    else
      let settings := plain_source k VectorType [("address", VStr (join_v4 (ss_port s)))] in
      i ← addServicePort (service_port params p true k (ss_port s) ProtocolTCP) (ss_internal s);
      Ok ({| ss_internal := i; ss_port := int32 (ss_port s + 1); ss_events_exists := true |}, (name, settings))
  else
    i ← address_port params p k v (ss_internal s);
    Ok ({| ss_internal := i; ss_port := ss_port s; ss_events_exists := ss_events_exists s |},
        (name, with_src_name name v)).

Fixpoint aggregator_sources (params : VectorConfigParams) (p : Pipeline) (s : source_state)
    (l : list (string * Source)) : result (source_state * list (string * Source)) :=
  match l with
  | [] => Ok (s, [])
  | kv :: l =>
      '(s, src) ← aggregator_source params p s kv;
      '(s, rest) ← aggregator_sources params p s l;
      Ok (s, src :: rest)
  end.

(** One iteration of the loop over the pipelines. *)
Definition aggregator_pipeline (params : VectorConfigParams) (g : aggregator_state) (p : Pipeline)
    : result aggregator_state :=
  match UnmarshalJson (GetSpec p) with
  | Err e => Err (unmarshal_failed p e)
  | Ok pc =>
      '(s, sources) ← aggregator_sources params p
         {| ss_internal := gg_internal g; ss_port := gg_port g; ss_events_exists := false |}
         (range_map 28 (Sources pc));
      let transforms := rename_component p <$> range_map 29 (Transforms pc) in
      let sinks := rename_component p <$> range_map 30 (Sinks pc) in
      '(cfg, pending) ← merge_pipeline p (PipelineSecretGetter params) sources transforms sinks
                          (gg_config g) (gg_pending g);
      Ok {| gg_config := cfg; gg_internal := ss_internal s; gg_port := ss_port s; gg_pending := pending |}
  end.

Definition aggregator_init (params : VectorConfigParams) : aggregator_state :=
  let cfg := newVectorConfig params in
  {| gg_config := cfg_pipeline cfg; gg_internal := internal cfg; gg_port := firstKubernetesEventsPort;
     gg_pending := [] |}.

(** The port of the configuration that replaces an empty one. *)
Definition default_service_port (params : VectorConfigParams) : ServicePort :=
  {| IsKubernetesEvents := false; sp_pipeline_name := DefaultPipelineName;
     sp_source_name := DefaultInternalMetricsSourceName; sp_namespace := DefaultNamespace;
     sp_port := DefaultAggregatorSourcePort; sp_protocol := ProtocolTCP;
     sp_service_name := getServiceName "" (AggregatorName params) DefaultPipelineName |}.

Definition BuildAggregatorConfig (params : VectorConfigParams) (pipelines : list Pipeline)
    : result VectorConfig :=
  g ← foldM (aggregator_pipeline params) (aggregator_init params) pipelines;
  let pc := add_exporter params (gg_config g) in
  let cfg pc i := with_internal (λ _, i) (with_pipeline (λ _, pc) (newVectorConfig params)) in
  cfg ← (if is_empty_config pc then
           i ← addServicePort (default_service_port params) (gg_internal g);
           Ok (cfg defaultAggregatorPipelineConfig i)
         else Ok (cfg pc (gg_internal g)));
  resolvePendingSecrets cfg (PipelineSecretGetter params) (gg_pending g).
End aggregator.

(** ** Lemmas: merging *)

Section merge_lemmas.
Context `{GoRuntime, Libraries}.

Lemma insert_all_lookup {A} (l : list (string * A)) (m : gmap string A) k :
  NoDup l.*1 → insert_all l m !! k = match (list_to_map l : gmap string A) !! k with
                                     | Some v => Some v | None => m !! k end.
Proof. apply fold_insert_lookup. Qed.

Lemma put_sources_names l opts : length opts = length l → (put_sources l opts).*1 = l.*1.
Proof.
  intros Hlen. unfold put_sources. revert opts Hlen.
  induction l as [|[n s] l IH]; intros [|o opts]; simpl; intros Hl; try done. injection Hl as Hl. by rewrite IH.
Qed.

Lemma put_components_names l opts : length opts = length l → (put_components l opts).*1 = l.*1.
Proof.
  intros Hlen. unfold put_components. revert opts Hlen.
  induction l as [|[n s] l IH]; intros [|o opts]; simpl; intros Hl; try done. injection Hl as Hl. by rewrite IH.
Qed.

(** Where an entry of a merged map comes from. *)
Lemma insert_all_Some {A} (l : list (string * A)) (m : gmap string A) k v :
  insert_all l m !! k = Some v → (k, v) ∈ l ∨ m !! k = Some v.
Proof.
  revert m. induction l as [|[k' v'] l IH]; intros m; [by right|]. cbn [insert_all fold_left].
  intros [?|[[<- <-]|[_ ?]]%lookup_insert_Some]%IH; [left; by right | left; by left | by right].
Qed.

Lemma elem_of_put_sources l opts n s :
  (n, s) ∈ put_sources l opts → ∃ s0 o, (n, s0) ∈ l ∧ o ∈ opts ∧ s = with_src_options o s0.
Proof.
  unfold put_sources. intros (i & [n0 s0] & o & [= -> ->] & Hl & Ho)%elem_of_lookup_zip_with_1.
  exists s0, o. eauto using list_elem_of_lookup_2.
Qed.

Lemma elem_of_put_components l opts n c :
  (n, c) ∈ put_components l opts → ∃ c0 o, (n, c0) ∈ l ∧ o ∈ opts ∧ c = with_c_options o c0.
Proof.
  unfold put_components. intros (i & [n0 c0] & o & [= -> ->] & Hl & Ho)%elem_of_lookup_zip_with_1.
  exists c0, o. eauto using list_elem_of_lookup_2.
Qed.

(** Every reference left in the options is a rewritten one, to a key of [P]. *)
Definition refs_closed (P : string → Prop) (pc : PipelineConfig) : Prop :=
  ∀ o, component_options pc o → Forall (λ r, ref_alias r = SecretsBackendName ∧ P (ref_key r)) (options_refs o).

Lemma refs_closed_impl (P Q : string → Prop) pc :
  (∀ f, P f → Q f) → refs_closed P pc → refs_closed Q pc.
Proof. intros HPQ Hp o Ho. eapply Forall_impl; [by apply Hp|]. naive_solver. Qed.

Definition dns_pipeline (p : Pipeline) : Prop := dns_name (GetNamespace p) ∧ dns_name (GetName p).

Lemma rewritten_closed p getter comps comps' pending pending' o' :
  dns_pipeline p →
  processPipelineSecrets p getter comps pending = Ok (comps', pending') → o' ∈ comps' →
  Forall (λ r, ref_alias r = SecretsBackendName ∧ ref_key r ∈ pr_flat <$> pending') (options_refs o').
Proof.
  intros [Hns Hn] (_ & Hrw & refs & -> & Hr)%processPipelineSecrets_Ok Ho.
  apply list_elem_of_lookup in Ho as [i Ho].
  destruct (Forall2_lookup_r _ _ _ _ _ Hrw Ho) as (o & Hoi & Heq).
  rewrite (proj1 Heq Hns Hn), Forall_fmap, Forall_forall. intros r Hin. simpl. split; [done|].
  rewrite fmap_app, elem_of_app. right.
  assert (Hin' : r ∈ refs).
  { rewrite Hr. apply list_elem_of_bind. exists o. eauto using list_elem_of_lookup_2. }
  apply list_elem_of_fmap. exists (pending_of p r). split; [done|]. by apply list_elem_of_fmap_2.
Qed.

Lemma merge_pipeline_closed p getter ss ts ks pc pending pc' pending' :
  dns_pipeline p →
  merge_pipeline p getter ss ts ks pc pending = Ok (pc', pending') →
  refs_closed (λ f, f ∈ pr_flat <$> pending) pc → refs_closed (λ f, f ∈ pr_flat <$> pending') pc'.
Proof.
  intros Hp ([comps q] & Hproc & [= <- <-])%bind_Ok Hpc o Ho.
  assert (Hmono : ∀ f, f ∈ pr_flat <$> pending → f ∈ pr_flat <$> q).
  { apply processPipelineSecrets_Ok in Hproc as (_ & _ & refs & -> & _). intros f.
    rewrite fmap_app. set_solver. }
  assert (Hcase : o ∈ comps ∨ component_options pc o).
  { destruct Ho as [(k & s & Hk & ->)|[(k & c & Hk & ->)|(k & c & Hk & ->)]]; simpl in Hk;
      apply insert_all_Some in Hk as [Hk|Hk].
    - apply elem_of_put_sources in Hk as (s0 & o & _ & Ho & ->). left.
      by apply subseteq_take in Ho.
    - right. left. eauto.
    - apply elem_of_put_components in Hk as (c0 & o & _ & Ho & ->). left.
      by apply subseteq_take, subseteq_drop in Ho.
    - right. right. left. eauto.
    - apply elem_of_put_components in Hk as (c0 & o & _ & Ho & ->). left.
      by apply subseteq_drop, subseteq_drop in Ho.
    - right. right. right. eauto. }
  destruct Hcase as [Hc|Hc]; [by eapply rewritten_closed|].
  eapply Forall_impl; [by apply Hpc|]. naive_solver.
Qed.
End merge_lemmas.

(** ** Lemmas: what the optimisation generates holds no reference *)

Lemma pretty_N_go_no_bracket x s : count_byte 91 (pretty_N_go x s) = count_byte 91 s.
Proof.
  revert s. induction (N.lt_wf_0 x) as [x _ IH]; intros s.
  destruct (decide (x = 0%N)) as [->|Hx]; [by rewrite pretty_N_go_0|].
  rewrite pretty_N_go_step by lia. rewrite IH by (apply N.div_lt; lia). simpl.
  unfold pretty_N_char. by repeat case_match.
Qed.

Lemma itoa_no_bracket z : count_byte 91 (itoa z) = 0%nat.
Proof.
  assert (Hn : ∀ n : N, count_byte 91 (pretty n) = 0%nat).
  { intros n. unfold pretty, pretty_N. case_decide; [done|]. apply pretty_N_go_no_bracket. }
  unfold itoa, pretty, pretty_Z. destruct z; [done | apply Hn |].
  rewrite count_byte_app. simpl. apply Hn.
Qed.

Lemma no_bracket_no_refs s : count_byte 91 s = 0%nat → string_refs s = [].
Proof.
  assert (Hgen : ∀ ps, Pieces s ps → count_byte 91 s = 0%nat → refs_of_pieces ps = []).
  { induction 1 as [|c s ps Hm Hp IH|a k s ps Hv Hp IH]; [done| |].
    - simpl. intros Hs. apply IH. lia.
    - intros Hs. rewrite count_byte_app in Hs. rewrite (render_ref_open a k Hv) in Hs. lia. }
  apply Hgen, Pieces_pieces.
Qed.

Lemma bucket_program_no_refs b : options_refs [("source", VStr (bucket_program b))] = [].
Proof.
  assert (Hb : count_byte 91 (bucket_program b) = 0%nat).
  { unfold bucket_program. rewrite !count_byte_app, itoa_no_bracket. reflexivity. }
  change (string_refs (bucket_program b) ++ [] = []). by rewrite no_bracket_no_refs.
Qed.

Section optimize_closed.
Context `{GoRuntime}.

(** What the optimisation adds: routes, and the program of a bucketer. *)
Definition generated_options (o : list (string * value)) : Prop :=
  (∃ m, o = [("route", str_map m)]) ∨ (∃ b, o = [("source", VStr (bucket_program b))]).

Lemma generated_no_refs o : generated_options o → options_refs o = [].
Proof. intros [[m ->]|[b ->]]; [done | apply bucket_program_no_refs]. Qed.

(** The transforms of a routing are those it started from and generated ones. *)
Definition routing_from (ts : gmap string Component) (r : gmap string Component) : Prop :=
  ∀ k c, r !! k = Some c → ts !! k = Some c ∨ generated_options (c_options c).

Lemma routing_insert ts r k c :
  routing_from ts r → generated_options (c_options c) → routing_from ts (<[k := c]> r).
Proof. intros Hr Hc k' c' [[_ <-]|[_ ?]]%lookup_insert_Some; [by right | by apply Hr]. Qed.

Lemma bucket_steps_from gid l1 l ts r :
  routing_from ts (rt_transforms r) → routing_from ts (rt_transforms (fold_left (bucket_step gid l1) l r)).
Proof.
  revert r. induction l as [|[b members] l IH]; intros r Hr; [done|]. cbn [fold_left].
  apply IH. apply routing_insert; [done|]. left. by eexists.
Qed.

Lemma flat_routing_from ts gid c nss : routing_from ts (rt_transforms (flat_routing ts gid c nss)).
Proof. apply routing_insert; [by left|]. left. by eexists. Qed.

Lemma bucket_routing_from ts gid c nss : routing_from ts (rt_transforms (bucket_routing ts gid c nss)).
Proof.
  apply routing_insert; [|left; by eexists]. apply bucket_steps_from.
  apply routing_insert; [by left|]. right. by eexists.
Qed.

Lemma delete_all_Some (l : list Source) (m : gmap string Source) k s :
  fold_left (λ m src, delete (src_name src) m) l m !! k = Some s → m !! k = Some s.
Proof.
  revert m. induction l as [|s1 l IH]; intros m; [done|]. cbn [fold_left].
  by intros [_ ?]%IH%lookup_delete_Some.
Qed.

(** Collapsing a group of the configuration's sources adds no reference. *)
Lemma collapse_options cfg gid nss sources o :
  component_options (collapseSourceGroup cfg gid nss sources) o →
  component_options cfg o ∨ generated_options o ∨ ∃ s, s ∈ sources ∧ o = src_options s.
Proof.
  destruct sources as [|s0 sources]; [by left|]. unfold collapseSourceGroup.
  intros [(k & s & Hk & ->)|[(k & c & Hk & ->)|(k & c & Hk & ->)]]; simpl in Hk.
  - apply lookup_insert_Some in Hk as [[_ <-]|[_ Hk]].
    + right. right. exists s0. split; [by left | done].
    + left. left. exists k, s. split; [|done].
      by apply (delete_all_Some (s0 :: sources)) in Hk.
  - rewrite lookup_fmap in Hk. apply fmap_Some in Hk as (c0 & Hk & ->). simpl.
    assert (Hf : Transforms cfg !! k = Some c0 ∨ generated_options (c_options c0)).
    { revert Hk. case_match; [apply flat_routing_from | apply bucket_routing_from]. }
    destruct Hf as [Hf|Hf]; [|by auto]. left. right. left. eauto.
  - rewrite lookup_fmap in Hk. apply fmap_Some in Hk as (c0 & Hk & ->). left. right. right. eauto.
Qed.

Lemma collapse_closed P cfg gid nss sources :
  (∀ s, s ∈ sources → Forall (λ r, ref_alias r = SecretsBackendName ∧ P (ref_key r)) (options_refs (src_options s))) →
  refs_closed P cfg → refs_closed P (collapseSourceGroup cfg gid nss sources).
Proof.
  intros Hs Hc o [Ho|[Ho%generated_no_refs|(s & Hin & ->)]]%collapse_options; [by apply Hc | | by apply Hs].
  by rewrite Ho.
Qed.

Lemma optimize_if_inv (I : PipelineConfig → Prop) params optOut cfg :
  (∀ pc gid nss sources sig, I pc →
     (∀ s, s ∈ sources → grouped (cfg_pipeline cfg) optOut sig s) →
     (∀ ns, ns ∈ nss → ∃ s, grouped (cfg_pipeline cfg) optOut sig s ∧ namespace_of s = ns) →
     I (collapseSourceGroup pc gid nss sources)) →
  I (cfg_pipeline cfg) → I (cfg_pipeline (optimize_if params optOut cfg)).
Proof.
  intros Hstep HI. unfold optimize_if. destruct (OptimizeSources params); [|done].
  destruct (optimizeAgentSources cfg optOut) as [cfg'|] eqn:Ho; [|done]. by eapply optimize_inv.
Qed.

Lemma optimize_if_closed P params optOut cfg :
  refs_closed P (cfg_pipeline cfg) → refs_closed P (cfg_pipeline (optimize_if params optOut cfg)).
Proof.
  intros Hc. apply optimize_if_inv; [|done]. intros pc gid nss sources sig Hpc Hs _.
  apply collapse_closed; [|done]. intros s ([k Hk] & _)%Hs. apply Hc. left. eauto.
Qed.
End optimize_closed.

(** ** Lemmas: the end of a build *)

Section finish.
Context `{GoRuntime, Libraries}.

(** The components the operator adds itself hold no reference. *)
Lemma default_no_refs :
  (options_refs (src_options defaultInternalMetricsSource) = [] ∧
   options_refs (c_options defaultInternalMetricsSink) = []) ∧
  (options_refs (src_options defaultAgentSource) = [] ∧
   options_refs (src_options defaultAggregatorSource) = [] ∧ options_refs (c_options defaultSink) = []).
Proof. by vm_compute. Qed.

Lemma add_exporter_closed P params pc : refs_closed P pc → refs_closed P (add_exporter params pc).
Proof.
  intros Hpc. destruct default_no_refs as [[Hs Hk] _]. unfold add_exporter. case_match; [|done].
  intros o [(k & s & Hl & ->)|[Ho|(k & s & Hl & ->)]].
  - simpl in Hl. apply lookup_insert_Some in Hl as [[_ <-]|[_ ?]]; [by rewrite Hs|]. apply Hpc. left. eauto.
  - apply Hpc. right. by left.
  - simpl in Hl. apply lookup_insert_Some in Hl as [[_ <-]|[_ ?]]; [by rewrite Hk|]. apply Hpc. right. right. eauto.
Qed.

Lemma default_config_closed P src :
  options_refs (src_options src) = [] →
  refs_closed P {| Sources := {[DefaultSourceName := src]}; Transforms := ∅;
                   Sinks := {[DefaultSinkName := defaultSink]} |}.
Proof.
  destruct default_no_refs as [_ (_ & _ & Hk)].
  intros Hsrc o [(k & s & Hl & ->)|[(k & c & Hl & ->)|(k & c & Hl & ->)]]; simpl in Hl.
  - apply lookup_singleton_Some in Hl as [_ <-]. by rewrite Hsrc.
  - by rewrite lookup_empty in Hl.
  - apply lookup_singleton_Some in Hl as [_ <-]. by rewrite Hk.
Qed.

Lemma resolvePendingSecrets_Ok cfg getter pending cfg' :
  resolvePendingSecrets cfg getter pending = Ok cfg' →
  cfg_pipeline cfg' = cfg_pipeline cfg ∧ servicePort (internal cfg') = servicePort (internal cfg) ∧
  (pending = [] → cfg' = cfg) ∧
  (pending ≠ [] → resolve_all (default nil_getter getter) pending = Ok (SecretAssets cfg') ∧
                  cfg_secret cfg' = Some directory_backend).
Proof.
  unfold resolvePendingSecrets. destruct pending as [|r pending]; [by intros [= <-]|].
  intros (data & Hd & [= <-])%bind_Ok. by split_and!.
Qed.

Lemma resolved_keys cfg getter pending cfg' f :
  resolvePendingSecrets cfg getter pending = Ok cfg' → f ∈ pr_flat <$> pending →
  is_Some (SecretAssets cfg' !! f).
Proof.
  intros (_ & _ & _ & Hr)%resolvePendingSecrets_Ok (r & -> & Hin)%list_elem_of_fmap.
  destruct Hr as [(_ & Hall & _)%resolve_all_Ok _]; [by intros ->; set_solver|].
  destruct (Hall _ Hin) as (v & _ & Hv). by exists v.
Qed.

Lemma closed_empty P : refs_closed P {| Sources := ∅; Transforms := ∅; Sinks := ∅ |}.
Proof. intros o [(k & s & Hk & _)|[(k & s & Hk & _)|(k & s & Hk & _)]]; simpl in Hk; by rewrite lookup_empty in Hk. Qed.
End finish.

(** ** Properties: references *)

Lemma agent_build_closed `{GoRuntime, Libraries} params ps cfg :
  Forall dns_pipeline ps →
  buildAgentConfig params ps = Ok cfg →
  refs_closed (λ f, is_Some (SecretAssets cfg !! f)) (cfg_pipeline cfg).
Proof.
  intros Hps. unfold buildAgentConfig. intros (s & Hs & Hr)%bind_Ok.
  assert (Hinv : refs_closed (λ f, f ∈ pr_flat <$> ag_pending s) (ag_config s)).
  { eapply (foldM_inv _ (λ s, refs_closed (λ f, f ∈ pr_flat <$> ag_pending s) (ag_config s))); [| |exact Hs].
    - intros s1 p s2 Hp H1. rewrite Forall_forall in Hps. unfold agent_pipeline.
      destruct (UnmarshalJson _) as [pc|e]; [|done].
      intros (ss & _ & ([cfg1 pending1] & Hm & [= <-])%bind_Ok)%bind_Ok. simpl.
      eapply merge_pipeline_closed; [by apply Hps | exact Hm | done].
    - apply closed_empty. }
  pose proof (resolvePendingSecrets_Ok _ _ _ _ Hr) as (Hpc & _). rewrite Hpc.
  eapply (refs_closed_impl (λ f, f ∈ pr_flat <$> ag_pending s)); [intros f; by eapply resolved_keys|].
  case_match.
  - apply default_config_closed, default_no_refs.
  - apply add_exporter_closed. by apply optimize_if_closed.
Qed.

(** C23: the agent's configuration has no dangling secret reference. Whatever the
    pipelines and the optimisation do, every reference left in the options of the
    built configuration is [SECRET[k8s.<flat key>]] with a flat key the assets
    hold. *)
Theorem agent_refs_resolved `{GoRuntime, Libraries} params ps cfg :
  Forall dns_pipeline ps →
  buildAgentConfig params ps = Ok cfg →
  refs_closed (λ f, is_Some (SecretAssets cfg !! f)) (cfg_pipeline cfg).
Proof. apply agent_build_closed. Qed.

Lemma aggregator_build_closed `{GoRuntime, Libraries} params ps cfg :
  Forall dns_pipeline ps →
  BuildAggregatorConfig params ps = Ok cfg →
  refs_closed (λ f, is_Some (SecretAssets cfg !! f)) (cfg_pipeline cfg).
Proof.
  intros Hps. unfold BuildAggregatorConfig. intros (g & Hg & Hfin)%bind_Ok.
  assert (Hinv : refs_closed (λ f, f ∈ pr_flat <$> gg_pending g) (gg_config g)).
  { eapply (foldM_inv _ (λ g, refs_closed (λ f, f ∈ pr_flat <$> gg_pending g) (gg_config g))); [| |exact Hg].
    - intros s1 p s2 Hp H1. rewrite Forall_forall in Hps. unfold aggregator_pipeline.
      destruct (UnmarshalJson _) as [pc|e]; [|done].
      intros ([ss l] & _ & ([cfg1 pending1] & Hm & [= <-])%bind_Ok)%bind_Ok. simpl.
      eapply merge_pipeline_closed; [by apply Hps | exact Hm | done].
    - apply closed_empty. }
  apply bind_Ok in Hfin as (cfg0 & Hc0 & Hr).
  pose proof (resolvePendingSecrets_Ok _ _ _ _ Hr) as (Hpc & _). rewrite Hpc.
  eapply (refs_closed_impl (λ f, f ∈ pr_flat <$> gg_pending g)); [intros f; by eapply resolved_keys|].
  revert Hc0. case_match.
  - intros (i & _ & [= <-])%bind_Ok. apply default_config_closed, default_no_refs.
  - intros [= <-]. by apply add_exporter_closed.
Qed.

(** The aggregator's configuration has no dangling secret reference either. *)
Lemma aggregator_refs_resolved `{GoRuntime, Libraries} params ps cfg :
  Forall dns_pipeline ps →
  BuildAggregatorConfig params ps = Ok cfg →
  refs_closed (λ f, is_Some (SecretAssets cfg !! f)) (cfg_pipeline cfg).
Proof. apply aggregator_build_closed. Qed.

(** ** What a VectorPipeline can read *)

Section scope.
Context `{GoRuntime, Libraries}.

(** A source that reads the logs of one namespace of the pool. *)
Definition own_scope (ps : list Pipeline) (s : Source) : Prop :=
  src_type s = KubernetesLogsType ∧
  ∃ p, p ∈ ps ∧ src_ns_selector s = NamespaceNameToLabel (GetNamespace p).

(** A source that reads the logs of a set of namespaces of the pool. *)
Definition union_scope (ps : list Pipeline) (s : Source) : Prop :=
  src_type s = KubernetesLogsType ∧
  ∃ nss, src_ns_selector s = "kubernetes.io/metadata.name in (" +:+ join "," nss +:+ ")" ∧
    Forall (λ ns, ∃ p, p ∈ ps ∧ GetNamespace p = ns) nss.

Definition sources_all (Q : Source → Prop) (pc : PipelineConfig) : Prop :=
  ∀ k s, Sources pc !! k = Some s → Q s.

Lemma validate_source_Ok p k v v' :
  is_vp p = true → validate_source p k v = Ok v' →
  src_type v = KubernetesLogsType ∧ src_type v' = src_type v ∧ src_options v' = src_options v ∧
  src_ns_selector v' = NamespaceNameToLabel (GetNamespace p).
Proof.
  intros Hp. unfold validate_source. rewrite Hp. simpl.
  case_bool_decide as Ht; [done|]. destruct (labels_parse _); [done|]. destruct (labels_parse _); [done|].
  case_bool_decide as Hs; [done|]. intros [= <-]. simpl. split_and!; try done; by apply dec_stable.
Qed.

Lemma agent_source_scope params ps p kv nv :
  is_vp p = true → p ∈ ps → agent_source params p kv = Ok nv → own_scope ps nv.2.
Proof.
  destruct kv as [k v]. intros Hvp Hp (v' & Hv & [= <-])%bind_Ok.
  destruct (validate_source_Ok _ _ _ _ Hvp Hv) as (Ht & Ht' & _ & Hns).
  split; simpl; [congruence | by exists p].
Qed.

Lemma agent_pipeline_scope params ps s p s' :
  is_vp p = true → p ∈ ps → sources_all (own_scope ps) (ag_config s) →
  agent_pipeline params s p = Ok s' → sources_all (own_scope ps) (ag_config s').
Proof.
  intros Hvp Hp Hs. unfold agent_pipeline. destruct (UnmarshalJson _) as [pc|e]; [|done].
  intros (ss & Hss & ([cfg pending] & Hm & [= <-])%bind_Ok)%bind_Ok. simpl.
  apply bind_Ok in Hm as ([comps q] & _ & [= <- _]). intros k x Hk.
  apply insert_all_Some in Hk as [Hk|Hk]; [|by eapply Hs].
  apply elem_of_put_sources in Hk as (x0 & o & Hin & _ & ->).
  apply mapM_Ok in Hss. apply list_elem_of_lookup in Hin as [i Hi].
  destruct (Forall2_lookup_r _ _ _ _ _ Hss Hi) as (kv & _ & Hkv).
  by apply (agent_source_scope _ ps) in Hkv.
Qed.

Lemma trim_label ns : trim_prefix (NamespaceNameToLabel "") (NamespaceNameToLabel ns) = ns.
Proof. unfold NamespaceNameToLabel. by rewrite trim_prefix_app. Qed.

(** The namespace of a collapsible source is the one it is scoped to. *)
Lemma own_scope_namespace ps s :
  own_scope ps s → singleNamespaceOf s ≠ None → ∃ p, p ∈ ps ∧ GetNamespace p = namespace_of s.
Proof.
  intros (_ & p & Hp & Hs) Hn. exists p. split; [done|]. unfold namespace_of.
  unfold singleNamespaceOf in *. rewrite Hs, trim_label in *. by case_match.
Qed.

Lemma collapse_scope ps cfg0 optOut sig pc gid nss sources :
  sources_all (own_scope ps) cfg0 →
  (∀ s, s ∈ sources → grouped cfg0 optOut sig s) →
  (∀ ns, ns ∈ nss → ∃ s, grouped cfg0 optOut sig s ∧ namespace_of s = ns) →
  sources_all (λ s, own_scope ps s ∨ union_scope ps s) pc →
  sources_all (λ s, own_scope ps s ∨ union_scope ps s) (collapseSourceGroup pc gid nss sources).
Proof.
  intros Hcfg Hs Hns Hpc. destruct sources as [|s0 sources]; [done|]. intros k s. simpl.
  intros [[_ <-]|[_ Hk]]%lookup_insert_Some.
  - right. split; simpl; [apply (Hs s0); by left|]. exists nss. split; [done|].
    apply Forall_forall. intros ns (s & ([k' Hk] & (_ & _ & Hn) & _) & <-)%Hns.
    destruct (own_scope_namespace ps s) as (p & ? & ?); [by eapply Hcfg|done|]. eauto.
  - eapply Hpc. exact (delete_all_Some (s0 :: sources) _ _ _ Hk).
Qed.
End scope.

(** C22: tenancy. In a pool of namespaced pipelines every log source of the built
    agent configuration reads the namespace of a pipeline of the pool, or, where
    the optimisation merged sources, a list of such namespaces; anything else is a
    source the operator adds itself. *)
Theorem agent_tenancy `{GoRuntime, Libraries} params ps cfg :
  Forall (λ p, is_vp p = true) ps →
  buildAgentConfig params ps = Ok cfg →
  ∀ k s, Sources (cfg_pipeline cfg) !! k = Some s →
    own_scope ps s ∨ union_scope ps s ∨
    s = defaultInternalMetricsSource ∨ (s = defaultAgentSource ∧ cfg_pipeline cfg = defaultAgentPipelineConfig).
Proof.
  intros Hps. unfold buildAgentConfig. intros (st & Hst & Hr)%bind_Ok.
  assert (Hinv : sources_all (own_scope ps) (ag_config st)).
  { eapply (foldM_inv _ (λ st, sources_all (own_scope ps) (ag_config st))); [| |exact Hst].
    - intros s1 p s2 Hp H1. rewrite Forall_forall in Hps. apply agent_pipeline_scope; auto.
    - intros k s. simpl. by rewrite lookup_empty. }
  pose proof (resolvePendingSecrets_Ok _ _ _ _ Hr) as (Hpc & _). rewrite Hpc. clear Hr Hpc cfg.
  case_match.
  - intros k s Hk. simpl in Hk. apply lookup_singleton_Some in Hk as [_ <-]. right. right. by right.
  - intros k s. simpl.
    assert (Hopt : sources_all (λ s, own_scope ps s ∨ union_scope ps s)
      (cfg_pipeline (optimize_if params (ag_opt_out st) (with_pipeline (λ _, ag_config st) (newVectorConfig params))))).
    { apply (optimize_if_inv (sources_all (λ s, own_scope ps s ∨ union_scope ps s))).
      - intros pc gid nss sources sig Hpc Hs Hn. by eapply collapse_scope.
      - intros k' s' Hs'. left. by eapply Hinv. }
    unfold add_exporter. case_match; simpl.
    + intros [[_ <-]|[_ Hs]]%lookup_insert_Some; [right; right; by left|].
      destruct (Hopt _ _ Hs); auto.
    + intros Hs. destruct (Hopt _ _ Hs); auto.
Qed.

(** ** Service ports of the aggregator *)

Section ports.
Context `{GoRuntime, Libraries}.

(** Filed ports, all of them port numbers; those of [kubernetes_events] sources lie
    between the first one and the next one to hand out. *)
Definition ports_ok (next : Z) (i : internalConfig) : Prop :=
  ports_filed i ∧
  ∀ k sp, servicePort i !! k = Some sp →
    0 <= sp_port sp <= 65535 ∧
    (IsKubernetesEvents sp = true → firstKubernetesEventsPort <= sp_port sp < next).

Lemma ports_ok_add next next' port i i' :
  ports_ok next i → next <= next' → 0 <= sp_port port <= 65535 →
  (IsKubernetesEvents port = true → firstKubernetesEventsPort <= sp_port port < next') →
  addServicePort port i = Ok i' → ports_ok next' i'.
Proof.
  intros [Hf Hp] Hn Hr He Ha. split; [by eapply addServicePort_filed|].
  apply addServicePort_Ok in Ha as (_ & -> & _). intros k sp [[_ <-]|[_ Hk]]%lookup_insert_Some; [done|].
  apply Hp in Hk as [? Hev]. split; [done|]. intros ?%Hev. lia.
Qed.

Lemma address_port_ok next params p k v i i' :
  ports_ok next i → address_port params p k v i = Ok i' → ports_ok next i'.
Proof.
  intros Hi. unfold address_port. destruct (assoc_get _ _) as [val|]; [|by intros [= <-]].
  destruct (split_port _) as [port|]; [|by intros [= <-]].
  destruct (parsePort port) as [n|e] eqn:Hn; [|done]. apply parsePort_range in Hn.
  intros Ha. eapply (ports_ok_add _ _ _ _ _ Hi); [| | |exact Ha]; simpl; (lia || done).
Qed.

Lemma int32_id z : 0 <= z < 2 ^ 31 → int32 z = z.
Proof. intros. unfold int32. rewrite Z.mod_small; lia. Qed.

(** The loop over one pipeline's sources hands out at most one port. *)
Definition port_room (s : source_state) : Z := if ss_events_exists s then 0 else 1.

Lemma aggregator_source_ports params p s kv s' src :
  aggregator_source params p s kv = Ok (s', src) →
  firstKubernetesEventsPort <= ss_port s → ss_port s + port_room s <= 65536 →
  ports_ok (ss_port s) (ss_internal s) →
  ports_ok (ss_port s') (ss_internal s') ∧
  ss_port s <= ss_port s' ∧ ss_port s' + port_room s' <= ss_port s + port_room s.
Proof.
  destruct kv as [k v]. unfold aggregator_source, port_room, firstKubernetesEventsPort.
  intros Hs Hlo Hhi Hok. case_bool_decide as Ht.
  - destruct (ss_events_exists s); [done|]. apply bind_Ok in Hs as (i & Hi & [= <- _]). simpl.
    rewrite int32_id by lia. split; [|lia].
    eapply (ports_ok_add _ _ _ _ _ Hok); [| | |exact Hi]; unfold firstKubernetesEventsPort; simpl; lia.
  - apply bind_Ok in Hs as (i & Hi & [= <- _]). simpl. split; [|lia]. by eapply address_port_ok.
Qed.

Lemma aggregator_sources_ports params p l s s' out :
  aggregator_sources params p s l = Ok (s', out) →
  firstKubernetesEventsPort <= ss_port s → ss_port s + port_room s <= 65536 →
  ports_ok (ss_port s) (ss_internal s) →
  ports_ok (ss_port s') (ss_internal s') ∧ ss_port s <= ss_port s' <= ss_port s + port_room s.
Proof.
  revert s out. induction l as [|kv l IH]; intros s out; cbn [aggregator_sources].
  - intros [= <- <-] ? ? Hok. split; [done|]. unfold port_room. case_match; lia.
  - intros ([s1 src] & Hs & Hl)%bind_Ok ? ? Hok. apply bind_Ok in Hl as ([s2 rest] & Hl & [= -> <-]).
    destruct (aggregator_source_ports _ _ _ _ _ _ Hs) as (Hok1 & ? & ?); [done..|].
    destruct (IH _ _ Hl) as [? ?]; [lia|lia|done|]. split; [done|lia].
Qed.

Lemma aggregator_pipelines_ports params ps g g' :
  foldM (aggregator_pipeline params) g ps = Ok g' →
  firstKubernetesEventsPort <= gg_port g → gg_port g + Z.of_nat (length ps) <= 65536 →
  ports_ok (gg_port g) (gg_internal g) →
  ports_ok (gg_port g') (gg_internal g') ∧ gg_port g <= gg_port g' <= gg_port g + Z.of_nat (length ps).
Proof.
  revert g. induction ps as [|p ps IH]; intros g; cbn [foldM length].
  - intros [= <-] ? ? Hok. split; [done|lia].
  - intros (g1 & Hg & Hl)%bind_Ok ? ? Hok. unfold aggregator_pipeline in Hg.
    destruct (UnmarshalJson _) as [pc|e]; [|done].
    apply bind_Ok in Hg as ([s srcs] & Hs & ([cfg pending] & _ & [= <-])%bind_Ok).
    apply aggregator_sources_ports in Hs as [Hok1 Hp1]; [|done|unfold port_room; simpl; lia|done].
    unfold port_room in Hp1. simpl in Hp1.
    destruct (IH _ Hl) as [? ?]; simpl in *; [lia|lia|done|]. split; [done|lia].
Qed.
End ports.

(** The aggregator's service ports. Every one is filed under its number and
    protocol (so no two share them) and is a port number, and the sources for
    Kubernetes events get the ports from 42000 on, one per pipeline at most; with
    up to 23536 pipelines none of them leaves the range. *)
Lemma aggregator_ports `{GoRuntime, Libraries} params ps cfg :
  Z.of_nat (length ps) <= 23536 →
  BuildAggregatorConfig params ps = Ok cfg →
  ports_ok (firstKubernetesEventsPort + Z.of_nat (length ps)) (internal cfg).
Proof.
  intros Hlen. unfold BuildAggregatorConfig. intros (g & Hg & (cfg0 & Hc0 & Hr)%bind_Ok)%bind_Ok.
  apply aggregator_pipelines_ports in Hg as [Hok Hport].
  - assert (Hok0 : ports_ok (firstKubernetesEventsPort + Z.of_nat (length ps)) (internal cfg0)).
    { revert Hc0. case_match.
      - intros (i & Hi & [= <-])%bind_Ok. simpl.
        eapply (ports_ok_add _ _ _ _ _ Hok); [| | |exact Hi]; simpl in *;
          unfold DefaultAggregatorSourcePort; (lia || done).
      - intros [= <-]. simpl. destruct Hok as [Hf Hp]. split; [done|]. intros k sp Hk.
        destruct (Hp _ _ Hk) as [? Hev]. split; [done|]. intros ?%Hev. simpl in *. lia. }
    apply resolvePendingSecrets_Ok in Hr as (_ & Hsp & _). destruct Hok0 as [Hf Hp].
    split; intros k sp; rewrite Hsp; [apply Hf | apply Hp].
  - done.
  - unfold aggregator_init, firstKubernetesEventsPort. simpl. lia.
  - split; intros k sp; simpl; by rewrite lookup_empty.
Qed.

(** ** Nothing is lost *)

Section complete.
Context `{GoRuntime, Libraries}.

Lemma insert_all_other {A} (l : list (string * A)) (m : gmap string A) k :
  k ∉ l.*1 → insert_all l m !! k = m !! k.
Proof.
  revert m. induction l as [|[k' v] l IH]; intros m; [done|]. rewrite fmap_cons. simpl.
  intros [Hne Hni]%not_elem_of_cons. cbn [insert_all fold_left].
  change (insert_all l (<[k' := v]> m) !! k = m !! k). by rewrite IH, lookup_insert_ne.
Qed.

Lemma insert_all_elem {A} (l : list (string * A)) (m : gmap string A) k v :
  NoDup l.*1 → (k, v) ∈ l → insert_all l m !! k = Some v.
Proof. intros Hnd Hin. rewrite insert_all_lookup by done. by rewrite (elem_of_list_to_map_1 _ _ _ Hnd Hin). Qed.

Lemma addPrefix_inj ns name k1 k2 : addPrefix ns name k1 = addPrefix ns name k2 → k1 = k2.
Proof. unfold addPrefix. intros Heq%str_app_inj. by apply (str_app_inj "-") in Heq. Qed.

(** Merged options: the pipeline's, with the references rewritten and nothing else changed. *)
Definition merged_options (p : Pipeline) (o o' : list (string * value)) : Prop :=
  refs_rewritten (GetNamespace p) (GetName p) (VMap o) (VMap o') ∧
  (dns_pipeline p → options_refs o' = flat_ref (GetNamespace p) (GetName p) <$> options_refs o).

(** A merged component: the type and the renamed inputs of the pipeline's, and its options. *)
Definition merged_component (p : Pipeline) (m : gmap string Component) (k : string) (v : Component) : Prop :=
  let pre := addPrefix (GetNamespace p) (GetName p) in
  ∃ o, m !! pre k = Some {| c_name := pre k; c_type := c_type v; c_inputs := pre <$> c_inputs v; c_options := o |} ∧
       merged_options p (c_options v) o.

(** A merged source: every field of the pipeline's, but that a VectorPipeline reads its own
    namespace and that the switch of the workload can turn the cache on. *)
Definition merged_source (cache : bool) (p : Pipeline) (m : gmap string Source) (k : string) (v : Source) : Prop :=
  let pre := addPrefix (GetNamespace p) (GetName p) in
  ∃ o, m !! pre k = Some {|
         src_name := pre k; src_type := src_type v;
         src_ns_selector := if is_vp p then NamespaceNameToLabel (GetNamespace p) else src_ns_selector v;
         src_label_selector := src_label_selector v; src_field_selector := src_field_selector v;
         src_use_cache := src_use_cache v || bool_decide (src_type v = KubernetesLogsType) && cache;
         src_options := o |} ∧
       merged_options p (src_options v) o.

(** A pipeline's components are all in the configuration. *)
Record merged (cache : bool) (p : Pipeline) (pc cfg : PipelineConfig) : Prop := {
  merged_sources k v : Sources pc !! k = Some v → merged_source cache p (Sources cfg) k v;
  merged_transforms k v : Transforms pc !! k = Some v → merged_component p (Transforms cfg) k v;
  merged_sinks k v : Sinks pc !! k = Some v → merged_component p (Sinks cfg) k v
}.

Lemma rename_names p l : (rename_component p <$> l).*1 = addPrefix (GetNamespace p) (GetName p) <$> l.*1.
Proof. rewrite <- !list_fmap_compose. apply list_fmap_ext. by intros i [k v] _. Qed.

Lemma prefixed_NoDup p (l : list string) : NoDup l → NoDup (addPrefix (GetNamespace p) (GetName p) <$> l).
Proof. intros Hl. apply NoDup_fmap_2_strong; [|done]. intros x y _ _. apply addPrefix_inj. Qed.

Lemma agent_source_names params p l ss :
  mapM (agent_source params p) l = Ok ss → ss.*1 = addPrefix (GetNamespace p) (GetName p) <$> l.*1.
Proof.
  intros Hl%mapM_Ok. induction Hl as [|[k v] nv l ss Hv _ IH]; [done|].
  apply bind_Ok in Hv as (v' & _ & [= <-]). rewrite !fmap_cons, IH. done.
Qed.

Lemma zip_with_at {A B C} (f : A → B → C) l k i x y :
  l !! i = Some x → k !! i = Some y → f x y ∈ zip_with f l k.
Proof. intros Hl Hk. apply list_elem_of_lookup. exists i. by rewrite lookup_zip_with, Hl, Hk. Qed.

(** The component at one place of the list, with the options put back. *)
Lemma put_component_at p (m : list (string * Component)) opts i k v o (base : gmap string Component) :
  m !! i = Some (k, v) → opts !! i = Some o → NoDup m.*1 → length opts = length m →
  insert_all (put_components (rename_component p <$> m) opts) base !! addPrefix (GetNamespace p) (GetName p) k =
    Some (with_c_options o (rename_component p (k, v)).2).
Proof.
  intros Hm Ho Hnd Hlen. apply insert_all_elem.
  - rewrite put_components_names, rename_names by (by rewrite length_fmap). by apply prefixed_NoDup.
  - apply (zip_with_at (λ '(n, c) o, (n, with_c_options o c)) _ _ i (rename_component p (k, v)) o);
      [by rewrite list_lookup_fmap, Hm | done].
Qed.

Lemma put_source_at (ss : list (string * Source)) opts i n s o (base : gmap string Source) :
  ss !! i = Some (n, s) → opts !! i = Some o → NoDup ss.*1 → length opts = length ss →
  insert_all (put_sources ss opts) base !! n = Some (with_src_options o s).
Proof.
  intros Hm Ho Hnd Hlen. apply insert_all_elem; [by rewrite put_sources_names|].
  by apply (zip_with_at (λ '(n, s) o, (n, with_src_options o s)) _ _ i (n, s) o).
Qed.

(** The options of the three lists, one after the other. *)
Lemma rewritten_parts p (a b c : list (list (string * value))) comps' :
  Forall2 (rewritten p) (a ++ b ++ c) comps' →
  Forall2 (rewritten p) a (take (length a) comps') ∧
  Forall2 (rewritten p) b (take (length b) (drop (length a) comps')) ∧
  Forall2 (rewritten p) c (drop (length b) (drop (length a) comps')).
Proof.
  intros (a' & bc' & Ha & (b' & c' & Hb & Hc & ->)%Forall2_app_inv_l & ->)%Forall2_app_inv_l.
  rewrite (Forall2_length _ _ _ Ha), take_app_length, drop_app_length.
  by rewrite (Forall2_length _ _ _ Hb), take_app_length, drop_app_length.
Qed.

Lemma rewritten_merged p o o' : rewritten p o o' → merged_options p o o'.
Proof. intros [Hr Hw]. split; [done|]. intros [? ?]. by apply Hr. Qed.

Lemma merged_components_at p j (m : gmap string Component) opts (base : gmap string Component) k v :
  m !! k = Some v → Forall2 (rewritten p) (c_options <$> (rename_component p <$> range_map j m).*2) opts →
  merged_component p (insert_all (put_components (rename_component p <$> range_map j m) opts) base) k v.
Proof.
  intros Hk%(range_map_lookup j) Hr. apply list_elem_of_lookup in Hk as [i Hi].
  destruct (Forall2_lookup_l _ _ _ i (c_options v) Hr) as (o & Ho & Hrw).
  { by rewrite !list_lookup_fmap, Hi. }
  pose proof (Forall2_length _ _ _ Hr) as Hlen. rewrite !length_fmap in Hlen.
  exists o. rewrite (put_component_at p _ opts i k v o) by (done || apply range_map_keys_NoDup).
  split; [done | by apply rewritten_merged].
Qed.

Lemma agent_pipeline_merges params s p pc s' :
  UnmarshalJson (GetSpec p) = Ok pc → agent_pipeline params s p = Ok s' → merged (UseApiServerCache params) p pc (ag_config s').
Proof.
  intros Hu. unfold agent_pipeline. rewrite Hu.
  intros (ss & Hss & ([cfg pending] & Hm & [= <-])%bind_Ok)%bind_Ok. simpl.
  apply bind_Ok in Hm as ([comps q] & (_ & Hrw & _)%processPipelineSecrets_Ok & [= <- _]).
  apply rewritten_parts in Hrw as (Hs & Ht & Hk).
  rewrite !length_fmap in Hs. rewrite !length_fmap in Ht. rewrite !length_fmap in Hk. rewrite !length_fmap.
  split; simpl; intros k v Hv; [|by apply merged_components_at..].
  apply (range_map_lookup 25), list_elem_of_lookup in Hv as [i Hi].
  pose proof (agent_source_names _ _ _ _ Hss) as Hnames. apply mapM_Ok in Hss.
  destruct (Forall2_lookup_l _ _ _ i (k, v) Hss Hi) as ([n x] & Hx & Hax).
  destruct (Forall2_lookup_l _ _ _ i (src_options x) Hs) as (o & Ho & Hro).
  { by rewrite !list_lookup_fmap, Hx. }
  pose proof (Forall2_length _ _ _ Hs) as Hlen. rewrite !length_fmap in Hlen.
  assert (Hfacts : n = addPrefix (GetNamespace p) (GetName p) k ∧ x = {|
    src_name := n; src_type := src_type v;
    src_ns_selector := if is_vp p then NamespaceNameToLabel (GetNamespace p) else src_ns_selector v;
    src_label_selector := src_label_selector v; src_field_selector := src_field_selector v;
    src_use_cache := src_use_cache v || bool_decide (src_type v = KubernetesLogsType) && UseApiServerCache params;
    src_options := src_options v |}).
  { apply bind_Ok in Hax as (v' & Hv' & [= <- <-]). split; [done|].
    assert (Hsrc : v' = {| src_name := src_name v; src_type := src_type v;
      src_ns_selector := if is_vp p then NamespaceNameToLabel (GetNamespace p) else src_ns_selector v;
      src_label_selector := src_label_selector v; src_field_selector := src_field_selector v;
      src_use_cache := src_use_cache v; src_options := src_options v |}).
    { revert Hv'. unfold validate_source. destruct (is_vp p); simpl; [|by destruct v; intros [= <-]].
      set (own := NamespaceNameToLabel (GetNamespace p)). case_bool_decide; [done|].
      do 2 (case_match; [done|]). destruct (bool_decide (src_ns_selector v = "")); case_bool_decide as Hne; try done.
      - by intros [= <-].
      - intros [= <-]. by f_equal. }
    rewrite Hsrc. unfold use_cache, with_src_name. simpl. f_equal.
    by destruct (src_use_cache v), (_ && _). }
  destruct Hfacts as [-> ->]. eexists. split; [|by apply rewritten_merged, Hro].
  rewrite (put_source_at _ _ _ _ _ _ _ Hx Ho); [done | |done].
  rewrite Hnames. apply prefixed_NoDup, range_map_keys_NoDup.
Qed.

(** Two pipelines share no component name. *)
Definition component_names (pc : PipelineConfig) : gset string :=
  dom (Sources pc) ∪ dom (Transforms pc) ∪ dom (Sinks pc).

Definition apart (p q : Pipeline) : Prop :=
  ∀ pc qc k k', UnmarshalJson (GetSpec p) = Ok pc → UnmarshalJson (GetSpec q) = Ok qc →
    k ∈ component_names pc → k' ∈ component_names qc →
    addPrefix (GetNamespace p) (GetName p) k ≠ addPrefix (GetNamespace q) (GetName q) k'.

Lemma range_map_dom {A} i (m : gmap string A) k : k ∈ (range_map i m).*1 → k ∈ dom m.
Proof. intros ([k' v] & -> & Hk%range_map_lookup)%list_elem_of_fmap. by apply elem_of_dom_2 in Hk. Qed.

Lemma agent_pipeline_keeps params s p q pc s' :
  apart p q → UnmarshalJson (GetSpec p) = Ok pc → merged (UseApiServerCache params) p pc (ag_config s) →
  agent_pipeline params s q = Ok s' → merged (UseApiServerCache params) p pc (ag_config s').
Proof.
  intros Hap Hu [Hms Hmt Hmk]. unfold agent_pipeline. destruct (UnmarshalJson (GetSpec q)) as [qc|e] eqn:Hq; [|done].
  intros (ss & Hss & ([cfg pending] & Hm & [= <-])%bind_Ok)%bind_Ok. simpl.
  apply bind_Ok in Hm as ([comps q'] & (_ & Hrw & _)%processPipelineSecrets_Ok & [= <- _]).
  apply rewritten_parts in Hrw as (Hs & Ht & Hk).
  apply Forall2_length in Hs, Ht, Hk. rewrite !length_fmap in Hs. rewrite !length_fmap in Ht.
  rewrite !length_fmap in Hk. rewrite !length_fmap.
  assert (Hout : ∀ k (l : list string), k ∈ component_names pc → (∀ k', k' ∈ l → k' ∈ component_names qc) →
    addPrefix (GetNamespace p) (GetName p) k ∉ addPrefix (GetNamespace q) (GetName q) <$> l).
  { intros k l Hk1 Hl (k' & Heq & Hk2)%list_elem_of_fmap. by apply (Hap pc qc k k'); auto. }
  split; simpl; intros k v Hv.
  - destruct (Hms k v Hv) as (x & Hx & ?). exists x. split; [|done]. rewrite insert_all_other; [done|].
    rewrite put_sources_names, (agent_source_names _ _ _ _ Hss) by done. apply Hout.
    + unfold component_names. apply elem_of_dom_2 in Hv. set_solver.
    + intros k' ?%range_map_dom. unfold component_names. set_solver.
  - destruct (Hmt k v Hv) as (o & Ho & ?). exists o. split; [|done]. rewrite insert_all_other; [done|].
    rewrite put_components_names, rename_names by (by rewrite !length_fmap). apply Hout.
    + unfold component_names. apply elem_of_dom_2 in Hv. set_solver.
    + intros k' ?%range_map_dom. unfold component_names. set_solver.
  - destruct (Hmk k v Hv) as (o & Ho & ?). exists o. split; [|done]. rewrite insert_all_other; [done|].
    rewrite put_components_names, rename_names by (by rewrite !length_fmap). apply Hout.
    + unfold component_names. apply elem_of_dom_2 in Hv. set_solver.
    + intros k' ?%range_map_dom. unfold component_names. set_solver.
Qed.

Lemma agent_pipelines_merge params s ps s' p pc :
  foldM (agent_pipeline params) s ps = Ok s' → NoDup ps →
  (∀ q1 q2, q1 ∈ ps → q2 ∈ ps → q1 ≠ q2 → apart q1 q2) →
  p ∈ ps → UnmarshalJson (GetSpec p) = Ok pc → merged (UseApiServerCache params) p pc (ag_config s').
Proof.
  intros Hf Hnd Hap Hp Hu. apply list_elem_of_split in Hp as (l1 & l2 & ->).
  rewrite foldM_app in Hf. apply bind_Ok in Hf as (s1 & _ & Hf). cbn [foldM] in Hf.
  apply bind_Ok in Hf as (s2 & Hs & Hf). apply agent_pipeline_merges with (pc := pc) in Hs; [|done].
  eapply (foldM_inv _ (λ s, merged (UseApiServerCache params) p pc (ag_config s))); [|exact Hs|exact Hf].
  intros s3 q s4 Hq H3 H4. eapply agent_pipeline_keeps; [|exact Hu|exact H3|exact H4].
  apply NoDup_app in Hnd as (_ & _ & [Hni _]%NoDup_cons).
  apply Hap; [set_solver..|]. by intros ->.
Qed.

(** The names the operator gives its own components have no hyphen. *)
Lemma addPrefix_hyphen ns name k s : count_byte 45 s = 0%nat → addPrefix ns name k ≠ s.
Proof.
  intros Hs <-. unfold addPrefix in Hs. rewrite !count_byte_app in Hs. simpl in Hs. lia.
Qed.

Lemma add_exporter_merged b params p pc cfg : merged b p pc cfg → merged b p pc (add_exporter params cfg).
Proof.
  intros [Hs Ht Hk]. unfold add_exporter. case_match; [|done]. split; [|done|]; simpl; intros k v Hv.
  - destruct (Hs k v Hv) as (x & Hx & ?). exists x. split; [|done].
    rewrite lookup_insert_ne; [done|]. intros Heq. by eapply addPrefix_hyphen; [|symmetry; exact Heq].
  - destruct (Hk k v Hv) as (o & Ho & ?). exists o. split; [|done].
    rewrite lookup_insert_ne; [done|]. intros Heq. by eapply addPrefix_hyphen; [|symmetry; exact Heq].
Qed.

Lemma merged_nonempty b p pc cfg :
  merged b p pc cfg → is_empty_config cfg = true → Sources pc = ∅ ∧ Sinks pc = ∅.
Proof.
  intros [Hs _ Hk] [He1%bool_decide_eq_true He2%bool_decide_eq_true]%andb_true_iff.
  apply map_size_empty_inv in He1, He2. split; apply map_empty; intros k; apply eq_None_not_Some; intros [v Hv].
  - destruct (Hs k v Hv) as (x & Hx & _). by rewrite He1, lookup_empty in Hx.
  - destruct (Hk k v Hv) as (o & Ho & _). by rewrite He2, lookup_empty in Ho.
Qed.
End complete.

(** C24: the agent's configuration, without the optimisation of the sources, is complete
    and alters nothing. When no two pipelines of the pool share a prefixed component name,
    every source, transform and sink of every pipeline is in the configuration under its
    prefixed name, with its type, its inputs prefixed alike and its options: the same keys,
    shape, scalars and text, but for the references, which are rewritten. Of a source, the
    selectors are those of the pipeline (the namespace of a VectorPipeline is its own), and
    the cache is on if the pipeline or the workload says so. Only a configuration without
    sources and sinks is replaced by the default one. *)
Theorem agent_config_complete `{GoRuntime, Libraries} params ps cfg p pc :
  OptimizeSources params = false →
  NoDup ps →
  (∀ q1 q2, q1 ∈ ps → q2 ∈ ps → q1 ≠ q2 → apart q1 q2) →
  buildAgentConfig params ps = Ok cfg →
  p ∈ ps → UnmarshalJson (GetSpec p) = Ok pc →
  merged (UseApiServerCache params) p pc (cfg_pipeline cfg) ∨
  (Sources pc = ∅ ∧ Sinks pc = ∅ ∧ cfg_pipeline cfg = defaultAgentPipelineConfig).
Proof.
  intros Hno Hnd Hap Hb Hp Hu. unfold buildAgentConfig in Hb. apply bind_Ok in Hb as (s & Hs & Hr).
  pose proof (agent_pipelines_merge _ _ _ _ _ _ Hs Hnd Hap Hp Hu) as Hm.
  apply resolvePendingSecrets_Ok in Hr as (-> & _).
  unfold optimize_if. rewrite Hno. case_match eqn:He.
  - right. apply (merged_nonempty (UseApiServerCache params) p pc) in He as [? ?]; [done|]. simpl. by apply add_exporter_merged.
  - left. simpl. by apply add_exporter_merged.
Qed.

(** ** Component names can collide *)

(** A pipeline [a-b] of the namespace [team] and a pipeline [b] of the namespace
    [team-a], whose components of the same name get the same prefixed name. *)
Definition sample_team : Pipeline := sample_vp "team" "a-b" 1 (sample_spec ∅ "t1").
Definition sample_team_a : Pipeline := sample_vp "team-a" "b" 2 (sample_spec ∅ "t2").

Definition sample_params : VectorConfigParams :=
  {| AggregatorName := "agg"; ApiEnabled := false; PlaygroundEnabled := false; UseApiServerCache := false;
     InternalMetrics := false; params_ExpireMetricsSecs := None; OptimizeSources := false;
     PipelineSecretGetter := sample_getter |}.

(** Nothing guards against pipelines of different namespaces whose prefixed
    component names coincide: the build succeeds, and the later pipeline's source and
    sink replace the earlier one's. *)
Lemma component_names_collide :
  pipelineID sample_team ≠ pipelineID sample_team_a ∧
  ∃ cfg, @buildAgentConfig stable_runtime _ sample_params [sample_team; sample_team_a] = Ok cfg ∧
    (map_to_list (Sources (cfg_pipeline cfg))).*1 = ["team-a-b-in"] ∧
    (src_ns_selector <$> (map_to_list (Sources (cfg_pipeline cfg))).*2) = [NamespaceNameToLabel "team-a"] ∧
    (map_to_list (Sinks (cfg_pipeline cfg))).*1 = ["team-a-b-out"].
Proof. split; [done|]. eexists. split; [vm_compute; reflexivity|]. by vm_compute. Qed.

(** ** Witnesses *)

Definition sample_agent_build : result VectorConfig :=
  @buildAgentConfig stable_runtime _ sample_params [sample_a].

Definition holds_of (r : result VectorConfig) (P : VectorConfig → Prop) : Prop :=
  match r with Ok cfg => P cfg | Err _ => False end.

Lemma agent_refs_resolved_witness :
  holds_of sample_agent_build (λ cfg, refs_closed (λ f, is_Some (SecretAssets cfg !! f)) (cfg_pipeline cfg)).
Proof.
  unfold holds_of, sample_agent_build.
  destruct (@buildAgentConfig stable_runtime _ sample_params [sample_a]) as [cfg|e] eqn:Hb; [|vm_compute in Hb; discriminate].
  apply (@agent_refs_resolved stable_runtime _ sample_params [sample_a] cfg); [|exact Hb].
  repeat constructor.
Defined.

Lemma agent_tenancy_witness :
  holds_of sample_agent_build (λ cfg,
    ∀ k s, Sources (cfg_pipeline cfg) !! k = Some s →
      own_scope [sample_a] s ∨ union_scope [sample_a] s ∨ s = defaultInternalMetricsSource ∨
      (s = defaultAgentSource ∧ cfg_pipeline cfg = defaultAgentPipelineConfig)).
Proof.
  unfold holds_of, sample_agent_build.
  destruct (@buildAgentConfig stable_runtime _ sample_params [sample_a]) as [cfg|e] eqn:Hb; [|vm_compute in Hb; discriminate].
  apply (@agent_tenancy stable_runtime _ sample_params [sample_a] cfg); [|exact Hb].
  repeat constructor.
Defined.

Lemma agent_config_complete_witness :
  holds_of sample_agent_build (λ cfg,
    match @UnmarshalJson stable_runtime _ (GetSpec sample_a) with
    | Ok pc => merged false sample_a pc (cfg_pipeline cfg) ∨
               (Sources pc = ∅ ∧ Sinks pc = ∅ ∧ cfg_pipeline cfg = defaultAgentPipelineConfig)
    | Err _ => False
    end).
Proof.
  unfold holds_of, sample_agent_build.
  destruct (@buildAgentConfig stable_runtime _ sample_params [sample_a]) as [cfg|e] eqn:Hb; [|vm_compute in Hb; discriminate].
  destruct (@UnmarshalJson stable_runtime _ (GetSpec sample_a)) as [pc|e] eqn:Hu; [|vm_compute in Hu; discriminate].
  apply (@agent_config_complete stable_runtime _ sample_params [sample_a] cfg).
  - reflexivity.
  - apply NoDup_singleton.
  - intros q1 q2 ->%list_elem_of_singleton ->%list_elem_of_singleton Hne. exact (False_ind _ (Hne eq_refl)).
  - exact Hb.
  - by apply list_elem_of_singleton.
  - exact Hu.
Defined.

(** An aggregator pipeline that listens for Kubernetes events and on a port. *)
Definition sample_events : Pipeline :=
  sample_vp "team" "events" 3
    {| spec_sources := Some {| re_raw :=
         js "{'ev':{'type':'kubernetes_events'},'tcp':{'type':'socket','mode':'udp','address':'0.0.0.0:9000'}}" |};
       spec_transforms := None;
       spec_sinks := Some {| re_raw := js "{'out':{'type':'blackhole','inputs':['ev'],'k':'SECRET[c.k]'}}" |};
       spec_secret := {["c" := sample_backend "s2"]} |}.

Definition sample_aggregator_build : result VectorConfig :=
  @BuildAggregatorConfig stable_runtime _ sample_params [sample_events].

Example sample_aggregator_ports :
  holds_of sample_aggregator_build (λ cfg, (map_to_list (servicePort (internal cfg))).*1 = ["9000/UDP"; "42000/TCP"]).
Proof. by vm_compute. Qed.

Lemma aggregator_refs_resolved_witness :
  holds_of sample_aggregator_build (λ cfg, refs_closed (λ f, is_Some (SecretAssets cfg !! f)) (cfg_pipeline cfg)).
Proof.
  unfold holds_of, sample_aggregator_build.
  destruct (@BuildAggregatorConfig stable_runtime _ sample_params [sample_events]) as [cfg|e] eqn:Hb; [|vm_compute in Hb; discriminate].
  apply (@aggregator_refs_resolved stable_runtime _ sample_params [sample_events] cfg); [|exact Hb].
  repeat constructor.
Defined.

Lemma aggregator_ports_witness :
  holds_of sample_aggregator_build (λ cfg, ports_ok 42001 (internal cfg)).
Proof.
  unfold holds_of, sample_aggregator_build.
  destruct (@BuildAggregatorConfig stable_runtime _ sample_params [sample_events]) as [cfg|e] eqn:Hb; [|vm_compute in Hb; discriminate].
  apply (@aggregator_ports stable_runtime _ sample_params [sample_events] cfg); [|exact Hb].
  vm_compute. discriminate.
Defined.
