(* ===== verification/SecretPlan.v ===== *)
(** * Sharing one Secret between pipelines: flat keys

    [src/internal/config/secrets.go], [gatherPendingSecretsByPipeline] and
    [DetectSecretCollisions]: every pipeline a workload selects stages its secret
    values in one assets Secret, so flat keys can collide. The greedy pass visits
    the pipelines oldest first and decides who is left out; its outcome is
    characterised by [collision_report], which does not mention the pass. *)

From S2P Require Export SecretRefs.

(** ** Gathering *)

Section gather.
Context `{GoRuntime, Libraries}.
Context (getter : SecretGetter).

(** One iteration of the loop over the pipelines. *)
Definition gather_step (st : gmap string Pipeline * list pendingSecretRef) (p : Pipeline)
    : result (gmap string Pipeline * list pendingSecretRef) :=
  let '(byID, pending) := st in
  match UnmarshalJson (GetSpec p) with
  | Err e => Err (ErrWrap ("pipeline " +:+ pipelineID p +:+ ": ") e)
  | Ok cfg =>
      '(_, pending) ← processPipelineSecrets p getter (comps_of 9 cfg) pending;
      Ok (<[pipelineID p := p]> byID, pending)
  end.

Definition group_refs (pending : list pendingSecretRef) : gmap string (list pendingSecretRef) :=
  fold_left (λ m ref, <[pr_pipeline ref := default [] (m !! pr_pipeline ref) ++ [ref]]> m) pending ∅.

Definition creation_of (byID : gmap string Pipeline) (id : string) : Z :=
  default 0 (GetCreationTimestamp <$> byID !! id).

(** The comparator of [orderedIDs]. *)
Definition older_id (byID : gmap string Pipeline) (i j : string) : bool :=
  let ti := creation_of byID i in
  let tj := creation_of byID j in
  if negb (ti =? tj) then ti <? tj else String.ltb i j.

Definition gatherPendingSecretsByPipeline (pipelines : list Pipeline)
    : result (gmap string Pipeline * gmap string (list pendingSecretRef) * list string) :=
  '(byID, pending) ← foldM gather_step (∅, []) pipelines;
  let byPipeline := group_refs pending in
  let orderedIDs := sort_slice (older_id byID) (range_map 11 byPipeline).*1 in
  Ok (byID, byPipeline, orderedIDs).
End gather.

(** ** Collisions *)

Record SecretCollision := {
  sc_victim : Pipeline;
  sc_flat_key : string;
  sc_survivor : string
}.

Record acceptedOwner := {
  ao_resolveNS : string;
  ao_secretName : string;
  ao_key : string;
  ao_id : string
}.

Definition ao_tuple (o : acceptedOwner) : string * string * string :=
  (ao_resolveNS o, ao_secretName o, ao_key o).

(** The first reference, in the order given, whose key an accepted pipeline owns
    under another tuple. *)
Fixpoint first_conflict (accepted : gmap string acceptedOwner) (refs : list pendingSecretRef)
    : option (pendingSecretRef * acceptedOwner) :=
  match refs with
  | [] => None
  | ref :: refs =>
      match accepted !! pr_flat ref with
      | None => first_conflict accepted refs
      | Some owner => if bool_decide (ao_tuple owner = pr_tuple ref) then first_conflict accepted refs
                      else Some (ref, owner)
      end
  end.

(** The keys an accepted pipeline claims. *)
Definition claim (id : string) (accepted : gmap string acceptedOwner) (refs : list pendingSecretRef)
    : gmap string acceptedOwner :=
  fold_left (λ acc ref,
    match acc !! pr_flat ref with
    | Some _ => acc
    | None => <[pr_flat ref := {| ao_resolveNS := pr_resolveNS ref; ao_secretName := pr_secretName ref;
                                  ao_key := pr_key ref; ao_id := id |}]> acc
    end) refs accepted.

Section collisions.
Context `{GoRuntime, Libraries}.
Context (getter : SecretGetter).

Definition flat_less (r1 r2 : pendingSecretRef) : bool := String.ltb (pr_flat r1) (pr_flat r2).

Record collision_state := {
  cs_accepted : gmap string acceptedOwner;
  cs_victims : gmap string (Pipeline * string * string)
}.

(** One iteration of the greedy pass. *)
Definition collision_step (byID : gmap string Pipeline)
    (byPipeline : gmap string (list pendingSecretRef)) (s : collision_state) (id : string)
    : collision_state :=
  let refs := sort_slice flat_less (default [] (byPipeline !! id)) in
  match first_conflict (cs_accepted s) refs, byID !! id with
  | Some (ref, owner), Some victim =>
      {| cs_accepted := cs_accepted s;
         cs_victims := <[id := (victim, pr_flat ref, ao_id owner)]> (cs_victims s) |}
  | Some _, None => s
  | None, _ => {| cs_accepted := claim id (cs_accepted s) refs; cs_victims := cs_victims s |}
  end.

Definition collision_pass (byID : gmap string Pipeline)
    (byPipeline : gmap string (list pendingSecretRef)) (orderedIDs : list string) : collision_state :=
  fold_left (collision_step byID byPipeline) orderedIDs {| cs_accepted := ∅; cs_victims := ∅ |}.

Definition victims_list (victims : gmap string (Pipeline * string * string)) : list SecretCollision :=
  omap (λ id, '(p, flat, survivor) ← victims !! id;
              Some {| sc_victim := p; sc_flat_key := flat; sc_survivor := survivor |})
    (sort_strings (range_map 13 victims).*1).

Definition DetectSecretCollisions (pipelines : list Pipeline) : result (list SecretCollision) :=
  if bool_decide (length pipelines < 2)%nat then Ok [] else
  '(byID, byPipeline, orderedIDs) ← gatherPendingSecretsByPipeline getter pipelines;
  if bool_decide (size byPipeline = 0%nat) then Ok [] else
  Ok (victims_list (cs_victims (collision_pass byID byPipeline orderedIDs))).
End collisions.

(** ** Lemmas: gathering *)

Section gather_lemmas.
Context `{GoRuntime, Libraries}.
Context (getter : SecretGetter).

(** The references one pipeline contributes. *)
Definition pipeline_refs (p : Pipeline) : result (list pendingSecretRef) :=
  match UnmarshalJson (GetSpec p) with
  | Err e => Err (ErrWrap ("pipeline " +:+ pipelineID p +:+ ": ") e)
  | Ok cfg => '(_, refs) ← processPipelineSecrets p getter (comps_of 9 cfg) []; Ok refs
  end.

Definition refs_of (p : Pipeline) : list pendingSecretRef :=
  match pipeline_refs p with Ok refs => refs | Err _ => [] end.

Lemma process_comp_pending p opts pending :
  process_comp p opts pending =
    ('(opts', refs) ← process_comp p opts []; Ok (opts', pending ++ refs)).
Proof.
  destruct opts as [|o opts]; simpl; [by rewrite app_nil_r|].
  by destruct (scanAndRewriteSecretRefs _ _ _ _) as [[refs o']|e].
Qed.

Lemma process_comps_pending p comps pending :
  process_comps p comps pending =
    ('(comps', refs) ← process_comps p comps []; Ok (comps', pending ++ refs)).
Proof.
  revert pending. induction comps as [|o comps IH]; intros pending; simpl; [by rewrite app_nil_r|].
  rewrite (process_comp_pending p o pending).
  destruct (process_comp p o []) as [[o' refs]|e]; simpl; [|done].
  rewrite (IH (pending ++ refs)), (IH refs).
  destruct (process_comps p comps []) as [[cs' refs']|e]; simpl; [|done].
  by rewrite (assoc_L (++)).
Qed.

Lemma processPipelineSecrets_pending p comps pending :
  processPipelineSecrets p getter comps pending =
    ('(comps', refs) ← processPipelineSecrets p getter comps []; Ok (comps', pending ++ refs)).
Proof.
  unfold processPipelineSecrets. destruct (mapM _ _) as [?|?]; simpl; [|done].
  destruct (guard_err _ _) as [?|?]; simpl; [|done]. apply process_comps_pending.
Qed.

Lemma process_comps_owner p comps comps' refs :
  process_comps p comps [] = Ok (comps', refs) → Forall (λ r, pr_pipeline r = pipelineID p) refs.
Proof.
  revert comps' refs. induction comps as [|o comps IH]; intros comps' refs; simpl.
  - intros [= <- <-]. constructor.
  - intros ([o' rs] & Ho & Hc)%bind_Ok. rewrite process_comps_pending in Hc.
    apply bind_Ok in Hc as ([cs' rs'] & Hc & [= <- <-]).
    apply bind_Ok in Hc as ([cs2 rs2] & Hc & [= <- <-]).
    apply Forall_app. split; [|by eapply IH].
    destruct o as [|o1 o]; simpl in Ho; [injection Ho as <- <-; constructor|].
    destruct (scanAndRewriteSecretRefs _ _ _ _) as [[rs' o2]|e]; [|done].
    injection Ho as <- <-. by apply Forall_fmap, Forall_true.
Qed.

Lemma pipeline_refs_owner p refs r : pipeline_refs p = Ok refs → r ∈ refs → pr_pipeline r = pipelineID p.
Proof.
  unfold pipeline_refs, processPipelineSecrets. destruct (UnmarshalJson _) as [cfg|e]; [|done].
  intros ([cs rs] & (? & _ & (? & _ & Hp)%bind_Ok)%bind_Ok & [= <-])%bind_Ok Hr.
  apply process_comps_owner in Hp. rewrite Forall_forall in Hp. auto.
Qed.

Lemma gather_step_eq byID pend p :
  gather_step getter (byID, pend) p =
    (refs ← pipeline_refs p; Ok (<[pipelineID p := p]> byID, pend ++ refs)).
Proof.
  unfold gather_step, pipeline_refs. destruct (UnmarshalJson (GetSpec p)) as [cfg|e]; [|done].
  rewrite processPipelineSecrets_pending.
  by destruct (processPipelineSecrets p getter (comps_of 9 cfg) []) as [[cs rs]|e].
Qed.

Lemma gather_fold ps byID0 pend0 byID pend :
  foldM (gather_step getter) (byID0, pend0) ps = Ok (byID, pend) →
  Forall (λ p, pipeline_refs p = Ok (refs_of p)) ps ∧ pend = pend0 ++ (ps ≫= refs_of) ∧
  byID = fold_left (λ m p, <[pipelineID p := p]> m) ps byID0.
Proof.
  revert byID0 pend0. induction ps as [|p ps IH]; intros byID0 pend0; cbn [foldM].
  - intros [= <- <-]. by rewrite app_nil_r.
  - rewrite gather_step_eq. intros ([byID1 pend1] & (rs & Hrs & [= <- <-])%bind_Ok & Hl)%bind_Ok.
    apply IH in Hl as (Hf & -> & ->).
    assert (refs_of p = rs) as Hp by (unfold refs_of; by rewrite Hrs).
    csimpl. rewrite Hp. split; [constructor; [congruence | done]|]. by rewrite (assoc_L (++)).
Qed.

Lemma gather_fold_total ps byID0 pend0 :
  Forall (λ p, is_Ok (pipeline_refs p)) ps → is_Ok (foldM (gather_step getter) (byID0, pend0) ps).
Proof.
  intros Hps. revert byID0 pend0. induction Hps as [|p ps [rs Hp] _ IH]; intros byID0 pend0;
    cbn [foldM]; [by eexists|]. rewrite gather_step_eq, Hp. apply IH.
Qed.

Lemma fold_insert_byID ps (m : gmap string Pipeline) id :
  NoDup (pipelineID <$> ps) →
  fold_left (λ m p, <[pipelineID p := p]> m) ps m !! id =
    match list_find (λ p, pipelineID p = id) ps with Some (_, p) => Some p | None => m !! id end.
Proof.
  revert m. induction ps as [|p ps IH]; intros m; simpl; [done|].
  intros [Hni Hnd]%NoDup_cons. rewrite IH by done.
  destruct (decide (pipelineID p = id)) as [<-|Hne].
  - destruct (list_find _ ps) as [[i q]|] eqn:Hfind.
    + apply list_find_Some in Hfind as (Hq%list_elem_of_lookup_2 & Hid & _).
      destruct Hni. rewrite <- Hid. by apply list_elem_of_fmap_2.
    + by rewrite lookup_insert_eq.
  - rewrite lookup_insert_ne by done. by destruct (list_find _ ps) as [[i q]|].
Qed.

Lemma byID_lookup ps id p :
  NoDup (pipelineID <$> ps) →
  fold_left (λ m p, <[pipelineID p := p]> m) ps (∅ : gmap string Pipeline) !! id = Some p ↔ p ∈ ps ∧ pipelineID p = id.
Proof.
  intros Hnd. rewrite fold_insert_byID by done. split.
  - destruct (list_find _ ps) as [[i q]|] eqn:Hfind; [|done]. intros [= <-].
    apply list_find_Some in Hfind as (Hq%list_elem_of_lookup_2 & Hid & _). done.
  - intros [Hp Hid]. destruct (list_find _ ps) as [[i q]|] eqn:Hfind.
    + apply list_find_Some in Hfind as (Hq%list_elem_of_lookup_2 & Hid' & _).
      f_equal. eapply NoDup_fmap_elem_inj; eauto. congruence.
    + apply list_find_None in Hfind. rewrite Forall_forall in Hfind. by destruct (Hfind p).
Qed.
End gather_lemmas.

(** [older p q]: [p] was created before [q], or at the same time with a smaller ID. *)
Definition older (p q : Pipeline) : Prop :=
  GetCreationTimestamp p < GetCreationTimestamp q ∨
  GetCreationTimestamp p = GetCreationTimestamp q ∧ String.ltb (pipelineID p) (pipelineID q) = true.

Section order_lemmas.
Context (byID : gmap string Pipeline).

Lemma older_id_spec i j :
  older_id byID i j = true ↔
  creation_of byID i < creation_of byID j ∨
  creation_of byID i = creation_of byID j ∧ String.ltb i j = true.
Proof.
  unfold older_id. destruct (Z.eqb_spec (creation_of byID i) (creation_of byID j)); simpl.
  - split; [by right | intros [?|[_ ?]]; [lia | done]].
  - rewrite Z.ltb_lt. split; [by left | intros [?|[? _]]; lia].
Qed.

Lemma older_id_neg i j :
  older_id byID j i = false ↔
  creation_of byID i < creation_of byID j ∨
  creation_of byID i = creation_of byID j ∧ String.ltb j i = false.
Proof.
  rewrite <- not_true_iff_false, older_id_spec, <- not_true_iff_false.
  split; [intros Hn | intros [?|[? ?]] [?|[? ?]]; (lia || done)].
  destruct (Z.lt_trichotomy (creation_of byID i) (creation_of byID j)) as [?|[?|?]];
    [by left | | by destruct Hn; left].
  right. split; [lia|]. intros ?. apply Hn. right. split; [lia | done].
Qed.

Lemma older_id_total i j : older_id byID j i = false ∨ older_id byID i j = false.
Proof.
  rewrite !older_id_neg. destruct (Z.lt_trichotomy (creation_of byID i) (creation_of byID j)) as [?|[?|?]];
    [tauto | | tauto]. destruct (string_lt_total i j); intuition.
Qed.

Lemma older_id_trans i j k :
  older_id byID j i = false → older_id byID k j = false → older_id byID k i = false.
Proof.
  rewrite !older_id_neg. intros [?|[? ?]] [?|[? ?]]; try (left; lia).
  right. split; [lia|]. by eapply string_lt_trans.
Qed.

Lemma older_id_anti i j : older_id byID i j = false → older_id byID j i = false → i = j.
Proof.
  rewrite !older_id_neg. intros [?|[? ?]] [?|[? ?]]; try lia. by apply string_lt_anti.
Qed.
End order_lemmas.

Lemma older_irrefl p : ¬ older p p.
Proof. intros [?|[_ Hp]]; [lia|]. by rewrite string_lt_irrefl in Hp. Qed.

Lemma string_ltb_asym x y : String.ltb x y = true → String.ltb y x = false.
Proof.
  intros Hxy. destruct (string_lt_total x y) as [?|?]; congruence.
Qed.

Lemma older_asym p q : older p q → ¬ older q p.
Proof.
  intros [?|[? Hs]] [?|[? Hs']]; try lia. apply string_ltb_asym in Hs. congruence.
Qed.

Lemma string_ltb_total x y : x ≠ y → String.ltb x y = true ∨ String.ltb y x = true.
Proof.
  intros Hne. destruct (String.ltb x y) eqn:Hxy; [by left|].
  destruct (String.ltb y x) eqn:Hyx; [by right|]. destruct Hne. by apply string_lt_anti.
Qed.

Lemma older_total p q : pipelineID p ≠ pipelineID q → older p q ∨ older q p.
Proof.
  intros Hne%string_ltb_total. unfold older.
  destruct (Z.lt_trichotomy (GetCreationTimestamp p) (GetCreationTimestamp q)) as [?|[?|?]]; intuition.
Qed.

(** What a gathering of pipelines with distinct IDs is. *)
Record Gathered `{GoRuntime, Libraries} (getter : SecretGetter) (ps : list Pipeline)
    (byID : gmap string Pipeline) (byPipeline : gmap string (list pendingSecretRef))
    (ids : list string) : Prop := {
  gathered_refs p : p ∈ ps → pipeline_refs getter p = Ok (refs_of getter p);
  gathered_byID id p : byID !! id = Some p ↔ p ∈ ps ∧ pipelineID p = id;
  gathered_byPipeline p :
    p ∈ ps → default [] (byPipeline !! pipelineID p) = refs_of getter p;
  gathered_ids id : id ∈ ids ↔ ∃ p, p ∈ ps ∧ pipelineID p = id ∧ refs_of getter p ≠ [];
  gathered_NoDup : NoDup ids;
  gathered_sorted : StronglySorted (λ i j, older_id byID j i = false) ids;
  gathered_size : size byPipeline = length ids
}.

Section gathered.
Context `{GoRuntime, Libraries}.
Context (getter : SecretGetter).

Lemma group_refs_lookup pending id :
  group_refs pending !! id =
    match filter (λ r, pr_pipeline r = id) pending with [] => None | l => Some l end.
Proof. apply (group_add_lookup pr_pipeline). Qed.

Lemma filter_refs ps p :
  Forall (λ p, pipeline_refs getter p = Ok (refs_of getter p)) ps →
  NoDup (pipelineID <$> ps) →
  filter (λ r, pr_pipeline r = pipelineID p) (ps ≫= refs_of getter) =
    match list_find (λ q, pipelineID q = pipelineID p) ps with
    | Some (_, q) => refs_of getter q | None => [] end.
Proof.
  induction 1 as [|q ps Hq _ IH]; csimpl; [done|]. intros [Hni Hnd]%NoDup_cons.
  rewrite filter_app, IH by done.
  assert (Hown : Forall (λ r, pr_pipeline r = pipelineID q) (refs_of getter q)).
  { apply Forall_forall. intros r Hr. by eapply pipeline_refs_owner. }
  destruct (decide (pipelineID q = pipelineID p)) as [Heq|Hne].
  - rewrite (list_filter_all _ (refs_of getter q)); [|by rewrite <- Heq].
    destruct (list_find _ ps) as [[i q']|] eqn:Hfind; [|by rewrite app_nil_r].
    apply list_find_Some in Hfind as (Hq'%list_elem_of_lookup_2 & Hid & _).
    destruct Hni. rewrite Heq, <- Hid. by apply list_elem_of_fmap_2.
  - rewrite (list_filter_none _ (refs_of getter q)).
    + by destruct (list_find _ ps) as [[i q']|].
    + eapply Forall_impl; [exact Hown|]. simpl. congruence.
Qed.

Lemma filter_refs_in ps p :
  Forall (λ p, pipeline_refs getter p = Ok (refs_of getter p)) ps →
  NoDup (pipelineID <$> ps) → p ∈ ps →
  filter (λ r, pr_pipeline r = pipelineID p) (ps ≫= refs_of getter) = refs_of getter p.
Proof.
  intros Hps Hnd Hp. rewrite filter_refs by done.
  destruct (list_find _ ps) as [[i q]|] eqn:Hfind.
  - apply list_find_Some in Hfind as (Hq%list_elem_of_lookup_2 & Hid & _).
    f_equal. by eapply NoDup_fmap_elem_inj.
  - apply list_find_None in Hfind. rewrite Forall_forall in Hfind. by destruct (Hfind p).
Qed.

Lemma gather_Gathered ps byID byPipeline ids :
  NoDup (pipelineID <$> ps) →
  gatherPendingSecretsByPipeline getter ps = Ok (byID, byPipeline, ids) →
  Gathered getter ps byID byPipeline ids.
Proof.
  intros Hnd ([byID' pend] & Hf & [= -> <- <-])%bind_Ok.
  apply gather_fold in Hf as (Hps & Hpend & Hby). simpl in Hpend. subst pend byID.
  pose proof Hps as Hps'. rewrite Forall_forall in Hps'.
  assert (Hgroup : ∀ p, p ∈ ps → group_refs (ps ≫= refs_of getter) !! pipelineID p =
            match refs_of getter p with [] => None | l => Some l end).
  { intros p Hp. by rewrite group_refs_lookup, filter_refs_in. }
  split.
  - auto.
  - intros id p. by apply byID_lookup.
  - intros p Hp. rewrite Hgroup by done. by destruct (refs_of getter p).
  - intros id. rewrite sort_slice_elem_of, list_elem_of_fmap. split.
    + intros ([id' l] & -> & Hl%range_map_lookup). simpl. rewrite group_refs_lookup in Hl.
      destruct (filter _ _) as [|r rs] eqn:Hfil; [done|].
      assert (Hr : r ∈ filter (λ r, pr_pipeline r = id') (ps ≫= refs_of getter)) by (rewrite Hfil; set_solver).
      apply list_elem_of_filter in Hr as [<- Hr].
      apply list_elem_of_bind in Hr as (p & Hr & Hp).
      exists p. split; [done|]. split; [|by intros Hnil; rewrite Hnil in Hr; set_solver].
      symmetry. by eapply pipeline_refs_owner; [apply Hps'|].
    + intros (p & Hp & <- & Hne). exists (pipelineID p, refs_of getter p). split; [done|].
      apply range_map_lookup. rewrite Hgroup by done. by destruct (refs_of getter p).
  - rewrite sort_slice_perm. apply range_map_keys_NoDup.
  - apply sort_slice_sorted; eauto using older_id_total, older_id_trans.
  - rewrite sort_slice_perm, length_fmap, range_map_perm. by rewrite length_map_to_list.
Qed.

Lemma gather_is_Ok ps :
  is_Ok (gatherPendingSecretsByPipeline getter ps) ↔ Forall (λ p, is_Ok (pipeline_refs getter p)) ps.
Proof.
  unfold gatherPendingSecretsByPipeline. split.
  - intros [x ([byID pend] & Hf & _)%bind_Ok]. apply gather_fold in Hf as [Hf _].
    eapply Forall_impl; [done|]. simpl. intros p Hp. by eexists.
  - intros Hps. destruct (gather_fold_total getter ps ∅ [] Hps) as [[byID pend] ->]. by eexists.
Qed.
End gathered.

(** ** Lemmas: the greedy pass over collisions *)

(** Two pipelines' references disagree on a flat key. *)
Definition conflict_on (f : string) (rs1 rs2 : list pendingSecretRef) : Prop :=
  ∃ r1 r2, r1 ∈ rs1 ∧ r2 ∈ rs2 ∧ pr_flat r1 = f ∧ pr_flat r2 = f ∧ pr_tuple r1 ≠ pr_tuple r2.

Definition conflict (rs1 rs2 : list pendingSecretRef) : Prop := ∃ f, conflict_on f rs1 rs2.

Definition uses_flat (f : string) (rs : list pendingSecretRef) : Prop := ∃ r, r ∈ rs ∧ pr_flat r = f.

Lemma first_conflict_None accepted rs :
  first_conflict accepted rs = None ↔
  ∀ r o, r ∈ rs → accepted !! pr_flat r = Some o → ao_tuple o = pr_tuple r.
Proof.
  induction rs as [|r rs IH]; simpl; [set_solver|].
  destruct (accepted !! pr_flat r) as [o|] eqn:Hlk.
  - case_bool_decide as Ht.
    + rewrite IH. split; [|set_solver]. intros Hall r' o' [->|Hr']%elem_of_cons Ho'; [congruence | eauto].
    + split; [done|]. intros Hall. destruct Ht. apply Hall; [set_solver | done].
  - rewrite IH. split; [|set_solver]. intros Hall r' o' [->|Hr']%elem_of_cons Ho'; [congruence | eauto].
Qed.

Lemma first_conflict_Some accepted rs r o :
  first_conflict accepted rs = Some (r, o) →
  r ∈ rs ∧ accepted !! pr_flat r = Some o ∧ ao_tuple o ≠ pr_tuple r ∧
  ∃ rs1 rs2, rs = rs1 ++ r :: rs2 ∧ first_conflict accepted rs1 = None.
Proof.
  induction rs as [|r0 rs IH]; simpl; [done|].
  assert (Hrec : (∀ o', accepted !! pr_flat r0 = Some o' → ao_tuple o' = pr_tuple r0) →
    first_conflict accepted rs = Some (r, o) →
    r ∈ r0 :: rs ∧ accepted !! pr_flat r = Some o ∧ ao_tuple o ≠ pr_tuple r ∧
    ∃ rs1 rs2, r0 :: rs = rs1 ++ r :: rs2 ∧ first_conflict accepted rs1 = None).
  { intros H0 (Hr & Ho & Ht & rs1 & rs2 & -> & Hn)%IH. split; [by right|]. split; [done|]. split; [done|].
    exists (r0 :: rs1), rs2. split; [done|]. rewrite first_conflict_None in Hn |- *.
    intros r' o' [->|?]%elem_of_cons ?; eauto. }
  destruct (accepted !! pr_flat r0) as [o0|] eqn:Hlk; [|apply Hrec; naive_solver].
  case_bool_decide as Ht; [apply Hrec; naive_solver|].
  intros [= <- <-]. split; [by left|]. split; [done|]. split; [done|]. by exists [], rs.
Qed.

Lemma claim_spec id accepted rs f :
  match accepted !! f with
  | Some o => claim id accepted rs !! f = Some o
  | None =>
      (∀ o, claim id accepted rs !! f = Some o →
         ao_id o = id ∧ ∃ r, r ∈ rs ∧ pr_flat r = f ∧ ao_tuple o = pr_tuple r) ∧
      (uses_flat f rs → is_Some (claim id accepted rs !! f))
  end.
Proof.
  unfold claim. revert accepted. induction rs as [|r rs IH]; intros accepted; simpl.
  - destruct (accepted !! f) as [o|] eqn:Hf; [done|]. split; [done|].
    intros (r & Hr & _). set_solver.
  - destruct (accepted !! pr_flat r) as [o0|] eqn:Hr.
    + specialize (IH accepted). destruct (accepted !! f) as [o|] eqn:Hf; [done|].
      destruct IH as [IH1 IH2]. split; [naive_solver set_solver|].
      intros (r' & [->|Hr']%elem_of_cons & <-); [congruence|]. apply IH2. by exists r'.
    + specialize (IH (<[pr_flat r:={| ao_resolveNS := pr_resolveNS r; ao_secretName := pr_secretName r;
                                    ao_key := pr_key r; ao_id := id |}]> accepted)).
      destruct (decide (pr_flat r = f)) as [<-|Hne].
      * rewrite lookup_insert_eq in IH. rewrite Hr, IH. split; [|by eexists].
        intros o [= <-]. split; [done|]. exists r. split; [by left | done].
      * rewrite lookup_insert_ne in IH by done. destruct (accepted !! f) as [o|]; [done|].
        destruct IH as [IH1 IH2]. split.
        -- intros o (? & r' & ? & ? & ?)%IH1. split; [done|]. exists r'. split; [by right | done].
        -- intros (r' & [->|Hr']%elem_of_cons & Hf'); [done|]. apply IH2. by exists r'.
Qed.

Section collision_lemmas.
Context `{GoRuntime, Libraries}.
Context (byID : gmap string Pipeline) (byPipeline : gmap string (list pendingSecretRef)).

Definition refs_at (id : string) : list pendingSecretRef := default [] (byPipeline !! id).

Definition survives (s : collision_state) (id : string) : Prop := cs_victims s !! id = None.

(** The pass after the prefix [dn] of the ordered IDs. *)
Record collision_inv (dn : list string) (s : collision_state) : Prop := {
  ci_victims id : is_Some (cs_victims s !! id) → id ∈ dn;
  ci_owner f o : cs_accepted s !! f = Some o →
    survives s (ao_id o) ∧ (∃ r, r ∈ refs_at (ao_id o) ∧ pr_flat r = f ∧ ao_tuple o = pr_tuple r) ∧
    ∃ d1 d2, dn = d1 ++ ao_id o :: d2 ∧ ∀ q, q ∈ d1 → survives s q → ¬ uses_flat f (refs_at q);
  ci_claimed id r : id ∈ dn → survives s id → r ∈ refs_at id →
    ∃ o, cs_accepted s !! pr_flat r = Some o ∧ ao_tuple o = pr_tuple r;
  ci_verdict d1 id d2 : dn = d1 ++ id :: d2 →
    match cs_victims s !! id with
    | None => ∀ q, q ∈ d1 → survives s q → ¬ conflict (refs_at q) (refs_at id)
    | Some (p, f, sv) =>
        byID !! id = Some p ∧ survives s sv ∧ conflict_on f (refs_at sv) (refs_at id) ∧
        (∃ e1 e2, d1 = e1 ++ sv :: e2 ∧ ∀ q, q ∈ e1 → survives s q → ¬ uses_flat f (refs_at q)) ∧
        (∀ q f', q ∈ d1 → survives s q → conflict_on f' (refs_at q) (refs_at id) →
           String.ltb f' f = false)
    end
}.

Lemma flat_less_total r1 r2 : flat_less r2 r1 = false ∨ flat_less r1 r2 = false.
Proof. unfold flat_less. auto. Qed.
Lemma flat_less_trans r1 r2 r3 :
  flat_less r2 r1 = false → flat_less r3 r2 = false → flat_less r3 r1 = false.
Proof. unfold flat_less. eauto. Qed.

(** The key reported is the least one in conflict. *)
Lemma first_conflict_least accepted rs r o r' o' :
  first_conflict accepted (sort_slice flat_less rs) = Some (r, o) →
  r' ∈ rs → accepted !! pr_flat r' = Some o' → ao_tuple o' ≠ pr_tuple r' →
  String.ltb (pr_flat r') (pr_flat r) = false.
Proof.
  intros (_ & _ & _ & rs1 & rs2 & Heq & Hn)%first_conflict_Some Hr' Ho' Ht.
  pose proof (sort_slice_sorted flat_less rs flat_less_total flat_less_trans) as Hs.
  rewrite <- (sort_slice_elem_of flat_less), Heq in Hr'. rewrite Heq in Hs.
  apply elem_of_app in Hr' as [Hr'|[->|Hr']%elem_of_cons].
  - destruct Ht. rewrite first_conflict_None in Hn. eauto.
  - apply string_lt_irrefl.
  - apply StronglySorted_app_1_r in Hs. apply StronglySorted_inv in Hs as [_ Hs].
    rewrite Forall_forall in Hs. by apply (Hs r').
Qed.

Lemma collision_inv_nil : collision_inv [] {| cs_accepted := ∅; cs_victims := ∅ |}.
Proof.
  split; simpl.
  - intros id. rewrite lookup_empty. by intros [].
  - intros f o. by rewrite lookup_empty.
  - set_solver.
  - by intros [].
Qed.

Lemma survives_insert s id x q :
  q ≠ id → survives {| cs_accepted := cs_accepted s; cs_victims := <[id := x]> (cs_victims s) |} q ↔
           survives s q.
Proof. intros Hne. unfold survives. simpl. by rewrite lookup_insert_ne. Qed.

Lemma victim_step_inv dn s id p f sv :
  collision_inv dn s → id ∉ dn → byID !! id = Some p →
  survives s sv ∧ conflict_on f (refs_at sv) (refs_at id) →
  (∃ e1 e2, dn = e1 ++ sv :: e2 ∧ ∀ q, q ∈ e1 → survives s q → ¬ uses_flat f (refs_at q)) →
  (∀ q f', q ∈ dn → survives s q → conflict_on f' (refs_at q) (refs_at id) → String.ltb f' f = false) →
  collision_inv (dn ++ [id])
    {| cs_accepted := cs_accepted s; cs_victims := <[id := (p, f, sv)]> (cs_victims s) |}.
Proof.
  intros Hinv Hni Hp [Hsv Hcf] (e1 & e2 & Hdn & He) Hmin.
  assert (Hsurv : ∀ q x, q ∈ dn → survives {| cs_accepted := cs_accepted s; cs_victims := <[id := x]> (cs_victims s) |} q ↔ survives s q).
  { intros q x Hq. apply survives_insert. by intros ->. }
  split; simpl.
  - intros id' [<-|[_ Hv]]%lookup_insert_is_Some; [set_solver|].
    apply (ci_victims _ _ Hinv) in Hv. set_solver.
  - intros f' o Ho. destruct (ci_owner _ _ Hinv _ _ Ho) as (Hs & Hr & d1 & d2 & Hd & Hq).
    split; [apply Hsurv; [rewrite Hd; set_solver | done]|]. split; [done|].
    exists d1, (d2 ++ [id]). rewrite Hd. split; [by rewrite <- (assoc_L (++))|].
    intros q Hqd Hqs. apply Hq; [done|]. eapply Hsurv; [rewrite Hd; set_solver | done].
  - intros id' r [Hid'| ->%list_elem_of_singleton]%elem_of_app Hs Hr.
    + eapply (ci_claimed _ _ Hinv); [done | by eapply Hsurv | done].
    + unfold survives in Hs. simpl in Hs. by rewrite lookup_insert_eq in Hs.
  - intros d1 id' d2 [(-> & <- & ->)|(d2' & -> & Hd)]%snoc_split.
    + rewrite lookup_insert_eq. split; [done|]. split; [apply Hsurv; [rewrite Hdn; set_solver | done]|].
      split; [done|]. split.
      * exists e1, e2. split; [done|]. intros q Hq Hqs. apply He; [done|].
        eapply Hsurv; [rewrite Hdn; set_solver | done].
      * intros q f' Hq Hqs. apply Hmin; [done|]. by eapply Hsurv.
    + assert (Hne : id' ≠ id) by (intros ->; apply Hni; rewrite Hd; set_solver).
      rewrite lookup_insert_ne by done.
      pose proof (ci_verdict _ _ Hinv _ _ _ Hd) as Hv.
      assert (Hin : ∀ q, q ∈ d1 → q ∈ dn) by (rewrite Hd; set_solver).
      destruct (cs_victims s !! id') as [[[p' f'] sv']|] eqn:Hv'.
      * destruct Hv as (? & Hs' & ? & (g1 & g2 & -> & Hg) & Hm). split; [done|].
        split; [apply Hsurv; [apply Hin; set_solver | done]|]. split; [done|]. split.
        -- exists g1, g2. split; [done|]. intros q Hq Hqs. apply Hg; [done|].
           eapply Hsurv; [apply Hin; set_solver | done].
        -- intros q f'' Hq Hqs. apply Hm; [done|]. eapply Hsurv; [by apply Hin | done].
      * intros q Hq Hqs. apply Hv; [done|]. eapply Hsurv; [by apply Hin | done].
Qed.

Lemma accept_step_inv dn s id :
  collision_inv dn s → id ∉ dn → survives s id → consistent (refs_at id) →
  (∀ q, q ∈ dn → survives s q → ¬ conflict (refs_at q) (refs_at id)) →
  (∀ r, r ∈ sort_slice flat_less (refs_at id) ↔ r ∈ refs_at id) →
  collision_inv (dn ++ [id])
    {| cs_accepted := claim id (cs_accepted s) (sort_slice flat_less (refs_at id));
       cs_victims := cs_victims s |}.
Proof.
  intros Hinv Hni Hnv Hc Hnc Hsort.
  assert (Huse : ∀ f, uses_flat f (sort_slice flat_less (refs_at id)) ↔ uses_flat f (refs_at id)).
  { intros f. unfold uses_flat. by setoid_rewrite Hsort. }
  split; simpl.
  - intros id' Hv%(ci_victims _ _ Hinv). set_solver.
  - intros f o Ho. pose proof (claim_spec id (cs_accepted s) (sort_slice flat_less (refs_at id)) f) as Hcl.
    destruct (cs_accepted s !! f) as [o'|] eqn:Hf.
    + assert (o' = o) as -> by congruence.
      destruct (ci_owner _ _ Hinv _ _ Hf) as (Hs & Hr & d1 & d2 & -> & Hq).
      split; [done|]. split; [done|]. exists d1, (d2 ++ [id]). split; [by rewrite <- (assoc_L (++)) | done].
    + destruct Hcl as [Hcl _]. destruct (Hcl _ Ho) as (-> & r & Hr%Hsort & ? & ?).
      split; [done|]. split; [eauto|]. exists dn, []. split; [done|].
      intros q Hq Hqs (r' & Hr' & <-). destruct (ci_claimed _ _ Hinv _ _ Hq Hqs Hr') as (o' & ? & _).
      congruence.
  - intros id' r Hid' Hs Hr.
    pose proof (claim_spec id (cs_accepted s) (sort_slice flat_less (refs_at id)) (pr_flat r)) as Hcl.
    apply elem_of_app in Hid' as [Hid'| ->%list_elem_of_singleton].
    + destruct (ci_claimed _ _ Hinv _ _ Hid' Hs Hr) as (o & Ho & Ht). rewrite Ho in Hcl. eauto.
    + destruct (cs_accepted s !! pr_flat r) as [o|] eqn:Hf.
      * exists o. split; [done|].
        destruct (ci_owner _ _ Hinv _ _ Hf) as (Hos & (r' & Hr' & Hf' & ->) & d1 & d2 & Hd & _).
        destruct (decide (pr_tuple r' = pr_tuple r)) as [?|Hne]; [done|].
        destruct (Hnc (ao_id o)); [rewrite Hd; set_solver | done |]. by exists (pr_flat r), r', r.
      * destruct Hcl as [Hcl1 Hcl2]. destruct Hcl2 as [o Ho]; [apply Huse; by exists r|].
        exists o. split; [done|]. destruct (Hcl1 _ Ho) as (_ & r' & Hr'%Hsort & Hf' & ->).
        by apply Hc.
  - intros d1 id' d2 [(-> & <- & ->)|(d2' & -> & Hd)]%snoc_split.
    + by rewrite Hnv.
    + apply (ci_verdict _ _ Hinv _ _ _ Hd).
Qed.

(** The pipeline considered next, against what the pass has accepted so far. *)
Lemma collision_conflict dn s id f :
  collision_inv dn s → consistent (refs_at id) →
  (∃ r o, r ∈ refs_at id ∧ pr_flat r = f ∧ cs_accepted s !! f = Some o ∧ ao_tuple o ≠ pr_tuple r) ↔
  ∃ q, q ∈ dn ∧ survives s q ∧ conflict_on f (refs_at q) (refs_at id).
Proof.
  intros Hinv Hc. split.
  - intros (r & o & Hr & Hf & Ho & Ht). destruct (ci_owner _ _ Hinv _ _ Ho) as (Hs & (r' & Hr' & Hf' & Ht') & d1 & d2 & -> & _).
    exists (ao_id o). split; [set_solver|]. split; [done|]. exists r', r. split_and!; congruence.
  - intros (q & Hq & Hs & r1 & r2 & Hr1 & Hr2 & Hf1 & Hf2 & Ht).
    destruct (ci_claimed _ _ Hinv _ _ Hq Hs Hr1) as (o & Ho & Hto). rewrite Hf1 in Ho.
    exists r2, o. split_and!; congruence.
Qed.

Lemma collision_step_inv dn s id p :
  collision_inv dn s → id ∉ dn → byID !! id = Some p → consistent (refs_at id) →
  collision_inv (dn ++ [id]) (collision_step byID byPipeline s id).
Proof.
  intros Hinv Hni Hp Hc. unfold collision_step. rewrite Hp.
  change (default [] (byPipeline !! id)) with (refs_at id).
  assert (Hnv : survives s id).
  { unfold survives. apply eq_None_not_Some. intros Hs. by apply (ci_victims _ _ Hinv) in Hs. }
  assert (Hsort : ∀ r, r ∈ sort_slice flat_less (refs_at id) ↔ r ∈ refs_at id)
    by (intros; apply sort_slice_elem_of).
  destruct (first_conflict (cs_accepted s) (sort_slice flat_less (refs_at id))) as [[r o]|] eqn:Hfc.
  - pose proof (first_conflict_Some _ _ _ _ Hfc) as (Hr & Ho & Ht & _). rewrite Hsort in Hr.
    apply victim_step_inv; try done.
    + destruct (ci_owner _ _ Hinv _ _ Ho) as (Hs & (r' & ? & ? & ?) & _).
      split; [done|]. exists r', r. split_and!; congruence.
    + destruct (ci_owner _ _ Hinv _ _ Ho) as (_ & _ & d1 & d2 & -> & Hd). by exists d1, d2.
    + intros q f' Hq Hs Hcf.
      destruct (proj2 (collision_conflict dn s id f' Hinv Hc)) as (r' & o' & Hr' & <- & Ho' & Ht'); [eauto|].
      by eapply first_conflict_least.
  - apply accept_step_inv; try done. intros q Hq Hs [f Hcf].
    destruct (proj2 (collision_conflict dn s id f Hinv Hc)) as (r' & o' & Hr' & <- & Ho' & Ht'); [eauto|].
    rewrite first_conflict_None in Hfc. apply Ht', Hfc; [by apply Hsort | done].
Qed.
End collision_lemmas.

Section collision_attribution.
Context `{GoRuntime, Libraries}.
Context (getter : SecretGetter).

Lemma collision_pass_inv byID byPipeline ids :
  NoDup ids → (∀ id, id ∈ ids → is_Some (byID !! id) ∧ consistent (refs_at byPipeline id)) →
  collision_inv byID byPipeline ids (collision_pass byID byPipeline ids).
Proof.
  unfold collision_pass. intros Hnd Hids.
  enough (∀ dn s, NoDup (dn ++ ids) → collision_inv byID byPipeline dn s →
    collision_inv byID byPipeline (dn ++ ids) (fold_left (collision_step byID byPipeline) ids s)) as Hen
    by apply (Hen [] _ Hnd (collision_inv_nil byID byPipeline)).
  clear Hnd. induction ids as [|id ids IH]; intros dn s Hnd Hinv; cbn [fold_left].
  - by rewrite app_nil_r.
  - destruct (Hids id) as [[p Hp] Hc]; [by left|].
    rewrite cons_middle, (assoc_L (++)) in Hnd |- *. apply IH; [|done|].
    + intros id' Hid'. apply Hids. by right.
    + eapply collision_step_inv; try done.
      apply NoDup_app in Hnd as [Hnd _]. apply NoDup_app in Hnd as (_ & Hnd & _).
      intros Hin. apply (Hnd id Hin). set_solver.
Qed.

Lemma victims_list_elem victims c :
  c ∈ victims_list victims ↔
  ∃ id, victims !! id = Some (sc_victim c, sc_flat_key c, sc_survivor c).
Proof.
  unfold victims_list. rewrite list_elem_of_omap. unfold sort_strings.
  setoid_rewrite sort_slice_elem_of. split.
  - intros (id & _ & ([[p f] sv] & Hv & [= <-])%bind_Some). by exists id.
  - intros (id & Hv). exists id. split.
    + apply list_elem_of_fmap. eexists (_, _). split; [reflexivity|]. by apply range_map_lookup.
    + rewrite Hv. by destruct c.
Qed.

Context (ps : list Pipeline) (byID : gmap string Pipeline)
  (byPipeline : gmap string (list pendingSecretRef)) (ids : list string).
Context (Hnd : NoDup (pipelineID <$> ps)) (Hg : Gathered getter ps byID byPipeline ids).

Lemma gathered_creation p : p ∈ ps → creation_of byID (pipelineID p) = GetCreationTimestamp p.
Proof.
  intros Hp. unfold creation_of. by rewrite (proj2 (gathered_byID _ _ _ _ _ Hg (pipelineID p) p)).
Qed.

Lemma older_older_id p q :
  p ∈ ps → q ∈ ps → older p q ↔ older_id byID (pipelineID p) (pipelineID q) = true.
Proof. intros Hp Hq. by rewrite older_id_spec, !gathered_creation. Qed.

Lemma gathered_lookup id : id ∈ ids → ∃ p, p ∈ ps ∧ pipelineID p = id ∧ byID !! id = Some p.
Proof.
  intros (p & Hp & <- & _)%(gathered_ids _ _ _ _ _ Hg). exists p.
  by rewrite (gathered_byID _ _ _ _ _ Hg).
Qed.

Lemma gathered_in p r : p ∈ ps → r ∈ refs_of getter p → pipelineID p ∈ ids.
Proof.
  intros Hp Hr. apply (gathered_ids _ _ _ _ _ Hg). exists p. split_and!; try done.
  intros Hnil. rewrite Hnil in Hr. set_solver.
Qed.

(** Before a pipeline in the order stand exactly the older ones. *)
Lemma before_older d1 d2 p q :
  ids = d1 ++ pipelineID p :: d2 → p ∈ ps → q ∈ ps →
  pipelineID q ∈ d1 ↔ pipelineID q ∈ ids ∧ older q p.
Proof.
  intros Heq Hp Hq. pose proof (gathered_sorted _ _ _ _ _ Hg) as Hs.
  pose proof (gathered_NoDup _ _ _ _ _ Hg) as Hn. rewrite Heq in Hs, Hn |- *.
  apply NoDup_app in Hn as (_ & Hni & Hn2). apply NoDup_cons in Hn2 as [Hni2 _].
  rewrite older_older_id by done. split.
  - intros Hin. split; [set_solver|].
    destruct (older_id byID (pipelineID q) (pipelineID p)) eqn:Ho; [done|]. exfalso.
    pose proof (StronglySorted_app_1_elem_of _ _ _ _ (pipelineID p) Hs Hin ltac:(by left)) as Ho'.
    apply (Hni _ Hin). rewrite (older_id_anti byID (pipelineID q) (pipelineID p)); [by left | done | done].
  - intros [[Hin|[Heq'|Hin]%elem_of_cons]%elem_of_app Ho]; [done| |]; exfalso.
    + rewrite Heq' in Ho. apply older_id_spec in Ho as [?|[_ Ho]]; [lia|].
      by rewrite string_lt_irrefl in Ho.
    + apply StronglySorted_app_1_r, StronglySorted_inv in Hs as [_ Hs].
      rewrite Forall_forall in Hs. specialize (Hs _ Hin). simpl in Hs. congruence.
Qed.

Lemma refs_at_of p : p ∈ ps → refs_at byPipeline (pipelineID p) = refs_of getter p.
Proof. apply (gathered_byPipeline _ _ _ _ _ Hg). Qed.

Context (Hcons : ∀ p, p ∈ ps → consistent (refs_of getter p)).
Let victims := cs_victims (collision_pass byID byPipeline ids).

Lemma pass_inv : collision_inv byID byPipeline ids (collision_pass byID byPipeline ids).
Proof.
  apply collision_pass_inv; [by eapply gathered_NoDup|].
  intros id (p & Hp & <- & Hby)%gathered_lookup. split; [by eexists|].
  rewrite refs_at_of by done. auto.
Qed.

(** The record kept for a victim. *)
Lemma pass_victim p x f sv :
  p ∈ ps → victims !! pipelineID p = Some (x, f, sv) →
  x = p ∧ ∃ q, q ∈ ps ∧ pipelineID q = sv ∧ older q p ∧ victims !! pipelineID q = None ∧
    conflict_on f (refs_of getter q) (refs_of getter p) ∧
    (∀ q', q' ∈ ps → older q' q → victims !! pipelineID q' = None → ¬ uses_flat f (refs_of getter q')) ∧
    (∀ q' f', q' ∈ ps → older q' p → victims !! pipelineID q' = None →
       conflict_on f' (refs_of getter q') (refs_of getter p) → String.ltb f' f = false).
Proof.
  intros Hp Hv. pose proof pass_inv as Hinv.
  assert (Hin : pipelineID p ∈ ids) by (apply (ci_victims _ _ _ _ Hinv); by eexists).
  destruct (list_elem_of_split _ _ Hin) as (d1 & d2 & Heq).
  pose proof (ci_verdict _ _ _ _ Hinv _ _ _ Heq) as Hver. fold victims in Hver. rewrite Hv in Hver.
  destruct Hver as (Hby & Hsv & Hcf & (e1 & e2 & Hd1 & He) & Hm).
  apply (gathered_byID _ _ _ _ _ Hg) in Hby as [Hx Hxid].
  assert (x = p) as -> by (by eapply NoDup_fmap_elem_inj).
  destruct (gathered_lookup sv) as (q & Hq & <- & _); [rewrite Heq, Hd1; set_solver|].
  rewrite !refs_at_of in Hcf by done.
  assert (Hmem : ∀ q' f', q' ∈ ps → uses_flat f' (refs_of getter q') → pipelineID q' ∈ ids).
  { intros q' f' Hq' (r & Hr & _). by eapply gathered_in. }
  split; [done|]. exists q. split; [done|]. split; [done|]. split.
  { apply (before_older d1 d2 p q); try done. rewrite Hd1; set_solver. }
  split; [done|]. split; [done|]. split.
  - intros q' Hq' Ho Hs Hu. apply (He (pipelineID q')); [|done|by rewrite refs_at_of].
    apply (before_older e1 (e2 ++ pipelineID p :: d2) q q'); try done; [|by eauto].
    by rewrite Heq, Hd1, <- (assoc_L (++)).
  - intros q' f' Hq' Ho Hs Hcf'. apply (Hm (pipelineID q')); [|done|by rewrite !refs_at_of].
    apply (before_older d1 d2 p q'); try done. split; [|done].
    destruct Hcf' as (r1 & _ & Hr1 & _). eapply (Hmem q' (pr_flat r1)); [done|]. by exists r1.
Qed.

Lemma pass_attribution p :
  p ∈ ps →
  is_Some (victims !! pipelineID p) ↔
  ∃ q, q ∈ ps ∧ older q p ∧ victims !! pipelineID q = None ∧ conflict (refs_of getter q) (refs_of getter p).
Proof.
  intros Hp. split.
  - intros [[[x f] sv] Hv]. destruct (pass_victim _ _ _ _ Hp Hv) as (_ & q & ? & _ & ? & ? & ? & _).
    exists q. split_and!; try done. by exists f.
  - intros (q & Hq & Ho & Hs & [f Hcf]). pose proof pass_inv as Hinv.
    pose proof Hcf as (r1 & r2 & Hr1 & Hr2 & _).
    destruct (list_elem_of_split _ _ (gathered_in _ _ Hp Hr2)) as (d1 & d2 & Heq).
    pose proof (ci_verdict _ _ _ _ Hinv _ _ _ Heq) as Hver. fold victims in Hver.
    destruct (victims !! pipelineID p) as [x|]; [by eexists|]. exfalso.
    apply (Hver (pipelineID q)); [|done|].
    + apply (before_older d1 d2 p q); eauto using gathered_in.
    + exists f. by rewrite !refs_at_of.
Qed.
End collision_attribution.

(** ** Lemmas: what the gathering depends on *)

(** The references of a pipeline whose spec decodes to [cfg], in no particular order. *)
Definition spec_refs `{GoRuntime} (p : Pipeline) (cfg : PipelineConfig) : list pendingSecretRef :=
  pending_of p <$> (comps_of 9 cfg ≫= options_refs).

Lemma pipeline_refs_is_Ok `{GoRuntime, Libraries} getter p :
  is_Ok (pipeline_refs getter p) ↔
  ∃ cfg, UnmarshalJson (GetSpec p) = Ok cfg ∧ secrets_ok p getter (comps_of 9 cfg).
Proof.
  unfold pipeline_refs. destruct (UnmarshalJson (GetSpec p)) as [cfg|e].
  - split.
    + intros [rs ([cs rs'] & (Hs & _)%processPipelineSecrets_Ok & _)%bind_Ok]. eauto.
    + intros (cfg' & [= <-] & Hs). destruct (processPipelineSecrets_total _ _ _ [] Hs) as [[cs rs] ->].
      by eexists.
  - split; [by intros [? ?] | by intros (? & ? & _)].
Qed.

Lemma refs_of_spec_refs `{GoRuntime, Libraries} getter p cfg :
  UnmarshalJson (GetSpec p) = Ok cfg → secrets_ok p getter (comps_of 9 cfg) →
  refs_of getter p ≡ₚ spec_refs p cfg.
Proof.
  intros Hu Hs. unfold refs_of, pipeline_refs. rewrite Hu.
  destruct (processPipelineSecrets_total _ _ _ [] Hs) as [[cs rs] Hp]. rewrite Hp. simpl.
  apply processPipelineSecrets_Ok in Hp as (_ & _ & refs & -> & Hr). simpl.
  unfold spec_refs. by rewrite Hr.
Qed.

Section pipeline_refs_agree.
Context (RT1 RT2 : GoRuntime) `{Libraries}.

Lemma pipeline_refs_agree getter p :
  is_Ok (@pipeline_refs RT1 _ getter p) ↔ is_Ok (@pipeline_refs RT2 _ getter p).
Proof.
  rewrite !pipeline_refs_is_Ok, (UnmarshalJson_agree RT1 RT2).
  by setoid_rewrite (comps_of_agree RT1 RT2 9 9).
Qed.

Lemma refs_of_agree getter p : @refs_of RT1 _ getter p ≡ₚ @refs_of RT2 _ getter p.
Proof.
  pose proof (pipeline_refs_agree getter p) as Ha.
  destruct (@pipeline_refs RT1 _ getter p) as [rs1|e1] eqn:H1.
  - assert (is_Ok (@pipeline_refs RT1 _ getter p)) as Hok by (rewrite H1; by eexists).
    apply pipeline_refs_is_Ok in Hok as (cfg & Hu & Hs).
    rewrite (refs_of_spec_refs _ _ _ Hu Hs).
    rewrite (UnmarshalJson_agree RT1 RT2) in Hu. rewrite (comps_of_agree RT1 RT2 9 9) in Hs.
    rewrite (refs_of_spec_refs _ _ _ Hu Hs). unfold spec_refs.
    by rewrite (comps_of_agree RT1 RT2 9 9).
  - unfold refs_of. rewrite H1. destruct (@pipeline_refs RT2 _ getter p) as [rs2|e2]; [|done].
    destruct (proj2 Ha) as [? ?]; [by eexists | done].
Qed.
End pipeline_refs_agree.

#[export] Instance consistent_perm : Proper ((≡ₚ) ==> iff) consistent.
Proof. intros rs1 rs2 Hp. unfold consistent. by setoid_rewrite Hp. Qed.

#[export] Instance conflict_on_perm f : Proper ((≡ₚ) ==> (≡ₚ) ==> iff) (conflict_on f).
Proof. intros a1 a2 Ha b1 b2 Hb. unfold conflict_on. by setoid_rewrite Ha; setoid_rewrite Hb. Qed.

#[export] Instance conflict_perm : Proper ((≡ₚ) ==> (≡ₚ) ==> iff) conflict.
Proof. intros a1 a2 Ha b1 b2 Hb. unfold conflict. by setoid_rewrite Ha; setoid_rewrite Hb. Qed.

#[export] Instance uses_flat_perm f : Proper ((≡ₚ) ==> iff) (uses_flat f).
Proof. intros a1 a2 Ha. unfold uses_flat. by setoid_rewrite Ha. Qed.

(** ** The outcome of collision attribution *)

Definition is_victim (cols : list SecretCollision) (p : Pipeline) : Prop :=
  ∃ c, c ∈ cols ∧ sc_victim c = p.

(** What a report says, stated without the algorithm: a pipeline is a victim
    exactly when an older pipeline that is not one disagrees with it on a key; the
    key reported is the least such key, the survivor named its oldest holder. *)
Record collision_report (refs : Pipeline → list pendingSecretRef) (ps : list Pipeline)
    (cols : list SecretCollision) : Prop := {
  cr_victims p : p ∈ ps →
    is_victim cols p ↔ ∃ q, q ∈ ps ∧ older q p ∧ ¬ is_victim cols q ∧ conflict (refs q) (refs p);
  cr_entry c : c ∈ cols → sc_victim c ∈ ps ∧
    ∃ q, q ∈ ps ∧ pipelineID q = sc_survivor c ∧ older q (sc_victim c) ∧ ¬ is_victim cols q ∧
      conflict_on (sc_flat_key c) (refs q) (refs (sc_victim c)) ∧
      (∀ q', q' ∈ ps → older q' q → ¬ is_victim cols q' → ¬ uses_flat (sc_flat_key c) (refs q')) ∧
      (∀ q' f', q' ∈ ps → older q' (sc_victim c) → ¬ is_victim cols q' →
         conflict_on f' (refs q') (refs (sc_victim c)) → String.ltb f' (sc_flat_key c) = false);
  cr_sorted : StronglySorted (λ i j, String.ltb j i = false) (pipelineID ∘ sc_victim <$> cols);
  cr_NoDup : NoDup (pipelineID ∘ sc_victim <$> cols)
}.

#[export] Instance older_dec p q : Decision (older p q).
Proof. unfold older. apply _. Defined.

Lemma older_trans a b c : older a b → older b c → older a c.
Proof.
  intros [?|[? Hab]] [?|[? Hbc]]; try (left; lia). right. split; [lia|].
  destruct (String.ltb (pipelineID a) (pipelineID c)) eqn:Hac; [done|]. exfalso.
  pose proof (string_lt_trans _ _ _ Hac (string_ltb_asym _ _ Hab)). congruence.
Qed.

(** Induction over the older pipelines of a finite pool. *)
Lemma older_ind (ps : list Pipeline) (P : Pipeline → Prop) :
  (∀ p, p ∈ ps → (∀ q, q ∈ ps → older q p → P q) → P p) → ∀ p, p ∈ ps → P p.
Proof.
  intros Hstep.
  enough (∀ n p, p ∈ ps → (length (filter (λ q, older q p) ps) < n)%nat → P p) as Hen by eauto.
  induction n as [|n IH]; intros p Hp Hn; [lia|]. apply Hstep; [done|].
  intros q Hq Ho. apply IH; [done|].
  enough (length (filter (λ x, older x q) ps) < length (filter (λ x, older x p) ps))%nat by lia.
  apply (filter_length_lt _ _ _ q); try done.
  - intros x Hx. by eapply older_trans.
  - apply older_irrefl.
Qed.

(** A report is determined by the pool and the references, up to their order. *)
Section report_unique.
Context (refs1 refs2 : Pipeline → list pendingSecretRef) (ps1 ps2 : list Pipeline).
Context (cols1 cols2 : list SecretCollision).
Context (Hps : ps1 ≡ₚ ps2) (Hrefs : ∀ p, refs1 p ≡ₚ refs2 p) (Hnd : NoDup (pipelineID <$> ps1)).
Context (H1 : collision_report refs1 ps1 cols1) (H2 : collision_report refs2 ps2 cols2).

Lemma report_victims_agree p : p ∈ ps1 → is_victim cols1 p ↔ is_victim cols2 p.
Proof.
  revert p. apply (older_ind ps1). intros p Hp IH.
  rewrite (cr_victims _ _ _ H1) by done. rewrite (cr_victims _ _ _ H2) by (by rewrite <- Hps).
  split; intros (q & Hq & Ho & Hv & Hc); exists q.
  - rewrite <- IH, <- !Hrefs, <- Hps by done. done.
  - rewrite <- Hps in Hq. rewrite IH, !Hrefs by done. done.
Qed.

Lemma report_entry_agree c1 c2 :
  c1 ∈ cols1 → c2 ∈ cols2 → sc_victim c1 = sc_victim c2 → c1 = c2.
Proof.
  intros Hc1 Hc2 Hv.
  destruct (cr_entry _ _ _ H1 _ Hc1) as (Hp1 & q1 & Hq1 & Hs1 & Ho1 & Hn1 & Hcf1 & Hold1 & Hmin1).
  destruct (cr_entry _ _ _ H2 _ Hc2) as (Hp2 & q2 & Hq2 & Hs2 & Ho2 & Hn2 & Hcf2 & Hold2 & Hmin2).
  rewrite <- Hps in Hp2, Hq2.
  assert (Hf : sc_flat_key c1 = sc_flat_key c2).
  { apply string_lt_anti.
    - apply (Hmin2 q1); [by rewrite <- Hps | by rewrite <- Hv | by rewrite <- report_victims_agree |].
      by rewrite <- !Hrefs, <- Hv.
    - apply (Hmin1 q2); [done | by rewrite Hv | by rewrite report_victims_agree |].
      by rewrite !Hrefs, Hv. }
  assert (Huse : ∀ f a b, conflict_on f a b → uses_flat f a).
  { intros f a b (r & _ & Hr & _ & Hrf & _). by exists r. }
  assert (Hid : pipelineID q1 = pipelineID q2).
  { destruct (decide (pipelineID q1 = pipelineID q2)) as [?|[Ho|Ho]%older_total]; [done| |]; exfalso.
    - apply (Hold2 q1); [by rewrite <- Hps | done | by rewrite <- report_victims_agree |].
      rewrite <- Hrefs, <- Hf. by eapply Huse.
    - apply (Hold1 q2); [done | done | by rewrite report_victims_agree |].
      rewrite Hrefs, Hf. by eapply Huse. }
  destruct c1, c2; simpl in *. congruence.
Qed.

Lemma report_unique : cols1 = cols2.
Proof.
  assert (Hin : ∀ c, c ∈ cols1 ↔ c ∈ cols2).
  { intros c. split; intros Hc.
    - destruct (cr_entry _ _ _ H1 _ Hc) as [Hp _].
      destruct (proj1 (report_victims_agree _ Hp)) as (c2 & Hc2 & Hv); [by exists c|].
      by rewrite (report_entry_agree c c2 Hc Hc2).
    - destruct (cr_entry _ _ _ H2 _ Hc) as [Hp _]. rewrite <- Hps in Hp.
      destruct (proj2 (report_victims_agree _ Hp)) as (c1 & Hc1 & Hv); [by exists c|].
      by rewrite <- (report_entry_agree c1 c Hc1 Hc). }
  set (R := λ c1 c2, String.ltb (pipelineID (sc_victim c2)) (pipelineID (sc_victim c1)) = false).
  assert (Hsort : ∀ refs ps cols, collision_report refs ps cols → StronglySorted R cols).
  { intros refs ps cols Hr. pose proof (cr_sorted _ _ _ Hr) as Hs.
    by apply (StronglySorted_fmap_inv (pipelineID ∘ sc_victim)) in Hs. }
  apply (StronglySorted_unique_strong R); [|by eapply Hsort..|].
  - intros c1 c2 Hc1 Hc2 HR1 HR2. apply report_entry_agree; [done..|].
    apply (NoDup_fmap_elem_inj pipelineID ps1); [done | by apply (cr_entry _ _ _ H1) | |].
    + rewrite Hps. by apply (cr_entry _ _ _ H2).
    + by apply string_lt_anti.
  - apply NoDup_Permutation; [| |done].
    + eapply NoDup_fmap_1, (cr_NoDup _ _ _ H1).
    + eapply NoDup_fmap_1, (cr_NoDup _ _ _ H2).
Qed.
End report_unique.

Section report.
Context `{GoRuntime, Libraries}.
Context (getter : SecretGetter).

Lemma victims_list_ids victims :
  (∀ id x, victims !! id = Some x → pipelineID x.1.1 = id) →
  pipelineID ∘ sc_victim <$> victims_list victims = sort_strings (range_map 13 victims).*1.
Proof.
  intros Hid. unfold victims_list.
  assert (Hkeys : ∀ id, id ∈ sort_strings (range_map 13 victims).*1 → is_Some (victims !! id)).
  { intros id ([id' x] & -> & Hx%range_map_lookup)%sort_slice_elem_of%list_elem_of_fmap. by eexists. }
  induction (sort_strings _) as [|id ids IH]; [done|].
  destruct (Hkeys id) as [[[p f] sv] Hv]; [by left|]. cbn [omap list_omap].
  rewrite Hv. cbn. rewrite (Hid _ _ Hv : pipelineID p = id). f_equal.
  apply IH. intros id' Hid'. apply Hkeys. by right.
Qed.

(** What [DetectSecretCollisions] returns is the report of its pool. *)
Lemma DetectSecretCollisions_report ps cols :
  NoDup (pipelineID <$> ps) → (∀ p, p ∈ ps → consistent (refs_of getter p)) →
  DetectSecretCollisions getter ps = Ok cols → collision_report (refs_of getter) ps cols.
Proof.
  intros Hnd Hcons. unfold DetectSecretCollisions. case_bool_decide as Hlen.
  { intros [= <-].
    assert (Hno : ∀ p q, p ∈ ps → q ∈ ps → ¬ older q p).
    { intros p q Hp Hq Ho. destruct ps as [|p1 [|p2 ps]]; simpl in *; try lia; [set_solver|].
      apply list_elem_of_singleton in Hp as ->, Hq as ->. by eapply older_irrefl. }
    split; [|set_solver|constructor|constructor].
    intros p Hp. split; [intros (c & ? & _); set_solver|]. intros (q & ? & ? & _). by destruct (Hno p q). }
  intros ([[byID byPipeline] ids] & Hg & Hres)%bind_Ok.
  apply gather_Gathered in Hg; [|done].
  assert (cols = victims_list (cs_victims (collision_pass byID byPipeline ids))) as ->.
  { case_bool_decide as Hsz; [|by injection Hres as <-]. injection Hres as <-.
    rewrite (gathered_size _ _ _ _ _ Hg) in Hsz. destruct ids as [|id ids]; [|done].
    unfold collision_pass, victims_list. simpl. by rewrite range_map_empty, sort_strings_spec. }
  set (victims := cs_victims (collision_pass byID byPipeline ids)).
  assert (Hvp : ∀ id p f sv, victims !! id = Some (p, f, sv) → p ∈ ps ∧ pipelineID p = id).
  { intros id p f sv Hv. pose proof (pass_inv getter ps byID byPipeline ids Hg Hcons) as Hinv.
    assert (Hin : id ∈ ids) by (apply (ci_victims _ _ _ _ Hinv); by eexists).
    destruct (gathered_lookup getter ps byID byPipeline ids Hg id Hin) as (p' & Hp' & <- & _).
    destruct (pass_victim getter ps byID byPipeline ids Hnd Hg Hcons p' _ _ _ Hp' Hv) as [-> _]. done. }
  assert (Hiv : ∀ p, p ∈ ps → is_victim (victims_list victims) p ↔ is_Some (victims !! pipelineID p)).
  { intros p Hp. unfold is_victim. setoid_rewrite victims_list_elem. split.
    - intros (c & [id Hid] & <-). destruct (Hvp _ _ _ _ Hid) as [_ ->]. by eexists.
    - intros [[[p' f] sv] Hv]. destruct (Hvp _ _ _ _ Hv) as [Hp' Hid].
      assert (p' = p) as -> by (by eapply NoDup_fmap_elem_inj).
      exists {| sc_victim := p; sc_flat_key := f; sc_survivor := sv |}. eauto. }
  assert (Hnv : ∀ q, q ∈ ps → ¬ is_victim (victims_list victims) q ↔ victims !! pipelineID q = None)
    by (intros q Hq; by rewrite Hiv, <- eq_None_not_Some).
  assert (Hids : pipelineID ∘ sc_victim <$> victims_list victims = sort_strings (range_map 13 victims).*1).
  { apply victims_list_ids. intros id [[p f] sv] Hv. by destruct (Hvp _ _ _ _ Hv). }
  split.
  - intros p Hp. rewrite Hiv by done.
    pose proof (pass_attribution getter ps byID byPipeline ids Hnd Hg Hcons p Hp) as Ha.
    fold victims in Ha. rewrite Ha.
    split; intros (q & Hq & Ho & Hv & Hc); exists q; (split; [done|]; split; [done|]; split; [|done]);
      by apply Hnv.
  - intros c [id Hc]%victims_list_elem. destruct (Hvp _ _ _ _ Hc) as [Hp <-]. split; [done|].
    destruct (pass_victim getter ps byID byPipeline ids Hnd Hg Hcons _ _ _ _ Hp Hc)
      as (_ & q & Hq & Hid & Ho & Hs & Hcf & Hold & Hmin).
    exists q. split_and!; try done; [by apply Hnv | |].
    + intros q' Hq' Ho' Hv'. apply Hold; [done | done |]. by apply Hnv.
    + intros q' f' Hq' Ho' Hv'. apply Hmin; [done | done |]. by apply Hnv.
  - rewrite Hids. apply sort_slice_sorted; eauto.
  - rewrite Hids. unfold sort_strings. rewrite sort_slice_perm. apply range_map_keys_NoDup.
Qed.

Lemma DetectSecretCollisions_is_Ok ps :
  Forall (λ p, is_Ok (pipeline_refs getter p)) ps → is_Ok (DetectSecretCollisions getter ps).
Proof.
  intros [x Hg]%gather_is_Ok. unfold DetectSecretCollisions.
  case_bool_decide; [by eexists|]. destruct x as [[byID byP] ids]. rewrite Hg. simpl.
  case_bool_decide; by eexists.
Qed.

Lemma DetectSecretCollisions_inv ps cols :
  DetectSecretCollisions getter ps = Ok cols → (2 <= length ps)%nat →
  Forall (λ p, is_Ok (pipeline_refs getter p)) ps.
Proof.
  unfold DetectSecretCollisions. intros Hd Hlen. rewrite bool_decide_eq_false_2 in Hd by lia.
  apply bind_Ok in Hd as (x & Hg & _). apply gather_is_Ok. by eexists.
Qed.
End report.

(** The pipelines left after removing the victims, by key as the callers do. *)
Definition collision_survivors (cols : list SecretCollision) (ps : list Pipeline) : list Pipeline :=
  filter (λ p, ObjectKey p ∉ ObjectKey ∘ sc_victim <$> cols) ps.

Lemma ObjectKey_ID p q : ObjectKey p = ObjectKey q → pipelineID p = pipelineID q.
Proof. unfold ObjectKey, pipelineID. by intros [= -> ->]. Qed.

Section survivors.
Context `{GoRuntime, Libraries}.
Context (getter : SecretGetter) (ps : list Pipeline) (cols : list SecretCollision).
Context (Hnd : NoDup (pipelineID <$> ps)) (Hr : collision_report (refs_of getter) ps cols).

Lemma survivor_spec p : p ∈ collision_survivors cols ps ↔ p ∈ ps ∧ ¬ is_victim cols p.
Proof.
  unfold collision_survivors. rewrite list_elem_of_filter, list_elem_of_fmap. split.
  - intros [Hn Hp]. split; [done|]. intros (c & Hc & <-). apply Hn. by exists c.
  - intros [Hp Hn]. split; [|done]. intros (c & Heq%ObjectKey_ID & Hc). apply Hn. exists c.
    split; [done|]. apply (NoDup_fmap_elem_inj pipelineID ps); [done | by apply (cr_entry _ _ _ Hr) | done | done].
Qed.

Lemma survivors_consistent :
  (∀ p, p ∈ ps → consistent (refs_of getter p)) →
  consistent (collision_survivors cols ps ≫= refs_of getter).
Proof.
  intros Hcons r1 r2 (p1 & Hr1 & [Hp1 Hv1]%survivor_spec)%list_elem_of_bind
    (p2 & Hr2 & [Hp2 Hv2]%survivor_spec)%list_elem_of_bind Hf.
  destruct (decide (pr_tuple r1 = pr_tuple r2)) as [?|Hne]; [done|]. exfalso.
  destruct (decide (pipelineID p1 = pipelineID p2)) as [Hid|[Ho|Ho]%older_total].
  - assert (p1 = p2) as -> by (by eapply NoDup_fmap_elem_inj). apply Hne. by eapply Hcons.
  - apply Hv2, (cr_victims _ _ _ Hr); [done|]. exists p1. split_and!; try done.
    exists (pr_flat r1), r1, r2. split_and!; congruence.
  - apply Hv1, (cr_victims _ _ _ Hr); [done|]. exists p2. split_and!; try done.
    exists (pr_flat r1), r2, r1. split_and!; congruence.
Qed.
End survivors.

(** ** Properties: collisions *)

(** C12: collision attribution is exact. For a pool of pipelines with distinct IDs,
    none of which names two values under one flat key of its own, a pipeline is
    reported exactly when an older pipeline that is not reported itself disagrees
    with it on a flat key; every entry names the least such key and the oldest
    unreported pipeline that holds it; entries are sorted by ID, one per victim. *)
Theorem collision_attribution_exact `{GoRuntime, Libraries} getter ps cols :
  NoDup (pipelineID <$> ps) →
  (∀ p, p ∈ ps → consistent (refs_of getter p)) →
  DetectSecretCollisions getter ps = Ok cols →
  collision_report (refs_of getter) ps cols.
Proof. apply DetectSecretCollisions_report. Qed.

(** C13: what survives attribution never collides in the merged build: whatever
    order a build queues the survivors' references in, its resolution fails only
    if some reference has no safe value of its own; and a second attribution of
    the survivors reports nothing. *)
Theorem survivors_never_collide `{GoRuntime, Libraries} getter ps cols :
  NoDup (pipelineID <$> ps) →
  (∀ p, p ∈ ps → consistent (refs_of getter p)) →
  DetectSecretCollisions getter ps = Ok cols →
  (∀ get queue, queue ≡ₚ collision_survivors cols ps ≫= refs_of getter →
     is_Ok (resolve_all get queue) ↔ ∀ r, r ∈ queue → is_Ok (resolve_ref get r)) ∧
  DetectSecretCollisions getter (collision_survivors cols ps) = Ok [].
Proof.
  intros Hnd Hcons Hd.
  pose proof (DetectSecretCollisions_report _ _ _ Hnd Hcons Hd) as Hr.
  pose proof (survivors_consistent _ _ _ Hnd Hr Hcons) as Hc. split.
  - intros get queue Hq. rewrite <- Hq in Hc. split.
    + intros [data (_ & Hall & _)%resolve_all_Ok] r (v & ? & _)%Hall. by exists v.
    + by apply resolve_all_total.
  - assert (Hsub : ∀ p, p ∈ collision_survivors cols ps → p ∈ ps)
      by (intros p Hp; by apply (survivor_spec getter ps cols Hnd Hr) in Hp as [? _]).
    assert (Hok : is_Ok (DetectSecretCollisions getter (collision_survivors cols ps))).
    { destruct (decide (2 <= length (collision_survivors cols ps))%nat) as [Hlen|Hlen].
      - apply DetectSecretCollisions_is_Ok, Forall_forall. intros p Hp.
        assert (Hall : Forall (λ p, is_Ok (pipeline_refs getter p)) ps).
        { eapply DetectSecretCollisions_inv; [done|]. etrans; [done|]. apply length_filter. }
        rewrite Forall_forall in Hall. auto.
      - unfold DetectSecretCollisions. rewrite bool_decide_eq_true_2 by lia. by eexists. }
    destruct Hok as [cols' Hd']. rewrite Hd'. f_equal.
    assert (Hr' : collision_report (refs_of getter) (collision_survivors cols ps) cols').
    { eapply DetectSecretCollisions_report; [|by eauto | done].
      eapply sublist_NoDup; [exact Hnd|]. apply fmap_sublist, sublist_filter. }
    destruct cols' as [|c cols']; [done|]. exfalso.
    destruct (cr_entry _ _ _ Hr' c) as (Hp & q & Hq & _ & Ho & _ & (r1 & r2 & Hr1 & Hr2 & Hf1 & Hf2 & Ht) & _);
      [by left|].
    apply Ht, Hc; [apply list_elem_of_bind; eauto.. | congruence].
Qed.

(** C14: attribution is the same set on every call: neither the order of the
    arguments nor anything the Go runtime leaves open (map iteration order, an
    unstable sort) changes whether it succeeds or what it reports. *)
Theorem collision_deterministic (RT1 RT2 : GoRuntime) `{Libraries} getter ps1 ps2 :
  NoDup (pipelineID <$> ps1) →
  (∀ p, p ∈ ps1 → consistent (@refs_of RT1 _ getter p)) →
  ps1 ≡ₚ ps2 →
  (is_Ok (@DetectSecretCollisions RT1 _ getter ps1) ↔ is_Ok (@DetectSecretCollisions RT2 _ getter ps2)) ∧
  (∀ cols1 cols2, @DetectSecretCollisions RT1 _ getter ps1 = Ok cols1 →
     @DetectSecretCollisions RT2 _ getter ps2 = Ok cols2 → cols1 = cols2).
Proof.
  intros Hnd Hcons Hps. split.
  - assert (Hlen : length ps1 = length ps2) by (by rewrite Hps).
    destruct (decide (2 <= length ps1)%nat) as [H2|H2].
    + assert (Hall : Forall (λ p, is_Ok (@pipeline_refs RT1 _ getter p)) ps1 ↔
                     Forall (λ p, is_Ok (@pipeline_refs RT2 _ getter p)) ps2).
      { rewrite <- Hps. apply Forall_iff. intros p. apply pipeline_refs_agree. }
      split; intros [cols Hd].
      * apply DetectSecretCollisions_is_Ok, Hall. by eapply DetectSecretCollisions_inv.
      * apply DetectSecretCollisions_is_Ok, Hall. eapply DetectSecretCollisions_inv; [done | lia].
    + unfold DetectSecretCollisions. rewrite !bool_decide_eq_true_2 by lia. split; by eexists.
  - intros cols1 cols2 H1 H2.
    apply (report_unique (@refs_of RT1 _ getter) (@refs_of RT2 _ getter) ps1 ps2); try done.
    + intros p. apply refs_of_agree.
    + by apply DetectSecretCollisions_report.
    + apply DetectSecretCollisions_report; [by rewrite <- Hps | | done].
      intros p. rewrite <- Hps, <- (refs_of_agree RT1 RT2). apply Hcons.
Qed.

(** ** Witnesses *)

Section witnesses.
#[local] Existing Instance stable_runtime.

Lemma sample_refs_consistent p : p ∈ [sample_ab; sample_a] → consistent (refs_of sample_getter p).
Proof.
  intros [->|[->|[]%elem_of_nil]%elem_of_cons]%elem_of_cons;
    vm_compute; intros ?? [->|[]%elem_of_nil]%elem_of_cons [->|[]%elem_of_nil]%elem_of_cons; done.
Qed.
End witnesses.

Definition sample_collision : SecretCollision :=
  {| sc_victim := sample_ab; sc_flat_key := "team_a_b_c_k"; sc_survivor := "team/a" |}.

Lemma collision_attribution_exact_witness :
  @collision_report (@refs_of stable_runtime _ sample_getter) [sample_ab; sample_a] [sample_collision].
Proof.
  apply (@collision_attribution_exact stable_runtime _ sample_getter).
  - vm_compute. repeat constructor; set_solver.
  - exact sample_refs_consistent.
  - vm_compute. reflexivity.
Defined.

Lemma survivors_never_collide_witness :
  @DetectSecretCollisions stable_runtime _ sample_getter
    (collision_survivors [sample_collision] [sample_ab; sample_a]) = Ok [].
Proof.
  apply (@survivors_never_collide stable_runtime _ sample_getter [sample_ab; sample_a]).
  - vm_compute. repeat constructor; set_solver.
  - exact sample_refs_consistent.
  - vm_compute. reflexivity.
Defined.

Lemma collision_deterministic_witness :
  is_Ok (@DetectSecretCollisions stable_runtime _ sample_getter [sample_ab; sample_a]) ↔
  is_Ok (@DetectSecretCollisions stable_runtime _ sample_getter [sample_a; sample_ab]).
Proof.
  apply (@collision_deterministic stable_runtime stable_runtime _ sample_getter).
  - vm_compute. repeat constructor; set_solver.
  - exact sample_refs_consistent.
  - constructor.
Defined.
