(* ===== verification/SecretSize.v ===== *)
(** * Sharing one Secret between pipelines: its size

    [src/internal/config/secrets.go], the size model and
    [DetectSecretSizeOverflow]: what the accepted pipelines stage together has to
    fit the limit on values and the budget on the whole object. *)

From S2P Require Export SecretPlan.

(** [corev1.MaxSecretSize], [apivalidation.TotalAnnotationSizeLimitB] *)
Definition MaxSecretSize : Z := 1048576.
Definition TotalAnnotationSizeLimitB : Z := 262144.

Definition etcdDefaultMaxRequestBytes : Z := 1572864.
Definition wrapperReserve : Z := 65536.
Definition SecretAssetsObjectBudget : Z :=
  etcdDefaultMaxRequestBytes - TotalAnnotationSizeLimitB - wrapperReserve.

(** ** The size model *)

Definition with_data (data : gmap string string) (s : Secret) : Secret :=
  {| sec_namespace := sec_namespace s; sec_name := sec_name s; sec_uid := sec_uid s;
     sec_resource_version := sec_resource_version s; sec_labels := sec_labels s;
     sec_annotations := sec_annotations s; sec_owners := sec_owners s; sec_data := data |}.

(** [corev1.Secret{}] *)
Definition zero_secret : Secret :=
  {| sec_namespace := ""; sec_name := ""; sec_uid := ""; sec_resource_version := "";
     sec_labels := ∅; sec_annotations := ∅; sec_owners := []; sec_data := ∅ |}.

Section sizes.
Context `{GoRuntime, Libraries}.

Definition secretObjectBaseSize (prototype : option Secret) : Z :=
  match prototype with
  | None => secret_size zero_secret
  | Some prototype => secret_size (with_data ∅ prototype)
  end.

Definition secretDataEntrySize (key value : string) : Z :=
  secret_size (with_data {[key := value]} zero_secret) - secret_size zero_secret.

Definition secretObjectSize (prototype : option Secret) (data : gmap string string) : Z :=
  fold_left (λ total '(k, v), total + secretDataEntrySize k v) (range_map 16 data)
    (secretObjectBaseSize prototype).

Definition secretDataSize (data : gmap string string) : Z :=
  fold_left (λ total '(_, v), total + go_len v) (range_map 17 data) 0.
End sizes.

(** ** The size budgets *)

Record SecretSizeExclusion := {
  se_victim : Pipeline;
  se_accepted_total : Z;
  se_pipeline_bytes : Z;
  se_object_budget : bool;
  se_accepted_object_bytes : Z;
  se_pipeline_object_bytes : Z
}.

Section overflow.
Context `{GoRuntime, Libraries}.
Context (getter : SecretGetter).

(** [valueOf]: the value of a reference, any failure marked as the pipeline's own.
    As in [resolve_ref], the source's cache only saves reads. *)
Definition valueOf (ref : pendingSecretRef) : result string :=
  match default nil_getter getter (pr_resolveNS ref) (pr_secretName ref) with
  | Err e => Err (ErrSizeData (get_failed ref e))
  | Ok secret =>
      match sec_data secret !! pr_key ref with
      | None => Err (ErrSizeData (key_not_found ref))
      | Some val => if negb (secretValueSafeForJSONText val) then Err (ErrSizeData (value_unsafe ref))
                    else Ok val
      end
  end.

(** The references of a pipeline that cost something: one per flat key, none on
    a key an accepted pipeline already brought in. *)
Fixpoint own_refs (accepted seen : gset string) (refs : list pendingSecretRef) : list pendingSecretRef :=
  match refs with
  | [] => []
  | ref :: refs =>
      if bool_decide (pr_flat ref ∈ seen) then own_refs accepted seen refs
      else let rest := own_refs accepted ({[pr_flat ref]} ∪ seen) refs in
           if bool_decide (pr_flat ref ∈ accepted) then rest else ref :: rest
  end.

(** [marginal] and [objectMarginal] *)
Definition add_marginal (acc : Z * Z) (ref : pendingSecretRef) : result (Z * Z) :=
  let '(marginal, objectMarginal) := acc in
  val ← valueOf ref;
  Ok (marginal + go_len val, objectMarginal + secretDataEntrySize (pr_flat ref) val).

Record size_state := {
  ss_accepted : gset string;
  ss_total : Z;
  ss_object_total : Z;
  ss_exclusions : list SecretSizeExclusion
}.

Definition size_step (byID : gmap string Pipeline) (byPipeline : gmap string (list pendingSecretRef))
    (s : size_state) (id : string) : result size_state :=
  let own := own_refs (ss_accepted s) ∅ (default [] (byPipeline !! id)) in
  '(marginal, objectMarginal) ← foldM add_marginal (0, 0) own;
  let exclude (e : Pipeline → SecretSizeExclusion) :=
    {| ss_accepted := ss_accepted s; ss_total := ss_total s; ss_object_total := ss_object_total s;
       ss_exclusions := ss_exclusions s ++ match byID !! id with Some p => [e p] | None => [] end |} in
  if MaxSecretSize <? ss_total s + marginal then
    Ok (exclude (λ p, {| se_victim := p; se_accepted_total := ss_total s;
                         se_pipeline_bytes := marginal; se_object_budget := false;
                         se_accepted_object_bytes := 0; se_pipeline_object_bytes := 0 |}))
  else if SecretAssetsObjectBudget <? ss_object_total s + objectMarginal then
    Ok (exclude (λ p, {| se_victim := p; se_accepted_total := ss_total s;
                         se_pipeline_bytes := marginal; se_object_budget := true;
                         se_accepted_object_bytes := ss_object_total s;
                         se_pipeline_object_bytes := objectMarginal |}))
  else
    Ok {| ss_accepted := list_to_set (pr_flat <$> own) ∪ ss_accepted s;
          ss_total := ss_total s + marginal;
          ss_object_total := ss_object_total s + objectMarginal;
          ss_exclusions := ss_exclusions s |}.

Definition size_init (assetsPrototype : option Secret) : size_state :=
  {| ss_accepted := ∅; ss_total := 0; ss_object_total := secretObjectBaseSize assetsPrototype;
     ss_exclusions := [] |}.

Definition exclusion_less (e1 e2 : SecretSizeExclusion) : bool :=
  String.ltb (pipelineID (se_victim e1)) (pipelineID (se_victim e2)).

Definition DetectSecretSizeOverflow (assetsPrototype : option Secret) (pipelines : list Pipeline)
    : result (list SecretSizeExclusion) :=
  if bool_decide (pipelines = []) then Ok [] else
  '(byID, byPipeline, orderedIDs) ← gatherPendingSecretsByPipeline getter pipelines;
  if bool_decide (size byPipeline = 0%nat) then Ok [] else
  s ← foldM (size_step byID byPipeline) (size_init assetsPrototype) orderedIDs;
  Ok (sort_slice exclusion_less (ss_exclusions s)).
End overflow.

(** ** Sizes as sums *)

Definition value_len (_ v : string) : Z := go_len v.

Section sums.
Context `{GoRuntime, Libraries}.

Lemma secretDataSize_msum data : secretDataSize data = msum value_len data.
Proof.
  unfold secretDataSize. change (λ total '(_, v), total + go_len v) with
    (λ total '(k, v), total + value_len k v). rewrite fold_range_msum. lia.
Qed.

Lemma secretObjectSize_msum proto data :
  secretObjectSize proto data = secretObjectBaseSize proto + msum secretDataEntrySize data.
Proof. unfold secretObjectSize. by rewrite fold_range_msum. Qed.
End sums.

(** ** What an exclusion says *)

Section exclusion.
Context `{GoRuntime, Libraries}.
Context (proto : option Secret).

Definition over_budget (data : gmap string string) : Prop :=
  MaxSecretSize < msum value_len data ∨
  SecretAssetsObjectBudget < secretObjectBaseSize proto + msum secretDataEntrySize data.

(** The entry for a victim, from what the older accepted pipelines stage and
    what they would stage together with it. *)
Definition exclusion_of (p : Pipeline) (before after : gmap string string) : SecretSizeExclusion :=
  let ob := bool_decide (msum value_len after <= MaxSecretSize) in
  {| se_victim := p; se_accepted_total := msum value_len before;
     se_pipeline_bytes := msum value_len after - msum value_len before;
     se_object_budget := ob;
     se_accepted_object_bytes :=
       if ob then secretObjectBaseSize proto + msum secretDataEntrySize before else 0;
     se_pipeline_object_bytes :=
       if ob then msum secretDataEntrySize after - msum secretDataEntrySize before else 0 |}.
End exclusion.

Section size_lemmas.
Context `{GoRuntime, Libraries}.
Context (getter : SecretGetter).

Lemma valueOf_resolve r v :
  valueOf getter r = Ok v ↔ resolve_ref (default nil_getter getter) r = Ok v.
Proof.
  unfold valueOf, resolve_ref. destruct (default nil_getter getter _ _) as [s|e]; [|done].
  destruct (sec_data s !! pr_key r); [|done]. by destruct (negb _).
Qed.

Lemma valueOf_tuple r1 r2 v :
  pr_tuple r1 = pr_tuple r2 → valueOf getter r1 = Ok v → valueOf getter r2 = Ok v.
Proof. rewrite !valueOf_resolve. apply resolve_ref_tuple. Qed.

Lemma own_refs_spec accepted seen refs :
  NoDup (pr_flat <$> own_refs accepted seen refs) ∧
  (∀ r, r ∈ own_refs accepted seen refs → r ∈ refs ∧ pr_flat r ∉ seen ∧ pr_flat r ∉ accepted) ∧
  (∀ r, r ∈ refs → pr_flat r ∉ seen → pr_flat r ∉ accepted →
     uses_flat (pr_flat r) (own_refs accepted seen refs)).
Proof.
  revert seen. induction refs as [|r refs IH]; intros seen; simpl.
  - split; [constructor|]. split; set_solver.
  - case_bool_decide as Hseen.
    + destruct (IH seen) as (Hnd & Hin & Hcov). split; [done|]. split.
      * intros r' Hr'. destruct (Hin _ Hr'). set_solver.
      * intros r' [->|Hr']%elem_of_cons ??; [done | auto].
    + destruct (IH ({[pr_flat r]} ∪ seen)) as (Hnd & Hin & Hcov).
      assert (Hcov' : ∀ r', r' ∈ refs → pr_flat r' ∉ seen → pr_flat r' ∉ accepted →
        pr_flat r' = pr_flat r ∨ uses_flat (pr_flat r') (own_refs accepted ({[pr_flat r]} ∪ seen) refs)).
      { intros r' Hr' Hs Ha. destruct (decide (pr_flat r' = pr_flat r)); [by left|].
        right. apply Hcov; set_solver. }
      assert (Hgrow : ∀ f l, uses_flat f l → uses_flat f (r :: l))
        by (intros f l (x & ? & ?); exists x; set_solver).
      case_bool_decide as Hacc.
      * split; [done|]. split.
        -- intros r' Hr'. destruct (Hin _ Hr'). set_solver.
        -- intros r' [->|Hr']%elem_of_cons ??; [done|].
           destruct (Hcov' r') as [Heq|?]; try done. congruence.
      * split; [|split].
        -- simpl. constructor; [|done]. intros (r' & Heq & Hr')%list_elem_of_fmap.
           destruct (Hin _ Hr') as (_ & Hs & _). set_solver.
        -- intros r' [->|Hr']%elem_of_cons; [set_solver|]. destruct (Hin _ Hr'). set_solver.
        -- intros r' [->|Hr']%elem_of_cons ??; [by exists r; set_solver|].
           destruct (Hcov' r') as [->|?]; try done; [by exists r; set_solver | auto].
Qed.

(** The marginal costs are what the new entries add to the two sums. *)
Lemma add_marginal_Ok own data a b m om :
  foldM (add_marginal getter) (a, b) own = Ok (m, om) →
  NoDup (pr_flat <$> own) → (∀ r, r ∈ own → data !! pr_flat r = None) →
  ∃ data', m = a + (msum value_len data' - msum value_len data) ∧
    om = b + (msum secretDataEntrySize data' - msum secretDataEntrySize data) ∧
    ∀ f v, data' !! f = Some v ↔
      data !! f = Some v ∨ ∃ r, r ∈ own ∧ pr_flat r = f ∧ valueOf getter r = Ok v.
Proof.
  revert data a b. induction own as [|r own IH]; intros data a b; cbn [foldM].
  - intros [= <- <-] _ _. exists data. split; [lia|]. split; [lia|]. set_solver.
  - intros (acc & (v & Hv & [= <-])%bind_Ok & Hf)%bind_Ok [Hni Hnd]%NoDup_cons Hfresh.
    assert (Hr : data !! pr_flat r = None) by (apply Hfresh; by left).
    destruct (IH (<[pr_flat r := v]> data) _ _ Hf Hnd) as (data' & -> & -> & Hlk).
    { intros r' Hr'. rewrite lookup_insert_ne; [apply Hfresh; by right|].
      intros Heq. apply Hni. rewrite Heq. by apply list_elem_of_fmap_2. }
    exists data'. rewrite !msum_insert by done. unfold value_len.
    split; [lia|]. split; [lia|]. intros f w. rewrite Hlk, lookup_insert_Some. split.
    + intros [[[<- <-]|[_ ?]]|(r' & ? & ? & ?)]; [right; exists r; set_solver | by left |].
      right. exists r'. set_solver.
    + intros [Hd|(r' & [->|Hr']%elem_of_cons & <- & Hw)].
      * left. right. split; [|done]. intros <-. congruence.
      * left. left. split; [done | congruence].
      * right. by exists r'.
Qed.

Definition excluded_ids (s : size_state) : list string := pipelineID ∘ se_victim <$> ss_exclusions s.

Context (byID : gmap string Pipeline) (byPipeline : gmap string (list pendingSecretRef)).
Context (proto : option Secret).

(** The pass after the prefix [dn]: what the accepted pipelines stage so far. *)
Record size_inv (dn : list string) (s : size_state) (data : gmap string string) : Prop := {
  si_dom f : f ∈ ss_accepted s ↔ is_Some (data !! f);
  si_total : ss_total s = msum value_len data;
  si_object : ss_object_total s = secretObjectBaseSize proto + msum secretDataEntrySize data;
  si_fits : ss_total s <= MaxSecretSize;
  si_object_fits : ss_object_total s <= Z.max (secretObjectBaseSize proto) SecretAssetsObjectBudget;
  si_from f v : data !! f = Some v →
    ∃ id r, id ∈ dn ∧ id ∉ excluded_ids s ∧ r ∈ refs_at byPipeline id ∧ pr_flat r = f ∧
      valueOf getter r = Ok v;
  si_cover id r : id ∈ dn → id ∉ excluded_ids s → r ∈ refs_at byPipeline id →
    is_Some (data !! pr_flat r);
  si_excluded id : id ∈ excluded_ids s → id ∈ dn;
  si_NoDup : NoDup (excluded_ids s)
}.

Lemma size_init_inv : size_inv [] (size_init proto) ∅.
Proof.
  split; simpl; rewrite ?msum_empty; try (unfold MaxSecretSize; lia); try set_solver.
  - intros f. rewrite lookup_empty. split; [set_solver | by intros []].
  - constructor.
Qed.

Lemma size_exclude_inv dn s data id p e :
  size_inv dn s data → id ∉ dn → pipelineID p = id → se_victim e = p →
  size_inv (dn ++ [id]) {| ss_accepted := ss_accepted s; ss_total := ss_total s;
    ss_object_total := ss_object_total s; ss_exclusions := ss_exclusions s ++ [e] |} data.
Proof.
  intros Hinv Hni Hid He.
  assert (Hex : ∀ q, q ∈ pipelineID ∘ se_victim <$> (ss_exclusions s ++ [e]) ↔
                     q ∈ excluded_ids s ∨ q = id).
  { intros q. rewrite fmap_app. unfold excluded_ids. simpl. rewrite He, Hid. set_solver. }
  split; simpl; try apply Hinv.
  - intros f v Hf. destruct (si_from _ _ _ Hinv _ _ Hf) as (q & r & Hq & Hn & ?).
    exists q, r. split; [set_solver|]. split; [|done]. unfold excluded_ids. simpl. rewrite Hex.
    intros [?| ->]; done.
  - intros q r Hq. unfold excluded_ids. simpl. rewrite Hex. intros Hn Hr.
    apply (si_cover _ _ _ Hinv q); [|tauto | done].
    apply elem_of_app in Hq as [?|?%list_elem_of_singleton]; tauto.
  - intros q. unfold excluded_ids. simpl. rewrite Hex.
    intros [Hq%(si_excluded _ _ _ Hinv)| ->]; set_solver.
  - unfold excluded_ids. simpl. rewrite fmap_app. simpl. rewrite He, Hid.
    apply NoDup_app. split; [apply Hinv|]. split; [|apply NoDup_singleton].
    intros q Hq%(si_excluded _ _ _ Hinv) ->%list_elem_of_singleton. done.
Qed.

Lemma size_accept_inv dn s data id data' :
  size_inv dn s data → id ∉ dn →
  let own := own_refs (ss_accepted s) ∅ (refs_at byPipeline id) in
  (∀ f v, data' !! f = Some v ↔
      data !! f = Some v ∨ ∃ r, r ∈ own ∧ pr_flat r = f ∧ valueOf getter r = Ok v) →
  (∀ r, r ∈ own → is_Ok (valueOf getter r)) →
  msum value_len data' <= MaxSecretSize →
  secretObjectBaseSize proto + msum secretDataEntrySize data' <=
    Z.max (secretObjectBaseSize proto) SecretAssetsObjectBudget →
  size_inv (dn ++ [id]) {| ss_accepted := list_to_set (pr_flat <$> own) ∪ ss_accepted s;
    ss_total := msum value_len data';
    ss_object_total := secretObjectBaseSize proto + msum secretDataEntrySize data';
    ss_exclusions := ss_exclusions s |} data'.
Proof.
  intros Hinv Hni own Hlk Hval Hfit Hofit.
  destruct (own_refs_spec (ss_accepted s) ∅ (refs_at byPipeline id)) as (_ & Hin & Hcov).
  fold own in Hin, Hcov.
  assert (Hmono : ∀ f, is_Some (data !! f) → is_Some (data' !! f)).
  { intros f [v Hv]. exists v. apply Hlk. by left. }
  assert (Hown : ∀ r, r ∈ own → is_Some (data' !! pr_flat r)).
  { intros r Hr. destruct (Hval _ Hr) as [v Hv]. exists v. apply Hlk. right. eauto. }
  split; simpl; try done.
  - intros f. rewrite elem_of_union, elem_of_list_to_set, list_elem_of_fmap.
    rewrite (si_dom _ _ _ Hinv). split.
    + intros [(r & -> & Hr)|?]; auto.
    + intros [v [[? ?]%mk_is_Some|(r & Hr & <- & _)]%Hlk]; [right; by eexists | left; eauto].
  - intros f v [Hv|(r & Hr & <- & Hv)]%Hlk.
    + destruct (si_from _ _ _ Hinv _ _ Hv) as (q & r & ? & ? & ?). exists q, r.
      split; [set_solver | done].
    + exists id, r. split; [set_solver|]. split; [|by destruct (Hin _ Hr)].
      intros Hex. by apply Hni, (si_excluded _ _ _ Hinv).
  - intros q r [Hq| ->%list_elem_of_singleton]%elem_of_app Hn Hr.
    + apply Hmono. by eapply (si_cover _ _ _ Hinv).
    + destruct (decide (pr_flat r ∈ ss_accepted s)) as [Ha|Ha];
        [apply Hmono; by apply (si_dom _ _ _ Hinv)|].
      destruct (Hcov r Hr ltac:(set_solver) Ha) as (r' & Hr' & <-). auto.
  - intros q Hq%(si_excluded _ _ _ Hinv). set_solver.
  - apply Hinv.
Qed.

Lemma add_marginal_values own acc x :
  foldM (add_marginal getter) acc own = Ok x → ∀ r, r ∈ own → is_Ok (valueOf getter r).
Proof.
  revert acc. induction own as [|r own IH]; intros [a b]; cbn [foldM]; [set_solver|].
  intros (acc' & (v & Hv & _)%bind_Ok & Hf)%bind_Ok r' [->|Hr']%elem_of_cons; [by exists v | eauto].
Qed.

(** The two outcomes of a step, in terms of the data it would stage. *)
Lemma size_step_cases dn s data id p s' :
  size_inv dn s data → byID !! id = Some p →
  size_step getter byID byPipeline s id = Ok s' →
  let own := own_refs (ss_accepted s) ∅ (refs_at byPipeline id) in
  ∃ data',
    (∀ f v, data' !! f = Some v ↔
      data !! f = Some v ∨ ∃ r, r ∈ own ∧ pr_flat r = f ∧ valueOf getter r = Ok v) ∧
    (∀ r, r ∈ own → is_Ok (valueOf getter r)) ∧
    (over_budget proto data' ∧
       s' = {| ss_accepted := ss_accepted s; ss_total := ss_total s;
               ss_object_total := ss_object_total s;
               ss_exclusions := ss_exclusions s ++ [exclusion_of proto p data data'] |} ∨
     ¬ over_budget proto data' ∧
       s' = {| ss_accepted := list_to_set (pr_flat <$> own) ∪ ss_accepted s;
               ss_total := msum value_len data';
               ss_object_total := secretObjectBaseSize proto + msum secretDataEntrySize data';
               ss_exclusions := ss_exclusions s |}).
Proof.
  intros Hinv Hp. unfold size_step. rewrite Hp.
  change (default [] (byPipeline !! id)) with (refs_at byPipeline id).
  intros ([m om] & Hm & Hs)%bind_Ok.
  set (own := own_refs (ss_accepted s) ∅ (refs_at byPipeline id)) in *. cbv zeta.
  destruct (own_refs_spec (ss_accepted s) ∅ (refs_at byPipeline id)) as (Hnd & Hin & _).
  fold own in Hnd, Hin.
  destruct (add_marginal_Ok own data 0 0 m om Hm Hnd) as (data' & -> & -> & Hlk).
  { intros r Hr. destruct (Hin _ Hr) as (_ & _ & Hna). apply eq_None_not_Some.
    by rewrite <- (si_dom _ _ _ Hinv). }
  exists data'. split; [done|]. split; [by eapply add_marginal_values|].
  rewrite (si_total _ _ _ Hinv), (si_object _ _ _ Hinv) in Hs |- *.
  set (sb := secretObjectBaseSize proto) in *.
  set (ed := msum secretDataEntrySize data) in *. set (ed' := msum secretDataEntrySize data') in *.
  set (ld := msum value_len data) in *. set (ld' := msum value_len data') in *.
  assert (Hov : over_budget proto data' ↔ MaxSecretSize < ld' ∨ SecretAssetsObjectBudget < sb + ed') by done.
  rewrite Hov. unfold exclusion_of. fold sb ed ed' ld ld'.
  replace (ld + (0 + (ld' - ld))) with ld' in Hs by lia.
  replace (sb + ed + (0 + (ed' - ed))) with (sb + ed') in Hs by lia.
  replace (0 + (ld' - ld)) with (ld' - ld) in Hs by lia.
  replace (0 + (ed' - ed)) with (ed' - ed) in Hs by lia.
  destruct (Z.ltb_spec MaxSecretSize ld') as [Hbig|Hfit].
  { left. split; [by left|]. injection Hs as <-. by rewrite bool_decide_eq_false_2 by lia. }
  destruct (Z.ltb_spec SecretAssetsObjectBudget (sb + ed')) as [Hbig|Hofit].
  { left. split; [by right|]. injection Hs as <-. by rewrite bool_decide_eq_true_2 by lia. }
  right. split; [lia|]. by injection Hs as <-.
Qed.

Lemma size_step_inv dn s data id p s' :
  size_inv dn s data → id ∉ dn → byID !! id = Some p → pipelineID p = id →
  size_step getter byID byPipeline s id = Ok s' →
  ∃ data', size_inv (dn ++ [id]) s' data'.
Proof.
  intros Hinv Hni Hp Hid Hs.
  destruct (size_step_cases _ _ _ _ _ _ Hinv Hp Hs) as (data' & Hlk & Hval & [[_ ->]|[Hno ->]]).
  - exists data. by eapply size_exclude_inv.
  - exists data'. unfold over_budget in Hno. apply size_accept_inv with (data := data); (done || lia).
Qed.
End size_lemmas.

(** ** Verdicts *)

Section verdicts.
Context `{GoRuntime, Libraries}.
Context (getter : SecretGetter).

(** [data] is what a list of references stages: each one's value under its key. *)
Definition stages (rs : list pendingSecretRef) (data : gmap string string) : Prop :=
  ∀ f v, data !! f = Some v ↔ ∃ r, r ∈ rs ∧ pr_flat r = f ∧ valueOf getter r = Ok v.

Lemma stages_unique rs1 rs2 d1 d2 :
  (∀ r, r ∈ rs1 ↔ r ∈ rs2) → stages rs1 d1 → stages rs2 d2 → d1 = d2.
Proof.
  intros Hrs H1 H2. apply map_eq. intros f. apply option_eq. intros v.
  rewrite (H1 f v), (H2 f v). by setoid_rewrite Hrs.
Qed.

Context (proto : option Secret).
Context (byID : gmap string Pipeline) (byPipeline : gmap string (list pendingSecretRef)).
Notation R := (refs_at byPipeline).

Definition accepted_ids (s : size_state) (ids : list string) : list string :=
  filter (λ q, q ∉ excluded_ids s) ids.

Definition verdict (s : size_state) (d1 : list string) (id : string) : Prop :=
  ∃ before after,
    stages (accepted_ids s d1 ≫= R) before ∧
    stages ((accepted_ids s d1 ≫= R) ++ R id) after ∧
    (id ∈ excluded_ids s ↔ over_budget proto after) ∧
    (∀ e, e ∈ ss_exclusions s → pipelineID (se_victim e) = id →
       byID !! id = Some (se_victim e) ∧ e = exclusion_of proto (se_victim e) before after).

Definition verdicts (dn : list string) (s : size_state) : Prop :=
  ∀ d1 id d2, dn = d1 ++ id :: d2 → verdict s d1 id.

Lemma size_inv_stages dn s data :
  consistent (dn ≫= R) → size_inv getter byPipeline proto dn s data →
  stages (accepted_ids s dn ≫= R) data.
Proof.
  intros Hc Hinv f v. split.
  - intros Hf. destruct (si_from _ _ _ _ _ _ Hinv _ _ Hf) as (id & r & Hid & Hn & Hr & Hrf & Hv).
    exists r. split; [|done]. apply list_elem_of_bind. exists id. split; [done|].
    by apply list_elem_of_filter.
  - intros (r & (id & Hr & [Hn Hid]%list_elem_of_filter)%list_elem_of_bind & <- & Hv).
    destruct (si_cover _ _ _ _ _ _ Hinv _ _ Hid Hn Hr) as [w Hw]. rewrite Hw.
    destruct (si_from _ _ _ _ _ _ Hinv _ _ Hw) as (id' & r' & Hid' & _ & Hr' & Hrf & Hv').
    assert (Ht : pr_tuple r' = pr_tuple r) by (apply Hc; [apply list_elem_of_bind; eauto.. | done]).
    pose proof (valueOf_tuple getter _ _ _ Ht Hv'). congruence.
Qed.

(** The candidate data of a step is what the accepted pipelines and the next one
    stage together. *)
Lemma candidate_stages dn s data id after :
  consistent ((dn ++ [id]) ≫= R) → size_inv getter byPipeline proto dn s data →
  (∀ f v, after !! f = Some v ↔
      data !! f = Some v ∨ ∃ r, r ∈ own_refs (ss_accepted s) ∅ (R id) ∧ pr_flat r = f ∧
        valueOf getter r = Ok v) →
  (∀ r, r ∈ own_refs (ss_accepted s) ∅ (R id) → is_Ok (valueOf getter r)) →
  stages ((accepted_ids s dn ≫= R) ++ R id) after.
Proof.
  intros Hc Hinv Hlk Hval f v.
  assert (Hmem : ∀ q r, q ∈ dn ++ [id] → r ∈ R q → r ∈ (dn ++ [id]) ≫= R)
    by (intros; apply list_elem_of_bind; eauto).
  assert (Hst : stages (accepted_ids s dn ≫= R) data).
  { apply size_inv_stages; [|done]. intros r1 r2 (q1 & ? & ?)%list_elem_of_bind (q2 & ? & ?)%list_elem_of_bind.
    apply Hc; eapply Hmem; set_solver. }
  destruct (own_refs_spec (ss_accepted s) ∅ (R id)) as (_ & Hin & Hcov).
  rewrite Hlk. split.
  - intros [Hd|(r & Hr & Hf & Hv)].
    + apply Hst in Hd as (r & Hr & ?). exists r. split; [set_solver | done].
    + destruct (Hin _ Hr). exists r. split; [set_solver | done].
  - intros (r & [Hr|Hr]%elem_of_app & <- & Hv); [left; apply Hst; eauto|].
    destruct (decide (pr_flat r ∈ ss_accepted s)) as [Ha|Ha].
    + left. apply (si_dom _ _ _ _ _ _ Hinv) in Ha as [w Hw]. rewrite Hw.
      apply (si_from _ _ _ _ _ _ Hinv) in Hw as (q & r' & Hq & _ & Hr' & Hf' & Hv').
      assert (Ht : pr_tuple r' = pr_tuple r) by (apply Hc; [eapply Hmem; set_solver.. | done]).
      pose proof (valueOf_tuple getter _ _ _ Ht Hv'). congruence.
    + right. destruct (Hcov r Hr ltac:(set_solver) Ha) as (r' & Hr' & Hf'). exists r'.
      split; [done|]. split; [done|]. destruct (Hin _ Hr') as (Hr'' & _).
      assert (Ht : pr_tuple r = pr_tuple r') by (apply Hc; [eapply Hmem; set_solver.. | done]).
      by eapply valueOf_tuple.
Qed.

(** Adding a verdict leaves those before it as they were. *)
Lemma verdict_extend s s' (dn : list string) d1 id :
  (∀ q, q ∈ dn → q ∈ excluded_ids s' ↔ q ∈ excluded_ids s) →
  (∀ e, e ∈ ss_exclusions s' → pipelineID (se_victim e) ∈ dn → e ∈ ss_exclusions s) →
  (∀ q, q ∈ d1 → q ∈ dn) → id ∈ dn → verdict s d1 id → verdict s' d1 id.
Proof.
  intros Hex Hes Hd1 Hid (b & a & Hb & Ha & Hv & He).
  assert (accepted_ids s' d1 = accepted_ids s d1) as Heq.
  { unfold accepted_ids. apply list_filter_ext_elem. intros q Hq. rewrite Hex by auto. done. }
  exists b, a. rewrite Heq. split; [done|]. split; [done|]. split; [by rewrite Hex|].
  intros e He' Heid. apply He; [|done]. apply Hes; [done | by rewrite Heid].
Qed.

Lemma size_step_verdicts dn s data id p s' :
  consistent ((dn ++ [id]) ≫= R) → size_inv getter byPipeline proto dn s data →
  verdicts dn s → id ∉ dn → byID !! id = Some p → pipelineID p = id →
  size_step getter byID byPipeline s id = Ok s' → verdicts (dn ++ [id]) s'.
Proof.
  intros Hc Hinv Hver Hni Hp Hid Hs.
  destruct (size_step_cases _ _ _ _ _ _ _ _ _ _ Hinv Hp Hs) as (after & Hlk & Hval & Hcase).
  assert (Hex : ∀ q, q ∈ dn → q ∈ excluded_ids s' ↔ q ∈ excluded_ids s).
  { intros q Hq. assert (q ≠ id) by (by intros ->). unfold excluded_ids.
    destruct Hcase as [[_ ->]|[_ ->]]; [|done]. simpl. rewrite fmap_app. simpl. set_solver. }
  assert (Hes : ∀ e, e ∈ ss_exclusions s' → pipelineID (se_victim e) ∈ dn → e ∈ ss_exclusions s).
  { intros e He Hin. destruct Hcase as [[_ ->]|[_ ->]]; [|done]. simpl in He.
    apply elem_of_app in He as [?| ->%list_elem_of_singleton]; [done|].
    destruct Hni. rewrite <- Hid. exact Hin. }
  assert (Hold : ∀ e, e ∈ ss_exclusions s → pipelineID (se_victim e) ≠ id).
  { intros e He Heq. apply Hni, (si_excluded _ _ _ _ _ _ Hinv). rewrite <- Heq.
    apply list_elem_of_fmap. by exists e. }
  intros d1 id' d2 [(-> & <- & ->)|(d2' & -> & Hd)]%snoc_split.
  - assert (accepted_ids s' dn = accepted_ids s dn) as Heq.
    { unfold accepted_ids. apply list_filter_ext_elem. intros q Hq. by rewrite Hex. }
    exists data, after. rewrite Heq. split; [|split; [|split]].
    + apply size_inv_stages; [|done]. intros r1 r2 (q1 & ? & ?)%list_elem_of_bind (q2 & ? & ?)%list_elem_of_bind.
      apply Hc; apply list_elem_of_bind; [exists q1|exists q2]; set_solver.
    + by eapply candidate_stages.
    + destruct Hcase as [[Ho ->]|[Ho ->]].
      * split; [done|]. intros _. unfold excluded_ids. simpl. rewrite fmap_app. simpl.
        rewrite Hid. set_solver.
      * split; [|done]. intros Hin%(si_excluded _ _ _ _ _ _ Hinv). done.
    + intros e He Heid. destruct Hcase as [[Ho ->]|[Ho ->]]; simpl in He.
      * apply elem_of_app in He as [He| ->%list_elem_of_singleton]; [by destruct (Hold e)|]. done.
      * by destruct (Hold e).
  - apply (verdict_extend s s' dn); try done; [rewrite Hd; set_solver.. |]. by apply (Hver d1 id' d2').
Qed.

Lemma size_pass_verdicts ids s :
  NoDup ids → consistent (ids ≫= R) → (∀ id, id ∈ ids → ∃ p, byID !! id = Some p ∧ pipelineID p = id) →
  foldM (size_step getter byID byPipeline) (size_init proto) ids = Ok s →
  verdicts ids s ∧ ∃ data, size_inv getter byPipeline proto ids s data.
Proof.
  intros Hnd Hc Hids.
  enough (∀ dn s0 data, NoDup (dn ++ ids) → consistent ((dn ++ ids) ≫= R) →
    size_inv getter byPipeline proto dn s0 data → verdicts dn s0 →
    foldM (size_step getter byID byPipeline) s0 ids = Ok s →
    verdicts (dn ++ ids) s ∧ ∃ data', size_inv getter byPipeline proto (dn ++ ids) s data') as Hen.
  { apply (Hen [] _ _ Hnd Hc (size_init_inv _ _ _)). by intros []. }
  clear Hnd Hc. induction ids as [|id ids IH]; intros dn s0 data Hnd Hc Hinv Hver; cbn [foldM].
  - intros [= <-]. rewrite app_nil_r. eauto.
  - intros (s1 & Hs & Hl)%bind_Ok. destruct (Hids id) as (p & Hp & Hid); [by left|].
    rewrite cons_middle, (assoc_L (++)) in Hnd, Hc |- *.
    assert (Hni : id ∉ dn).
    { apply NoDup_app in Hnd as [Hnd _]. apply NoDup_app in Hnd as (_ & Hn & _).
      intros Hin. apply (Hn id Hin). set_solver. }
    assert (Hc1 : consistent ((dn ++ [id]) ≫= R)).
    { intros r1 r2 (q1 & ? & ?)%list_elem_of_bind (q2 & ? & ?)%list_elem_of_bind.
      apply Hc; apply list_elem_of_bind; [exists q1|exists q2]; set_solver. }
    destruct (size_step_inv getter byID byPipeline proto dn s0 data id p s1 Hinv Hni Hp Hid Hs) as [data1 Hinv1].
    eapply IH; try done; [intros id' Hid'; apply Hids; by right|]. by eapply size_step_verdicts.
Qed.
End verdicts.

(** ** The outcome of size attribution *)

Definition is_excluded (ex : list SecretSizeExclusion) (p : Pipeline) : Prop :=
  ∃ e, e ∈ ex ∧ se_victim e = p.

(** The pipelines left after removing the victims, by key as the callers do. *)
Definition size_survivors (ex : list SecretSizeExclusion) (ps : list Pipeline) : list Pipeline :=
  filter (λ p, ObjectKey p ∉ ObjectKey ∘ se_victim <$> ex) ps.

Definition older_than (p : Pipeline) (ps : list Pipeline) : list Pipeline := filter (λ q, older q p) ps.

(** A pipeline is excluded exactly when what it would stage together with the older
    pipelines that are not excluded breaks a budget; its entry gives the sizes. *)
Record size_report `{GoRuntime, Libraries} (getter : SecretGetter) (proto : option Secret)
    (refs : Pipeline → list pendingSecretRef) (ps : list Pipeline) (ex : list SecretSizeExclusion) : Prop := {
  zr_verdict p : p ∈ ps → refs p ≠ [] →
    ∃ before after,
      stages getter (size_survivors ex (older_than p ps) ≫= refs) before ∧
      stages getter ((size_survivors ex (older_than p ps) ≫= refs) ++ refs p) after ∧
      (is_excluded ex p ↔ over_budget proto after) ∧
      ∀ e, e ∈ ex → se_victim e = p → e = exclusion_of proto p before after;
  zr_victims e : e ∈ ex → se_victim e ∈ ps ∧ refs (se_victim e) ≠ [];
  zr_sorted : StronglySorted (λ i j, String.ltb j i = false) (pipelineID ∘ se_victim <$> ex);
  zr_NoDup : NoDup (pipelineID ∘ se_victim <$> ex)
}.

Section size_report.
Context `{GoRuntime, Libraries}.
Context (getter : SecretGetter) (proto : option Secret) (ps : list Pipeline).
Context (Hnd : NoDup (pipelineID <$> ps)) (Hc : consistent (ps ≫= refs_of getter)).

Lemma size_survivors_spec ex p :
  (∀ e, e ∈ ex → se_victim e ∈ ps) → p ∈ ps →
  ObjectKey p ∉ ObjectKey ∘ se_victim <$> ex ↔ ¬ is_excluded ex p.
Proof.
  intros Hex Hp. rewrite list_elem_of_fmap. split.
  - intros Hn (e & He & <-). apply Hn. by exists e.
  - intros Hn (e & Heq%ObjectKey_ID & He). apply Hn. exists e. split; [done|].
    apply (NoDup_fmap_elem_inj pipelineID ps); auto.
Qed.

Lemma stages_iff rs1 rs2 data :
  (∀ r, r ∈ rs1 ↔ r ∈ rs2) → stages getter rs1 data → stages getter rs2 data.
Proof. intros Hrs Hs f v. rewrite (Hs f v). by setoid_rewrite Hrs. Qed.

Lemma no_refs_report : (∀ p, p ∈ ps → refs_of getter p = []) → size_report getter proto (refs_of getter) ps [].
Proof.
  intros Hno. split; [|set_solver|constructor|constructor].
  intros p Hp Hne. by rewrite Hno in Hne.
Qed.

Section pass.
Context (byID : gmap string Pipeline) (byPipeline : gmap string (list pendingSecretRef)).
Context (ids : list string) (s : size_state).
Context (Hg : Gathered getter ps byID byPipeline ids).
Context (Hs : foldM (size_step getter byID byPipeline) (size_init proto) ids = Ok s).
Let ex := sort_slice exclusion_less (ss_exclusions s).

Lemma pass_facts :
  verdicts getter proto byID byPipeline ids s ∧
  ∃ data, size_inv getter byPipeline proto ids s data.
Proof.
  apply size_pass_verdicts; [by eapply gathered_NoDup | | | done].
  - intros r1 r2 (q1 & Hr1 & Hq1)%list_elem_of_bind (q2 & Hr2 & Hq2)%list_elem_of_bind.
    destruct (gathered_lookup _ _ _ _ _ Hg _ Hq1) as (p1 & Hp1 & <- & _).
    destruct (gathered_lookup _ _ _ _ _ Hg _ Hq2) as (p2 & Hp2 & <- & _).
    rewrite (refs_at_of _ _ _ _ _ Hg) in Hr1, Hr2 by done.
    apply Hc; apply list_elem_of_bind; eauto.
  - intros id Hid. destruct (gathered_lookup _ _ _ _ _ Hg _ Hid) as (p & Hp & <- & ?). eauto.
Qed.

Lemma pass_victim_in e :
  e ∈ ss_exclusions s → se_victim e ∈ ps ∧ refs_of getter (se_victim e) ≠ [].
Proof.
  intros He. destruct pass_facts as [Hver [data Hinv]].
  assert (Hid : pipelineID (se_victim e) ∈ ids).
  { apply (si_excluded _ _ _ _ _ _ Hinv). apply list_elem_of_fmap. by exists e. }
  destruct (list_elem_of_split _ _ Hid) as (d1 & d2 & Heq).
  destruct (Hver _ _ _ Heq) as (b & a & _ & _ & _ & Hent).
  destruct (Hent e He eq_refl) as [Hby _].
  apply (gathered_byID _ _ _ _ _ Hg) in Hby as [Hp _]. split; [done|].
  apply (gathered_ids _ _ _ _ _ Hg) in Hid as (p & Hp' & Hpid & Hne).
  by rewrite (NoDup_fmap_elem_inj pipelineID ps (se_victim e) p).
Qed.

Lemma pass_excluded p : p ∈ ps → pipelineID p ∈ excluded_ids s ↔ is_excluded ex p.
Proof.
  intros Hp. unfold excluded_ids, is_excluded, ex. rewrite list_elem_of_fmap. split.
  - intros (e & Heq & He). exists e. rewrite sort_slice_elem_of. split; [done|].
    destruct (pass_victim_in _ He) as [? _]. by apply (NoDup_fmap_elem_inj pipelineID ps).
  - intros (e & He%sort_slice_elem_of & <-). by exists e.
Qed.

(** The accepted IDs of a part of the order, as pipelines. *)
Lemma pass_accepted l qs r :
  (∀ q, q ∈ ps → pipelineID q ∈ l ↔ pipelineID q ∈ ids ∧ q ∈ qs) →
  (∀ q, q ∈ qs → q ∈ ps) → (∀ id, id ∈ l → id ∈ ids) →
  r ∈ accepted_ids s l ≫= refs_at byPipeline ↔ r ∈ size_survivors ex qs ≫= refs_of getter.
Proof.
  intros Hl Hqs Hlids. rewrite !list_elem_of_bind. split.
  - intros (id & Hr & [Hn Hid]%list_elem_of_filter).
    destruct (gathered_lookup _ _ _ _ _ Hg _ (Hlids _ Hid)) as (q & Hq & <- & _).
    rewrite (refs_at_of _ _ _ _ _ Hg) in Hr by done. exists q. split; [done|].
    apply Hl in Hid as [_ Hqq]; [|done]. apply list_elem_of_filter. split; [|done].
    apply size_survivors_spec; [|done|by rewrite <- pass_excluded].
    intros e He%sort_slice_elem_of. by apply pass_victim_in.
  - intros (q & Hr & [Hn Hq]%list_elem_of_filter). pose proof (Hqs _ Hq) as Hqp.
    exists (pipelineID q). rewrite (refs_at_of _ _ _ _ _ Hg) by done. split; [done|].
    apply size_survivors_spec in Hn; [|by intros e He%sort_slice_elem_of; apply pass_victim_in | done].
    apply list_elem_of_filter. split; [by rewrite pass_excluded|].
    apply Hl; [done|]. split; [by eapply gathered_in | done].
Qed.

Lemma pass_report : size_report getter proto (refs_of getter) ps ex.
Proof.
  destruct pass_facts as [Hver [data Hinv]]. split.
  - intros p Hp Hne. destruct (refs_of getter p) as [|r0 rs0] eqn:Hr0; [done|].
    assert (Hid : pipelineID p ∈ ids) by (eapply gathered_in; [done..| rewrite Hr0; by left]).
    rewrite <- Hr0. clear Hne Hr0 r0 rs0.
    destruct (list_elem_of_split _ _ Hid) as (d1 & d2 & Heq).
    destruct (Hver _ _ _ Heq) as (before & after & Hb & Ha & Hv & Hent).
    assert (Hacc : ∀ r, r ∈ accepted_ids s d1 ≫= refs_at byPipeline ↔
              r ∈ size_survivors ex (older_than p ps) ≫= refs_of getter).
    { intros r. apply pass_accepted.
      - intros q Hq. rewrite (before_older _ _ _ _ _ Hnd Hg d1 d2 p q) by done.
        unfold older_than. rewrite list_elem_of_filter. naive_solver.
      - intros q [_ ?]%list_elem_of_filter. done.
      - rewrite Heq. set_solver. }
    exists before, after. split; [by eapply stages_iff|]. split; [|split].
    + eapply stages_iff; [|exact Ha]. intros r.
      by rewrite !elem_of_app, Hacc, (refs_at_of _ _ _ _ _ Hg).
    + by rewrite <- pass_excluded.
    + intros e He%sort_slice_elem_of <-. by apply Hent.
  - intros e He%sort_slice_elem_of. by apply pass_victim_in.
  - pose proof (sort_slice_sorted exclusion_less (ss_exclusions s)) as Hsort.
    unfold exclusion_less in Hsort at 5. apply StronglySorted_fmap_2.
    eapply StronglySorted_weaken; [|apply sort_slice_sorted]; unfold exclusion_less; eauto.
  - unfold ex. rewrite sort_slice_perm. apply Hinv.
Qed.

Lemma pass_data :
  ∃ data, stages getter (size_survivors ex ps ≫= refs_of getter) data ∧
    (∀ r, r ∈ size_survivors ex ps ≫= refs_of getter → is_Some (data !! pr_flat r)) ∧
    msum value_len data <= MaxSecretSize ∧
    secretObjectBaseSize proto + msum secretDataEntrySize data <=
      Z.max (secretObjectBaseSize proto) SecretAssetsObjectBudget.
Proof.
  destruct pass_facts as [_ [data Hinv]]. exists data.
  assert (Hacc : ∀ r, r ∈ accepted_ids s ids ≫= refs_at byPipeline ↔
                      r ∈ size_survivors ex ps ≫= refs_of getter).
  { intros r. apply pass_accepted; [|done|done]. intros q Hq. split; [by split | by intros []]. }
  split; [|split].
  - eapply stages_iff; [|eapply size_inv_stages; [|exact Hinv]].
    + exact Hacc.
    + intros r1 r2 (q1 & Hr1 & Hq1)%list_elem_of_bind (q2 & Hr2 & Hq2)%list_elem_of_bind.
      destruct (gathered_lookup _ _ _ _ _ Hg _ Hq1) as (p1 & Hp1 & <- & _).
      destruct (gathered_lookup _ _ _ _ _ Hg _ Hq2) as (p2 & Hp2 & <- & _).
      rewrite (refs_at_of _ _ _ _ _ Hg) in Hr1, Hr2 by done.
      apply Hc; apply list_elem_of_bind; eauto.
  - intros r (id & Hr & [Hn Hid]%list_elem_of_filter)%Hacc%list_elem_of_bind.
    by eapply (si_cover _ _ _ _ _ _ Hinv).
  - rewrite <- (si_total _ _ _ _ _ _ Hinv), <- (si_object _ _ _ _ _ _ Hinv).
    split; apply Hinv.
Qed.
End pass.

Lemma DetectSecretSizeOverflow_report ex :
  DetectSecretSizeOverflow getter proto ps = Ok ex →
  size_report getter proto (refs_of getter) ps ex ∧
  ∃ data, stages getter (size_survivors ex ps ≫= refs_of getter) data ∧
    (∀ r, r ∈ size_survivors ex ps ≫= refs_of getter → is_Some (data !! pr_flat r)) ∧
    msum value_len data <= MaxSecretSize ∧
    secretObjectBaseSize proto + msum secretDataEntrySize data <=
      Z.max (secretObjectBaseSize proto) SecretAssetsObjectBudget.
Proof.
  assert (Htriv : (∀ p, p ∈ ps → refs_of getter p = []) →
    size_report getter proto (refs_of getter) ps [] ∧
    ∃ data, stages getter (size_survivors [] ps ≫= refs_of getter) data ∧
      (∀ r, r ∈ size_survivors [] ps ≫= refs_of getter → is_Some (data !! pr_flat r)) ∧
      msum value_len data <= MaxSecretSize ∧
      secretObjectBaseSize proto + msum secretDataEntrySize data <=
        Z.max (secretObjectBaseSize proto) SecretAssetsObjectBudget).
  { intros Hno. split; [by apply no_refs_report|]. exists ∅. rewrite !msum_empty.
    assert (Hnil : ∀ r, r ∉ size_survivors [] ps ≫= refs_of getter).
    { intros r (p & Hr & [_ Hp]%list_elem_of_filter)%list_elem_of_bind.
      rewrite Hno in Hr by done. set_solver. }
    split; [|split; [|split; [done | lia]]].
    - intros f v. rewrite lookup_empty. split; [done|]. by intros (r & []%Hnil & _).
    - by intros r []%Hnil. }
  unfold DetectSecretSizeOverflow. case_bool_decide as Hps.
  { intros [= <-]. apply Htriv. intros p. rewrite Hps. set_solver. }
  intros ([[byID byPipeline] ids] & Hg & Hres)%bind_Ok. apply gather_Gathered in Hg; [|done].
  case_bool_decide as Hsz.
  { injection Hres as <-. rewrite (gathered_size _ _ _ _ _ Hg) in Hsz. apply Htriv. intros p Hp.
    destruct (refs_of getter p) as [|r rs] eqn:Hr; [done|].
    assert (pipelineID p ∈ ids) as Hin by (eapply gathered_in; [done..| rewrite Hr; by left]).
    destruct ids; [set_solver | done]. }
  clear Htriv. apply bind_Ok in Hres as (s & Hs & [= <-]).
  split; [eapply pass_report; done | eapply pass_data; done].
Qed.
End size_report.

(** A report is determined by the pool and the references, up to their order. *)
Section size_unique.
Context (RT1 RT2 : GoRuntime) `{Libraries} (getter : SecretGetter) (proto : option Secret).
Context (ps1 ps2 : list Pipeline) (ex1 ex2 : list SecretSizeExclusion).
Context (Hps : ps1 ≡ₚ ps2) (Hnd : NoDup (pipelineID <$> ps1)).
Notation refs1 := (@refs_of RT1 _ getter).
Notation refs2 := (@refs_of RT2 _ getter).
Context (H1 : @size_report RT1 _ getter proto refs1 ps1 ex1).
Context (H2 : @size_report RT2 _ getter proto refs2 ps2 ex2).

Lemma valueOf_agree r v : @valueOf RT1 getter r = Ok v ↔ @valueOf RT2 getter r = Ok v.
Proof.
  unfold valueOf. destruct (default nil_getter getter _ _) as [s|e]; [|done].
  destruct (sec_data s !! pr_key r); [|done]. by destruct (negb _).
Qed.

Lemma stages_agree rs1 rs2 d1 d2 :
  (∀ r, r ∈ rs1 ↔ r ∈ rs2) → @stages RT1 getter rs1 d1 → @stages RT2 getter rs2 d2 → d1 = d2.
Proof.
  intros Hrs Hd1 Hd2. apply map_eq. intros f. apply option_eq. intros v.
  rewrite (Hd1 f v), (Hd2 f v). setoid_rewrite Hrs. by setoid_rewrite valueOf_agree.
Qed.

Lemma excluded_refs p : p ∈ ps1 → is_excluded ex1 p ∨ is_excluded ex2 p → refs1 p ≠ [].
Proof.
  intros Hp [(e & He & <-)|(e & He & <-)] Hno.
  - by destruct (zr_victims _ _ _ _ _ H1 _ He).
  - destruct (zr_victims _ _ _ _ _ H2 _ He) as [_ Hne]. apply Hne.
    apply Permutation_nil. by rewrite <- (refs_of_agree RT1 RT2), Hno.
Qed.

(** What one pipeline's verdict rests on, in both reports. *)
Lemma verdict_agree p :
  p ∈ ps1 → refs1 p ≠ [] →
  (∀ q, q ∈ ps1 → older q p → is_excluded ex1 q ↔ is_excluded ex2 q) →
  (is_excluded ex1 p ↔ is_excluded ex2 p) ∧
  ∀ e1 e2, e1 ∈ ex1 → e2 ∈ ex2 → se_victim e1 = p → se_victim e2 = p → e1 = e2.
Proof.
  intros Hp Hne Hold.
  destruct (zr_verdict _ _ _ _ _ H1 p Hp Hne) as (b1 & a1 & Hb1 & Ha1 & Hv1 & He1).
  destruct (zr_verdict _ _ _ _ _ H2 p) as (b2 & a2 & Hb2 & Ha2 & Hv2 & He2).
  { by rewrite <- Hps. }
  { intros Hno. apply Hne, Permutation_nil. by rewrite (refs_of_agree RT1 RT2), Hno. }
  assert (Hin1 : ∀ e, e ∈ ex1 → se_victim e ∈ ps1) by (intros e He; by apply (zr_victims _ _ _ _ _ H1)).
  assert (Hin2 : ∀ e, e ∈ ex2 → se_victim e ∈ ps1)
    by (intros e He; rewrite Hps; by apply (zr_victims _ _ _ _ _ H2)).
  assert (Hsurv : ∀ q, q ∈ size_survivors ex1 (older_than p ps1) ↔ q ∈ size_survivors ex2 (older_than p ps2)).
  { intros q. unfold size_survivors, older_than. rewrite !list_elem_of_filter, <- Hps.
    split; intros (Hn & Ho & Hq); (split; [|done]).
    - apply (size_survivors_spec ps1 Hnd ex2); [done..|]. rewrite <- Hold by done.
      by apply (size_survivors_spec ps1 Hnd ex1).
    - apply (size_survivors_spec ps1 Hnd ex1); [done..|]. rewrite Hold by done.
      by apply (size_survivors_spec ps1 Hnd ex2). }
  assert (Hmem : ∀ r, r ∈ size_survivors ex1 (older_than p ps1) ≫= refs1 ↔
                      r ∈ size_survivors ex2 (older_than p ps2) ≫= refs2).
  { intros r. rewrite !list_elem_of_bind. setoid_rewrite Hsurv.
    split; intros (q & Hr & Hq); exists q; (split; [|done]).
    - by rewrite <- (refs_of_agree RT1 RT2).
    - by rewrite (refs_of_agree RT1 RT2). }
  assert (b1 = b2) as -> by (by eapply stages_agree).
  assert (a1 = a2) as ->.
  { eapply stages_agree; [|exact Ha1|exact Ha2]. intros r.
    by rewrite !elem_of_app, Hmem, (refs_of_agree RT1 RT2). }
  split; [by rewrite Hv1, Hv2|]. intros e1 e2 Hin Hin' Hp1 Hp2.
  by rewrite (He1 _ Hin Hp1), (He2 _ Hin' Hp2).
Qed.

Lemma excluded_agree p : p ∈ ps1 → is_excluded ex1 p ↔ is_excluded ex2 p.
Proof.
  revert p. apply (older_ind ps1). intros p Hp IH.
  destruct (decide (length (refs1 p) = 0%nat)) as [Hno%length_zero_iff_nil|Hne].
  - split; intros Hex; exfalso; by eapply (excluded_refs p Hp); [eauto|].
  - apply verdict_agree; [done| |done]. intros Hno. apply Hne. by rewrite Hno.
Qed.

Lemma size_report_unique : ex1 = ex2.
Proof.
  assert (Hent : ∀ e1 e2, e1 ∈ ex1 → e2 ∈ ex2 → se_victim e1 = se_victim e2 → e1 = e2).
  { intros e1 e2 He1 He2 Hv. destruct (zr_victims _ _ _ _ _ H1 _ He1) as [Hp Hne].
    eapply (verdict_agree (se_victim e1)); try done.
    intros q Hq _. by apply excluded_agree. }
  assert (Hin : ∀ e, e ∈ ex1 ↔ e ∈ ex2).
  { intros e. split; intros He.
    - destruct (zr_victims _ _ _ _ _ H1 _ He) as [Hp _].
      destruct (proj1 (excluded_agree _ Hp)) as (e2 & He2 & Hv); [by exists e|].
      by rewrite (Hent e e2).
    - destruct (zr_victims _ _ _ _ _ H2 _ He) as [Hp _]. rewrite <- Hps in Hp.
      destruct (proj2 (excluded_agree _ Hp)) as (e1 & He1 & Hv); [by exists e|].
      by rewrite <- (Hent e1 e). }
  set (S := λ e1 e2, String.ltb (pipelineID (se_victim e2)) (pipelineID (se_victim e1)) = false).
  apply (StronglySorted_unique_strong S).
  - intros e1 e2 He1 He2 HR1 HR2. apply Hent; [done..|].
    apply (NoDup_fmap_elem_inj pipelineID ps1); [done | by apply (zr_victims _ _ _ _ _ H1) | |].
    + rewrite Hps. by apply (zr_victims _ _ _ _ _ H2).
    + by apply string_lt_anti.
  - pose proof (StronglySorted_fmap_inv (pipelineID ∘ se_victim) _ _ (zr_sorted _ _ _ _ _ H1)) as Hs1. exact Hs1.
  - pose proof (StronglySorted_fmap_inv (pipelineID ∘ se_victim) _ _ (zr_sorted _ _ _ _ _ H2)) as Hs2. exact Hs2.
  - apply NoDup_Permutation; [| |done].
    + eapply NoDup_fmap_1, (zr_NoDup _ _ _ _ _ H1).
    + eapply NoDup_fmap_1, (zr_NoDup _ _ _ _ _ H2).
Qed.
End size_unique.

(** ** Staging and resolving *)

Section staged.
Context `{GoRuntime, Libraries}.
Context (getter : SecretGetter).

Lemma survivors_consistent_refs ex ps :
  consistent (ps ≫= refs_of getter) → consistent (size_survivors ex ps ≫= refs_of getter).
Proof.
  intros Hc r1 r2 (p1 & Hr1 & [_ Hp1]%list_elem_of_filter)%list_elem_of_bind
         (p2 & Hr2 & [_ Hp2]%list_elem_of_filter)%list_elem_of_bind.
  apply Hc; apply list_elem_of_bind; eauto.
Qed.

(** References whose keys are all staged have values of their own. *)
Lemma stages_valueOf rs data r :
  consistent rs → stages getter rs data → r ∈ rs → is_Some (data !! pr_flat r) → is_Ok (valueOf getter r).
Proof.
  intros Hc Hst Hr [v Hv]. apply Hst in Hv as (r' & Hr' & Hf & Hv). exists v.
  eapply valueOf_tuple; [|done]. by apply Hc.
Qed.

(** What is staged is what a build resolves. *)
Lemma resolve_all_stages queue data :
  consistent queue → stages getter queue data → (∀ r, r ∈ queue → is_Some (data !! pr_flat r)) →
  resolve_all (default nil_getter getter) queue = Ok data.
Proof.
  intros Hc Hst Hcov.
  destruct (resolve_all_total (default nil_getter getter) queue Hc) as [d Hrd].
  { intros r Hr. destruct (stages_valueOf queue data r Hc Hst Hr (Hcov r Hr)) as [v Hv].
    exists v. by apply valueOf_resolve. }
  rewrite Hrd. f_equal. apply map_eq. intros f. apply option_eq. intros v.
  destruct (resolve_all_Ok _ _ _ Hrd) as (_ & Hall & Hdom). rewrite (Hst f v). split.
  - intros Hf. destruct (Hdom _ _ Hf) as (r & Hr & <-). destruct (Hall _ Hr) as (w & Hw & Hf').
    exists r. split; [done|]. split; [done|]. apply valueOf_resolve. congruence.
  - intros (r & Hr & <- & Hw%valueOf_resolve). destruct (Hall _ Hr) as (w & Hw' & Hf'). congruence.
Qed.
End staged.

(** ** Properties *)

(** C16: the merged build of what survives size attribution fits. The survivors'
    references, in whatever order a build queues them, resolve to one map, whose
    values total at most 1048576 bytes and whose modelled Secret object is at most
    the object budget (given that the empty object is). *)
Theorem size_budgets_hold `{GoRuntime, Libraries} getter proto ps ex :
  NoDup (pipelineID <$> ps) →
  consistent (ps ≫= refs_of getter) →
  secretObjectBaseSize proto <= SecretAssetsObjectBudget →
  DetectSecretSizeOverflow getter proto ps = Ok ex →
  ∃ data,
    secretDataSize data <= MaxSecretSize ∧
    secretObjectSize proto data <= SecretAssetsObjectBudget ∧
    ∀ queue, queue ≡ₚ size_survivors ex ps ≫= refs_of getter →
      resolve_all (default nil_getter getter) queue = Ok data.
Proof.
  intros Hnd Hc Hbase Hd.
  destruct (DetectSecretSizeOverflow_report getter proto ps Hnd Hc ex Hd) as [_ (data & Hst & Hcov & Hv & Ho)].
  exists data. rewrite secretDataSize_msum, secretObjectSize_msum. split; [done|]. split; [lia|].
  intros queue Hq. apply resolve_all_stages.
  - intros r1 r2. rewrite Hq. by apply survivors_consistent_refs.
  - eapply stages_iff; [|exact Hst]. intros r. by rewrite Hq.
  - intros r. rewrite Hq. apply Hcov.
Qed.

(** C15: size attribution is exact and maximal. A pipeline with references is
    excluded exactly when its values, staged next to those of the older pipelines
    that are not excluded, break the limit on values or the object budget; its
    entry says which budget broke first and the sizes before and after. *)
Theorem size_exclusion_exact `{GoRuntime, Libraries} getter proto ps ex :
  NoDup (pipelineID <$> ps) →
  consistent (ps ≫= refs_of getter) →
  DetectSecretSizeOverflow getter proto ps = Ok ex →
  size_report getter proto (refs_of getter) ps ex.
Proof. intros Hnd Hc Hd. by apply DetectSecretSizeOverflow_report. Qed.

(** Size attribution does not depend on the order of its arguments or on the
    Go runtime: two calls that succeed report the same exclusions. *)
Lemma size_deterministic (RT1 RT2 : GoRuntime) `{Libraries} getter proto ps1 ps2 ex1 ex2 :
  NoDup (pipelineID <$> ps1) →
  consistent (ps1 ≫= @refs_of RT1 _ getter) →
  ps1 ≡ₚ ps2 →
  @DetectSecretSizeOverflow RT1 _ getter proto ps1 = Ok ex1 →
  @DetectSecretSizeOverflow RT2 _ getter proto ps2 = Ok ex2 → ex1 = ex2.
Proof.
  intros Hnd Hc Hps H1 H2.
  apply (size_report_unique RT1 RT2 getter proto ps1 ps2); try done.
  - by apply DetectSecretSizeOverflow_report.
  - apply DetectSecretSizeOverflow_report; [by rewrite <- Hps | | done].
    intros r1 r2. rewrite <- Hps. intros (p1 & Hr1 & Hp1)%list_elem_of_bind (p2 & Hr2 & Hp2)%list_elem_of_bind.
    rewrite <- (refs_of_agree RT1 RT2) in Hr1, Hr2. apply Hc; apply list_elem_of_bind; eauto.
Qed.

(** The additivity of the generated [Size]: a new Data entry adds what it adds to
    an empty Secret. *)
Definition size_additive `{Libraries} : Prop :=
  ∀ s k v, sec_data s !! k = None →
    secret_size (with_data (<[k := v]> (sec_data s)) s) = secret_size s + secretDataEntrySize k v.

(** Under the additivity of the protobuf size the model is exact: the size
    computed entry by entry is the size of the Secret that is written. *)
Lemma object_size_model_exact `{GoRuntime, Libraries} prototype data :
  size_additive →
  secretObjectSize (Some prototype) data = secret_size (with_data data prototype).
Proof.
  intros Hadd. rewrite secretObjectSize_msum. simpl.
  induction data as [|k v data Hk IH] using map_ind.
  - rewrite msum_empty. lia.
  - rewrite msum_insert by done.
    pose proof (Hadd (with_data data prototype) k v Hk) as Ha. simpl in Ha. unfold with_data in *. simpl in *. lia.
Qed.

(** ** Witnesses *)

Lemma sample_refs_all_consistent :
  consistent ([sample_a] ≫= @refs_of stable_runtime _ sample_getter).
Proof. vm_compute. intros ?? [->|[]%elem_of_nil]%elem_of_cons [->|[]%elem_of_nil]%elem_of_cons; done. Qed.

Lemma size_budgets_hold_witness :
  ∃ data, @secretDataSize stable_runtime data <= MaxSecretSize.
Proof.
  destruct (@size_budgets_hold stable_runtime _ sample_getter None [sample_a] []) as (data & Hd & _).
  - vm_compute. repeat constructor; set_solver.
  - exact sample_refs_all_consistent.
  - vm_compute. discriminate.
  - vm_compute. reflexivity.
  - exists data. exact Hd.
Defined.

Lemma size_exclusion_exact_witness :
  @size_report stable_runtime _ sample_getter None (@refs_of stable_runtime _ sample_getter) [sample_a] [].
Proof.
  apply size_exclusion_exact.
  - vm_compute. repeat constructor; set_solver.
  - exact sample_refs_all_consistent.
  - vm_compute. reflexivity.
Defined.

Definition empty_exclusions : list SecretSizeExclusion := [].

Lemma size_deterministic_witness : empty_exclusions = [].
Proof.
  apply (@size_deterministic stable_runtime stable_runtime _ sample_getter None [sample_a] [sample_a]).
  - vm_compute. repeat constructor; set_solver.
  - exact sample_refs_all_consistent.
  - reflexivity.
  - vm_compute. reflexivity.
  - vm_compute. reflexivity.
Defined.

Lemma sample_size_additive : @size_additive sample_libraries.
Proof.
  intros s k v Hk. unfold secretDataEntrySize, secret_size. simpl. unfold sample_meta_size. simpl.
  change {[k := v]} with (<[k := v]> (∅ : gmap string string)).
  rewrite !msum_insert, !msum_empty by (done || apply lookup_empty). lia.
Qed.

Lemma object_size_model_exact_witness :
  @secretObjectSize stable_runtime _ (Some zero_secret) {["a" := "b"]} =
  secret_size (with_data {["a" := "b"]} zero_secret).
Proof. apply (@object_size_model_exact stable_runtime). exact sample_size_additive. Defined.
