(* ===== verification/SecretBridge.v ===== *)
(** * Bridging from one Secret to the next

    [BridgeAssets] of [src/internal/config/secrets.go]: its running totals and its
    rollback against a reference that measures every candidate from scratch, what
    it never drops, the budgets it keeps and when a round converges. *)

From S2P Require Export SecretSize.

(** ** Bridging *)

Section bridge.
Context `{GoRuntime, Libraries}.
Context (getter : SecretGetter).

(** [tentative]: the values of a pipeline, one per flat key. *)
Fixpoint tentative_values (tentative : gmap string string) (refs : list pendingSecretRef)
    : result (gmap string string) :=
  match refs with
  | [] => Ok tentative
  | ref :: refs =>
      if bool_decide (is_Some (tentative !! pr_flat ref)) then tentative_values tentative refs
      else val ← valueOf getter ref;
           tentative_values (<[pr_flat ref := val]> tentative) refs
  end.

Record apply_state := {
  as_bridge : gmap string string;
  as_prior : list (string * option string);   (** [prior]: key, previous value if any *)
  as_values_delta : Z;
  as_object_delta : Z
}.

(** One iteration of the loop that applies [tentative]. *)
Definition apply_step (s : apply_state) (kv : string * string) : apply_state :=
  let '(k, v) := kv in
  let old := as_bridge s !! k in
  {| as_bridge := <[k := v]> (as_bridge s);
     as_prior := as_prior s ++ [(k, old)];
     as_values_delta := match old with Some old => as_values_delta s - go_len old
                                     | None => as_values_delta s end + go_len v;
     as_object_delta := match old with Some old => as_object_delta s - secretDataEntrySize k old
                                     | None => as_object_delta s end + secretDataEntrySize k v |}.

Definition apply_tentative (bridge tentative : gmap string string) : apply_state :=
  fold_left apply_step (range_map 20 tentative)
    {| as_bridge := bridge; as_prior := []; as_values_delta := 0; as_object_delta := 0 |}.

(** The loop that restores the touched keys. [prior] is a map: its order is the
    runtime's. *)
Definition restore (bridge : gmap string string) (prior : list (string * option string))
    : gmap string string :=
  fold_left (λ m '(k, old), match old with Some v => <[k := v]> m | None => delete k m end)
    (range_assoc 21 prior) bridge.

Record bridge_state := {
  bs_data : gmap string string;
  bs_values_total : Z;
  bs_object_total : Z;
  bs_waiting : list Pipeline
}.

Definition bridge_step (byID : gmap string Pipeline) (byPipeline : gmap string (list pendingSecretRef))
    (s : bridge_state) (id : string) : result bridge_state :=
  tentative ← tentative_values ∅ (default [] (byPipeline !! id));
  let a := apply_tentative (bs_data s) tentative in
  if (MaxSecretSize <? bs_values_total s + as_values_delta a) ||
     (SecretAssetsObjectBudget <? bs_object_total s + as_object_delta a) then
    Ok {| bs_data := restore (as_bridge a) (as_prior a);
          bs_values_total := bs_values_total s; bs_object_total := bs_object_total s;
          bs_waiting := bs_waiting s ++ match byID !! id with Some p => [p] | None => [] end |}
  else
    Ok {| bs_data := as_bridge a;
          bs_values_total := bs_values_total s + as_values_delta a;
          bs_object_total := bs_object_total s + as_object_delta a;
          bs_waiting := bs_waiting s |}.

Definition bridge_init (assetsPrototype : option Secret) (existing : gmap string string) : bridge_state :=
  {| bs_data := existing; bs_values_total := secretDataSize existing;
     bs_object_total := secretObjectSize assetsPrototype existing; bs_waiting := [] |}.

(** The staged data and the pipelines that wait for room. *)
Definition BridgeAssets (assetsPrototype : option Secret) (existing : gmap string string)
    (finalPipelines : list Pipeline) : result (gmap string string * list Pipeline) :=
  if bool_decide (finalPipelines = []) then Ok (existing, []) else
  '(byID, byPipeline, orderedIDs) ← gatherPendingSecretsByPipeline getter finalPipelines;
  if bool_decide (size byPipeline = 0%nat) then Ok (existing, []) else
  s ← foldM (bridge_step byID byPipeline) (bridge_init assetsPrototype existing) orderedIDs;
  Ok (bs_data s, bs_waiting s).
End bridge.

(** ** The reference *)

Section bridge_spec.
Context `{GoRuntime, Libraries}.
Context (getter : SecretGetter) (proto : option Secret).

(** The two sums of a candidate, measured over the whole map. *)
Definition fits (data : gmap string string) : bool :=
  (secretDataSize data <=? MaxSecretSize) && (secretObjectSize proto data <=? SecretAssetsObjectBudget).

(** A pipeline's values laid over what is staged, kept when the union fits. *)
Definition bridge_spec_step (byID : gmap string Pipeline)
    (byPipeline : gmap string (list pendingSecretRef))
    (s : gmap string string * list Pipeline) (id : string)
    : result (gmap string string * list Pipeline) :=
  let '(data, waiting) := s in
  tentative ← tentative_values getter ∅ (default [] (byPipeline !! id));
  if fits (tentative ∪ data) then Ok (tentative ∪ data, waiting)
  else Ok (data, waiting ++ match byID !! id with Some p => [p] | None => [] end).

Definition BridgeAssets_spec (existing : gmap string string) (ps : list Pipeline)
    : result (gmap string string * list Pipeline) :=
  if bool_decide (ps = []) then Ok (existing, []) else
  '(byID, byPipeline, orderedIDs) ← gatherPendingSecretsByPipeline getter ps;
  foldM (bridge_spec_step byID byPipeline) (existing, []) orderedIDs.
End bridge_spec.

(** ** The loop that applies a pipeline's values, and its rollback *)

Section apply.
Context `{GoRuntime, Libraries}.

(** The deltas are the changes of the two sums; [prior] is what was there. *)
Lemma apply_steps_spec (l : list (string * string)) (bridge : gmap string string) s :
  NoDup l.*1 →
  fold_left apply_step l s =
    let data := list_to_map l ∪ as_bridge s in
    {| as_bridge := data;
       as_prior := as_prior s ++ ((λ kv, (kv.1, as_bridge s !! kv.1)) <$> l);
       as_values_delta := as_values_delta s + (msum value_len data - msum value_len (as_bridge s));
       as_object_delta := as_object_delta s +
         (msum secretDataEntrySize data - msum secretDataEntrySize (as_bridge s)) |}.
Proof.
  revert s. induction l as [|[k v] l IH]; intros s Hnd; cbv zeta.
  - simpl. rewrite (left_id_L ∅ (∪)), app_nil_r. destruct s. simpl. f_equal; lia.
  - apply NoDup_cons in Hnd as [Hni Hnd]. cbn [fold_left]. rewrite IH by done. clear IH. simpl.
    rewrite !msum_insert_old.
    assert (Hu : list_to_map l ∪ <[k:=v]> (as_bridge s) = <[k:=v]> (list_to_map l) ∪ as_bridge s).
    { rewrite <- insert_union_r, insert_union_l; [done|]. by apply not_elem_of_list_to_map_1. }
    rewrite Hu. f_equal.
    + rewrite <- (assoc_L (++)). f_equal. simpl. f_equal. apply list_fmap_ext.
      intros i [k' v'] Hk'%list_elem_of_lookup_2. simpl. f_equal. rewrite lookup_insert_ne; [done|].
      intros <-. apply Hni. by apply (list_elem_of_fmap_2 fst) in Hk'.
    + unfold value_len. destruct (as_bridge s !! k); lia.
    + destruct (as_bridge s !! k); lia.
Qed.

Lemma apply_tentative_spec bridge tentative :
  let a := apply_tentative bridge tentative in
  as_bridge a = tentative ∪ bridge ∧
  as_prior a = ((λ kv, (kv.1, bridge !! kv.1)) <$> range_map 20 tentative) ∧
  as_values_delta a = msum value_len (tentative ∪ bridge) - msum value_len bridge ∧
  as_object_delta a = msum secretDataEntrySize (tentative ∪ bridge) - msum secretDataEntrySize bridge.
Proof.
  unfold apply_tentative. cbv zeta.
  rewrite apply_steps_spec by (done || apply range_map_keys_NoDup). simpl.
  by rewrite range_map_to_map.
Qed.

(** Undoing the touched keys gives back the map they were read from. *)
Lemma restore_steps_lookup (l : list (string * option string)) (m bridge : gmap string string) f :
  (∀ k old, (k, old) ∈ l → old = bridge !! k) →
  fold_left (λ m '(k, old), match old with Some v => <[k := v]> m | None => delete k m end) l m !! f =
    if bool_decide (f ∈ l.*1) then bridge !! f else m !! f.
Proof.
  revert m. induction l as [|[k old] l IH]; intros m Hl; [done|]. cbn [fold_left].
  rewrite IH by (intros ???; apply Hl; by right). rewrite fmap_cons. simpl.
  destruct (decide (f ∈ l.*1)) as [Hf|Hf].
  - rewrite !bool_decide_eq_true_2; [done | by right | done].
  - rewrite (bool_decide_eq_false_2 (f ∈ l.*1)) by done.
    assert (Hold : old = bridge !! k) by (apply Hl; by left).
    destruct (decide (f = k)) as [->|Hne].
    + rewrite bool_decide_eq_true_2 by (by left). rewrite <- Hold. destruct old.
      * apply lookup_insert_eq.
      * apply lookup_delete_eq.
    + rewrite bool_decide_eq_false_2 by (intros [?|?]%elem_of_cons; done). destruct old.
      * by apply lookup_insert_ne.
      * by apply lookup_delete_ne.
Qed.

Lemma restore_exact bridge tentative :
  let a := apply_tentative bridge tentative in restore (as_bridge a) (as_prior a) = bridge.
Proof.
  destruct (apply_tentative_spec bridge tentative) as (Hb & Hp & _). cbv zeta. rewrite Hb, Hp.
  apply map_eq. intros f. unfold restore. rewrite restore_steps_lookup with (bridge := bridge).
  - case_bool_decide as Hf; [done|]. apply lookup_union_r.
    destruct (tentative !! f) as [v|] eqn:Hv; [|done]. destruct Hf. rewrite range_assoc_perm.
    apply list_elem_of_fmap. exists (f, bridge !! f). split; [done|].
    apply list_elem_of_fmap. exists (f, v). split; [done | by apply range_map_lookup].
  - intros k old. rewrite range_assoc_perm. by intros ([k' v] & [= -> ->] & _)%list_elem_of_fmap.
Qed.
End apply.

(** ** The incremental pass is the reference *)

Section equivalence.
Context `{GoRuntime, Libraries}.
Context (getter : SecretGetter) (proto : option Secret).

(** The running totals are the sums over the data they belong to. *)
Definition totals_exact (s : bridge_state) : Prop :=
  bs_values_total s = secretDataSize (bs_data s) ∧
  bs_object_total s = secretObjectSize proto (bs_data s).

Definition bridge_view (s : bridge_state) : gmap string string * list Pipeline :=
  (bs_data s, bs_waiting s).

Lemma bridge_step_spec byID byPipeline s id :
  totals_exact s →
  match bridge_step getter byID byPipeline s id with
  | Ok s' => totals_exact s' ∧
             bridge_spec_step getter proto byID byPipeline (bridge_view s) id = Ok (bridge_view s')
  | Err e => bridge_spec_step getter proto byID byPipeline (bridge_view s) id = Err e
  end.
Proof.
  intros [Hv Ho]. unfold bridge_step, bridge_spec_step, bridge_view.
  destruct (tentative_values getter ∅ (default [] (byPipeline !! id))) as [t|e]; simpl; [|done].
  destruct (apply_tentative_spec (bs_data s) t) as (Hb & _ & Hdv & Hdo).
  pose proof (restore_exact (bs_data s) t) as Hr. cbv zeta in Hr.
  destruct (apply_tentative (bs_data s) t) as [b prior dv do]. simpl in *. subst b dv do.
  unfold fits. rewrite Hv, Ho, !secretDataSize_msum, !secretObjectSize_msum.
  rewrite Hr.
  set (l' := msum value_len (t ∪ bs_data s)). set (e' := msum secretDataEntrySize (t ∪ bs_data s)).
  replace (msum value_len (bs_data s) + (l' - msum value_len (bs_data s))) with l' by lia.
  replace (secretObjectBaseSize proto + msum secretDataEntrySize (bs_data s) +
     (e' - msum secretDataEntrySize (bs_data s))) with (secretObjectBaseSize proto + e') by lia.
  unfold totals_exact. rewrite !(Z.ltb_antisym _ (_ : Z)), <- negb_andb.
  destruct ((l' <=? MaxSecretSize) && (secretObjectBaseSize proto + e' <=? SecretAssetsObjectBudget));
    simpl; rewrite !secretDataSize_msum, !secretObjectSize_msum; done.
Qed.

Lemma bridge_pass_spec byID byPipeline ids s :
  totals_exact s →
  match foldM (bridge_step getter byID byPipeline) s ids with
  | Ok s' => totals_exact s' ∧
             foldM (bridge_spec_step getter proto byID byPipeline) (bridge_view s) ids = Ok (bridge_view s')
  | Err e => foldM (bridge_spec_step getter proto byID byPipeline) (bridge_view s) ids = Err e
  end.
Proof.
  revert s. induction ids as [|id ids IH]; intros s Hs; cbn [foldM]; [done|].
  pose proof (bridge_step_spec byID byPipeline s id Hs) as Hstep.
  destruct (bridge_step getter byID byPipeline s id) as [s'|e].
  - destruct Hstep as [Hs' ->]. apply IH, Hs'.
  - by rewrite Hstep.
Qed.

Lemma bridge_init_exact existing : totals_exact (bridge_init proto existing).
Proof. done. Qed.
End equivalence.

(** ** What a pass stages *)

Section bridge_pass.
Context `{GoRuntime, Libraries}.
Context (getter : SecretGetter) (proto : option Secret).

Lemma tentative_values_Ok t0 refs t :
  tentative_values getter t0 refs = Ok t →
  (∀ f v, t0 !! f = Some v → t !! f = Some v) ∧
  (∀ f v, t !! f = Some v → t0 !! f = Some v ∨ ∃ r, r ∈ refs ∧ pr_flat r = f ∧ valueOf getter r = Ok v) ∧
  (∀ r, r ∈ refs → is_Some (t !! pr_flat r)).
Proof.
  revert t0. induction refs as [|r refs IH]; intros t0; cbn [tentative_values].
  - intros [= ->]. split; [done|]. split; [by left | set_solver].
  - case_bool_decide as Hd.
    + intros (Hm & Hf & Hc)%IH. split; [done|]. split.
      * intros f v [?|(r' & ? & ?)]%Hf; [by left|]. right. exists r'. split; [by right | done].
      * intros r' [->|?]%elem_of_cons; [|auto]. destruct Hd as [w Hw]. rewrite (Hm _ _ Hw). by eexists.
    + intros (v & Hv & (Hm & Hf & Hc)%IH)%bind_Ok.
      assert (Hr : t !! pr_flat r = Some v) by (apply Hm, lookup_insert_eq).
      apply eq_None_not_Some in Hd. split; [|split].
      * intros f w Hw. apply Hm. rewrite lookup_insert_ne; [done|]. congruence.
      * intros f w [[[<- <-]|[_ ?]]%lookup_insert_Some|(r' & ? & ?)]%Hf.
        -- right. exists r. split; [by left | done].
        -- by left.
        -- right. exists r'. split; [by right | done].
      * intros r' [->|?]%elem_of_cons; [by rewrite Hr; eexists | auto].
Qed.

Lemma tentative_values_stages refs t :
  consistent refs → tentative_values getter ∅ refs = Ok t → stages getter refs t.
Proof.
  intros Hc (_ & Hf & Hcov)%tentative_values_Ok f v. split.
  - intros [Hv|?]%Hf; [by rewrite lookup_empty in Hv | done].
  - intros (r & Hr & <- & Hv). destruct (Hcov _ Hr) as [w Hw]. rewrite Hw.
    destruct (Hf _ _ Hw) as [Hn|(r' & Hr' & Hf' & Hv')]; [by rewrite lookup_empty in Hn|].
    assert (Ht : pr_tuple r' = pr_tuple r) by (by apply Hc).
    pose proof (valueOf_tuple getter _ _ _ Ht Hv'). congruence.
Qed.

Lemma tentative_values_total t0 refs :
  (∀ r, r ∈ refs → is_Ok (valueOf getter r)) → is_Ok (tentative_values getter t0 refs).
Proof.
  revert t0. induction refs as [|r refs IH]; intros t0 Hv; cbn [tentative_values]; [by eexists|].
  case_bool_decide; [apply IH; intros; apply Hv; by right|].
  destruct (Hv r) as [v ->]; [by left|]. apply IH. intros; apply Hv; by right.
Qed.

(** References whose values were all read: staging both lists is the union. *)
Lemma stages_union rs1 rs2 d1 d2 :
  consistent (rs1 ++ rs2) → stages getter rs1 d1 → stages getter rs2 d2 →
  (∀ r, r ∈ rs2 → is_Some (d2 !! pr_flat r)) →
  stages getter (rs1 ++ rs2) (d2 ∪ d1).
Proof.
  intros Hc H1 H2 Hcov f v. rewrite lookup_union_Some_raw. split.
  - intros [(r & ? & ?)%H2|[_ (r & ? & ?)%H1]]; exists r; set_solver.
  - intros (r & [Hr|Hr]%elem_of_app & Hf & Hv).
    + destruct (d2 !! f) as [w|] eqn:Hw.
      * left. f_equal. apply H2 in Hw as (r' & Hr' & Hf' & Hv').
        assert (Ht : pr_tuple r' = pr_tuple r) by (apply Hc; set_solver).
        pose proof (valueOf_tuple getter _ _ _ Ht Hv'). congruence.
      * right. split; [done|]. apply H1. eauto.
    + left. apply H2. eauto.
Qed.

Context (byID : gmap string Pipeline) (byPipeline : gmap string (list pendingSecretRef)).
Notation R := (refs_at byPipeline).
Notation step := (bridge_spec_step getter proto byID byPipeline).

Definition waiting_ids (w : list Pipeline) : list string := pipelineID <$> w.
Definition staged_ids (w : list Pipeline) (ids : list string) : list string :=
  filter (λ id, id ∉ waiting_ids w) ids.

(** A pass after [ids]: the values of the pipelines that do not wait, over what
    was there. *)
Record bridge_inv (existing : gmap string string) (ids : list string)
    (data : gmap string string) (w : list Pipeline) : Prop := {
  bi_data : ∃ d, stages getter (staged_ids w ids ≫= R) d ∧
                 (∀ r, r ∈ staged_ids w ids ≫= R → is_Some (d !! pr_flat r)) ∧ data = d ∪ existing;
  bi_waiting : waiting_ids w `sublist_of` ids;
  bi_byID p : p ∈ w → byID !! pipelineID p = Some p;
  bi_fits : fits proto existing = true → fits proto data = true
}.

Lemma bridge_inv_init existing : bridge_inv existing [] existing [].
Proof.
  split; [|constructor|set_solver|done]. exists ∅. rewrite (left_id_L ∅ (∪)).
  split; [|split; [set_solver|done]]. intros f v. rewrite lookup_empty. set_solver.
Qed.

(** The candidate of one step, and its verdict. *)
Lemma bridge_step_inv existing ids data w id p data' w' :
  NoDup (ids ++ [id]) → consistent ((ids ++ [id]) ≫= R) →
  byID !! id = Some p → pipelineID p = id →
  bridge_inv existing ids data w → step (data, w) id = Ok (data', w') →
  bridge_inv existing (ids ++ [id]) data' w' ∧
  ∃ d, stages getter ((staged_ids w ids ≫= R) ++ R id) d ∧
    w' = w ++ (if fits proto (d ∪ existing) then [] else [p]).
Proof.
  intros Hnd Hc Hp Hid [(d & Hd & Hdc & ->) Hw Hby Hfit]. unfold bridge_spec_step.
  change (default [] (byPipeline !! id)) with (R id). intros (t & Ht & Hs)%bind_Ok.
  apply NoDup_app in Hnd as (Hnd & Hni & _).
  assert (Hidw : id ∉ waiting_ids w).
  { intros Hin. apply (Hni id); [by eapply sublist_elem | by apply list_elem_of_singleton]. }
  assert (Hsub : ∀ r, r ∈ (staged_ids w ids ≫= R) ++ R id → r ∈ (ids ++ [id]) ≫= R).
  { intros r. rewrite elem_of_app, !list_elem_of_bind.
    intros [(q & ? & [_ ?]%list_elem_of_filter)|?]; [exists q|exists id]; set_solver. }
  assert (Hc' : consistent ((staged_ids w ids ≫= R) ++ R id)) by (intros ????; apply Hc; auto).
  assert (Htc : ∀ r, r ∈ R id → is_Some (t !! pr_flat r)) by (by apply tentative_values_Ok in Ht as (_ & _ & ?)).
  apply tentative_values_stages in Ht; [|intros r1 r2 ??; apply Hc'; set_solver].
  pose proof (stages_union _ _ _ _ Hc' Hd Ht Htc) as Hst.
  rewrite (assoc_L (∪)) in Hs.
  assert (Hcand : ∃ d0, stages getter ((staged_ids w ids ≫= R) ++ R id) d0 ∧
    w ++ (if fits proto (t ∪ d ∪ existing) then [] else [p]) =
    w ++ (if fits proto (d0 ∪ existing) then [] else [p])) by eauto.
  destruct (fits proto (t ∪ d ∪ existing)) eqn:Hf; injection Hs as <- <-.
  - rewrite app_nil_r in Hcand. split; [|done].
    assert (Hids : staged_ids w (ids ++ [id]) ≫= R = (staged_ids w ids ≫= R) ++ R id).
    { unfold staged_ids. rewrite filter_app, filter_cons_True, filter_nil, bind_app by done. simpl.
      by rewrite app_nil_r. }
    split; [|by apply sublist_inserts_r|done|done]. exists (t ∪ d). rewrite Hids.
    split; [done|]. split; [|done]. intros r [Hr|Hr]%elem_of_app.
    + rewrite lookup_union_is_Some. right. by apply Hdc.
    + rewrite lookup_union_is_Some. left. by apply Htc.
  - rewrite Hp in *. split; [|done].
    assert (Hids : staged_ids (w ++ [p]) (ids ++ [id]) = staged_ids w ids).
    { unfold staged_ids, waiting_ids. rewrite fmap_app, filter_app. simpl. rewrite Hid.
      rewrite filter_cons_False, filter_nil, app_nil_r by set_solver.
      apply list_filter_ext_elem. intros q Hq. assert (q ≠ id) by (intros ->; set_solver). set_solver. }
    split; [| | |done].
    + exists d. by rewrite Hids.
    + unfold waiting_ids. rewrite fmap_app. simpl. rewrite Hid. by apply sublist_app.
    + intros q [?| ->%list_elem_of_singleton]%elem_of_app; [auto | congruence].
Qed.

Lemma bridge_pass_inv existing ids data w :
  NoDup ids → consistent (ids ≫= R) → (∀ id, id ∈ ids → ∃ p, byID !! id = Some p ∧ pipelineID p = id) →
  foldM step (existing, []) ids = Ok (data, w) → bridge_inv existing ids data w.
Proof.
  revert data w. induction ids as [|id ids IH] using rev_ind; intros data w Hnd Hc Hids.
  - intros [= <- <-]. apply bridge_inv_init.
  - rewrite foldM_app. intros ([data1 w1] & Hf & Hs)%bind_Ok.
    cbn [foldM] in Hs. apply bind_Ok in Hs as ([data2 w2] & Hs & [= -> ->]).
    destruct (Hids id) as (p & Hp & Hid); [set_solver|].
    eapply bridge_step_inv; [done..| |exact Hs]. apply IH; [| | |done].
    + by apply NoDup_app in Hnd as [? _].
    + intros r1 r2 ??. apply Hc; rewrite bind_app; set_solver.
    + intros q Hq. apply Hids. set_solver.
Qed.

Lemma bridge_pass_app ids data w data' w' :
  (∀ id, id ∈ ids → ∃ p, byID !! id = Some p ∧ pipelineID p = id) →
  foldM step (data, w) ids = Ok (data', w') →
  ∃ w2, w' = w ++ w2 ∧ ∀ p, p ∈ w2 → pipelineID p ∈ ids.
Proof.
  revert data w. induction ids as [|id ids IH]; intros data w Hids; cbn [foldM].
  - intros [= -> ->]. exists []. rewrite app_nil_r. set_solver.
  - intros ([data1 w1] & Hs & Hf)%bind_Ok. destruct (Hids id) as (p & Hp & Hid); [by left|].
    apply IH in Hf as (w2 & -> & Hw2); [|intros; apply Hids; by right].
    unfold bridge_spec_step in Hs. apply bind_Ok in Hs as (t & _ & Hs). rewrite Hp in Hs.
    destruct (fits _ _); injection Hs as <- <-.
    + exists w2. split; [done|]. intros q ?%Hw2. by right.
    + exists (p :: w2). rewrite <- (assoc_L (++)). split; [done|].
      intros q [->|?%Hw2]%elem_of_cons; [rewrite Hid; by left | by right].
Qed.

(** The verdict on the pipeline at any place of the order. *)
Lemma bridge_pass_verdict existing d1 id d2 data w :
  NoDup (d1 ++ id :: d2) → consistent ((d1 ++ id :: d2) ≫= R) →
  (∀ id', id' ∈ d1 ++ id :: d2 → ∃ p, byID !! id' = Some p ∧ pipelineID p = id') →
  foldM step (existing, []) (d1 ++ id :: d2) = Ok (data, w) →
  ∃ d, stages getter ((staged_ids w d1 ≫= R) ++ R id) d ∧
    (id ∈ waiting_ids w ↔ fits proto (d ∪ existing) = false).
Proof.
  intros Hnd Hc Hids. rewrite cons_middle, (assoc_L (++)) in Hnd, Hc, Hids |- *.
  rewrite foldM_app. intros ([data2 w2] & Hf & Hrest)%bind_Ok.
  pose proof Hnd as (Hnd1 & Hdisj & _)%NoDup_app.
  assert (Hc1 : consistent ((d1 ++ [id]) ≫= R)) by (intros r1 r2 ??; apply Hc; rewrite bind_app; set_solver).
  apply bridge_pass_app in Hrest as (w3 & -> & Hw3); [|intros; apply Hids; set_solver].
  rewrite foldM_app in Hf. apply bind_Ok in Hf as ([data1 w1] & Hf1 & Hs).
  cbn [foldM] in Hs. apply bind_Ok in Hs as ([data3 w2'] & Hs & [= -> ->]).
  destruct (Hids id) as (p & Hp & Hid); [set_solver|].
  pose proof Hnd1 as (Hnd0 & Hni & _)%NoDup_app.
  assert (Hc0 : consistent (d1 ≫= R)) by (intros r1 r2 ??; apply Hc1; rewrite bind_app; set_solver).
  assert (Hinv : bridge_inv existing d1 data1 w1).
  { apply bridge_pass_inv; [done..| |done]. intros q Hq. apply Hids. set_solver. }
  destruct (bridge_step_inv _ _ _ _ _ _ _ _ Hnd1 Hc1 Hp Hid Hinv Hs) as (_ & d & Hd & ->).
  assert (Hw1 : ∀ q, q ∈ waiting_ids w1 → q ∈ d1) by (intros q; apply sublist_elem, Hinv).
  assert (Hw3' : ∀ q, q ∈ waiting_ids w3 → q ∈ d2) by (intros q (? & -> & ?%Hw3)%list_elem_of_fmap; done).
  exists d. set (own := if fits proto (d ∪ existing) then [] else [p]).
  assert (Hmem : ∀ q, q ∈ waiting_ids ((w1 ++ own) ++ w3) ↔
            q ∈ waiting_ids w1 ∨ (q = id ∧ fits proto (d ∪ existing) = false) ∨ q ∈ waiting_ids w3).
  { intros q. unfold waiting_ids, own. rewrite !fmap_app, !elem_of_app.
    destruct (fits _ _); simpl; [|rewrite Hid]; set_solver. }
  split.
  - assert (staged_ids ((w1 ++ own) ++ w3) d1 = staged_ids w1 d1) as ->; [|done].
    apply list_filter_ext_elem. intros q Hq. rewrite Hmem.
    assert (q ≠ id) by (intros ->; apply (Hni id Hq); by left).
    assert (q ∉ waiting_ids w3) by (intros ?%Hw3'; apply (Hdisj q); set_solver).
    naive_solver.
  - rewrite Hmem. split; [|by auto]. intros [Hin|[[_ ?]|Hin]]; [|done|].
    + destruct (Hni id); [by apply Hw1 | by left].
    + apply Hw3' in Hin. destruct (Hdisj id); [set_solver | done].
Qed.
End bridge_pass.

(** ** The outcome of bridging *)

Definition waits (w : list Pipeline) (p : Pipeline) : Prop := pipelineID p ∈ pipelineID <$> w.

Definition not_waiting (w : list Pipeline) (ps : list Pipeline) : list Pipeline :=
  filter (λ p, pipelineID p ∉ pipelineID <$> w) ps.

(** The staged data are the values of the pipelines that do not wait, laid over
    what the Secret held; a pipeline waits exactly when its values, laid over those
    of the older pipelines that do not wait and what the Secret held, break a
    budget. *)
Record bridge_report `{GoRuntime, Libraries} (getter : SecretGetter) (proto : option Secret)
    (existing : gmap string string) (ps : list Pipeline)
    (data : gmap string string) (w : list Pipeline) : Prop := {
  br_data : ∃ d, stages getter (not_waiting w ps ≫= refs_of getter) d ∧ data = d ∪ existing;
  br_staged p r : p ∈ not_waiting w ps → r ∈ refs_of getter p →
    ∃ v, valueOf getter r = Ok v ∧ data !! pr_flat r = Some v;
  br_verdict p : p ∈ ps → refs_of getter p ≠ [] →
    ∃ d, stages getter ((not_waiting w (older_than p ps) ≫= refs_of getter) ++ refs_of getter p) d ∧
      (waits w p ↔ fits proto (d ∪ existing) = false);
  br_waiting p : p ∈ w → p ∈ ps ∧ refs_of getter p ≠ [];
  br_fits : fits proto existing = true → fits proto data = true
}.

Section bridge_report.
Context `{GoRuntime, Libraries}.
Context (getter : SecretGetter) (proto : option Secret).

Lemma gather_length ps byID byPipeline ids :
  gatherPendingSecretsByPipeline getter ps = Ok (byID, byPipeline, ids) → size byPipeline = length ids.
Proof.
  intros ([byID' pend] & _ & [= -> <- <-])%bind_Ok.
  by rewrite sort_slice_perm, length_fmap, range_map_perm, length_map_to_list.
Qed.

Lemma BridgeAssets_spec_eq existing ps :
  BridgeAssets getter proto existing ps = BridgeAssets_spec getter proto existing ps.
Proof.
  unfold BridgeAssets, BridgeAssets_spec. case_bool_decide; [done|].
  destruct (gatherPendingSecretsByPipeline getter ps) as [[[byID byPipeline] ids]|e] eqn:Hg; [|done].
  cbn [mbind res_bind]. case_bool_decide as Hsz.
  - rewrite (gather_length _ _ _ _ Hg) in Hsz. by destruct ids.
  - pose proof (bridge_pass_spec getter proto byID byPipeline ids _ (bridge_init_exact proto existing)) as Hp.
    destruct (foldM (bridge_step getter byID byPipeline) (bridge_init proto existing) ids) as [s|e].
    + destruct Hp as [_ Hp]. symmetry. exact Hp.
    + symmetry. exact Hp.
Qed.

Context (existing : gmap string string) (ps : list Pipeline).
Context (Hnd : NoDup (pipelineID <$> ps)) (Hc : consistent (ps ≫= refs_of getter)).

Section pass.
Context (byID : gmap string Pipeline) (byPipeline : gmap string (list pendingSecretRef)).
Context (ids : list string) (data : gmap string string) (w : list Pipeline).
Context (Hg : Gathered getter ps byID byPipeline ids).
Context (Hf : foldM (bridge_spec_step getter proto byID byPipeline) (existing, []) ids = Ok (data, w)).

Lemma pass_ids id : id ∈ ids → ∃ p, byID !! id = Some p ∧ pipelineID p = id.
Proof. intros Hid. destruct (gathered_lookup _ _ _ _ _ Hg _ Hid) as (p & _ & <- & ?). eauto. Qed.

Lemma pass_consistent : consistent (ids ≫= refs_at byPipeline).
Proof.
  intros r1 r2 (q1 & Hr1 & Hq1)%list_elem_of_bind (q2 & Hr2 & Hq2)%list_elem_of_bind.
  destruct (gathered_lookup _ _ _ _ _ Hg _ Hq1) as (p1 & Hp1 & <- & _).
  destruct (gathered_lookup _ _ _ _ _ Hg _ Hq2) as (p2 & Hp2 & <- & _).
  rewrite (refs_at_of _ _ _ _ _ Hg) in Hr1, Hr2 by done.
  apply Hc; apply list_elem_of_bind; eauto.
Qed.

Lemma bridged_inv : bridge_inv getter proto byID byPipeline existing ids data w.
Proof. apply bridge_pass_inv; eauto using gathered_NoDup, pass_consistent, pass_ids. Qed.

(** A part of the order, as pipelines. *)
Lemma pass_staged l qs r :
  (∀ q, q ∈ ps → pipelineID q ∈ l ↔ pipelineID q ∈ ids ∧ q ∈ qs) →
  (∀ q, q ∈ qs → q ∈ ps) → (∀ id, id ∈ l → id ∈ ids) →
  r ∈ staged_ids w l ≫= refs_at byPipeline ↔ r ∈ not_waiting w qs ≫= refs_of getter.
Proof.
  intros Hl Hqs Hlids. rewrite !list_elem_of_bind. unfold staged_ids, not_waiting. split.
  - intros (id & Hr & [Hn Hid]%list_elem_of_filter).
    destruct (gathered_lookup _ _ _ _ _ Hg _ (Hlids _ Hid)) as (q & Hq & <- & _).
    rewrite (refs_at_of _ _ _ _ _ Hg) in Hr by done. exists q. split; [done|].
    apply Hl in Hid as [_ Hqq]; [|done]. by apply list_elem_of_filter.
  - intros (q & Hr & [Hn Hq]%list_elem_of_filter). pose proof (Hqs _ Hq) as Hqp.
    exists (pipelineID q). rewrite (refs_at_of _ _ _ _ _ Hg) by done. split; [done|].
    apply list_elem_of_filter. split; [done|]. apply Hl; [done|]. split; [by eapply gathered_in | done].
Qed.

Lemma pass_staged_all r :
  r ∈ staged_ids w ids ≫= refs_at byPipeline ↔ r ∈ not_waiting w ps ≫= refs_of getter.
Proof. apply pass_staged; naive_solver. Qed.

Lemma pass_bridge_report : bridge_report getter proto existing ps data w.
Proof.
  destruct bridged_inv as [(d & Hd & Hdc & Heqd) Hw Hby Hfit].
  assert (Hd' : stages getter (not_waiting w ps ≫= refs_of getter) d)
    by (eapply stages_iff; [apply pass_staged_all | done]).
  split; [by exists d| | | |done].
  - intros p r Hp Hr. rewrite Heqd.
    assert (Hin : r ∈ not_waiting w ps ≫= refs_of getter) by (apply list_elem_of_bind; eauto).
    destruct (Hdc r) as [v Hv]; [by apply pass_staged_all|]. exists v. split.
    + apply Hd' in Hv as (r' & Hr' & Heq & Hv). eapply valueOf_tuple; [|done].
      apply Hc; [| |done]; apply list_elem_of_bind.
      * apply list_elem_of_bind in Hr' as (q & ? & [_ ?]%list_elem_of_filter). eauto.
      * apply list_elem_of_filter in Hp as [_ ?]. eauto.
    + by apply lookup_union_Some_l.
  - intros p Hp Hne. assert (Hid : pipelineID p ∈ ids) by (apply (gathered_ids _ _ _ _ _ Hg); eauto).
    destruct (list_elem_of_split _ _ Hid) as (d1 & d2 & Heq).
    pose proof (gathered_NoDup _ _ _ _ _ Hg) as Hn. pose proof pass_consistent as Hcc.
    pose proof pass_ids as Hids. pose proof Hf as Hf'. rewrite Heq in Hn, Hcc, Hids, Hf'.
    destruct (bridge_pass_verdict getter proto byID byPipeline existing d1 _ d2 data w Hn Hcc Hids Hf')
      as (c & Hst & Hv).
    exists c. split; [|done]. eapply stages_iff; [|exact Hst]. intros r.
    rewrite !elem_of_app, (refs_at_of _ _ _ _ _ Hg) by done.
    rewrite (pass_staged d1 (older_than p ps)); [done| | |rewrite Heq; set_solver].
    + intros q Hq. rewrite (before_older _ _ _ _ _ Hnd Hg d1 d2 p q) by done.
      unfold older_than. rewrite list_elem_of_filter. naive_solver.
    + by intros q [_ ?]%list_elem_of_filter.
  - intros p Hp. pose proof (Hby _ Hp) as Hlk. apply (gathered_byID _ _ _ _ _ Hg) in Hlk as [Hps _].
    split; [done|]. assert (Hid : pipelineID p ∈ ids) by (eapply sublist_elem; [done|]; by apply list_elem_of_fmap_2).
    apply (gathered_ids _ _ _ _ _ Hg) in Hid as (q & Hq & Hqid & Hne).
    by rewrite <- (NoDup_fmap_elem_inj pipelineID ps q p).
Qed.
End pass.

Lemma BridgeAssets_report data w :
  BridgeAssets getter proto existing ps = Ok (data, w) → bridge_report getter proto existing ps data w.
Proof.
  rewrite BridgeAssets_spec_eq. unfold BridgeAssets_spec. case_bool_decide as Hps.
  - intros [= <- <-]. rewrite Hps. split; [|set_solver|set_solver|set_solver|done].
    exists ∅. rewrite (left_id_L ∅ (∪)). split; [|done]. intros f v. rewrite lookup_empty. set_solver.
  - intros ([[byID byPipeline] ids] & Hg & Hf)%bind_Ok. apply gather_Gathered in Hg; [|done].
    by eapply pass_bridge_report.
Qed.
End bridge_report.

(** ** Properties *)

(** C17: the running totals and the per-key rollback of [BridgeAssets] are exact:
    it computes what the reference does, which measures the whole candidate map for
    every pipeline and starts again from the untouched data when it does not fit. *)
Theorem bridge_incremental_exact `{GoRuntime, Libraries} getter proto existing ps :
  BridgeAssets getter proto existing ps = BridgeAssets_spec getter proto existing ps.
Proof. apply BridgeAssets_spec_eq. Qed.

(** C18: bridging never drops a staged key, keeps both budgets when what it starts
    from keeps them, stages every value of the pipelines that do not wait, and makes
    a pipeline wait exactly when its values break a budget on top of the older
    pipelines that do not wait and of what the Secret holds. *)
Theorem bridge_outcome_exact `{GoRuntime, Libraries} getter proto existing ps data w :
  NoDup (pipelineID <$> ps) →
  consistent (ps ≫= refs_of getter) →
  BridgeAssets getter proto existing ps = Ok (data, w) →
  (∀ k, is_Some (existing !! k) → is_Some (data !! k)) ∧
  bridge_report getter proto existing ps data w.
Proof.
  intros Hnd Hc Hb. pose proof (BridgeAssets_report _ _ _ _ Hnd Hc _ _ Hb) as Hr. split; [|done].
  destruct (br_data _ _ _ _ _ _ Hr) as (d & _ & ->). intros k Hk. rewrite lookup_union_is_Some. by right.
Qed.

(** Entries do not make a Secret smaller. *)
Definition entry_sizes_nonneg `{Libraries} : Prop := ∀ k v, 0 <= secretDataEntrySize k v.

Section converge.
Context `{GoRuntime, Libraries}.
Context (getter : SecretGetter) (proto : option Secret) (Hentry : entry_sizes_nonneg).

Lemma fits_mono d1 d2 : d1 ⊆ d2 → fits proto d2 = true → fits proto d1 = true.
Proof.
  unfold fits. rewrite !secretDataSize_msum, !secretObjectSize_msum.
  rewrite !andb_true_iff, !Z.leb_le. intros Hd [Hv Ho].
  pose proof (msum_mono value_len d1 d2 ltac:(intros; unfold value_len, go_len; lia) Hd).
  pose proof (msum_mono secretDataEntrySize d1 d2 Hentry Hd). lia.
Qed.

Lemma stages_mono rs1 rs2 d1 d2 :
  (∀ r, r ∈ rs1 → r ∈ rs2) → stages getter rs1 d1 → stages getter rs2 d2 → d1 ⊆ d2.
Proof.
  intros Hrs H1 H2. apply map_subseteq_spec. intros f v (r & Hr & ?)%H1. apply H2. eauto.
Qed.

Lemma bridge_total ps existing :
  NoDup (pipelineID <$> ps) →
  Forall (λ p, is_Ok (pipeline_refs getter p)) ps →
  (∀ r, r ∈ ps ≫= refs_of getter → is_Ok (valueOf getter r)) →
  is_Ok (BridgeAssets getter proto existing ps).
Proof.
  intros Hnd Hok Hval. rewrite BridgeAssets_spec_eq. unfold BridgeAssets_spec.
  case_bool_decide; [by eexists|].
  destruct (proj2 (gather_is_Ok getter ps) Hok) as [[[byID byPipeline] ids] Hg].
  rewrite Hg. cbn [mbind res_bind]. apply gather_Gathered in Hg; [|done].
  apply foldM_total. intros [d w] id Hid. unfold bridge_spec_step.
  destruct (gathered_lookup _ _ _ _ _ Hg _ Hid) as (p & Hp & <- & _).
  change (default [] (byPipeline !! pipelineID p)) with (refs_at byPipeline (pipelineID p)).
  rewrite (refs_at_of _ _ _ _ _ Hg) by done.
  destruct (tentative_values_total getter ∅ (refs_of getter p)) as [t ->].
  - intros r Hr. apply Hval, list_elem_of_bind. eauto.
  - cbn [mbind res_bind]. destruct (fits _ _); by eexists.
Qed.

Lemma DetectSecretSizeOverflow_refs ps ex :
  DetectSecretSizeOverflow getter proto ps = Ok ex → Forall (λ p, is_Ok (pipeline_refs getter p)) ps.
Proof.
  unfold DetectSecretSizeOverflow. case_bool_decide as Hps; [by rewrite Hps|].
  intros (x & Hg & _)%bind_Ok. apply gather_is_Ok. by eexists.
Qed.

(** With all its values at hand and a target that fits, a round from a part of
    the target reaches the target. *)
Lemma bridge_reaches ps target existing :
  NoDup (pipelineID <$> ps) → consistent (ps ≫= refs_of getter) →
  Forall (λ p, is_Ok (pipeline_refs getter p)) ps →
  stages getter (ps ≫= refs_of getter) target →
  (∀ r, r ∈ ps ≫= refs_of getter → is_Some (target !! pr_flat r)) →
  fits proto target = true → existing ⊆ target →
  BridgeAssets getter proto existing ps = Ok (target, []).
Proof.
  intros Hnd Hc Hok Hst Hcov Hfit Hex.
  destruct (bridge_total ps existing) as [[data w] Hb]; [done|done| |].
  { intros r Hr. eapply stages_valueOf; [exact Hc|exact Hst|done|auto]. }
  pose proof (BridgeAssets_report _ _ _ _ Hnd Hc _ _ Hb) as Hr. rewrite Hb.
  assert (w = []) as ->.
  { destruct w as [|p w]; [done|]. exfalso.
    destruct (br_waiting _ _ _ _ _ _ Hr p) as [Hp Hne]; [by left|].
    destruct (br_verdict _ _ _ _ _ _ Hr p Hp Hne) as (d & Hd & Hv).
    assert (Hw : waits (p :: w) p) by (unfold waits; rewrite fmap_cons; by left).
    apply Hv in Hw. rewrite (fits_mono _ target) in Hw; [done| |done]. apply map_union_least; [|done].
    eapply stages_mono; [|exact Hd|exact Hst]. intros r.
    rewrite elem_of_app, !list_elem_of_bind. unfold not_waiting, older_than.
    intros [(q & ? & [_ [_ ?]%list_elem_of_filter]%list_elem_of_filter)|?]; eauto. }
  destruct (br_data _ _ _ _ _ _ Hr) as (d & Hd & ->).
  assert (d = target) as ->.
  { eapply stages_unique; [|exact Hd|exact Hst]. intros r. unfold not_waiting.
    rewrite list_filter_all; [done|]. apply Forall_forall. set_solver. }
  do 2 f_equal. apply map_eq. intros f. rewrite lookup_union.
  destruct (target !! f) as [v|] eqn:Hv; [by destruct (existing !! f)|].
  destruct (existing !! f) as [v|] eqn:Hv'; [|done].
  eapply lookup_weaken in Hv'; [|exact Hex]. congruence.
Qed.
End converge.

(** C19: a bridge round converges. When the Secret holds nothing but target values
    (it is empty, or it was pruned), the survivors of size attribution all fit in
    one round: nobody waits, and the staged data are exactly what the survivors'
    build resolves. *)
Theorem bridge_converges `{GoRuntime, Libraries} getter proto ps ex :
  NoDup (pipelineID <$> ps) →
  consistent (ps ≫= refs_of getter) →
  entry_sizes_nonneg →
  secretObjectBaseSize proto <= SecretAssetsObjectBudget →
  DetectSecretSizeOverflow getter proto ps = Ok ex →
  ∃ target,
    resolve_all (default nil_getter getter) (size_survivors ex ps ≫= refs_of getter) = Ok target ∧
    ∀ existing, existing ⊆ target →
      BridgeAssets getter proto existing (size_survivors ex ps) = Ok (target, []).
Proof.
  intros Hnd Hc Hentry Hbase Hd.
  destruct (DetectSecretSizeOverflow_report getter proto ps Hnd Hc ex Hd) as [_ (data & Hst & Hcov & Hv & Ho)].
  pose proof (survivors_consistent_refs getter ex ps Hc) as Hc'.
  exists data. split; [by apply resolve_all_stages|]. intros existing Hex.
  apply bridge_reaches; try done.
  - eapply sublist_NoDup; [exact Hnd|]. apply fmap_sublist, sublist_filter.
  - apply Forall_forall. intros p [_ Hp]%list_elem_of_filter.
    pose proof (DetectSecretSizeOverflow_refs _ _ _ _ Hd) as Hall. rewrite Forall_forall in Hall. auto.
  - unfold fits. rewrite secretDataSize_msum, secretObjectSize_msum.
    apply andb_true_iff. rewrite !Z.leb_le. lia.
Qed.

(** ** Witnesses *)

Lemma sample_entry_sizes : @entry_sizes_nonneg sample_libraries.
Proof.
  intros k v. unfold secretDataEntrySize, secret_size. simpl. unfold sample_meta_size. simpl.
  change {[k := v]} with (<[k := v]> (∅ : gmap string string)).
  rewrite !msum_insert, !msum_empty by apply lookup_empty.
  pose proof (sample_entry_size_nonneg k v). lia.
Qed.

(** The Secret holds a value of a pipeline that is gone. *)
Definition sample_existing : gmap string string := {["old" := "x"]}.
Definition sample_bridged : gmap string string := {["old" := "x"; "team_a_b_c_k" := "value of s1"]}.

Lemma bridge_outcome_exact_witness :
  @bridge_report stable_runtime _ sample_getter None sample_existing [sample_a] sample_bridged [].
Proof.
  apply (@bridge_outcome_exact stable_runtime _ sample_getter None sample_existing [sample_a]).
  - vm_compute. repeat constructor; set_solver.
  - exact sample_refs_all_consistent.
  - vm_compute. reflexivity.
Defined.

Lemma bridge_converges_witness :
  ∃ target,
    @BridgeAssets stable_runtime _ sample_getter None ∅ (size_survivors [] [sample_a]) = Ok (target, []).
Proof.
  destruct (@bridge_converges stable_runtime _ sample_getter None [sample_a] []) as (target & _ & Ht).
  - vm_compute. repeat constructor; set_solver.
  - exact sample_refs_all_consistent.
  - exact sample_entry_sizes.
  - vm_compute. discriminate.
  - vm_compute. reflexivity.
  - exists target. apply Ht, map_empty_subseteq.
Defined.
