(* ===== verification/WorkloadPlan.v ===== *)
(** * What a workload publishes

    The second part of [src/internal/controller/secrets.go]: the reasons the operator
    writes into a pipeline's status and finds its victims by, when the assets Secret
    may be pruned, which pipelines a round publishes ([planSecretAssetsBridge]), and
    the selection of a workload's pipelines ([resolveWorkloadPipelines]) with the
    status writes that go with it. *)

From S2P Require Export SecretBridge RelatedSecrets K8sResources.

(** ** Reasons *)

Definition secretCollisionReasonPrefix : string := "secret flat key collision: ".
Definition secretSizeExclusionReasonPrefix : string := "secret assets size limit: ".
Definition secretObjectSizeExclusionReasonPrefix : string := "secret assets object size limit: ".
Definition secretAssetsWaitingReasonPrefix : string := "secret assets waiting for room: ".

Definition isSecretAttributionReason (reason : string) : bool :=
  has_prefix secretCollisionReasonPrefix reason ||
  has_prefix secretSizeExclusionReasonPrefix reason ||
  has_prefix secretObjectSizeExclusionReasonPrefix reason ||
  has_prefix secretAssetsWaitingReasonPrefix reason.

(** The workload a reason names: kind, namespace and name. *)
Record WorkloadRef := { wr_kind : string; wr_namespace : string; wr_name : string }.

Definition workloadRef (w : WorkloadRef) : string :=
  if bool_decide (wr_namespace w = "") then wr_kind w +:+ " " +:+ wr_name w
  else wr_kind w +:+ " " +:+ wr_namespace w +:+ "/" +:+ wr_name w.

Section reasons.
Context `{GoRuntime}.

Definition secretCollisionReason (c : SecretCollision) (w : WorkloadRef) : string :=
  secretCollisionReasonPrefix +:+ "flat key " +:+ quote (sc_flat_key c) +:+ " collides with pipeline " +:+
  sc_survivor c +:+ " on " +:+ workloadRef w +:+
  "; rename one of them (or its secret backend alias/key) to change its flat key".

Definition secretSizeExclusionReason (e : SecretSizeExclusion) (w : WorkloadRef) : string :=
  if se_object_budget e then
    secretObjectSizeExclusionReasonPrefix +:+ "adding this pipeline's " +:+
    itoa (se_pipeline_object_bytes e) +:+ " bytes of secret entries (key names and values) to the " +:+
    itoa (se_accepted_object_bytes e) +:+ " bytes already committed by older pipelines would exceed the " +:+
    itoa SecretAssetsObjectBudget +:+
    " byte budget the operator keeps for the whole secret-assets Secret object; the Secret is shared by every pipeline " +:+
    workloadRef w +:+
    " selects, so older pipelines (by creation time) keep it and this one is excluded until the total fits - this limit accounts for the combined size of key names and values together, not values alone"
  else
    secretSizeExclusionReasonPrefix +:+ "adding this pipeline's secret values (" +:+
    itoa (se_pipeline_bytes e) +:+ " bytes) to the " +:+ itoa (se_accepted_total e) +:+
    " bytes already committed by older pipelines would exceed the " +:+ itoa MaxSecretSize +:+
    " byte Kubernetes Secret limit; the secret-assets Secret is shared by every pipeline " +:+
    workloadRef w +:+
    " selects, so older pipelines (by creation time) keep it and this one is excluded until the total fits".

Definition secretAssetsWaitingReason (w : WorkloadRef) : string :=
  secretAssetsWaitingReasonPrefix +:+ "this pipeline is part of the correct target set for " +:+ workloadRef w +:+
  ", but its secret values cannot be safely staged into the shared assets Secret until data still possibly in use by an older, not-yet-rolled config is freed on a later reconcile; no action is needed, it will be published automatically".
End reasons.

(** ** Pruning *)

(** Durations and times are nanoseconds. *)
Definition second : Z := 1000000000.
Definition SecretAssetsPruneGracePeriod : Z := 90 * second.

(** Whether to prune, and otherwise when to look again. *)
Definition secretAssetsPruneDecision (now : Z) (configUnchanged : bool) (publishedAt : option Z) : bool * Z :=
  if negb configUnchanged then (false, 0) else
  match publishedAt with
  | None => (false, SecretAssetsPruneGracePeriod)
  | Some at_ =>
      let elapsed := now - at_ in
      if elapsed <? SecretAssetsPruneGracePeriod then (false, SecretAssetsPruneGracePeriod - elapsed)
      else (true, 0)
  end.

Section plan.
Context `{GoRuntime, Libraries}.

Definition assetsWouldDropAKey (existing target : gmap string string) : bool :=
  existsb (λ k, bool_decide (target !! k = None)) (range_map 35 existing).*1.

(** ** [planSecretAssetsBridge] *)

(** Pass 1: the pipelines some variant has no room for. *)
Definition bridge_waiting (getter : SecretGetter) (proto : option Secret) (final : list Pipeline)
    (waitingKeys : gset NamespacedName) (existing : gmap string string) : result (gset NamespacedName) :=
  '(_, waiting) ← BridgeAssets getter proto existing final;
  Ok (waitingKeys ∪ list_to_set (ObjectKey <$> waiting)).

(** The data to publish per variant, the pipelines published and those that wait. *)
Definition planSecretAssetsBridge (getter : SecretGetter) (assetsPrototype : option Secret)
    (finalPipelines : list Pipeline) (existingVariants : list (gmap string string))
    : result (list (gmap string string) * list Pipeline * list Pipeline) :=
  match existingVariants with
  | [] => Ok ([], finalPipelines, [])
  | _ =>
      match foldM (bridge_waiting getter assetsPrototype finalPipelines) ∅ existingVariants with
      | Err e =>
          if errors_as is_size_data_error e then Ok (existingVariants, finalPipelines, []) else Err e
      | Ok waitingKeys =>
          let bridgePipelines := filter (λ p, ObjectKey p ∉ waitingKeys) finalPipelines in
          let waitingPipelines := filter (λ p, ObjectKey p ∈ waitingKeys) finalPipelines in
          bridgeDataPerVariant ←
            mapM (λ existing, '(data, _) ← BridgeAssets getter assetsPrototype existing bridgePipelines; Ok data)
              existingVariants;
          Ok (bridgeDataPerVariant, bridgePipelines, waitingPipelines)
      end
  end.

(** [intersectPipelinesByKey] *)
Definition intersectPipelinesByKey (pipelines include : list Pipeline) : list Pipeline :=
  filter (λ p, ObjectKey p ∈ (list_to_set (ObjectKey <$> include) : gset NamespacedName)) pipelines.
End plan.

(** ** Status writes *)

Section writes.
Context `{GoRuntime, Libraries, KubeApi}.

Definition pipeline_SetSuccessStatus (p base : Pipeline) : K unit :=
  sp ← k_lift (SetSuccessStatus p base); PatchStatus sp.
Definition pipeline_SetFailedStatus (p : Pipeline) (reason : string) (base : Pipeline) : K unit :=
  sp ← k_lift (SetFailedStatus p reason base); PatchStatus sp.

Definition writeAttributionReasonIfChanged (p : Pipeline) (reason : string) : K unit :=
  if bool_decide (GetReason p = Some reason) then mret tt
  else pipeline_SetFailedStatus (SetRelatedSecretsHash None p) reason p.

Definition markWaitingPipelines (waitingPipelines : list Pipeline) (w : WorkloadRef) : K unit :=
  if bool_decide (length waitingPipelines = 0%nat) then mret tt else
  k_iter (λ p, writeAttributionReasonIfChanged p (secretAssetsWaitingReason w)) waitingPipelines.

Definition reinstatePipelines (candidates : list Pipeline) : K unit :=
  k_iter (λ p, pipeline_SetSuccessStatus p p) candidates.

(** ** [resolveWorkloadPipelines] *)

(** The pool: the valid pipelines and those an earlier round attributed. *)
Definition is_retry (p : Pipeline) : bool :=
  negb (IsValid p) &&
  match GetReason p with Some reason => isSecretAttributionReason reason | None => false end.

Definition pool_of (all : list Pipeline) : list Pipeline := List.filter (λ p, IsValid p || is_retry p) all.

Definition retry_keys (pool : list Pipeline) : gset NamespacedName :=
  list_to_set (ObjectKey <$> List.filter is_retry pool).

Definition individuallyValid (pool : list Pipeline) : list Pipeline := List.filter IsValid pool.

Definition victims_by_key {V} (victim : V → Pipeline) (l : list V) : gmap NamespacedName V :=
  fold_left (λ m v, <[ObjectKey (victim v) := v]> m) l ∅.

Record selection := { sel_result : list Pipeline; sel_reinstate : list Pipeline }.

(** The verdict on one pipeline of the pool. *)
Definition select_step (w : WorkloadRef) (retry : gset NamespacedName)
    (collisionVictims : gmap NamespacedName SecretCollision)
    (sizeVictims : gmap NamespacedName SecretSizeExclusion) (s : selection) (p : Pipeline) : K selection :=
  let key := ObjectKey p in
  match collisionVictims !! key with
  | Some col => _ ← writeAttributionReasonIfChanged p (secretCollisionReason col w); mret s
  | None =>
      match sizeVictims !! key with
      | Some ex => _ ← writeAttributionReasonIfChanged p (secretSizeExclusionReason ex w); mret s
      | None =>
          if decide (key ∈ retry) then
            unchanged ← k_lift (IsPipelineChanged p);
            if unchanged : bool
            then mret {| sel_result := sel_result s ++ [p]; sel_reinstate := sel_reinstate s ++ [p] |}
            else mret s
          else mret {| sel_result := sel_result s ++ [p]; sel_reinstate := sel_reinstate s |}
      end
  end.

Fixpoint k_fold {A S} (f : S → A → K S) (s : S) (l : list A) : K S :=
  match l with [] => mret s | x :: l => s ← f s x; k_fold f s l end.

Definition resolveWorkloadPipelines (client : PipelineLister) (getter : SecretGetter)
    (filter_ : FilterPipelines) (w : WorkloadRef) (assetsPrototype : option Secret)
    : K selection :=
  all ← k_lift (GetAllPipelines client filter_);
  let pool := pool_of all in
  let fallback := {| sel_result := individuallyValid pool; sel_reinstate := [] |} in
  match DetectSecretCollisions getter pool with
  | Err _ => mret fallback
  | Ok collisions =>
      let collisionVictims := victims_by_key sc_victim collisions in
      let survivors := filter (λ p, collisionVictims !! ObjectKey p = None) pool in
      let selected sizeExclusions :=
        k_fold (select_step w (retry_keys pool) collisionVictims (victims_by_key se_victim sizeExclusions))
          {| sel_result := []; sel_reinstate := [] |} pool in
      match DetectSecretSizeOverflow getter assetsPrototype survivors with
      | Ok sizeExclusions => selected sizeExclusions
      | Err e => if errors_as is_size_data_error e then selected [] else mret fallback
      end
  end.
End writes.

(** ** Lemmas: the decisions *)

Section decisions.
Context `{GoRuntime, Libraries}.

Lemma assetsWouldDropAKey_spec existing target :
  assetsWouldDropAKey existing target = true ↔ ∃ k, is_Some (existing !! k) ∧ target !! k = None.
Proof.
  unfold assetsWouldDropAKey. rewrite existsb_exists. setoid_rewrite <- list_elem_of_In.
  setoid_rewrite range_keys. setoid_rewrite bool_decide_eq_true. done.
Qed.

Lemma assetsWouldDropAKey_false existing target :
  assetsWouldDropAKey existing target = false ↔ ∀ k, is_Some (existing !! k) → is_Some (target !! k).
Proof.
  rewrite <- not_true_iff_false, assetsWouldDropAKey_spec. split.
  - intros Hn k Hk. destruct (target !! k) eqn:Ht; [by eexists|]. destruct Hn. by exists k.
  - intros Hall (k & Hk & Ht). apply Hall in Hk. rewrite Ht in Hk. by destruct Hk.
Qed.

(** The classes of reasons, told apart by their prefixes. *)
Definition reason_class (r : string) : list bool :=
  (λ p, has_prefix p r) <$>
    [secretCollisionReasonPrefix; secretSizeExclusionReasonPrefix;
     secretObjectSizeExclusionReasonPrefix; secretAssetsWaitingReasonPrefix].

Lemma collision_reason_class c w : reason_class (secretCollisionReason c w) = [true; false; false; false].
Proof. done. Qed.
Lemma size_reason_class e w :
  reason_class (secretSizeExclusionReason e w) =
    if se_object_budget e then [false; false; true; false] else [false; true; false; false].
Proof. unfold secretSizeExclusionReason. by destruct (se_object_budget e). Qed.
Lemma waiting_reason_class w : reason_class (secretAssetsWaitingReason w) = [false; false; false; true].
Proof. done. Qed.

Lemma attribution_class r : isSecretAttributionReason r = existsb id (reason_class r).
Proof. unfold isSecretAttributionReason, reason_class. simpl. by rewrite !orb_false_r, !orb_assoc. Qed.

(** Only the keys of a status patch's pipeline change. *)
Lemma merge_field_base {A} `{EqDecision A} (b o : A) : merge_field b o b = o.
Proof. unfold merge_field. by case_decide. Qed.

Lemma merge_status_base b o : merge_status b o b = o.
Proof. unfold merge_status. rewrite !merge_field_base. by destruct o. Qed.
End decisions.

(** ** Lemmas: the bridge plan *)

Section plan_lemmas.
Context `{GoRuntime, Libraries}.
Context (getter : SecretGetter) (proto : option Secret) (Hentry : entry_sizes_nonneg).

(** Replacing what a variant stages by a value of these references makes no entry
    smaller. *)
Definition never_shrinks (rs : list pendingSecretRef) (existing : gmap string string) : Prop :=
  ∀ r v old, r ∈ rs → valueOf getter r = Ok v → existing !! pr_flat r = Some old →
    value_len (pr_flat r) old <= value_len (pr_flat r) v ∧
    secretDataEntrySize (pr_flat r) old <= secretDataEntrySize (pr_flat r) v.

(** Staging fewer values over the same map needs no more room, if none shrinks. *)
Lemma fits_fewer rs1 rs2 d1 d2 existing :
  (∀ r, r ∈ rs1 → r ∈ rs2) → stages getter rs1 d1 → stages getter rs2 d2 →
  never_shrinks rs2 existing →
  fits proto (d2 ∪ existing) = true → fits proto (d1 ∪ existing) = true.
Proof.
  intros Hrs Hd1 Hd2 Hns.
  assert (Hpt : ∀ f : string → string → Z, (∀ k a, 0 <= f k a) →
    (∀ r v old, r ∈ rs2 → valueOf getter r = Ok v → existing !! pr_flat r = Some old →
       f (pr_flat r) old <= f (pr_flat r) v) →
    msum f (d1 ∪ existing) <= msum f (d2 ∪ existing)).
  { intros f Hf Hsh. apply msum_le; [done|]. intros k a.
    rewrite lookup_union_Some_raw. intros [Hk|[Hk He]].
    - exists a. split; [|done]. apply lookup_union_Some_l.
      apply Hd1 in Hk as (r & Hr & ?). apply Hd2. eauto.
    - destruct (d2 !! k) as [b|] eqn:Hb.
      + exists b. split; [by apply lookup_union_Some_l|].
        apply Hd2 in Hb as (r & Hr & <- & Hv). by eapply Hsh.
      + exists a. split; [|done]. by rewrite lookup_union_r. }
  unfold fits. rewrite !secretDataSize_msum, !secretObjectSize_msum, !andb_true_iff, !Z.leb_le.
  pose proof (Hpt value_len ltac:(intros; unfold value_len, go_len; lia) ltac:(intros; by eapply Hns)).
  pose proof (Hpt secretDataEntrySize Hentry ltac:(intros; by eapply Hns)). lia.
Qed.

Context (final : list Pipeline).
Context (Hnd : NoDup (pipelineID <$> final)) (Hc : consistent (final ≫= refs_of getter)).

Definition published (waitingKeys : gset NamespacedName) : list Pipeline :=
  filter (λ p, ObjectKey p ∉ waitingKeys) final.

Lemma published_elem W p : p ∈ published W ↔ p ∈ final ∧ ObjectKey p ∉ W.
Proof. unfold published. rewrite list_elem_of_filter. tauto. Qed.

Lemma published_NoDup W : NoDup (pipelineID <$> published W).
Proof. eapply sublist_NoDup; [exact Hnd|]. apply fmap_sublist, sublist_filter. Qed.

Lemma published_refs W r : r ∈ published W ≫= refs_of getter → r ∈ final ≫= refs_of getter.
Proof. rewrite !list_elem_of_bind. intros (p & ? & [? _]%published_elem). eauto. Qed.

Lemma published_consistent W : consistent (published W ≫= refs_of getter).
Proof. intros r1 r2 ?%published_refs ?%published_refs. by apply Hc. Qed.

(** The pipelines of a list that wait are told by their keys as well as by their IDs. *)
Lemma waits_key w p :
  (∀ q, q ∈ w → q ∈ final) → p ∈ final → waits w p ↔ ObjectKey p ∈ ObjectKey <$> w.
Proof.
  intros Hw Hp. unfold waits. rewrite !list_elem_of_fmap. split.
  - intros (q & Hid & Hq). exists q. split; [|done]. f_equal.
    apply (NoDup_fmap_elem_inj pipelineID final); auto.
  - intros (q & Hid%ObjectKey_ID & Hq). eauto.
Qed.

Section variant.
Context (existing : gmap string string) (data1 : gmap string string) (w1 : list Pipeline).
Context (W : gset NamespacedName).
Context (H1 : BridgeAssets getter proto existing final = Ok (data1, w1)).
Context (HW : ∀ p, p ∈ w1 → ObjectKey p ∈ W).

Let report1 := BridgeAssets_report getter proto existing final Hnd Hc data1 w1 H1.

Lemma published_not_waiting p : p ∈ published W → p ∈ not_waiting w1 final.
Proof.
  rewrite published_elem. intros [Hp Hn]. unfold not_waiting. rewrite list_elem_of_filter.
  split; [|done]. intros Hw. apply (waits_key w1) in Hw; [|intros q Hq; by apply report1|done].
  apply list_elem_of_fmap in Hw as (q & Heq & Hq). apply Hn. rewrite Heq. by apply HW.
Qed.

Lemma published_values r :
  r ∈ published W ≫= refs_of getter → is_Ok (valueOf getter r).
Proof.
  intros (p & Hr & Hp)%list_elem_of_bind.
  destruct (br_staged _ _ _ _ _ _ report1 p r) as (v & Hv & _); [by apply published_not_waiting | done |].
  by exists v.
Qed.

(** A second pass over the published pipelines cannot fail. *)
Lemma second_pass_total : is_Ok (BridgeAssets getter proto existing (published W)).
Proof.
  destruct (decide (final = [])) as [Hf|Hf].
  { unfold published. rewrite Hf. by eexists. }
  apply bridge_total; [apply published_NoDup| |apply published_values].
  apply Forall_forall. intros p [Hp _]%published_elem.
  pose proof H1 as H1'. rewrite BridgeAssets_spec_eq in H1'. unfold BridgeAssets_spec in H1'.
  rewrite bool_decide_eq_false_2 in H1' by done. revert H1'. intros (x & Hg & _)%bind_Ok.
  assert (Hall : Forall (λ p, is_Ok (pipeline_refs getter p)) final) by (apply gather_is_Ok; by eexists).
  rewrite Forall_forall in Hall. auto.
Qed.

(** The variant is safe: either the others make nobody else wait, or no value shrinks. *)
Definition variant_safe : Prop :=
  (∀ p, p ∈ final → ObjectKey p ∈ W → waits w1 p) ∨ never_shrinks (final ≫= refs_of getter) existing.

Lemma variant_nobody_waits data2 w2 :
  variant_safe → BridgeAssets getter proto existing (published W) = Ok (data2, w2) → w2 = [].
Proof.
  intros Hsafe H2.
  pose proof (BridgeAssets_report _ _ _ _ (published_NoDup W) (published_consistent W) _ _ H2) as report2.
  assert (Hno : ∀ p, p ∈ published W → ¬ waits w2 p).
  { apply older_ind. intros p Hp IH Hw.
    assert (Hne : refs_of getter p ≠ []).
    { unfold waits in Hw. apply list_elem_of_fmap in Hw as (q & Hid & Hq).
      destruct (br_waiting _ _ _ _ _ _ report2 q Hq) as [Hq1 Hq2].
      assert (p = q) as ->; [|done]. by apply (NoDup_fmap_elem_inj pipelineID (published W)); [apply published_NoDup|..]. }
    destruct (br_verdict _ _ _ _ _ _ report2 p Hp Hne) as (d2 & Hd2 & Hv2).
    apply published_elem in Hp as Hp'. destruct Hp' as [Hpf HpW].
    destruct (br_verdict _ _ _ _ _ _ report1 p Hpf Hne) as (d1 & Hd1 & Hv1).
    assert (Hfit1 : fits proto (d1 ∪ existing) = true).
    { apply not_false_is_true. intros Hf. apply Hv1 in Hf.
      apply published_not_waiting in Hp. unfold not_waiting in Hp. by apply list_elem_of_filter in Hp as [? _]. }
    apply Hv2 in Hw. enough (fits proto (d2 ∪ existing) = true) by congruence.
    assert (Hsub : ∀ r, r ∈ (not_waiting w2 (older_than p (published W)) ≫= refs_of getter) ++ refs_of getter p →
                        r ∈ (not_waiting w1 (older_than p final) ≫= refs_of getter) ++ refs_of getter p).
    { intros r [(q & Hr & [_ [Ho Hq]%list_elem_of_filter]%list_elem_of_filter)%list_elem_of_bind|Hr]%elem_of_app;
        apply elem_of_app; [left|by right].
      apply list_elem_of_bind. exists q. split; [done|]. apply published_not_waiting in Hq.
      unfold not_waiting, older_than in *. rewrite !list_elem_of_filter in *. tauto. }
    destruct Hsafe as [Hsame|Hns].
    - assert (d2 = d1) as ->; [|done]. eapply stages_unique; [|exact Hd2|exact Hd1]. intros r. split; [apply Hsub|].
      intros [(q & Hr & [Hnw [Ho Hq]%list_elem_of_filter]%list_elem_of_filter)%list_elem_of_bind|Hr]%elem_of_app;
        apply elem_of_app; [left|by right].
      apply list_elem_of_bind. exists q. split; [done|].
      assert (Hqp : q ∈ published W).
      { apply published_elem. split; [done|]. intros HqW. apply Hnw. by apply Hsame. }
      unfold not_waiting, older_than. rewrite !list_elem_of_filter. split; [|done]. by apply IH.
    - eapply fits_fewer; [exact Hsub|exact Hd2|exact Hd1| |done].
      intros r v old Hr. apply Hns.
      apply elem_of_app in Hr as [(q & ? & [_ [_ ?]%list_elem_of_filter]%list_elem_of_filter)%list_elem_of_bind|?];
        apply list_elem_of_bind; eauto. }
  destruct w2 as [|p w2]; [done|]. exfalso.
  destruct (br_waiting _ _ _ _ _ _ report2 p) as [Hp _]; [by left|].
  apply (Hno p Hp). unfold waits. rewrite fmap_cons. by left.
Qed.
End variant.
End plan_lemmas.

Section plan_report.
Context `{GoRuntime, Libraries}.
Context (getter : SecretGetter) (proto : option Secret).

Lemma pass1_spec final variants W0 W :
  foldM (bridge_waiting getter proto final) W0 variants = Ok W →
  ∃ results, Forall2 (λ existing r, BridgeAssets getter proto existing final = Ok r) variants results ∧
    ∀ k, k ∈ W ↔ k ∈ W0 ∨ ∃ r, r ∈ results ∧ k ∈ ObjectKey <$> r.2.
Proof.
  revert W0. induction variants as [|ex variants IH]; intros W0; cbn [foldM].
  - intros [= <-]. exists []. split; [constructor|]. set_solver.
  - intros (W1 & ([d w] & Hb & [= <-])%bind_Ok & Hf)%bind_Ok.
    destruct (IH _ Hf) as (results & Hall & Hk). exists ((d, w) :: results).
    split; [by constructor|]. intros k. rewrite Hk, elem_of_union, elem_of_list_to_set. set_solver.
Qed.

(** What a plan says of one variant: nothing staged is dropped, and where the
    variant is safe every published pipeline's values are staged within budget. *)
Definition variant_planned (final bridge wait : list Pipeline) (existing data : gmap string string) : Prop :=
  (∀ k, is_Some (existing !! k) → is_Some (data !! k)) ∧
  (fits proto existing = true → fits proto data = true) ∧
  ((∃ d w, BridgeAssets getter proto existing final = Ok (d, w) ∧ ∀ p, p ∈ wait → waits w p) ∨
     never_shrinks getter (final ≫= refs_of getter) existing →
   bridge_report getter proto existing bridge data []).

Record plan_report (final : list Pipeline) (variants datas : list (gmap string string))
    (bridge wait : list Pipeline) : Prop := {
  pl_bridge : bridge = not_waiting wait final;
  pl_wait : wait `sublist_of` final;
  pl_waits p : p ∈ wait ↔ p ∈ final ∧
    ∃ existing d w, existing ∈ variants ∧ BridgeAssets getter proto existing final = Ok (d, w) ∧ waits w p;
  pl_variants : Forall2 (variant_planned final bridge wait) variants datas
}.

Lemma plan_is_report final variants datas bridge wait W :
  entry_sizes_nonneg → NoDup (pipelineID <$> final) → consistent (final ≫= refs_of getter) →
  foldM (bridge_waiting getter proto final) ∅ variants = Ok W →
  bridge = published final W → wait = filter (λ p, ObjectKey p ∈ W) final →
  mapM (λ existing, '(data, _) ← BridgeAssets getter proto existing bridge; Ok data) variants = Ok datas →
  plan_report final variants datas bridge wait.
Proof.
  intros Hentry Hnd Hc HW -> -> Hm. apply pass1_spec in HW as (results & Hres & HW).
  assert (HW' : ∀ k, k ∈ W ↔ ∃ r, r ∈ results ∧ k ∈ ObjectKey <$> r.2) by (intros k; rewrite HW; set_solver).
  assert (Hin : ∀ p, p ∈ final → (p ∈ filter (λ p, ObjectKey p ∈ W) final ↔ ObjectKey p ∈ W))
    by (intros p Hp; rewrite list_elem_of_filter; tauto).
  assert (Hrep : ∀ existing d w, BridgeAssets getter proto existing final = Ok (d, w) → ∀ q, q ∈ w → q ∈ final).
  { intros existing d w Hb q Hq. eapply br_waiting; [by eapply BridgeAssets_report | done]. }
  split.
  - unfold published, not_waiting. apply list_filter_ext_elem. intros p Hp. rewrite <- Hin by done.
    rewrite list_elem_of_fmap. split; [|by intros Hn ?; apply Hn; eauto].
    intros Hn (q & Hid & Hq). apply Hn. assert (p = q) as ->; [|done].
    apply list_elem_of_filter in Hq as [_ Hq]. by apply (NoDup_fmap_elem_inj pipelineID final).
  - apply sublist_filter.
  - intros p. rewrite list_elem_of_filter, HW'. split.
    + intros [(r & Hr & Hk) Hp]. split; [done|]. apply list_elem_of_lookup in Hr as [i Hi].
      destruct (Forall2_lookup_r _ _ _ _ _ Hres Hi) as (existing & Hex & Hb). destruct r as [d w].
      exists existing, d, w. split; [by eapply list_elem_of_lookup_2|]. split; [done|].
      apply (waits_key final Hnd); [by eapply Hrep | done | done].
    + intros [Hp (existing & d & w & Hex & Hb & Hw)]. split; [|done].
      apply list_elem_of_lookup in Hex as [i Hi].
      destruct (Forall2_lookup_l _ _ _ _ _ Hres Hi) as (r & Hr & Hb'). rewrite Hb in Hb'. injection Hb' as <-.
      exists (d, w). split; [by eapply list_elem_of_lookup_2|].
      by apply (waits_key final Hnd); [by eapply Hrep | done | done].
  - apply mapM_Ok in Hm. apply Forall2_same_length_lookup. split; [by eapply Forall2_length|].
    intros i existing data Hi Hj.
    destruct (Forall2_lookup_l _ _ _ _ _ Hres Hi) as ([d1 w1] & Hr & Hb1).
    pose proof (Forall2_lookup_lr _ _ _ _ _ _ Hm Hi Hj) as Hb2. simpl in Hb2.
    apply bind_Ok in Hb2 as ([data2 w2] & Hb2 & [= ->]).
    assert (HWw : ∀ p, p ∈ w1 → ObjectKey p ∈ W).
    { intros p Hp. apply HW'. exists (d1, w1). split; [by eapply list_elem_of_lookup_2|]. by apply list_elem_of_fmap_2. }
    pose proof (BridgeAssets_report _ _ _ _ (published_NoDup final Hnd W)
      (published_consistent getter final Hc W) _ _ Hb2) as Hrep2.
    split; [|split].
    + destruct (br_data _ _ _ _ _ _ Hrep2) as (d & _ & ->). intros k Hk. rewrite lookup_union_is_Some. by right.
    + apply Hrep2.
    + intros Hsafe. assert (w2 = []) as ->; [|done].
      eapply (variant_nobody_waits getter proto Hentry final Hnd Hc existing d1 w1 W Hb1 HWw); [|exact Hb2].
      destruct Hsafe as [(d & w & Hb & Hw)|?]; [left|by right]. rewrite Hb1 in Hb. injection Hb as <- <-.
      intros p Hp HpW. apply Hw. by apply Hin.
Qed.
End plan_report.

(** ** A plan that publishes a pipeline it cannot stage

    Two variants. The first holds a large old value of [sample_a], which its new
    value replaces; the second is filled by an old value of [sample_y]. In the first
    variant there is room for [sample_y] only because [sample_a] shrinks; in the
    second there is none for [sample_a], so it waits, and the second pass over the
    first variant drops the value of [sample_y], which is published all the same. *)

Definition sample_y : Pipeline :=
  sample_vp "team" "y" 2 (sample_spec {["c" := sample_backend "s2"]} "SECRET[c.k]").
Definition key_a : string := "team_a_b_c_k".
Definition key_y : string := "team_y_c_k".

#[local] Existing Instance stable_runtime.

Section counterexample.
Context (full : string) (Hfull : go_len full = MaxSecretSize).

Notation fit := (fits None).
Notation bridge := (BridgeAssets sample_getter None).
Notation m1 k v := ({[k := v]} : gmap string string).

Lemma overfull k k' v : k ≠ k' → 0 < go_len v → fit (m1 k v ∪ m1 k' full) = false.
Proof.
  intros Hk Hv. unfold fits. rewrite secretDataSize_msum.
  assert (Hsum : msum value_len (m1 k v ∪ m1 k' full) = go_len v + MaxSecretSize).
  { rewrite msum_union by (by apply map_disjoint_singleton_l, lookup_singleton_ne).
    unfold singletonM, map_singleton. rewrite !msum_insert, !msum_empty by apply lookup_empty.
    unfold value_len. lia. }
  rewrite Hsum. rewrite (proj2 (Z.leb_gt _ _)) by lia. done.
Qed.

Lemma union_same k v w : m1 k v ∪ m1 k w = m1 k v.
Proof.
  apply map_eq. intros j. rewrite lookup_union. destruct (decide (j = k)) as [->|Hj].
  - by rewrite !lookup_singleton_eq.
  - by rewrite !lookup_singleton_ne.
Qed.

Definition step_result (p : Pipeline) (t : gmap string string)
    (s : gmap string string * list Pipeline) : gmap string string * list Pipeline :=
  if fit (t ∪ s.1) then (t ∪ s.1, s.2) else (s.1, s.2 ++ [p]).

Definition new_a : gmap string string := m1 key_a "value of s1".
Definition new_y : gmap string string := m1 key_y "value of s2".

Lemma tentative_a : tentative_values sample_getter ∅ (refs_of sample_getter sample_a) = Ok new_a.
Proof. vm_compute. reflexivity. Qed.
Lemma tentative_y : tentative_values sample_getter ∅ (refs_of sample_getter sample_y) = Ok new_y.
Proof. vm_compute. reflexivity. Qed.

(** One step of a pass, for a pipeline whose values are known. *)
Lemma known_step ps byID byPipeline ids p t s :
  Gathered sample_getter ps byID byPipeline ids → p ∈ ps →
  tentative_values sample_getter ∅ (refs_of sample_getter p) = Ok t →
  bridge_spec_step sample_getter None byID byPipeline s (pipelineID p)
    = Ok (step_result p t s).
Proof.
  intros Hg Hp Ht. destruct s as [data w]. unfold bridge_spec_step.
  change (default [] (byPipeline !! pipelineID p)) with (refs_at byPipeline (pipelineID p)).
  rewrite (refs_at_of _ _ _ _ _ Hg) by done. rewrite Ht. cbn [mbind res_bind].
  assert (Hid : byID !! pipelineID p = Some p) by (by apply (gathered_byID _ _ _ _ _ Hg)).
  rewrite Hid. unfold step_result. cbn [fst snd]. by destruct (fit _).
Qed.

Lemma bridge_over ps ids existing :
  NoDup (pipelineID <$> ps) → ps ≠ [] →
  (λ r, r.2) <$> gatherPendingSecretsByPipeline sample_getter ps = Ok ids →
  ∃ byID byPipeline, Gathered sample_getter ps byID byPipeline ids ∧
    bridge existing ps = foldM (bridge_spec_step sample_getter None byID byPipeline) (existing, []) ids.
Proof.
  intros Hnd Hps Hids. rewrite BridgeAssets_spec_eq. unfold BridgeAssets_spec.
  rewrite bool_decide_eq_false_2 by done.
  destruct (gatherPendingSecretsByPipeline sample_getter ps) as [[[byID byPipeline] ids']|e] eqn:Hg; [|done].
  injection Hids as <-. exists byID, byPipeline. split; [by apply gather_Gathered | done].
Qed.

Lemma bridge_both existing :
  bridge existing [sample_a; sample_y] = Ok (step_result sample_y new_y (step_result sample_a new_a (existing, []))).
Proof.
  destruct (bridge_over [sample_a; sample_y] [pipelineID sample_a; pipelineID sample_y] existing)
    as (byID & byPipeline & Hg & ->); [|done|vm_compute; reflexivity|].
  { repeat constructor; set_solver. }
  cbn [foldM]. rewrite (known_step _ _ _ _ sample_a new_a _ Hg) by (apply tentative_a || set_solver).
  cbn [mbind res_bind]. by rewrite (known_step _ _ _ _ sample_y new_y _ Hg) by (apply tentative_y || set_solver).
Qed.

Lemma bridge_y existing :
  bridge existing [sample_y] = Ok (step_result sample_y new_y (existing, [])).
Proof.
  destruct (bridge_over [sample_y] [pipelineID sample_y] existing)
    as (byID & byPipeline & Hg & ->); [|done|vm_compute; reflexivity|].
  { repeat constructor; set_solver. }
  cbn [foldM]. by rewrite (known_step _ _ _ _ sample_y new_y _ Hg) by (apply tentative_y || set_solver).
Qed.

Definition variant1 : gmap string string := m1 key_a full.
Definition variant2 : gmap string string := m1 key_y full.

Lemma plan_drops_y :
  planSecretAssetsBridge sample_getter None [sample_a; sample_y] [variant1; variant2] =
    Ok ([variant1; new_y], [sample_y], [sample_a]).
Proof.
  assert (Ha1 : fit (new_a ∪ variant1) = true) by (unfold variant1, new_a; rewrite union_same; vm_compute; reflexivity).
  assert (Ha2 : fit (new_a ∪ variant2) = false) by (apply overfull; [done | vm_compute; reflexivity]).
  assert (Hy1 : fit (new_y ∪ variant1) = false) by (apply overfull; [done | vm_compute; reflexivity]).
  assert (Hu : new_y ∪ variant2 = new_y) by apply union_same.
  assert (Hy2 : fit (new_y ∪ variant2) = true) by (rewrite Hu; vm_compute; reflexivity).
  assert (Hay : fit (new_y ∪ (new_a ∪ variant1)) = true)
    by (unfold variant1, new_a; rewrite union_same; vm_compute; reflexivity).
  unfold planSecretAssetsBridge. cbn [foldM]. unfold bridge_waiting. rewrite !bridge_both.
  unfold step_result. cbn [fst snd]. rewrite Ha1, Ha2. cbn [fst snd]. rewrite Hay, Hy2.
  cbn [mbind res_bind fst snd].
  replace (filter (λ p, ObjectKey p ∉ _) [sample_a; sample_y]) with [sample_y] by (vm_compute; reflexivity).
  replace (filter (λ p, ObjectKey p ∈ _) [sample_a; sample_y]) with [sample_a] by (vm_compute; reflexivity).
  cbn [mapM]. rewrite !bridge_y. unfold step_result. cbn [fst snd]. rewrite Hy1, Hy2, Hu. reflexivity.
Qed.
End counterexample.

(** ** Lemmas: attribution and selection *)

Section attribution.
Context `{GoRuntime, Libraries, KubeApi}.

(** A status write that returns stores the status it was given, over a pipeline that
    is stored as the base was read. *)
Lemma PatchStatus_stores sp q c tr c' :
  w_pipelines (seen c) !! pipe_key (sp_obj sp) = Some q → p_status q = p_status (sp_base sp) →
  PatchStatus sp c = (tr, c', Ok tt) →
  w_pipelines (seen c') !! pipe_key (sp_obj sp) = Some (with_status (λ _, p_status (sp_obj sp)) q).
Proof.
  unfold PatchStatus. intros Hq Hb. pose proof (api_patch_pipeline_spec sp c) as Hs.
  destruct (api_patch_pipeline sp c) as [[[]|e] c1]; [|done]. intros [= _ <-]. rewrite Hs. simpl.
  rewrite lookup_alter_eq, Hq. simpl. f_equal. unfold with_status. f_equal. by rewrite Hb, merge_status_base.
Qed.

Lemma is_retry_spec p :
  is_retry p = true ↔ IsValid p = false ∧ ∃ r, GetReason p = Some r ∧ isSecretAttributionReason r = true.
Proof.
  unfold is_retry. rewrite andb_true_iff, negb_true_iff. destruct (GetReason p); naive_solver.
Qed.

Lemma k_lift_run {A} (r : result A) c : k_lift r c = ([], c, r).
Proof. done. Qed.

(** What a write of an attribution leaves. *)
Definition attributed (p : Pipeline) (reason : string) (h : Z) : Pipeline :=
  SetLastAppliedPipeline (Some h) (SetReason (Some reason) (SetConfigCheck false (SetRelatedSecretsHash None p))).

Lemma write_attribution_run p reason c tr c' :
  GetReason p ≠ Some reason → w_pipelines (seen c) !! pipe_key p = Some p →
  writeAttributionReasonIfChanged p reason c = (tr, c', Ok tt) →
  ∃ h, GetPipelineHash p = Ok h ∧ w_pipelines (seen c') !! pipe_key p = Some (attributed p reason h).
Proof.
  intros Hr Hp. unfold writeAttributionReasonIfChanged. rewrite bool_decide_eq_false_2 by done.
  unfold pipeline_SetFailedStatus, mbind, K_bind, k_bind, k_lift.
  destruct (SetFailedStatus (SetRelatedSecretsHash None p) reason p) as [sp|e] eqn:Hs; [|done].
  apply SetFailedStatus_Ok in Hs as (h & Hh & Hb & Ho). intros Hpatch.
  destruct (PatchStatus sp c) as [[tr1 c1] r1] eqn:Hrun. injection Hpatch as <- <- ->.
  exists h. split; [done|]. assert (Hk : pipe_key (sp_obj sp) = pipe_key p) by (by rewrite Ho).
  rewrite <- Hk. erewrite PatchStatus_stores; [|by rewrite Hk|by rewrite Hb|exact Hrun].
  rewrite Ho. done.
Qed.

Lemma attributed_retry p reason h :
  isSecretAttributionReason reason = true → GetPipelineHash p = Ok h →
  is_retry (attributed p reason h) = true ∧ IsPipelineChanged (attributed p reason h) = Ok true.
Proof.
  intros Hr Hh. split; [apply is_retry_spec; split; [done|]; by exists reason|].
  apply IsPipelineChanged_true. by exists h.
Qed.

(** Reinstating one candidate. *)
Lemma reinstate_run p c tr c' :
  w_pipelines (seen c) !! pipe_key p = Some p →
  reinstatePipelines [p] c = (tr, c', Ok tt) →
  ∃ h, GetPipelineHash p = Ok h ∧
    w_pipelines (seen c') !! pipe_key p =
      Some (SetLastAppliedPipeline (Some h) (SetReason None (SetConfigCheck true p))).
Proof.
  intros Hp. unfold reinstatePipelines. simpl.
  unfold pipeline_SetSuccessStatus, mbind, K_bind, k_bind, k_lift.
  destruct (SetSuccessStatus p p) as [sp|e] eqn:Hs; [|done].
  apply SetSuccessStatus_Ok in Hs as (h & Hh & Hb & Ho).
  unfold PatchStatus. pose proof (api_patch_pipeline_spec sp c) as Hpatch.
  destruct (api_patch_pipeline sp c) as [[[]|e] c1]; [|done]. simpl. intros [= _ <-].
  exists h. split; [done|]. rewrite Hpatch. simpl. rewrite Ho, Hb.
  change (pipe_key (SetLastAppliedPipeline _ _)) with (pipe_key p).
  rewrite lookup_alter_eq, Hp. simpl. do 2 f_equal. destruct p as [kd ns nm ct dt lb an spec st]. simpl.
  unfold with_status. simpl. f_equal. unfold merge_status. simpl. by rewrite !merge_field_base.
Qed.

(** ** Selection *)

Lemma victims_by_key_lookup {V} (victim : V → Pipeline) (l : list V) k v :
  NoDup (pipelineID ∘ victim <$> l) →
  victims_by_key victim l !! k = Some v ↔ v ∈ l ∧ ObjectKey (victim v) = k.
Proof.
  intros Hnd. unfold victims_by_key.
  assert (Hf : ∀ m : gmap NamespacedName V,
    fold_left (λ (m : gmap NamespacedName V) v, <[ObjectKey (victim v) := v]> m) l m !! k = Some v ↔
    (v ∈ l ∧ ObjectKey (victim v) = k) ∨ (m !! k = Some v ∧ ∀ u, u ∈ l → ObjectKey (victim u) ≠ k)).
  { revert Hnd. induction l as [|u l IH]; intros Hnd m; cbn [fold_left]; [set_solver|].
    apply NoDup_cons in Hnd as [Hni Hnd]. rewrite IH by done. clear IH.
    assert (Hu : ∀ x, x ∈ l → ObjectKey (victim x) ≠ ObjectKey (victim u)).
    { intros x Hx Heq%ObjectKey_ID. apply Hni. apply list_elem_of_fmap. by exists x. }
    setoid_rewrite elem_of_cons. rewrite lookup_insert_Some. split.
    - intros [[? ?]|[[[<- <-]|[? ?]] Hall]]; [left; tauto|left; split; [by left|done]|].
      right. split; [done|]. intros x [->|Hx]; [congruence | auto].
    - intros [[[->|Hv] <-]|[Hm Hall]]; [right|by left; split|right].
      + split; [by left|]. intros x Hx. by apply Hu.
      + split; [right; split; [|done]; intros Heq; by apply (Hall u); [left|]|]. intros x Hx. apply Hall. by right. }
  rewrite Hf, lookup_empty. naive_solver.
Qed.

Lemma pool_of_elem all p : p ∈ pool_of all ↔ p ∈ all ∧ (IsValid p = true ∨ is_retry p = true).
Proof. unfold pool_of. by rewrite elem_of_List_filter, orb_true_iff. Qed.

Lemma retry_keys_elem pool p :
  NoDup (pipelineID <$> pool) → p ∈ pool → ObjectKey p ∈ retry_keys pool ↔ is_retry p = true.
Proof.
  intros Hnd Hp. unfold retry_keys. rewrite elem_of_list_to_set, list_elem_of_fmap.
  setoid_rewrite elem_of_List_filter. split.
  - intros (q & Heq%ObjectKey_ID & Hq & Hr). by rewrite (NoDup_fmap_elem_inj pipelineID pool p q).
  - intros Hr. exists p. done.
Qed.

(** What a pipeline of the pool that is no victim needs to be built. *)
Definition builds (retry : gset NamespacedName) (p : Pipeline) : Prop :=
  ObjectKey p ∉ retry ∨ IsPipelineChanged p = Ok true.

#[export] Instance builds_dec retry p : Decision (builds retry p).
Proof.
  unfold builds. destruct (IsPipelineChanged p) as [[]|e]; [| |].
  - left. by right.
  - destruct (decide (ObjectKey p ∈ retry)); [right | left; by left]. intros [?|[=]]; done.
  - destruct (decide (ObjectKey p ∈ retry)); [right | left; by left]. intros [?|[=]]; done.
Defined.

Definition is_selected (retry : gset NamespacedName) (cv : gmap NamespacedName SecretCollision)
    (sv : gmap NamespacedName SecretSizeExclusion) (p : Pipeline) : Prop :=
  cv !! ObjectKey p = None ∧ sv !! ObjectKey p = None ∧ builds retry p.

#[export] Instance is_selected_dec retry cv sv p : Decision (is_selected retry cv sv p).
Proof. unfold is_selected. apply _. Defined.

Lemma select_step_run w retry cv sv s p c tr c' s' :
  select_step w retry cv sv s p c = (tr, c', Ok s') →
  s' = {| sel_result := sel_result s ++ (if decide (is_selected retry cv sv p) then [p] else []);
          sel_reinstate := sel_reinstate s ++
            (if decide (is_selected retry cv sv p ∧ ObjectKey p ∈ retry) then [p] else []) |}.
Proof.
  unfold select_step.
  assert (Hw : ∀ r s0, (_ ← writeAttributionReasonIfChanged p r; mret s0) c = (tr, c', Ok s') → s' = s0).
  { intros r s0. unfold mbind, K_bind, k_bind. destruct (writeAttributionReasonIfChanged p r c) as [[? ?] [[]|?]]; [|done].
    simpl. by intros [= _ _ <-]. }
  assert (Hnil : s = {| sel_result := sel_result s ++ []; sel_reinstate := sel_reinstate s ++ [] |})
    by (rewrite !app_nil_r; by destruct s).
  destruct (cv !! ObjectKey p) as [col|] eqn:Hcv.
  { intros ->%Hw. rewrite !decide_False by (unfold is_selected, builds; naive_solver). exact Hnil. }
  destruct (sv !! ObjectKey p) as [ex|] eqn:Hsv.
  { intros ->%Hw. rewrite !decide_False by (unfold is_selected, builds; naive_solver). exact Hnil. }
  destruct (decide (ObjectKey p ∈ retry)) as [Hin|Hin].
  - unfold mbind, K_bind, k_bind, k_lift. destruct (IsPipelineChanged p) as [[]|e] eqn:Hch; simpl; [| |done].
    + intros [= _ _ <-]. rewrite !decide_True; [done|unfold is_selected, builds; naive_solver..].
    + intros [= _ _ <-]. rewrite !decide_False by (unfold is_selected, builds; rewrite Hch; naive_solver). exact Hnil.
  - intros [= _ _ <-]. rewrite decide_True by (unfold is_selected, builds; naive_solver). rewrite decide_False by (unfold is_selected, builds; naive_solver).
    by rewrite app_nil_r.
Qed.

Lemma select_fold_run w retry cv sv pool s c tr c' s' :
  k_fold (select_step w retry cv sv) s pool c = (tr, c', Ok s') →
  sel_result s' = sel_result s ++ filter (is_selected retry cv sv) pool ∧
  sel_reinstate s' = sel_reinstate s ++ filter (λ p, ObjectKey p ∈ retry) (filter (is_selected retry cv sv) pool).
Proof.
  revert s c tr. induction pool as [|p pool IH]; intros s c tr; cbn [k_fold].
  - intros [= _ _ <-]. by rewrite !app_nil_r.
  - unfold mbind, K_bind, k_bind. destruct (select_step w retry cv sv s p c) as [[tr1 c1] [s1|e]] eqn:Hs; [|done].
    destruct (k_fold (select_step w retry cv sv) s1 pool c1) as [[tr2 c2] r] eqn:Hf. intros [= _ <- ->].
    apply select_step_run in Hs. apply IH in Hf as [H1' H2']. rewrite H1', H2', Hs. simpl.
    rewrite !filter_cons. destruct (decide (is_selected retry cv sv p)) as [Hp|Hp].
    + rewrite filter_cons. rewrite <- !(assoc_L (++)). split; [done|]. f_equal.
      destruct (decide (ObjectKey p ∈ retry)); [by rewrite decide_True | by rewrite decide_False by naive_solver].
    + rewrite (decide_False (P := _ ∧ _)) by naive_solver. by rewrite !app_nil_r.
Qed.
End attribution.

Section selection.
Context `{GoRuntime, Libraries, KubeApi}.
Context (getter : SecretGetter) (proto : option Secret).

(** The writes of a selection touch the status of the victims only. *)
Definition only_victims (w0 : world) (pool : list Pipeline) (victim : Pipeline → Prop) (w : world) : Prop :=
  w_objects w = w_objects w0 ∧ w_status w = w_status w0 ∧
  ∀ q, q ∈ pool → ¬ victim q → w_pipelines w !! pipe_key q = w_pipelines w0 !! pipe_key q.

Lemma write_only_victims w0 pool victim p reason :
  NoDup (pipelineID <$> pool) → p ∈ pool → victim p →
  triple (only_victims w0 pool victim) (λ _, True) (writeAttributionReasonIfChanged p reason) (λ _ _, True).
Proof.
  intros Hnd Hp Hv. unfold writeAttributionReasonIfChanged. case_bool_decide; [by apply triple_ret|].
  unfold pipeline_SetFailedStatus. eapply triple_bind.
  - apply triple_lift with (Q := λ sp _, pipe_key (sp_obj sp) = pipe_key p).
    intros sp w (h & _ & _ & ->)%SetFailedStatus_Ok _ _. done.
  - intros sp. apply triple_patch. intros w (Ho & Hs & Hq) Hk. split; [|done]. split; [done|]. split; [done|].
    intros q Hqp Hqv. simpl. rewrite lookup_alter_ne; [by apply Hq|]. rewrite Hk.
    intros [= _ Hns Hnm]. apply Hqv. assert (p = q) as <-; [|done].
    apply (NoDup_fmap_elem_inj pipelineID pool); [done|done|done|].
    apply ObjectKey_ID. unfold ObjectKey. by rewrite Hns, Hnm.
Qed.

Lemma select_only_victims w0 pool victim w retry cv sv l s :
  NoDup (pipelineID <$> pool) → (∀ p, p ∈ l → p ∈ pool) →
  (∀ p, p ∈ pool → is_Some (cv !! ObjectKey p) ∨ is_Some (sv !! ObjectKey p) → victim p) →
  triple (only_victims w0 pool victim) (λ _, True) (k_fold (select_step w retry cv sv) s l) (λ _ _, True).
Proof.
  intros Hnd Hl Hv. revert s. induction l as [|p l IH]; intros s; cbn [k_fold]; [by apply triple_ret|].
  assert (Hp : p ∈ pool) by (apply Hl; by left).
  apply triple_bind with (R := λ _ _, True); [|intros s'; apply IH; intros; apply Hl; by right].
  unfold select_step. destruct (cv !! ObjectKey p) as [col|] eqn:Hcv; [|destruct (sv !! ObjectKey p) as [ex|] eqn:Hsv].
  - eapply triple_bind; [apply write_only_victims; [done..|]; apply Hv; [done|left; by rewrite Hcv]|].
    intros []. by apply triple_ret.
  - eapply triple_bind; [apply write_only_victims; [done..|]; apply Hv; [done|right; by rewrite Hsv]|].
    intros []. by apply triple_ret.
  - case_decide; [|by apply triple_ret].
    eapply triple_bind; [by apply triple_lift with (Q := λ _ _, True)|]. intros []; by apply triple_ret.
Qed.

(** A part of the survivors of both attributions builds within the budgets. *)
Lemma sub_survivors_fit ps ex qs :
  entry_sizes_nonneg → secretObjectBaseSize proto <= SecretAssetsObjectBudget →
  NoDup (pipelineID <$> ps) → consistent (ps ≫= refs_of getter) →
  DetectSecretSizeOverflow getter proto ps = Ok ex →
  (∀ q, q ∈ qs → q ∈ size_survivors ex ps) →
  ∃ data, fits proto data = true ∧
    ∀ queue, queue ≡ₚ qs ≫= refs_of getter → resolve_all (default nil_getter getter) queue = Ok data.
Proof.
  intros Hentry Hbase Hnd Hc Hd Hqs.
  destruct (DetectSecretSizeOverflow_report getter proto ps Hnd Hc ex Hd) as [_ (full & Hst & Hcov & Hv & Ho)].
  assert (Hsub : ∀ r, r ∈ qs ≫= refs_of getter → r ∈ size_survivors ex ps ≫= refs_of getter).
  { intros r (q & Hr & Hq)%list_elem_of_bind. apply list_elem_of_bind. eauto. }
  pose proof (survivors_consistent_refs getter ex ps Hc) as Hc'.
  assert (Hcq : consistent (qs ≫= refs_of getter)) by (intros r1 r2 ??; apply Hc'; auto).
  assert (Hok : ∀ r, r ∈ qs ≫= refs_of getter → is_Ok (valueOf getter r)).
  { intros r Hr. eapply stages_valueOf; [exact Hc'|exact Hst|auto|auto]. }
  destruct (tentative_values_total getter ∅ _ Hok) as [data Ht].
  pose proof (tentative_values_stages getter _ _ Hcq Ht) as Hsd.
  apply tentative_values_Ok in Ht as (_ & _ & Hcd). exists data. split.
  - eapply fits_mono; [exact Hentry| |].
    + eapply stages_mono; [exact Hsub|exact Hsd|exact Hst].
    + unfold fits. rewrite secretDataSize_msum, secretObjectSize_msum. apply andb_true_iff. rewrite !Z.leb_le. lia.
  - intros queue Hq. apply resolve_all_stages.
    + intros r1 r2. rewrite Hq. by apply Hcq.
    + eapply stages_iff; [|exact Hsd]. intros r. by rewrite Hq.
    + intros r. rewrite Hq. apply Hcd.
Qed.

(** What is selected, once both detectors have reported. *)
Record selection_report (all : list Pipeline) (cols : list SecretCollision) (ex : list SecretSizeExclusion)
    (sel : selection) : Prop := {
  sr_result p : p ∈ sel_result sel ↔
    p ∈ all ∧ ¬ is_victim cols p ∧ ¬ is_excluded ex p ∧
    (IsValid p = true ∨ is_retry p = true ∧ IsPipelineChanged p = Ok true);
  sr_order : sel_result sel `sublist_of` all;
  sr_reinstate : sel_reinstate sel = List.filter is_retry (sel_result sel)
}.

Lemma collision_survivors_key cols pool :
  NoDup (pipelineID ∘ sc_victim <$> cols) →
  filter (λ p, victims_by_key sc_victim cols !! ObjectKey p = None) pool = collision_survivors cols pool.
Proof.
  intros Hnd. apply list_filter_ext_elem. intros p _. rewrite list_elem_of_fmap, eq_None_not_Some.
  split.
  - intros Hn (c & Heq & Hin). apply Hn. exists c. by apply victims_by_key_lookup.
  - intros Hn (c & [Hin Heq]%victims_by_key_lookup); [|done]. apply Hn. by exists c.
Qed.

Lemma selection_is_report all cols ex w c tr c' sel :
  let pool := pool_of all in
  NoDup (pipelineID <$> pool) → collision_report (refs_of getter) pool cols →
  (∀ e, e ∈ ex → se_victim e ∈ pool) → NoDup (pipelineID ∘ se_victim <$> ex) →
  k_fold (select_step w (retry_keys pool) (victims_by_key sc_victim cols) (victims_by_key se_victim ex))
    {| sel_result := []; sel_reinstate := [] |} pool c = (tr, c', Ok sel) →
  selection_report all cols ex sel.
Proof.
  intros pool Hnd Hcr Hex Hexnd Hf. apply select_fold_run in Hf as [Hres Hre]. simpl in Hres, Hre.
  rewrite <- Hres in Hre.
  assert (Hcv : ∀ p, p ∈ pool → victims_by_key sc_victim cols !! ObjectKey p = None ↔ ¬ is_victim cols p).
  { intros p Hp. rewrite eq_None_not_Some. split; intros Hn; [intros (c1 & Hc1 & <-)|intros [c1 Hc1]]; apply Hn.
    - exists c1. apply victims_by_key_lookup; [apply Hcr | done].
    - apply victims_by_key_lookup in Hc1 as [Hin Heq]; [|apply Hcr]. exists c1. split; [done|].
      apply ObjectKey_ID in Heq. apply (NoDup_fmap_elem_inj pipelineID pool); [done|by apply (cr_entry _ _ _ Hcr)|done|done]. }
  assert (Hsv : ∀ p, p ∈ pool → victims_by_key se_victim ex !! ObjectKey p = None ↔ ¬ is_excluded ex p).
  { intros p Hp. rewrite eq_None_not_Some. split; intros Hn; [intros (c1 & Hc1 & <-)|intros [c1 Hc1]]; apply Hn.
    - exists c1. by apply victims_by_key_lookup.
    - apply victims_by_key_lookup in Hc1 as [Hin Heq]; [|done]. exists c1. split; [done|].
      apply ObjectKey_ID in Heq. apply (NoDup_fmap_elem_inj pipelineID pool); auto. }
  split.
  - intros p. rewrite Hres, list_elem_of_filter. unfold is_selected, builds. split.
    + intros [(H1' & H2' & Hb) Hp]. apply Hcv in H1'; [|done]. apply Hsv in H2'; [|done].
      rewrite (retry_keys_elem pool) in Hb by done. apply pool_of_elem in Hp as [Ha Hv].
      split_and!; [done..|]. destruct Hv; [by left|]. destruct Hb as [Hb|?]; [done | by right].
    + intros (Ha & Hnc & Hns & Hv). assert (Hp : p ∈ pool) by (apply pool_of_elem; naive_solver).
      split; [|done]. split_and!; [by apply Hcv | by apply Hsv |]. rewrite (retry_keys_elem pool) by done.
      destruct Hv as [Hv|[_ ?]]; [left|by right]. intros [Hf _]%is_retry_spec. congruence.
  - rewrite Hres. etrans; [apply sublist_filter|]. unfold pool, pool_of.
    clear. induction all as [|p all IH]; simpl; [done|]. destruct (IsValid p || is_retry p); by constructor.
  - rewrite Hre.
    assert (Hin : ∀ p, p ∈ sel_result sel → p ∈ pool) by (intros p; rewrite Hres, list_elem_of_filter; tauto).
    revert Hin. generalize (sel_result sel) as l. induction l as [|p l IH]; intros Hin; [done|].
    rewrite filter_cons. simpl. rewrite IH by (intros; apply Hin; by right).
    assert (Hp : p ∈ pool) by (apply Hin; by left).
    destruct (is_retry p) eqn:Hr.
    + rewrite decide_True; [done|]. by apply retry_keys_elem.
    + rewrite decide_False; [done|]. rewrite (retry_keys_elem pool) by done. congruence.
Qed.
End selection.

(** ** Properties *)

(** What a plan is: a report on every variant, or, when some value cannot be read
    for what it is, the variants as they are with every pipeline published. *)
Definition plan_outcome `{GoRuntime, Libraries} getter proto final variants
    (r : result (list (gmap string string) * list Pipeline * list Pipeline)) : Prop :=
  match r with
  | Ok (datas, bridge, wait) =>
      plan_report getter proto final variants datas bridge wait ∨
      datas = variants ∧ bridge = final ∧ wait = [] ∧
      ∃ existing e, existing ∈ variants ∧ BridgeAssets getter proto existing final = Err e ∧
        errors_as is_size_data_error e = true
  | Err e =>
      errors_as is_size_data_error e = false ∧
      ∃ existing, existing ∈ variants ∧ BridgeAssets getter proto existing final = Err e
  end.

Lemma pass1_Err `{GoRuntime, Libraries} getter proto final variants W0 e :
  foldM (bridge_waiting getter proto final) W0 variants = Err e →
  ∃ existing, existing ∈ variants ∧ BridgeAssets getter proto existing final = Err e.
Proof.
  revert W0. induction variants as [|ex variants IH]; intros W0; cbn [foldM]; [done|].
  intros [[Hb|([d w] & _ & [=])]%bind_Err|(W1 & _ & (existing & ? & ?)%IH)]%bind_Err.
  - exists ex. split; [by left | done].
  - exists existing. split; [by right | done].
Qed.

Lemma plan_of_variants `{GoRuntime, Libraries} getter proto final variants : variants ≠ [] →
  planSecretAssetsBridge getter proto final variants =
    match foldM (bridge_waiting getter proto final) ∅ variants with
    | Err e => if errors_as is_size_data_error e then Ok (variants, final, []) else Err e
    | Ok W =>
        datas ← mapM (λ existing, '(data, _) ← BridgeAssets getter proto existing (published final W); Ok data) variants;
        Ok (datas, published final W, filter (λ p, ObjectKey p ∈ W) final)
    end.
Proof. by destruct variants. Qed.

(** C26: which pipelines a round publishes. A pipeline waits exactly when some
    variant of the existing assets has no room for it next to the older ones; every
    variant keeps every key it stages, and stays within the budgets if it was; and
    where no variant makes a pipeline wait that this one had room for, or where no
    new value is smaller than the one it replaces, every published pipeline's values
    are staged. The second pass over the published pipelines never fails. *)
Theorem bridge_plan_exact `{GoRuntime, Libraries} getter proto final variants :
  entry_sizes_nonneg → NoDup (pipelineID <$> final) → consistent (final ≫= refs_of getter) →
  plan_outcome getter proto final variants (planSecretAssetsBridge getter proto final variants).
Proof.
  intros Hentry Hnd Hc. destruct variants as [|v vs] eqn:Hvs.
  { left. split; [|apply sublist_nil_l|intros p; split; [by intros ?%elem_of_nil|] |constructor].
    - unfold not_waiting. symmetry. apply list_filter_all, Forall_forall. intros p _. by intros ?%elem_of_nil.
    - intros (_ & ? & _ & _ & []%elem_of_nil & _). }
  rewrite <- Hvs, plan_of_variants by (by rewrite Hvs). clear Hvs v vs.
  destruct (foldM (bridge_waiting getter proto final) ∅ variants) as [W|e] eqn:HW.
  - destruct (mapM _ variants) as [datas|e] eqn:Hm; cbn.
    + left. by eapply plan_is_report.
    + exfalso. assert (Hok : is_Ok (mapM (λ existing, '(data, _) ← BridgeAssets getter proto existing (published final W); Ok data) variants)); [|rewrite Hm in Hok; by destruct Hok].
      apply pass1_spec in HW as (results & Hres & HWk). apply mapM_is_Ok, Forall_forall. intros existing Hex.
      apply list_elem_of_lookup in Hex as [i Hi].
      destruct (Forall2_lookup_l _ _ _ _ _ Hres Hi) as ([d w] & Hr & Hb).
      destruct (second_pass_total getter proto final Hnd Hc existing d w W Hb) as [[d2 w2] ->]; [|by eexists].
      intros p Hp. apply HWk. right. exists (d, w). split; [by eapply list_elem_of_lookup_2|]. by apply list_elem_of_fmap_2.
  - apply pass1_Err in HW as (existing & Hin & Hb).
    destruct (errors_as is_size_data_error e) eqn:He; cbn; [right; eauto 10 | eauto].
Qed.

(** C27: the publishing plan can publish a pipeline one variant has no value of. Over
    two variants, the first holding a full-size old value of one pipeline, the second
    a full-size old value of the other, both passes give the first variant the old
    data alone, and publish the second pipeline, whose flat key it does not stage. *)
Theorem plan_can_drop_values full :
  go_len full = MaxSecretSize →
  planSecretAssetsBridge sample_getter None [sample_a; sample_y] [variant1 full; variant2 full] =
    Ok ([variant1 full; new_y], [sample_y], [sample_a]) ∧
  (pr_flat <$> refs_of sample_getter sample_y) = [key_y] ∧ variant1 full !! key_y = None.
Proof. intros Hfull. split_and!; [by apply plan_drops_y | vm_compute; reflexivity | done]. Qed.

(** C29: pruning waits out the grace period and then happens. It never happens with
    the configuration changed or before the period is over; and with the
    configuration unchanged, looking again after the delay it asks for, which is
    positive and at most the period, prunes. *)
Theorem prune_decision_converges now unchanged published :
  let '(prune, delay) := secretAssetsPruneDecision now unchanged published in
  (prune = true ↔ unchanged = true ∧ ∃ at_, published = Some at_ ∧ SecretAssetsPruneGracePeriod <= now - at_) ∧
  (prune = true → delay = 0) ∧
  (unchanged = true → prune = false → 0 < delay ∧
     ∀ at_, published = Some at_ →
       (at_ <= now → delay <= SecretAssetsPruneGracePeriod) ∧
       ∀ later, now + delay <= later → (secretAssetsPruneDecision later true published).1 = true).
Proof.
  unfold secretAssetsPruneDecision. destruct unchanged; simpl; [|split_and!; naive_solver].
  destruct published as [t|]; simpl.
  - destruct (Z.ltb_spec (now - t) SecretAssetsPruneGracePeriod) as [Hlt|Hge].
    + split_and!; [split; [done|intros (_ & at_ & [= <-] & ?); lia] | done |].
      intros _ _. split; [lia|]. intros at_ [= <-]. split; [lia|]. intros later Hl.
      destruct (Z.ltb_spec (later - t) SecretAssetsPruneGracePeriod); [lia | done].
    + split_and!; [split; [intros _; split; [done|]; by exists t | done] | done | done].
  - split_and!; [split; [done|intros (_ & at_ & [=] & _)] | done |].
    intros _ _. split; [done|]. intros at_ [=].
Qed.

(** The reasons the operator attributes. *)
Inductive attribution_reason `{GoRuntime} (w : WorkloadRef) : string → Prop :=
  | reason_collision c : attribution_reason w (secretCollisionReason c w)
  | reason_size e : attribution_reason w (secretSizeExclusionReason e w)
  | reason_waiting : attribution_reason w (secretAssetsWaitingReason w).

Lemma attribution_reason_recognized `{GoRuntime} w r :
  attribution_reason w r → isSecretAttributionReason r = true.
Proof.
  intros []; rewrite attribution_class;
    rewrite ?collision_reason_class, ?size_reason_class, ?waiting_reason_class; [done| |done].
  by destruct (se_object_budget e).
Qed.

(** C28: an attributed pipeline comes back. Whatever the operator attributes it for,
    the pipeline as stored after the write is a retry candidate whose recorded hash
    is its own; and once reinstated, it is stored valid, without a reason, with the
    same hash and the same specification. *)
Theorem attribution_round_trip `{GoRuntime, Libraries, KubeApi} w p reason c tr1 c1 :
  attribution_reason w reason → GetReason p ≠ Some reason →
  w_pipelines (seen c) !! pipe_key p = Some p →
  writeAttributionReasonIfChanged p reason c = (tr1, c1, Ok tt) →
  ∃ p1, w_pipelines (seen c1) !! pipe_key p = Some p1 ∧ is_retry p1 = true ∧ IsPipelineChanged p1 = Ok true ∧
    ∀ tr2 c2, reinstatePipelines [p1] c1 = (tr2, c2, Ok tt) →
    ∃ p2, w_pipelines (seen c2) !! pipe_key p = Some p2 ∧ IsValid p2 = true ∧ GetReason p2 = None ∧
      IsPipelineChanged p2 = Ok true ∧ GetSpec p2 = GetSpec p.
Proof.
  intros Hr Hne Hst Hw. apply attribution_reason_recognized in Hr.
  destruct (write_attribution_run _ _ _ _ _ Hne Hst Hw) as (h & Hh & Hst1).
  exists (attributed p reason h). destruct (attributed_retry p reason h Hr Hh) as [Hre Hch].
  split_and!; [done..|]. intros tr2 c2 Hrun.
  destruct (reinstate_run (attributed p reason h) c1 tr2 c2 Hst1 Hrun) as (h2 & Hh2 & Hst2).
  eexists. split; [exact Hst2|]. split_and!; [done|done| |done]. apply IsPipelineChanged_true. by exists h2.
Qed.

(** What is selected in each case of the two detections. *)
Definition selection_outcome `{GoRuntime, Libraries} getter proto (all : list Pipeline) (sel : selection) : Prop :=
  let pool := pool_of all in
  let fallback := sel = {| sel_result := individuallyValid pool; sel_reinstate := [] |} in
  match DetectSecretCollisions getter pool with
  | Err _ => fallback
  | Ok cols =>
      match DetectSecretSizeOverflow getter proto (collision_survivors cols pool) with
      | Ok ex => selection_report all cols ex sel ∧
          ∃ data, fits proto data = true ∧
            ∀ queue, queue ≡ₚ sel_result sel ≫= refs_of getter → resolve_all (default nil_getter getter) queue = Ok data
      | Err e => if errors_as is_size_data_error e then selection_report all cols [] sel else fallback
      end
  end.

(** The pipelines a selection may write a reason to. *)
Definition selection_victim `{GoRuntime, Libraries} getter proto (pool : list Pipeline) (p : Pipeline) : Prop :=
  ∃ cols, DetectSecretCollisions getter pool = Ok cols ∧
    (is_victim cols p ∨ ∃ ex, DetectSecretSizeOverflow getter proto (collision_survivors cols pool) = Ok ex ∧ is_excluded ex p).

Lemma pool_key_inj pool p q :
  NoDup (pipelineID <$> pool) → p ∈ pool → q ∈ pool → ObjectKey p = ObjectKey q → p = q.
Proof. intros Hnd ?? ?%ObjectKey_ID. by apply (NoDup_fmap_elem_inj pipelineID pool). Qed.

Lemma k_lift_bind `{KubeApi} {A B} (r : result A) a (f : A → K B) c :
  r = Ok a → (k_lift r ≫= f) c = f a c.
Proof. intros ->. unfold mbind, K_bind, k_bind, k_lift. by destruct (f a c) as [[??]?]. Qed.

Section selection_property.
Context `{GoRuntime, Libraries, KubeApi}.
Context (client : PipelineLister) (getter : SecretGetter) (filter_ : FilterPipelines) (w : WorkloadRef).
Context (proto : option Secret) (all : list Pipeline) (Hall : GetAllPipelines client filter_ = Ok all).
Context (Hnd : NoDup (pipelineID <$> pool_of all)) (Hcons : ∀ p, p ∈ pool_of all → consistent (refs_of getter p)).

(** The choice between the two detections, without the monad around it. *)
Definition selection_run : K selection :=
  let pool := pool_of all in
  let fallback := mret {| sel_result := individuallyValid pool; sel_reinstate := [] |} in
  let step cols ex := k_fold (select_step w (retry_keys pool) (victims_by_key sc_victim cols) (victims_by_key se_victim ex))
    {| sel_result := []; sel_reinstate := [] |} pool in
  match DetectSecretCollisions getter pool with
  | Err _ => fallback
  | Ok cols =>
      match DetectSecretSizeOverflow getter proto (collision_survivors cols pool) with
      | Ok ex => step cols ex
      | Err e => if errors_as is_size_data_error e then step cols [] else fallback
      end
  end.

Lemma resolve_is_selection_run c :
  resolveWorkloadPipelines client getter filter_ w proto c = selection_run c.
Proof using Hall Hnd Hcons.
  unfold resolveWorkloadPipelines, selection_run. rewrite (k_lift_bind _ all) by exact Hall.
  destruct (DetectSecretCollisions getter (pool_of all)) as [cols|e] eqn:Hd; [|done].
  by rewrite collision_survivors_key by (by eapply cr_NoDup, DetectSecretCollisions_report).
Qed.

Lemma survivors_facts cols :
  DetectSecretCollisions getter (pool_of all) = Ok cols →
  let ps := collision_survivors cols (pool_of all) in
  (∀ p, p ∈ ps → p ∈ pool_of all) ∧ NoDup (pipelineID <$> ps) ∧ consistent (ps ≫= refs_of getter) ∧
  collision_report (refs_of getter) (pool_of all) cols.
Proof using Hnd Hcons.
  intros Hd ps. pose proof (DetectSecretCollisions_report _ _ _ Hnd Hcons Hd) as Hr. split_and!; [| | |done].
  - intros p Hp. by apply (survivor_spec getter _ cols Hnd Hr) in Hp as [? _].
  - eapply sublist_NoDup; [exact Hnd|]. apply fmap_sublist, sublist_filter.
  - by apply (survivors_consistent _ _ _ Hnd Hr).
Qed.

Lemma selection_run_frame w0 :
  triple (only_victims w0 (pool_of all) (selection_victim getter proto (pool_of all))) (λ _, True) selection_run (λ _ _, True).
Proof using Hnd Hcons.
  unfold selection_run. destruct (DetectSecretCollisions getter (pool_of all)) as [cols|e] eqn:Hd; [|by apply triple_ret].
  destruct (survivors_facts cols Hd) as (Hsub & Hnds & Hcs & Hr).
  assert (Hcol : ∀ p, p ∈ pool_of all → is_Some (victims_by_key sc_victim cols !! ObjectKey p) →
    selection_victim getter proto (pool_of all) p).
  { intros p Hp [col [Hin Heq]%victims_by_key_lookup]; [|apply Hr]. exists cols. split; [done|]. left.
    exists col. split; [done|]. apply (pool_key_inj (pool_of all)); [done|by apply (cr_entry _ _ _ Hr)|done|done]. }
  destruct (DetectSecretSizeOverflow _ _ _) as [ex|e] eqn:Hs; [|destruct (errors_as _ e)].
  - apply select_only_victims; [exact Hnd|done|]. intros p Hp [?|[e Hv]]; [auto|].
    destruct (DetectSecretSizeOverflow_report getter proto _ Hnds Hcs ex Hs) as [Hz _].
    apply victims_by_key_lookup in Hv as [Hin Heq]; [|apply Hz]. exists cols. split; [done|]. right.
    exists ex. split; [done|]. exists e. split; [done|].
    apply (pool_key_inj (pool_of all)); [done| |done|done]. by apply Hsub, (zr_victims _ _ _ _ _ Hz).
  - apply select_only_victims; [exact Hnd|done|]. intros p Hp [?|[e' Hv]]; [auto|].
    by unfold victims_by_key in Hv.
  - by apply triple_ret.
Qed.

Lemma selection_run_outcome c tr c' sel :
  entry_sizes_nonneg → secretObjectBaseSize proto <= SecretAssetsObjectBudget →
  selection_run c = (tr, c', Ok sel) → selection_outcome getter proto all sel.
Proof using Hnd Hcons.
  intros Hentry Hbase. unfold selection_run, selection_outcome.
  destruct (DetectSecretCollisions getter (pool_of all)) as [cols|e] eqn:Hd; [|by intros [= _ _ <-]].
  destruct (survivors_facts cols Hd) as (Hsub & Hnds & Hcs & Hr).
  destruct (DetectSecretSizeOverflow _ _ _) as [ex|e] eqn:Hs; [|destruct (errors_as _ e)].
  - intros Hf. destruct (DetectSecretSizeOverflow_report getter proto _ Hnds Hcs ex Hs) as [Hz _].
    assert (Hsel : selection_report all cols ex sel).
    { eapply (selection_is_report getter); [exact Hnd|exact Hr| |apply Hz|exact Hf].
      intros e He. apply Hsub. by apply (zr_victims _ _ _ _ _ Hz). }
    split; [done|]. eapply (sub_survivors_fit getter proto _ ex); try done.
    intros q (Hq & Hc & Hx & Hv)%(sr_result _ _ _ _ Hsel).
    assert (Hqp : q ∈ pool_of all) by (apply pool_of_elem; naive_solver).
    apply list_elem_of_filter. split; [|by apply (survivor_spec getter _ cols Hnd Hr)].
    apply size_survivors_spec with (ps := collision_survivors cols (pool_of all)); [done| | |done].
    + intros e He. by apply (zr_victims _ _ _ _ _ Hz).
    + by apply (survivor_spec getter _ cols Hnd Hr).
  - intros Hf. eapply (selection_is_report getter); [exact Hnd|exact Hr| | |exact Hf]; [by intros e' ?%elem_of_nil|constructor].
  - by intros [= _ _ <-].
Qed.
End selection_property.

(** C25: which pipelines a workload is built from. When both detections report, the
    selection holds, in the order they were listed, the valid pipelines that are
    neither a collision's victim nor excluded for size, and the earlier victims that
    are not any more and have not changed, which are the ones to reinstate; the
    values of the selection build within both budgets, in every order. When a value
    cannot be read for its size nobody is excluded for size, and when a detection
    fails otherwise the selection is the valid pipelines. The only writes, in every
    world the run passes through, are to the status of the victims. *)
Theorem workload_selection_exact `{GoRuntime, Libraries, KubeApi} client getter filter_ w proto all c :
  entry_sizes_nonneg → secretObjectBaseSize proto <= SecretAssetsObjectBudget →
  GetAllPipelines client filter_ = Ok all → NoDup (pipelineID <$> pool_of all) →
  (∀ p, p ∈ pool_of all → consistent (refs_of getter p)) →
  let '(tr, c', r) := resolveWorkloadPipelines client getter filter_ w proto c in
  Forall (only_victims (seen c) (pool_of all) (selection_victim getter proto (pool_of all))) tr ∧
  match r with Ok sel => selection_outcome getter proto all sel | Err _ => True end.
Proof.
  intros Hentry Hbase Hall Hnd Hcons.
  rewrite (resolve_is_selection_run client getter filter_ w proto all Hall Hnd Hcons).
  pose proof (selection_run_frame getter w proto all Hnd Hcons (seen c) c) as Hframe.
  pose proof (selection_run_outcome getter w proto all Hnd Hcons c) as Hout.
  destruct (selection_run getter w proto all c) as [[tr c'] r].
  destruct Hframe as (Htr & _ & _); [by split_and!|done|]. split; [done|]. destruct r; [|done]. by eapply Hout.
Qed.

(** ** Witnesses *)

Lemma bridge_plan_exact_witness :
  @plan_outcome stable_runtime _ sample_getter None [sample_a] [∅]
    (@planSecretAssetsBridge stable_runtime _ sample_getter None [sample_a] [∅]).
Proof.
  apply (@bridge_plan_exact stable_runtime _ sample_getter None [sample_a] [∅]).
  - exact sample_entry_sizes.
  - vm_compute. repeat constructor; set_solver.
  - exact sample_refs_all_consistent.
Defined.

(** A string of any length. *)
Fixpoint string_of_size (n : nat) : string :=
  match n with 0%nat => "" | S n => String (ch 120) (string_of_size n) end.

Lemma string_of_size_len n : go_len (string_of_size n) = Z.of_nat n.
Proof. unfold go_len. f_equal. induction n; simpl; congruence. Qed.

Lemma plan_can_drop_values_witness : ∃ full,
  go_len full = MaxSecretSize ∧
  planSecretAssetsBridge sample_getter None [sample_a; sample_y] [variant1 full; variant2 full] =
    Ok ([variant1 full; new_y], [sample_y], [sample_a]).
Proof.
  assert (Hfull : go_len (string_of_size (Z.to_nat MaxSecretSize)) = MaxSecretSize)
    by (rewrite string_of_size_len; apply Z2Nat.id; done).
  exists (string_of_size (Z.to_nat MaxSecretSize)). split; [exact Hfull|].
  exact (proj1 (plan_can_drop_values _ Hfull)).
Defined.

Definition sample_workload : WorkloadRef := {| wr_kind := "Vector"; wr_namespace := "team"; wr_name := "agent" |}.

Definition sample_pipelines_world : world :=
  {| w_objects := ∅; w_pipelines := {[pipe_key sample_a := sample_a]};
     w_status := w_status (sample_status_world ∅) |}.
Definition sample_pipelines_calm : @cluster simple_api := calm sample_pipelines_world 0.

Definition sample_reason : string := secretAssetsWaitingReason sample_workload.
Definition sample_attribution : list world * @cluster simple_api * result unit :=
  @writeAttributionReasonIfChanged stable_runtime _ simple_api sample_a sample_reason sample_pipelines_calm.

Lemma run_parts {A B C} (x : A * B * C) r : x.2 = r → x = (x.1.1, x.1.2, r).
Proof. by destruct x as [[a b] c]; intros <-. Qed.

Lemma attribution_round_trip_witness :
  ∃ p1, w_pipelines (sc_world sample_attribution.1.2) !! pipe_key sample_a = Some p1 ∧ is_retry p1 = true.
Proof.
  destruct (@attribution_round_trip stable_runtime _ simple_api sample_workload sample_a sample_reason
    sample_pipelines_calm sample_attribution.1.1 sample_attribution.1.2) as (p1 & H1 & H2 & _).
  - apply reason_waiting.
  - vm_compute. discriminate.
  - vm_compute. reflexivity.
  - apply run_parts. vm_compute. reflexivity.
  - by exists p1.
Defined.

Definition sample_lister : PipelineLister := {| list_vps := Ok [sample_a]; list_cvps := Ok [] |}.
Definition sample_filter : FilterPipelines :=
  {| f_scope := NamespacedPipeline; f_selector := None; f_role := VectorPipelineRoleAgent; f_namespace := "team" |}.

Lemma workload_selection_exact_witness :
  let '(_, _, r) := @resolveWorkloadPipelines stable_runtime _ simple_api sample_lister sample_getter sample_filter
    sample_workload None sample_pipelines_calm in
  match r with
  | Ok sel => @selection_outcome stable_runtime _ sample_getter None [sample_a] sel
  | Err _ => True
  end.
Proof.
  pose proof (@workload_selection_exact stable_runtime _ simple_api sample_lister sample_getter sample_filter
    sample_workload None [sample_a] sample_pipelines_calm sample_entry_sizes) as Hx.
  destruct (resolveWorkloadPipelines _ _ _ _ _ _) as [[tr c'] r]. apply Hx.
  - vm_compute. discriminate.
  - vm_compute. reflexivity.
  - vm_compute. repeat constructor; set_solver.
  - intros p [->|[]%elem_of_nil]%elem_of_cons. vm_compute.
    by intros ?? [->|[]%elem_of_nil]%elem_of_cons [->|[]%elem_of_nil]%elem_of_cons.
Defined.
