(* ===== verification/Published.v ===== *)
(** * What a round publishes

    A round builds the pipelines the bridge does not make wait and stages the data it
    computed for them. Two facts connect the two: the references a build queues are
    those of its pipelines ([refs_of]), which the bridge reasons about, and a second
    pass over the pipelines that did not wait stages what the first did. Together: over
    one variant, the staged data hold the key of every value the build resolved. *)

From S2P Require Export Build WorkloadPlan.

Section queued.
Context `{GoRuntime, Libraries}.

(** The same references, in another order or number. *)
Definition same_refs (comps1 comps2 : list (list (string * value))) : Prop :=
  ∀ r, r ∈ comps1 ≫= options_refs ↔ r ∈ comps2 ≫= options_refs.

Lemma same_options comps1 comps2 : (∀ o, o ∈ comps1 ↔ o ∈ comps2) → same_refs comps1 comps2.
Proof. intros Hc r. rewrite !list_elem_of_bind. by setoid_rewrite Hc. Qed.

Lemma queued_refs p getter comps1 comps2 out1 pend pend1 out2 pend2 :
  same_refs comps1 comps2 →
  processPipelineSecrets p getter comps1 pend = Ok (out1, pend1) →
  processPipelineSecrets p getter comps2 [] = Ok (out2, pend2) →
  ∃ refs, pend1 = pend ++ refs ∧ ∀ r, r ∈ refs ↔ r ∈ pend2.
Proof.
  intros Hc (_ & _ & refs1 & -> & Hr1)%processPipelineSecrets_Ok (_ & _ & refs2 & -> & Hr2)%processPipelineSecrets_Ok.
  eexists. split; [done|]. intros r. simpl. rewrite !list_elem_of_fmap. setoid_rewrite Hr1. setoid_rewrite Hr2.
  by setoid_rewrite (Hc _).
Qed.

Lemma secrets_ok_set p getter comps1 comps2 :
  same_refs comps1 comps2 → secrets_ok p getter comps1 → secrets_ok p getter comps2.
Proof.
  intros Hc (Hs & Hd & Hg). split; [done|]. split; [done|]. rewrite Forall_forall in Hg |- *.
  intros r Hr. by apply Hg, Hc.
Qed.

(** What one pipeline queues. *)
Lemma merge_refs p pc getter sources transforms sinks cfg pend cfg' pend' :
  UnmarshalJson (GetSpec p) = Ok pc →
  same_refs ((src_options <$> sources.*2) ++ (c_options <$> transforms.*2) ++ (c_options <$> sinks.*2)) (comps_of 9 pc) →
  merge_pipeline p getter sources transforms sinks cfg pend = Ok (cfg', pend') →
  is_Ok (pipeline_refs getter p) ∧ ∃ refs, pend' = pend ++ refs ∧ ∀ r, r ∈ refs ↔ r ∈ refs_of getter p.
Proof.
  intros Hu Hc ([out1 pend1] & H1 & [= _ <-])%bind_Ok.
  pose proof H1 as (Hok & _)%processPipelineSecrets_Ok.
  destruct (processPipelineSecrets_total p getter (comps_of 9 pc) []) as [[out2 pend2] H2].
  { eapply secrets_ok_set; [|exact Hok]. exact Hc. }
  assert (Hp : pipeline_refs getter p = Ok pend2) by (unfold pipeline_refs; by rewrite Hu, H2).
  split; [by eexists|]. unfold refs_of. rewrite Hp. by eapply queued_refs.
Qed.
End queued.

(** ** The agent *)

Section agent_refs.
Context `{GoRuntime, Libraries}.

Lemma elem_of_components {A B} (f : A → B) i (m : gmap string A) o :
  o ∈ f <$> (range_map i m).*2 ↔ ∃ k a, m !! k = Some a ∧ o = f a.
Proof.
  rewrite list_elem_of_fmap. setoid_rewrite list_elem_of_fmap. split.
  - intros (a & -> & [k a'] & -> & ?%(range_map_lookup i)). eauto.
  - intros (k & a & ?%(range_map_lookup i) & ->). exists a. split; [done|]. by exists (k, a).
Qed.

Lemma agent_sources_options params p (m : gmap string Source) i j ss o :
  mapM (agent_source params p) (range_map i m) = Ok ss →
  o ∈ src_options <$> ss.*2 ↔ o ∈ src_options <$> (range_map j m).*2.
Proof.
  intros Hss%mapM_Ok. rewrite elem_of_components, list_elem_of_fmap. setoid_rewrite list_elem_of_fmap.
  assert (Hopt : ∀ k v n x, agent_source params p (k, v) = Ok (n, x) → src_options x = src_options v).
  { intros k v n x (v' & Hv & [= _ <-])%bind_Ok. unfold validate_source in Hv. unfold use_cache.
    repeat case_match; simplify_eq; done. }
  split.
  - intros (x & -> & [n x'] & -> & Hin). apply list_elem_of_lookup in Hin as [q Hq].
    destruct (Forall2_lookup_r _ _ _ _ _ Hss Hq) as ([k v] & Hkv & Ha).
    apply list_elem_of_lookup_2, range_map_lookup in Hkv. exists k, v. split; [done|]. by eapply Hopt.
  - intros (k & v & Hkv%(range_map_lookup i) & ->). apply list_elem_of_lookup in Hkv as [q Hq].
    destruct (Forall2_lookup_l _ _ _ _ _ Hss Hq) as ([n x] & Hx & Ha).
    exists x. split; [symmetry; by eapply Hopt|]. exists (n, x). split; [done|]. by eapply list_elem_of_lookup_2.
Qed.

Lemma renamed_options p (m : gmap string Component) i j o :
  o ∈ c_options <$> (rename_component p <$> range_map i m).*2 ↔ o ∈ c_options <$> (range_map j m).*2.
Proof.
  rewrite elem_of_components, list_elem_of_fmap. setoid_rewrite list_elem_of_fmap.
  setoid_rewrite list_elem_of_fmap. split.
  - intros (c & -> & [n c'] & -> & [k v] & [= -> ->] & ?%range_map_lookup). eauto.
  - intros (k & v & ?%(range_map_lookup i) & ->). eexists. split; [|eexists (_, _); split; [done|]; by exists (k, v)]. done.
Qed.

(** What a list of pipelines queues. *)
Definition queued_of (getter : SecretGetter) (ps : list Pipeline) (pend : list pendingSecretRef) : Prop :=
  Forall (λ p, is_Ok (pipeline_refs getter p)) ps ∧ ∀ r, r ∈ pend ↔ r ∈ ps ≫= refs_of getter.

Lemma queued_snoc getter ps p pend refs :
  queued_of getter ps pend → is_Ok (pipeline_refs getter p) → (∀ r, r ∈ refs ↔ r ∈ refs_of getter p) →
  queued_of getter (ps ++ [p]) (pend ++ refs).
Proof.
  intros [Hok Hq] Hp Hr. split; [apply Forall_app; by split; [|constructor]|]. intros r.
  rewrite elem_of_app, Hq, Hr, bind_app, elem_of_app. simpl. by rewrite app_nil_r.
Qed.

Lemma agent_pipelines_queued params ps0 ps s s' :
  queued_of (PipelineSecretGetter params) ps0 (ag_pending s) →
  foldM (agent_pipeline params) s ps = Ok s' →
  queued_of (PipelineSecretGetter params) (ps0 ++ ps) (ag_pending s').
Proof.
  revert ps0 s. induction ps as [|p ps IH]; intros ps0 s Hq; cbn [foldM].
  - intros [= <-]. by rewrite app_nil_r.
  - intros (s1 & Hs1 & Hf)%bind_Ok. rewrite cons_middle, (assoc_L (++)). eapply IH; [|exact Hf].
    unfold agent_pipeline in Hs1. destruct (UnmarshalJson (GetSpec p)) as [pc|e] eqn:Hu; [|done].
    apply bind_Ok in Hs1 as (ss & Hss & ([cfg pend] & Hm & [= <-])%bind_Ok). simpl.
    apply (merge_refs p pc) in Hm as (Hp & refs & -> & Hr); [by apply queued_snoc|exact Hu|].
    apply same_options. intros o. unfold comps_of. rewrite !elem_of_app, (agent_sources_options _ _ _ _ (9~0) _ _ Hss).
    by rewrite (renamed_options _ _ _ (9~1)), (renamed_options _ _ _ (9~0~1)).
Qed.

(** Where every queued reference has a value, and references agree on their keys. *)
Definition resolved_by (getter : SecretGetter) (ps : list Pipeline) (data : gmap string string) : Prop :=
  Forall (λ p, is_Ok (pipeline_refs getter p)) ps ∧ consistent (ps ≫= refs_of getter) ∧
  (∀ r, r ∈ ps ≫= refs_of getter → is_Ok (valueOf getter r)) ∧
  ∀ f, is_Some (data !! f) ↔ ∃ r, r ∈ ps ≫= refs_of getter ∧ pr_flat r = f.

Lemma queued_resolved getter ps pend cfg cfg' :
  queued_of getter ps pend → SecretAssets cfg = ∅ →
  resolvePendingSecrets cfg getter pend = Ok cfg' → resolved_by getter ps (SecretAssets cfg').
Proof.
  intros [Hok Hq] He (_ & _ & Hnil & Hcons)%resolvePendingSecrets_Ok. split; [done|].
  assert (Hall : consistent pend ∧ (∀ r, r ∈ pend → is_Ok (valueOf getter r)) ∧
    ∀ f, is_Some (SecretAssets cfg' !! f) ↔ ∃ r, r ∈ pend ∧ pr_flat r = f).
  { destruct (decide (pend = [])) as [->|Hne].
    - rewrite (Hnil eq_refl), He. split_and!; [by intros ?? ?%not_elem_of_nil|by intros ? ?%not_elem_of_nil|].
      intros f. rewrite lookup_empty. split; [by intros [? ?]|]. by intros (? & ?%not_elem_of_nil & _).
    - destruct (Hcons Hne) as [(Hc & Hv & Hd)%resolve_all_Ok _]. split_and!; [done| |].
      + intros r (v & ?%valueOf_resolve & _)%Hv. by exists v.
      + intros f. split; [by intros [v ?%Hd]|]. intros (r & (v & _ & ?)%Hv & <-). by exists v. }
  destruct Hall as (Hc & Hv & Hd). split_and!.
  - intros r1 r2 H1 H2. apply Hc; by apply Hq.
  - intros r Hr. by apply Hv, Hq.
  - intros f. rewrite Hd. by setoid_rewrite Hq.
Qed.

Lemma optimize_if_assets params optOut cfg : SecretAssets (optimize_if params optOut cfg) = SecretAssets cfg.
Proof.
  unfold optimize_if. destruct (OptimizeSources params); [|done].
  destruct (optimizeAgentSources cfg optOut) as [cfg'|] eqn:Hopt; [|done]. simpl. revert Hopt.
  unfold optimizeAgentSources. generalize (source_groups (cfg_pipeline cfg) optOut). intros groups.
  generalize (sort_strings (range_map 24 groups).*1). intros sigs.
  enough (Hgen : ∀ o, (∀ c, o = Some c → SecretAssets c = SecretAssets cfg) →
    fold_left (λ cfg sig, cfg ← cfg; optimize_group groups cfg sig) sigs o = Some cfg' →
    SecretAssets cfg' = SecretAssets cfg) by (apply Hgen; by intros c [= <-]).
  induction sigs as [|sig sigs IH]; intros o Ho; cbn [fold_left]; [by apply Ho|]. apply IH.
  intros c (c0 & -> & Hg)%bind_Some. rewrite <- (Ho c0 eq_refl). unfold optimize_group in Hg.
  case_bool_decide; [by injection Hg as <-|]. apply bind_Some in Hg as (gid & _ & [= <-]). done.
Qed.

Lemma agent_build_resolved params ps cfg :
  buildAgentConfig params ps = Ok cfg → resolved_by (PipelineSecretGetter params) ps (SecretAssets cfg).
Proof.
  unfold buildAgentConfig. intros (s & Hs & Hr)%bind_Ok. eapply queued_resolved; [| |exact Hr].
  - apply (agent_pipelines_queued params [] ps (agent_init params) s); [|exact Hs]. split; [constructor|done].
  - assert (Ho : SecretAssets (optimize_if params (ag_opt_out s)
      (with_pipeline (λ _, ag_config s) (newVectorConfig params))) = ∅) by (by rewrite optimize_if_assets).
    by destruct (is_empty_config _).
Qed.
End agent_refs.

(** ** The aggregator *)

Section aggregator_refs.
Context `{GoRuntime, Libraries}.

(** The build replaces the options of a [kubernetes_events] source, so that it does
    not queue the references in them. *)
Definition events_plain (p : Pipeline) : Prop :=
  ∀ pc k s, UnmarshalJson (GetSpec p) = Ok pc → Sources pc !! k = Some s → src_type s = kubernetesEventsType →
  options_refs (src_options s) = [].

Lemma listen_no_refs port : options_refs [("address", VStr (join_v4 port))] = [].
Proof.
  change (string_refs (join_v4 port) ++ [] = []). rewrite no_bracket_no_refs; [done|].
  unfold join_v4. by rewrite count_byte_app, itoa_no_bracket.
Qed.

Lemma aggregator_source_refs params p s k v s' k' v' :
  (src_type v = kubernetesEventsType → options_refs (src_options v) = []) →
  aggregator_source params p s (k, v) = Ok (s', (k', v')) →
  options_refs (src_options v') = options_refs (src_options v).
Proof.
  intros Hev. unfold aggregator_source. case_bool_decide as Ht.
  - destruct (ss_events_exists s); [done|]. intros (i & _ & [= _ _ <-])%bind_Ok. rewrite Hev by done. apply listen_no_refs.
  - by intros (i & _ & [= _ _ <-])%bind_Ok.
Qed.

Lemma aggregator_sources_refs params p s l s' out :
  (∀ k v, (k, v) ∈ l → src_type v = kubernetesEventsType → options_refs (src_options v) = []) →
  aggregator_sources params p s l = Ok (s', out) →
  (λ kv, options_refs (src_options kv.2)) <$> out = (λ kv, options_refs (src_options kv.2)) <$> l.
Proof.
  revert s out. induction l as [|[k v] l IH]; intros s out Hl; cbn [aggregator_sources]; [by intros [= _ <-]|].
  intros ([s1 [k' v']] & Hs & ([s2 rest] & Hr & [= <- <-])%bind_Ok)%bind_Ok. rewrite !fmap_cons. f_equal.
  - eapply aggregator_source_refs; [|exact Hs]. apply (Hl k). by left.
  - eapply IH; [|exact Hr]. intros k1 v1 ?. apply (Hl k1). by right.
Qed.

Lemma bind_refs {A} (opts : A → list (string * value)) (l : list (string * A)) :
  (opts <$> l.*2) ≫= options_refs = mjoin ((λ kv, options_refs (opts kv.2)) <$> l).
Proof. induction l as [|kv l IH]; [done|]. simpl. f_equal. exact IH. Qed.

Lemma aggregator_pipelines_queued params ps0 ps s s' :
  Forall events_plain ps →
  queued_of (PipelineSecretGetter params) ps0 (gg_pending s) →
  foldM (aggregator_pipeline params) s ps = Ok s' →
  queued_of (PipelineSecretGetter params) (ps0 ++ ps) (gg_pending s').
Proof.
  intros Hps. revert ps0 s. induction Hps as [|p ps Hp Hps IH]; intros ps0 s Hq; cbn [foldM].
  - intros [= <-]. by rewrite app_nil_r.
  - intros (s1 & Hs1 & Hf)%bind_Ok. rewrite cons_middle, (assoc_L (++)). eapply IH; [|exact Hf].
    unfold aggregator_pipeline in Hs1. destruct (UnmarshalJson (GetSpec p)) as [pc|e] eqn:Hu; [|done].
    apply bind_Ok in Hs1 as ([ss out] & Hss & ([cfg pend] & Hm & [= <-])%bind_Ok). simpl.
    apply (merge_refs p pc) in Hm as (Hok & refs & -> & Hr); [by apply queued_snoc|exact Hu|].
    apply aggregator_sources_refs in Hss; [|intros k v Hkv%range_map_lookup; by eapply Hp].
    intros r. unfold comps_of. rewrite !bind_app, !elem_of_app.
    assert (Hsrc : (src_options <$> out.*2) ≫= options_refs =
      (src_options <$> (range_map 28 (Sources pc)).*2) ≫= options_refs) by (rewrite !bind_refs; by rewrite Hss).
    rewrite Hsrc.
    rewrite (same_options _ _ (λ o, renamed_options p (Transforms pc) 29 (9~1) o) r).
    rewrite (same_options _ _ (λ o, renamed_options p (Sinks pc) 30 (9~0~1) o) r).
    rewrite !list_elem_of_bind. by setoid_rewrite (elem_of_components src_options _ (Sources pc)).
Qed.

(** Ports are all a build adds to the internal part. *)
Lemma addServicePort_assets port i i' : addServicePort port i = Ok i' → secretAssets i' = secretAssets i.
Proof. unfold addServicePort. destruct (servicePort i !! _); [done|]. by intros [= <-]. Qed.

Lemma aggregator_sources_assets params p s l s' out :
  aggregator_sources params p s l = Ok (s', out) → secretAssets (ss_internal s') = secretAssets (ss_internal s).
Proof.
  revert s out. induction l as [|[k v] l IH]; intros s out; cbn [aggregator_sources]; [by intros [= <- _]|].
  intros ([s1 src] & Hs & ([s2 rest] & Hr & [= <- _])%bind_Ok)%bind_Ok. rewrite (IH _ _ Hr). unfold aggregator_source in Hs.
  case_bool_decide.
  - destruct (ss_events_exists s); [done|]. apply bind_Ok in Hs as (i & Hi & [= <- _]). by eapply addServicePort_assets.
  - apply bind_Ok in Hs as (i & Hi & [= <- _]). simpl. unfold address_port in Hi.
    repeat (case_match; simplify_eq; try done). by eapply addServicePort_assets.
Qed.

Lemma aggregator_pipelines_assets params ps s :
  foldM (aggregator_pipeline params) (aggregator_init params) ps = Ok s → secretAssets (gg_internal s) = ∅.
Proof.
  intros Hs. eapply (foldM_inv _ (λ s, secretAssets (gg_internal s) = ∅) ps (aggregator_init params)); [|done|exact Hs].
  intros s1 p s2 _ He. unfold aggregator_pipeline. destruct (UnmarshalJson _) as [pc|e]; [|done].
  intros ([ss l] & Hss%aggregator_sources_assets & ([cfg1 pend] & _ & [= <-])%bind_Ok)%bind_Ok. simpl in *. by rewrite Hss.
Qed.

Lemma aggregator_build_resolved params ps cfg :
  Forall events_plain ps →
  BuildAggregatorConfig params ps = Ok cfg → resolved_by (PipelineSecretGetter params) ps (SecretAssets cfg).
Proof.
  intros Hps. unfold BuildAggregatorConfig. intros (s & Hs & (cfg0 & Hc & Hr)%bind_Ok)%bind_Ok.
  eapply queued_resolved; [| |exact Hr].
  - apply (aggregator_pipelines_queued params [] ps (aggregator_init params) s); [done| |exact Hs].
    split; [constructor|done].
  - apply aggregator_pipelines_assets in Hs. revert Hc. case_match; [|by intros [= <-]].
    intros (i & Hi%addServicePort_assets & [= <-])%bind_Ok. unfold SecretAssets. simpl. by rewrite Hi.
Qed.
End aggregator_refs.


(** ** The second pass *)

Section second_pass.
Context `{GoRuntime, Libraries}.
Context (getter : SecretGetter) (proto : option Secret).

(** A pass over the rest, with the same knowledge of it, does the same steps. *)
Lemma pass_again byID1 byPipeline1 byID2 byPipeline2 ids data w0 data' w :
  NoDup ids →
  (∀ id, id ∈ ids → id ∉ waiting_ids w0 ∧ ∃ p, byID1 !! id = Some p ∧ pipelineID p = id) →
  (∀ id, id ∈ ids → id ∉ waiting_ids w → default [] (byPipeline2 !! id) = default [] (byPipeline1 !! id)) →
  foldM (bridge_spec_step getter proto byID1 byPipeline1) (data, w0) ids = Ok (data', w) →
  foldM (bridge_spec_step getter proto byID2 byPipeline2) (data, []) (staged_ids w ids) = Ok (data', []).
Proof.
  revert data w0. induction ids as [|id ids IH]; intros data w0 Hnd Hids Hby; cbn [foldM].
  - by intros [= <- <-].
  - intros ([data1 w1] & Hs & Hf)%bind_Ok. apply NoDup_cons in Hnd as [Hni Hnd].
    destruct (Hids id) as (Hw0 & p & Hp & Hid); [by left|].
    assert (Hlast : ∃ w2, w = w1 ++ w2 ∧ ∀ p, p ∈ w2 → pipelineID p ∈ ids).
    { eapply bridge_pass_app; [|exact Hf]. intros q Hq. apply Hids. by right. }
    destruct Hlast as (w2 & Hw & Hw2).
    assert (Hnw2 : id ∉ waiting_ids w2) by (intros (q & -> & ?%Hw2)%list_elem_of_fmap; done).
    unfold bridge_spec_step in Hs. apply bind_Ok in Hs as (t & Ht & Hs). rewrite Hp in Hs.
    unfold staged_ids. destruct (fits proto (t ∪ data)) eqn:Hfit; injection Hs as <- <-.
    + assert (Hnw : id ∉ waiting_ids w) by (rewrite Hw; unfold waiting_ids; rewrite fmap_app; set_solver).
      rewrite filter_cons_True by done. cbn [foldM]. unfold bridge_spec_step at 2.
      rewrite (Hby id) by (done || by left). rewrite Ht. simpl. rewrite Hfit. simpl.
      apply (IH _ w0); [done| | |done].
      * intros q Hq. apply Hids. by right.
      * intros q Hq. apply Hby. by right.
    + assert (Hiw : id ∈ waiting_ids w)
        by (rewrite Hw; unfold waiting_ids; rewrite !fmap_app; simpl; rewrite Hid; set_solver).
      rewrite filter_cons_False by tauto. apply (IH _ (w0 ++ [p])); [done| | |done].
      * intros q Hq. split; [|apply Hids; by right]. unfold waiting_ids. rewrite fmap_app. simpl. rewrite Hid.
        destruct (Hids q) as [? _]; [by right|]. assert (q ≠ id) by (intros ->; done). set_solver.
      * intros q Hq. apply Hby. by right.
Qed.

Lemma sorted_filter {A} (R : A → A → Prop) (P : A → Prop) `{∀ x, Decision (P x)} l :
  StronglySorted R l → StronglySorted R (filter P l).
Proof.
  induction 1 as [|x l Hl IH Hx]; [constructor|]. rewrite filter_cons. case_decide; [|done].
  constructor; [done|]. rewrite Forall_forall in Hx |- *. intros y [_ Hy]%list_elem_of_filter. by apply Hx.
Qed.

Lemma sorted_ext {A} (R1 R2 : A → A → Prop) l :
  (∀ x y, x ∈ l → y ∈ l → R1 x y → R2 x y) → StronglySorted R1 l → StronglySorted R2 l.
Proof.
  intros HR. induction 1 as [|x l Hl IH Hx]; [constructor|].
  constructor; [apply IH; intros; apply HR; [by right..|done]|]. rewrite Forall_forall in Hx |- *.
  intros y Hy. apply HR; [by left|by right|auto].
Qed.

(** The order of the rest is the rest of the order. *)
Lemma gathered_rest final rest byID1 byP1 ids1 byID2 byP2 ids2 (P : string → Prop) `{∀ id, Decision (P id)} :
  Gathered getter final byID1 byP1 ids1 → Gathered getter rest byID2 byP2 ids2 →
  (∀ p, p ∈ rest ↔ p ∈ final ∧ P (pipelineID p)) →
  ids2 = filter P ids1.
Proof.
  intros Hg1 Hg2 Hrest.
  assert (Hmem : ∀ id, id ∈ ids2 ↔ id ∈ filter P ids1).
  { intros id. rewrite list_elem_of_filter, (gathered_ids _ _ _ _ _ Hg1), (gathered_ids _ _ _ _ _ Hg2).
    setoid_rewrite Hrest. naive_solver. }
  assert (Hcr : ∀ id, id ∈ ids2 → creation_of byID2 id = creation_of byID1 id).
  { intros id (p & Hp & <- & _)%(gathered_ids _ _ _ _ _ Hg2).
    by rewrite (gathered_creation _ _ _ _ _ Hg2), (gathered_creation _ _ _ _ _ Hg1) by naive_solver. }
  apply (StronglySorted_unique_strong (λ i j, older_id byID2 j i = false)).
  - intros i j _ _ Hij Hji. by apply (older_id_anti byID2).
  - apply Hg2.
  - eapply sorted_ext; [|apply sorted_filter, Hg1]. intros i j Hi%Hmem Hj%Hmem. unfold older_id.
    by rewrite !Hcr.
  - apply NoDup_Permutation; [apply Hg2|apply NoDup_filter, Hg1|done].
Qed.

Lemma bridge_again existing final data w :
  NoDup (pipelineID <$> final) →
  BridgeAssets getter proto existing final = Ok (data, w) →
  BridgeAssets getter proto existing (not_waiting w final) = Ok (data, []).
Proof.
  intros Hnd. rewrite !BridgeAssets_spec_eq. unfold BridgeAssets_spec. case_bool_decide as Hf.
  { intros [= <- <-]. by rewrite Hf. }
  intros ([[byID1 byP1] ids1] & Hg1 & Hf1)%bind_Ok.
  assert (Hall : Forall (λ p, is_Ok (pipeline_refs getter p)) final) by (apply gather_is_Ok; by eexists).
  apply gather_Gathered in Hg1 as Hg; [|done].
  assert (Hrest : ∀ p, p ∈ not_waiting w final ↔ p ∈ final ∧ pipelineID p ∉ waiting_ids w)
    by (intros p; unfold not_waiting; rewrite list_elem_of_filter; naive_solver).
  assert (Hnd2 : NoDup (pipelineID <$> not_waiting w final))
    by (eapply sublist_NoDup; [exact Hnd|]; apply fmap_sublist, sublist_filter).
  destruct (proj2 (gather_is_Ok getter (not_waiting w final))) as [[[byID2 byP2] ids2] Hg2].
  { rewrite Forall_forall in Hall |- *. intros p [Hp _]%Hrest. auto. }
  apply gather_Gathered in Hg2 as Hg'; [|done].
  assert (Hag : foldM (bridge_spec_step getter proto byID2 byP2) (existing, []) ids2 = Ok (data, [])).
  { rewrite (gathered_rest _ _ _ _ _ _ _ _ (λ id, id ∉ waiting_ids w) Hg Hg' Hrest).
    apply (pass_again byID1 byP1 byID2 byP2 ids1 existing [] data w); [apply Hg| | |done].
    - intros id (p & Hp & Hid & _)%(gathered_ids _ _ _ _ _ Hg). split; [set_solver|]. exists p.
      split; [|done]. by apply (gathered_byID _ _ _ _ _ Hg).
    - intros id (p & Hp & <- & _)%(gathered_ids _ _ _ _ _ Hg) Hnw.
      by rewrite (gathered_byPipeline _ _ _ _ _ Hg), (gathered_byPipeline _ _ _ _ _ Hg') by naive_solver. }
  rewrite Hg2. case_bool_decide as Hn; [|exact Hag].
  assert (ids2 = []) as ->; [|by injection Hag as ->].
  destruct ids2 as [|id ids2]; [done|]. exfalso.
  destruct (proj1 (gathered_ids _ _ _ _ _ Hg' id)) as (p & Hp & _); [by left|]. rewrite Hn in Hp. set_solver.
Qed.

Lemma bridge_waits_among existing final data w :
  NoDup (pipelineID <$> final) →
  BridgeAssets getter proto existing final = Ok (data, w) → ∀ p, p ∈ w → p ∈ final.
Proof.
  intros Hnd. rewrite BridgeAssets_spec_eq. unfold BridgeAssets_spec. case_bool_decide.
  { intros [= <- <-] p. set_solver. }
  intros ([[byID byP] ids] & Hg%gather_Gathered & Hf)%bind_Ok; [|done].
  change (∀ p, p ∈ (data, w).2 → p ∈ final).
  eapply (foldM_inv _ (λ s : gmap string string * list Pipeline, ∀ p, p ∈ s.2 → p ∈ final) ids (existing, []));
    [|by intros p ?%not_elem_of_nil|exact Hf].
  intros [d1 w1] id [d2 w2] _ Hw1 (t & _ & Hs)%bind_Ok. simpl in *. destruct (fits _ _); injection Hs as <- <-; [done|].
  intros p [?|Hp]%elem_of_app; [auto|]. destruct (byID !! id) as [q|] eqn:Hq; [|set_solver].
  apply list_elem_of_singleton in Hp as ->. by apply (gathered_byID _ _ _ _ _ Hg) in Hq as [? _].
Qed.

Lemma not_waiting_keys final w :
  NoDup (pipelineID <$> final) → (∀ p, p ∈ w → p ∈ final) →
  filter (λ p, ObjectKey p ∉ (∅ ∪ list_to_set (ObjectKey <$> w) : gset NamespacedName)) final = not_waiting w final.
Proof.
  intros Hnd Hw. apply list_filter_ext_elem. intros p Hp. rewrite (left_id_L ∅ (∪)), elem_of_list_to_set.
  rewrite !list_elem_of_fmap. split; intros Hn (q & Hq & Hin); apply Hn; exists q; (split; [|done]).
  - f_equal. apply (NoDup_fmap_elem_inj pipelineID final); auto.
  - by apply ObjectKey_ID.
Qed.

(** Over one variant the staged data hold what was there and the key of every value
    the build of the published pipelines resolved. *)
Lemma single_variant_published existing final datas bridge wait assets :
  NoDup (pipelineID <$> final) →
  planSecretAssetsBridge getter proto final [existing] = Ok (datas, bridge, wait) →
  resolved_by getter bridge assets →
  ∃ data, datas = [data] ∧ dom existing ⊆ dom data ∧ dom assets ⊆ dom data.
Proof.
  intros Hnd Hplan (Hok & Hc & Hval & Hkeys). unfold planSecretAssetsBridge, bridge_waiting in Hplan.
  cbn [foldM mapM] in Hplan. destruct (BridgeAssets getter proto existing final) as [[d1 w1]|e] eqn:Hb.
  - cbn in Hplan. rewrite not_waiting_keys in Hplan by (done || by eapply bridge_waits_among).
    rewrite (bridge_again _ _ _ _ Hnd Hb) in Hplan. injection Hplan as <- <- <-. exists d1. split; [done|].
    assert (Hnd2 : NoDup (pipelineID <$> not_waiting w1 final))
      by (eapply sublist_NoDup; [exact Hnd|]; apply fmap_sublist, sublist_filter).
    pose proof (BridgeAssets_report getter proto _ _ Hnd2 Hc _ _ (bridge_again _ _ _ _ Hnd Hb)) as Hr. split.
    + destruct (br_data _ _ _ _ _ _ Hr) as (d & _ & ->). rewrite dom_union_L. set_solver.
    + intros f [r [(p & Hr' & Hp)%list_elem_of_bind <-]]%elem_of_dom%Hkeys.
      destruct (br_staged _ _ _ _ _ _ Hr p r) as (v & _ & Hv); [|done|by apply elem_of_dom].
      unfold not_waiting at 1. rewrite list_elem_of_filter. split; [|done]. apply not_elem_of_nil.
  - cbn in Hplan. destruct (errors_as is_size_data_error e); [|done]. injection Hplan as <- <- <-. exfalso.
    destruct (bridge_total getter proto final existing Hnd Hok Hval) as [x Hx]. congruence.
Qed.
End second_pass.
