(* ===== verification/Workload.v ===== *)
(** * Workload specifications

    [src/api/v1alpha1/vector_common_types.go]: what agents and aggregators share, and
    the labels of [src/internal/utils/k8s/label.go] and annotations of
    [src/internal/common] the operator sets. Fields the operator only copies are their
    text. *)

From S2P Require Export WorkloadPlan.

(** ** [vector_common_types.go] *)

Record ApiParams := { api_on : bool; api_play : bool; api_healthcheck : bool }.

(** [ConfigCheck] *)
Record ConfigCheckSpec := {
  cc_disabled : bool;
  cc_image : option string;
  cc_resources : option Resources;
  cc_affinity : option string;
  cc_tolerations : option string;
  cc_annotations : gmap string string;
  cc_labels : gmap string string
}.

Record VectorCommon := {
  vc_image : string;
  vc_image_pull_secrets : string;
  vc_image_pull_policy : string;
  vc_annotations : option (gmap string string);
  vc_labels : gmap string string;
  vc_resources : Resources;
  vc_affinity : string;
  vc_tolerations : string;
  vc_security_context : string;
  vc_container_security_context : string;
  vc_scheduler_name : string;
  vc_runtime_class_name : string;
  vc_host_aliases : string;
  vc_priority_class_name : string;
  vc_host_network : string;
  vc_env : list EnvVar;
  vc_env_from : list string;
  vc_data_dir : string;
  vc_expire_metrics_secs : option Z;
  vc_api : ApiParams;
  vc_internal_metrics : bool;
  vc_scrape_interval : string;
  vc_scrape_timeout : string;
  vc_volumes : option (list Volume);
  vc_readiness_probe : option string;
  vc_liveness_probe : option string;
  vc_mounts : option (list VolumeMount);
  vc_config_check : ConfigCheckSpec;
  vc_compress : bool;
  vc_reloader_image : string;
  vc_reloader_resources : Resources
}.

Definition no_resources : Resources := {| res_requests := None; res_limits := None |}.

(** The zero value of the struct. *)
Definition zero_common : VectorCommon := {|
  vc_image := ""; vc_image_pull_secrets := ""; vc_image_pull_policy := ""; vc_annotations := None;
  vc_labels := ∅; vc_resources := no_resources; vc_affinity := ""; vc_tolerations := "";
  vc_security_context := ""; vc_container_security_context := ""; vc_scheduler_name := "";
  vc_runtime_class_name := ""; vc_host_aliases := ""; vc_priority_class_name := ""; vc_host_network := "false";
  vc_env := []; vc_env_from := []; vc_data_dir := ""; vc_expire_metrics_secs := None;
  vc_api := {| api_on := false; api_play := false; api_healthcheck := false |};
  vc_internal_metrics := false; vc_scrape_interval := ""; vc_scrape_timeout := ""; vc_volumes := None;
  vc_readiness_probe := None; vc_liveness_probe := None; vc_mounts := None;
  vc_config_check := {| cc_disabled := false; cc_image := None; cc_resources := None; cc_affinity := None;
                        cc_tolerations := None; cc_annotations := ∅; cc_labels := ∅ |};
  vc_compress := false; vc_reloader_image := ""; vc_reloader_resources := no_resources |}.

Definition with_annotations (a : option (gmap string string)) (c : VectorCommon) : VectorCommon := {|
  vc_image := vc_image c; vc_image_pull_secrets := vc_image_pull_secrets c;
  vc_image_pull_policy := vc_image_pull_policy c; vc_annotations := a; vc_labels := vc_labels c;
  vc_resources := vc_resources c; vc_affinity := vc_affinity c; vc_tolerations := vc_tolerations c;
  vc_security_context := vc_security_context c;
  vc_container_security_context := vc_container_security_context c;
  vc_scheduler_name := vc_scheduler_name c; vc_runtime_class_name := vc_runtime_class_name c;
  vc_host_aliases := vc_host_aliases c; vc_priority_class_name := vc_priority_class_name c;
  vc_host_network := vc_host_network c; vc_env := vc_env c; vc_env_from := vc_env_from c;
  vc_data_dir := vc_data_dir c; vc_expire_metrics_secs := vc_expire_metrics_secs c; vc_api := vc_api c;
  vc_internal_metrics := vc_internal_metrics c; vc_scrape_interval := vc_scrape_interval c;
  vc_scrape_timeout := vc_scrape_timeout c; vc_volumes := vc_volumes c;
  vc_readiness_probe := vc_readiness_probe c; vc_liveness_probe := vc_liveness_probe c;
  vc_mounts := vc_mounts c; vc_config_check := vc_config_check c; vc_compress := vc_compress c;
  vc_reloader_image := vc_reloader_image c; vc_reloader_resources := vc_reloader_resources c |}.

(** ** Labels and annotations *)

Definition ManagedByLabelKey : string := "app.kubernetes.io/managed-by".
Definition ComponentLabelKey : string := "app.kubernetes.io/component".
Definition NameLabelKey : string := "app.kubernetes.io/name".
Definition InstanceLabelKey : string := "app.kubernetes.io/instance".
Definition VectorExcludeLabel : string := "vector.dev/exclude".

Definition AnnotationRestartedAt : string := "vector-operator.kaasops.io/restartedAt".
Definition AnnotationForceConfigCheck : string := "vector-operator.kaasops.io/force-configcheck".

(** ** Volumes and mounts of a pod

    Required ones are added unless the user has one of the same name. *)
Definition add_required {A} (name : A → string) (user required : list A) : list A :=
  user ++ filter (λ r, name r ∉ name <$> user) required.

Definition host_path (name path : string) : Volume := {| vol_name := name; vol_source := VHostPath path |}.
Definition secret_volume (name secret : string) : Volume := {| vol_name := name; vol_source := VSecret secret |}.
Definition mount (name path : string) : VolumeMount :=
  {| vm_name := name; vm_mount_path := path; vm_read_only := false |}.

(** The variables every Vector pod gets. *)
Definition self_envs : list EnvVar :=
  [{| env_name := "VECTOR_SELF_NODE_NAME"; env_from := EnvField "spec.nodeName" |};
   {| env_name := "VECTOR_SELF_POD_NAME"; env_from := EnvField "metadata.name" |};
   {| env_name := "VECTOR_SELF_POD_NAMESPACE"; env_from := EnvField "metadata.namespace" |};
   {| env_name := "PROCFS_ROOT"; env_from := EnvValue "/host/proc" |};
   {| env_name := "SYSFS_ROOT"; env_from := EnvValue "/host/sys" |}].

(** The containers that unpack a compressed configuration. *)
Definition reloader_container (image policy security_context : string) (resources : Resources)
    (name init_mode : string) : Container :=
  {| cont_name := name; cont_image := image;
     cont_args := [init_mode; "--volume-dir-archive=/tmp/archive"; "--dir-for-unarchive=/etc/vector"];
     cont_env := []; cont_env_from := []; cont_ports := [];
     cont_mounts := [mount "config" "/etc/vector"; mount "app-config-compress" "/tmp/archive"];
     cont_resources := resources;
     cont_settings := [("securityContext", security_context); ("imagePullPolicy", policy)] |}.
