(* ===== verification/AgentPod.v ===== *)
(** * What the agent's objects are

    [src/internal/vector/vectoragent]: the controller's state ([vectoragent.go]), its
    defaults ([vectoragent_default.go]) and the builders of the DaemonSet, the
    configuration and assets Secrets, the RBAC objects, the Service and the PodMonitor.
    The names of the Secrets depend on the mode of checkpoint migration. *)

From S2P Require Export Workload.

(** [v1alpha1.Vector] *)
Record Vector := {
  v_namespace : string;
  v_name : string;
  v_uid : string;
  v_kind : string;
  v_api_version : string;
  v_annotations : gmap string string;
  v_deleted : bool;
  v_agent : option VectorCommon;
  v_use_apiserver_cache : bool;
  v_selector : option (gmap string string);
  v_status : WorkloadStatus
}.

(** [vectoragent.Controller]; [ct_reader] says whether [APIReader] is set. *)
Record Controller := {
  ct_vector : Vector;
  ct_reader : bool;
  ct_byte_config : string;
  ct_config : VectorConfig;
  ct_migration : bool;
  ct_merger_image : string;
  ct_optimize : bool;
  ct_alt_byte_config : option string;
  ct_assets : gmap string string;
  ct_alt_assets : option (gmap string string)
}.

Definition with_agent (a : option VectorCommon) (v : Vector) : Vector := {|
  v_namespace := v_namespace v; v_name := v_name v; v_uid := v_uid v; v_kind := v_kind v;
  v_api_version := v_api_version v; v_annotations := v_annotations v; v_deleted := v_deleted v;
  v_agent := a; v_use_apiserver_cache := v_use_apiserver_cache v; v_selector := v_selector v;
  v_status := v_status v |}.
Definition with_v_status (s : WorkloadStatus) (v : Vector) : Vector := {|
  v_namespace := v_namespace v; v_name := v_name v; v_uid := v_uid v; v_kind := v_kind v;
  v_api_version := v_api_version v; v_annotations := v_annotations v; v_deleted := v_deleted v;
  v_agent := v_agent v; v_use_apiserver_cache := v_use_apiserver_cache v; v_selector := v_selector v;
  v_status := s |}.
Definition with_vector (v : Vector) (c : Controller) : Controller := {|
  ct_vector := v; ct_reader := ct_reader c; ct_byte_config := ct_byte_config c; ct_config := ct_config c;
  ct_migration := ct_migration c; ct_merger_image := ct_merger_image c; ct_optimize := ct_optimize c;
  ct_alt_byte_config := ct_alt_byte_config c; ct_assets := ct_assets c; ct_alt_assets := ct_alt_assets c |}.

(** ** Defaults *)

Definition health_probe : string :=
  "httpGet: {path: /health, port: 8686}, periodSeconds: 20, initialDelaySeconds: 15, timeoutSeconds: 3".
Definition default_requests : string := "memory: 200Mi, cpu: 100m".
Definition default_limits : string := "memory: 1024Mi, cpu: 1000m".

Definition default_str (d s : string) : string := if bool_decide (s = "") then d else s.
Definition or_default {A} (d : A) (o : option A) : option A := match o with Some a => Some a | None => Some d end.

(** The probe of an API that is enabled and checks its health. *)
Definition default_probe (c : VectorCommon) (probe : option string) : option string :=
  match probe with
  | Some p => Some p
  | None => if api_on (vc_api c) && api_healthcheck (vc_api c) then Some health_probe else None
  end.

Definition default_agent (c : VectorCommon) : VectorCommon := {|
  vc_image := default_str "timberio/vector:0.48.0-distroless-libc" (vc_image c);
  vc_image_pull_secrets := vc_image_pull_secrets c;
  vc_image_pull_policy := vc_image_pull_policy c; vc_annotations := vc_annotations c; vc_labels := vc_labels c;
  vc_resources := {| res_requests := or_default default_requests (res_requests (vc_resources c));
                     res_limits := or_default default_limits (res_limits (vc_resources c)) |};
  vc_affinity := vc_affinity c; vc_tolerations := vc_tolerations c;
  vc_security_context := vc_security_context c;
  vc_container_security_context := vc_container_security_context c;
  vc_scheduler_name := vc_scheduler_name c; vc_runtime_class_name := vc_runtime_class_name c;
  vc_host_aliases := vc_host_aliases c; vc_priority_class_name := vc_priority_class_name c;
  vc_host_network := vc_host_network c; vc_env := vc_env c; vc_env_from := vc_env_from c;
  vc_data_dir := default_str "/var/lib/vector" (vc_data_dir c);
  vc_expire_metrics_secs := vc_expire_metrics_secs c; vc_api := vc_api c;
  vc_internal_metrics := vc_internal_metrics c; vc_scrape_interval := vc_scrape_interval c;
  vc_scrape_timeout := vc_scrape_timeout c;
  vc_volumes := or_default [host_path "var-log" "/var/log/"; host_path "journal" "/var/log/journal";
                            host_path "var-lib" "/var/lib/"] (vc_volumes c);
  vc_readiness_probe := default_probe c (vc_readiness_probe c);
  vc_liveness_probe := default_probe c (vc_liveness_probe c);
  vc_mounts := or_default [mount "var-log" "/var/log/"; mount "journal" "/run/log/journal";
                           mount "var-lib" "/var/lib/"] (vc_mounts c);
  vc_config_check := vc_config_check c; vc_compress := vc_compress c;
  vc_reloader_image := if vc_compress c then default_str "docker.io/kaasops/config-reloader:v0.1.4" (vc_reloader_image c)
                       else vc_reloader_image c;
  vc_reloader_resources :=
    if vc_compress c then {| res_requests := or_default default_requests (res_requests (vc_reloader_resources c));
                             res_limits := or_default default_limits (res_limits (vc_reloader_resources c)) |}
    else vc_reloader_resources c |}.

(** [SetDefault] *)
Definition SetDefault (v : Vector) : Vector :=
  with_agent (Some (default_agent (default zero_common (v_agent v)))) v.

(** A configuration that is not built yet. *)
Definition zero_config : VectorConfig := {|
  DataDir := ""; ExpireMetricsSecs := None;
  Api := {| api_address := ""; api_enabled := false; api_playground := false |};
  cfg_pipeline := {| Sources := ∅; Transforms := ∅; Sinks := ∅ |}; cfg_secret := None;
  internal := {| servicePort := ∅; optimizedSources := 0; sourceGroups := 0; secretAssets := ∅ |} |}.

Definition NewController (v : Vector) : Controller := {|
  ct_vector := SetDefault v; ct_reader := false; ct_byte_config := ""; ct_config := zero_config;
  ct_migration := false; ct_merger_image := ""; ct_optimize := false; ct_alt_byte_config := None;
  ct_assets := ∅; ct_alt_assets := None |}.

(** ** Names, labels, metadata *)

Section builders.
Context `{GoRuntime}.
Context (Version : string).    (** [buildinfo.Version], set by the linker *)

Definition agent (c : Controller) : VectorCommon := default zero_common (v_agent (ct_vector c)).

Definition getNameVectorAgent (c : Controller) : string := v_name (ct_vector c) +:+ "-agent".

Definition getConfigSecretName (c : Controller) : string :=
  if ct_migration c && ct_optimize c then getNameVectorAgent c +:+ "-opt" else getNameVectorAgent c.
Definition getAltConfigSecretName (c : Controller) : string :=
  if ct_migration c && ct_optimize c then getNameVectorAgent c else getNameVectorAgent c +:+ "-opt".
Definition assets_name (config_name : string) : string := config_name +:+ "-secret-assets".
Definition getSecretAssetsName (c : Controller) : string := assets_name (getConfigSecretName c).

Definition matchLabelsForVectorAgent (c : Controller) : gmap string string :=
  {[ManagedByLabelKey := "vector-operator"; NameLabelKey := "vector"; ComponentLabelKey := "Agent";
    InstanceLabelKey := v_name (ct_vector c)]}.
Definition labelsForVectorAgent (c : Controller) : gmap string string :=
  MergeLabels (matchLabelsForVectorAgent c) (vc_labels (agent c)).
Definition annotationsForVectorAgent (c : Controller) : gmap string string :=
  default ∅ (vc_annotations (agent c)).

(** The owner reference of a workload resource. *)
Definition controller_reference (api_version kind name uid : string) : list string :=
  ["apiVersion: " +:+ api_version +:+ ", kind: " +:+ kind +:+ ", name: " +:+ name +:+ ", uid: " +:+ uid +:+
   ", blockOwnerDeletion: true, controller: true"].
Definition getControllerReference (c : Controller) : list string :=
  let v := ct_vector c in controller_reference (v_api_version v) (v_kind v) (v_name v) (v_uid v).

Definition objectMetaVectorAgent (c : Controller) (labels annotations : gmap string string) (namespace : string)
    : ObjectMeta :=
  {| om_namespace := namespace; om_name := v_name (ct_vector c) +:+ "-agent"; om_labels := labels;
     om_annotations := annotations; om_owners := getControllerReference c; om_created := false |}.

Definition agent_meta (c : Controller) (namespace : string) : ObjectMeta :=
  objectMetaVectorAgent c (labelsForVectorAgent c) (annotationsForVectorAgent c) namespace.

Definition with_name (n : string) (m : ObjectMeta) : ObjectMeta :=
  {| om_namespace := om_namespace m; om_name := n; om_labels := om_labels m;
     om_annotations := om_annotations m; om_owners := om_owners m; om_created := om_created m |}.

(** ** Secrets *)

(** The bytes stored for a configuration. *)
Definition stored_config (c : Controller) (data : string) : string :=
  if vc_compress (agent c) then gzip data else data.

Definition createVectorAgentConfig (c : Controller) (name data : string) : Object :=
  {| o_meta := with_name name (agent_meta c (v_namespace (ct_vector c)));
     o_body := BSecret {["agent.json" := stored_config c data]} |}.

Definition createSecretAssetsSecret (c : Controller) (name : string) : Object :=
  {| o_meta := with_name name (agent_meta c (v_namespace (ct_vector c))); o_body := BSecret (ct_assets c) |}.

(** The Secret object itself, without data. *)
Definition SecretAssetsPrototype (c : Controller) : Secret :=
  let m := with_name (getSecretAssetsName c) (agent_meta c (v_namespace (ct_vector c))) in
  {| sec_namespace := om_namespace m; sec_name := om_name m; sec_uid := ""; sec_resource_version := "";
     sec_labels := om_labels m; sec_annotations := om_annotations m; sec_owners := om_owners m; sec_data := ∅ |}.

(** ** The DaemonSet *)

Definition generateVectorAgentVolume (c : Controller) : list Volume :=
  let a := agent c in
  let required :=
    [{| vol_name := "config";
        vol_source := if vc_compress a then VEmptyDir else VSecret (getConfigSecretName c) |};
     host_path "data" (vc_data_dir a); host_path "procfs" "/proc"; host_path "sysfs" "/sys"] ++
    (if vc_compress a then [secret_volume "app-config-compress" (getConfigSecretName c)] else []) in
  let volume := add_required vol_name (default [] (vc_volumes a)) required in
  if bool_decide (0 < size (ct_assets c))%nat
  then SetAuthoritativeVolume volume (secret_volume SecretAssetsVolumeName (getSecretAssetsName c))
  else volume.

Definition generateVectorAgentVolumeMounts (c : Controller) : list VolumeMount :=
  let a := agent c in
  let required :=
    [mount "config" "/etc/vector"; mount "data" "/vector-data-dir"; mount "procfs" "/host/proc";
     mount "sysfs" "/host/sys"] ++
    (if vc_compress a then [mount "app-config-compress" "/tmp/archive"] else []) in
  let mounts := add_required vm_name (default [] (vc_mounts a)) required in
  if bool_decide (0 < size (ct_assets c))%nat
  then SetAuthoritativeVolumeMount mounts (mount SecretAssetsVolumeName SecretsMountPath)
  else mounts.

Definition generateVectorAgentEnvs (c : Controller) : list EnvVar := vc_env (agent c) ++ self_envs.

Definition opt_setting (k : string) (v : option string) : settings :=
  match v with Some s => [(k, s)] | None => [] end.

Definition VectorAgentContainer (c : Controller) : Container :=
  let a := agent c in
  {| cont_name := getNameVectorAgent c; cont_image := vc_image a;
     cont_args := ["--config-dir"; "/etc/vector"; "--watch-config"];
     cont_env := generateVectorAgentEnvs c; cont_env_from := vc_env_from a;
     cont_ports := [{| port_name := "prom-exporter"; port_number := DefaultInternalMetricsSinkPort;
                       port_protocol := "TCP" |}];
     cont_mounts := generateVectorAgentVolumeMounts c; cont_resources := vc_resources a;
     cont_settings := opt_setting "readinessProbe" (vc_readiness_probe a) ++
                      opt_setting "livenessProbe" (vc_liveness_probe a) ++
                      [("securityContext", vc_container_security_context a);
                       ("imagePullPolicy", vc_image_pull_policy a)] |}.

Definition agent_reloader (c : Controller) (name init_mode : string) : Container :=
  let a := agent c in
  reloader_container (vc_reloader_image a) (vc_image_pull_policy a) (vc_container_security_context a)
    (vc_reloader_resources a) name init_mode.

Definition ConfigReloaderInitContainer (c : Controller) : Container :=
  agent_reloader c "init-config-reloader" "--init-mode=true".
Definition ConfigReloaderSidecarContainer (c : Controller) : Container :=
  agent_reloader c "config-reloader" "--init-mode=false".

Definition CheckpointMergerInitContainer (c : Controller) : Container :=
  let image := if bool_decide (ct_merger_image c = "") then "kaasops/checkpoint-merger:" +:+ Version
               else ct_merger_image c in
  {| cont_name := "checkpoint-merger"; cont_image := image;
     cont_args := ["-config=/etc/vector/agent.json"; "-data-dir=/vector-data-dir"];
     cont_env := []; cont_env_from := []; cont_ports := [];
     cont_mounts := [{| vm_name := "config"; vm_mount_path := "/etc/vector"; vm_read_only := true |};
                     mount "data" "/vector-data-dir"];
     cont_resources := no_resources;
     cont_settings := [("securityContext", vc_container_security_context (agent c));
                       ("imagePullPolicy", vc_image_pull_policy (agent c))] |}.

Definition pod_settings (a : VectorCommon) : settings :=
  [("securityContext", vc_security_context a); ("imagePullSecrets", vc_image_pull_secrets a);
   ("affinity", vc_affinity a); ("runtimeClassName", vc_runtime_class_name a);
   ("schedulerName", vc_scheduler_name a); ("tolerations", vc_tolerations a);
   ("priorityClassName", vc_priority_class_name a); ("hostNetwork", vc_host_network a);
   ("hostAliases", vc_host_aliases a)].

Definition agent_pod (c : Controller) : PodSpec :=
  let a := agent c in
  {| ps_volumes := generateVectorAgentVolume c;
     ps_init_containers := (if vc_compress a then [ConfigReloaderInitContainer c] else []) ++
                           (if ct_migration c then [CheckpointMergerInitContainer c] else []);
     ps_containers := [VectorAgentContainer c] ++
                      (if vc_compress a then [ConfigReloaderSidecarContainer c] else []);
     ps_settings := ("serviceAccountName", getNameVectorAgent c) :: pod_settings a |}.

(** The template's annotations are the resource's own, or those with the restart mark. *)
Definition createVectorAgentDaemonSet (c : Controller) : Object :=
  {| o_meta := agent_meta c (v_namespace (ct_vector c));
     o_body := BDaemonSet {| ds_selector := matchLabelsForVectorAgent c;
                             ds_template := {| pt_meta := agent_meta c (v_namespace (ct_vector c));
                                               pt_spec := agent_pod c |} |} |}.

(** ** RBAC, Service, PodMonitor *)

Definition createVectorAgentServiceAccount (c : Controller) : Object :=
  {| o_meta := agent_meta c (v_namespace (ct_vector c)); o_body := BServiceAccount |}.

Definition createVectorAgentClusterRole (c : Controller) : Object :=
  {| o_meta := agent_meta c "";
     o_body := BClusterRole [("apiGroups", ""); ("resources", "namespaces, nodes, pods"); ("verbs", "list, watch")] |}.

Definition createVectorAgentClusterRoleBinding (c : Controller) : Object :=
  {| o_meta := agent_meta c "";
     o_body := BClusterRoleBinding
       [("kind", "ClusterRole"); ("apiGroup", "rbac.authorization.k8s.io"); ("name", getNameVectorAgent c)]
       [("kind", "ServiceAccount"); ("name", getNameVectorAgent c); ("namespace", v_namespace (ct_vector c))] |}.

Definition selector_settings (m : gmap string string) : settings :=
  (λ kv, ("selector: " +:+ kv.1, kv.2)) <$> map_to_list m.

Definition createVectorAgentService (c : Controller) : Object :=
  {| o_meta := agent_meta c (v_namespace (ct_vector c));
     o_body := BService ([("name", "api"); ("protocol", "TCP"); ("port", itoa AgentApiPort);
                          ("targetPort", itoa AgentApiPort)] ++ selector_settings (matchLabelsForVectorAgent c)) |}.

(** An interval or timeout that is not set is left to Prometheus. *)
Definition set_setting (k v : string) : settings := if bool_decide (v = "") then [] else [(k, v)].

Definition createVectorAgentPodMonitor (c : Controller) : Object :=
  {| o_meta := agent_meta c (v_namespace (ct_vector c));
     o_body := BPodMonitor ([("path", "/metrics"); ("port", "prom-exporter")] ++
       set_setting "interval" (vc_scrape_interval (agent c)) ++
       set_setting "scrapeTimeout" (vc_scrape_timeout (agent c)) ++
       selector_settings (matchLabelsForVectorAgent c)) |}.
End builders.
