(* ===== verification/AgentController.v ===== *)
(** * Publishing an agent

    [vectoragent_controller.go] and the status writes of [vectoragent.go]: what is on
    the cluster ([ExistingSecretAssets], [publishedConfigMatches],
    [hasSecretAssetsMount]) and the writes of a round in their order
    ([EnsureVectorAgent]), with what each write changes and leaves alone. *)

From S2P Require Export AgentPod.

(** ** What a controller does to its own copy of the resource *)

Definition status (c : Controller) : WorkloadStatus := v_status (ct_vector c).
Definition set_v_status (s : WorkloadStatus) (c : Controller) : Controller :=
  with_vector (with_v_status s (ct_vector c)) c.

Definition with_published_at (t : option Z) (s : WorkloadStatus) : WorkloadStatus :=
  {| ws_config_check_result := ws_config_check_result s; ws_reason := ws_reason s;
     ws_last_applied_config_hash := ws_last_applied_config_hash s;
     ws_last_applied_global_hash := ws_last_applied_global_hash s; ws_last_config_published_at := t |}.

(** [metav1.Time] is written to the second. *)
Definition metav1_time (t : Z) : Z := t / second * second.

Section operations.
Context `{GoRuntime, KubeApi}.
Context (Version : string).

(** ** Status ([vectoragent.go]) *)

Definition StampConfigPublishing (c : Controller) : K Controller :=
  now ← k_now;
  let stamped := with_published_at (Some (metav1_time now)) (status c) in
  _ ← PatchWorkloadStatus stamped (status c);
  mret (set_v_status stamped c).

(** The patch of a round that published: its base carries a reason, so that the patch
    clears the one the server has. *)
Definition success_patch (s : WorkloadStatus) (cfgHash globCfgHash : Z) (configPublished : bool) : K unit :=
  let base := {| ws_config_check_result := ws_config_check_result s; ws_reason := Some "";
                 ws_last_applied_config_hash := ws_last_applied_config_hash s;
                 ws_last_applied_global_hash := ws_last_applied_global_hash s;
                 ws_last_config_published_at := ws_last_config_published_at s |} in
  publishedAt ←
    (if configPublished || bool_decide (ws_last_config_published_at s = None)
     then now ← k_now; mret (Some (metav1_time now))
     else mret (ws_last_config_published_at s));
  PatchWorkloadStatus
    {| ws_config_check_result := Some true; ws_reason := None; ws_last_applied_config_hash := Some cfgHash;
       ws_last_applied_global_hash := Some globCfgHash; ws_last_config_published_at := publishedAt |} base.

Definition failed_patch (s : WorkloadStatus) (reason : string) : K unit :=
  PatchWorkloadStatus
    {| ws_config_check_result := Some false; ws_reason := Some reason;
       ws_last_applied_config_hash := ws_last_applied_config_hash s;
       ws_last_applied_global_hash := ws_last_applied_global_hash s;
       ws_last_config_published_at := ws_last_config_published_at s |} s.

Definition agent_SetSuccessStatus (c : Controller) : Z → Z → bool → K unit := success_patch (status c).
Definition agent_SetFailedStatus (c : Controller) : string → K unit := failed_patch (status c).

(** ** What is on the cluster *)

Definition namespace (c : Controller) : string := v_namespace (ct_vector c).
Definition secret_key (c : Controller) (name : string) : ObjKey := (KSecret, namespace c, name).
Definition daemonset_key (c : Controller) : ObjKey := (KDaemonSet, namespace c, getNameVectorAgent c).

(** [secretAssetsSafetyReader] *)
Definition safety_reader (c : Controller) (decision : string) : K unit :=
  if ct_reader c then mret tt
  else k_fail (ErrText ("APIReader is not set: " +:+ decision +:+ " must not be decided from the cache")).

Definition data_of (o : Object) : gmap string string := match o_body o with BSecret d => d | _ => ∅ end.

Definition existingSecretAssetsFor (c : Controller) (name : string) : K (gmap string string) :=
  _ ← safety_reader c "the secret-assets bridge and prune plan";
  o ← k_find (secret_key c name);
  mret (match o with Some o => data_of o | None => ∅ end).

Definition ExistingSecretAssets (c : Controller) : K (gmap string string * option (gmap string string)) :=
  primary ← existingSecretAssetsFor c (getSecretAssetsName c);
  if negb (ct_migration c) then mret (primary, None) else
  alt ← existingSecretAssetsFor c (assets_name (getAltConfigSecretName c));
  mret (primary, Some alt).

Definition publishedConfigMatches (c : Controller) (secretName byteConfig : string) : K bool :=
  _ ← safety_reader c "the secret-assets prune gate";
  o ← k_find (secret_key c secretName);
  mret (match o with
        | Some o => bool_decide (map_get (data_of o) "agent.json" = stored_config c byteConfig)
        | None => false
        end).

Definition PublishedConfigMatches (c : Controller) (byteConfig : string) : K bool :=
  publishedConfigMatches c (getConfigSecretName c) byteConfig.
Definition AltPublishedConfigMatches (c : Controller) (altByteConfig : string) : K bool :=
  publishedConfigMatches c (getAltConfigSecretName c) altByteConfig.

Definition hasSecretAssetsMount (c : Controller) : K bool :=
  if negb (ct_reader c)
  then k_fail (ErrText "APIReader is not set: the secret-assets write-order gate must not be decided from the cache")
  else
    o ← k_find (daemonset_key c);
    mret (match o ≫= template_of with
          | Some t => HasOperatorSecretAssetsMount (pt_spec t) (getSecretAssetsName c) SecretsMountPath
          | None => false
          end).

(** ** The writes *)

Definition deleteAgentConfigSecret (c : Controller) (name : string) : K unit :=
  k_delete_ignore (secret_key c name).

Definition apply (o : Object) : K unit := _ ← CreateOrUpdateResource o; mret tt.

Definition ensureVectorAgentConfig (c : Controller) : K unit :=
  _ ← apply (createVectorAgentConfig c (getConfigSecretName c) (ct_byte_config c));
  match ct_migration c, ct_alt_byte_config c with
  | true, Some alt => apply (createVectorAgentConfig c (getAltConfigSecretName c) alt)
  | true, None => mret tt
  | false, _ => _ ← k_try (deleteAgentConfigSecret c (getNameVectorAgent c +:+ "-opt")); mret tt
  end.

(** The assets of a variant: none are left of an empty target. *)
Definition ensure_assets (c : Controller) (name : string) (data : gmap string string) : K unit :=
  if bool_decide (size data = 0%nat) then deleteAgentConfigSecret c name
  else apply {| o_meta := o_meta (createSecretAssetsSecret c name); o_body := BSecret data |}.

(** The target of the alternate variant. *)
Definition alt_data (c : Controller) : gmap string string := default (ct_assets c) (ct_alt_assets c).

Definition ensureVectorAgentSecretAssets (c : Controller) : K unit :=
  let altName := assets_name (getAltConfigSecretName c) in
  _ ← ensure_assets c (getSecretAssetsName c) (ct_assets c);
  if negb (ct_migration c) then deleteAgentConfigSecret c altName else
  match ct_alt_byte_config c with
  | None => mret tt
  | Some _ => ensure_assets c altName (alt_data c)
  end.

Definition globalConfigChanged (c : Controller) : bool :=
  match ws_last_applied_global_hash (status c) with
  | None => false
  | Some h => negb (h =? GetGlobalConfigHash (ct_config c))
  end.

(** The restart mark. The template's annotations are the map of the resource's
    specification itself, when it has one, so the mark stays in the controller and
    shows in the metadata of everything built from it. *)
Definition mark_restart (c : Controller) (now : string) : Controller * Object :=
  match vc_annotations (agent c) with
  | Some a =>
      let c' := with_vector (with_agent (Some (with_annotations (Some (<[AnnotationRestartedAt := now]> a))
                  (agent c))) (ct_vector c)) c in
      (c', createVectorAgentDaemonSet Version c')
  | None =>
      let o := createVectorAgentDaemonSet Version c in
      let m := agent_meta c (namespace c) in
      (c, {| o_meta := o_meta o;
             o_body := BDaemonSet {| ds_selector := matchLabelsForVectorAgent c;
               ds_template := {| pt_meta := {| om_namespace := om_namespace m; om_name := om_name m;
                   om_labels := om_labels m; om_annotations := {[AnnotationRestartedAt := now]};
                   om_owners := om_owners m; om_created := om_created m |};
                 pt_spec := agent_pod Version c |} |} |})
  end.

Definition ensureVectorAgentDaemonSet (c : Controller) : K Controller :=
  if globalConfigChanged c then
    now ← k_now;
    let '(c', o) := mark_restart c (rfc3339 now) in
    _ ← apply o; mret c'
  else _ ← apply (createVectorAgentDaemonSet Version c); mret c.

Definition ensureVectorAgentServiceAccount (c : Controller) : K unit := apply (createVectorAgentServiceAccount c).
Definition ensureVectorAgentClusterRole (c : Controller) : K unit := apply (createVectorAgentClusterRole c).
Definition ensureVectorAgentClusterRoleBinding (c : Controller) : K unit :=
  apply (createVectorAgentClusterRoleBinding c).
Definition ensureVectorAgentRBAC (c : Controller) : K unit :=
  _ ← ensureVectorAgentServiceAccount c;
  _ ← ensureVectorAgentClusterRole c;
  ensureVectorAgentClusterRoleBinding c.
Definition ensureVectorAgentService (c : Controller) : K unit := apply (createVectorAgentService c).
Definition ensureVectorAgentPodMonitor (c : Controller) : K unit := apply (createVectorAgentPodMonitor c).

(** The secrets, the configuration and the template, in the order of the round. *)
Definition publish (c : Controller) (configPublishing hadMount : bool) : K Controller :=
  let willHaveMount := bool_decide (0 < size (ct_assets c))%nat in
  let stampBeforeConfig c := if configPublishing then StampConfigPublishing c else mret c in
  if negb hadMount && willHaveMount then
    _ ← ensureVectorAgentSecretAssets c;
    c ← ensureVectorAgentDaemonSet c;
    c ← stampBeforeConfig c;
    _ ← ensureVectorAgentConfig c;
    mret c
  else if hadMount && negb willHaveMount then
    c ← stampBeforeConfig c;
    _ ← ensureVectorAgentConfig c;
    c ← ensureVectorAgentDaemonSet c;
    _ ← ensureVectorAgentSecretAssets c;
    mret c
  else
    _ ← ensureVectorAgentSecretAssets c;
    c ← stampBeforeConfig c;
    _ ← ensureVectorAgentConfig c;
    ensureVectorAgentDaemonSet c.

(** [monitoringCRD] is the answer of the discovery API. *)
Definition EnsureVectorAgent (monitoringCRD : result bool) (c : Controller) (configPublishing : bool) : K Controller :=
  monitoring ← k_lift monitoringCRD;
  hadMount ← hasSecretAssetsMount c;
  c ← publish c configPublishing hadMount;
  _ ← ensureVectorAgentRBAC c;
  _ ← k_when (api_on (vc_api (agent c))) (ensureVectorAgentService c);
  _ ← k_when (vc_internal_metrics (agent c) && monitoring) (ensureVectorAgentPodMonitor c);
  mret c.
End operations.
