(* ===== verification/AgentSafety.v ===== *)
(** * Every pod an agent round can leave behind can start

    A pod may be created at any moment of a round, from the template and the Secrets
    stored at that moment. [pod_ok] says that it can start and resolve every key its
    configuration refers to; [agent_round_safe] proves it of every world
    [EnsureVectorAgent] passes through, however the round ends, and
    [agent_mode_switch_unsafe] shows the rounds it fails in. *)

From S2P Require Export AgentController.

(** ** Names *)

Lemma string_app_inv_head (s a b : string) : s +:+ a = s +:+ b → a = b.
Proof. induction s as [|ch s IH]; simpl; [done|]. by intros [= ?%IH]. Qed.

Definition variant_suffixes : list string := [""; "-opt"; "-secret-assets"; "-opt-secret-assets"].

Lemma variant_names_NoDup (s : string) : NoDup ((λ x, s +:+ x) <$> variant_suffixes).
Proof.
  apply NoDup_fmap_2_strong; [by intros x y _ _ ?%string_app_inv_head|].
  vm_compute. repeat constructor; set_solver.
Qed.

Lemma app_empty_r (s : string) : s +:+ "" = s.
Proof. induction s; simpl; congruence. Qed.
Lemma app_assoc_s (a b d : string) : (a +:+ b) +:+ d = a +:+ (b +:+ d).
Proof. induction a; simpl; congruence. Qed.

(** The names of the two variants and of their assets differ. *)
Lemma variant_names c :
  NoDup [getConfigSecretName c; getAltConfigSecretName c;
         getSecretAssetsName c; assets_name (getAltConfigSecretName c)].
Proof.
  pose proof (variant_names_NoDup (getNameVectorAgent c)) as Hn. unfold variant_suffixes in Hn.
  rewrite !fmap_cons, fmap_nil, app_empty_r in Hn.
  assert (Hopt : getNameVectorAgent c +:+ "-opt-secret-assets" = (getNameVectorAgent c +:+ "-opt") +:+ "-secret-assets")
    by (by rewrite app_assoc_s).
  rewrite Hopt in Hn. unfold getSecretAssetsName, getConfigSecretName, getAltConfigSecretName, assets_name.
  destruct (ct_migration c && ct_optimize c); [|done].
  eapply NoDup_Permutation_proper; [|exact Hn].
  etrans; [apply perm_swap|]. do 2 constructor. apply perm_swap.
Qed.

(** ** Views

    What a round reads and writes of the world: the DaemonSet's template, and the
    data of the configuration and assets Secrets of both variants. *)
Record view := {
  vt : option PodTemplate;
  vcfg : option (gmap string string);
  vas : option (gmap string string);
  vcfg' : option (gmap string string);
  vas' : option (gmap string string)
}.

Definition set_vt t x := {| vt := t; vcfg := vcfg x; vas := vas x; vcfg' := vcfg' x; vas' := vas' x |}.
Definition set_vcfg d x := {| vt := vt x; vcfg := d; vas := vas x; vcfg' := vcfg' x; vas' := vas' x |}.
Definition set_vas d x := {| vt := vt x; vcfg := vcfg x; vas := d; vcfg' := vcfg' x; vas' := vas' x |}.
Definition set_vcfg' d x := {| vt := vt x; vcfg := vcfg x; vas := vas x; vcfg' := d; vas' := vas' x |}.
Definition set_vas' d x := {| vt := vt x; vcfg := vcfg x; vas := vas x; vcfg' := vcfg' x; vas' := d |}.

Definition secret_data (w : world) (k : ObjKey) : option (gmap string string) := data_of <$> w_objects w !! k.

Definition view_of (c : Controller) (w : world) : view := {|
  vt := w_objects w !! daemonset_key c ≫= template_of;
  vcfg := secret_data w (secret_key c (getConfigSecretName c));
  vas := secret_data w (secret_key c (getSecretAssetsName c));
  vcfg' := secret_data w (secret_key c (getAltConfigSecretName c));
  vas' := secret_data w (secret_key c (assets_name (getAltConfigSecretName c)))
|}.

Section view_lemmas.
Context `{GoRuntime}.
Context (c : Controller).

Lemma applied_secret_data o d w : o_body o = BSecret d → data_of (applied o w) = d.
Proof. intros Hb. unfold applied, data_of. simpl. by rewrite Hb. Qed.

Lemma applied_template o s w : o_body o = BDaemonSet s → template_of (applied o w) = Some (ds_template s).
Proof. intros Hb. unfold applied, template_of. simpl. by rewrite Hb. Qed.

Lemma secret_data_insert o o' w k :
  secret_data (set_objects <[key_of o := o']> w) k =
    if decide (key_of o = k) then Some (data_of o') else secret_data w k.
Proof.
  unfold secret_data. simpl. case_decide as Hk; [by rewrite Hk, lookup_insert_eq | by rewrite lookup_insert_ne].
Qed.

Lemma secret_data_delete w k k' :
  secret_data (set_objects (delete k') w) k = if decide (k' = k) then None else secret_data w k.
Proof.
  unfold secret_data. simpl. case_decide as Hk; [by rewrite Hk, lookup_delete_eq | by rewrite lookup_delete_ne].
Qed.

(** A write of one Secret, a deletion of one, and a write of anything else. *)
Definition vset (c : Controller) (n : string) (d : option (gmap string string)) (x : view) : view := {|
  vt := vt x;
  vcfg := if decide (n = getConfigSecretName c) then d else vcfg x;
  vas := if decide (n = getSecretAssetsName c) then d else vas x;
  vcfg' := if decide (n = getAltConfigSecretName c) then d else vcfg' x;
  vas' := if decide (n = assets_name (getAltConfigSecretName c)) then d else vas' x |}.

Lemma decide_secret_key {A} n m (a b : A) :
  (if decide (secret_key c n = secret_key c m) then a else b) = if decide (n = m) then a else b.
Proof. unfold secret_key. repeat case_decide; congruence. Qed.

Lemma view_put_secret o o' n w :
  key_of o = secret_key c n →
  view_of c (set_objects <[key_of o := o']> w) = vset c n (Some (data_of o')) (view_of c w).
Proof.
  intros Hk. unfold view_of, vset. rewrite !secret_data_insert, !Hk, !decide_secret_key. simpl. f_equal.
  by rewrite lookup_insert_ne.
Qed.

Lemma view_delete_secret n w :
  view_of c (set_objects (delete (secret_key c n)) w) = vset c n None (view_of c w).
Proof.
  unfold view_of, vset. rewrite !secret_data_delete, !decide_secret_key. simpl. f_equal.
  by rewrite lookup_delete_ne.
Qed.

Lemma view_put_daemonset o o' w :
  key_of o = daemonset_key c →
  view_of c (set_objects <[key_of o := o']> w) = set_vt (template_of o') (view_of c w).
Proof.
  intros Hk. unfold view_of, set_vt. rewrite !secret_data_insert, !Hk. simpl. by rewrite lookup_insert_eq.
Qed.

Lemma view_put_other o o' w :
  body_kind (o_body o) ≠ KSecret → body_kind (o_body o) ≠ KDaemonSet →
  view_of c (set_objects <[key_of o := o']> w) = view_of c w.
Proof.
  intros Hs Hd. unfold view_of. rewrite !secret_data_insert. unfold key_of, secret_key.
  rewrite !decide_False by congruence. f_equal. simpl. rewrite lookup_insert_ne; [done|]. unfold daemonset_key. congruence.
Qed.

(** Each of the four names is a slot of its own. *)
Lemma vset_slots d x :
  vset c (getConfigSecretName c) d x = set_vcfg d x ∧
  vset c (getSecretAssetsName c) d x = set_vas d x ∧
  vset c (getAltConfigSecretName c) d x = set_vcfg' d x ∧
  vset c (assets_name (getAltConfigSecretName c)) d x = set_vas' d x.
Proof.
  pose proof (variant_names c) as Hn. rewrite !NoDup_cons, !not_elem_of_cons in Hn.
  destruct Hn as ((?&?&?&_) & (?&?&_) & (?&_) & _). unfold vset, set_vcfg, set_vas, set_vcfg', set_vas'.
  split_and!; f_equal; first [by rewrite decide_True | by rewrite decide_False by congruence].
Qed.
End view_lemmas.

(** ** The invariant of a round *)

(** [refs] is what a stored configuration refers to: the flat keys Vector reads from
    its secrets directory. *)
Section invariant.
Context `{GoRuntime}.
Context (refs : string → gset string) (c0 : Controller).

Notation N := (getConfigSecretName c0).
Notation N' := (getAltConfigSecretName c0).
Notation SA := (ct_assets c0).
Notation SA' := (alt_data c0).

Definition cfg_refs (d : option (gmap string string)) : gset string :=
  match d ≫= lookup "agent.json" with Some b => refs b | None => ∅ end.
Definition held (d : option (gmap string string)) : gset string := dom (default ∅ d).

(** A template mounts the assets of the variant [n], or reads its configuration. *)
Definition mounts (t : PodTemplate) (n : string) : Prop :=
  HasOperatorSecretAssetsMount (pt_spec t) (assets_name n) SecretsMountPath = true.
Definition uses (t : PodTemplate) (n : string) : Prop :=
  ∃ v, v ∈ ps_volumes (pt_spec t) ∧ vol_source v = VSecret n.

(** A pod of this template starts: what it mounts exists and holds what the
    configuration it reads refers to. *)
Definition variant_ok (t : PodTemplate) (n : string) (cfg assets : option (gmap string string)) : Prop :=
  (mounts t n → is_Some assets) ∧
  (uses t n → ∀ k, k ∈ cfg_refs cfg → mounts t n ∧ k ∈ held assets).

Definition pod_ok (x : view) : Prop :=
  ∀ t, vt x = Some t → variant_ok t N (vcfg x) (vas x) ∧ variant_ok t N' (vcfg' x) (vas' x).

(** Whether the round will have a mount, and whether it touches the other variant. *)
Definition will : Prop := SA ≠ ∅.
Definition alt_built : Prop := ct_migration c0 = true ∧ is_Some (ct_alt_byte_config c0).

Record inv (x : view) : Prop := {
  i_pod : pod_ok x;
  i_keys : cfg_refs (vcfg x) ⊆ held (vas x);
  i_keys' : ct_migration c0 = true → cfg_refs (vcfg' x) ⊆ held (vas' x);
  i_target : cfg_refs (vcfg x) ⊆ dom SA;
  i_target' : alt_built → cfg_refs (vcfg' x) ⊆ dom SA';
  i_kept t : vt x = Some t → mounts t N' → ct_migration c0 = true ∧ (alt_built → SA' ≠ ∅);
  i_one t : vt x = Some t → mounts t N → ¬ uses t N'
}.

Lemma not_will : ¬ will ↔ SA = ∅.
Proof. unfold will. destruct (decide (SA = ∅)); naive_solver. Qed.

Lemma i_use x t : inv x → vt x = Some t → uses t N → cfg_refs (vcfg x) ≠ ∅ → mounts t N.
Proof.
  intros Hi Ht Hu Hr. destruct (set_choose_L _ Hr) as [k Hk].
  destruct (i_pod x Hi t Ht) as [[_ Hok] _]. by apply (Hok Hu k Hk).
Qed.

(** Nothing is referred to while the target is empty. *)
Lemma idle_refs x : inv x → ¬ will → cfg_refs (vcfg x) = ∅.
Proof. intros Hi Hw%not_will. pose proof (i_target x Hi) as Ht. rewrite Hw in Ht. set_solver. Qed.

Definition mounted (x : view) : Prop := ∀ t, vt x = Some t → mounts t N.
Definition unmounted (x : view) : Prop := ∀ t, vt x = Some t → ¬ mounts t N.
Definition staged (x : view) : Prop := will → vas x = Some SA.
Definition staged' (x : view) : Prop := alt_built → SA' ≠ ∅ → vas' x = Some SA'.

Lemma act_assets x : inv x → will → inv (set_vas (Some SA) x).
Proof.
  intros Hi Hw. destruct Hi as [Hp Hk Hk' Ht Ht' Hkept Hone].
  split; try done. intros t Htm. destruct (Hp t Htm) as [[_ Hu] Ho]. split; [|done].
  split; [by eexists|]. intros Huse k Hkr; simpl in *. split; [by apply (Hu Huse k Hkr)|]. by apply Ht.
Qed.

Lemma act_no_assets x : inv x → ¬ will → unmounted x → inv (set_vas None x).
Proof.
  intros Hi Hw Hun. pose proof (idle_refs x Hi Hw) as Hr. destruct Hi as [Hp Hk Hk' Ht Ht' Hkept Hone].
  split; try done; simpl; [|rewrite Hr; set_solver].
  intros t Htm. destruct (Hp t Htm) as [[_ Hu] Ho]. split; [|done].
  split; [intros Hm; by destruct (Hun t Htm)|]. simpl. rewrite Hr. set_solver.
Qed.

Lemma act_alt_assets x : inv x → alt_built → inv (set_vas' (Some SA') x).
Proof.
  intros Hi Hb. destruct Hi as [Hp Hk Hk' Ht Ht' Hkept Hone].
  split; try done; simpl.
  - intros t Htm. destruct (Hp t Htm) as [Ho [_ Hu]]. split; [done|].
    split; [by eexists|]. intros Huse k Hkr; simpl in *. split; [by apply (Hu Huse k Hkr)|]. by apply Ht'.
  - intros _. by apply Ht'.
Qed.

Lemma act_no_alt_assets x :
  inv x → ct_migration c0 = false ∨ alt_built ∧ SA' = ∅ → inv (set_vas' None x).
Proof.
  intros Hi Hb. destruct Hi as [Hp Hk Hk' Ht Ht' Hkept Hone].
  assert (Hun : ∀ t, vt x = Some t → ¬ mounts t N').
  { intros t Htm Hm. destruct (Hkept t Htm Hm) as [Hmig Hne]. destruct Hb as [?|[Hb He]]; [congruence|].
    by apply Hne. }
  split; try done; simpl.
  - intros t Htm. destruct (Hp t Htm) as [Ho [_ Hu]]. split; [done|].
    split; [intros Hm; by destruct (Hun t Htm)|]. intros Huse k Hkr; simpl in *. by destruct (Hun t Htm), (Hu Huse k Hkr).
  - intros Hmig. destruct Hb as [?|[Hb He]]; [congruence|]. specialize (Ht' Hb). rewrite He in Ht'. set_solver.
Qed.

(** Configurations, given by what they refer to. *)
Lemma act_config x d :
  inv x → cfg_refs (Some d) ⊆ dom SA → (will → vas x = Some SA ∧ mounted x) → inv (set_vcfg (Some d) x).
Proof.
  intros Hi Hd Hw. destruct Hi as [Hp Hk Hk' Ht Ht' Hkept Hone].
  assert (Hcase : will ∨ cfg_refs (Some d) = ∅).
  { destruct (decide (SA = ∅)) as [He|]; [right; rewrite He in Hd; set_solver | by left]. }
  split; try done; simpl.
  - intros t Htm. destruct (Hp t Htm) as [[Hm _] Ho]. split; [|done]. split; [done|].
    intros Huse k Hkr; simpl in *. destruct Hcase as [Hc|Hc]; [|set_solver].
    destruct (Hw Hc) as [Hv Hmt]. split; [by apply Hmt|]. unfold held; simpl. rewrite Hv. simpl. by apply Hd.
  - destruct Hcase as [Hc|Hc]; [|set_solver]. destruct (Hw Hc) as [Hv _]. unfold held. by rewrite Hv.
Qed.

Lemma act_alt_config x d :
  inv x → alt_built → cfg_refs (Some d) ⊆ dom SA → cfg_refs (Some d) ⊆ dom SA' →
  (will → staged' x ∧ mounted x) → inv (set_vcfg' (Some d) x).
Proof.
  intros Hi Hb Hd Hd' Hw. destruct Hi as [Hp Hk Hk' Ht Ht' Hkept Hone].
  assert (Hcase : will ∨ cfg_refs (Some d) = ∅).
  { destruct (decide (SA = ∅)) as [He|]; [right; rewrite He in Hd; set_solver | by left]. }
  split; try done; simpl.
  - intros t Htm. destruct (Hp t Htm) as [Ho [Hm _]]. split; [done|]. split; [done|].
    intros Huse k Hkr; simpl in *. destruct Hcase as [Hc|Hc]; [|set_solver].
    destruct (Hw Hc) as [_ Hmt]. by destruct (Hone t Htm (Hmt t Htm)).
  - intros _ k Hkr. destruct Hcase as [Hc|Hc]; [|set_solver]. destruct (Hw Hc) as [Hv _].
    assert (Hne : SA' ≠ ∅) by (intros He; specialize (Hd' k Hkr); rewrite He in Hd'; set_solver).
    unfold held. rewrite (Hv Hb Hne). by apply Hd'.
Qed.

Lemma act_no_alt_config x : inv x → inv (set_vcfg' None x).
Proof.
  intros [Hp Hk Hk' Ht Ht' Hkept Hone]. split; try done; simpl.
  - intros t Htm. destruct (Hp t Htm) as [Ho [Hm _]]. split; [done|]. by split.
  all: intros _; set_solver.
Qed.

(** A template of this round. *)
Definition of_round (t : PodTemplate) : Prop :=
  (mounts t N ↔ will) ∧ ¬ mounts t N' ∧ ¬ uses t N'.

Lemma act_template x t : inv x → of_round t → staged x → inv (set_vt (Some t) x).
Proof.
  intros Hi (Hm & Hm' & Hu') Hst. pose proof (idle_refs x Hi) as Hidle.
  destruct Hi as [Hp Hk Hk' Ht Ht' Hkept Hone]. split; simpl; try done.
  - intros t' [= <-]. split; [|by split]. split.
    + intros Hmt%Hm. simpl. rewrite (Hst Hmt). by eexists.
    + intros Huse k Hkr; simpl in *. assert (Hw : will) by (intros He%not_will; apply Hidle in He; set_solver).
      split; [by apply Hm|]. by apply Hk.
  - by intros t' [= <-] ?.
  - by intros t' [= <-] ?.
Qed.
End invariant.

(** ** What a round builds *)

(** The controller without what a round changes of it: the status and the annotations. *)
Definition no_status : WorkloadStatus :=
  {| ws_config_check_result := None; ws_reason := None; ws_last_applied_config_hash := None;
     ws_last_applied_global_hash := None; ws_last_config_published_at := None |}.
Definition core (c : Controller) : Controller :=
  with_vector (with_v_status no_status (with_agent (Some (with_annotations None (agent c))) (ct_vector c))) c.
Definition similar (c c' : Controller) : Prop := core c = core c'.

(** No volume of the user's reads a Secret of the operator's. *)
Definition user_volumes_apart (c : Controller) : Prop :=
  ∀ v n, v ∈ default [] (vc_volumes (agent c)) →
    n ∈ [getConfigSecretName c; getAltConfigSecretName c; getSecretAssetsName c;
         assets_name (getAltConfigSecretName c)] → vol_source v ≠ VSecret n.

Section builders.
Context `{GoRuntime}.
Context (Version : string) (c : Controller) (Huser : user_volumes_apart c).

Notation N := (getConfigSecretName c).
Notation N' := (getAltConfigSecretName c).

(** The Secrets an agent's pod reads. *)
Lemma volumes_read v n :
  v ∈ generateVectorAgentVolume c →
  n ∈ [N; N'; getSecretAssetsName c; assets_name N'] → vol_source v = VSecret n →
  n = N ∨ n = getSecretAssetsName c ∧ v = secret_volume SecretAssetsVolumeName n ∧ will c.
Proof using Huser.
  intros Hv Hn Hs. unfold generateVectorAgentVolume in Hv. cbv zeta in Hv.
  assert (Hreq : v ∈ add_required vol_name (default [] (vc_volumes (agent c)))
    ([{| vol_name := "config"; vol_source := if vc_compress (agent c) then VEmptyDir else VSecret N |};
     host_path "data" (vc_data_dir (agent c)); host_path "procfs" "/proc"; host_path "sysfs" "/sys"] ++
    (if vc_compress (agent c) then [secret_volume "app-config-compress" N] else [])) → n = N).
  { unfold add_required. rewrite elem_of_app, list_elem_of_filter, elem_of_app, !elem_of_cons, elem_of_nil.
    intros [Hu|[_ Hr]]; [by destruct (Huser v n Hu Hn)|].
    destruct (vc_compress (agent c)); [rewrite elem_of_cons, elem_of_nil in Hr|rewrite elem_of_nil in Hr];
      destruct_or?; subst; simpl in Hs; congruence. }
  case_bool_decide as Hw; [|by left; apply Hreq].
  unfold SetAuthoritativeVolume in Hv. apply elem_of_app in Hv as [[_ Hv]%list_elem_of_filter|Hv%list_elem_of_singleton].
  - left. by apply Hreq.
  - right. subst v. injection Hs as <-. split; [done|]. split; [done|].
    intros He. rewrite He in Hw. rewrite map_size_empty in Hw. lia.
Qed.

Lemma agent_pod_of_round t : pt_spec t = agent_pod Version c → of_round c t.
Proof using Huser.
  intros Ht. pose proof (variant_names c) as Hn. rewrite !NoDup_cons, !not_elem_of_cons in Hn.
  destruct Hn as ((Hn1&Hn2&Hn3&_) & (Hn4&Hn5&_) & (Hn6&_) & _).
  assert (Hread : ∀ v n, v ∈ ps_volumes (pt_spec t) → n ∈ [N; N'; getSecretAssetsName c; assets_name N'] →
    vol_source v = VSecret n → n = N ∨ n = getSecretAssetsName c ∧ v = secret_volume SecretAssetsVolumeName n ∧ will c)
    by (rewrite Ht; apply volumes_read).
  split_and!.
  - unfold mounts. rewrite HasOperatorSecretAssetsMount_spec. split.
    + intros [Hv _]. destruct (Hread _ (getSecretAssetsName c) Hv) as [?|(_ & _ & ?)]; [set_solver|done|congruence|done].
    + intros Hw. assert (Hsz : (0 < size (ct_assets c))%nat)
        by (destruct (size (ct_assets c)) eqn:He; [by apply map_size_empty_inv in He|lia]).
      rewrite Ht. simpl. split.
      * unfold generateVectorAgentVolume. rewrite bool_decide_eq_true_2 by done.
        unfold SetAuthoritativeVolume. apply elem_of_app. right. by left.
      * exists (VectorAgentContainer c), (mount SecretAssetsVolumeName SecretsMountPath).
        split; [by left|]. split; [|done]. simpl. unfold generateVectorAgentVolumeMounts.
        rewrite bool_decide_eq_true_2 by done. unfold SetAuthoritativeVolumeMount. apply elem_of_app. right. by left.
  - unfold mounts. rewrite HasOperatorSecretAssetsMount_spec. intros [Hv _].
    destruct (Hread _ (assets_name N') Hv) as [?|(? & _)]; [set_solver|done|congruence|congruence].
  - intros (v & Hv & Hs). destruct (Hread v N' Hv) as [?|(? & _)]; [set_solver|done|congruence|congruence].
Qed.
End builders.

(** ** The round *)

Section round.
Context `{GoRuntime, KubeApi}.
Context (Version : string) (refs : string → gset string) (c0 : Controller).

Notation N := (getConfigSecretName c0).
Notation N' := (getAltConfigSecretName c0).
Notation SA := (ct_assets c0).
Notation SA' := (alt_data c0).
Notation I := (λ w, inv refs c0 (view_of c0 w)).

Definition at_view (P : view → Prop) (w : world) : Prop := P (view_of c0 w).

(** What the round publishes refers only to what it stages. *)
Record round_ok : Prop := {
  ro_user : user_volumes_apart c0;
  ro_config : refs (stored_config c0 (ct_byte_config c0)) ⊆ dom SA;
  ro_alt alt : ct_migration c0 = true → ct_alt_byte_config c0 = Some alt →
    refs (stored_config c0 alt) ⊆ dom SA ∧ refs (stored_config c0 alt) ⊆ dom SA'
}.
Context (Hok : round_ok).

Lemma similar_fields c : similar c0 c →
  namespace c = namespace c0 ∧ getNameVectorAgent c = getNameVectorAgent c0 ∧
  getConfigSecretName c = N ∧ getAltConfigSecretName c = N' ∧ ct_assets c = SA ∧ alt_data c = SA' ∧
  ct_migration c = ct_migration c0 ∧ ct_byte_config c = ct_byte_config c0 ∧
  ct_alt_byte_config c = ct_alt_byte_config c0 ∧ vc_compress (agent c) = vc_compress (agent c0) ∧
  agent_pod Version c = agent_pod Version c0 ∧ ct_config c = ct_config c0.
Proof.
  intros Hs. split_and!;
    [change (namespace (core c) = namespace (core c0))
    |change (getNameVectorAgent (core c) = getNameVectorAgent (core c0))
    |change (getConfigSecretName (core c) = getConfigSecretName (core c0))
    |change (getAltConfigSecretName (core c) = getAltConfigSecretName (core c0))
    |change (ct_assets (core c) = ct_assets (core c0))
    |change (alt_data (core c) = alt_data (core c0))
    |change (ct_migration (core c) = ct_migration (core c0))
    |change (ct_byte_config (core c) = ct_byte_config (core c0))
    |change (ct_alt_byte_config (core c) = ct_alt_byte_config (core c0))
    |change (vc_compress (agent (core c)) = vc_compress (agent (core c0)))
    |change (agent_pod Version (core c) = agent_pod Version (core c0))
    |change (ct_config (core c) = ct_config (core c0))]; by rewrite Hs.
Qed.

Lemma triple_apply (J P : world → Prop) o (Q : unit → world → Prop) :
  supported o →
  (∀ w, J w → P w → let w' := set_objects <[key_of o := applied o w]> w in J w' ∧ Q tt w') →
  triple J P (apply o) Q.
Proof.
  intros Hs HQ. unfold apply. eapply triple_bind; [by apply triple_resource with (Q := λ _ w, Q tt w)|].
  intros ?. by apply triple_ret.
Qed.

(** A Secret of the round, written or deleted. *)
Lemma triple_put_secret (P Q : view → Prop) o d n :
  o_body o = BSecret d → key_of o = secret_key c0 n →
  (∀ x, inv refs c0 x → P x → inv refs c0 (vset c0 n (Some d) x) ∧ Q (vset c0 n (Some d) x)) →
  triple I (at_view P) (apply o) (λ _, at_view Q).
Proof.
  intros Hb Hk HQ. apply triple_apply; [split; by rewrite Hb|]. intros w HI HP. unfold at_view. cbv zeta.
  rewrite (view_put_secret c0 o _ n w Hk), (applied_secret_data o d) by done. by apply HQ.
Qed.

Lemma triple_delete_secret (P Q : view → Prop) n :
  (∀ x, inv refs c0 x → P x → inv refs c0 (vset c0 n None x) ∧ Q (vset c0 n None x)) →
  triple I (at_view P) (k_delete_ignore (secret_key c0 n)) (λ _, at_view Q).
Proof.
  intros HQ. apply triple_delete_ignore. intros w HI HP. unfold at_view. rewrite view_delete_secret. by apply HQ.
Qed.

(** The target of a variant's assets, as it is stored. *)
Definition target (d : gmap string string) : option (gmap string string) :=
  if decide (d = ∅) then None else Some d.

Lemma target_Some d : d ≠ ∅ → target d = Some d.
Proof. intros Hd. unfold target. by rewrite decide_False. Qed.

Lemma triple_ensure_assets (P Q : view → Prop) c n d :
  similar c0 c →
  (∀ x, inv refs c0 x → P x → inv refs c0 (vset c0 n (target d) x) ∧ Q (vset c0 n (target d) x)) →
  triple I (at_view P) (ensure_assets c n d) (λ _, at_view Q).
Proof.
  intros Hs HQ. destruct (similar_fields c Hs) as (Hns & _). unfold ensure_assets, target in *.
  case_bool_decide as Hd.
  - apply map_size_empty_iff in Hd. rewrite decide_True in HQ by done. unfold deleteAgentConfigSecret, secret_key.
    rewrite Hns. by apply triple_delete_secret.
  - rewrite decide_False in HQ by (intros ->; by rewrite map_size_empty in Hd).
    apply triple_put_secret with (d := d) (n := n); [done| |done].
    unfold key_of, secret_key. simpl. by rewrite <- Hns.
Qed.

Lemma slots d x :
  vset c0 N d x = set_vcfg d x ∧ vset c0 (getSecretAssetsName c0) d x = set_vas d x ∧
  vset c0 N' d x = set_vcfg' d x ∧ vset c0 (assets_name N') d x = set_vas' d x.
Proof. apply vset_slots. Qed.

(** The assets of both variants. *)
Notation data := (option (gmap string string)).
Lemma triple_assets (R : option PodTemplate → data → data → Prop) c :
  similar c0 c →
  triple I (at_view (λ x, R (vt x) (vcfg x) (vcfg' x) ∧ (¬ will c0 → unmounted c0 x)))
    (ensureVectorAgentSecretAssets c)
    (λ _, at_view (λ x, R (vt x) (vcfg x) (vcfg' x) ∧ vas x = target SA ∧ staged' c0 x)).
Proof.
  intros Hs. destruct (similar_fields c Hs) as (Hns & _ & HN & HN' & HA & HA' & Hm & _ & Halt & _).
  unfold ensureVectorAgentSecretAssets, getSecretAssetsName. cbv zeta. rewrite HN, HN', HA, HA', Hm, Halt.
  apply triple_bind with (R := λ _, at_view (λ x, R (vt x) (vcfg x) (vcfg' x) ∧ vas x = target SA)).
  - apply triple_ensure_assets; [done|]. intros x Hi [HR Hu].
    rewrite (proj1 (proj2 (slots _ _))). split; [|by split].
    unfold target. case_decide as He.
    + assert (Hnw : ¬ will c0) by (by apply not_will). apply act_no_assets; auto.
    + by apply act_assets.
  - intros []. destruct (ct_migration c0) eqn:Hmig; simpl.
    + destruct (ct_alt_byte_config c0) as [alt|] eqn:Ha.
      * assert (Hb : alt_built c0) by (split; [done|by rewrite Ha; eexists]).
        apply triple_ensure_assets; [done|]. intros x Hi [HR Hvas].
        rewrite (proj2 (proj2 (proj2 (slots _ _)))). split.
        -- unfold target. destruct (decide (SA' = ∅)) as [He|He]; [|by apply act_alt_assets].
           apply act_no_alt_assets; [done|]. by right.
        -- split; [done|]. split; [done|]. intros _ He. by apply target_Some.
      * apply triple_ret. intros w Hi [HR Hvas]. split; [done|]. split; [done|]. intros [_ []]. congruence.
    + unfold deleteAgentConfigSecret, secret_key. rewrite Hns.
      apply (triple_delete_secret _ _ (assets_name N')). intros x Hi [HR Hvas].
      rewrite (proj2 (proj2 (proj2 (slots _ _)))). split; [apply act_no_alt_assets; [done|by left]|].
      split; [done|]. split; [done|]. intros [? _]. congruence.
Qed.

(** The configurations of both variants. *)
Definition published_data : gmap string string := {["agent.json" := stored_config c0 (ct_byte_config c0)]}.

Lemma cfg_refs_published (b : string) : cfg_refs refs (Some {["agent.json" := b]}) = refs b.
Proof. unfold cfg_refs. simpl. by rewrite lookup_singleton_eq. Qed.

Lemma triple_config (R : option PodTemplate → data → data → Prop) c :
  similar c0 c →
  triple I (at_view (λ x, R (vt x) (vas x) (vas' x) ∧ (will c0 → vas x = Some SA ∧ staged' c0 x ∧ mounted c0 x)))
    (ensureVectorAgentConfig c)
    (λ _, at_view (λ x, R (vt x) (vas x) (vas' x) ∧ vcfg x = Some published_data)).
Proof.
  intros Hs. destruct (similar_fields c Hs) as (Hns & Hna & HN & HN' & _ & _ & Hm & Hbc & Halt & Hcmp & _).
  assert (Hstored : ∀ b, stored_config c b = stored_config c0 b) by (intros b; unfold stored_config; by rewrite Hcmp).
  unfold ensureVectorAgentConfig. rewrite HN, HN', Hm, Hbc, Halt, Hna.
  apply triple_bind with (R := λ _, at_view (λ x,
    (R (vt x) (vas x) (vas' x) ∧ (will c0 → vas x = Some SA ∧ staged' c0 x ∧ mounted c0 x)) ∧ vcfg x = Some published_data)).
  - apply triple_put_secret with (d := published_data) (n := N).
    + simpl. by rewrite Hstored.
    + unfold key_of, secret_key. simpl. by rewrite <- Hns.
    + intros x Hi [HR Hw]. rewrite (proj1 (slots _ _)). split; [|by split].
      apply act_config; [done| |naive_solver]. unfold published_data. rewrite cfg_refs_published. apply Hok.
  - intros []. destruct (ct_migration c0) eqn:Hmig; [destruct (ct_alt_byte_config c0) as [alt|] eqn:Ha|].
    + assert (Hb : alt_built c0) by (split; [done|by rewrite Ha; eexists]).
      destruct (ro_alt Hok alt Hmig Ha) as [Hr1 Hr2].
      apply triple_put_secret with (d := {["agent.json" := stored_config c0 alt]}) (n := N').
      * simpl. by rewrite Hstored.
      * unfold key_of, secret_key. simpl. by rewrite <- Hns.
      * intros x Hi [[HR Hw] Hc]. rewrite (proj1 (proj2 (proj2 (slots _ _)))). split; [|by split].
        apply act_alt_config; rewrite ?cfg_refs_published; [done|done|done|done|]. naive_solver.
    + apply triple_ret. intros w Hi [[HR _] Hc]. by split.
    + assert (Hopt : getNameVectorAgent c0 +:+ "-opt" = N') by (unfold getAltConfigSecretName; by rewrite Hmig).
      rewrite Hopt. eapply triple_bind with (R := λ _, at_view (λ x, R (vt x) (vas x) (vas' x) ∧ vcfg x = Some published_data));
        [|intros r; by apply triple_ret].
      unfold deleteAgentConfigSecret, secret_key. rewrite Hns. fold (secret_key c0 N').
      apply triple_try_delete. intros w Hi [[HR Hw] Hc]. unfold at_view.
      rewrite view_delete_secret, (proj1 (proj2 (proj2 (slots _ _)))).
      split; [|by split]. split; [by apply act_no_alt_config|by split].
Qed.

(** The template. *)
Lemma daemonset_of_round c :
  let o := createVectorAgentDaemonSet Version c in
  key_of o = daemonset_key c ∧ ∃ s, o_body o = BDaemonSet s ∧ pt_spec (ds_template s) = agent_pod Version c.
Proof. split; [done|]. by eexists. Qed.

Lemma mark_restart_spec c now :
  let '(c', o) := mark_restart Version c now in
  similar c c' ∧ key_of o = daemonset_key c ∧
  ∃ s, o_body o = BDaemonSet s ∧ pt_spec (ds_template s) = agent_pod Version c.
Proof.
  unfold mark_restart. destruct (vc_annotations (agent c)) as [a|]; (split; [done|]; split; [done|]; by eexists).
Qed.

Definition round_template (x : view) : Prop := ∃ t, vt x = Some t ∧ pt_spec t = agent_pod Version c0.

Lemma triple_put_daemonset (P Q : view → Prop) o s :
  o_body o = BDaemonSet s → key_of o = daemonset_key c0 →
  (∀ x, inv refs c0 x → P x → inv refs c0 (set_vt (Some (ds_template s)) x) ∧ Q (set_vt (Some (ds_template s)) x)) →
  triple I (at_view P) (apply o) (λ _, at_view Q).
Proof.
  intros Hb Hk HQ. apply triple_apply; [split; by rewrite Hb|]. intros w Hi HP. unfold at_view. cbv zeta.
  rewrite (view_put_daemonset c0 o _ w Hk), (applied_template o s) by done. by apply HQ.
Qed.

Lemma similar_trans c1 c2 c3 : similar c1 c2 → similar c2 c3 → similar c1 c3.
Proof. unfold similar. congruence. Qed.

Lemma triple_daemonset (R : data → data → data → data → Prop) c :
  similar c0 c →
  triple I (at_view (λ x, R (vcfg x) (vas x) (vcfg' x) (vas' x) ∧ staged c0 x))
    (ensureVectorAgentDaemonSet Version c)
    (λ c', at_view (λ x, (R (vcfg x) (vas x) (vcfg' x) (vas' x) ∧ round_template x) ∧ similar c0 c')).
Proof.
  intros Hs. destruct (similar_fields c Hs) as (Hns & Hna & _ & _ & _ & _ & _ & _ & _ & _ & Hpod & _).
  assert (Hkey : daemonset_key c = daemonset_key c0) by (unfold daemonset_key; by rewrite Hns, Hna).
  assert (Hput : ∀ o s c', similar c0 c' → o_body o = BDaemonSet s → key_of o = daemonset_key c →
    pt_spec (ds_template s) = agent_pod Version c →
    triple I (at_view (λ x, R (vcfg x) (vas x) (vcfg' x) (vas' x) ∧ staged c0 x)) (_ ← apply o; mret c')
      (λ c', at_view (λ x, (R (vcfg x) (vas x) (vcfg' x) (vas' x) ∧ round_template x) ∧ similar c0 c'))).
  { intros o s c' Hsim Hb Hk Hp.
    apply triple_bind with (R := λ _, at_view (λ x, R (vcfg x) (vas x) (vcfg' x) (vas' x) ∧ round_template x)).
    - apply triple_put_daemonset with (s := s); [done|by rewrite Hk, Hkey|]. intros x Hi [HR Hst]. split.
      + apply act_template; [done| |done]. apply (agent_pod_of_round Version c0 (ro_user Hok)). by rewrite Hp.
      + split; [done|]. eexists. split; [done|]. by rewrite Hp.
    - intros []. apply triple_ret. intros w Hi HR. by split. }
  unfold ensureVectorAgentDaemonSet. destruct (globalConfigChanged c).
  - eapply triple_bind; [apply triple_now with (Q := λ _ : Z, at_view (λ x, R (vcfg x) (vas x) (vcfg' x) (vas' x) ∧ staged c0 x)); done|].
    intros now. pose proof (mark_restart_spec c (rfc3339 now)) as Hm. destruct (mark_restart Version c (rfc3339 now)) as [c' o].
    destruct Hm as (Hsim & Hk & s & Hb & Hp). apply (Hput o s); [by eapply similar_trans|done..].
  - destruct (daemonset_of_round c) as (Hk & s & Hb & Hp). by apply (Hput _ s).
Qed.

Lemma triple_stamp (P : view → Prop) c (b : bool) :
  similar c0 c →
  triple I (at_view P) (if b then StampConfigPublishing c else mret c) (λ c', at_view (λ x, P x ∧ similar c0 c')).
Proof.
  intros Hs. destruct b; [|by apply triple_ret].
  unfold StampConfigPublishing. eapply triple_bind; [by apply triple_now with (Q := λ _, at_view P)|]. intros now.
  eapply triple_bind; [by apply triple_patch_status with (Q := λ _, at_view P)|]. intros []. by apply triple_ret.
Qed.

Lemma triple_mount_read (P : view → Prop) c :
  similar c0 c →
  triple I (at_view P) (hasSecretAssetsMount c)
    (λ b, at_view (λ x, P x ∧ (b = true ↔ ∃ t, vt x = Some t ∧ mounts t N))).
Proof.
  intros Hs. destruct (similar_fields c Hs) as (Hns & Hna & HN & _). unfold hasSecretAssetsMount.
  destruct (negb (ct_reader c)); [by apply triple_fail|].
  assert (Hkey : daemonset_key c = daemonset_key c0) by (unfold daemonset_key; by rewrite Hns, Hna).
  eapply triple_bind; [apply triple_find with (Q := λ o w, at_view P w ∧ o = w_objects w !! daemonset_key c0);
    by rewrite Hkey|].
  intros o. apply triple_ret. intros w Hi [HP ->]. split; [done|].
  unfold view_of, getSecretAssetsName. simpl. rewrite HN. unfold mounts.
  destruct (w_objects w !! daemonset_key c0 ≫= template_of) as [t|]; [|naive_solver].
  split; [eauto|]. by intros (t' & [= <-] & ?).
Qed.

(** The rest of the round writes nothing the pods read at their start. *)
Lemma triple_other (P : view → Prop) o :
  supported o → body_kind (o_body o) ≠ KSecret → body_kind (o_body o) ≠ KDaemonSet →
  triple I (at_view P) (apply o) (λ _, at_view P).
Proof.
  intros Hs H1 H2. apply triple_apply; [done|]. intros w Hi HP. unfold at_view. cbv zeta.
  by rewrite view_put_other.
Qed.

(** What a round that returns without an error has published. *)
Definition round_published (x : view) : Prop :=
  vcfg x = Some published_data ∧ vas x = target SA ∧ round_template x.

Definition mount_known (had : bool) (t : option PodTemplate) : Prop :=
  had = true ↔ ∃ t', t = Some t' ∧ mounts t' N.

(** Assets, configuration, template. *)
Lemma publish_keep c (b had : bool) :
  similar c0 c → (had = true ↔ will c0) →
  triple I (at_view (λ x, mount_known had (vt x)))
    (_ ← ensureVectorAgentSecretAssets c;
     c ← (if b then StampConfigPublishing c else mret c);
     _ ← ensureVectorAgentConfig c;
     ensureVectorAgentDaemonSet Version c)
    (λ c', at_view (λ x, round_published x ∧ similar c0 c')).
Proof.
  intros Hs Hw. eapply triple_bind.
  { eapply triple_pre; [|by apply (triple_assets (λ t _ _, mount_known had t))].
    intros w _ Hh. split; [exact Hh|]. intros Hn t Ht Hm. apply Hn, Hw, Hh. eauto. }
  intros []. eapply triple_bind; [by apply triple_stamp|]. intros c1. apply triple_pure. intros Hs1.
  eapply triple_bind.
  { eapply triple_pre; [|by apply (triple_config (λ t a a', mount_known had t ∧ a = target SA))].
    intros w Hi (Hk & Hv & Hst). split; [by split|]. intros Hwl. split; [by rewrite Hv, target_Some|].
    split; [done|]. intros t Ht. apply Hw in Hwl. destruct (proj1 Hk Hwl) as (t' & Heq & ?). congruence. }
  intros []. eapply triple_post; [|eapply triple_pre; [|by apply (triple_daemonset (λ cfg a _ _, cfg = Some published_data ∧ a = target SA))]].
  - intros c' w Hi [[[? ?] ?] ?]. by split.
  - intros w Hi [[Hk Hv] Hc]. split; [by split|]. intros Hwl. by rewrite Hv, target_Some.
Qed.

(** Assets, template, configuration. *)
Lemma publish_gain c (b : bool) :
  similar c0 c → will c0 →
  triple I (at_view (λ _, True))
    (_ ← ensureVectorAgentSecretAssets c;
     c ← ensureVectorAgentDaemonSet Version c;
     c ← (if b then StampConfigPublishing c else mret c);
     _ ← ensureVectorAgentConfig c;
     mret c)
    (λ c', at_view (λ x, round_published x ∧ similar c0 c')).
Proof.
  intros Hs Hwl. eapply triple_bind.
  { eapply triple_pre; [|by apply (triple_assets (λ _ _ _, True))]. by split. }
  intros []. eapply triple_bind.
  { eapply triple_pre; [|by apply (triple_daemonset (λ _ a _ a', a = target SA ∧ (alt_built c0 → SA' ≠ ∅ → a' = Some SA')))].
    intros w Hi (_ & Hv & Hst). split; [by split|]. intros _. by rewrite Hv, target_Some. }
  intros c1. apply triple_pure. intros Hs1. eapply triple_bind.
  { by apply (triple_stamp (λ x, (vas x = target SA ∧ (alt_built c0 → SA' ≠ ∅ → vas' x = Some SA')) ∧ round_template x)). }
  intros c2. apply triple_pure. intros Hs2. eapply triple_bind.
  { eapply triple_pre; [|by apply (triple_config (λ t a _, (∃ t', t = Some t' ∧ pt_spec t' = agent_pod Version c0) ∧ a = target SA))].
    intros w Hi [[Hv Hst] (t & Ht & Hp)]. split; [split; [by exists t|done]|]. intros _.
    split; [by rewrite Hv, target_Some|]. split; [done|]. intros t' Ht'. rewrite Ht in Ht'. injection Ht' as <-.
    by apply (agent_pod_of_round Version c0 (ro_user Hok) t Hp). }
  intros []. apply triple_ret. intros w Hi [[Hp Hv] Hc]. by split.
Qed.

(** Configuration, template, assets. *)
Lemma publish_lose c (b : bool) :
  similar c0 c → ¬ will c0 →
  triple I (at_view (λ _, True))
    (c ← (if b then StampConfigPublishing c else mret c);
     _ ← ensureVectorAgentConfig c;
     c ← ensureVectorAgentDaemonSet Version c;
     _ ← ensureVectorAgentSecretAssets c;
     mret c)
    (λ c', at_view (λ x, round_published x ∧ similar c0 c')).
Proof.
  intros Hs Hwl. eapply triple_bind; [by apply (triple_stamp (λ _, True))|].
  intros c1. apply triple_pure. intros Hs1. eapply triple_bind.
  { eapply triple_pre; [|by apply (triple_config (λ _ _ _, True))]. by split. }
  intros []. eapply triple_bind.
  { eapply triple_pre; [|by apply (triple_daemonset (λ cfg _ _ _, cfg = Some published_data))]. intros w Hi [_ Hc]. split; [exact Hc|]. by intros ?%Hwl. }
  intros c2. apply triple_pure. intros Hs2. eapply triple_bind.
  { eapply triple_pre; [|by apply (triple_assets (λ t cfg _, cfg = Some published_data ∧ ∃ t', t = Some t' ∧ pt_spec t' = agent_pod Version c0))].
    intros w Hi [Hc (t & Ht & Hp)]. split; [split; [done|by exists t]|]. intros _ t' Ht' Hm.
    rewrite Ht in Ht'. injection Ht' as <-. by apply Hwl, (agent_pod_of_round Version c0 (ro_user Hok) t Hp). }
  intros []. apply triple_ret. intros w Hi [[Hc Hp] [Hv _]]. by split.
Qed.

Lemma triple_publish c b had :
  similar c0 c →
  triple I (at_view (λ x, mount_known had (vt x)))
    (publish Version c b had) (λ c', at_view (λ x, round_published x ∧ similar c0 c')).
Proof.
  intros Hs. destruct (similar_fields c Hs) as (_ & _ & _ & _ & HA & _).
  unfold publish. cbv zeta. rewrite HA.
  assert (Hwill : bool_decide (0 < size SA)%nat = true ↔ will c0).
  { rewrite bool_decide_eq_true. unfold will. rewrite <- map_size_empty_iff. lia. }
  destruct (bool_decide (0 < size SA)%nat) eqn:Hw; destruct had; simpl.
  - apply publish_keep; tauto.
  - eapply triple_pre; [|apply publish_gain; tauto]. done.
  - eapply triple_pre; [|apply publish_lose; naive_solver]. done.
  - apply publish_keep; naive_solver.
Qed.

Lemma triple_round crd b :
  triple I (λ _, True) (EnsureVectorAgent Version crd c0 b) (λ c', at_view (λ x, round_published x ∧ similar c0 c')).
Proof.
  assert (Hs : similar c0 c0) by done. unfold EnsureVectorAgent.
  eapply triple_bind; [by apply triple_lift with (Q := λ _ _, True)|]. intros monitoring.
  eapply triple_bind; [by apply (triple_mount_read (λ _, True))|]. intros had.
  eapply triple_bind; [eapply triple_pre; [|by apply triple_publish]; by intros w Hi [_ Hk]|]. intros c1.
  set (P := λ x, round_published x ∧ similar c0 c1).
  assert (Ho : ∀ o, supported o → body_kind (o_body o) ≠ KSecret → body_kind (o_body o) ≠ KDaemonSet →
    triple I (at_view P) (apply o) (λ _, at_view P)) by (intros o; apply triple_other).
  eapply triple_bind.
  { unfold ensureVectorAgentRBAC.
    eapply triple_bind; [by apply Ho|]. intros []. eapply triple_bind; [by apply Ho|]. intros []. by apply Ho. }
  intros []. eapply triple_bind with (R := λ _, at_view P).
  { apply triple_when; [intros _; by apply Ho | done]. }
  intros []. eapply triple_bind with (R := λ _, at_view P).
  { apply triple_when; [intros _; by apply Ho | done]. }
  intros []. by apply triple_ret.
Qed.
End round.

(** ** Properties *)

(** C11: crash safety of an agent round. Suppose the stored configuration and template
    fit each other and what this round is about to stage ([inv]), and the round's
    configurations refer only to keys it stages ([round_ok]). Then in every world
    [EnsureVectorAgent] passes through, with calls failing anywhere, a pod created
    from the stored template mounts only assets that exist, and they hold every key
    its stored configuration refers to; and a round that returns has published the
    configuration, exactly its assets, and its template. *)
Theorem agent_round_safe `{GoRuntime, KubeApi} Version refs c0 crd publishing cl :
  round_ok refs c0 → inv refs c0 (view_of c0 (seen cl)) →
  let '(tr, cl', r) := EnsureVectorAgent Version crd c0 publishing cl in
  Forall (λ w, pod_ok refs c0 (view_of c0 w)) tr ∧ inv refs c0 (view_of c0 (seen cl')) ∧
  match r with Ok _ => round_published Version c0 (view_of c0 (seen cl')) | Err _ => True end.
Proof.
  intros Hok Hi. pose proof (triple_round Version refs c0 Hok crd publishing cl Hi I) as Ht.
  destruct (EnsureVectorAgent Version crd c0 publishing cl) as [[tr cl'] r]. destruct Ht as (Htr & Hi' & Hr).
  split_and!; [|done|].
  - eapply Forall_impl; [exact Htr|]. intros w Hw. apply Hw.
  - destruct r; [|done]. apply Hr.
Qed.

(** ** A round that is not safe *)

#[local] Existing Instance stable_runtime.

Definition sample_vector : Vector := {|
  v_namespace := "ns"; v_name := "v"; v_uid := "u"; v_kind := "Vector"; v_api_version := "v1alpha1";
  v_annotations := ∅; v_deleted := false; v_agent := None; v_use_apiserver_cache := false; v_selector := None;
  v_status := no_status |}.

Definition sample_controller (migration optimize : bool) : Controller := {|
  ct_vector := SetDefault sample_vector; ct_reader := true; ct_byte_config := "k"; ct_config := zero_config;
  ct_migration := migration; ct_merger_image := ""; ct_optimize := optimize;
  ct_alt_byte_config := if migration then Some "k" else None; ct_assets := {["k" := "value"]};
  ct_alt_assets := None |}.

(** A configuration whose text is the key it refers to. *)
Definition sample_refs (b : string) : gset string := {[b]}.

(** What two rounds with migration on have left: both variants, and the template of
    the optimized one. *)
Definition switched : world :=
  let c := sample_controller true true in
  let put o (s : store) := <[key_of o := mark_created o]> s in
  sample_status_world
    (put (createVectorAgentDaemonSet "1" c)
      (put (createVectorAgentConfig c "v-agent" "k") (put (createVectorAgentConfig c "v-agent-opt" "k")
        (put (createSecretAssetsSecret c "v-agent-secret-assets")
          (put (createSecretAssetsSecret c "v-agent-opt-secret-assets") ∅))))).

Definition switch_trace : list world :=
  (@EnsureVectorAgent stable_runtime simple_api "1" (Ok false) (sample_controller false false) true (calm switched 0)).1.1.

Definition switched_template : PodTemplate :=
  let c := sample_controller true true in
  {| pt_meta := agent_meta c "ns"; pt_spec := agent_pod "1" c |}.

Lemma sample_user_apart m o : user_volumes_apart (sample_controller m o).
Proof. intros v n Hv _. simpl in Hv. rewrite !elem_of_cons, elem_of_nil in Hv. by destruct_or?; subst. Qed.

(** The template is of the other mode. *)
Lemma switched_template_facts :
  mounts switched_template "v-agent-opt" ∧ ¬ mounts switched_template "v-agent" ∧ ¬ uses switched_template "v-agent".
Proof.
  pose proof (agent_pod_of_round "1" (sample_controller true true) (sample_user_apart _ _) switched_template eq_refl)
    as (Hm & Hn & Hu).
  split_and!; [|exact Hn|exact Hu]. apply Hm. done.
Qed.

(** C32: turning checkpoint migration off while secrets are in use is not safe. The
    round starts from a world in which every pod starts, publishes a configuration
    that refers only to what it stages, and no call fails; yet it deletes the assets
    the stored template mounts before it writes the new template, so a pod created in
    between cannot start. *)
Theorem agent_mode_switch_unsafe :
  let c := sample_controller false false in
  round_ok sample_refs c ∧ pod_ok sample_refs c (view_of c switched) ∧
  ∃ w, w ∈ switch_trace ∧ ¬ pod_ok sample_refs c (view_of c w).
Proof.
  cbv zeta. split_and!.
  - split; [apply sample_user_apart|vm_compute; set_solver|done].
  - intros t Ht. change (Some switched_template = Some t) in Ht. injection Ht as <-.
    destruct switched_template_facts as (Hm & Hn & Hu). split; split.
    + intros ?. by eexists.
    + by intros ?%Hu.
    + intros ?. by eexists.
    + intros _ k Hk. split; [exact Hm|]. change (k ∈ dom ({["k" := "value"]} : gmap string string)).
      change (k ∈ ({["k"]} : gset string)) in Hk. set_solver.
  - exists (default switched (switch_trace !! 1%nat)). split.
    + apply list_elem_of_lookup. exists 1%nat. vm_compute. reflexivity.
    + intros Hp. specialize (Hp switched_template). destruct Hp as [_ [Hp _]]; [vm_compute; reflexivity|].
      destruct (Hp (proj1 switched_template_facts)) as [d Hd].
      assert (Hnone : vas' (view_of (sample_controller false false) (default switched (switch_trace !! 1%nat))) = None)
        by (vm_compute; reflexivity).
      congruence.
Qed.

(** ** Witnesses *)

Lemma agent_round_safe_witness :
  let c := sample_controller false false in
  let '(_, cl, r) := @EnsureVectorAgent stable_runtime simple_api "1" (Ok false) c true (calm (sample_status_world ∅) 0) in
  pod_ok sample_refs c (view_of c (sc_world cl)) ∧ is_Ok r.
Proof.
  pose proof (@agent_round_safe stable_runtime simple_api "1" sample_refs (sample_controller false false) (Ok false) true
    (calm (sample_status_world ∅) 0)) as Hx.
  assert (Hok : is_Ok (EnsureVectorAgent "1" (Ok false) (sample_controller false false) true
    (calm (sample_status_world ∅) 0 : @cluster simple_api)).2) by (eexists; vm_compute; reflexivity).
  cbv zeta. destruct (EnsureVectorAgent _ _ _ _ _) as [[tr cl] r]. split; [|exact Hok].
  apply Hx.
  - split; [apply sample_user_apart|vm_compute; set_solver|done].
  - split; try (by intros ?); vm_compute; set_solver.
Defined.

(** ** The restart mark *)

Definition restart_mark (o : Object) : option string :=
  t ← template_of o; om_annotations (pt_meta t) !! AnnotationRestartedAt.

(** the template written after a change of the global options carries the restart
    mark, and the one the next round writes does not, since nothing stores it: the
    second write rolls the pods again. *)
Lemma restart_mark_lost `{GoRuntime} Version c c2 now :
  vc_annotations (agent c2) = vc_annotations (agent c) →
  (∀ a, vc_annotations (agent c) = Some a → a !! AnnotationRestartedAt = None) →
  restart_mark (mark_restart Version c now).2 = Some now ∧
  restart_mark (createVectorAgentDaemonSet Version c2) = None.
Proof.
  intros Ha Hnone. unfold restart_mark, mark_restart. destruct (vc_annotations (agent c)) as [a|] eqn:Hc; simpl.
  - unfold annotationsForVectorAgent. simpl. rewrite Ha. simpl. rewrite lookup_insert_eq. split; [done|]. by apply Hnone.
  - unfold annotationsForVectorAgent. rewrite Ha. simpl. by rewrite lookup_singleton_eq, lookup_empty.
Qed.

Lemma restart_mark_lost_witness :
  restart_mark (@createVectorAgentDaemonSet stable_runtime "1" (sample_controller false false)) = None.
Proof.
  apply (@restart_mark_lost stable_runtime "1" (sample_controller false false) (sample_controller false false) "now").
  - reflexivity.
  - intros a. vm_compute. discriminate.
Defined.
