(* ===== verification/ConfigCheck.v ===== *)
(** * Checking a configuration before it is published

    [src/internal/config/configcheck]: a check writes the configuration, and the
    secrets it refers to, into Secrets of its own, starts a pod that validates it, and
    waits for its end. The budget of the check is a deadline its API calls carry, so
    they may fail at any point; the events of the wait are an argument, in the order
    the [select] takes them. *)

From S2P Require Export AgentController.

(** ** [ConfigCheck] and its objects *)

Record ConfigCheck := {
  cc_config : string;
  cc_name : string;
  cc_namespace : string;
  cc_initiator : string;
  cc_pod_image : string;
  cc_image_pull_policy : string;
  cc_image_pull_secrets : string;
  cc_env : list EnvVar;
  cc_env_from : list string;
  cc_hash : string;
  cc_pod_tolerations : string;
  cc_pod_resources : Resources;
  cc_security_context : string;
  cc_container_security_context : string;
  cc_compressed : bool;
  cc_reloader_image : string;
  cc_reloader_resources : Resources;
  cc_timeout : Z;
  cc_pod_annotations : gmap string string;
  cc_pod_labels : gmap string string;
  cc_volumes : list Volume;
  cc_mounts : list VolumeMount;
  cc_assets_name : string;
  cc_assets : gmap string string
}.

Definition ConfigCheckInitiatorVector : string := "VectorInitiator".
Definition ConfigCheckInitiatorPipieline : string := "PipelineInitiator".

Definition ErrValidation : err := ErrSentinel "ErrValidation" "config validation error".
Definition ErrConfigcheckTimeout : err := ErrSentinel "ErrConfigcheckTimeout" "timeout waiting configcheck pod result".
Definition ErrConfigcheckSkipped : err :=
  ErrSentinel "ErrConfigcheckSkipped" "configcheck skipped: namespace is terminating".

(** [configcheck.New] *)
Definition new_check (config : string) (vc : VectorCommon) (name namespace : string) (timeout : Z)
    (initiator : string) (secretAssets : gmap string string) : ConfigCheck :=
  let spec := vc_config_check vc in
  {| cc_config := config; cc_name := name; cc_namespace := namespace; cc_initiator := initiator;
     cc_pod_image := default (vc_image vc) (cc_image spec); cc_image_pull_policy := vc_image_pull_policy vc;
     cc_image_pull_secrets := vc_image_pull_secrets vc; cc_env := vc_env vc; cc_env_from := vc_env_from vc;
     cc_hash := ""; cc_pod_tolerations := default (vc_tolerations vc) (cc_tolerations spec);
     cc_pod_resources := default (vc_resources vc) (cc_resources spec);
     cc_security_context := vc_security_context vc;
     cc_container_security_context := vc_container_security_context vc; cc_compressed := vc_compress vc;
     cc_reloader_image := vc_reloader_image vc; cc_reloader_resources := vc_reloader_resources vc;
     cc_timeout := timeout; cc_pod_annotations := cc_annotations spec; cc_pod_labels := cc_labels spec;
     cc_volumes := default [] (vc_volumes vc); cc_mounts := default [] (vc_mounts vc);
     cc_assets_name := ""; cc_assets := secretAssets |}.

(** The random part of the names, and the name of the assets, which exist only when
    there are any. *)
Definition with_hash (hash : string) (cc : ConfigCheck) : ConfigCheck :=
  {| cc_config := cc_config cc; cc_name := cc_name cc; cc_namespace := cc_namespace cc;
     cc_initiator := cc_initiator cc; cc_pod_image := cc_pod_image cc;
     cc_image_pull_policy := cc_image_pull_policy cc; cc_image_pull_secrets := cc_image_pull_secrets cc;
     cc_env := cc_env cc; cc_env_from := cc_env_from cc; cc_hash := hash;
     cc_pod_tolerations := cc_pod_tolerations cc; cc_pod_resources := cc_pod_resources cc;
     cc_security_context := cc_security_context cc;
     cc_container_security_context := cc_container_security_context cc; cc_compressed := cc_compressed cc;
     cc_reloader_image := cc_reloader_image cc; cc_reloader_resources := cc_reloader_resources cc;
     cc_timeout := cc_timeout cc; cc_pod_annotations := cc_pod_annotations cc;
     cc_pod_labels := cc_pod_labels cc; cc_volumes := cc_volumes cc; cc_mounts := cc_mounts cc;
     cc_assets_name := if bool_decide (0 < size (cc_assets cc))%nat
                       then "configcheck-secret-assets-" +:+ cc_name cc +:+ "-" +:+ hash
                       else cc_assets_name cc;
     cc_assets := cc_assets cc |}.

Section objects.
Context `{GoRuntime}.

Definition basic_check_labels : gmap string string :=
  {[ManagedByLabelKey := "vector-operator"; NameLabelKey := "vector-configcheck"; ComponentLabelKey := "ConfigCheck"]}.
Definition labelsForVectorConfigCheck (cc : ConfigCheck) : gmap string string :=
  MergeLabels basic_check_labels (cc_pod_labels cc).

Definition getNameVectorConfigCheck (cc : ConfigCheck) : string :=
  "configcheck" +:+ "-" +:+ cc_name cc +:+ "-" +:+ cc_hash cc.
Definition getNameVectorConfigCheckSecretAssets (cc : ConfigCheck) : string :=
  "configcheck-secret-assets-" +:+ cc_name cc +:+ "-" +:+ cc_hash cc.

Definition check_meta (cc : ConfigCheck) (name : string) (annotations : gmap string string) (owners : list string)
    : ObjectMeta :=
  {| om_namespace := cc_namespace cc; om_name := name; om_labels := labelsForVectorConfigCheck cc;
     om_annotations := annotations; om_owners := owners; om_created := false |}.

(** [controllerutil.SetOwnerReference] to the check's configuration Secret. *)
Definition owned_by_check (cc : ConfigCheck) : list string := ["Secret " +:+ getNameVectorConfigCheck cc].

Definition createVectorConfigCheckServiceAccount (cc : ConfigCheck) : Object :=
  {| o_meta := check_meta cc "vector-configcheck" ∅ []; o_body := BServiceAccount |}.

Definition createVectorConfigCheckConfig (cc : ConfigCheck) : Object :=
  {| o_meta := check_meta cc (getNameVectorConfigCheck cc) ∅ [];
     o_body := BSecret {["config.json" := if cc_compressed cc then gzip (cc_config cc) else cc_config cc]} |}.

Definition createVectorConfigCheckSecretAssets (cc : ConfigCheck) : Object :=
  {| o_meta := check_meta cc (getNameVectorConfigCheckSecretAssets cc) ∅ (owned_by_check cc);
     o_body := BSecret (cc_assets cc) |}.

Definition generateVectorConfigCheckVolume (cc : ConfigCheck) : list Volume :=
  let required :=
    [{| vol_name := "config";
        vol_source := if cc_compressed cc then VEmptyDir else VSecret (getNameVectorConfigCheck cc) |};
     {| vol_name := "data"; vol_source := VEmptyDir |}; host_path "var-log" "/var/log/";
     host_path "var-lib" "/var/lib/"; host_path "procfs" "/proc"; host_path "sysfs" "/sys"] ++
    (if cc_compressed cc then [secret_volume "app-config-compress" (getNameVectorConfigCheck cc)] else []) in
  let volume := add_required vol_name (cc_volumes cc) required in
  if bool_decide (cc_assets_name cc ≠ "")
  then SetAuthoritativeVolume volume (secret_volume SecretAssetsVolumeName (cc_assets_name cc))
  else volume.

Definition generateVectorConfigCheckVolumeMounts (cc : ConfigCheck) : list VolumeMount :=
  let required :=
    [mount "config" "/etc/vector/"; mount "data" "/vector-data-dir"; mount "var-log" "/var/log/";
     mount "var-lib" "/var/lib/"; mount "procfs" "/host/proc"; mount "sysfs" "/host/sys"] ++
    (if cc_compressed cc then [mount "app-config-compress" "/tmp/archive"] else []) in
  let mounts := add_required vm_name (cc_mounts cc) required in
  if bool_decide (cc_assets_name cc ≠ "")
  then SetAuthoritativeVolumeMount mounts (mount SecretAssetsVolumeName SecretsMountPath)
  else mounts.

Definition generateVectorConfigCheckEnvs (cc : ConfigCheck) : list EnvVar := cc_env cc ++ self_envs.

Definition check_reloader (cc : ConfigCheck) : Container :=
  reloader_container (cc_reloader_image cc) (cc_image_pull_policy cc) (cc_container_security_context cc)
    (cc_reloader_resources cc) "init-config-reloader" "--init-mode=true".

Definition createVectorConfigCheckPod (cc : ConfigCheck) : Object :=
  let container :=
    {| cont_name := "config-check"; cont_image := cc_pod_image cc;
       cont_args := ["--require-healthy=false"; "validate"; "/etc/vector/*.json"];
       cont_env := generateVectorConfigCheckEnvs cc; cont_env_from := cc_env_from cc; cont_ports := [];
       cont_mounts := generateVectorConfigCheckVolumeMounts cc; cont_resources := cc_pod_resources cc;
       cont_settings := [("securityContext", cc_container_security_context cc)] |} in
  {| o_meta := check_meta cc (getNameVectorConfigCheck cc) (cc_pod_annotations cc) (owned_by_check cc);
     o_body := BPod {|
       ps_volumes := generateVectorConfigCheckVolume cc;
       ps_init_containers := if cc_compressed cc then [check_reloader cc] else [];
       ps_containers := [container];
       ps_settings := [("serviceAccountName", "vector-configcheck"); ("securityContext", cc_security_context cc);
                       ("imagePullSecrets", cc_image_pull_secrets cc); ("tolerations", cc_pod_tolerations cc);
                       ("restartPolicy", "Never")] |} |}.
End objects.

(** ** Waiting for the result *)

(** The log of a failed pod is what the API server answers. *)
Inductive pod_phase := PodSucceeded | PodFailed (logs : result string) | PodOtherPhase.

Record pod_state := {
  pod_deleting : bool;
  pod_ph : pod_phase;
  pod_waiting : list (option (string * string))  (** reason and message, init containers first *)
}.

(** The branches the [select] takes: an event of the watch, its end, the end of the
    caller's context, the timer. *)
Inductive check_event :=
| EvAdded (p : pod_state)
| EvModified (p : pod_state)
| EvDeleted (p : pod_state)
| EvOtherType (p : pod_state)
| EvNotPod
| EvClosed
| EvDone (cause : err)
| EvTimer.

(** [unstartableReason] *)
Definition unstartableReason (p : pod_state) : option string :=
  head (omap (λ w,
    match w with
    | Some (reason, message) =>
        if bool_decide (reason = "CreateContainerConfigError" ∨ reason = "InvalidImageName")
        then Some ("configcheck pod cannot start, " +:+ reason +:+ ": " +:+ message) else None
    | None => None
    end) (pod_waiting p)).

(** The reason and the error a check ends with. *)
Notation verdict := (string * option err)%type.

(** What one event decides, if anything. *)
Definition observe (p : pod_state) : option verdict :=
  if pod_deleting p then None else
  match pod_ph p with
  | PodSucceeded => Some ("", None)
  | PodFailed (Ok logs) => Some (logs, Some ErrValidation)
  | PodFailed (Err e) => Some ("", Some e)
  | PodOtherPhase => (λ reason, (reason, Some ErrValidation)) <$> unstartableReason p
  end.

Definition on_event (name : string) (e : check_event) : option verdict :=
  match e with
  | EvAdded p | EvModified p => observe p
  | EvDeleted _ => Some ("", Some (ErrText ("configcheck: pod " +:+ name +:+ " was deleted before producing a result")))
  | EvOtherType _ | EvNotPod => None
  | EvClosed => Some ("", Some (ErrText ("configcheck: watch for pod " +:+ name +:+ " closed before a result")))
  | EvDone cause => Some ("", Some (ErrWrap "configcheck: " (ErrWrapSentinel cause (" while waiting for pod " +:+ name))))
  | EvTimer => Some ("", Some ErrConfigcheckTimeout)
  end.

(** The loop; the timer fires if nothing else happens any more. *)
Fixpoint wait_loop (name : string) (events : list check_event) : verdict :=
  match events with
  | [] => ("", Some ErrConfigcheckTimeout)
  | e :: events => match on_event name e with Some v => v | None => wait_loop name events end
  end.

(** [watch] is the error of establishing the watch. *)
Definition getCheckResult (name : string) (watch : option err) (events : list check_event) : verdict :=
  match watch with Some e => ("", Some e) | None => wait_loop name events end.

(** ** The check *)

Section run.
Context `{GoRuntime, KubeApi}.

Definition config_key (cc : ConfigCheck) : ObjKey := (KSecret, cc_namespace cc, getNameVectorConfigCheck cc).
Definition assets_key (cc : ConfigCheck) : ObjKey :=
  (KSecret, cc_namespace cc, getNameVectorConfigCheckSecretAssets cc).

Definition has_assets (cc : ConfigCheck) : bool := bool_decide (0 < size (cc_assets cc))%nat.

(** Creating the objects and waiting. *)
Definition check_body (cc : ConfigCheck) (watch : option err) (events : list check_event) : K verdict :=
  r ← k_try (apply (createVectorConfigCheckConfig cc));
  match r with Err e => mret ("", Some e) | Ok _ =>
  r ← k_try (k_when (has_assets cc) (apply (createVectorConfigCheckSecretAssets cc)));
  match r with Err e => mret ("", Some e) | Ok _ =>
  r ← k_try (CreatePod (createVectorConfigCheckPod cc));
  match r with Err e => mret ("", Some e) | Ok _ =>
  mret (match getCheckResult (getNameVectorConfigCheck cc) watch events with
        | (reason, Some e) => if errors_as (λ e, bool_decide (e = ErrValidation)) e then (reason, Some e) else ("", Some e)
        | (reason, None) => (reason, None)
        end)
  end end end.

(** One deletion, and the error it leaves. *)
Definition cleanup_one (key : ObjKey) : K (list err) :=
  r ← k_try (k_delete key);
  mret (match r with Ok _ => [] | Err e => if is_not_found e then [] else [e] end).

Definition errors_Join (l : list err) : option err :=
  match l with
  | [] => None
  | e :: l => Some (fold_left ErrJoin l e)
  end.

Definition cleanup (cc : ConfigCheck) : K (option err) :=
  e1 ← cleanup_one (config_key cc);
  e2 ← (if has_assets cc then cleanup_one (assets_key cc) else mret []);
  mret (errors_Join (e1 ++ e2)).

(** The check and the deferred cleanup, whose error joins the check's own. *)
Definition check_and_clean (cc : ConfigCheck) (watch : option err) (events : list check_event) : K verdict :=
  '(reason, err) ← check_body cc watch events;
  cleanupErr ← cleanup cc;
  mret (match cleanupErr, err with
        | None, _ => (reason, err)
        | Some c, None => (reason, Some c)
        | Some c, Some e => (reason, Some (ErrJoin e c))
        end).

(** [Run]; [hash] is what [randStringRunes] returns. *)
Definition Run (cc : ConfigCheck) (hash : string) (watch : option err) (events : list check_event) : K verdict :=
  terminating ← k_try (NamespaceIsTerminating (cc_namespace cc));
  match terminating with
  | Err e => mret ("", Some e)
  | Ok true => mret ("", Some ErrConfigcheckSkipped)
  | Ok false =>
      rbac ← k_try (apply (createVectorConfigCheckServiceAccount cc));
      match rbac with
      | Err e => if is_already_exists e then check_and_clean (with_hash hash cc) watch events
                 else mret ("", Some e)
      | Ok _ => check_and_clean (with_hash hash cc) watch events
      end
  end.
End run.

(** ** The orphan sweep *)

(** A Secret of the listing; creation times are to the second. *)
Record listed_secret := { ls_key : NamespacedName; ls_labels : gmap string string; ls_created : Z }.

Definition minOrphanAge : Z := 60 * second.

Section sweep.
Context `{GoRuntime, KubeApi}.

Definition sweep_window (configCheckTimeout : Z) : Z :=
  if configCheckTimeout <? minOrphanAge then minOrphanAge else configCheckTimeout.

(** The deletions, going on after a failure. *)
Fixpoint sweep_loop (cutoff : Z) (l : list listed_secret) : K (list err) :=
  match l with
  | [] => mret []
  | s :: l =>
      if negb (ls_created s <? cutoff) then sweep_loop cutoff l else
      e1 ← cleanup_one (KSecret, (ls_key s).1, (ls_key s).2);
      e2 ← sweep_loop cutoff l;
      mret (e1 ++ e2)
  end.

(** [secrets] is the listing of the cluster, [None] an error of it; the server
    selects by the labels every check's Secret carries. *)
Definition SweepOrphans (secrets : result (list listed_secret)) (configCheckTimeout : Z) : K (option err) :=
  match secrets with
  | Err e => mret (Some e)
  | Ok l =>
      now ← k_now;
      errs ← sweep_loop (now - sweep_window configCheckTimeout)
               (List.filter (λ s, MatchLabels basic_check_labels (ls_labels s)) l);
      mret (errors_Join errs)
  end.

(** [CleanAll]: every Secret of the check's labels in its namespace, up to the first
    failure; an error of [secrets] is one of the selector or the listing. *)
Definition CleanAll (cc : ConfigCheck) (secrets : result (list listed_secret)) : K unit :=
  match secrets with
  | Err e => k_fail e
  | Ok l =>
      k_iter (λ s, k_delete (KSecret, (ls_key s).1, (ls_key s).2))
        (List.filter (λ s, MatchLabels (labelsForVectorConfigCheck cc) (ls_labels s) &&
                           bool_decide ((ls_key s).1 = cc_namespace cc)) l)
  end.
End sweep.

(** ** What a check leaves behind *)

Section frame.
Context `{GoRuntime, KubeApi}.
Context (cc : ConfigCheck) (hash : string).

Notation cc' := (with_hash hash cc).

(** The objects of the check. *)
Definition own_keys : list ObjKey :=
  [(KServiceAccount, cc_namespace cc, "vector-configcheck"); config_key cc'; assets_key cc';
   (KPod, cc_namespace cc, getNameVectorConfigCheck cc')].

(** Everything else is as it was. *)
Definition untouched (w0 w : world) : Prop :=
  w_pipelines w = w_pipelines w0 ∧ w_status w = w_status w0 ∧
  ∀ k, k ∉ own_keys → w_objects w !! k = w_objects w0 !! k.

Lemma untouched_insert w0 w k o :
  untouched w0 w → k ∈ own_keys → untouched w0 (set_objects <[k := o]> w).
Proof.
  intros (Hp & Hs & Ho) Hk. split_and!; [done|done|]. intros k' Hk'. simpl.
  rewrite lookup_insert_ne by (intros ->; done). by apply Ho.
Qed.

Lemma untouched_delete w0 w k :
  untouched w0 w → k ∈ own_keys → untouched w0 (set_objects (delete k) w).
Proof.
  intros (Hp & Hs & Ho) Hk. split_and!; [done|done|]. intros k' Hk'. simpl.
  rewrite lookup_delete_ne by (intros ->; done). by apply Ho.
Qed.

Lemma triple_own_apply w0 P o :
  supported o → key_of o ∈ own_keys → triple (untouched w0) P (apply o) (λ _ _, True).
Proof.
  intros Hs Hk. unfold apply. eapply triple_bind.
  - apply triple_resource with (Q := λ _ _, True); [done|]. intros w Hw _. cbv zeta. split; [|done].
    by apply untouched_insert.
  - intros ?. by apply triple_ret.
Qed.

Lemma triple_own_pod w0 P o :
  key_of o ∈ own_keys → triple (untouched w0) P (CreatePod o) (λ _ _, True).
Proof.
  intros Hk. unfold CreatePod. eapply triple_bind.
  - apply triple_try, triple_create with (Q := λ _ _, True). intros w Hw _ _. cbv zeta. split; [|done].
    by apply untouched_insert.
  - intros [u|e]; [by apply triple_ret|]. destruct (is_already_exists e); [by apply triple_ret | by apply triple_fail].
Qed.

(** A deletion, with what an empty list of errors says. *)
Lemma triple_cleanup_one w0 P key :
  key ∈ own_keys →
  (∀ w k, P w → P (set_objects (delete k) w)) →
  triple (untouched w0) P (cleanup_one key) (λ errs w, P w ∧ (errs = [] → w_objects w !! key = None)).
Proof.
  intros Hk HP c Hc Hpre. unfold cleanup_one, k_try, k_delete, mbind, K_bind, k_bind.
  pose proof (api_delete_spec key c) as Hs. destruct (api_delete key c) as [[[]|e] c1]; simpl in *.
  - rewrite Hs. split; [by constructor; [apply untouched_delete|]|]. split; [by apply untouched_delete|].
    split; [by apply HP|]. intros _. simpl. apply lookup_delete_eq.
  - destruct (is_not_found e); [destruct Hs as [Hn ->]|destruct Hs as [->| ->]];
      (split; [constructor; auto using untouched_delete|]); (split; [auto using untouched_delete|]); (split; [by auto|]); done.
Qed.
End frame.

(** ** What a verdict says *)

(** The event a passing check ends with: the pod, not being deleted, has succeeded,
    and nothing before it decided otherwise. *)
Definition saw_success (name : string) (events : list check_event) : Prop :=
  ∃ before e p after, events = before ++ e :: after ∧ (e = EvAdded p ∨ e = EvModified p) ∧
    pod_deleting p = false ∧ pod_ph p = PodSucceeded ∧ Forall (λ e, on_event name e = None) before.

Definition is_validation (e : err) : bool := errors_as (λ e, bool_decide (e = ErrValidation)) e.

Lemma observe_success p reason :
  observe p = Some (reason, None) → reason = "" ∧ pod_deleting p = false ∧ pod_ph p = PodSucceeded.
Proof.
  unfold observe. destruct (pod_deleting p); [done|].
  destruct (pod_ph p) as [|[]|]; [naive_solver..|]. by destruct (unstartableReason p).
Qed.

Lemma wait_loop_success name events reason :
  wait_loop name events = (reason, None) → reason = "" ∧ saw_success name events.
Proof.
  induction events as [|e events IH]; simpl; [done|]. destruct (on_event name e) as [v|] eqn:He.
  - intros ->. assert (∃ p, (e = EvAdded p ∨ e = EvModified p) ∧ observe p = Some (reason, None)) as (p & Hp & Ho).
    { destruct e as [p|p| | | | | |]; try discriminate He; exists p; auto. }
    apply observe_success in Ho as (-> & Hd & Hs). split; [done|].
    exists [], e, p, events. by repeat split.
  - intros (-> & before & e' & p & after & -> & ? & ? & ? & Hb)%IH. split; [done|].
    exists (e :: before), e', p, after. by repeat split; [..|constructor].
Qed.

Lemma getCheckResult_success name watch events reason :
  getCheckResult name watch events = (reason, None) →
  reason = "" ∧ watch = None ∧ saw_success name events.
Proof. destruct watch; [done|]. intros [-> ?]%wait_loop_success. by repeat split. Qed.

Lemma errors_Join_None l : errors_Join l = None → l = [].
Proof. by destruct l. Qed.

Lemma untouched_refl `{GoRuntime} cc hash w : untouched cc hash w w.
Proof. by repeat split. Qed.

Section verdicts.
Context `{GoRuntime, KubeApi}.

(** A verdict without an error is a success of the pod, and a reason comes with a
    validation error. *)
Definition sound_verdict (name : string) (watch : option err) (events : list check_event) (v : verdict) : Prop :=
  (v.2 = None → watch = None ∧ saw_success name events) ∧
  (v.1 ≠ "" → ∃ e, v.2 = Some e ∧ is_validation e = true).

Lemma sound_error name watch events e : sound_verdict name watch events ("", Some e).
Proof. by split. Qed.

Lemma triple_check_body cc hash w0 watch events :
  triple (untouched cc hash w0) (λ _, True) (check_body (with_hash hash cc) watch events)
    (λ v _, sound_verdict (getNameVectorConfigCheck (with_hash hash cc)) watch events v).
Proof.
  unfold check_body. eapply triple_bind; [apply triple_try, triple_own_apply; [done|by right; left]|].
  intros [[]|e]; [|by apply triple_ret; intros; apply sound_error].
  eapply triple_bind.
  { apply triple_try, triple_when; [|by instantiate (1 := λ _ _, True)].
    intros _. apply triple_own_apply; [done|by right; right; left]. }
  intros [[]|e]; [|by apply triple_ret; intros; apply sound_error].
  eapply triple_bind; [apply triple_try, triple_own_pod; by right; right; right; left|].
  intros [[]|e]; [|by apply triple_ret; intros; apply sound_error].
  apply triple_ret. intros w _ _. set (name := getNameVectorConfigCheck _).
  destruct (getCheckResult name watch events) as [reason [e|]] eqn:Hr.
  - destruct (errors_as _ e) eqn:He; [|apply sound_error]. split; [done|]. intros _. by exists e.
  - apply getCheckResult_success in Hr as [-> Hr]. by split.
Qed.

(** The Secrets of the check are gone. *)
Definition left_nothing (cc : ConfigCheck) (w : world) : Prop :=
  w_objects w !! config_key cc = None ∧ (has_assets cc = true → w_objects w !! assets_key cc = None).

Lemma has_assets_hash hash cc : has_assets (with_hash hash cc) = has_assets cc.
Proof. done. Qed.

Lemma triple_cleanup cc hash w0 (φ : Prop) :
  triple (untouched cc hash w0) (λ _, φ) (cleanup (with_hash hash cc))
    (λ e w, φ ∧ (e = None → left_nothing (with_hash hash cc) w)).
Proof.
  unfold cleanup. set (cc' := with_hash hash cc). eapply triple_bind.
  { apply (triple_cleanup_one cc hash w0 (λ _, φ)); [by right; left | done]. }
  intros e1. simpl. destruct (has_assets cc') eqn:Ha.
  - eapply triple_bind.
    { apply (triple_cleanup_one cc hash w0 (λ w, φ ∧ (e1 = [] → w_objects w !! config_key cc' = None)));
        [by right; right; left|].
      intros w k [? Hk]. split; [done|]. intros He. simpl. destruct (decide (k = config_key cc')) as [->|].
      - apply lookup_delete_eq.
      - rewrite lookup_delete_ne by done. auto. }
    intros e2. apply triple_ret. intros w _ [[Hφ H1] H2]. split; [done|].
    intros [-> ->]%errors_Join_None%app_eq_nil. split; auto.
  - eapply triple_bind; [by apply triple_ret with (Q := λ e2 w, e2 = [] ∧ φ ∧ (e1 = [] → w_objects w !! config_key cc' = None))|].
    intros e2. apply triple_ret. intros w _ (-> & Hφ & H1). split; [done|].
    intros He%errors_Join_None. rewrite app_nil_r in He. split; [auto|]. by rewrite Ha.
Qed.


(** The check itself does not fail: what goes wrong is in its verdict. *)
Definition total {A} (m : K A) : Prop := ∀ c, ∃ a, (m c).2 = Ok a.

Lemma total_ret {A} (a : A) : total (mret a).
Proof. intros c. by exists a. Qed.

Lemma total_try {A} (m : K A) : total (k_try m).
Proof. intros c. unfold k_try. destruct (m c) as [[tr c'] r]. by exists r. Qed.

Lemma total_bind {A B} (m : K A) (f : A → K B) : total m → (∀ a, total (f a)) → total (m ≫= f).
Proof.
  intros Hm Hf c. unfold mbind, K_bind, k_bind. destruct (Hm c) as [a Ha].
  destruct (m c) as [[tr c1] r]. simpl in Ha. subst r. destruct (Hf a c1) as [b Hb].
  destruct (f a c1) as [[tr' c2] r]. simpl in Hb. subst r. by exists b.
Qed.

Ltac total := repeat first [apply total_try | apply total_ret | apply total_bind; [|intros ?] | case_match].

Lemma cleanup_one_total key : total (cleanup_one key).
Proof. unfold cleanup_one. total. Qed.

Lemma Run_total cc hash watch events : total (Run cc hash watch events).
Proof. unfold Run, check_and_clean, check_body, cleanup, cleanup_one. total. Qed.

Definition run_post (cc : ConfigCheck) (hash : string) (watch : option err) (events : list check_event)
    (v : verdict) (w : world) : Prop :=
  sound_verdict (getNameVectorConfigCheck (with_hash hash cc)) watch events v ∧
  (v.2 = None → left_nothing (with_hash hash cc) w).

Lemma is_validation_join e e' : is_validation e = true → is_validation (ErrJoin e e') = true.
Proof.
  intros (x & Hx & Hv)%existsb_exists. apply existsb_exists. exists x. split; [|done].
  right. apply in_or_app. by left.
Qed.

Lemma run_post_error cc hash watch events e w : run_post cc hash watch events ("", Some e) w.
Proof. by split; [apply sound_error|]. Qed.

Lemma triple_check_and_clean cc hash watch events w0 P :
  triple (untouched cc hash w0) P (check_and_clean (with_hash hash cc) watch events)
    (run_post cc hash watch events).
Proof.
  unfold check_and_clean. eapply triple_bind; [eapply triple_pre; [|apply triple_check_body]; done|].
  intros [reason e]. eapply triple_bind; [apply triple_cleanup|]. intros ce. apply triple_ret.
  intros w _ [[Hv1 Hv2] Hc]. simpl in *. destruct ce as [ce|], e as [e|]; split; simpl; try done.
  - split; [done|]. intros (e' & [= <-] & He)%Hv2. exists (ErrJoin e ce). split; [done|].
    by apply is_validation_join.
  - split; [done|]. by intros (e' & ? & _)%Hv2.
Qed.

Lemma triple_Run cc hash watch events w0 :
  triple (untouched cc hash w0) (λ _, True) (Run cc hash watch events) (run_post cc hash watch events).
Proof.
  pose proof (run_post_error cc hash watch events) as Herr. unfold Run.
  eapply triple_bind; [apply triple_try|].
  { unfold NamespaceIsTerminating. eapply triple_bind; [by apply triple_find with (Q := λ _ _, True)|].
    intros []; by apply triple_ret with (Q := λ _ _, True). }
  intros [[]|e]; [by apply triple_ret | | by apply triple_ret].
  eapply triple_bind; [apply triple_try, triple_own_apply; [done | by left]|].
  intros [[]|e]; [apply triple_check_and_clean|]. destruct (is_already_exists e); [apply triple_check_and_clean | by apply triple_ret].
Qed.
End verdicts.

Section claims.
Context `{GoRuntime, KubeApi}.

(** C33: a configuration check, whatever fails and in whatever order the events come:
    it ends with a verdict, touches nothing but its own service account, Secrets and
    pod in any state on the way, reports success only when its pod was seen to
    succeed without being deleted and its Secrets (with the plaintext assets) are
    gone, and gives a reason only together with a validation error. *)
Theorem configcheck_sound cc hash watch events c :
  let '(tr, c', r) := Run cc hash watch events c in
  let cc' := with_hash hash cc in
  Forall (untouched cc hash (seen c)) tr ∧ untouched cc hash (seen c) (seen c') ∧
  ∃ v, r = Ok v ∧ sound_verdict (getNameVectorConfigCheck cc') watch events v ∧
       (v.2 = None → left_nothing cc' (seen c')).
Proof.
  pose proof (triple_Run cc hash watch events (seen c) c) as Ht.
  pose proof (Run_total cc hash watch events c) as [v Hv].
  destruct (Run cc hash watch events c) as [[tr c'] r]. simpl in Hv. subst r.
  destruct Ht as (Htr & Hend & Hs & Hl); [by apply untouched_refl | done|]. split; [done|].
  split; [done|]. by exists v.
Qed.
End claims.

(** ** What a sweep removes *)

Section sweep_claims.
Context `{GoRuntime, KubeApi}.

Definition secret_key (s : listed_secret) : ObjKey := (KSecret, (ls_key s).1, (ls_key s).2).

(** The Secrets a sweep at [now] is after. *)
Definition stale (timeout now : Z) (l : list listed_secret) : list listed_secret :=
  List.filter (λ s, MatchLabels basic_check_labels (ls_labels s) &&
                    (ls_created s <? now - Z.max timeout minOrphanAge)) l.

Lemma stale_filter timeout now l :
  List.filter (λ s, ls_created s <? now - Z.max timeout minOrphanAge)
    (List.filter (λ s, MatchLabels basic_check_labels (ls_labels s)) l) = stale timeout now l.
Proof.
  unfold stale. induction l as [|s l IH]; [done|]. simpl.
  destruct (MatchLabels basic_check_labels (ls_labels s)); simpl; [|done]. by rewrite IH.
Qed.

Lemma sweep_window_max timeout : sweep_window timeout = Z.max timeout minOrphanAge.
Proof. unfold sweep_window. destruct (timeout <? minOrphanAge) eqn:Hl; lia. Qed.

Definition gone_among (keys : list ObjKey) (w0 w : world) : Prop :=
  w_pipelines w = w_pipelines w0 ∧ w_status w = w_status w0 ∧
  ∀ k, w_objects w !! k = w_objects w0 !! k ∨ k ∈ keys ∧ w_objects w !! k = None.

Lemma gone_among_delete keys w0 w k :
  k ∈ keys → gone_among keys w0 w → gone_among keys w0 (set_objects (delete k) w).
Proof.
  intros Hk (Hp & Hs & Ho). split_and!; [done|done|]. intros k'. simpl.
  destruct (decide (k' = k)) as [->|]; [right; split; [done|]; apply lookup_delete_eq|].
  rewrite lookup_delete_ne by done. apply Ho.
Qed.

(** A deletion makes one call and, unless it leaves an error, the Secret is absent. *)
Lemma cleanup_one_run key c :
  let '(tr, c', r) := cleanup_one key c in
  tr = [seen c'] ∧ (seen c' = seen c ∨ seen c' = set_objects (delete key) (seen c)) ∧
  ∃ errs, r = Ok errs ∧ (errs = [] → w_objects (seen c') !! key = None).
Proof.
  unfold cleanup_one, k_try, k_delete, mbind, K_bind, k_bind.
  pose proof (api_delete_spec key c) as Hs. destruct (api_delete key c) as [[[]|e] c1]; simpl in *.
  - rewrite Hs. split; [done|]. split; [by right|]. eexists. split; [done|]. intros _. apply lookup_delete_eq.
  - destruct (is_not_found e) eqn:He; simpl; (split; [done|]).
    + destruct Hs as [Hn ->]. split; [by left|]. by eexists.
    + split; [done|]. by eexists.
Qed.

Lemma sweep_loop_run cutoff keys w0 l c :
  let due := List.filter (λ s, ls_created s <? cutoff) l in
  (∀ s, s ∈ due → secret_key s ∈ keys) →
  gone_among keys w0 (seen c) →
  let '(tr, c', r) := sweep_loop cutoff l c in
  length tr = length due ∧ Forall (gone_among keys w0) tr ∧ gone_among keys w0 (seen c') ∧
  (∀ k, w_objects (seen c) !! k = None → w_objects (seen c') !! k = None) ∧
  ∃ errs, r = Ok errs ∧ (errs = [] → ∀ s, s ∈ due → w_objects (seen c') !! secret_key s = None).
Proof.
  revert c. induction l as [|s l IH]; intros c; cbv zeta; simpl; intros Hkeys Hc.
  - split_and!; [done|by constructor|done|done|]. exists []. split; [done|]. by intros _ s ?%not_elem_of_nil.
  - destruct (ls_created s <? cutoff) eqn:Hd; simpl.
    2: by apply IH.
    pose proof (cleanup_one_run (KSecret, (ls_key s).1, (ls_key s).2) c) as Hone.
    unfold mbind, K_bind, k_bind.
    destruct (cleanup_one _ c) as [[tr1 c1] r1]. destruct Hone as (-> & Hc1 & errs1 & -> & Hn1).
    assert (Hc1' : gone_among keys w0 (seen c1)).
    { destruct Hc1 as [->| ->]; [done|]. apply gone_among_delete; [|done]. apply Hkeys. by left. }
    assert (Hkeep1 : ∀ k, w_objects (seen c) !! k = None → w_objects (seen c1) !! k = None).
    { intros k Hk. destruct Hc1 as [->| ->]; [done|]. simpl. rewrite lookup_delete_None. by right. }
    specialize (IH c1 ltac:(intros s' Hs'; apply Hkeys; by right) Hc1').
    destruct (sweep_loop cutoff l c1) as [[tr2 c2] r2].
    destruct IH as (Hlen & Htr & Hc2 & Hkeep & errs2 & -> & Hn2). simpl.
    rewrite app_nil_r. split_and!; [by rewrite Hlen|by constructor|done|by auto|].
    exists (errs1 ++ errs2). split; [done|]. intros [-> ->]%app_eq_nil s' [->|Hs']%elem_of_cons; auto.
Qed.

(** a sweep only ever removes Secrets labelled as a check's whose (truncated)
    creation time is further back than the check timeout, or a minute if that is longer: in every world
    it passes through all else is as before; it attempts each of them, going on after
    a failure, and returns without an error only when all of them are gone. A Secret
    created less than the window less one second ago is none of them. *)
Lemma sweep_spares_running l timeout c :
  let now := (api_now c).1 in
  let due := stale timeout now l in
  let '(tr, c', r) := SweepOrphans (Ok l) timeout c in
  length tr = length due ∧
  Forall (gone_among (secret_key <$> due) (seen c)) tr ∧
  gone_among (secret_key <$> due) (seen c) (seen c') ∧
  (r = Ok None → ∀ s, s ∈ due → w_objects (seen c') !! secret_key s = None) ∧
  (∀ s t, ls_created s = metav1_time t → now - t ≤ Z.max timeout minOrphanAge - second → s ∉ due).
Proof.
  cbv zeta. unfold SweepOrphans, mbind, K_bind, k_bind, k_now. destruct (api_now c) as [now c0] eqn:Hnow.
  pose proof (api_now_spec c) as Hc0. rewrite Hnow in Hc0. simpl in Hc0 |- *. rewrite sweep_window_max.
  rewrite <- stale_filter. set (l' := List.filter _ l).
  pose proof (sweep_loop_run (now - Z.max timeout minOrphanAge) (secret_key <$> List.filter
    (λ s, ls_created s <? now - Z.max timeout minOrphanAge) l') (seen c) l' c0) as Hrun. cbv zeta in Hrun.
  assert (Hyoung : ∀ s t, ls_created s = metav1_time t → now - t ≤ Z.max timeout minOrphanAge - second →
    s ∉ List.filter (λ s, ls_created s <? now - Z.max timeout minOrphanAge) l').
  { intros s t Hs Ht. rewrite list_elem_of_In, filter_In. intros [_ Hlt%Z.ltb_lt].
    unfold metav1_time in Hs. pose proof (Z.div_mod t second ltac:(done)).
    pose proof (Z.mod_pos_bound t second ltac:(done)). lia. }
  destruct (sweep_loop _ l' c0) as [[tr c'] r].
  destruct Hrun as (Hlen & Htr & Hc' & _ & errs & -> & Hgone).
  { intros s Hs. apply list_elem_of_fmap. by exists s. }
  { rewrite Hc0. by repeat split; [..|left]. }
  rewrite app_nil_r. split_and!; [done..| |done]. intros [= ->%errors_Join_None]. auto.
Qed.
End sweep_claims.
