(* ===== verification/Round.v ===== *)
(** * What the rounds of agents and aggregators share

    The answers a round gets from the rest of the world, the check of a configuration
    and the decision to prune, which [src/internal/controller/vector_controller.go] and
    the reconcilers of the aggregators spell out alike; and rules for code that leaves
    alone what a view shows of the world. *)

From S2P Require Export ConfigCheck Published AgentController.

(** What the rest of the world answers in a round: the listing of the pipelines, the
    reads of secrets, the discovery API, and the run of the check's pod. *)
Record round_inputs := {
  ri_lister : PipelineLister;
  ri_getter : SecretGetter;
  ri_monitoring : result bool;
  ri_hash : string;
  ri_watch : option err;
  ri_events : list check_event
}.

Section round.
Context `{GoRuntime, Libraries, KubeApi}.

(** The check of a configuration that is not the one applied last; whether to go on. *)
Definition check_config (timeout : Z) (inp : round_inputs) (vc : VectorCommon) (st : WorkloadStatus)
    (name namespace : string) (cfg : VectorConfig) (bytes : string) : K bool :=
  if cc_disabled (vc_config_check vc) ||
     bool_decide (ws_last_applied_config_hash st = Some (hash_Get bytes)) then mret true else
  '(reason, err) ← Run (new_check bytes vc name namespace timeout ConfigCheckInitiatorVector (SecretAssets cfg))
      (ri_hash inp) (ri_watch inp) (ri_events inp);
  match err with
  | None => mret true
  | Some e =>
      if is_validation e then _ ← failed_patch st reason; mret false
      else if errors_as (λ e, bool_decide (e = ErrConfigcheckSkipped)) e then mret false
      else k_fail e
  end.

(** Whether to prune, and when to look again if not; [drops] is whether pruning would
    drop a key. *)
Definition prune_when (st : WorkloadStatus) (unchanged drops : bool) : K (bool * Z) :=
  if drops
  then now ← k_now; mret (secretAssetsPruneDecision now unchanged (ws_last_config_published_at st))
  else mret (true, 0).
End round.

(** ** Quiet code

    Code that leaves alone what a view shows of the world: [x] all along. *)
Section quiet.
Context `{KubeApi}.
Context {V : Type} (vw : world → V) (x : V).

Definition quiet {A} (m : K A) (Q : A → Prop) : Prop :=
  triple (λ w, vw w = x) (λ _, True) m (λ a _, Q a).

Lemma quiet_bind {A B} (m : K A) (f : A → K B) R Q :
  quiet m R → (∀ a, R a → quiet (f a) Q) → quiet (m ≫= f) Q.
Proof.
  intros Hm Hf. eapply triple_bind; [exact Hm|]. intros a c Hc Ha. by apply Hf.
Qed.

Lemma quiet_then {A B} (m : K A) (f : A → K B) Q :
  quiet m (λ _, True) → (∀ a, quiet (f a) Q) → quiet (m ≫= f) Q.
Proof. intros Hm Hf. by eapply quiet_bind. Qed.

Lemma quiet_post {A} (m : K A) (Q Q' : A → Prop) : (∀ a, Q a → Q' a) → quiet m Q → quiet m Q'.
Proof. intros HQ Hm. eapply triple_post; [|exact Hm]. auto. Qed.

Lemma quiet_ret {A} (a : A) (Q : A → Prop) : Q a → quiet (mret a) Q.
Proof. intros HQ. by apply triple_ret. Qed.

Lemma quiet_fail {A} e (Q : A → Prop) : quiet (k_fail e) Q.
Proof. apply triple_fail. Qed.

Lemma quiet_lift {A} (r : result A) : quiet (k_lift r) (λ a, r = Ok a).
Proof. by apply triple_lift. Qed.

Lemma quiet_now : quiet k_now (λ _, True).
Proof. by apply triple_now. Qed.

(** A read, of what the view knows. *)
Lemma quiet_find k (Q : option Object → Prop) :
  (∀ w, vw w = x → Q (w_objects w !! k)) → quiet (k_find k) Q.
Proof. intros HQ. apply triple_find. auto. Qed.

Lemma quiet_iter {A} (f : A → K unit) l : (∀ a, a ∈ l → quiet (f a) (λ _, True)) → quiet (k_iter f l) (λ _, True).
Proof.
  induction l as [|a l IH]; intros Hf; simpl; [by apply quiet_ret|].
  apply quiet_then; [apply Hf; by left|]. intros []. apply IH. intros b Hb. apply Hf. by right.
Qed.

Lemma quiet_when b (m : K unit) : quiet m (λ _, True) → quiet (k_when b m) (λ _, True).
Proof. intros Hm. destruct b; [done | by apply quiet_ret]. Qed.

(** A write or a deletion the view does not show. *)
Lemma quiet_apply `{GoRuntime} o :
  supported o → (∀ o' w, vw (set_objects <[key_of o := o']> w) = vw w) → quiet (apply o) (λ _, True).
Proof.
  intros Hs Hvw. unfold apply. apply quiet_then; [|intros ?; by apply quiet_ret].
  apply triple_resource; [done|]. intros w Hw _. cbv zeta. by rewrite Hvw.
Qed.

Lemma quiet_delete_ignore k :
  (∀ w, vw (set_objects (delete k) w) = vw w) → quiet (k_delete_ignore k) (λ _, True).
Proof. intros Hvw. apply triple_delete_ignore. intros w Hw _. by rewrite Hvw. Qed.

Lemma quiet_delete k : (∀ w, vw (set_objects (delete k) w) = vw w) → quiet (k_delete k) (λ _, True).
Proof. intros Hvw. apply triple_delete; [|done]. intros w Hw _. by rewrite Hvw. Qed.

(** Quiet code keeps what holds of the view. *)
Lemma quiet_bind_triple {A B} (J : V → Prop) (m : K A) (f : A → K B) R Q :
  J x → quiet m R →
  (∀ a, R a → triple (λ w, J (vw w)) (λ w, vw w = x) (f a) Q) →
  triple (λ w, J (vw w)) (λ w, vw w = x) (m ≫= f) Q.
Proof.
  intros HJ Hm Hf. eapply triple_bind with (R := λ a w, vw w = x ∧ R a).
  - intros c Hc Hx. specialize (Hm c Hx I). destruct (m c) as [[tr c'] r].
    destruct Hm as (Htr & Hx' & Hr). split_and!.
    + eapply Forall_impl; [exact Htr|]. by intros w ->.
    + by rewrite Hx'.
    + by destruct r.
  - intros a. apply triple_pure. auto.
Qed.

Context (Hpipes : ∀ f w, vw (set_pipelines f w) = vw w) (Hstatus : ∀ f w, vw (set_status f w) = vw w).

Lemma quiet_patch sp : quiet (PatchStatus sp) (λ _, True).
Proof using Hpipes. apply triple_patch. intros w Hw _. cbv zeta. by rewrite Hpipes. Qed.

Lemma quiet_patch_status obj base : quiet (PatchWorkloadStatus obj base) (λ _, True).
Proof using Hstatus. apply triple_patch_status. intros w Hw _. cbv zeta. by rewrite Hstatus. Qed.

Context `{GoRuntime, Libraries}.

Lemma quiet_lift_patch (r : result StatusPatch) : quiet (sp ← k_lift r; PatchStatus sp) (λ _, True).
Proof using Hpipes. eapply quiet_bind; [apply quiet_lift|]. intros sp _. apply quiet_patch. Qed.

Lemma quiet_write_attribution p reason : quiet (writeAttributionReasonIfChanged p reason) (λ _, True).
Proof using Hpipes.
  unfold writeAttributionReasonIfChanged. case_bool_decide; [by apply quiet_ret | apply quiet_lift_patch].
Qed.

Lemma quiet_mark waiting w : quiet (markWaitingPipelines waiting w) (λ _, True).
Proof using Hpipes.
  unfold markWaitingPipelines. case_bool_decide; [by apply quiet_ret|]. apply quiet_iter. intros p _.
  apply quiet_write_attribution.
Qed.

Lemma quiet_reinstate ps : quiet (reinstatePipelines ps) (λ _, True).
Proof using Hpipes. apply quiet_iter. intros p _. apply quiet_lift_patch. Qed.

(** The selection is taken from the pool in its order. *)
Lemma quiet_select w retry cv sv s p l :
  sel_result s `sublist_of` l →
  quiet (select_step w retry cv sv s p) (λ s', sel_result s' `sublist_of` (l ++ [p])).
Proof using Hpipes.
  intros Hs. assert (Hskip : sel_result s `sublist_of` (l ++ [p])) by (by apply sublist_inserts_r).
  assert (Htake : sel_result s ++ [p] `sublist_of` l ++ [p]) by (by apply sublist_app).
  unfold select_step. destruct (cv !! _) as [col|].
  { apply quiet_then; [apply quiet_write_attribution|]. intros []. by apply quiet_ret. }
  destruct (sv !! _) as [ex|].
  { apply quiet_then; [apply quiet_write_attribution|]. intros []. by apply quiet_ret. }
  case_decide; [|by apply quiet_ret].
  eapply quiet_bind; [apply quiet_lift|]. intros [] _; by apply quiet_ret.
Qed.

Lemma quiet_selects w retry cv sv pool s l :
  sel_result s `sublist_of` l →
  quiet (k_fold (select_step w retry cv sv) s pool) (λ s', sel_result s' `sublist_of` (l ++ pool)).
Proof using Hpipes.
  revert s l. induction pool as [|p pool IH]; intros s l Hs; simpl.
  { apply quiet_ret. by rewrite app_nil_r. }
  eapply quiet_bind; [by apply (quiet_select _ _ _ _ _ _ l)|]. intros s1 Hs1.
  rewrite cons_middle, (assoc_L (++)). by apply IH.
Qed.

Lemma list_filter_sublist (f : Pipeline → bool) l : List.filter f l `sublist_of` l.
Proof.
  induction l as [|p l IH]; simpl; [done|]. destruct (f p); [by apply sublist_skip | by apply sublist_cons].
Qed.

Lemma quiet_resolve client getter filter_ w proto :
  quiet (resolveWorkloadPipelines client getter filter_ w proto)
    (λ sel, ∃ all, GetAllPipelines client filter_ = Ok all ∧ sel_result sel `sublist_of` all).
Proof using Hpipes.
  unfold resolveWorkloadPipelines. eapply quiet_bind; [apply quiet_lift|]. intros all Hall.
  assert (Hpool : pool_of all `sublist_of` all) by apply list_filter_sublist.
  assert (Hfb : individuallyValid (pool_of all) `sublist_of` all)
    by (etrans; [apply list_filter_sublist | exact Hpool]).
  assert (Hfold : ∀ cv sv, quiet (k_fold (select_step w (retry_keys (pool_of all)) cv sv)
      {| sel_result := []; sel_reinstate := [] |} (pool_of all))
      (λ sel, ∃ all, GetAllPipelines client filter_ = Ok all ∧ sel_result sel `sublist_of` all)).
  { intros cv sv. eapply quiet_post; [|by apply (quiet_selects _ _ _ _ _ _ [])].
    intros sel Hsel. exists all. split; [done|]. etrans; [exact Hsel | exact Hpool]. }
  cbv zeta. destruct (DetectSecretCollisions _ _) as [cols|e]; [|apply quiet_ret; by exists all].
  destruct (DetectSecretSizeOverflow _ _ _) as [ex|e]; [apply Hfold|].
  destruct (errors_as _ e); [apply Hfold | apply quiet_ret; by exists all].
Qed.

Lemma quiet_failed st reason : quiet (failed_patch st reason) (λ _, True).
Proof using Hstatus. apply quiet_patch_status. Qed.

Lemma quiet_success st h g published : quiet (success_patch st h g published) (λ _, True).
Proof using Hstatus.
  unfold success_patch. apply quiet_then; [|intros t; apply quiet_patch_status].
  destruct (_ || _); [|by apply quiet_ret]. apply quiet_then; [apply quiet_now|]. intros t. by apply quiet_ret.
Qed.

(** A pruned key is one of an unchanged configuration, or none is dropped. *)
Lemma quiet_prune_when st unchanged existing target :
  quiet (prune_when st unchanged (assetsWouldDropAKey existing target))
    (λ d, d.1 = true → unchanged = true ∨ dom existing ⊆ dom target).
Proof.
  unfold prune_when. destruct (assetsWouldDropAKey existing target) eqn:Hd.
  - apply quiet_then; [apply quiet_now|]. intros now. apply quiet_ret. unfold secretAssetsPruneDecision.
    destruct unchanged; [by left|done].
  - apply quiet_ret. intros _. right. intros k. rewrite !elem_of_dom. by apply assetsWouldDropAKey_false.
Qed.

(** The check only touches objects of its own. *)
Lemma quiet_check timeout inp vc st name namespace cfg b :
  (∀ cc w0 w, cc_name cc = name → untouched cc (ri_hash inp) w0 w → vw w = vw w0) →
  quiet (check_config timeout inp vc st name namespace cfg b) (λ _, True).
Proof using Hstatus.
  intros Hframe. unfold check_config. destruct (cc_disabled _ || _); [by apply quiet_ret|]. apply quiet_then.
  - set (cc := new_check b vc name namespace timeout ConfigCheckInitiatorVector (SecretAssets cfg)).
    intros cl Hx _. pose proof (triple_Run cc (ri_hash inp) (ri_watch inp) (ri_events inp)
      (seen cl) cl (untouched_refl _ _ _) I) as Ht.
    destruct (Run _ _ _ _ cl) as [[tr cl'] res]. destruct Ht as (Htr & Hend & _).
    assert (Hu : ∀ w, untouched cc (ri_hash inp) (seen cl) w → vw w = x).
    { intros w Hw. rewrite <- Hx. by eapply Hframe in Hw. }
    split_and!; [|by apply Hu|by destruct res]. eapply Forall_impl; [exact Htr|]. exact Hu.
  - intros [reason [e|]]; [|by apply quiet_ret]. destruct (is_validation e).
    + apply quiet_then; [apply quiet_failed|]. intros []. by apply quiet_ret.
    + destruct (errors_as _ e); [by apply quiet_ret | apply quiet_fail].
Qed.
End quiet.

(** Code quiet for every view keeps what holds of the view. *)
Lemma quiet_frame `{KubeApi} {V A} (vw : world → V) (J P : V → Prop) (m : K A) Q :
  (∀ x, quiet vw x m Q) → triple (λ w, J (vw w)) (λ w, P (vw w)) m (λ a w, P (vw w) ∧ Q a).
Proof.
  intros Hm cl Hcl HP. specialize (Hm _ cl eq_refl I). destruct (m cl) as [[tr cl'] res].
  destruct Hm as (Htr & Heq & Hq). split_and!; [|by rewrite Heq|by destruct res; rewrite ?Heq].
  eapply Forall_impl; [exact Htr|]. by intros w ->.
Qed.

Lemma quiet_keeps `{KubeApi} {V A} (vw : world → V) (J : V → Prop) (m : K A) :
  (∀ x, quiet vw x m (λ _, True)) → triple (λ w, J (vw w)) (λ _, True) m (λ _ _, True).
Proof.
  intros Hm. eapply triple_post; [|apply (quiet_frame vw J (λ _, True)), Hm]. done.
Qed.
