(* ===== verification/VectorReconciler.v ===== *)
(** * Reconciling a Vector

    [src/internal/controller/vector_controller.go]: one round, from the listing of the
    pipelines to the status, composed of the selection, the bridge plan, the build,
    the configuration check, the prune decision and the writes of an agent. *)

From S2P Require Export Round AgentSafety.

Record VectorReconciler := {
  r_check_timeout : Z;
  r_optimization : bool;
  r_migration : bool;
  r_merger_image : string;
  r_reader : bool       (** [APIReader] is set *)
}.

Definition optimizeSources (enabled : bool) (v : Vector) : bool :=
  enabled && negb (bool_decide (map_get (v_annotations v) AnnotationConfigOptimization = AnnotationValueDisabled)).

Definition setAgentTypeMetaIfNeeded (v : Vector) : Vector :=
  if bool_decide (v_kind v = "" ∨ v_api_version v = "") then
    {| v_namespace := v_namespace v; v_name := v_name v; v_uid := v_uid v; v_kind := "Vector";
       v_api_version := "observability.kaasops.io/v1alpha1"; v_annotations := v_annotations v;
       v_deleted := v_deleted v; v_agent := v_agent v; v_use_apiserver_cache := v_use_apiserver_cache v;
       v_selector := v_selector v; v_status := v_status v |}
  else v.

(** The controller of the round: the modes are set before anything is read. *)
Definition init_controller (r : VectorReconciler) (v : Vector) : Controller :=
  let c := NewController v in
  {| ct_vector := ct_vector c; ct_reader := r_reader r; ct_byte_config := ct_byte_config c;
     ct_config := ct_config c; ct_migration := r_migration r;
     ct_merger_image := if r_migration r then r_merger_image r else "";
     ct_optimize := r_migration r && optimizeSources (r_optimization r) (ct_vector c);
     ct_alt_byte_config := None; ct_assets := ∅; ct_alt_assets := None |}.

(** What the build and the decisions add to it. *)
Definition with_round (cfg : VectorConfig) (bytes : string) (alt : option string)
    (assets : gmap string string) (alt_assets : option (gmap string string)) (c : Controller) : Controller :=
  {| ct_vector := ct_vector c; ct_reader := ct_reader c; ct_byte_config := bytes; ct_config := cfg;
     ct_migration := ct_migration c; ct_merger_image := ct_merger_image c; ct_optimize := ct_optimize c;
     ct_alt_byte_config := alt; ct_assets := assets; ct_alt_assets := alt_assets |}.

Section reconcile.
Context `{GoRuntime, Libraries, KubeApi}.
Context (Version : string).
(** The rendering of a configuration, by the YAML libraries. *)
Context (marshal : VectorConfig → result string).

Definition BuildAgentConfig (params : VectorConfigParams) (ps : list Pipeline) : result (VectorConfig * string) :=
  cfg ← buildAgentConfig params ps;
  bytes ← marshal cfg;
  Ok (cfg, bytes).

Definition agent_params (c : Controller) (optimize : bool) (getter : SecretGetter) : VectorConfigParams :=
  {| AggregatorName := ""; ApiEnabled := api_on (vc_api (agent c)); PlaygroundEnabled := api_play (vc_api (agent c));
     UseApiServerCache := v_use_apiserver_cache (ct_vector c); InternalMetrics := vc_internal_metrics (agent c);
     params_ExpireMetricsSecs := vc_expire_metrics_secs (agent c); OptimizeSources := optimize;
     PipelineSecretGetter := getter |}.

Definition agent_filter (v : Vector) : FilterPipelines :=
  {| f_scope := AllPipelines; f_selector := v_selector v; f_role := VectorPipelineRoleAgent; f_namespace := "" |}.

Definition vector_ref (v : Vector) : WorkloadRef :=
  {| wr_kind := "Vector"; wr_namespace := v_namespace v; wr_name := v_name v |}.

(** The configuration of the opposite optimisation mode; a failure is only logged. *)
Definition alt_config (r : VectorReconciler) (c : Controller) (optimize : bool) (getter : SecretGetter)
    (ps : list Pipeline) : option string :=
  if r_migration r then
    match BuildAgentConfig (agent_params c (negb optimize) getter) ps with
    | Ok (_, bytes) => Some bytes
    | Err _ => None
    end
  else None.

Definition all_unchanged (c : Controller) (alt : option string) (configUnchanged : bool) : K bool :=
  if ct_migration c then
    match alt with
    | None => mret false
    | Some bytes => altUnchanged ← AltPublishedConfigMatches c bytes; mret (configUnchanged && altUnchanged)
    end
  else mret configUnchanged.

Definition prune_decision (c : Controller) (unchanged : bool) (existing : gmap string string)
    (existing_alt : option (gmap string string)) (target : gmap string string) : K (bool * Z) :=
  prune_when (status c) unchanged
    (assetsWouldDropAKey existing target ||
     (ct_migration c && assetsWouldDropAKey (default ∅ existing_alt) target)).

(** The rest of a round whose configuration is built and checked. *)
Definition publish_round (r : VectorReconciler) (inp : round_inputs) (c : Controller) (optimize : bool)
    (existing : gmap string string) (existing_alt : option (gmap string string))
    (datas : list (gmap string string)) (ps reinstate : list Pipeline) (cfg : VectorConfig) (bytes : string)
    (configUnchanged : bool) : K Z :=
  let alt := alt_config r c optimize (ri_getter inp) ps in
  unchanged ← all_unchanged c alt configUnchanged;
  '(prune, requeueAfter) ← prune_decision c unchanged existing existing_alt (SecretAssets cfg);
  let c :=
    if prune : bool then with_round cfg bytes alt (SecretAssets cfg) None c
    else with_round cfg bytes alt (default ∅ (datas !! 0%nat))
           (if ct_migration c then datas !! 1%nat else None) c in
  c ← EnsureVectorAgent Version (ri_monitoring inp) c (negb unchanged);
  _ ← reinstatePipelines reinstate;
  _ ← agent_SetSuccessStatus c (hash_Get bytes) (GetGlobalConfigHash cfg) (negb unchanged);
  mret requeueAfter.

(** [createOrUpdateVector]; the result is [RequeueAfter]. *)
Definition createOrUpdateVector (r : VectorReconciler) (inp : round_inputs) (v : Vector) : K Z :=
  terminating ← NamespaceIsTerminating (v_namespace v);
  if terminating : bool then mret 0 else
  let c := init_controller r v in
  let optimize := optimizeSources (r_optimization r) (ct_vector c) in
  let getter := ri_getter inp in
  let proto := Some (SecretAssetsPrototype c) in
  sel ← resolveWorkloadPipelines (ri_lister inp) getter (agent_filter (ct_vector c)) (vector_ref v) proto;
  '(existing, existing_alt) ← ExistingSecretAssets c;
  let variants := existing :: (if ct_migration c then [default ∅ existing_alt] else []) in
  '(datas, bridge, waiting) ← k_lift (planSecretAssetsBridge getter proto (sel_result sel) variants);
  _ ← markWaitingPipelines waiting (vector_ref v);
  let reinstate := intersectPipelinesByKey (sel_reinstate sel) bridge in
  match BuildAgentConfig (agent_params c optimize getter) bridge with
  | Err e => _ ← agent_SetFailedStatus c (error_string e); mret 0
  | Ok (cfg, bytes) =>
      configUnchanged ← PublishedConfigMatches c bytes;
      go_on ← check_config (r_check_timeout r) inp (agent c) (status c) (v_name (ct_vector c)) (v_namespace (ct_vector c))
                 cfg bytes;
      if go_on : bool
      then publish_round r inp c optimize existing existing_alt datas bridge reinstate cfg bytes configUnchanged
      else mret 0
  end.

(** ** [Reconcile] *)

Definition listVectorAgents (l : result (list Vector)) : result (list Vector) :=
  l ← l; Ok (List.filter (λ v, negb (v_deleted v)) l).

Definition findVectorCustomResourceInstance (found : result Vector) : result (option Vector) :=
  match found with
  | Ok v => Ok (Some (setAgentTypeMetaIfNeeded v))
  | Err e => if is_not_found e then Ok None else Err e
  end.

(** Every vector in turn, up to the first error; what a round asks to be woken up for
    is dropped. [inp] is what each round is answered. *)
Definition reconcileVectors (r : VectorReconciler) (inp : Vector → round_inputs) (vectors : list Vector) : K Z :=
  _ ← k_iter (λ v, if v_deleted v then mret tt else
        let v := setAgentTypeMetaIfNeeded v in
        _ ← createOrUpdateVector r (inp v) v; mret tt) vectors;
  mret 0.

(** A request without a namespace is for every Vector. *)
Definition Reconcile (r : VectorReconciler) (inp : Vector → round_inputs) (namespace : string)
    (listed : result (list Vector)) (found : result Vector) : K Z :=
  if bool_decide (namespace = "") then
    vectors ← k_lift (listVectorAgents listed);
    reconcileVectors r inp vectors
  else
    v ← k_lift (findVectorCustomResourceInstance found);
    match v with
    | None => mret 0
    | Some v => createOrUpdateVector r (inp v) v
    end.
End reconcile.
