(* ===== verification/VectorSafety.v ===== *)
(** * Every pod of a Vector can start, round after round

    [createOrUpdateVector] with checkpoint migration off: whatever pipelines, secrets
    and specifications the rounds see, whatever calls fail and wherever a round stops,
    a pod created from the stored template finds every file its configuration refers
    to. The state between rounds is [at_rest]; a round keeps it in every world it
    passes through. *)

From S2P Require Export VectorReconciler.

(** ** What a Vector has on the cluster *)

(** The view of the agent [n] without checkpoint migration. *)
Definition agent_view (ns n : string) (w : world) : view := {|
  vt := w_objects w !! (KDaemonSet, ns, n) ≫= template_of;
  vcfg := secret_data w (KSecret, ns, n);
  vas := secret_data w (KSecret, ns, assets_name n);
  vcfg' := secret_data w (KSecret, ns, n +:+ "-opt");
  vas' := secret_data w (KSecret, ns, assets_name (n +:+ "-opt"))
|}.

Section rest.
Context (refs : string → gset string) (n : string).

(** Between two rounds: a pod starts, the assets hold what the configuration refers
    to, and the template has nothing of the other mode. *)
Record at_rest (x : view) : Prop := {
  ar_pod t : vt x = Some t → variant_ok refs t n (vcfg x) (vas x) ∧ variant_ok refs t (n +:+ "-opt") (vcfg' x) (vas' x);
  ar_keys : cfg_refs refs (vcfg x) ⊆ held (vas x);
  ar_mode t : vt x = Some t → ¬ mounts t (n +:+ "-opt") ∧ (mounts t n → ¬ uses t (n +:+ "-opt"))
}.

(** Nothing is there yet. *)
Lemma at_rest_empty : at_rest {| vt := None; vcfg := None; vas := None; vcfg' := None; vas' := None |}.
Proof. split; [done| |done]. simpl. set_solver. Qed.
End rest.

Section controller.
Context `{GoRuntime} (refs : string → gset string) (c : Controller).
Context (Hmode : ct_migration c = false).

Notation n := (getNameVectorAgent c).

Lemma plain_names : getConfigSecretName c = n ∧ getAltConfigSecretName c = n +:+ "-opt".
Proof using Hmode. unfold getConfigSecretName, getAltConfigSecretName. by rewrite Hmode. Qed.

Lemma view_of_agent w : view_of c w = agent_view (namespace c) n w.
Proof using Hmode.
  destruct plain_names as [Hn Hn']. unfold view_of, agent_view, secret_key, getSecretAssetsName. by rewrite Hn, Hn'.
Qed.

(** The invariant of a round is the state between rounds, and that what is stored
    refers only to what the round stages. *)
Lemma inv_at_rest x :
  inv refs c x ↔ at_rest refs n x ∧ cfg_refs refs (vcfg x) ⊆ dom (ct_assets c).
Proof using Hmode.
  destruct plain_names as [Hn Hn']. split.
  - intros [Hp Hk _ Ht _ Hkept Hone]. unfold pod_ok in Hp. rewrite ?Hn, ?Hn' in *. split; [|done].
    split; [done|done|]. intros t Htm. split; [|by apply Hone]. intros Hm.
    destruct (Hkept t Htm Hm) as [Hmig _]. congruence.
  - intros [[Hp Hk Hmo] Ht]. split; unfold pod_ok, alt_built; rewrite ?Hn, ?Hn', ?Hmode; try done.
    + by intros [? _].
    + intros t Htm Hm. by destruct (Hmo t Htm) as [? _].
    + intros t Htm. by apply Hmo.
Qed.
End controller.

(** ** A check leaves the agent's objects alone *)

Lemma string_length_app s1 s2 : String.length (s1 +:+ s2) = (String.length s1 + String.length s2)%nat.
Proof. induction s1 as [|a s1 IH]; simpl; [done|]. by rewrite IH. Qed.

Section check_frame.
Context `{GoRuntime, KubeApi}.

Lemma own_key_lengths cc hash k :
  String.length hash = 5%nat → k ∈ own_keys cc hash →
  k.1.1 = KServiceAccount ∨ k.1.1 = KPod ∨
  k.1.1 = KSecret ∧ (String.length k.2 = String.length (cc_name cc) + 18 ∨
                     String.length k.2 = String.length (cc_name cc) + 32)%nat.
Proof.
  intros Hh. revert k. apply Forall_forall.
  unfold own_keys, config_key, assets_key, getNameVectorConfigCheck, getNameVectorConfigCheckSecretAssets.
  repeat apply Forall_cons_2; try (by apply Forall_nil_2); simpl; rewrite ?string_length_app; simpl; rewrite ?string_length_app; simpl;
    rewrite ?Hh; (by left) || (right; (by left) || (right; split; [done|lia])).
Qed.

(** The names of a check's Secrets have other lengths than the agent's. *)
Lemma check_names_apart cc hash ns n k :
  String.length hash = 5%nat → n = cc_name cc +:+ "-agent" →
  k ∈ [(KDaemonSet, ns, n); (KSecret, ns, n); (KSecret, ns, assets_name n); (KSecret, ns, n +:+ "-opt");
       (KSecret, ns, assets_name (n +:+ "-opt"))] →
  k ∉ own_keys cc hash.
Proof.
  intros Hh -> Hk Hown. set (l := String.length (cc_name cc)).
  assert (Ha : k.1.1 = KDaemonSet ∨
    k.1.1 = KSecret ∧ (String.length k.2 = l + 6 ∨ String.length k.2 = l + 10 ∨
                       String.length k.2 = l + 20 ∨ String.length k.2 = l + 24)%nat).
  { clear Hown. revert k Hk. apply Forall_forall. unfold assets_name.
    repeat apply Forall_cons_2; try (by apply Forall_nil_2); simpl; rewrite ?string_length_app; simpl; fold l; (by left) || (right; split; [done|lia]). }
  assert (Ho : k.1.1 = KServiceAccount ∨ k.1.1 = KPod ∨
    k.1.1 = KSecret ∧ (String.length k.2 = l + 18 ∨ String.length k.2 = l + 32)%nat) by (by apply (own_key_lengths cc hash)).
  destruct_or?; destruct_and?; try congruence; lia.
Qed.

Lemma untouched_view cc hash ns w0 w :
  String.length hash = 5%nat → untouched cc hash w0 w →
  agent_view ns (cc_name cc +:+ "-agent") w = agent_view ns (cc_name cc +:+ "-agent") w0.
Proof.
  intros Hh (_ & _ & Ho). unfold agent_view, secret_data.
  by rewrite !Ho by (eapply (check_names_apart cc hash ns); [done|done|set_solver]).
Qed.
End check_frame.

(** ** A round *)

(** A flat key a configuration refers to. *)
Definition config_key (pc : PipelineConfig) (k : string) : Prop :=
  ∃ o r, component_options pc o ∧ r ∈ options_refs o ∧ ref_alias r = SecretsBackendName ∧ ref_key r = k.

(** What Vector reads out of the stored bytes, compressed or not, was rendered. *)
Definition reads_back `{GoRuntime} (refs : string → gset string) (marshal : VectorConfig → result string) : Prop :=
  ∀ cfg b k, marshal cfg = Ok b → k ∈ refs b ∨ k ∈ refs (gzip b) → config_key (cfg_pipeline cfg) k.

Section round.
Context `{GoRuntime, Libraries, KubeApi}.
Context (Version : string) (marshal : VectorConfig → result string) (refs : string → gset string).
Context (Hrefs : reads_back refs marshal).
Context (r : VectorReconciler) (inp : round_inputs) (v : Vector).

(** What a round is given: the mode, a hash, pipelines as the API server lists them,
    and no volume of the user's that reads the operator's Secrets. *)
Record round_given : Prop := {
  rg_mode : r_migration r = false;
  rg_hash : String.length (ri_hash inp) = 5%nat;
  rg_listed all : GetAllPipelines (ri_lister inp) (agent_filter v) = Ok all →
    NoDup (pipelineID <$> all) ∧ Forall dns_pipeline all;
  rg_user : user_volumes_apart (init_controller r v)
}.
Context (Hg : round_given).

Notation c := (init_controller r v).
Notation n := (v_name v +:+ "-agent").
Notation vw := (agent_view (v_namespace v) n).
Notation rest := (at_rest refs n).

Lemma vw_pipelines f w : vw (set_pipelines f w) = vw w.
Proof. done. Qed.
Lemma vw_status f w : vw (set_status f w) = vw w.
Proof. done. Qed.

Lemma init_mode : ct_migration c = false.
Proof using Hg. apply Hg. Qed.

Lemma built_refs params ps cfg b :
  Forall dns_pipeline ps → BuildAgentConfig marshal params ps = Ok (cfg, b) →
  refs (stored_config c b) ⊆ dom (SecretAssets cfg).
Proof using Hrefs.
  intros Hdns (cfg0 & Hcfg & (b0 & Hb & [= <- <-])%bind_Ok)%bind_Ok k Hk.
  assert (Hck : config_key (cfg_pipeline cfg0) k).
  { apply (Hrefs cfg0 b0); [done|]. unfold stored_config in Hk. destruct (vc_compress _); auto. }
  destruct Hck as (o & rf & Ho & Hin & _ & <-). pose proof (agent_build_closed _ _ _ Hdns Hcfg o Ho) as Hcl.
  rewrite Forall_forall in Hcl. apply elem_of_dom. by apply Hcl.
Qed.

Lemma quiet_reader x s : quiet vw x (safety_reader c s) (λ _, True).
Proof. unfold safety_reader. destruct (ct_reader c); [by apply quiet_ret | apply quiet_fail]. Qed.

Lemma quiet_assets x :
  quiet vw x (ExistingSecretAssets c) (λ e, e = (default ∅ (vas x), None)).
Proof using Hg.
  unfold ExistingSecretAssets, existingSecretAssetsFor. eapply quiet_bind with (R := λ e, e = default ∅ (vas x)).
  - apply quiet_then; [apply quiet_reader|]. intros []. eapply quiet_bind.
    + apply (quiet_find _ _ _ (λ o, default ∅ (data_of <$> o) = default ∅ (vas x))). intros w <-.
      destruct (plain_names c init_mode) as [Hn _]. unfold secret_key, getSecretAssetsName. by rewrite Hn.
    + intros o Ho. apply quiet_ret. rewrite <- Ho. by destruct o.
  - intros e ->. rewrite init_mode. by apply quiet_ret.
Qed.

Lemma quiet_matches x b :
  quiet vw x (PublishedConfigMatches c b)
    (λ same, same = true → cfg_refs refs (vcfg x) ⊆ refs (stored_config c b)).
Proof using Hg.
  unfold PublishedConfigMatches, publishedConfigMatches. apply quiet_then; [apply quiet_reader|]. intros [].
  eapply quiet_bind.
  - apply (quiet_find _ _ _ (λ o, data_of <$> o = vcfg x)). intros w <-.
    destruct (plain_names c init_mode) as [Hn _]. unfold secret_key. by rewrite Hn.
  - intros o Ho. apply quiet_ret. unfold cfg_refs. rewrite <- Ho. destruct o as [o|]; simpl; [|done].
    intros Hm%bool_decide_eq_true. rewrite <- Hm. unfold map_get.
    destruct (data_of o !! "agent.json"); simpl; [done | apply empty_subseteq].
Qed.

Lemma quiet_vector_check x timeout vc st cfg b :
  quiet vw x (check_config timeout inp vc st (v_name (ct_vector c)) (v_namespace (ct_vector c)) cfg b) (λ _, True).
Proof using Hg.
  apply quiet_check; [apply vw_status|]. intros cc w0 w Hcc Hu.
  pose proof (untouched_view cc (ri_hash inp) (v_namespace v) w0 w (rg_hash Hg) Hu) as Hv. by rewrite Hcc in Hv.
Qed.

(** What the round publishes, and that it stages whatever is in use. *)
Definition staging_ok (x : view) (cfg : VectorConfig) (b : string) (assets : gmap string string) : Prop :=
  refs (stored_config c b) ⊆ dom assets ∧ cfg_refs refs (vcfg x) ⊆ dom assets.

Lemma triple_ensure x cfg b assets publishing (P : world → Prop) :
  staging_ok x cfg b assets →
  triple (λ w, rest (vw w)) (λ w, vw w = x)
    (EnsureVectorAgent Version (ri_monitoring inp) (with_round cfg b None assets None c) publishing) (λ _ _, True).
Proof using Hg.
  intros [Hb Hx]. set (c' := with_round cfg b None assets None c).
  assert (Hmode : ct_migration c' = false) by exact init_mode.
  assert (Hok : round_ok refs c').
  { split; [exact (rg_user Hg)|exact Hb|]. intros alt Hm. congruence. }
  intros cl Hrest Hview. assert (Hinv : inv refs c' (view_of c' (seen cl))).
  { rewrite view_of_agent by done. apply inv_at_rest; [done|]. split; [exact Hrest|].
    change (cfg_refs refs (vcfg (vw (seen cl))) ⊆ dom assets). by rewrite Hview. }
  pose proof (triple_round Version refs c' Hok (ri_monitoring inp) publishing cl Hinv I) as Ht.
  assert (Hback : ∀ w, inv refs c' (view_of c' w) → rest (vw w)).
  { intros w Hw. rewrite view_of_agent in Hw by done. by apply inv_at_rest in Hw as [? _]. }
  destruct (EnsureVectorAgent _ _ _ _ cl) as [[tr cl'] res]. destruct Ht as (Htr & Hend & _).
  split_and!; [|by apply Hback|by destruct res]. eapply Forall_impl; [exact Htr|]. exact Hback.
Qed.

(** The choice of the assets. *)
Lemma quiet_prune x unchanged existing alt target :
  quiet vw x (prune_decision c unchanged existing alt target)
    (λ d, d.1 = true → unchanged = true ∨ dom existing ⊆ dom target).
Proof using Hg. unfold prune_decision. rewrite init_mode. simpl. rewrite orb_false_r. apply quiet_prune_when. Qed.

Lemma triple_publish_round x optimize existing datas ps reinstate params cfg b unchanged data :
  rest x → existing = default ∅ (vas x) → datas = [data] →
  dom existing ⊆ dom data → dom (SecretAssets cfg) ⊆ dom data →
  Forall dns_pipeline ps → BuildAgentConfig marshal params ps = Ok (cfg, b) →
  (unchanged = true → cfg_refs refs (vcfg x) ⊆ refs (stored_config c b)) →
  triple (λ w, rest (vw w)) (λ w, vw w = x)
    (publish_round Version marshal r inp c optimize existing None datas ps reinstate cfg b unchanged) (λ _ _, True).
Proof using Hg Hrefs.
  intros Hrest Hex -> Hdata Hassets Hdns Hbuild Hun. pose proof (built_refs _ _ _ _ Hdns Hbuild) as Hb.
  assert (Hheld : cfg_refs refs (vcfg x) ⊆ dom existing) by (rewrite Hex; apply Hrest).
  unfold publish_round, alt_config, all_unchanged. rewrite init_mode, (rg_mode Hg). cbv zeta.
  eapply quiet_bind_triple; [exact Hrest|by apply quiet_ret with (Q := λ u, u = unchanged)|]. intros u ->.
  eapply quiet_bind_triple; [exact Hrest|apply quiet_prune|]. intros [prune requeue] Hprune. simpl in Hprune.
  eapply triple_bind with (R := λ _ _, True).
  - destruct prune; (eapply triple_ensure; [exact (λ _, True)|split]).
    + exact Hb.
    + destruct (Hprune eq_refl) as [->|Hsub]; [by etrans; [apply Hun|exact Hb] | by etrans].
    + by etrans; [exact Hb|].
    + by etrans.
  - intros c2. eapply triple_bind; [apply (quiet_keeps vw); intros; apply quiet_reinstate, vw_pipelines|]. intros [].
    eapply triple_bind; [apply (quiet_keeps vw); intros y; apply quiet_success, vw_status|].
    intros []. by apply triple_ret.
Qed.

Lemma plan_bridge_among getter proto final variants datas bridge waiting p :
  planSecretAssetsBridge getter proto final variants = Ok (datas, bridge, waiting) → p ∈ bridge → p ∈ final.
Proof.
  unfold planSecretAssetsBridge. destruct variants as [|e es]; [by intros [= _ <- _]|].
  destruct (foldM _ _ _) as [W|err].
  - intros (ds & _ & [= _ <- _])%bind_Ok. by intros [_ ?]%list_elem_of_filter.
  - destruct (errors_as _ err); [by intros [= _ <- _] | done].
Qed.

Lemma triple_vector :
  triple (λ w, rest (vw w)) (λ _, True) (createOrUpdateVector Version marshal r inp v) (λ _ _, True).
Proof using Hg Hrefs.
  intros cl Hcl _. revert cl Hcl.
  enough (Hx : ∀ x, rest x → triple (λ w, rest (vw w)) (λ w, vw w = x)
    (createOrUpdateVector Version marshal r inp v) (λ _ _, True)) by (intros cl Hcl; by eapply Hx).
  intros x Hx. unfold createOrUpdateVector. eapply quiet_bind_triple; [exact Hx| |].
  { apply quiet_then; [by apply quiet_find with (Q := λ _, True)|]. intros []; by apply quiet_ret with (Q := λ _, True). }
  intros [] _; [by apply triple_ret|]. cbv zeta.
  eapply quiet_bind_triple; [exact Hx|apply quiet_resolve, vw_pipelines|]. intros sel (all & Hall & Hsub).
  apply (rg_listed Hg) in Hall as [Hnd Hdns].
  eapply quiet_bind_triple; [exact Hx|apply quiet_assets|]. intros e ->. rewrite init_mode.
  eapply quiet_bind_triple; [exact Hx|apply quiet_lift|]. intros [[datas bridge] waiting] Hplan.
  eapply quiet_bind_triple; [exact Hx|apply quiet_mark, vw_pipelines|]. intros [] _.
  assert (Hfinal : NoDup (pipelineID <$> sel_result sel))
    by (eapply sublist_NoDup; [exact Hnd|]; by apply fmap_sublist).
  assert (Hbridge : Forall dns_pipeline bridge).
  { rewrite Forall_forall in Hdns |- *. intros p Hp. apply Hdns. eapply sublist_elem; [exact Hsub|].
    by eapply plan_bridge_among. }
  destruct (BuildAgentConfig marshal _ bridge) as [[cfg b]|e] eqn:Hbuild.
  2: { eapply quiet_bind_triple; [exact Hx|apply quiet_patch_status, vw_status|]. intros [] _. by apply triple_ret. }
  assert (Hres : resolved_by (ri_getter inp) bridge (SecretAssets cfg)).
  { pose proof Hbuild as (cfg0 & Hcfg & (b0 & _ & [= <- <-])%bind_Ok)%bind_Ok.
    by apply agent_build_resolved in Hcfg. }
  destruct (single_variant_published _ _ _ _ _ _ _ _ Hfinal Hplan Hres) as (data & Hdatas & Hdata & Hassets).
  eapply quiet_bind_triple; [exact Hx|apply quiet_matches|]. intros unchanged Hun.
  eapply quiet_bind_triple; [exact Hx|apply quiet_vector_check|]. intros [] _; [|by apply triple_ret].
  by eapply triple_publish_round.
Qed.
End round.

(** ** All the rounds *)

(** What the cluster may become: from nothing of the agent, by rounds for the Vector,
    whatever their specification and inputs, each of which may stop at any of its
    writes, and by others that leave the agent's objects alone. *)
Inductive reachable `{GoRuntime, Libraries, KubeApi} Version marshal (ns name : string) : world → Prop :=
| reach_start w :
    agent_view ns (name +:+ "-agent") w = {| vt := None; vcfg := None; vas := None; vcfg' := None; vas' := None |} →
    reachable Version marshal ns name w
| reach_round r inp v cl tr cl' res w :
    reachable Version marshal ns name (seen cl) →
    v_namespace v = ns → v_name v = name → round_given r inp v →
    createOrUpdateVector Version marshal r inp v cl = (tr, cl', res) →
    w ∈ tr ++ [seen cl'] →
    reachable Version marshal ns name w
| reach_other w w' :
    reachable Version marshal ns name w →
    agent_view ns (name +:+ "-agent") w' = agent_view ns (name +:+ "-agent") w →
    reachable Version marshal ns name w'.

(** C1: with checkpoint migration off, every world the rounds of a Vector can lead to
    is one in which a pod created from the stored template starts: it mounts only
    assets that exist, and they hold every key its stored configuration refers to.
    Rounds may see any pipelines, secrets and specifications, fail at any call and
    stop at any write. *)
Theorem vector_pods_start `{GoRuntime, Libraries, KubeApi} Version marshal refs ns name w :
  reads_back refs marshal → reachable Version marshal ns name w →
  at_rest refs (name +:+ "-agent") (agent_view ns (name +:+ "-agent") w).
Proof.
  intros Hrefs. induction 1 as [w Hw|r inp v cl tr cl' res w _ IH <- <- Hg Hrun Hw|w w' _ IH Hw].
  - rewrite Hw. apply at_rest_empty.
  - pose proof (triple_vector Version marshal refs Hrefs r inp v Hg cl IH I) as Ht. rewrite Hrun in Ht.
    destruct Ht as (Htr & Hend & _). apply elem_of_app in Hw as [Hw| ->%list_elem_of_singleton]; [|done].
    rewrite Forall_forall in Htr. by apply Htr.
  - by rewrite Hw.
Qed.

(** ** Witness *)

(** A rendering that keeps the first reference, and what is read out of it. *)
Definition config_keys `{GoRuntime} (pc : PipelineConfig) : list string :=
  ref_key <$> List.filter (λ r, bool_decide (ref_alias r = SecretsBackendName)) (comps_of 9 pc ≫= options_refs).
Definition sample_marshal (cfg : VectorConfig) : result string :=
  Ok (default "" (head (@config_keys stable_runtime (cfg_pipeline cfg)))).
Definition sample_read (b : string) : gset string := if bool_decide (b = "") then ∅ else {[b]}.

Lemma sample_reads_back : @reads_back stable_runtime sample_read sample_marshal.
Proof.
  intros cfg b k [= <-] Hk. change (@gzip stable_runtime) with (λ s : string, s) in Hk. cbv beta in Hk.
  assert (Hk' : k ∈ sample_read (default "" (head (@config_keys stable_runtime (cfg_pipeline cfg))))) by (by destruct Hk).
  clear Hk. unfold sample_read in Hk'. case_bool_decide as Hne; [set_solver|]. apply elem_of_singleton in Hk' as ->.
  destruct (@config_keys stable_runtime (cfg_pipeline cfg)) as [|k l] eqn:Hl; [done|]. simpl.
  assert (Hin : k ∈ @config_keys stable_runtime (cfg_pipeline cfg)) by (rewrite Hl; by left).
  unfold config_keys in Hin. apply list_elem_of_fmap in Hin as (rf & -> & Hin).
  rewrite list_elem_of_In, filter_In, <- list_elem_of_In in Hin. destruct Hin as [Hin Ha%bool_decide_eq_true].
  apply list_elem_of_bind in Hin as (o & Hrf & Ho). exists o, rf. split; [|done].
  unfold comps_of in Ho. rewrite !elem_of_app, !elem_of_components in Ho. exact Ho.
Qed.

Definition round_namespace : Object :=
  {| o_meta := {| om_namespace := ""; om_name := "ns"; om_labels := ∅; om_annotations := ∅; om_owners := [];
                  om_created := true |}; o_body := BNamespace false |}.
Definition round_world : world := sample_status_world {[key_of round_namespace := round_namespace]}.
Definition sample_reconciler : VectorReconciler :=
  {| r_check_timeout := 300 * second; r_optimization := true; r_migration := false; r_merger_image := "";
     r_reader := true |}.
Definition sample_round : round_inputs :=
  {| ri_lister := sample_lister; ri_getter := sample_getter; ri_monitoring := Ok false; ri_hash := "abcde";
     ri_watch := None;
     ri_events := [EvAdded {| pod_deleting := false; pod_ph := PodSucceeded; pod_waiting := [] |}] |}.

Definition vector_run := @createOrUpdateVector stable_runtime _ simple_api "1" sample_marshal sample_reconciler
  sample_round sample_vector (calm round_world 0).
Definition round_end : world := sc_world vector_run.1.2.

Lemma sample_round_given : @round_given stable_runtime sample_reconciler sample_round sample_vector.
Proof.
  split; [done..| |exact (sample_user_apart false false)].
  intros all Hall. vm_compute in Hall. injection Hall as <-. split; [by apply NoDup_singleton|].
  repeat constructor.
Qed.

(** A round that nothing disturbs publishes the configuration and the value it refers
    to, and what it leaves is reachable. *)
Lemma vector_pods_start_witness :
  vector_run.2 = Ok 0 ∧
  (map_to_list <$> vcfg (agent_view "ns" "v-agent" round_end)) = Some [("agent.json", "team_a_b_c_k")] ∧
  (map_to_list <$> vas (agent_view "ns" "v-agent" round_end)) = Some [("team_a_b_c_k", "value of s1")] ∧
  at_rest sample_read "v-agent" (agent_view "ns" "v-agent" round_end).
Proof.
  split; [vm_compute; reflexivity|]. split; [vm_compute; reflexivity|]. split; [vm_compute; reflexivity|].
  apply (@vector_pods_start stable_runtime _ simple_api "1" sample_marshal sample_read "ns" "v" round_end sample_reads_back).
  eapply (@reach_round stable_runtime _ simple_api "1" sample_marshal "ns" "v" sample_reconciler sample_round sample_vector
    (calm round_world 0) vector_run.1.1 vector_run.1.2 vector_run.2); [|done|done|exact sample_round_given| |].
  - apply reach_start. vm_compute. reflexivity.
  - unfold vector_run. by destruct (createOrUpdateVector _ _ _ _ _ _) as [[tr cl] res].
  - apply elem_of_app. right. by apply list_elem_of_singleton.
Defined.
