(* ===== verification/AggregatorPod.v ===== *)
(** * What an aggregator's objects are

    [src/internal/vector/aggregator]: the controller's state and defaults
    ([controller.go]) and the builders of the Deployment or StatefulSet, the Secrets,
    the RBAC objects, the Services, the autoscaler, the disruption budget, the
    PodMonitor and the event collector. One controller serves the namespaced and the
    cluster-scoped resource, which differ in where the objects live. *)

From S2P Require Export AgentPod.

(** ** Specifications ([vector_common_types.go]) *)

Record VectorAggregatorAutoscaling := {
  as_enabled : bool;
  as_min : option Z;
  as_max : Z;
  as_metrics : string;
  as_behavior : string
}.

Record VectorAggregatorPersistence := {
  ps_enabled : bool;
  ps_size : Z;                        (** zero: not set *)
  ps_storage_class : option string;
  ps_access_modes : list string;
  ps_claims : list ClaimTemplate;     (** [VolumeClaimTemplates] *)
  ps_retention : option string
}.

Record PodDisruptionBudget := {
  pdb_enabled : bool;
  pdb_min_available : option string;
  pdb_max_unavailable : option string;
  pdb_unhealthy : option string
}.

Record EventCollector := { ec_image : string; ec_pull_policy : string; ec_max_batch : Z }.

Record VectorAggregatorCommon := {
  va_common : VectorCommon;
  va_replicas : option Z;
  va_selector : option (gmap string string);
  va_collector : EventCollector;
  va_autoscaling : VectorAggregatorAutoscaling;
  va_spread : string;
  va_persistence : VectorAggregatorPersistence;
  va_pdb : PodDisruptionBudget
}.

(** A VectorAggregator, or a ClusterVectorAggregator with the namespace of its
    resources. *)
Record Aggregator := {
  ag_cluster : bool;
  ag_namespace : string;
  ag_resource_namespace : string;
  ag_name : string;
  ag_uid : string;
  ag_kind : string;
  ag_api_version : string;
  ag_deleted : bool;
  ag_finalizers : list string;
  ag_spec : VectorAggregatorCommon;
  ag_status : WorkloadStatus
}.

Definition with_va_common (a : VectorCommon) (s : VectorAggregatorCommon) : VectorAggregatorCommon := {|
  va_common := a; va_replicas := va_replicas s; va_selector := va_selector s; va_collector := va_collector s;
  va_autoscaling := va_autoscaling s; va_spread := va_spread s; va_persistence := va_persistence s;
  va_pdb := va_pdb s |}.
Definition with_ag_spec (s : VectorAggregatorCommon) (g : Aggregator) : Aggregator := {|
  ag_cluster := ag_cluster g; ag_namespace := ag_namespace g; ag_resource_namespace := ag_resource_namespace g;
  ag_name := ag_name g; ag_uid := ag_uid g; ag_kind := ag_kind g; ag_api_version := ag_api_version g;
  ag_deleted := ag_deleted g; ag_finalizers := ag_finalizers g; ag_spec := s; ag_status := ag_status g |}.
Definition with_ag_status (s : WorkloadStatus) (g : Aggregator) : Aggregator := {|
  ag_cluster := ag_cluster g; ag_namespace := ag_namespace g; ag_resource_namespace := ag_resource_namespace g;
  ag_name := ag_name g; ag_uid := ag_uid g; ag_kind := ag_kind g; ag_api_version := ag_api_version g;
  ag_deleted := ag_deleted g; ag_finalizers := ag_finalizers g; ag_spec := ag_spec g; ag_status := s |}.

(** ** The controller

    Its [Spec] and [Status] point into the resource. *)
Record AggregatorController := {
  ac_agg : Aggregator;
  ac_reader : bool;
  ac_bytes : string;
  ac_config : VectorConfig;
  ac_assets : gmap string string
}.

Definition ac_spec (c : AggregatorController) : VectorAggregatorCommon := ag_spec (ac_agg c).
Definition ac_common (c : AggregatorController) : VectorCommon := va_common (ac_spec c).
Definition ac_status (c : AggregatorController) : WorkloadStatus := ag_status (ac_agg c).
Definition ac_name (c : AggregatorController) : string := ag_name (ac_agg c).
Definition ac_namespace (c : AggregatorController) : string :=
  if ag_cluster (ac_agg c) then ag_resource_namespace (ac_agg c) else ag_namespace (ac_agg c).

Definition with_ac_agg (g : Aggregator) (c : AggregatorController) : AggregatorController := {|
  ac_agg := g; ac_reader := ac_reader c; ac_bytes := ac_bytes c; ac_config := ac_config c;
  ac_assets := ac_assets c |}.

Definition persistence_on (p : VectorAggregatorPersistence) : bool :=
  ps_enabled p || negb (bool_decide (ps_claims p = [])).
Definition persistenceEnabled (c : AggregatorController) : bool := persistence_on (va_persistence (ac_spec c)).

(** ** Defaults ([setDefault])

    The common part has the defaults of an agent. *)
Definition default_persistence (p : VectorAggregatorPersistence) : VectorAggregatorPersistence :=
  if persistence_on p then {|
    ps_enabled := ps_enabled p;
    ps_size := if bool_decide (ps_size p = 0) then 10 * 2 ^ 30 else ps_size p;
    ps_storage_class := ps_storage_class p;
    ps_access_modes := if bool_decide (ps_access_modes p = []) then ["ReadWriteOnce"] else ps_access_modes p;
    ps_claims := ps_claims p;
    ps_retention := or_default "whenDeleted: Retain, whenScaled: Retain" (ps_retention p) |}
  else p.

Section builders.
Context `{GoRuntime, Libraries}.
Context (Version : string).    (** [buildinfo.Version] *)

Definition default_collector (e : EventCollector) : EventCollector := {|
  ec_image := default_str ("kaasops/event-collector:" +:+ Version) (ec_image e);
  ec_pull_policy := default_str "IfNotPresent" (ec_pull_policy e);
  ec_max_batch := if ec_max_batch e <=? 0 then 250 else ec_max_batch e |}.

Definition default_aggregator (s : VectorAggregatorCommon) : VectorAggregatorCommon := {|
  va_common := default_agent (va_common s); va_replicas := va_replicas s; va_selector := va_selector s;
  va_collector := default_collector (va_collector s); va_autoscaling := va_autoscaling s;
  va_spread := va_spread s; va_persistence := default_persistence (va_persistence s); va_pdb := va_pdb s |}.

Definition aggregator_NewController (g : Aggregator) : AggregatorController := {|
  ac_agg := with_ag_spec (default_aggregator (ag_spec g)) g; ac_reader := false; ac_bytes := "";
  ac_config := zero_config; ac_assets := ∅ |}.

(** ** Names, labels, metadata *)

Definition getNameVectorAggregator (c : AggregatorController) : string := ac_name c +:+ "-aggregator".
Definition aggregator_getSecretAssetsName (c : AggregatorController) : string :=
  getNameVectorAggregator c +:+ "-secret-assets".
Definition getHeadlessServiceName (c : AggregatorController) : string := getNameVectorAggregator c +:+ "-headless".
Definition GetServiceName (c : AggregatorController) : string := getNameVectorAggregator c.
Definition collector_name (c : AggregatorController) : string := ac_name c +:+ "-event-collector".

Definition matchLabelsForVectorAggregator (c : AggregatorController) : gmap string string :=
  {[ManagedByLabelKey := "vector-operator"; NameLabelKey := "vector"; ComponentLabelKey := "Aggregator";
    InstanceLabelKey := ac_name c]}.
Definition labelsForVectorAggregator (c : AggregatorController) : gmap string string :=
  MergeLabels (matchLabelsForVectorAggregator c) (vc_labels (ac_common c)).
Definition annotationsForVectorAggregator (c : AggregatorController) : gmap string string :=
  default ∅ (vc_annotations (ac_common c)).
Definition labelsForEventCollector (c : AggregatorController) : gmap string string :=
  {[ManagedByLabelKey := "vector-operator"; NameLabelKey := "vector"; ComponentLabelKey := "EventCollector";
    InstanceLabelKey := ac_name c]}.

Definition aggregator_getControllerReference (c : AggregatorController) : list string :=
  let g := ac_agg c in controller_reference (ag_api_version g) (ag_kind g) (ag_name g) (ag_uid g).

Definition objectMetaVectorAggregator (c : AggregatorController) (labels annotations : gmap string string)
    (namespace : string) : ObjectMeta :=
  {| om_namespace := namespace; om_name := getNameVectorAggregator c; om_labels := labels;
     om_annotations := annotations; om_owners := aggregator_getControllerReference c; om_created := false |}.

Definition aggregator_meta (c : AggregatorController) (namespace : string) : ObjectMeta :=
  objectMetaVectorAggregator c (labelsForVectorAggregator c) (annotationsForVectorAggregator c) namespace.
Definition collector_meta (c : AggregatorController) (namespace : string) : ObjectMeta :=
  with_name (collector_name c)
    (objectMetaVectorAggregator c (labelsForEventCollector c) (annotationsForVectorAggregator c) namespace).

(** ** Secrets ([config.go]) *)

Definition aggregator_stored_config (c : AggregatorController) (data : string) : string :=
  if vc_compress (ac_common c) then gzip data else data.

Definition createVectorAggregatorConfig (c : AggregatorController) : Object :=
  {| o_meta := aggregator_meta c (ac_namespace c);
     o_body := BSecret {["config.json" := aggregator_stored_config c (ac_bytes c)]} |}.

Definition aggregator_createSecretAssetsSecret (c : AggregatorController) : Object :=
  {| o_meta := with_name (aggregator_getSecretAssetsName c) (aggregator_meta c (ac_namespace c));
     o_body := BSecret (ac_assets c) |}.

Definition aggregator_SecretAssetsPrototype (c : AggregatorController) : Secret :=
  let m := o_meta (aggregator_createSecretAssetsSecret c) in
  {| sec_namespace := om_namespace m; sec_name := om_name m; sec_uid := ""; sec_resource_version := "";
     sec_labels := om_labels m; sec_annotations := om_annotations m; sec_owners := om_owners m; sec_data := ∅ |}.

(** ** The pod ([deployment.go]) *)

Definition dataVolumeName : string := "data".

Definition generateVectorAggregatorVolume (c : AggregatorController) : list Volume :=
  let a := ac_common c in
  let required :=
    [{| vol_name := "config";
        vol_source := if vc_compress a then VEmptyDir else VSecret (getNameVectorAggregator c) |}] ++
    (if persistenceEnabled c then [] else [host_path dataVolumeName (vc_data_dir a)]) ++
    [host_path "procfs" "/proc"; host_path "sysfs" "/sys"] ++
    (if vc_compress a then [secret_volume "app-config-compress" (getNameVectorAggregator c)] else []) in
  let volume := add_required vol_name (default [] (vc_volumes a)) required in
  if bool_decide (0 < size (ac_assets c))%nat
  then SetAuthoritativeVolume volume (secret_volume SecretAssetsVolumeName (aggregator_getSecretAssetsName c))
  else volume.

Definition generateVectorAggregatorVolumeMounts (c : AggregatorController) : list VolumeMount :=
  let a := ac_common c in
  let required :=
    [mount "config" "/etc/vector"; mount dataVolumeName "/vector-data-dir"; mount "procfs" "/host/proc";
     mount "sysfs" "/host/sys"] ++
    (if vc_compress a then [mount "app-config-compress" "/tmp/archive"] else []) in
  let mounts := add_required vm_name (default [] (vc_mounts a)) required in
  if bool_decide (0 < size (ac_assets c))%nat
  then SetAuthoritativeVolumeMount mounts (mount SecretAssetsVolumeName SecretsMountPath)
  else mounts.

Definition generateVectorAggregatorEnvs (c : AggregatorController) : list EnvVar :=
  vc_env (ac_common c) ++ self_envs.

Definition VectorAggregatorContainer (c : AggregatorController) : Container :=
  let a := ac_common c in
  {| cont_name := getNameVectorAggregator c; cont_image := vc_image a;
     cont_args := ["--config-dir"; "/etc/vector"; "--watch-config"];
     cont_env := generateVectorAggregatorEnvs c; cont_env_from := vc_env_from a;
     cont_ports := [{| port_name := "prom-exporter"; port_number := DefaultInternalMetricsSinkPort;
                       port_protocol := "TCP" |}];
     cont_mounts := generateVectorAggregatorVolumeMounts c; cont_resources := vc_resources a;
     cont_settings := opt_setting "readinessProbe" (vc_readiness_probe a) ++
                      opt_setting "livenessProbe" (vc_liveness_probe a) ++
                      [("securityContext", vc_container_security_context a);
                       ("imagePullPolicy", vc_image_pull_policy a)] |}.

Definition aggregator_reloader (c : AggregatorController) (name init_mode : string) : Container :=
  let a := ac_common c in
  reloader_container (vc_reloader_image a) (vc_image_pull_policy a) (vc_container_security_context a)
    (vc_reloader_resources a) name init_mode.

Definition aggregator_ConfigReloaderInitContainer (c : AggregatorController) : Container :=
  aggregator_reloader c "init-config-reloader" "--init-mode=true".
Definition aggregator_ConfigReloaderSidecarContainer (c : AggregatorController) : Container :=
  aggregator_reloader c "config-reloader" "--init-mode=false".

Definition aggregator_pod (c : AggregatorController) : PodSpec :=
  let a := ac_common c in
  {| ps_volumes := generateVectorAggregatorVolume c;
     ps_init_containers := if vc_compress a then [aggregator_ConfigReloaderInitContainer c] else [];
     ps_containers := [VectorAggregatorContainer c] ++
                      (if vc_compress a then [aggregator_ConfigReloaderSidecarContainer c] else []);
     ps_settings := [("serviceAccountName", getNameVectorAggregator c);
                     ("topologySpreadConstraints", va_spread (ac_spec c))] ++ pod_settings a |}.

Definition aggregatorPodTemplateSpec (c : AggregatorController) : PodTemplate :=
  {| pt_meta := aggregator_meta c (ac_namespace c); pt_spec := aggregator_pod c |}.

Definition aggregatorReplicas (c : AggregatorController) : option Z :=
  if as_enabled (va_autoscaling (ac_spec c)) then None else va_replicas (ac_spec c).

(** A workload around a template: the template is the controller's own, or that with
    the restart mark. *)
Definition deployment_of (c : AggregatorController) (t : PodTemplate) : Object :=
  {| o_meta := aggregator_meta c (ac_namespace c);
     o_body := BDeployment {| dep_replicas := aggregatorReplicas c; dep_template := t;
                              dep_settings := selector_settings (matchLabelsForVectorAggregator c) |} |}.
Definition createVectorAggregatorDeployment (c : AggregatorController) : Object :=
  deployment_of c (aggregatorPodTemplateSpec c).

(** ** The StatefulSet ([statefulset.go]) *)

Definition volumeClaimTemplates (c : AggregatorController) : list ClaimTemplate :=
  let p := va_persistence (ac_spec c) in
  if negb (bool_decide (ps_claims p = [])) then ps_claims p else
  [{| ct_name := dataVolumeName; ct_storage := ps_size p;
      ct_settings := ((λ m, ("accessMode", m)) <$> ps_access_modes p) ++
                     opt_setting "storageClassName" (ps_storage_class p) |}].

Definition validatePersistence (c : AggregatorController) : result unit :=
  let p := va_persistence (ac_spec c) in
  if bool_decide (ps_claims p = []) then Ok tt
  else if bool_decide (dataVolumeName ∈ ct_name <$> ps_claims p) then Ok tt
  else Err (ErrText ("persistence.volumeClaimTemplates must include a claim named " +:+
                     quote dataVolumeName +:+ ", which backs the Vector data_dir")).

Definition statefulset_of (c : AggregatorController) (t : PodTemplate) : Object :=
  {| o_meta := aggregator_meta c (ac_namespace c);
     o_body := BStatefulSet {|
       sts_replicas := aggregatorReplicas c; sts_service_name := getHeadlessServiceName c;
       sts_pod_management := "Parallel"; sts_claims := volumeClaimTemplates c;
       sts_template := t; sts_update_strategy := "";
       sts_pvc_retention := default "" (ps_retention (va_persistence (ac_spec c))); sts_min_ready := "";
       sts_settings := selector_settings (matchLabelsForVectorAggregator c) |} |}.
Definition createVectorAggregatorStatefulSet (c : AggregatorController) : Object :=
  statefulset_of c (aggregatorPodTemplateSpec c).

(** ** RBAC ([rbac.go]) *)

Definition createVectorAggregatorServiceAccount (c : AggregatorController) : Object :=
  {| o_meta := aggregator_meta c (ac_namespace c); o_body := BServiceAccount |}.

Definition createVectorAggregatorClusterRole (c : AggregatorController) : Object :=
  {| o_meta := aggregator_meta c "";
     o_body := BClusterRole [("apiGroups", ""); ("resources", "namespaces, nodes, pods"); ("verbs", "list, watch")] |}.

(** The binding of a role to the service account of the same name. *)
Definition role_binding (name namespace : string) : Body :=
  BClusterRoleBinding
    [("kind", "ClusterRole"); ("apiGroup", "rbac.authorization.k8s.io"); ("name", name)]
    [("kind", "ServiceAccount"); ("name", name); ("namespace", namespace)].

Definition createVectorAggregatorClusterRoleBinding (c : AggregatorController) : Object :=
  {| o_meta := aggregator_meta c ""; o_body := role_binding (getNameVectorAggregator c) (ac_namespace c) |}.

(** ** Services ([service.go]) *)

Definition ApiPort : Z := 8686.

Definition port_settings (name : string) (proto : protocol) (port : Z) : settings :=
  [("name", name); ("protocol", protocol_name proto); ("port", itoa port); ("targetPort", itoa port)].

(** A Service of the sources of a pipeline. *)
Definition group_service (c : AggregatorController) (g : SPGroup) (ports : list ServicePort) : Object :=
  {| o_meta := with_name (spg_service g) (aggregator_meta c (ac_namespace c));
     o_body := BService ((ports ≫= λ sp, port_settings (kebab_case (sp_source_name sp)) (sp_protocol sp) (sp_port sp)) ++
                         selector_settings (matchLabelsForVectorAggregator c)) |}.

Definition createVectorAggregatorServices (c : AggregatorController) : list Object :=
  ((λ '(g, ports), group_service c g ports) <$> range_map 36 (GetSourcesServicePorts (ac_config c))) ++
  (if api_on (vc_api (ac_common c)) then
     [{| o_meta := aggregator_meta c (ac_namespace c);
         o_body := BService (port_settings "api" ProtocolTCP ApiPort ++ selector_settings (labelsForVectorAggregator c)) |}]
   else []) ++
  (if persistenceEnabled c then
     [{| o_meta := with_name (getHeadlessServiceName c) (aggregator_meta c (ac_namespace c));
         o_body := BService ([("clusterIP", "None"); ("publishNotReadyAddresses", "true")] ++
                             selector_settings (matchLabelsForVectorAggregator c)) |}]
   else []).

(** ** Autoscaler, disruption budget, PodMonitor ([hpa.go], [pdb.go], [podmonitor.go]) *)

Definition createVectorAggregatorHPA (c : AggregatorController) : Object :=
  let a := va_autoscaling (ac_spec c) in
  {| o_meta := aggregator_meta c (ac_namespace c);
     o_body := BHPA (opt_setting "minReplicas" (itoa <$> as_min a) ++
       [("maxReplicas", itoa (as_max a)); ("behavior", as_behavior a); ("metrics", as_metrics a);
        ("kind", if persistenceEnabled c then "StatefulSet" else "Deployment");
        ("name", getNameVectorAggregator c); ("apiVersion", "apps/v1")]) |}.

(** The replicas a budget would be for. *)
Definition maxReplicas (c : AggregatorController) : Z :=
  let s := ac_spec c in
  if as_enabled (va_autoscaling s) then as_max (va_autoscaling s) else default 1 (va_replicas s).

Definition createVectorAggregatorPodDisruptionBudget (c : AggregatorController) : Object :=
  let b := va_pdb (ac_spec c) in
  {| o_meta := aggregator_meta c (ac_namespace c);
     o_body := BPodDisruptionBudget (selector_settings (matchLabelsForVectorAggregator c) ++
       match pdb_min_available b, pdb_max_unavailable b with
       | Some m, _ => [("minAvailable", m)]
       | None, Some m => [("maxUnavailable", m)]
       | None, None => [("maxUnavailable", "1")]
       end ++
       [("unhealthyPodEvictionPolicy", default "AlwaysAllow" (pdb_unhealthy b))]) |}.

Definition createVectorAggregatorPodMonitor (c : AggregatorController) : Object :=
  {| o_meta := aggregator_meta c (ac_namespace c);
     o_body := BPodMonitor ([("path", "/metrics"); ("port", "prom-exporter")] ++
       set_setting "interval" (vc_scrape_interval (ac_common c)) ++
       set_setting "scrapeTimeout" (vc_scrape_timeout (ac_common c)) ++
       selector_settings (matchLabelsForVectorAggregator c)) |}.

(** ** Event collector ([event_collector.go]) *)

Definition createEventCollectorService (c : AggregatorController) : Object :=
  {| o_meta := collector_meta c (ac_namespace c);
     o_body := BService (port_settings "metrics" ProtocolTCP 8080 ++ selector_settings (labelsForEventCollector c)) |}.

(** [json.Marshal] of the collector's configuration, nil for the cleanup. *)
Definition receiver_json (r : ReceiverParams) : string :=
  json_obj [("ServiceName", json_quote (rp_service_name r)); ("ServiceNamespace", json_quote (rp_service_namespace r));
               ("Port", json_quote (rp_port r)); ("WatchedNamespace", json_quote (rp_watched_namespace r))].
Definition collector_json (params : option (Z * list ReceiverParams)) : string :=
  match params with
  | None => "null"
  | Some (batch, receivers) =>
      json_obj [("MaxBatchSize", itoa batch); ("Receivers", ("[" +:+ join "," (receiver_json <$> receivers) +:+ "]"))]
  end.

Definition createEventCollectorConfig (c : AggregatorController) (params : option (Z * list ReceiverParams)) : Object :=
  {| o_meta := collector_meta c (ac_namespace c);
     o_body := BConfigMap {["config.json" := collector_json params]} |}.

Definition eventCollectorContainer (c : AggregatorController) : Container :=
  let e := va_collector (ac_spec c) in
  {| cont_name := "event-collector"; cont_image := ec_image e; cont_args := []; cont_env := [];
     cont_env_from := []; cont_ports := []; cont_mounts := [mount "event-collector-config" "/etc/event-collector"];
     cont_resources := no_resources;
     cont_settings := [("imagePullPolicy", ec_pull_policy e);
                       ("securityContext", vc_container_security_context (ac_common c))] |}.

Definition generateEventCollectorVolume (c : AggregatorController) : list Volume :=
  default [] (vc_volumes (ac_common c)) ++
  [{| vol_name := "event-collector-config"; vol_source := VOther ("configMap: " +:+ collector_name c) |}].

Definition collector_pod (c : AggregatorController) : PodSpec :=
  {| ps_volumes := generateEventCollectorVolume c; ps_init_containers := [];
     ps_containers := [eventCollectorContainer c];
     ps_settings := [("serviceAccountName", collector_name c);
                     ("topologySpreadConstraints", va_spread (ac_spec c))] ++ pod_settings (ac_common c) |}.

(** The annotations are added to the map of the resource's specification, when it has
    one, and stay there. *)
Definition collector_annotations (a : gmap string string) : gmap string string :=
  <["prometheus.io/port" := "8080"]> (<["prometheus.io/scrape" := "true"]> a).

Definition createEventCollectorDeployment (c : AggregatorController) : AggregatorController * Object :=
  let annotations := collector_annotations (annotationsForVectorAggregator c) in
  let meta := objectMetaVectorAggregator c (labelsForEventCollector c) annotations (ac_namespace c) in
  (match vc_annotations (ac_common c) with
   | Some _ => with_ac_agg (with_ag_spec (with_va_common (with_annotations (Some annotations) (ac_common c))
                 (ac_spec c)) (ac_agg c)) c
   | None => c
   end,
   {| o_meta := with_name (collector_name c) meta;
      o_body := BDeployment {| dep_replicas := Some 1;
        dep_template := {| pt_meta := meta; pt_spec := collector_pod c |};
        dep_settings := selector_settings (labelsForEventCollector c) |} |}).

Definition createEventCollectorClusterRole (c : AggregatorController) : Object :=
  {| o_meta := collector_meta c "";
     o_body := BClusterRole [("apiGroups", ""); ("resources", "events"); ("verbs", "list, watch")] |}.
Definition createEventCollectorServiceAccount (c : AggregatorController) : Object :=
  {| o_meta := collector_meta c (ac_namespace c); o_body := BServiceAccount |}.
Definition createEventCollectorClusterRoleBinding (c : AggregatorController) : Object :=
  {| o_meta := collector_meta c ""; o_body := role_binding (collector_name c) (ac_namespace c) |}.
End builders.
