(* ===== verification/AggregatorController.v ===== *)
(** * Publishing an aggregator

    [src/internal/vector/aggregator]: the status writes and the reads of
    [controller.go] and [config.go], what is known of the two workload kinds
    ([secretAssetsMountState]), and the writes of a round in their order
    ([EnsureVectorAggregator]). A controller is threaded through the writes, because
    some of them change the annotations of the resource's specification in memory. *)

From S2P Require Export AggregatorPod AgentController.

Definition set_ac_status (s : WorkloadStatus) (c : AggregatorController) : AggregatorController :=
  with_ac_agg (with_ag_status s (ac_agg c)) c.
Definition set_ac_annotations (a : gmap string string) (c : AggregatorController) : AggregatorController :=
  with_ac_agg (with_ag_spec (with_va_common (with_annotations (Some a) (ac_common c)) (ac_spec c)) (ac_agg c)) c.

(** ** The workloads on the cluster ([secretAssetsMountState]) *)

Record secretAssetsMountState := {
  deploymentExists : bool;
  deploymentMounted : bool;
  statefulSetExists : bool;
  statefulSetMounted : bool
}.

Definition anyMounted (s : secretAssetsMountState) : bool := deploymentMounted s || statefulSetMounted s.
Definition allMounted (s : secretAssetsMountState) : bool :=
  if negb (deploymentExists s) && negb (statefulSetExists s) then false
  else (negb (deploymentExists s) || deploymentMounted s) && (negb (statefulSetExists s) || statefulSetMounted s).
Definition obsoleteWorkloadExists (s : secretAssetsMountState) (persistenceEnabled : bool) : bool :=
  if persistenceEnabled then deploymentExists s else statefulSetExists s.

Section operations.
Context `{GoRuntime, Libraries, KubeApi}.

(** ** Status *)

Definition aggregator_StampConfigPublishing (c : AggregatorController) : K AggregatorController :=
  now ← k_now;
  let stamped := with_published_at (Some (metav1_time now)) (ac_status c) in
  _ ← PatchWorkloadStatus stamped (ac_status c);
  mret (set_ac_status stamped c).

Definition aggregator_SetSuccessStatus (c : AggregatorController) : Z → Z → bool → K unit :=
  success_patch (ac_status c).
Definition aggregator_SetFailedStatus (c : AggregatorController) : string → K unit := failed_patch (ac_status c).

(** ** What is on the cluster *)

Definition ac_secret_key (c : AggregatorController) (name : string) : ObjKey := (KSecret, ac_namespace c, name).
Definition workload_key (c : AggregatorController) (kind : obj_kind) : ObjKey :=
  (kind, ac_namespace c, getNameVectorAggregator c).

Definition aggregator_safety_reader (c : AggregatorController) (decision : string) : K unit :=
  if ac_reader c then mret tt
  else k_fail (ErrText ("APIReader is not set: " +:+ decision +:+ " must not be decided from the cache")).

Definition aggregator_PublishedConfigMatches (c : AggregatorController) (byteConfig : string) : K bool :=
  _ ← aggregator_safety_reader c "the secret-assets prune gate";
  o ← k_find (ac_secret_key c (getNameVectorAggregator c));
  mret (match o with
        | Some o => bool_decide (map_get (data_of o) "config.json" = aggregator_stored_config c byteConfig)
        | None => false
        end).

Definition aggregator_ExistingSecretAssets (c : AggregatorController) : K (gmap string string) :=
  _ ← aggregator_safety_reader c "the secret-assets bridge and prune plan";
  o ← k_find (ac_secret_key c (aggregator_getSecretAssetsName c));
  mret (match o with Some o => data_of o | None => ∅ end).

(** Whether a workload exists and has the operator's own mount. *)
Definition mount_of (c : AggregatorController) (o : option Object) : bool :=
  match o ≫= template_of with
  | Some t => HasOperatorSecretAssetsMount (pt_spec t) (aggregator_getSecretAssetsName c) SecretsMountPath
  | None => false
  end.

Definition readSecretAssetsMountState (c : AggregatorController) : K secretAssetsMountState :=
  if negb (ac_reader c)
  then k_fail (ErrText "APIReader is not set: the secret-assets write-order gate must not be decided from the cache")
  else
    dep ← k_find (workload_key c KDeployment);
    sts ← k_find (workload_key c KStatefulSet);
    mret {| deploymentExists := bool_decide (is_Some dep); deploymentMounted := mount_of c dep;
            statefulSetExists := bool_decide (is_Some sts); statefulSetMounted := mount_of c sts |}.

(** ** Secrets ([config.go]) *)

Definition ensureVectorAggregatorConfig (c : AggregatorController) : K unit := apply (createVectorAggregatorConfig c).

Definition deleteSecretAssetsSecret (c : AggregatorController) : K unit :=
  k_delete_ignore (ac_secret_key c (aggregator_getSecretAssetsName c)).

Definition ensureVectorAggregatorSecretAssets (c : AggregatorController) : K unit :=
  if bool_decide (size (ac_assets c) = 0%nat) then deleteSecretAssetsSecret c
  else apply (aggregator_createSecretAssetsSecret c).

(** ** The workload ([deployment.go], [statefulset.go]) *)

Definition aggregator_globalConfigChanged (c : AggregatorController) : bool :=
  match ws_last_applied_global_hash (ac_status c) with
  | None => false
  | Some h => negb (h =? GetGlobalConfigHash (ac_config c))
  end.

(** The restart mark goes to the map of the resource's specification, when it has one. *)
Definition aggregator_mark_restart (build : AggregatorController → PodTemplate → Object)
    (c : AggregatorController) (now : string) : AggregatorController * Object :=
  match vc_annotations (ac_common c) with
  | Some a =>
      let c' := set_ac_annotations (<[AnnotationRestartedAt := now]> a) c in
      (c', build c' (aggregatorPodTemplateSpec c'))
  | None =>
      let meta := objectMetaVectorAggregator c (labelsForVectorAggregator c) {[AnnotationRestartedAt := now]}
                    (ac_namespace c) in
      (c, build c {| pt_meta := meta; pt_spec := aggregator_pod c |})
  end.

(** The workload of this round, created or updated. *)
Definition apply_workload (build : AggregatorController → PodTemplate → Object) (c : AggregatorController)
    : K AggregatorController :=
  if aggregator_globalConfigChanged c then
    now ← k_now;
    let '(c', o) := aggregator_mark_restart build c (rfc3339 now) in
    _ ← apply o; mret c'
  else _ ← apply (build c (aggregatorPodTemplateSpec c)); mret c.

Definition deleteObsoleteWorkload (c : AggregatorController) (kind : obj_kind) : K unit :=
  k_delete_ignore (workload_key c kind).

Definition ensureVectorAggregatorDeployment (obsolete : bool) (c : AggregatorController) : K AggregatorController :=
  c ← apply_workload deployment_of c;
  _ ← k_when obsolete (deleteObsoleteWorkload c KStatefulSet);
  mret c.

Definition ensureVectorAggregatorStatefulSet (obsolete : bool) (c : AggregatorController) : K AggregatorController :=
  _ ← k_lift (validatePersistence c);
  c ← apply_workload statefulset_of c;
  _ ← k_when obsolete (deleteObsoleteWorkload c KDeployment);
  mret c.

Definition ensureWorkload (obsolete : bool) (c : AggregatorController) : K AggregatorController :=
  if persistenceEnabled c then ensureVectorAggregatorStatefulSet obsolete c
  else ensureVectorAggregatorDeployment obsolete c.

(** ** The rest *)

Definition ensureVectorAggregatorServiceAccount (c : AggregatorController) : K unit :=
  apply (createVectorAggregatorServiceAccount c).
Definition ensureVectorAggregatorClusterRole (c : AggregatorController) : K unit :=
  apply (createVectorAggregatorClusterRole c).
Definition ensureVectorAggregatorClusterRoleBinding (c : AggregatorController) : K unit :=
  apply (createVectorAggregatorClusterRoleBinding c).
Definition ensureVectorAggregatorRBAC (c : AggregatorController) : K unit :=
  _ ← ensureVectorAggregatorServiceAccount c;
  _ ← ensureVectorAggregatorClusterRole c;
  ensureVectorAggregatorClusterRoleBinding c.

(** The Services by name; [listed] is what the cache answers. *)
Definition getExistingServices (listed : result (list Object)) : result (gmap string Object) :=
  l ← listed; Ok (fold_left (λ m o, <[om_name (o_meta o) := o]> m) l ∅).

(** The Services of the round, then the deletion of those it has no use for. *)
Definition ensureVectorAggregatorService (listed : result (list Object)) (c : AggregatorController) : K unit :=
  existing ← k_lift (getExistingServices listed);
  let svcs := createVectorAggregatorServices c in
  _ ← k_iter apply svcs;
  let stale := fold_left (λ m svc, delete (om_name (o_meta svc)) m) svcs existing in
  k_iter (λ kv, k_delete (KService, om_namespace (o_meta kv.2), om_name (o_meta kv.2))) (range_map 37 stale).

Definition ensureVectorAggregatorPodMonitor (c : AggregatorController) : K unit :=
  apply (createVectorAggregatorPodMonitor c).

Definition cleanupHPA (c : AggregatorController) : K unit := k_delete_ignore (key_of (createVectorAggregatorHPA c)).
Definition ensureVectorAggregatorHPA (c : AggregatorController) : K unit :=
  if negb (as_enabled (va_autoscaling (ac_spec c))) then cleanupHPA c
  else apply (createVectorAggregatorHPA c).

Definition ensureVectorAggregatorPodDisruptionBudget (c : AggregatorController) : K unit :=
  let pdb := createVectorAggregatorPodDisruptionBudget c in
  if negb (pdb_enabled (va_pdb (ac_spec c))) || (maxReplicas c <=? 1) then k_delete_ignore (key_of pdb)
  else apply pdb.

(** ** The event collector ([event_collector.go]) *)

Definition ensureEventCollectorServiceAccount (c : AggregatorController) : K unit :=
  apply (createEventCollectorServiceAccount c).
Definition ensureEventCollectorClusterRole (c : AggregatorController) : K unit :=
  apply (createEventCollectorClusterRole c).
Definition ensureEventCollectorClusterRoleBinding (c : AggregatorController) : K unit :=
  apply (createEventCollectorClusterRoleBinding c).
Definition ensureEventCollectorRBAC (c : AggregatorController) : K unit :=
  _ ← ensureEventCollectorServiceAccount c;
  _ ← ensureEventCollectorClusterRole c;
  ensureEventCollectorClusterRoleBinding c.

Definition cleanupEventCollector (c : AggregatorController) : K AggregatorController :=
  let '(c, deployment) := createEventCollectorDeployment c in
  _ ← k_delete_ignore (key_of deployment);
  _ ← k_delete_ignore (key_of (createEventCollectorService c));
  _ ← k_delete_ignore (key_of (createEventCollectorClusterRoleBinding c));
  _ ← k_delete_ignore (key_of (createEventCollectorClusterRole c));
  _ ← k_delete_ignore (key_of (createEventCollectorServiceAccount c));
  _ ← k_delete_ignore (key_of (createEventCollectorConfig c None));
  mret c.

Definition ensureEventCollector (c : AggregatorController) : K AggregatorController :=
  match GetEventCollectorConfig (ac_namespace c) (ac_config c) with
  | None => cleanupEventCollector c
  | Some receivers =>
      _ ← apply (createEventCollectorConfig c (Some (ec_max_batch (va_collector (ac_spec c)), receivers)));
      _ ← ensureEventCollectorRBAC c;
      _ ← apply (createEventCollectorService c);
      let '(c, deployment) := createEventCollectorDeployment c in
      _ ← apply deployment;
      mret c
  end.

(** ** The round *)

(** The secrets, the configuration and the workload, in the order of the round. *)
Definition aggregator_publish (c : AggregatorController) (configPublishing : bool) (state : secretAssetsMountState)
    : K AggregatorController :=
  let willHaveMount := bool_decide (0 < size (ac_assets c))%nat in
  let obsolete := obsoleteWorkloadExists state (persistenceEnabled c) in
  let stampBeforeConfig c := if configPublishing then aggregator_StampConfigPublishing c else mret c in
  if willHaveMount && negb (allMounted state) then
    _ ← ensureVectorAggregatorSecretAssets c;
    c ← ensureWorkload obsolete c;
    c ← stampBeforeConfig c;
    _ ← ensureVectorAggregatorConfig c;
    mret c
  else if negb willHaveMount && anyMounted state then
    c ← stampBeforeConfig c;
    _ ← ensureVectorAggregatorConfig c;
    c ← ensureWorkload obsolete c;
    _ ← ensureVectorAggregatorSecretAssets c;
    mret c
  else
    _ ← ensureVectorAggregatorSecretAssets c;
    c ← stampBeforeConfig c;
    _ ← ensureVectorAggregatorConfig c;
    ensureWorkload obsolete c.

Definition EnsureVectorAggregator (monitoringCRD : result bool) (listed : result (list Object))
    (c : AggregatorController) (configPublishing : bool) : K AggregatorController :=
  monitoring ← k_lift monitoringCRD;
  state ← readSecretAssetsMountState c;
  c ← aggregator_publish c configPublishing state;
  _ ← ensureVectorAggregatorRBAC c;
  _ ← ensureVectorAggregatorService listed c;
  _ ← k_when (vc_internal_metrics (ac_common c) && monitoring) (ensureVectorAggregatorPodMonitor c);
  c ← ensureEventCollector c;
  _ ← ensureVectorAggregatorHPA c;
  _ ← ensureVectorAggregatorPodDisruptionBudget c;
  mret c.

(** ** Deletion *)

Definition deleteVectorAggregatorClusterRole (c : AggregatorController) : K unit :=
  k_delete (key_of (createVectorAggregatorClusterRole c)).
Definition deleteVectorAggregatorClusterRoleBinding (c : AggregatorController) : K unit :=
  k_delete (key_of (createVectorAggregatorClusterRoleBinding c)).
Definition DeleteVectorAggregator (c : AggregatorController) : K unit :=
  _ ← deleteVectorAggregatorClusterRole c;
  deleteVectorAggregatorClusterRoleBinding c.
End operations.
