(* ===== verification/AggregatorReconciler.v ===== *)
(** * Reconciling aggregators

    [src/internal/controller/vectoraggregator_controller.go] and
    [clustervectoraggregator_controller.go]: one round, which both kinds share from the
    selection of the pipelines on, and the life of the finalizer of the namespaced one. *)

From S2P Require Export Round AggregatorController.

Record AggregatorReconciler := {
  ar_check_timeout : Z;
  ar_reader : bool       (** [APIReader] is set *)
}.

Definition aggregatorFinalizerName : string := "vectoraggregator.observability.kaasops.io/finalizer".

(** [setAggregatorTypeMetaIfNeeded] and [setClusterAggregatorTypeMetaIfNeeded] *)
Definition with_type_meta (kind : string) (g : Aggregator) : Aggregator :=
  if bool_decide (ag_kind g = "" ∨ ag_api_version g = "") then
    {| ag_cluster := ag_cluster g; ag_namespace := ag_namespace g;
       ag_resource_namespace := ag_resource_namespace g; ag_name := ag_name g; ag_uid := ag_uid g;
       ag_kind := kind; ag_api_version := "observability.kaasops.io/v1alpha1"; ag_deleted := ag_deleted g;
       ag_finalizers := ag_finalizers g; ag_spec := ag_spec g; ag_status := ag_status g |}
  else g.
Definition setAggregatorTypeMetaIfNeeded : Aggregator → Aggregator := with_type_meta "VectorAggregator".
Definition setClusterAggregatorTypeMetaIfNeeded : Aggregator → Aggregator := with_type_meta "ClusterVectorAggregator".

Definition with_finalizers (l : list string) (g : Aggregator) : Aggregator := {|
  ag_cluster := ag_cluster g; ag_namespace := ag_namespace g; ag_resource_namespace := ag_resource_namespace g;
  ag_name := ag_name g; ag_uid := ag_uid g; ag_kind := ag_kind g; ag_api_version := ag_api_version g;
  ag_deleted := ag_deleted g; ag_finalizers := l; ag_spec := ag_spec g; ag_status := ag_status g |}.

(** [controllerutil.ContainsFinalizer], [AddFinalizer] and [RemoveFinalizer] *)
Definition HasFinalizer (g : Aggregator) (name : string) : bool := bool_decide (name ∈ ag_finalizers g).
Definition AddFinalizer (g : Aggregator) (name : string) : Aggregator :=
  if HasFinalizer g name then g else with_finalizers (ag_finalizers g ++ [name]) g.
Definition RemoveFinalizer (g : Aggregator) (name : string) : Aggregator :=
  with_finalizers (filter (λ f, f ≠ name) (ag_finalizers g)) g.

(** The controller of a round. *)
Definition init_aggregator `{GoRuntime} (Version : string) (r : AggregatorReconciler) (g : Aggregator)
    : AggregatorController :=
  let c := aggregator_NewController Version g in
  {| ac_agg := ac_agg c; ac_reader := ar_reader r; ac_bytes := ac_bytes c; ac_config := ac_config c;
     ac_assets := ac_assets c |}.

(** What the build and the decisions add to it. *)
Definition aggregator_with_round (cfg : VectorConfig) (bytes : string) (assets : gmap string string)
    (c : AggregatorController) : AggregatorController :=
  {| ac_agg := ac_agg c; ac_reader := ac_reader c; ac_bytes := bytes; ac_config := cfg; ac_assets := assets |}.

Section reconcile.
Context `{GoRuntime, Libraries, KubeApi}.
Context (Version : string).
(** [VectorConfig.MarshalJSON], by the YAML libraries. *)
Context (marshal : VectorConfig → result string).

Definition aggregator_params (c : AggregatorController) (getter : SecretGetter) : VectorConfigParams :=
  {| AggregatorName := ac_name c; ApiEnabled := api_on (vc_api (ac_common c));
     PlaygroundEnabled := api_play (vc_api (ac_common c)); UseApiServerCache := false;
     InternalMetrics := vc_internal_metrics (ac_common c);
     params_ExpireMetricsSecs := vc_expire_metrics_secs (ac_common c); OptimizeSources := false;
     PipelineSecretGetter := getter |}.

Definition aggregator_filter (c : AggregatorController) : FilterPipelines :=
  {| f_scope := if ag_cluster (ac_agg c) then ClusterPipelines else NamespacedPipeline;
     f_selector := va_selector (ac_spec c); f_role := VectorPipelineRoleAggregator;
     f_namespace := if ag_cluster (ac_agg c) then "" else ac_namespace c |}.

Definition aggregator_ref (g : Aggregator) : WorkloadRef :=
  {| wr_kind := if ag_cluster g then "ClusterVectorAggregator" else "VectorAggregator";
     wr_namespace := if ag_cluster g then "" else ag_namespace g; wr_name := ag_name g |}.

(** The rest of a round whose configuration is built and checked. *)
Definition aggregator_publish_round (inp : round_inputs) (services : result (list Object))
    (c : AggregatorController) (existing : gmap string string) (datas : list (gmap string string))
    (reinstate : list Pipeline) (cfg : VectorConfig) (bytes : string) (configUnchanged : bool) : K Z :=
  '(prune, requeueAfter) ← prune_when (ac_status c) configUnchanged (assetsWouldDropAKey existing (SecretAssets cfg));
  let assets := if prune : bool then SecretAssets cfg else default ∅ (datas !! 0%nat) in
  c ← EnsureVectorAggregator (ri_monitoring inp) services (aggregator_with_round cfg bytes assets c)
        (negb configUnchanged);
  _ ← reinstatePipelines reinstate;
  _ ← aggregator_SetSuccessStatus c (hash_Get bytes) (GetGlobalConfigHash cfg) (negb configUnchanged);
  mret requeueAfter.

(** What both kinds do once the namespace is there; the result is [RequeueAfter]. *)
Definition aggregator_round (r : AggregatorReconciler) (inp : round_inputs) (services : result (list Object))
    (c : AggregatorController) : K Z :=
  let getter := ri_getter inp in
  let proto := Some (aggregator_SecretAssetsPrototype c) in
  let ref := aggregator_ref (ac_agg c) in
  sel ← resolveWorkloadPipelines (ri_lister inp) getter (aggregator_filter c) ref proto;
  existing ← aggregator_ExistingSecretAssets c;
  '(datas, bridge, waiting) ← k_lift (planSecretAssetsBridge getter proto (sel_result sel) [existing]);
  _ ← markWaitingPipelines waiting ref;
  let reinstate := intersectPipelinesByKey (sel_reinstate sel) bridge in
  match BuildAggregatorConfig (aggregator_params c getter) bridge with
  | Err e => _ ← aggregator_SetFailedStatus c (error_string e); mret 0
  | Ok cfg =>
      bytes ← k_lift (marshal cfg);
      configUnchanged ← aggregator_PublishedConfigMatches c bytes;
      go_on ← check_config (ar_check_timeout r) inp (ac_common c) (ac_status c) (ac_name c) (ac_namespace c) cfg bytes;
      if go_on : bool
      then aggregator_publish_round inp services c existing datas reinstate cfg bytes configUnchanged
      else mret 0
  end.

Definition createOrUpdateVectorAggregator (r : AggregatorReconciler) (inp : round_inputs)
    (services : result (list Object)) (g : Aggregator) : K Z :=
  terminating ← NamespaceIsTerminating (ag_namespace g);
  if terminating : bool then mret 0 else
  aggregator_round r inp services (init_aggregator Version r g).

Definition createOrUpdateClusterVectorAggregator (r : AggregatorReconciler) (inp : round_inputs)
    (services : result (list Object)) (g : Aggregator) : K Z :=
  let c := init_aggregator Version r g in
  if bool_decide (ac_namespace c = "") then
    _ ← aggregator_SetFailedStatus c "spec.resourceNamespace is empty"; mret 0
  else
    terminating ← NamespaceIsTerminating (ac_namespace c);
    if terminating : bool then mret 0 else
    aggregator_round r inp services c.

(** ** [Reconcile] *)

(** Listings and reads of the resources themselves are arguments, as is the answer to
    [Update]; [Some g] is the object it was sent. *)
Definition listVectorAggregators (l : result (list Aggregator)) : result (list Aggregator) :=
  l ← l; Ok (map setAggregatorTypeMetaIfNeeded l).
Definition listClusterVectorAggregators (l : result (list Aggregator)) : result (list Aggregator) :=
  l ← l; Ok (map setClusterAggregatorTypeMetaIfNeeded l).

Definition deleteVectorAggregator (g : Aggregator) : K unit :=
  DeleteVectorAggregator (aggregator_NewController Version g).

(** Creating the controller has put the defaults into the resource. *)
Definition finalize_aggregator (update : Aggregator → result unit) (g : Aggregator) : K (option Aggregator) :=
  if HasFinalizer g aggregatorFinalizerName then
    err ← k_try (deleteVectorAggregator g);
    _ ← match err with
        | Err e => if is_not_found e then mret tt else k_fail e
        | Ok _ => mret tt
        end;
    let g' := RemoveFinalizer (ac_agg (aggregator_NewController Version g)) aggregatorFinalizerName in
    _ ← k_lift (update g');
    mret (Some g')
  else mret None.

Definition reconcileVectorAggregators (r : AggregatorReconciler) (inp : Aggregator → round_inputs)
    (services : Aggregator → result (list Object)) (aggregators : list Aggregator) : K Z :=
  _ ← k_iter (λ g, if ag_deleted g then mret tt else
        _ ← createOrUpdateVectorAggregator r (inp g) (services g) g; mret tt) aggregators;
  mret 0.

(** A request without a namespace, for a cluster-scoped object, is for every
    aggregator of its name. *)
Definition aggregator_Reconcile (r : AggregatorReconciler) (inp : Aggregator → round_inputs)
    (services : Aggregator → result (list Object)) (update : Aggregator → result unit)
    (req : NamespacedName) (listed : result (list Aggregator)) (found : result Aggregator)
    : K (option Aggregator * Z) :=
  if bool_decide (req.1 = "") then
    l ← k_lift (listVectorAggregators listed);
    z ← reconcileVectorAggregators r inp services (filter (λ g, ag_name g = req.2) l);
    mret (None, z)
  else
    match found with
    | Err e => if is_not_found e then mret (None, 0) else k_fail e
    | Ok g =>
        let g := setAggregatorTypeMetaIfNeeded g in
        if ag_deleted g then u ← finalize_aggregator update g; mret (u, 0)
        else if negb (HasFinalizer g aggregatorFinalizerName) then
          let g' := AddFinalizer g aggregatorFinalizerName in
          _ ← k_lift (update g'); mret (Some g', 0)
        else z ← createOrUpdateVectorAggregator r (inp g) (services g) g; mret (None, z)
    end.

Definition cluster_aggregator_Reconcile (r : AggregatorReconciler) (inp : Aggregator → round_inputs)
    (services : Aggregator → result (list Object)) (found : result Aggregator) : K Z :=
  match found with
  | Err e => if is_not_found e then mret 0 else k_fail e
  | Ok g =>
      let g := setClusterAggregatorTypeMetaIfNeeded g in
      createOrUpdateClusterVectorAggregator r (inp g) (services g) g
  end.
End reconcile.
