(* ===== verification/AggregatorSafety.v ===== *)
(** * Every pod an aggregator's rounds can leave behind can start

    An aggregator is a Deployment or a StatefulSet; a change of persistence leaves both
    alive for a while. [inv2] says of both templates, the configuration and the assets
    what [AgentSafety] says of an agent's, every write of a round keeps it in the order
    the controller chooses from what is on the cluster, and [aggregator_pods_start]
    follows for all the rounds of both kinds of aggregator. The hypothesis on
    [kubernetes_events] sources it needs is not idle: [events_source_unsafe]. *)

From S2P Require Export AggregatorReconciler VectorSafety.

(** ** Views *)

(** The template of the kind a round writes, that of the other kind, and the data of
    the configuration and the assets. *)
Record aview := {
  acur : option PodTemplate;
  aobs : option PodTemplate;
  acfg : option (gmap string string);
  aas : option (gmap string string)
}.

Definition set_cur t x := {| acur := t; aobs := aobs x; acfg := acfg x; aas := aas x |}.
Definition set_obs t x := {| acur := acur x; aobs := t; acfg := acfg x; aas := aas x |}.
Definition set_acfg d x := {| acur := acur x; aobs := aobs x; acfg := d; aas := aas x |}.
Definition set_aas d x := {| acur := acur x; aobs := aobs x; acfg := acfg x; aas := d |}.

Definition aggregator_view (kc ko : obj_kind) (ns n : string) (w : world) : aview := {|
  acur := w_objects w !! (kc, ns, n) ≫= template_of;
  aobs := w_objects w !! (ko, ns, n) ≫= template_of;
  acfg := secret_data w (KSecret, ns, n);
  aas := secret_data w (KSecret, ns, assets_name n)
|}.

(** The two orders of the kinds. *)
Definition workload_kinds (kc ko : obj_kind) : Prop :=
  kc = KDeployment ∧ ko = KStatefulSet ∨ kc = KStatefulSet ∧ ko = KDeployment.

Definition own_aggregator_keys (ns n : string) : list ObjKey :=
  [(KDeployment, ns, n); (KStatefulSet, ns, n); (KSecret, ns, n); (KSecret, ns, assets_name n)].

Lemma assets_name_ne n : assets_name n ≠ n.
Proof. intros He%(f_equal String.length). unfold assets_name in He. rewrite string_length_app in He. simpl in He. lia. Qed.

Section views.
Context (kc ko : obj_kind) (ns n : string).
Context (Hk : workload_kinds kc ko).

Notation vw := (aggregator_view kc ko ns n).

Lemma aview_put_cur o o' w :
  key_of o = (kc, ns, n) → vw (set_objects <[key_of o := o']> w) = set_cur (template_of o') (vw w).
Proof using Hk.
  intros Ho. unfold aggregator_view, set_cur, secret_data. simpl. rewrite !Ho.
  rewrite lookup_insert_eq, !lookup_insert_ne; [done|destruct Hk as [[-> ->]|[-> ->]]; congruence..].
Qed.

Lemma aview_delete_obs w :
  vw (set_objects (delete (ko, ns, n)) w) = set_obs None (vw w).
Proof using Hk.
  unfold aggregator_view, set_obs, secret_data. simpl.
  rewrite lookup_delete_eq, !lookup_delete_ne; [done|destruct Hk as [[-> ->]|[-> ->]]; congruence..].
Qed.

Lemma aview_put_secret o o' w m :
  key_of o = (KSecret, ns, m) → m = n ∨ m = assets_name n →
  vw (set_objects <[key_of o := o']> w) =
    if decide (m = n) then set_acfg (Some (data_of o')) (vw w) else set_aas (Some (data_of o')) (vw w).
Proof using Hk.
  intros Ho Hm. pose proof (assets_name_ne n) as Hne. unfold aggregator_view. rewrite !secret_data_insert. simpl. rewrite !Ho.
  rewrite !lookup_insert_ne by (destruct Hk as [[-> ->]|[-> ->]]; congruence).
  unfold set_acfg, set_aas. destruct Hm as [->| ->].
  - rewrite decide_True, decide_False, decide_True by congruence. done.
  - rewrite decide_False, decide_True, decide_False by congruence. done.
Qed.

Lemma aview_delete_assets w :
  vw (set_objects (delete (KSecret, ns, assets_name n)) w) = set_aas None (vw w).
Proof using Hk.
  pose proof (assets_name_ne n) as Hne. unfold aggregator_view, set_aas. rewrite !secret_data_delete. simpl.
  rewrite !lookup_delete_ne by (destruct Hk as [[-> ->]|[-> ->]]; congruence).
  by rewrite decide_False, decide_True by congruence.
Qed.

(** The view shows the objects of its four keys. *)
Lemma aview_same w w' :
  (∀ k, k ∈ own_aggregator_keys ns n → w_objects w' !! k = w_objects w !! k) → vw w' = vw w.
Proof using Hk.
  intros Hs. unfold aggregator_view, secret_data.
  assert (Hc : (kc, ns, n) ∈ own_aggregator_keys ns n ∧ (ko, ns, n) ∈ own_aggregator_keys ns n)
    by (unfold own_aggregator_keys; destruct Hk as [[-> ->]|[-> ->]]; set_solver).
  rewrite !Hs; [done|unfold own_aggregator_keys; set_solver|unfold own_aggregator_keys; set_solver|apply Hc..].
Qed.

Lemma aview_put_other k o w : k ∉ own_aggregator_keys ns n → vw (set_objects <[k := o]> w) = vw w.
Proof using Hk. intros Hn. apply aview_same. intros k' Hk'. simpl. rewrite lookup_insert_ne; [done|congruence]. Qed.

Lemma aview_delete_other k w : k ∉ own_aggregator_keys ns n → vw (set_objects (delete k) w) = vw w.
Proof using Hk. intros Hn. apply aview_same. intros k' Hk'. simpl. rewrite lookup_delete_ne; [done|congruence]. Qed.

Lemma other_kind_apart k : k.1.1 ∉ [KDeployment; KStatefulSet; KSecret] → k ∉ own_aggregator_keys ns n.
Proof. clear Hk. intros Hn Hk. apply Hn. unfold own_aggregator_keys in Hk. set_solver. Qed.
End views.

Lemma template_of_applied `{GoRuntime} o t w :
  template_of o = Some t → template_of (applied o w) = Some t.
Proof.
  unfold applied. generalize (default o (w_objects w !! key_of o)). intros e.
  destruct o as [m b], e as [m' b']. unfold template_of, mutation. destruct b; simpl; try done.
  destruct b'; try done. by destruct (om_created m').
Qed.

(** ** The invariant *)

Section invariant.
Context (refs : string → gset string) (n : string).

Definition stored_refs (d : option (gmap string string)) : gset string :=
  match d ≫= lookup "config.json" with Some b => refs b | None => ∅ end.

Definition live (x : aview) (t : PodTemplate) : Prop := acur x = Some t ∨ aobs x = Some t.

(** Between two rounds: a pod of either workload starts, and the assets hold what the
    configuration refers to. *)
Record at_rest2 (x : aview) : Prop := {
  a_pod t : live x t →
    (mounts t n → is_Some (aas x)) ∧
    (uses t n → ∀ k, k ∈ stored_refs (acfg x) → mounts t n ∧ k ∈ held (aas x));
  a_keys : stored_refs (acfg x) ⊆ held (aas x)
}.

Lemma at_rest2_empty : at_rest2 {| acur := None; aobs := None; acfg := None; aas := None |}.
Proof. split; [by intros t [?|?]|]. apply empty_subseteq. Qed.

(** In a round that stages [SA], what is stored refers only to it. *)
Context (SA : gmap string string).
Definition inv2 (x : aview) : Prop := at_rest2 x ∧ stored_refs (acfg x) ⊆ dom SA.

Lemma stored_idle x : inv2 x → SA = ∅ → stored_refs (acfg x) = ∅.
Proof. intros [_ Ht] ->. set_solver. Qed.

Lemma act2_assets x : inv2 x → SA ≠ ∅ → inv2 (set_aas (Some SA) x).
Proof.
  intros [[Hp Hk] Ht] Hw. split; [|done]. split; [|done]. intros t Hl. destruct (Hp t Hl) as [_ Hu].
  split; [by eexists|]. intros Huse k Hkr; simpl in *. split; [by apply (Hu Huse k Hkr)|]. by apply Ht.
Qed.

Lemma act2_no_assets x :
  inv2 x → SA = ∅ → (∀ t, live x t → ¬ mounts t n) → inv2 (set_aas None x).
Proof.
  intros Hi Hw Hun. pose proof (stored_idle x Hi Hw) as Hr. destruct Hi as [[Hp Hk] Ht]. split; [|done].
  split; simpl; [|rewrite Hr; apply empty_subseteq]. intros t Hl. split; [intros Hm; by destruct (Hun t Hl)|].
  rewrite Hr. intros _ k. set_solver.
Qed.

Lemma act2_config x d :
  inv2 x → stored_refs (Some d) ⊆ dom SA →
  (SA ≠ ∅ → aas x = Some SA ∧ ∀ t, live x t → mounts t n) → inv2 (set_acfg (Some d) x).
Proof.
  intros [[Hp Hk] Ht] Hd Hw. assert (Hcase : SA ≠ ∅ ∨ stored_refs (Some d) = ∅).
  { destruct (decide (SA = ∅)) as [He|]; [right; rewrite He in Hd; set_solver | by left]. }
  split; [|done]. split; simpl.
  - intros t Hl. destruct (Hp t Hl) as [Hm _]. split; [done|]. intros Huse k Hkr; simpl in *.
    destruct Hcase as [Hc|Hc]; [|set_solver]. destruct (Hw Hc) as [-> Hmt].
    split; [by apply Hmt|]. unfold held. simpl. by apply Hd.
  - destruct Hcase as [Hc|Hc]; [|rewrite Hc; apply empty_subseteq]. destruct (Hw Hc) as [-> _]. exact Hd.
Qed.

(** A template that has the mount exactly when something is staged. *)
Lemma act2_template x t :
  inv2 x → (mounts t n ↔ SA ≠ ∅) → (SA ≠ ∅ → aas x = Some SA) → inv2 (set_cur (Some t) x).
Proof.
  intros Hi Hm Hst. pose proof (stored_idle x Hi) as Hidle. destruct Hi as [[Hp Hk] Ht]. split; [|done].
  split; [|done]. intros t' [[= <-]|Hl]; [|by apply Hp; right]. split; simpl.
  - intros Hmt%Hm. rewrite (Hst Hmt). by eexists.
  - intros _ k Hkr. assert (Hw : SA ≠ ∅) by (intros He%Hidle; set_solver). split; [by apply Hm|]. by apply Hk.
Qed.

Lemma act2_drop x : inv2 x → inv2 (set_obs None x).
Proof.
  intros [[Hp Hk] Ht]. split; [|done]. split; [|done]. intros t [?|?]; [|done]. by apply Hp; left.
Qed.
End invariant.

(** The state between rounds does not tell the kinds apart. *)
Lemma at_rest2_swap refs n kc ko ns w :
  at_rest2 refs n (aggregator_view kc ko ns n w) → at_rest2 refs n (aggregator_view ko kc ns n w).
Proof. intros [Hp Hk]. split; [|done]. intros t Hl. apply Hp. by apply or_comm. Qed.

(** ** What a round builds *)

(** The controller without what a round changes of it: the status and the annotations. *)
Definition acore (c : AggregatorController) : AggregatorController :=
  with_ac_agg (with_ag_status no_status
    (with_ag_spec (with_va_common (with_annotations None (ac_common c)) (ac_spec c)) (ac_agg c))) c.
Definition asimilar (c c' : AggregatorController) : Prop := acore c = acore c'.

Lemma asimilar_trans c1 c2 c3 : asimilar c1 c2 → asimilar c2 c3 → asimilar c1 c3.
Proof. unfold asimilar. congruence. Qed.

(** No volume of the user's reads a Secret of the operator's. *)
Definition aggregator_volumes_apart (c : AggregatorController) : Prop :=
  ∀ v m, v ∈ default [] (vc_volumes (ac_common c)) →
    m ∈ [getNameVectorAggregator c; aggregator_getSecretAssetsName c] → vol_source v ≠ VSecret m.

Lemma size_pos (m : gmap string string) : bool_decide (0 < size m)%nat = true ↔ m ≠ ∅.
Proof. rewrite bool_decide_eq_true, <- map_size_empty_iff. lia. Qed.

Section builders.
Context `{GoRuntime}.
Context (c : AggregatorController) (Huser : aggregator_volumes_apart c).

Notation n := (getNameVectorAggregator c).

Lemma required_apart v :
  v ∈ add_required vol_name (default [] (vc_volumes (ac_common c)))
    ([{| vol_name := "config"; vol_source := if vc_compress (ac_common c) then VEmptyDir else VSecret n |}] ++
     (if persistenceEnabled c then [] else [host_path dataVolumeName (vc_data_dir (ac_common c))]) ++
     [host_path "procfs" "/proc"; host_path "sysfs" "/sys"] ++
     (if vc_compress (ac_common c) then [secret_volume "app-config-compress" n] else [])) →
  vol_source v ≠ VSecret (assets_name n).
Proof using Huser.
  pose proof (assets_name_ne n) as Hne. unfold add_required.
  rewrite elem_of_app, list_elem_of_filter. intros [Hu|[_ Hr]].
  - apply Huser; [done|]. right. by left.
  - destruct (persistenceEnabled c), (vc_compress (ac_common c)); simpl in Hr;
      rewrite !elem_of_cons, elem_of_nil in Hr; destruct_or?; subst; simpl; congruence.
Qed.

(** The mount is there exactly when something is staged. *)
Lemma aggregator_pod_mounts t : pt_spec t = aggregator_pod c → (mounts t n ↔ ac_assets c ≠ ∅).
Proof using Huser.
  intros Ht. unfold mounts. rewrite HasOperatorSecretAssetsMount_spec, Ht. rewrite <- size_pos. split.
  - intros [Hv _]. simpl in Hv. unfold generateVectorAggregatorVolume in Hv. cbv zeta in Hv.
    case_bool_decide as Hw; [done|]. by apply required_apart in Hv.
  - intros Hw. simpl. split.
    + unfold generateVectorAggregatorVolume. rewrite Hw.
      unfold SetAuthoritativeVolume. apply elem_of_app. right. by left.
    + exists (VectorAggregatorContainer c), (mount SecretAssetsVolumeName SecretsMountPath).
      split; [by left|]. split; [|done]. simpl. unfold generateVectorAggregatorVolumeMounts.
      rewrite Hw. unfold SetAuthoritativeVolumeMount. apply elem_of_app. right. by left.
Qed.
End builders.

(** ** The round *)

Section round.
Context `{GoRuntime, Libraries, KubeApi}.
Context (refs : string → gset string) (c0 : AggregatorController).

Notation n := (getNameVectorAggregator c0).
Notation ns := (ac_namespace c0).
Notation SA := (ac_assets c0).

(** The kind the round writes, and the other. *)
Definition kcur : obj_kind := if persistenceEnabled c0 then KStatefulSet else KDeployment.
Definition kobs : obj_kind := if persistenceEnabled c0 then KDeployment else KStatefulSet.

Lemma round_kinds : workload_kinds kcur kobs.
Proof. unfold workload_kinds, kcur, kobs. destruct (persistenceEnabled c0); auto. Qed.

Notation vw := (aggregator_view kcur kobs ns n).
Notation I := (λ w, inv2 refs n SA (vw w)).
Notation tri P m Q := (triple I (λ w, P (vw w)) m (λ a w, Q a (vw w))).

(** What the round publishes refers only to what it stages. *)
Record aggregator_round_ok : Prop := {
  gr_user : aggregator_volumes_apart c0;
  gr_config : refs (aggregator_stored_config c0 (ac_bytes c0)) ⊆ dom SA
}.
Context (Hok : aggregator_round_ok).

Lemma asimilar_fields c : asimilar c0 c →
  ac_namespace c = ns ∧ getNameVectorAggregator c = n ∧ ac_assets c = SA ∧ ac_bytes c = ac_bytes c0 ∧
  ac_config c = ac_config c0 ∧ ac_name c = ac_name c0 ∧
  vc_compress (ac_common c) = vc_compress (ac_common c0) ∧ aggregator_pod c = aggregator_pod c0 ∧
  persistenceEnabled c = persistenceEnabled c0.
Proof.
  intros Hs. split_and!;
    [change (ac_namespace (acore c) = ac_namespace (acore c0))
    |change (getNameVectorAggregator (acore c) = getNameVectorAggregator (acore c0))
    |change (ac_assets (acore c) = ac_assets (acore c0))
    |change (ac_bytes (acore c) = ac_bytes (acore c0))
    |change (ac_config (acore c) = ac_config (acore c0))
    |change (ac_name (acore c) = ac_name (acore c0))
    |change (vc_compress (ac_common (acore c)) = vc_compress (ac_common (acore c0)))
    |change (aggregator_pod (acore c) = aggregator_pod (acore c0))
    |change (persistenceEnabled (acore c) = persistenceEnabled (acore c0))]; by rewrite Hs.
Qed.

(** The assets. *)
Lemma triple_aggregator_assets (P Q : aview → Prop) c :
  asimilar c0 c →
  (∀ x, inv2 refs n SA x → P x → SA = ∅ → ∀ t, live x t → ¬ mounts t n) →
  (∀ x, P x → Q (set_aas (target SA) x)) →
  tri P (ensureVectorAggregatorSecretAssets c) (λ _, Q).
Proof.
  intros Hs Hun HQ. destruct (asimilar_fields c Hs) as (Hns & Hn & HA & _).
  unfold ensureVectorAggregatorSecretAssets, target in *. rewrite HA. case_bool_decide as Hd.
  - apply map_size_empty_iff in Hd. rewrite decide_True in HQ by done.
    unfold deleteSecretAssetsSecret, ac_secret_key, aggregator_getSecretAssetsName. rewrite Hns, Hn.
    apply triple_delete_ignore. intros w Hi HP.
    rewrite (aview_delete_assets kcur kobs ns n round_kinds w : vw (set_objects (delete (KSecret, ns, n +:+ "-secret-assets")) w) = _).
    split; [|by apply HQ]. apply act2_no_assets; [done..|]. by apply Hun.
  - assert (Hne : SA ≠ ∅) by (intros He; by rewrite He, map_size_empty in Hd).
    rewrite decide_False in HQ by done.
    apply triple_apply; [done|]. intros w Hi HP. cbv zeta.
    assert (Hkey : key_of (aggregator_createSecretAssetsSecret c) = (KSecret, ns, assets_name n))
      by (unfold key_of; simpl; unfold aggregator_getSecretAssetsName; by rewrite Hns, Hn).
    rewrite (aview_put_secret kcur kobs ns n round_kinds _ _ w _ Hkey (or_intror eq_refl)).
    rewrite decide_False by apply assets_name_ne.
    rewrite (applied_secret_data (aggregator_createSecretAssetsSecret c) (ac_assets c) w eq_refl), HA. split; [|by apply HQ]. by apply act2_assets.
Qed.

(** The configuration. *)
Definition aggregator_data : gmap string string :=
  {["config.json" := aggregator_stored_config c0 (ac_bytes c0)]}.

Lemma triple_aggregator_config (P Q : aview → Prop) c :
  asimilar c0 c →
  (∀ x, inv2 refs n SA x → P x → SA ≠ ∅ → aas x = Some SA ∧ ∀ t, live x t → mounts t n) →
  (∀ x, P x → Q (set_acfg (Some aggregator_data) x)) →
  tri P (ensureVectorAggregatorConfig c) (λ _, Q).
Proof using Hok.
  intros Hs Hw HQ. destruct (asimilar_fields c Hs) as (Hns & Hn & _ & Hb & _ & _ & Hc & _).
  apply triple_apply; [done|]. intros w Hi HP. cbv zeta.
  assert (Hkey : key_of (createVectorAggregatorConfig c) = (KSecret, ns, n)) by (unfold key_of; simpl; by rewrite Hns, Hn).
  rewrite (aview_put_secret kcur kobs ns n round_kinds _ _ w _ Hkey (or_introl eq_refl)), decide_True by done.
  assert (Hd : o_body (createVectorAggregatorConfig c) = BSecret aggregator_data)
    by (unfold aggregator_data, aggregator_stored_config; simpl; by rewrite <- Hb, <- Hc).
  rewrite (applied_secret_data _ _ w Hd). split; [|by apply HQ].
  apply act2_config; [done| |by apply Hw]. unfold stored_refs, aggregator_data. simpl. rewrite lookup_singleton_eq.
  apply Hok.
Qed.

(** The workload of the round, as it is stored. *)
Definition round_workload (x : aview) : Prop := ∃ t, acur x = Some t ∧ pt_spec t = aggregator_pod c0.

Definition cur_build (build : AggregatorController → PodTemplate → Object) : Prop :=
  ∀ c t, asimilar c0 c → key_of (build c t) = (kcur, ns, n) ∧ template_of (build c t) = Some t ∧ supported (build c t).

Lemma round_build : if persistenceEnabled c0 then cur_build statefulset_of else cur_build deployment_of.
Proof.
  unfold cur_build, kcur. destruct (persistenceEnabled c0); intros c t Hs;
    destruct (asimilar_fields c Hs) as (Hns & Hn & _); (split; [unfold key_of; simpl; by rewrite Hns, Hn|done]).
Qed.

Lemma aggregator_mark_restart_spec build c now :
  let '(c', o) := aggregator_mark_restart build c now in
  asimilar c c' ∧ ∃ t, o = build c' t ∧ pt_spec t = aggregator_pod c.
Proof.
  unfold aggregator_mark_restart. destruct (vc_annotations (ac_common c)) as [a|]; (split; [done|]); by eexists.
Qed.

Lemma triple_apply_workload build (P Q : aview → Prop) c :
  cur_build build → asimilar c0 c →
  (∀ x, P x → SA ≠ ∅ → aas x = Some SA) →
  (∀ x t, P x → pt_spec t = aggregator_pod c0 → Q (set_cur (Some t) x)) →
  tri P (apply_workload build c) (λ c' x, Q x ∧ asimilar c0 c').
Proof using Hok.
  intros Hbuild Hs Hst HQ. destruct (asimilar_fields c Hs) as (_ & _ & _ & _ & _ & _ & _ & Hpod & _).
  assert (Hput : ∀ c' t, asimilar c0 c' → pt_spec t = aggregator_pod c0 →
    tri P (_ ← apply (build c' t); mret c') (λ c' x, Q x ∧ asimilar c0 c')).
  { intros c' t Hs' Ht. destruct (Hbuild c' t Hs') as (Hkey & Htm & Hsup).
    apply triple_bind with (R := λ _ w, Q (vw w)); [|intros []; by apply triple_ret].
    apply triple_apply; [done|]. intros w Hi HP. cbv zeta.
    rewrite (aview_put_cur kcur kobs ns n round_kinds _ _ w Hkey), (template_of_applied _ t) by done.
    split; [|by apply HQ]. apply act2_template; [done| |by apply Hst].
    by apply (aggregator_pod_mounts c0 (gr_user Hok)). }
  unfold apply_workload. destruct (aggregator_globalConfigChanged c); [|by apply Hput; rewrite <- ?Hpod].
  eapply triple_bind; [by apply triple_now with (Q := λ _ w, P (vw w))|]. intros now.
  pose proof (aggregator_mark_restart_spec build c (rfc3339 now)) as Hm.
  destruct (aggregator_mark_restart build c (rfc3339 now)) as [c' o]. destruct Hm as (Hsim & t & -> & Ht).
  apply Hput; [by eapply asimilar_trans|congruence].
Qed.

(** Afterwards the other kind is gone: deleted, or not there to begin with. *)
Lemma triple_workload obsolete (P Q : aview → Prop) c :
  asimilar c0 c →
  (∀ x, P x → obsolete = false → aobs x = None) →
  (∀ x, P x → SA ≠ ∅ → aas x = Some SA) →
  (∀ x t, P x → pt_spec t = aggregator_pod c0 → Q (set_obs None (set_cur (Some t) x))) →
  tri P (ensureWorkload obsolete c) (λ c' x, Q x ∧ asimilar c0 c').
Proof using Hok.
  intros Hs Hobs Hst HQ. destruct (asimilar_fields c Hs) as (_ & _ & _ & _ & _ & _ & _ & _ & Hpers).
  set (R := λ x, ∃ x0 t, P x0 ∧ pt_spec t = aggregator_pod c0 ∧ x = set_cur (Some t) x0).
  assert (Hrest : ∀ build k, cur_build build → k = kobs →
    tri P (c ← apply_workload build c; _ ← k_when obsolete (deleteObsoleteWorkload c k); mret c)
      (λ c' x, Q x ∧ asimilar c0 c')).
  { intros build k Hb ->. eapply triple_bind; [apply (triple_apply_workload build P R c Hb Hs Hst); unfold R; eauto 10|].
    intros c1. apply triple_pure. intros Hs1. destruct (asimilar_fields c1 Hs1) as (Hns & Hn & _).
    apply triple_bind with (R := λ _ w, Q (vw w)); [|intros []; by apply triple_ret].
    apply triple_when; intros Ho.
    - unfold deleteObsoleteWorkload, workload_key. rewrite Hns, Hn. apply triple_delete_ignore.
      intros w Hi (x0 & t & HP & Ht & Hx). rewrite (aview_delete_obs kcur kobs ns n round_kinds w).
      split; [by apply act2_drop|]. rewrite Hx. by apply HQ.
    - intros w Hi (x0 & t & HP & Ht & Hx). rewrite Hx. specialize (HQ x0 t HP Ht). specialize (Hobs x0 HP Ho).
      destruct x0; simpl in *. by rewrite Hobs. }
  pose proof round_build as Hb. unfold ensureWorkload. rewrite Hpers.
  destruct (persistenceEnabled c0) eqn:He; [|apply Hrest; [done|by unfold kobs; rewrite He]].
  eapply triple_bind; [by apply triple_lift with (Q := λ _ w, P (vw w))|]. intros [].
  apply Hrest; [done|by unfold kobs; rewrite He].
Qed.

Lemma triple_aggregator_stamp (P : aview → Prop) c (b : bool) :
  asimilar c0 c →
  tri P (if b then aggregator_StampConfigPublishing c else mret c) (λ c' x, P x ∧ asimilar c0 c').
Proof.
  intros Hs. destruct b; [|by apply triple_ret].
  unfold aggregator_StampConfigPublishing. eapply triple_bind; [by apply triple_now with (Q := λ _ w, P (vw w))|].
  intros now. eapply triple_bind; [by apply triple_patch_status with (Q := λ _ w, P (vw w))|]. intros []. by apply triple_ret.
Qed.

(** What the snapshot of the workloads tells of the view. *)
Record knows (s : secretAssetsMountState) (x : aview) : Prop := {
  kn_all : allMounted s = true → ∀ t, live x t → mounts t n;
  kn_any : anyMounted s = false → ∀ t, live x t → ¬ mounts t n;
  kn_obs : obsoleteWorkloadExists s (persistenceEnabled c0) = false → aobs x = None
}.

Lemma mount_of_spec c o :
  getNameVectorAggregator c = n → mount_of c o = true ↔ ∃ t, o ≫= template_of = Some t ∧ mounts t n.
Proof.
  intros Hn. unfold mount_of, mounts, aggregator_getSecretAssetsName, assets_name. rewrite Hn.
  destruct (o ≫= template_of) as [t|]; [|naive_solver]. split; [eauto|]. by intros (t' & [= <-] & ?).
Qed.

Lemma knows_read c w :
  getNameVectorAggregator c = n →
  let dep := w_objects w !! (KDeployment, ns, n) in
  let sts := w_objects w !! (KStatefulSet, ns, n) in
  knows {| deploymentExists := bool_decide (is_Some dep); deploymentMounted := mount_of c dep;
           statefulSetExists := bool_decide (is_Some sts); statefulSetMounted := mount_of c sts |} (vw w).
Proof.
  intros Hn. cbv zeta.
  assert (Hlive : ∀ t, live (vw w) t ↔ w_objects w !! (KDeployment, ns, n) ≫= template_of = Some t ∨
                                       w_objects w !! (KStatefulSet, ns, n) ≫= template_of = Some t).
  { intros t. unfold live, aggregator_view, kcur, kobs. simpl. destruct (persistenceEnabled c0); tauto. }
  pose proof (mount_of_spec c (w_objects w !! (KDeployment, ns, n)) Hn) as Hd.
  pose proof (mount_of_spec c (w_objects w !! (KStatefulSet, ns, n)) Hn) as Hs.
  split; unfold allMounted, anyMounted, obsoleteWorkloadExists; simpl.
  - intros Ha t [Ht|Ht]%Hlive.
    + rewrite bool_decide_true in Ha by (destruct (w_objects w !! (KDeployment, _, _)); [by eexists|done]).
      simpl in Ha. apply andb_true_iff in Ha as [(t' & ? & ?)%Hd _]. congruence.
    + rewrite (bool_decide_true (is_Some (w_objects w !! (KStatefulSet, _, _)))) in Ha
        by (destruct (w_objects w !! (KStatefulSet, _, _)); [by eexists|done]).
      rewrite andb_false_r in Ha. simpl in Ha. apply andb_true_iff in Ha as [_ (t' & ? & ?)%Hs]. congruence.
  - intros [Hnd Hns]%orb_false_iff t [Ht|Ht]%Hlive Hm.
    + rewrite (proj2 Hd) in Hnd; [done|by exists t].
    + rewrite (proj2 Hs) in Hns; [done|by exists t].
  - unfold aggregator_view, kobs. simpl. destruct (persistenceEnabled c0); intros Hx%bool_decide_eq_false.
    + destruct (w_objects w !! (KDeployment, _, _)); [by destruct Hx|done].
    + destruct (w_objects w !! (KStatefulSet, _, _)); [by destruct Hx|done].
Qed.

Lemma triple_mount_state c :
  asimilar c0 c → tri (λ _, True) (readSecretAssetsMountState c) (λ s, knows s).
Proof.
  intros Hs. destruct (asimilar_fields c Hs) as (Hns & Hn & _). unfold readSecretAssetsMountState, workload_key.
  rewrite Hns, Hn. destruct (negb (ac_reader c)); [apply triple_fail|].
  eapply triple_bind; [by apply triple_find with (Q := λ o w, o = w_objects w !! (KDeployment, ns, n))|]. intros dep.
  eapply triple_bind; [apply triple_find with (Q := λ o w, dep = w_objects w !! (KDeployment, ns, n) ∧
    o = w_objects w !! (KStatefulSet, ns, n)); by intros w _ ->|]. intros sts.
  apply triple_ret. intros w _ [-> ->]. by apply knows_read.
Qed.

(** What a round that returns without an error has published. *)
Definition aggregator_published (x : aview) : Prop :=
  acfg x = Some aggregator_data ∧ aas x = target SA ∧ round_workload x ∧ aobs x = None.

(** Assets, configuration, workload: nothing changes for what is mounted. *)
Lemma aggregator_keep c (b obsolete : bool) (P : aview → Prop) :
  asimilar c0 c →
  (∀ x, P x → obsolete = false → aobs x = None) →
  (∀ x, P x → SA = ∅ → ∀ t, live x t → ¬ mounts t n) →
  (∀ x, P x → SA ≠ ∅ → ∀ t, live x t → mounts t n) →
  tri P
    (_ ← ensureVectorAggregatorSecretAssets c;
     c ← (if b then aggregator_StampConfigPublishing c else mret c);
     _ ← ensureVectorAggregatorConfig c;
     ensureWorkload obsolete c)
    (λ c' x, aggregator_published x ∧ asimilar c0 c').
Proof using Hok.
  intros Hs Hobs Hno Hall.
  set (P1 := λ x, (obsolete = false → aobs x = None) ∧ (SA ≠ ∅ → ∀ t, live x t → mounts t n) ∧ aas x = target SA).
  eapply triple_bind.
  { apply (triple_aggregator_assets P P1 c Hs); [intros x _; apply Hno|].
    intros x HP. split_and!; [exact (Hobs x HP)|exact (Hall x HP)|done]. }
  intros []. eapply triple_bind; [by apply (triple_aggregator_stamp P1)|]. intros c1. apply triple_pure. intros Hs1.
  eapply triple_bind.
  { apply (triple_aggregator_config P1 (λ x, P1 x ∧ acfg x = Some aggregator_data) c1 Hs1).
    - intros x _ (_ & Hm & ->) Hw. split; [by apply target_Some|by apply Hm].
    - done. }
  intros []. apply (triple_workload obsolete (λ x, P1 x ∧ acfg x = Some aggregator_data) aggregator_published c1 Hs1);
    [by intros x [[? _] _]| |].
  - intros x [(_ & _ & ->) _] Hw. by apply target_Some.
  - intros x t [(_ & _ & Ha) Hc] Ht. split_and!; [done..| |done]. by exists t.
Qed.

(** Assets, workload, configuration. *)
Lemma aggregator_gain c (b obsolete : bool) (P : aview → Prop) :
  asimilar c0 c → SA ≠ ∅ → (∀ x, P x → obsolete = false → aobs x = None) →
  tri P
    (_ ← ensureVectorAggregatorSecretAssets c;
     c ← ensureWorkload obsolete c;
     c ← (if b then aggregator_StampConfigPublishing c else mret c);
     _ ← ensureVectorAggregatorConfig c;
     mret c)
    (λ c' x, aggregator_published x ∧ asimilar c0 c').
Proof using Hok.
  intros Hs Hw Hobs.
  set (P1 := λ x, (obsolete = false → aobs x = None) ∧ aas x = Some SA).
  set (P2 := λ x, aas x = Some SA ∧ round_workload x ∧ aobs x = None).
  eapply triple_bind.
  { apply (triple_aggregator_assets P P1 c Hs); [done|]. intros x HP. split; [exact (Hobs x HP)|by apply target_Some]. }
  intros []. eapply triple_bind.
  { apply (triple_workload obsolete P1 P2 c Hs); [by intros x [? _]|by intros x [_ ?]|].
    intros x t [_ Ha] Ht. split_and!; [done| |done]. by exists t. }
  intros c1. apply triple_pure. intros Hs1.
  eapply triple_bind; [by apply (triple_aggregator_stamp P2)|]. intros c2. apply triple_pure. intros Hs2.
  eapply triple_bind.
  { apply (triple_aggregator_config P2 aggregator_published c2 Hs2).
    - intros x _ (Ha & (t & Ht & Hp) & Ho) _. split; [done|]. intros t' [Ht'|Ht']; [|congruence].
      rewrite Ht in Ht'. injection Ht' as <-. by apply (aggregator_pod_mounts c0 (gr_user Hok) t Hp).
    - intros x (Ha & Hrw & Ho). split_and!; [done|by rewrite target_Some|done..]. }
  intros []. by apply triple_ret.
Qed.

(** Configuration, workload, assets. *)
Lemma aggregator_lose c (b obsolete : bool) (P : aview → Prop) :
  asimilar c0 c → SA = ∅ → (∀ x, P x → obsolete = false → aobs x = None) →
  tri P
    (c ← (if b then aggregator_StampConfigPublishing c else mret c);
     _ ← ensureVectorAggregatorConfig c;
     c ← ensureWorkload obsolete c;
     _ ← ensureVectorAggregatorSecretAssets c;
     mret c)
    (λ c' x, aggregator_published x ∧ asimilar c0 c').
Proof using Hok.
  intros Hs Hw Hobs.
  set (P1 := λ x, (obsolete = false → aobs x = None) ∧ acfg x = Some aggregator_data).
  set (P2 := λ x, acfg x = Some aggregator_data ∧ round_workload x ∧ aobs x = None).
  eapply triple_bind; [by apply (triple_aggregator_stamp P)|]. intros c1. apply triple_pure. intros Hs1.
  eapply triple_bind.
  { apply (triple_aggregator_config P P1 c1 Hs1); [by intros|]. intros x HP. split; [exact (Hobs x HP)|done]. }
  intros []. eapply triple_bind.
  { apply (triple_workload obsolete P1 P2 c1 Hs1); [by intros x [? _]|by intros|].
    intros x t [_ Ha] Ht. split_and!; [done| |done]. by exists t. }
  intros c2. apply triple_pure. intros Hs2.
  eapply triple_bind.
  { apply (triple_aggregator_assets P2 aggregator_published c2 Hs2).
    - intros x _ (_ & (t & Ht & Hp) & Ho) _ t' [Ht'|Ht'] Hm; [|congruence]. rewrite Ht in Ht'. injection Ht' as <-.
      by apply (aggregator_pod_mounts c0 (gr_user Hok) t Hp) in Hm.
    - intros x (Ha & Hrw & Ho). by split_and!. }
  intros []. by apply triple_ret.
Qed.

Lemma triple_aggregator_publish c b s :
  asimilar c0 c → tri (knows s) (aggregator_publish c b s) (λ c' x, aggregator_published x ∧ asimilar c0 c').
Proof using Hok.
  intros Hs. destruct (asimilar_fields c Hs) as (_ & _ & HA & _ & _ & _ & _ & _ & Hp).
  unfold aggregator_publish. cbv zeta. rewrite HA, Hp. pose proof (size_pos SA) as Hsz.
  set (obsolete := obsoleteWorkloadExists s (persistenceEnabled c0)).
  assert (Hobs : ∀ x, knows s x → obsolete = false → aobs x = None) by (intros x Hk; apply Hk).
  destruct (bool_decide (0 < size SA)%nat).
  - assert (Hw : SA ≠ ∅) by (by apply Hsz). destruct (allMounted s) eqn:Ha; simpl.
    + apply (aggregator_keep c b obsolete (knows s) Hs Hobs); [done|]. intros x Hk _. by apply Hk.
    + by apply (aggregator_gain c b obsolete (knows s)).
  - assert (Hw : SA = ∅) by (destruct (decide (SA = ∅)) as [|Hne]; [done|by apply Hsz in Hne]).
    simpl. destruct (anyMounted s) eqn:Ha.
    + by apply (aggregator_lose c b obsolete (knows s)).
    + apply (aggregator_keep c b obsolete (knows s) Hs Hobs); [|done]. intros x Hk _. by apply Hk.
Qed.

(** The rest of the round writes nothing the pods read at their start. *)
Lemma quiet_other x o :
  supported o → body_kind (o_body o) ∉ [KDeployment; KStatefulSet; KSecret] → quiet vw x (apply o) (λ _, True).
Proof.
  intros Hs Hk. apply quiet_apply; [done|]. intros o' w.
  by apply (aview_put_other kcur kobs ns n round_kinds), other_kind_apart.
Qed.

Lemma quiet_drop_other x k :
  k.1.1 ∉ [KDeployment; KStatefulSet; KSecret] → quiet vw x (k_delete_ignore k) (λ _, True).
Proof.
  intros Hk. apply quiet_delete_ignore. intros w.
  by apply (aview_delete_other kcur kobs ns n round_kinds), other_kind_apart.
Qed.

Lemma collector_apart c :
  ac_name c = ac_name c0 → (KDeployment, ac_namespace c, collector_name c) ∉ own_aggregator_keys ns n.
Proof.
  intros Hn Hin. assert (He : collector_name c = n).
  { unfold own_aggregator_keys in Hin. rewrite !elem_of_cons, elem_of_nil in Hin. destruct_or?; congruence. }
  unfold collector_name, getNameVectorAggregator in He. rewrite Hn in He. by apply string_app_inv_head in He.
Qed.

Lemma quiet_services x c listed : quiet vw x (ensureVectorAggregatorService listed c) (λ _, True).
Proof.
  unfold ensureVectorAggregatorService. apply quiet_then; [by eapply quiet_post, quiet_lift|]. intros existing. cbv zeta.
  apply quiet_then.
  - apply quiet_iter. intros o Ho. assert (Hb : body_kind (o_body o) = KService).
    { unfold createVectorAggregatorServices in Ho. rewrite !elem_of_app, list_elem_of_fmap in Ho.
      destruct Ho as [([g ports] & -> & _)|[Ho|Ho]]; [done|..]; destruct (_ : bool) in Ho;
        try (by apply not_elem_of_nil in Ho); by apply list_elem_of_singleton in Ho as ->. }
    apply quiet_other; unfold supported; rewrite Hb; [done|]. by apply (bool_decide_unpack _).
  - intros []. apply quiet_iter. intros kv _. apply quiet_delete. intros w.
    apply (aview_delete_other kcur kobs ns n round_kinds), other_kind_apart. by apply (bool_decide_unpack _).
Qed.

Ltac other_kind := first [done | by apply (bool_decide_unpack _) | split; done].

Lemma quiet_collector x c : ac_name c = ac_name c0 → quiet vw x (ensureEventCollector c) (λ _, True).
Proof.
  intros Hn. pose proof (collector_apart c Hn) as Hc. unfold ensureEventCollector.
  destruct (GetEventCollectorConfig _ _) as [receivers|].
  - apply quiet_then; [apply quiet_other; other_kind|]. intros [].
    apply quiet_then; [unfold ensureEventCollectorRBAC|].
    { do 2 (apply quiet_then; [apply quiet_other; other_kind|]; intros []). apply quiet_other; other_kind. }
    intros []. apply quiet_then; [apply quiet_other; other_kind|]. intros [].
    unfold createEventCollectorDeployment. cbv zeta. apply quiet_then; [|intros []; by apply quiet_ret].
    apply quiet_apply; [done|]. intros o' w. by apply (aview_put_other kcur kobs ns n round_kinds).
  - unfold cleanupEventCollector, createEventCollectorDeployment. cbv zeta. apply quiet_then.
    { apply quiet_delete_ignore. intros w. by apply (aview_delete_other kcur kobs ns n round_kinds). }
    intros []. do 5 (apply quiet_then; [apply quiet_drop_other; other_kind|]; intros []). by apply quiet_ret.
Qed.

Lemma triple_aggregator_ensure crd listed b :
  tri (λ _, True) (EnsureVectorAggregator crd listed c0 b) (λ _ x, aggregator_published x).
Proof using Hok.
  assert (Hs : asimilar c0 c0) by done. unfold EnsureVectorAggregator.
  eapply triple_bind; [by apply triple_lift with (Q := λ _ _, True)|]. intros monitoring.
  eapply triple_bind; [by apply triple_mount_state|]. intros s.
  eapply triple_bind; [by apply triple_aggregator_publish|]. intros c1. apply triple_pure. intros Hs1.
  destruct (asimilar_fields c1 Hs1) as (_ & _ & _ & _ & _ & Hn & _).
  eapply triple_post; [|apply (quiet_frame vw (inv2 refs n SA) aggregator_published _ (λ _, True)); intros x];
    [by intros a w _ [Hp _]|].
  apply quiet_then; [unfold ensureVectorAggregatorRBAC|].
  { do 2 (apply quiet_then; [apply quiet_other; other_kind|]; intros []). apply quiet_other; other_kind. }
  intros []. apply quiet_then; [apply quiet_services|].
  intros []. apply quiet_then; [apply quiet_when, quiet_other; other_kind|].
  intros []. apply quiet_then; [by apply quiet_collector|]. intros c2. apply quiet_then.
  { unfold ensureVectorAggregatorHPA, cleanupHPA. destruct (negb _); [apply quiet_drop_other|apply quiet_other]; other_kind. }
  intros []. apply quiet_then; [|intros []; by apply quiet_ret].
  unfold ensureVectorAggregatorPodDisruptionBudget. cbv zeta.
  destruct (_ || _); [apply quiet_drop_other|apply quiet_other]; other_kind.
Qed.
End round.

(** ** A round for an aggregator *)

(** The names of a check's Secrets have other lengths than the aggregator's. *)
Lemma aggregator_check_apart cc hash ns k :
  String.length hash = 5%nat → k ∈ own_aggregator_keys ns (cc_name cc +:+ "-aggregator") → k ∉ own_keys cc hash.
Proof.
  intros Hh Hk Hown. set (l := String.length (cc_name cc)).
  assert (Ha : k.1.1 = KDeployment ∨ k.1.1 = KStatefulSet ∨
    k.1.1 = KSecret ∧ (String.length k.2 = l + 11 ∨ String.length k.2 = l + 25)%nat).
  { clear Hown. revert k Hk. apply Forall_forall. unfold own_aggregator_keys, assets_name.
    repeat apply Forall_cons_2; try (by apply Forall_nil_2); simpl; rewrite ?string_length_app; simpl;
      rewrite ?string_length_app; simpl; fold l; [by left|by right; left|right; right; split; [done|lia]..]. }
  assert (Ho : k.1.1 = KServiceAccount ∨ k.1.1 = KPod ∨
    k.1.1 = KSecret ∧ (String.length k.2 = l + 18 ∨ String.length k.2 = l + 32)%nat) by (by apply (own_key_lengths cc hash)).
  destruct_or?; destruct_and?; try congruence; lia.
Qed.

Section rounds.
Context `{GoRuntime, Libraries, KubeApi}.
Context (Version : string) (marshal : VectorConfig → result string) (refs : string → gset string).
Context (Hrefs : reads_back refs marshal).
Context (r : AggregatorReconciler) (inp : round_inputs) (services : result (list Object)) (g : Aggregator).

Notation c := (init_aggregator Version r g).
Notation n := (ag_name g +:+ "-aggregator").
Notation ns := (ac_namespace c).
Notation vw := (aggregator_view (kcur c) (kobs c) ns n).
Notation rest := (at_rest2 refs n).

(** What a round is given: a hash, pipelines as the API server lists them, with no
    reference in the options the build throws away, and no volume of the user's that
    reads the operator's Secrets. *)
Record aggregator_given : Prop := {
  gg_hash : String.length (ri_hash inp) = 5%nat;
  gg_listed all : GetAllPipelines (ri_lister inp) (aggregator_filter c) = Ok all →
    NoDup (pipelineID <$> all) ∧ Forall dns_pipeline all ∧ Forall events_plain all;
  gg_user : aggregator_volumes_apart c
}.
Context (Hg : aggregator_given).

Lemma avw_pipelines f w : vw (set_pipelines f w) = vw w.
Proof. done. Qed.
Lemma avw_status f w : vw (set_status f w) = vw w.
Proof. done. Qed.

Lemma aggregator_built_refs params ps cfg b :
  Forall dns_pipeline ps → BuildAggregatorConfig params ps = Ok cfg → marshal cfg = Ok b →
  refs (aggregator_stored_config c b) ⊆ dom (SecretAssets cfg).
Proof using Hrefs.
  intros Hdns Hcfg Hb k Hk. assert (Hck : config_key (cfg_pipeline cfg) k).
  { apply (Hrefs cfg b); [done|]. unfold aggregator_stored_config in Hk. destruct (vc_compress _); auto. }
  destruct Hck as (o & rf & Ho & Hin & _ & <-). pose proof (aggregator_build_closed _ _ _ Hdns Hcfg o Ho) as Hcl.
  rewrite Forall_forall in Hcl. apply elem_of_dom. by apply Hcl.
Qed.

Lemma quiet_aggregator_reader x s : quiet vw x (aggregator_safety_reader c s) (λ _, True).
Proof. unfold aggregator_safety_reader. destruct (ac_reader c); [by apply quiet_ret | apply quiet_fail]. Qed.

Lemma quiet_aggregator_existing x :
  quiet vw x (aggregator_ExistingSecretAssets c) (λ e, e = default ∅ (aas x)).
Proof.
  unfold aggregator_ExistingSecretAssets. apply quiet_then; [apply quiet_aggregator_reader|]. intros [].
  eapply quiet_bind.
  - by apply (quiet_find _ _ _ (λ o, default ∅ (data_of <$> o) = default ∅ (aas x))); intros w <-.
  - intros o Ho. apply quiet_ret. rewrite <- Ho. by destruct o.
Qed.

Lemma quiet_aggregator_matches x b :
  quiet vw x (aggregator_PublishedConfigMatches c b)
    (λ same, same = true → stored_refs refs (acfg x) ⊆ refs (aggregator_stored_config c b)).
Proof.
  unfold aggregator_PublishedConfigMatches. apply quiet_then; [apply quiet_aggregator_reader|]. intros [].
  eapply quiet_bind.
  - by apply (quiet_find _ _ _ (λ o, data_of <$> o = acfg x)); intros w <-.
  - intros o Ho. apply quiet_ret. unfold stored_refs. rewrite <- Ho. destruct o as [o|]; simpl; [|done].
    intros Hm%bool_decide_eq_true. rewrite <- Hm. unfold map_get.
    destruct (data_of o !! "config.json"); simpl; [done | apply empty_subseteq].
Qed.

Lemma aggregator_frame cc w0 w :
  cc_name cc = ag_name g → untouched cc (ri_hash inp) w0 w → vw w = vw w0.
Proof using Hg.
  intros Hcc (_ & _ & Ho). apply (aview_same _ _ _ _ (round_kinds c)). intros k Hk. apply Ho.
  rewrite <- Hcc in Hk. by apply (aggregator_check_apart cc (ri_hash inp) ns k (gg_hash Hg)).
Qed.

(** What the round publishes, and that it stages whatever is in use. *)
Lemma triple_aggregator_staged x cfg b assets publishing :
  refs (aggregator_stored_config c b) ⊆ dom assets → stored_refs refs (acfg x) ⊆ dom assets →
  triple (λ w, rest (vw w)) (λ w, vw w = x)
    (EnsureVectorAggregator (ri_monitoring inp) services (aggregator_with_round cfg b assets c) publishing) (λ _ _, True).
Proof using Hg.
  intros Hb Hx. set (c' := aggregator_with_round cfg b assets c).
  assert (Hok : aggregator_round_ok refs c') by (split; [exact (gg_user Hg)|exact Hb]).
  intros cl Hrest Hview. assert (Hinv : inv2 refs n assets (vw (seen cl))) by (split; [exact Hrest|by rewrite Hview]).
  pose proof (triple_aggregator_ensure refs c' Hok (ri_monitoring inp) services publishing cl Hinv I) as Ht.
  destruct (EnsureVectorAggregator _ _ _ _ cl) as [[tr cl'] res]. destruct Ht as (Htr & Hend & _).
  split_and!; [|exact (proj1 Hend)|by destruct res]. eapply Forall_impl; [exact Htr|]. by intros w [Hw _].
Qed.

Lemma triple_aggregator_publish_round x existing data ps reinstate params cfg b unchanged :
  rest x → existing = default ∅ (aas x) →
  dom existing ⊆ dom data → dom (SecretAssets cfg) ⊆ dom data →
  Forall dns_pipeline ps → BuildAggregatorConfig params ps = Ok cfg → marshal cfg = Ok b →
  (unchanged = true → stored_refs refs (acfg x) ⊆ refs (aggregator_stored_config c b)) →
  triple (λ w, rest (vw w)) (λ w, vw w = x)
    (aggregator_publish_round inp services c existing [data] reinstate cfg b unchanged) (λ _ _, True).
Proof using Hg Hrefs.
  intros Hrest Hex Hdata Hassets Hdns Hbuild Hm Hun. pose proof (aggregator_built_refs _ _ _ _ Hdns Hbuild Hm) as Hb.
  assert (Hheld : stored_refs refs (acfg x) ⊆ dom existing) by (rewrite Hex; apply Hrest).
  unfold aggregator_publish_round. eapply quiet_bind_triple; [exact Hrest|apply quiet_prune_when|].
  intros [prune requeue] Hprune. simpl in Hprune. eapply triple_bind with (R := λ _ _, True).
  - destruct prune; (eapply triple_aggregator_staged).
    + exact Hb.
    + destruct (Hprune eq_refl) as [->|Hsub]; [by etrans; [apply Hun|exact Hb] | by etrans].
    + by etrans; [exact Hb|].
    + by etrans.
  - intros c2. eapply triple_bind; [apply (quiet_keeps vw); intros; apply quiet_reinstate, avw_pipelines|]. intros [].
    eapply triple_bind; [apply (quiet_keeps vw); intros y; apply quiet_success, avw_status|].
    intros []. by apply triple_ret.
Qed.

Lemma triple_aggregator_round x :
  rest x → triple (λ w, rest (vw w)) (λ w, vw w = x) (aggregator_round marshal r inp services c) (λ _ _, True).
Proof using Hg Hrefs.
  intros Hx. unfold aggregator_round. cbv zeta.
  eapply quiet_bind_triple; [exact Hx|apply quiet_resolve, avw_pipelines|]. intros sel (all & Hall & Hsub).
  apply (gg_listed Hg) in Hall as (Hnd & Hdns & Hev).
  eapply quiet_bind_triple; [exact Hx|apply quiet_aggregator_existing|]. intros e ->.
  eapply quiet_bind_triple; [exact Hx|apply quiet_lift|]. intros [[datas bridge] waiting] Hplan.
  eapply quiet_bind_triple; [exact Hx|apply quiet_mark, avw_pipelines|]. intros [] _.
  assert (Hfinal : NoDup (pipelineID <$> sel_result sel))
    by (eapply sublist_NoDup; [exact Hnd|]; by apply fmap_sublist).
  assert (Hin : ∀ p, p ∈ bridge → p ∈ all)
    by (intros p Hp; eapply sublist_elem; [exact Hsub|]; by eapply plan_bridge_among).
  rewrite Forall_forall in Hdns, Hev.
  assert (Hbridge : Forall dns_pipeline bridge) by (apply Forall_forall; auto).
  assert (Hplain : Forall events_plain bridge) by (apply Forall_forall; auto).
  destruct (BuildAggregatorConfig _ bridge) as [cfg|e] eqn:Hbuild.
  2: { eapply quiet_bind_triple; [exact Hx|apply quiet_failed, avw_status|]. intros [] _. by apply triple_ret. }
  pose proof (aggregator_build_resolved _ _ _ Hplain Hbuild) as Hres.
  destruct (single_variant_published _ _ _ _ _ _ _ _ Hfinal Hplan Hres) as (data & -> & Hdata & Hassets).
  eapply quiet_bind_triple; [exact Hx|apply quiet_lift|]. intros b Hb.
  eapply quiet_bind_triple; [exact Hx|apply quiet_aggregator_matches|]. intros unchanged Hun.
  eapply quiet_bind_triple; [exact Hx|apply quiet_check; [apply avw_status|apply aggregator_frame]|].
  intros [] _; [|by apply triple_ret]. by eapply triple_aggregator_publish_round.
Qed.

(** The handler of the kind. *)
Definition aggregator_handler : K Z :=
  if ag_cluster g then createOrUpdateClusterVectorAggregator Version marshal r inp services g
  else createOrUpdateVectorAggregator Version marshal r inp services g.

Lemma triple_aggregator : triple (λ w, rest (vw w)) (λ _, True) aggregator_handler (λ _ _, True).
Proof using Hg Hrefs.
  intros cl Hcl _. revert cl Hcl.
  enough (Hx : ∀ x, rest x → triple (λ w, rest (vw w)) (λ w, vw w = x) aggregator_handler (λ _ _, True))
    by (intros cl Hcl; by eapply Hx).
  intros x Hx. assert (Hterm : ∀ s, triple (λ w, rest (vw w)) (λ w, vw w = x)
    (terminating ← NamespaceIsTerminating s; if terminating : bool then mret 0 else aggregator_round marshal r inp services c)
    (λ _ _, True)).
  { intros s. eapply quiet_bind_triple; [exact Hx| |].
    - apply quiet_then; [by apply quiet_find with (Q := λ _, True)|]. intros []; by apply quiet_ret with (Q := λ _, True).
    - intros [] _; [by apply triple_ret|]. by apply triple_aggregator_round. }
  unfold aggregator_handler. destruct (ag_cluster g); [|by apply Hterm].
  unfold createOrUpdateClusterVectorAggregator. cbv zeta. case_bool_decide; [|by apply Hterm].
  eapply quiet_bind_triple; [exact Hx|apply quiet_failed, avw_status|]. intros [] _. by apply triple_ret.
Qed.
End rounds.

(** ** All the rounds *)

Definition fixed_view (ns name : string) : world → aview :=
  aggregator_view KDeployment KStatefulSet ns (name +:+ "-aggregator").

Lemma at_rest2_fixed refs c ns name w :
  at_rest2 refs (name +:+ "-aggregator") (aggregator_view (kcur c) (kobs c) ns (name +:+ "-aggregator") w) ↔
  at_rest2 refs (name +:+ "-aggregator") (fixed_view ns name w).
Proof. unfold fixed_view, kcur, kobs. destruct (persistenceEnabled c); split; try done; apply at_rest2_swap. Qed.

(** What the cluster may become: from nothing of the aggregator, by rounds for it, with
    or without persistence, each of which may stop at any of its writes, and by others
    that leave the aggregator's objects alone. *)
Inductive aggregator_reachable `{GoRuntime, Libraries, KubeApi} Version marshal (ns name : string) : world → Prop :=
| areach_start w :
    fixed_view ns name w = {| acur := None; aobs := None; acfg := None; aas := None |} →
    aggregator_reachable Version marshal ns name w
| areach_round r inp services g cl tr cl' res w :
    aggregator_reachable Version marshal ns name (seen cl) →
    ac_namespace (init_aggregator Version r g) = ns → ag_name g = name → aggregator_given Version r inp g →
    aggregator_handler Version marshal r inp services g cl = (tr, cl', res) →
    w ∈ tr ++ [seen cl'] →
    aggregator_reachable Version marshal ns name w
| areach_other w w' :
    aggregator_reachable Version marshal ns name w →
    fixed_view ns name w' = fixed_view ns name w →
    aggregator_reachable Version marshal ns name w'.

(** C2: every world the rounds of a VectorAggregator or a ClusterVectorAggregator can
    lead to, interrupted anywhere and with persistence switched on and off between
    them, is one in which a pod created from a stored template, of the Deployment or
    of the StatefulSet, mounts only assets that exist, and they hold every key its
    stored configuration refers to. Pipelines with references in the options of a
    [kubernetes_events] source are excluded. *)
Theorem aggregator_pods_start `{GoRuntime, Libraries, KubeApi} Version marshal refs ns name w :
  reads_back refs marshal → aggregator_reachable Version marshal ns name w →
  at_rest2 refs (name +:+ "-aggregator") (fixed_view ns name w).
Proof.
  intros Hrefs. induction 1 as [w Hw|r inp services g cl tr cl' res w _ IH <- <- Hg Hrun Hw|w w' _ IH Hw].
  - rewrite Hw. apply at_rest2_empty.
  - pose proof (λ w, at_rest2_fixed refs (init_aggregator Version r g) (ac_namespace (init_aggregator Version r g))
      (ag_name g) w) as Hfix.
    pose proof (triple_aggregator Version marshal refs Hrefs r inp services g Hg cl (proj2 (Hfix _) IH) I) as Ht.
    rewrite Hrun in Ht. destruct Ht as (Htr & Hend & _). apply (proj1 (Hfix w)).
    apply elem_of_app in Hw as [Hw| ->%list_elem_of_singleton]; [|done].
    rewrite Forall_forall in Htr. by apply Htr.
  - by rewrite Hw.
Qed.

(** ** A round that is not safe, and witnesses *)

#[local] Existing Instance stable_runtime.

(** A pipeline of an aggregator: its sources and sinks, with [c] the Secret [s]. *)
Definition sample_gp (name : string) (created : Z) (secret sources sinks : string) : Pipeline :=
  let p := sample_vp "team" name created
    {| spec_sources := Some {| re_raw := js sources |}; spec_transforms := None;
       spec_sinks := Some {| re_raw := js sinks |}; spec_secret := {["c" := sample_backend secret]} |} in
  with_status (λ _, {| st_role := Some VectorPipelineRoleAggregator; st_config_check_result := Some true;
    st_reason := None; st_last_applied_pipeline_hash := None; st_related_secrets_hash := None |}) p.

Definition old_pipeline : Pipeline :=
  sample_gp "old" 1 "s1" "{'tcp':{'type':'socket','address':'0.0.0.0:9000'}}"
    "{'out':{'type':'blackhole','inputs':['tcp'],'token':'SECRET[c.k]'}}".
Definition new_pipeline : Pipeline :=
  sample_gp "new" 2 "s2" "{'tcp':{'type':'socket','address':'0.0.0.0:9001'}}"
    "{'out':{'type':'blackhole','inputs':['tcp'],'token':'SECRET[c.k]'}}".
(** Its source refers to a key the Secret does not have; the build drops the option. *)
Definition events_pipeline : Pipeline :=
  sample_gp "events" 3 "s2" "{'ev':{'type':'kubernetes_events','token':'SECRET[c.missing]'}}"
    "{'out':{'type':'blackhole','inputs':['ev']}}".

Definition aggregator_answers (ps : list Pipeline) : round_inputs :=
  {| ri_lister := {| list_vps := Ok ps; list_cvps := Ok [] |}; ri_getter := sample_getter; ri_monitoring := Ok false;
     ri_hash := "abcde"; ri_watch := None;
     ri_events := [EvAdded {| pod_deleting := false; pod_ph := PodSucceeded; pod_waiting := [] |}] |}.

Definition sample_aggregator : Aggregator := {|
  ag_cluster := false; ag_namespace := "team"; ag_resource_namespace := ""; ag_name := "g"; ag_uid := "u";
  ag_kind := "VectorAggregator"; ag_api_version := "v1alpha1"; ag_deleted := false;
  ag_finalizers := [aggregatorFinalizerName];
  ag_spec := {| va_common := zero_common; va_replicas := None; va_selector := None;
    va_collector := {| ec_image := ""; ec_pull_policy := ""; ec_max_batch := 0 |};
    va_autoscaling := {| as_enabled := false; as_min := None; as_max := 3; as_metrics := ""; as_behavior := "" |};
    va_spread := "";
    va_persistence := {| ps_enabled := false; ps_size := 0; ps_storage_class := None; ps_access_modes := [];
                         ps_claims := []; ps_retention := None |};
    va_pdb := {| pdb_enabled := false; pdb_min_available := None; pdb_max_unavailable := None; pdb_unhealthy := None |} |};
  ag_status := no_status |}.

Definition sample_aggregator_reconciler : AggregatorReconciler :=
  {| ar_check_timeout := 300 * second; ar_reader := true |}.

Definition team_namespace : Object :=
  {| o_meta := {| om_namespace := ""; om_name := "team"; om_labels := ∅; om_annotations := ∅; om_owners := [];
                  om_created := true |}; o_body := BNamespace false |}.

Definition aggregator_run (ps : list Pipeline) (w : world) :=
  @aggregator_handler stable_runtime _ simple_api "1" sample_marshal sample_aggregator_reconciler
    (aggregator_answers ps) (Ok []) sample_aggregator (calm w 0).

(** A round for the old pipeline, and one after it was replaced by the other two. *)
Definition first_run := aggregator_run [old_pipeline] (sample_status_world {[key_of team_namespace := team_namespace]}).
Definition first_end : world := sc_world first_run.1.2.
Definition second_run := aggregator_run [events_pipeline; new_pipeline] first_end.
Definition second_end : world := sc_world second_run.1.2.

Lemma plain_sources (p : Pipeline) (types : list string) :
  ((λ pc, src_type <$> (map_to_list (Sources pc)).*2) <$> UnmarshalJson (GetSpec p)) = Ok types →
  kubernetesEventsType ∉ types → events_plain p.
Proof.
  intros Ht Hn pc k s Hu Hs Hty. rewrite Hu in Ht. injection Ht as <-. destruct Hn.
  apply list_elem_of_fmap. exists s. split; [done|]. apply list_elem_of_fmap. exists (k, s).
  split; [done|]. by apply elem_of_map_to_list.
Qed.

Lemma aggregator_user_apart : aggregator_volumes_apart (init_aggregator "1" sample_aggregator_reconciler sample_aggregator).
Proof. intros v m Hv _. simpl in Hv. rewrite !elem_of_cons, elem_of_nil in Hv. by destruct_or?; subst. Qed.

Lemma first_given :
  aggregator_given "1" sample_aggregator_reconciler (aggregator_answers [old_pipeline]) sample_aggregator.
Proof.
  split; [done| |exact aggregator_user_apart].
  intros all Hall. assert (Heq : Ok all = (Ok [old_pipeline] : result (list Pipeline))).
  { rewrite <- Hall. vm_compute. reflexivity. }
  injection Heq as ->. split; [by apply NoDup_singleton|]. split; [repeat constructor|].
  constructor; [|constructor]. apply (plain_sources _ ["socket"]); [vm_compute; reflexivity|].
  by apply (bool_decide_unpack _).
Qed.

Lemma first_reachable : aggregator_reachable "1" sample_marshal "team" "g" first_end.
Proof.
  eapply (@areach_round stable_runtime _ simple_api "1" sample_marshal "team" "g" sample_aggregator_reconciler
    (aggregator_answers [old_pipeline]) (Ok []) sample_aggregator
    (calm (sample_status_world {[key_of team_namespace := team_namespace]}) 0) first_run.1.1 first_run.1.2 first_run.2);
    [|done|done|exact first_given| |].
  - apply areach_start. vm_compute. reflexivity.
  - unfold first_run, aggregator_run. by destruct (aggregator_handler _ _ _ _ _ _ _) as [[tr cl] res].
  - apply elem_of_app. right. by apply list_elem_of_singleton.
Qed.

(** A first round publishes the configuration, its value and the Deployment. *)
Lemma aggregator_pods_start_witness :
  first_run.2 = Ok 0 ∧
  (map_to_list <$> acfg (fixed_view "team" "g" first_end)) = Some [("config.json", "team_old_c_k")] ∧
  (map_to_list <$> aas (fixed_view "team" "g" first_end)) = Some [("team_old_c_k", "value of s1")] ∧
  at_rest2 sample_read "g-aggregator" (fixed_view "team" "g" first_end).
Proof.
  split; [vm_compute; reflexivity|]. split; [vm_compute; reflexivity|]. split; [vm_compute; reflexivity|].
  apply (@aggregator_pods_start stable_runtime _ simple_api "1" sample_marshal sample_read "team" "g" first_end
    sample_reads_back first_reachable).
Defined.

(** C34: a reference in the options of a [kubernetes_events] source makes a round
    unsafe. The build drops the options and succeeds, but the bridge plan scans them,
    fails on the key the Secret does not have, and falls back to the assets that are
    there. After a first round like any other, the round for the two pipelines returns
    without an error and has published a configuration that refers to a key its assets
    do not hold, read by the pods of the stored template. *)
Theorem events_source_unsafe :
  aggregator_reachable "1" sample_marshal "team" "g" first_end ∧
  Forall dns_pipeline [events_pipeline; new_pipeline] ∧ second_run.2 = Ok 0 ∧
  let x := fixed_view "team" "g" second_end in
  ∃ t k, live x t ∧ uses t "g-aggregator" ∧ k ∈ stored_refs sample_read (acfg x) ∧ k ∉ held (aas x).
Proof.
  split; [exact first_reachable|]. split; [repeat constructor|]. split; [vm_compute; reflexivity|]. cbv zeta.
  assert (Hu : (λ t, existsb (λ v, bool_decide (vol_source v = VSecret "g-aggregator")) (ps_volumes (pt_spec t))) <$>
    acur (fixed_view "team" "g" second_end) = Some true) by (vm_compute; reflexivity).
  destruct (acur (fixed_view "team" "g" second_end)) as [t|] eqn:Ht; [|done].
  exists t, "team_new_c_k". split; [by left|]. split_and!.
  - injection Hu as (v & Hv & Hs%bool_decide_eq_true)%existsb_exists. exists v. clear Ht. split; [by apply list_elem_of_In|exact Hs].
  - apply (bool_decide_unpack _). vm_compute. exact I.
  - apply (bool_decide_unpack _). vm_compute. exact I.
Qed.
