(* ===== verification/Finalizer.v ===== *)
(** * The finalizer of a VectorAggregator

    Deleting a VectorAggregator removes the cluster-scoped objects nothing owns
    ([DeleteVectorAggregator], [Reconcile] of [vectoraggregator_controller.go]): what a
    finalization that ends has removed, and how one that is interrupted loses an object. *)

From S2P Require Import AggregatorSafety.
From S2P Require Export AggregatorReconciler.

(** ** Deleting an aggregator *)

Section finalizer.
Context `{GoRuntime, KubeApi}.
Context (Version : string).

Lemma delete_run k c :
  let '(tr, c', r) := k_delete k c in
  tr = [seen c'] ∧
  match r with
  | Ok _ => seen c' = set_objects (delete k) (seen c)
  | Err e => if is_not_found e then w_objects (seen c) !! k = None ∧ seen c' = seen c
             else seen c' = seen c ∨ seen c' = set_objects (delete k) (seen c)
  end.
Proof.
  unfold k_delete. pose proof (api_delete_spec k c) as Hs. by destruct (api_delete k c) as [[[]|e] c'].
Qed.

(** A finalized aggregator whose ClusterRole was there has lost it and its binding, and
    nothing else has changed. *)
Lemma finalizer_exact update g c tr c' g' :
  finalize_aggregator Version update g c = (tr, c', Ok (Some g')) →
  let ctl := aggregator_NewController Version g in
  let role := key_of (createVectorAggregatorClusterRole ctl) in
  let binding := key_of (createVectorAggregatorClusterRoleBinding ctl) in
  HasFinalizer g aggregatorFinalizerName = true ∧ HasFinalizer g' aggregatorFinalizerName = false ∧
  update g' = Ok tt ∧
  (is_Some (w_objects (seen c) !! role) →
     seen c' = set_objects (delete binding) (set_objects (delete role) (seen c))).
Proof.
  intros Hrun. set (ctl := aggregator_NewController Version g). unfold finalize_aggregator in Hrun.
  destruct (HasFinalizer g aggregatorFinalizerName) eqn:Hf; [|done]. cbv zeta.
  set (role := key_of (createVectorAggregatorClusterRole ctl)).
  set (binding := key_of (createVectorAggregatorClusterRoleBinding ctl)).
  set (g1 := RemoveFinalizer (with_ag_spec (default_aggregator Version (ag_spec g)) g) aggregatorFinalizerName).
  assert (Hg1 : HasFinalizer g1 aggregatorFinalizerName = false).
  { unfold HasFinalizer, g1. simpl. apply bool_decide_eq_false. intros [Hn _]%list_elem_of_filter. done. }
  fold ctl in Hrun. unfold deleteVectorAggregator, DeleteVectorAggregator, k_try, k_lift, k_fail, mret, K_ret, k_ret, mbind, K_bind, k_bind in Hrun.
  change (deleteVectorAggregatorClusterRole (aggregator_NewController Version g)) with (k_delete role) in Hrun.
  change (deleteVectorAggregatorClusterRoleBinding (aggregator_NewController Version g)) with (k_delete binding) in Hrun.
  pose proof (delete_run role c) as H1. destruct (k_delete role c) as [[tr1 c1] [[]|e1]].
  - pose proof (delete_run binding c1) as H2. destruct (k_delete binding c1) as [[tr2 c2] [[]|e2]].
    + cbn in Hrun; fold g1 in Hrun. destruct (update g1) as [[]|e] eqn:Hup; [|done]. injection Hrun as _ <- <-.
      split_and!; [done..|]. intros _. destruct H1 as [_ H1]. destruct H2 as [_ H2]. by rewrite H2, H1.
    + cbn in Hrun. destruct (is_not_found e2); [|done]. cbn in Hrun; fold g1 in Hrun.
      destruct (update g1) as [[]|e] eqn:Hup; [|done]. injection Hrun as _ <- <-.
      split_and!; [done..|]. intros _. destruct H1 as [_ H1]. destruct H2 as [_ [Hn ->]].
      rewrite H1 in *. symmetry. apply set_objects_id. by apply delete_id.
  - cbn in Hrun. destruct (is_not_found e1); [|done]. cbn in Hrun; fold g1 in Hrun.
    destruct (update g1) as [[]|e] eqn:Hup; [|done]. injection Hrun as _ <- <-.
    split_and!; [done..|]. intros [o Ho]. destruct H1 as [_ [Hn _]]. congruence.
Qed.
End finalizer.

(** ** A finalizer that forgets *)

#[local] Existing Instance stable_runtime.

Definition deleted_aggregator : Aggregator :=
  {| ag_cluster := false; ag_namespace := "team"; ag_resource_namespace := ""; ag_name := "g"; ag_uid := "u";
     ag_kind := "VectorAggregator"; ag_api_version := "v1alpha1"; ag_deleted := true;
     ag_finalizers := [aggregatorFinalizerName]; ag_spec := ag_spec sample_aggregator; ag_status := no_status |}.

(** Its cluster-scoped objects. *)
Definition its_role : Object := createVectorAggregatorClusterRole (aggregator_NewController "1" deleted_aggregator).
Definition its_binding : Object :=
  createVectorAggregatorClusterRoleBinding (aggregator_NewController "1" deleted_aggregator).
Definition before_deletion : world :=
  sample_status_world {[key_of its_role := its_role; key_of its_binding := its_binding]}.

(** A server whose second call fails, and the round that follows. *)
Definition interrupted_finalization :=
  @finalize_aggregator stable_runtime simple_api "1" (λ _, Ok tt) deleted_aggregator
    {| sc_world := before_deletion; sc_fails := λ n, bool_decide (n = 1%nat); sc_calls := 0; sc_clock := 0 |}.
Definition second_finalization :=
  @finalize_aggregator stable_runtime simple_api "1" (λ _, Ok tt) deleted_aggregator
    (calm (sc_world interrupted_finalization.1.2) 0).

Lemma finalizer_exact_witness :
  is_Some (w_objects before_deletion !! key_of its_role) ∧
  sc_world (@finalize_aggregator stable_runtime simple_api "1" (λ _, Ok tt) deleted_aggregator (calm before_deletion 0)).1.2 =
    set_objects (delete (key_of its_binding)) (set_objects (delete (key_of its_role)) before_deletion).
Proof.
  assert (Hrole : is_Some (w_objects before_deletion !! key_of its_role)) by (by eexists).
  split; [exact Hrole|].
  pose proof (λ tr c' g', @finalizer_exact stable_runtime simple_api "1" (λ _, Ok tt) deleted_aggregator
    (calm before_deletion 0) tr c' g') as Hex.
  assert (Hr : match (@finalize_aggregator stable_runtime simple_api "1" (λ _, Ok tt) deleted_aggregator
    (calm before_deletion 0)).2 with Ok (Some _) => true | _ => false end = true) by (vm_compute; reflexivity).
  destruct (finalize_aggregator _ _ _ _) as [[tr c'] [[g'|]|e]]; [|discriminate Hr..].
  exact (proj2 (proj2 (proj2 (Hex tr c' g' eq_refl))) Hrole).
Defined.

(** A deletion that is interrupted between the ClusterRole and its binding loses the
    binding for good: the first round fails, as it should; the next one finds the
    ClusterRole gone, takes this for the end of the cleanup, and removes the
    finalizer with the binding still there. *)
Lemma finalizer_leaks_binding :
  interrupted_finalization.2 = Err call_failed ∧
  (from_option (λ g, ag_finalizers g) [] <$> second_finalization.2) = Ok [] ∧
  is_Some (w_objects (sc_world second_finalization.1.2) !! key_of its_binding).
Proof.
  split; [vm_compute; reflexivity|]. split; [vm_compute; reflexivity|].
  apply (bool_decide_unpack _). vm_compute. exact I.
Qed.
