(* ===== verification/PipelineReconciler.v ===== *)
(** * Reconciling a pipeline

    [src/internal/controller/pipeline_controller.go]: one round of a pipeline, from the
    Secrets it uses to the verdict in its status and the workloads woken up, the poll of
    a scoped operator and the requests a changed Secret leads to. *)

From S2P Require Export VectorReconciler AggregatorReconciler SecretIndex.

Record PipelineReconciler := {
  pl_check_timeout : Z;
  pl_reconcile_invalid : bool;    (** [EnableReconciliationInvalidPipelines] *)
  pl_retry_delay : Z;             (** [ReconciliationInvalidPipelinesRetryDelay] *)
  pl_optimization : bool;
  pl_poll : bool                  (** [PollSecretRotation] *)
}.

Definition ErrBuildConfigFailed : err := ErrSentinel "ErrBuildConfigFailed" "failed to build config".
Definition is_build_failed (e : err) : bool := errors_as (λ e, bool_decide (e = ErrBuildConfigFailed)) e.

Definition relatedSecretsResolveRetryDelay : Z := 10 * second.
Definition millisecond : Z := 1000000.
Definition minute : Z := 60 * second.
Definition secretRotationPollBase : Z := 4 * minute.
Definition secretRotationPollSpread : Z := 1 * minute.

Definition secretRotationPollInterval (key : NamespacedName) : Z :=
  secretRotationPollBase +
  fnv32a (bytes_of key.1 ++ [0] ++ bytes_of key.2) mod (secretRotationPollSpread / millisecond) * millisecond.

(** A workload a pipeline is checked for, which is also what an event names. *)
Inductive checked_workload :=
| CheckAgent (v : Vector)
| CheckAggregator (g : Aggregator).

(** What the check of one workload is answered: the reads of Secrets of its build, the
    suffix of the check's objects, the watch and its events. *)
Record check_answers := {
  ca_getter : SecretGetter;
  ca_hash : string;
  ca_watch : option err;
  ca_events : list check_event
}.

(** What the rest of the world answers in a round. [pi_get true] is the read of the
    VectorPipeline of the request, [pi_get false] that of the ClusterVectorPipeline, and
    [pi_again] the second read, after the round. The checks run concurrently, each on
    objects of its own: [pi_order] is the order they finish in. *)
Record pipeline_inputs := {
  pi_get : bool → result Pipeline;
  pi_again : bool → result Pipeline;
  pi_reader : SecretGetter;
  pi_agents : result (list Vector);
  pi_aggregators : result (list Aggregator);
  pi_cluster_aggregators : result (list Aggregator);
  pi_answers : checked_workload → check_answers;
  pi_order : list checked_workload → list checked_workload
}.

(** [RequeueAfter] and the workloads sent to the event channels. *)
Record pipeline_outcome := { po_requeue : Z; po_notified : list checked_workload }.

Definition nothing_more : pipeline_outcome := {| po_requeue := 0; po_notified := [] |}.
Definition requeue (z : Z) : pipeline_outcome := {| po_requeue := z; po_notified := [] |}.

Record workloads := {
  wl_agents : list Vector;
  wl_aggregators : list Aggregator;
  wl_cluster_aggregators : list Aggregator
}.

Definition all_workloads (ws : workloads) : list checked_workload :=
  (CheckAgent <$> wl_agents ws) ++ (CheckAggregator <$> wl_aggregators ws) ++
  (CheckAggregator <$> wl_cluster_aggregators ws).

Definition getPipeline (req : NamespacedName) (get : bool → result Pipeline) : result (option Pipeline) :=
  match get (negb (bool_decide (req.1 = ""))) with
  | Ok p => Ok (Some p)
  | Err e => if is_not_found e then Ok None else Err e
  end.

(** The listings of a round; a failed one only ends it. *)
Definition list_workloads (inp : pipeline_inputs) : option workloads :=
  match listVectorAgents (pi_agents inp), listVectorAggregators (pi_aggregators inp),
        listClusterVectorAggregators (pi_cluster_aggregators inp) with
  | Ok a, Ok g, Ok c => Some {| wl_agents := a; wl_aggregators := g; wl_cluster_aggregators := c |}
  | _, _, _ => None
  end.

Section reconcile.
Context `{GoRuntime, Libraries, KubeApi}.
Context (Version : string) (marshal : VectorConfig → result string).

(** ** The Secrets of the pipeline *)

(** The references the index gets, and the token. *)
Definition related_round (reader : SecretGetter) (p : Pipeline) : list NamespacedName * result (option Z) :=
  match UsedSecretBackends p with
  | Err _ => ([], Ok None)
  | Ok used =>
      if bool_decide (0 < size (spec_secret (GetSpec p)))%nat then resolveRelatedSecrets reader p used
      else ([], Ok None)
  end.

(** What the round leaves in the index, however it ends. *)
Definition index_round (inp : pipeline_inputs) (req : NamespacedName) (si : option SecretIndex)
    : option SecretIndex :=
  match getPipeline req (pi_get inp) with
  | Err _ => si
  | Ok None => (λ si, index_Set si req []) <$> si
  | Ok (Some p) => (λ si, index_Set si (ObjectKey p) (related_round (pi_reader inp) p).1) <$> si
  end.

Definition mapSecretToPipelines (si : option SecretIndex) (secret : NamespacedName) : list NamespacedName :=
  match si with
  | None => []
  | Some si => PipelinesFor si secret
  end.

(** ** The checks *)

Definition build_failed (what namespace name : string) (e : err) : err :=
  ErrWraps (what +:+ " " +:+ namespace +:+ "/" +:+ name +:+ " build config failed: ") ErrBuildConfigFailed ": " e.

(** What the function of a check returns for the check's verdict. *)
Definition check_error (what namespace name : string) (v : ConfigCheck.verdict) : option err :=
  match v with
  | (reason, e) =>
      if from_option (errors_as (λ e, bool_decide (e = ErrConfigcheckSkipped))) false e then None
      else if bool_decide (reason ≠ "")
           then Some (ErrText (what +:+ " " +:+ namespace +:+ "/" +:+ name +:+ " config check failed: " +:+ reason))
           else e
  end.

(** The pipeline alone in the configuration of the workload. *)
Definition build_alone (r : PipelineReconciler) (a : check_answers) (p : Pipeline) (w : checked_workload)
    : result (VectorConfig * string) :=
  match w with
  | CheckAgent v =>
      let c := NewController v in
      match BuildAgentConfig marshal (agent_params c (optimizeSources (pl_optimization r) (ct_vector c)) (ca_getter a)) [p] with
      | Err e => Err (build_failed "agent" (v_namespace v) (v_name v) e)
      | Ok b => Ok b
      end
  | CheckAggregator g =>
      let c := aggregator_NewController Version g in
      let what := if ag_cluster g then "cluster aggregator" else "aggregator" in
      match BuildAggregatorConfig (aggregator_params c (ca_getter a)) [p] with
      | Err e => Err (build_failed what (ag_namespace g) (ag_name g) e)
      | Ok cfg => bytes ← marshal cfg; Ok (cfg, bytes)
      end
  end.

(** The check, and the names its error carries. *)
Definition alone_check (r : PipelineReconciler) (w : checked_workload) (cfg : VectorConfig) (bytes : string)
    : ConfigCheck :=
  match w with
  | CheckAgent v =>
      let c := NewController v in
      new_check bytes (agent c) (v_name v) (v_namespace v) (pl_check_timeout r) ConfigCheckInitiatorPipieline
        (SecretAssets cfg)
  | CheckAggregator g =>
      let c := aggregator_NewController Version g in
      new_check bytes (ac_common c) (ac_name c) (ac_namespace c) (pl_check_timeout r) ConfigCheckInitiatorPipieline
        (SecretAssets cfg)
  end.

Definition workload_error (w : checked_workload) (v : ConfigCheck.verdict) : option err :=
  match w with
  | CheckAgent x => check_error "agent" (v_namespace x) (v_name x) v
  | CheckAggregator g =>
      check_error (if ag_cluster g then "cluster aggregator" else "aggregator") (ag_namespace g) (ag_name g) v
  end.

(** The function a goroutine runs. *)
Definition check_workload (r : PipelineReconciler) (inp : pipeline_inputs) (p : Pipeline) (w : checked_workload)
    : K (option err) :=
  let a := pi_answers inp w in
  match build_alone r a p w with
  | Err e => mret (Some e)
  | Ok (cfg, bytes) =>
      v ← Run (alone_check r w cfg bytes) (ca_hash a) (ca_watch a) (ca_events a);
      mret (workload_error w v)
  end.

(** [errgroup]: all run, the error is the first one. *)
Definition eg_wait (f : checked_workload → K (option err)) (l : list checked_workload) : K (option err) :=
  k_fold (λ first w, e ← f w; mret (match first with Some _ => first | None => e end)) None l.

Definition selects (selector : option (gmap string string)) (p : Pipeline) : bool :=
  MatchLabels (default ∅ selector) (GetLabels p).

(** The workloads a pipeline of a role is checked for. *)
Definition matching_workloads (role : VectorPipelineRole) (p : Pipeline) (ws : workloads) : list checked_workload :=
  if bool_decide (role = VectorPipelineRoleAgent) then
    CheckAgent <$> List.filter (λ v, selects (v_selector v) p) (wl_agents ws)
  else if bool_decide (GetNamespace p ≠ "") then
    CheckAggregator <$> List.filter (λ g, bool_decide (ag_namespace g = GetNamespace p) &&
      selects (va_selector (ag_spec g)) p) (wl_aggregators ws)
  else
    CheckAggregator <$> List.filter (λ g, selects (va_selector (ag_spec g)) p) (wl_cluster_aggregators ws).

(** ** The round *)

(** Whether a pipeline is left as it is, given the token of its Secrets. *)
Definition up_to_date (r : PipelineReconciler) (p : Pipeline) (token : option Z) : result bool :=
  if negb (pl_reconcile_invalid r) || IsValid p then
    notChanged ← IsPipelineChanged p;
    Ok (notChanged && relatedSecretsHashEqual (GetRelatedSecretsHash p) token)
  else Ok false.

(** A check failed; [p] carries the token and the role, [base] is the pipeline as read. *)
Definition reject (r : PipelineReconciler) (p base : Pipeline) (e : err) : K pipeline_outcome :=
  let unresolved := errors_as is_resolve_error e in
  _ ← pipeline_SetFailedStatus (if unresolved then SetRelatedSecretsHash None p else p) (error_string e) base;
  mret (requeue (if unresolved then relatedSecretsResolveRetryDelay
                 else if is_build_failed e then 0
                 else if pl_reconcile_invalid r then pl_retry_delay r else 0)).

(** The rest of the round of a pipeline that is not up to date. *)
Definition judge (r : PipelineReconciler) (inp : pipeline_inputs) (ws : workloads) (base : Pipeline)
    (token : option Z) : K pipeline_outcome :=
  let p := SetRelatedSecretsHash token base in
  match UnmarshalJson (GetSpec p) with
  | Err e =>
      _ ← k_wrap ("failed to set pipeline status " +:+ GetName p +:+ ": ")
            (pipeline_SetFailedStatus p ("Failed to unmarshal vector pipeline " +:+ error_string e) base);
      mret nothing_more
  | Ok cfg =>
      match VectorRole cfg with
      | Err e => _ ← pipeline_SetFailedStatus p (error_string e) base; mret nothing_more
      | Ok role =>
          let p := SetRole (Some role) p in
          first ← eg_wait (check_workload r inp p) (pi_order inp (matching_workloads role p ws));
          match first with
          | Some e => reject r p base e
          | None =>
              _ ← pipeline_SetSuccessStatus p base;
              mret {| po_requeue := 0; po_notified := all_workloads ws |}
          end
      end
  end.

Definition unresolved_round (p : Pipeline) (e : err) : K pipeline_outcome :=
  _ ← pipeline_SetFailedStatus (SetRelatedSecretsHash None p) (error_string e) p;
  mret (requeue (if errors_as is_secret_shape_error e then 0 else relatedSecretsResolveRetryDelay)).

Definition pipeline_reconcile (r : PipelineReconciler) (inp : pipeline_inputs) (req : NamespacedName)
    : K pipeline_outcome :=
  found ← k_lift (getPipeline req (pi_get inp));
  match found with
  | None =>
      mret (match list_workloads inp with
            | None => nothing_more
            | Some ws => {| po_requeue := 0; po_notified := all_workloads ws |}
            end)
  | Some p =>
      match (related_round (pi_reader inp) p).2 with
      | Err e => unresolved_round p e
      | Ok token =>
          match list_workloads inp with
          | None => mret nothing_more
          | Some ws =>
              if bool_decide (all_workloads ws = []) then mret nothing_more else
              skip ← k_lift (up_to_date r p token);
              if skip : bool then mret nothing_more else judge r inp ws p token
          end
      end
  end.

(** ** The poll *)

Definition armSecretRotationPoll (r : PipelineReconciler) (req : NamespacedName) (get : bool → result Pipeline)
    (requeueAfter : Z) : Z :=
  if negb (pl_poll r) then requeueAfter else
  match getPipeline req get with
  | Ok (Some p) =>
      if bool_decide (size (spec_secret (GetSpec p)) = 0%nat) then requeueAfter else
      match UsedSecretBackends p with
      | Ok used =>
          if bool_decide (used = ∅) then requeueAfter else
          let poll := secretRotationPollInterval (ObjectKey p) in
          if (requeueAfter =? 0) || (poll <? requeueAfter) then poll else requeueAfter
      | Err _ => requeueAfter
      end
  | _ => requeueAfter
  end.

Definition pipeline_Reconcile (r : PipelineReconciler) (inp : pipeline_inputs) (req : NamespacedName)
    : K pipeline_outcome :=
  o ← pipeline_reconcile r inp req;
  mret {| po_requeue := armSecretRotationPoll r req (pi_again inp) (po_requeue o); po_notified := po_notified o |}.

(** ** The watches *)

(** [specAndAnnotationsPredicate]: which updates of a pipeline lead to a round, by the
    generations and the annotations before and after ([None] is a nil map). *)
Definition specAndAnnotationsPredicate (old new : Z * option (gmap string string)) : bool :=
  negb (old.1 =? new.1) || negb (bool_decide (old.2 = new.2)).
End reconcile.
