(* ===== verification/CheckSkip.v ===== *)
(** * When a check is skipped

    [Run] reports [ErrConfigcheckSkipped] only where it found the namespace of the check
    being deleted, as long as nothing it talks to answers with that error of the
    operator's own. *)

From S2P Require Export ConfigCheck.

Definition is_skipped (e : err) : bool := errors_as (λ e, bool_decide (e = ErrConfigcheckSkipped)) e.
Definition result_skips {A} (r : result A) : Prop := ∃ e, r = Err e ∧ is_skipped e = true.

Lemma errors_as_join sel e e' : sel (ErrJoin e e') = false →
  errors_as sel (ErrJoin e e') = errors_as sel e || errors_as sel e'.
Proof. intros Hs. unfold errors_as. simpl. by rewrite Hs, existsb_app. Qed.

Section skips.
Context `{GoRuntime, KubeApi}.

(** The API server does not answer with the operator's own error. *)
Record api_not_skipping : Prop := {
  get_not_skipping k c : ¬ result_skips (api_get k c).1;
  update_not_skipping o f c : ¬ result_skips (api_create_or_update o f c).1;
  create_not_skipping o c : ¬ result_skips (api_create o c).1;
  delete_not_skipping k c : ¬ result_skips (api_delete k c).1
}.

(** Nor does the watch, or the end of the caller's context. *)
Definition event_not_skipping (e : check_event) : Prop :=
  match e with
  | EvAdded p | EvModified p => match pod_ph p with PodFailed logs => ¬ result_skips logs | _ => True end
  | EvDone cause => is_skipped cause = false
  | _ => True
  end.
Definition answers_not_skipping (watch : option err) (events : list check_event) : Prop :=
  (∀ e, watch = Some e → is_skipped e = false) ∧ Forall event_not_skipping events.

(** The namespace is being deleted, or is gone. *)
Definition namespace_terminating (name : string) (w : world) : Prop :=
  match w_objects w !! (KNamespace, "", name) with
  | None => True
  | Some ns => o_body ns = BNamespace true
  end.

Context (Hapi : api_not_skipping).

(** What a run can return, by its result alone. *)
Definition yields {A} (m : K A) (Q : A → Prop) : Prop :=
  ∀ c, match (m c).2 with Ok a => Q a | Err e => is_skipped e = false end.

Lemma yields_ret {A} (a : A) (Q : A → Prop) : Q a → yields (mret a) Q.
Proof. by intros HQ c. Qed.
Lemma yields_fail {A} e (Q : A → Prop) : is_skipped e = false → yields (k_fail e) Q.
Proof. by intros He c. Qed.
Lemma yields_bind {A B} (m : K A) (f : A → K B) R Q :
  yields m R → (∀ a, R a → yields (f a) Q) → yields (m ≫= f) Q.
Proof.
  intros Hm Hf c. unfold mbind, K_bind, k_bind. specialize (Hm c). destruct (m c) as [[tr c1] [a|e]]; [|done].
  specialize (Hf a Hm c1). by destruct (f a c1) as [[tr' c2] r].
Qed.
Lemma yields_try {A} (m : K A) Q (R : result A → Prop) :
  yields m Q → (∀ a, Q a → R (Ok a)) → (∀ e, is_skipped e = false → R (Err e)) → yields (k_try m) R.
Proof.
  intros Hm HOk HErr c. unfold k_try. specialize (Hm c). destruct (m c) as [[tr c1] [a|e]]; simpl in *; auto.
Qed.
Lemma yields_wrap {A} pre (m : K A) Q : yields m Q → yields (k_wrap pre m) Q.
Proof. intros Hm c. unfold k_wrap. specialize (Hm c). by destruct (m c) as [[tr c1] [a|e]]. Qed.

Lemma not_skips {A} (r : result A) : ¬ result_skips r → match r with Ok _ => True | Err e => is_skipped e = false end.
Proof. destruct r as [a|e]; [done|]. intros Hn. destruct (is_skipped e) eqn:He; [|done]. destruct Hn. by exists e. Qed.

Lemma yields_update o f : yields (k_update o f) (λ _, True).
Proof using Hapi.
  intros c. unfold k_update. pose proof (not_skips _ (update_not_skipping Hapi o f c)) as Hn.
  by destruct (api_create_or_update o f c) as [[a|e] c'].
Qed.
Lemma yields_create o : yields (k_create o) (λ _, True).
Proof using Hapi.
  intros c. unfold k_create. pose proof (not_skips _ (create_not_skipping Hapi o c)) as Hn.
  by destruct (api_create o c) as [[a|e] c'].
Qed.
Lemma yields_delete k : yields (k_delete k) (λ _, True).
Proof using Hapi.
  intros c. unfold k_delete. pose proof (not_skips _ (delete_not_skipping Hapi k c)) as Hn.
  by destruct (api_delete k c) as [[a|e] c'].
Qed.

Lemma yields_apply o : yields (apply o) (λ _, True).
Proof using Hapi.
  unfold apply, CreateOrUpdateResource. apply yields_bind with (R := λ _, True); [|intros; by apply yields_ret].
  destruct (o_body o); first [by apply yields_fail | apply yields_wrap, yields_update].
Qed.

Lemma yields_pod o : yields (CreatePod o) (λ _, True).
Proof using Hapi.
  unfold CreatePod. eapply yields_bind.
  { eapply yields_try with (R := λ r, ¬ result_skips r); [apply yields_create | by intros ? ? (? & ? & ?)|].
    intros e He (e' & [= <-] & He'). congruence. }
  intros [a|e] Hr; [by apply yields_ret|]. apply not_skips in Hr.
  destruct (is_already_exists e); [by apply yields_ret | by apply yields_fail].
Qed.

Definition error_not_skipping (e : option err) : Prop := ∀ e', e = Some e' → is_skipped e' = false.

Lemma wait_loop_not_skipping name events :
  Forall event_not_skipping events → error_not_skipping (wait_loop name events).2.
Proof.
  induction 1 as [|e events He _ IH]; simpl; [by intros ? [= <-]|].
  destruct (on_event name e) as [v|] eqn:Hv; [|done]. intros e' Hv'.
  assert (Hobs : ∀ p, match pod_ph p with PodFailed logs => ¬ result_skips logs | _ => True end →
    observe p = Some v → is_skipped e' = false).
  { intros p Hp. unfold observe. destruct (pod_deleting p); [done|].
    destruct (pod_ph p) as [|[logs|e0]|]; [intros [= <-]; done| | |].
    - intros [= <-]. by injection Hv' as <-.
    - intros [= <-]. injection Hv' as <-. by apply not_skips in Hp.
    - destruct (unstartableReason p); intros [= <-]. by injection Hv' as <-. }
  destruct e as [p|p|p|p| | |cause|]; simpl in *; [by eapply Hobs | by eapply Hobs | ..]; try discriminate Hv;
    injection Hv as <-; injection Hv' as <-; first [done | exact He].
Qed.

Lemma yields_attempt {A} (m : K A) :
  yields m (λ _, True) → yields (k_try m) (λ r, ∀ e, r = Err e → is_skipped e = false).
Proof. intros Hm. eapply yields_try; [exact Hm | done|]. by intros e He ? [= <-]. Qed.

Context (watch : option err) (events : list check_event) (Hanswers : answers_not_skipping watch events).

Definition verdict_not_skipping (v : verdict) : Prop := error_not_skipping v.2.

Lemma verdict_error e : is_skipped e = false → verdict_not_skipping ("", Some e).
Proof. by intros He ? [= <-]. Qed.

Lemma yields_check_body cc : yields (check_body cc watch events) verdict_not_skipping.
Proof using Hapi Hanswers.
  unfold check_body. eapply yields_bind; [apply yields_attempt, yields_apply|].
  intros [[]|e] He; [|apply yields_ret, verdict_error; auto].
  eapply yields_bind; [apply yields_attempt; unfold k_when; destruct (has_assets cc); [apply yields_apply | by apply yields_ret]|].
  intros [[]|e1] He1; [|apply yields_ret, verdict_error; auto].
  eapply yields_bind; [apply yields_attempt, yields_pod|].
  intros [[]|e2] He2; [|apply yields_ret, verdict_error; auto].
  apply yields_ret. destruct Hanswers as [Hw Hev].
  assert (Hn : error_not_skipping (getCheckResult (getNameVectorConfigCheck cc) watch events).2).
  { unfold getCheckResult. destruct watch as [e0|]; [intros ? [= <-]; auto | by apply wait_loop_not_skipping]. }
  destruct (getCheckResult _ watch events) as [reason [e3|]]; [|done]. by destruct (errors_as _ e3).
Qed.

Lemma yields_cleanup_one key : yields (cleanup_one key) (Forall (λ e, is_skipped e = false)).
Proof using Hapi.
  unfold cleanup_one. eapply yields_bind; [apply yields_attempt, yields_delete|]. intros [[]|e] He; apply yields_ret; [done|].
  destruct (is_not_found e); auto.
Qed.

Lemma errors_Join_not_skipping l : Forall (λ e, is_skipped e = false) l → error_not_skipping (errors_Join l).
Proof.
  destruct l as [|e l]; [done|]. simpl. intros [He Hl]%Forall_cons ? [= <-]. revert e He.
  induction Hl as [|e' l He' _ IH]; intros e He; [done|]. apply IH. unfold is_skipped in *.
  by rewrite errors_as_join, He, He'.
Qed.

Lemma yields_check_and_clean cc : yields (check_and_clean cc watch events) verdict_not_skipping.
Proof using Hapi Hanswers.
  unfold check_and_clean. eapply yields_bind; [apply yields_check_body|]. intros [reason e] He.
  eapply yields_bind with (R := error_not_skipping).
  - unfold cleanup. eapply yields_bind; [apply yields_cleanup_one|]. intros e1 He1.
    eapply yields_bind with (R := Forall (λ e, is_skipped e = false)).
    + destruct (has_assets cc); [apply yields_cleanup_one | by apply yields_ret].
    + intros e2 He2. apply yields_ret, errors_Join_not_skipping, Forall_app. by split.
  - intros ce Hce. apply yields_ret. unfold verdict_not_skipping in *. destruct ce as [ce|], e as [e|]; try done.
    intros ? [= <-]. unfold is_skipped. rewrite errors_as_join by done. apply orb_false_iff. split; [by apply He | by apply Hce].
Qed.

Lemma bind_Ok_inv {A B} (m : K A) (f : A → K B) c tr c' b :
  (m ≫= f) c = (tr, c', Ok b) →
  ∃ tr1 c1 a tr2, m c = (tr1, c1, Ok a) ∧ f a c1 = (tr2, c', Ok b) ∧ tr = tr1 ++ tr2.
Proof.
  unfold mbind, K_bind, k_bind. destruct (m c) as [[tr1 c1] [a|e]]; [|done].
  destruct (f a c1) as [[tr2 c2] r] eqn:Hf. intros [= <- <- ->]. by exists tr1, c1, a, tr2.
Qed.

Lemma yields_Ok {A} (m : K A) Q c tr c' a : yields m Q → m c = (tr, c', Ok a) → Q a.
Proof. intros Hm Hrun. specialize (Hm c). by rewrite Hrun in Hm. Qed.

(** A check is skipped only where its namespace is being deleted. *)
Lemma Run_skipped cc hash c tr c' reason e :
  Run cc hash watch events c = (tr, c', Ok (reason, Some e)) → is_skipped e = true →
  namespace_terminating (cc_namespace cc) (seen c).
Proof using Hapi Hanswers.
  intros (tr1 & c1 & t & tr2 & Ht & Hrun & _)%bind_Ok_inv Hskip.
  assert (Hno : ∀ v : verdict, verdict_not_skipping v → v = (reason, Some e) → False).
  { intros v Hv ->. specialize (Hv e eq_refl). congruence. }
  unfold k_try, NamespaceIsTerminating, k_find, k_get, k_try, mbind, K_bind, k_bind in Ht.
  pose proof (api_get_spec (KNamespace, "", cc_namespace cc) c) as Hspec.
  pose proof (not_skips _ (get_not_skipping Hapi (KNamespace, "", cc_namespace cc) c)) as Hget.
  unfold namespace_terminating. destruct (api_get _ c) as [[o|e0] c0]; destruct Hspec as [_ Hs]; cbn in Ht.
  - rewrite Hs. injection Ht as _ _ <-.
    destruct (o_body o) as [| | | | | | | | | | | | | |[]]; try done; exfalso;
      (eapply Hno; [|done]; eapply yields_Ok; [|exact Hrun]; eapply yields_bind; [apply yields_attempt, yields_apply|];
       intros [u|e1] He1; [apply yields_check_and_clean|]; destruct (is_already_exists e1);
       [apply yields_check_and_clean | apply yields_ret, verdict_error; auto]).
  - destruct (is_not_found e0); cbn in Ht; injection Ht as _ _ <-; [by rewrite Hs|].
    injection Hrun as _ _ _ <-. congruence.
Qed.
End skips.

(** The API server of the samples answers with errors of its own. *)
Lemma simple_api_not_skipping : @api_not_skipping simple_api.
Proof.
  assert (Hcall : ∀ A (act : world → result A * world) c,
    (∀ w, ¬ result_skips (act w).1) → ¬ result_skips (simple_call act c).1).
  { intros A act c Hact. unfold simple_call. specialize (Hact (sc_world c)).
    destruct (sc_fails c (sc_calls c)); [by intros (e & [= <-] & ?)|]. by destruct (act (sc_world c)). }
  split; intros; apply Hcall; intros w; unfold simple_get, simple_update, simple_create, simple_delete;
    repeat case_match; intros (e & He & Hs); simpl in He; simplify_eq; done.
Qed.
