(* ===== verification/PipelineSafety.v ===== *)
(** * What a round of a pipeline decides

    The statements about [PipelineReconciler]: a pipeline becomes valid only when every
    workload it matches accepted it, what the next round makes of the status this one
    wrote, how soon a scoped operator looks again, and which pipelines a changed Secret
    leads to. *)

From S2P Require Import Round VectorSafety.
From S2P Require Export PipelineReconciler CheckSkip.

Lemma relatedSecretsHashEqual_spec a b : relatedSecretsHashEqual a b = bool_decide (a = b).
Proof.
  destruct a as [a|], b as [b|]; simpl; [|done..].
  destruct (Z.eqb_spec a b) as [->|Hne]; [by rewrite bool_decide_eq_true_2|].
  rewrite bool_decide_eq_false_2; [done|]. by intros [= ->].
Qed.

(** ** The Secrets of a pipeline *)

Section related_of_round.
Context `{GoRuntime, Libraries}.

(** Increasing lists of the same strings are equal. *)
Lemma increasing_unique (l l' : list string) :
  StronglySorted (λ a b, String.ltb a b = true) l → StronglySorted (λ a b, String.ltb a b = true) l' →
  (∀ a, a ∈ l ↔ a ∈ l') → l = l'.
Proof.
  assert (Hnd : ∀ l : list string, StronglySorted (λ a b, String.ltb a b = true) l → NoDup l).
  { induction 1 as [|x k _ IH Hall]; constructor; [|done]. intros Hx. rewrite Forall_forall in Hall.
    specialize (Hall x Hx). by rewrite string_lt_irrefl in Hall. }
  intros Hl Hl' Hin. eapply (StronglySorted_unique_strong (λ a b, String.ltb a b = true)); [|done..|].
  - intros x y _ _ Hxy Hyx. destruct (string_lt_total x y); congruence.
  - apply NoDup_Permutation; auto.
Qed.

Lemma used_in_order_unique p used refs refs' : used_in_order p used refs → used_in_order p used refs' → refs = refs'.
Proof.
  intros (l & Hs & Hin & ->) (l' & Hs' & Hin' & ->). rewrite (increasing_unique l l'); [done..|].
  intros a. by rewrite Hin, Hin'.
Qed.

Lemma well_shaped_cases p :
  well_shaped p ∨ ∃ alias b, spec_secret (GetSpec p) !! alias = Some b ∧ ¬ backend_shape_ok p b.
Proof.
  destruct (decide (map_Forall (λ _ b, backend_shape_ok p b) (spec_secret (GetSpec p)))) as [Hs|Hs].
  - left. intros alias b. apply Hs.
  - right. by apply map_not_Forall in Hs; [|apply _].
Qed.

Lemma related_round_unfold reader p :
  spec_secret (GetSpec p) ≠ ∅ →
  related_round reader p =
    match UsedSecretBackends p with Err _ => ([], Ok None) | Ok used => resolveRelatedSecrets reader p used end.
Proof.
  intros Hne. unfold related_round. destruct (UsedSecretBackends p); [|done].
  rewrite bool_decide_eq_true_2; [done|].
  assert (size (spec_secret (GetSpec p)) ≠ 0%nat) by (by rewrite map_size_empty_iff). lia.
Qed.

Lemma related_round_none reader p : spec_secret (GetSpec p) = ∅ → related_round reader p = ([], Ok None).
Proof.
  intros He. unfold related_round. destruct (UsedSecretBackends p); [|done].
  by rewrite He, map_size_empty, bool_decide_eq_false_2 by lia.
Qed.

(** The status has no part in it. *)
Lemma related_round_status reader f p : related_round reader (with_status f p) = related_round reader p.
Proof. done. Qed.

(** The references of a round with a reader. *)
Lemma related_round_needs get p secret :
  secret ∈ (related_round (Some get) p).1 ↔ well_shaped p ∧ needs p secret.
Proof.
  destruct (decide (spec_secret (GetSpec p) = ∅)) as [Hd|Hd].
  { rewrite related_round_none by done. simpl. split; [by intros ?%elem_of_nil|].
    intros (_ & alias & b & Hb & _). by rewrite Hd, lookup_empty in Hb. }
  rewrite related_round_unfold by done. destruct (UsedSecretBackends p) as [used|e] eqn:Hu.
  - destruct (well_shaped_cases p) as [Hs|(alias & b & Hb & Hbad)].
    + pose proof (resolve_shaped get p used Hs) as Ht. destruct (resolveRelatedSecrets (Some get) p used) as [refs res].
      destruct Ht as ([_ Hin]%used_in_order_elem & _). simpl. rewrite Hin, (uses_needs p used) by done. tauto.
    + destruct (resolve_misshaped get p used alias b Hb Hbad) as (e & -> & _). simpl.
      split; [by intros ?%elem_of_nil|]. intros [Hs _]. destruct Hbad. by eapply Hs.
  - simpl. split; [by intros ?%elem_of_nil|]. intros (_ & alias & b & _ & (cfg & o & k & Hcfg & _) & _).
    apply UsedSecretBackends_Err in Hu as (_ & e' & He). congruence.
Qed.

(** The token of a round. *)
Lemma related_round_token reader p token : (related_round reader p).2 = Ok token ↔ token_of p reader token.
Proof.
  unfold token_of. destruct (decide (spec_secret (GetSpec p) = ∅)) as [Hd|Hd].
  { rewrite related_round_none by done. simpl. naive_solver. }
  rewrite related_round_unfold by done. destruct (UsedSecretBackends p) as [used|e] eqn:Hu.
  2: { apply UsedSecretBackends_Err in Hu as (_ & e' & ->). simpl. naive_solver. }
  destruct (UsedSecretBackends_Ok p used Hu Hd) as [cfg ->]. destruct reader as [get|].
  2: { destruct (resolve_no_reader p used Hd) as (e & -> & _). naive_solver. }
  destruct (well_shaped_cases p) as [Hs|(alias & b & Hb & Hbad)].
  - pose proof (resolve_shaped get p used Hs) as Ht. destruct (resolveRelatedSecrets (Some get) p used) as [refs res].
    destruct Ht as (Hord & Htok & _). simpl. rewrite Htok. split.
    + intros (secrets & Hread & ->). exists get. split_and!; [done..|]. exists used, refs, secrets.
      split_and!; [|done..]. intros alias. by apply UsedSecretBackends_elem.
    + intros (get' & [= <-] & _ & used' & refs' & secrets & Hin & Hord' & Hread & ->).
      assert (used' = used) as -> by (apply set_eq; intros a; by rewrite Hin, (UsedSecretBackends_elem p used) by done).
      rewrite (used_in_order_unique _ _ _ _ Hord Hord'). by exists secrets.
  - destruct (resolve_misshaped get p used alias b Hb Hbad) as (e & -> & _). simpl. split; [done|].
    intros (? & _ & Hs & _). destruct Hbad. by eapply Hs.
Qed.
End related_of_round.

(** ** Passing over *)

Section passing_over.
Context `{GoRuntime, Libraries, KubeApi}.
Context (Version : string) (marshal : VectorConfig → result string).
Context (r : PipelineReconciler).

(** Code that returns has written something. *)
Definition loud {A} (m : K A) : Prop := ∀ c, match m c with (tr, _, Ok _) => tr ≠ [] | _ => True end.

Lemma loud_patch sp : loud (PatchStatus sp).
Proof. intros c. unfold PatchStatus. by destruct (api_patch_pipeline sp c) as [[u|e] c']. Qed.

Lemma loud_bind_l {A B} (m : K A) (f : A → K B) : loud m → loud (m ≫= f).
Proof.
  intros Hm c. unfold mbind, K_bind, k_bind. specialize (Hm c). destruct (m c) as [[tr c1] [a|e]]; [|done].
  destruct (f a c1) as [[tr' c2] [b|e]]; [|done]. by intros [-> _]%app_eq_nil.
Qed.

Lemma loud_bind_r {A B} (m : K A) (f : A → K B) : (∀ a, loud (f a)) → loud (m ≫= f).
Proof.
  intros Hf c. unfold mbind, K_bind, k_bind. destruct (m c) as [[tr c1] [a|e]]; [|done]. specialize (Hf a c1).
  destruct (f a c1) as [[tr' c2] [b|e]]; [|done]. by intros [_ ->]%app_eq_nil.
Qed.

Lemma loud_wrap {A} pre (m : K A) : loud m → loud (k_wrap pre m).
Proof. intros Hm c. unfold k_wrap. specialize (Hm c). by destruct (m c) as [[tr c1] [a|e]]. Qed.

Lemma loud_failed pp reason base : loud (pipeline_SetFailedStatus pp reason base).
Proof. apply loud_bind_r. intros sp. apply loud_patch. Qed.
Lemma loud_success pp base : loud (pipeline_SetSuccessStatus pp base).
Proof. apply loud_bind_r. intros sp. apply loud_patch. Qed.

(** A verdict is written. *)
Lemma loud_judge inp ws p token : loud (judge Version marshal r inp ws p token).
Proof.
  unfold judge. destruct (UnmarshalJson _) as [cfg|e]; [|apply loud_bind_l, loud_wrap, loud_failed].
  destruct (VectorRole cfg) as [role|e]; [|apply loud_bind_l, loud_failed]. apply loud_bind_r.
  intros [e|]; [apply loud_bind_l, loud_failed | apply loud_bind_l, loud_success].
Qed.

Lemma up_to_date_spec p token :
  up_to_date r p token = Ok true ↔
  (pl_reconcile_invalid r = false ∨ IsValid p = true) ∧
  (∃ h, GetPipelineHash p = Ok h ∧ GetLastAppliedPipeline p = Some h) ∧ GetRelatedSecretsHash p = token.
Proof.
  rewrite <- IsPipelineChanged_true. unfold up_to_date.
  assert (Hb : negb (pl_reconcile_invalid r) || IsValid p = true ↔ pl_reconcile_invalid r = false ∨ IsValid p = true)
    by (by rewrite orb_true_iff, negb_true_iff).
  rewrite <- Hb. destruct (negb (pl_reconcile_invalid r) || IsValid p); [|naive_solver].
  rewrite bind_Ok. setoid_rewrite relatedSecretsHashEqual_spec. split.
  - intros (b & Hc & Heq). injection Heq as [-> He%bool_decide_eq_true]%andb_true_iff. done.
  - intros (_ & Hc & He). exists true. split; [done|]. by rewrite bool_decide_eq_true_2.
Qed.

(** A round that finds workloads does nothing exactly if the pipeline is as it was judged. *)
Lemma passed_over inp req p ws c :
  getPipeline req (pi_get inp) = Ok (Some p) → list_workloads inp = Some ws → all_workloads ws ≠ [] →
  pipeline_reconcile Version marshal r inp req c = ([], c, Ok nothing_more) ↔
  ∃ token, token_of p (pi_reader inp) token ∧ up_to_date r p token = Ok true.
Proof.
  intros Hget Hws Hne. setoid_rewrite <- related_round_token. unfold pipeline_reconcile. rewrite Hget, Hws.
  rewrite (bool_decide_eq_false_2 _ Hne). cbn [k_lift mbind K_bind k_bind]. unfold mbind, K_bind, k_bind, k_lift.
  destruct (related_round (pi_reader inp) p).2 as [token|e].
  - destruct (up_to_date r p token) as [[]|e] eqn:Hu; simpl.
    + split; [intros _; by exists token | done].
    + pose proof (loud_judge inp ws p token c) as Hl. destruct (judge _ _ _ _ _ _ _ c) as [[tr c'] res]. simpl.
      split; [|by intros (? & [= <-] & ?); congruence]. intros [= -> _ ->]. done.
    + split; [done|]. intros (? & [= <-] & ?). congruence.
  - split; [|by intros (? & ? & _)].
    assert (Hl : loud (unresolved_round p e)) by (apply loud_bind_l, loud_failed). specialize (Hl c).
    destruct (unresolved_round p e c) as [[tr c'] res]. simpl. intros [= -> _ ->]. done.
Qed.

(** A round that finds nobody to check does nothing. *)
Lemma idle_round inp req p token c :
  getPipeline req (pi_get inp) = Ok (Some p) → token_of p (pi_reader inp) token →
  list_workloads inp = None ∨ (∃ ws, list_workloads inp = Some ws ∧ all_workloads ws = []) ∨ up_to_date r p token = Ok true →
  pipeline_reconcile Version marshal r inp req c = ([], c, Ok nothing_more).
Proof.
  intros Hget Htok Hcase. destruct (list_workloads inp) as [ws|] eqn:Hws.
  - destruct (decide (all_workloads ws = [])) as [He|Hne].
    + apply related_round_token in Htok. unfold pipeline_reconcile. rewrite Hget, Hws. unfold mbind, K_bind, k_bind, k_lift.
      by rewrite Htok, bool_decide_eq_true_2.
    + apply (passed_over inp req p ws); [done..|]. destruct Hcase as [|[(? & [= <-] & ?)|?]]; [done..|]. by exists token.
  - apply related_round_token in Htok. unfold pipeline_reconcile. rewrite Hget, Hws. unfold mbind, K_bind, k_bind, k_lift.
    by rewrite Htok.
Qed.
End passing_over.

Section rounds.
Context `{GoRuntime, Libraries, KubeApi}.
Context (Version : string) (marshal : VectorConfig → result string).
Context (r : PipelineReconciler) (inp : pipeline_inputs).

(** ** The checks *)

Notation check_of w := (alone_check Version r w).

(** [cfg] is the configuration of the workload with the pipeline alone in it, and [bytes] its
    text. *)
Definition alone_config (p : Pipeline) (w : checked_workload) (cfg : VectorConfig) (bytes : string) : Prop :=
  let getter := ca_getter (pi_answers inp w) in
  match w with
  | CheckAgent v =>
      let c := NewController v in
      BuildAgentConfig marshal (agent_params c (optimizeSources (pl_optimization r) (ct_vector c)) getter) [p] = Ok (cfg, bytes)
  | CheckAggregator g =>
      BuildAggregatorConfig (aggregator_params (aggregator_NewController Version g) getter) [p] = Ok cfg ∧
      marshal cfg = Ok bytes
  end.

(** Where the objects of a workload are, which its checks run beside. *)
Definition workload_at (w : checked_workload) : NamespacedName :=
  match w with
  | CheckAgent v => (v_namespace v, v_name v)
  | CheckAggregator g => (ac_namespace (aggregator_NewController Version g), ac_name (aggregator_NewController Version g))
  end.

(** The check is of this text with these assets, beside the workload. *)
Definition checks (cc : ConfigCheck) (w : checked_workload) (cfg : VectorConfig) (bytes : string) : Prop :=
  cc_config cc = bytes ∧ cc_assets cc = SecretAssets cfg ∧ (cc_namespace cc, cc_name cc) = workload_at w.

(** The configuration of the pipeline alone was built, and the check of its text either saw
    its pod succeed or was skipped, the namespace it runs in being deleted in [w0] already. *)
Definition check_passed (w0 : world) (p : Pipeline) (w : checked_workload) : Prop :=
  ∃ cfg bytes, alone_config p w cfg bytes ∧
    let a := pi_answers inp w in
    let cc := check_of w cfg bytes in
    checks cc w cfg bytes ∧
    ((ca_watch a = None ∧ saw_success (getNameVectorConfigCheck (with_hash (ca_hash a) cc)) (ca_events a)) ∨
     namespace_terminating (workload_at w).1 w0).

Lemma build_alone_config p w cfg bytes :
  build_alone Version marshal r (pi_answers inp w) p w = Ok (cfg, bytes) → alone_config p w cfg bytes.
Proof.
  unfold build_alone, alone_config. destruct w as [v|g].
  - by destruct (BuildAgentConfig _ _ _).
  - destruct (BuildAggregatorConfig _ _) as [cfg'|]; [|done]. by intros (b & Hb & [= <- <-])%bind_Ok.
Qed.

Lemma alone_check_checks w cfg bytes : checks (check_of w cfg bytes) w cfg bytes.
Proof. by destruct w. Qed.

(** The same of the run of the check, from a cluster of which [x] is seen. *)
Definition run_passed {V} (vw : world → V) (x : V) (p : Pipeline) (w : checked_workload) : Prop :=
  ∃ cfg bytes, build_alone Version marshal r (pi_answers inp w) p w = Ok (cfg, bytes) ∧
    let a := pi_answers inp w in
    let cc := check_of w cfg bytes in
    (ca_watch a = None ∧ saw_success (getNameVectorConfigCheck (with_hash (ca_hash a) cc)) (ca_events a)) ∨
    (∃ c tr c' reason e, vw (seen c) = x ∧
       Run cc (ca_hash a) (ca_watch a) (ca_events a) c = (tr, c', Ok (reason, Some e)) ∧ is_skipped e = true).

Lemma check_error_None what ns name v :
  check_error what ns name v = None → v.2 = None ∨ ∃ e, v.2 = Some e ∧ is_skipped e = true.
Proof.
  destruct v as [reason [e|]]; simpl; [|by left]. fold (is_skipped e). destruct (is_skipped e) eqn:He; [by eauto|].
  by case_bool_decide.
Qed.

Lemma workload_error_None w v :
  workload_error w v = None → v.2 = None ∨ ∃ e, v.2 = Some e ∧ is_skipped e = true.
Proof. destruct w; apply check_error_None. Qed.

Lemma quiet_check_workload {V} (vw : world → V) x p w :
  (∀ cc hash w0 w, untouched cc hash w0 w → vw w = vw w0) →
  quiet vw x (check_workload Version marshal r inp p w) (λ e, e = None → run_passed vw x p w).
Proof.
  intros Hframe. unfold check_workload. destruct (build_alone _ _ _ _ _ _) as [[cfg bytes]|e] eqn:Hb; [|by apply quiet_ret].
  set (a := pi_answers inp w). set (cc := check_of w cfg bytes).
  apply quiet_bind with (R := λ v : ConfigCheck.verdict, workload_error w v = None → run_passed vw x p w);
    [|intros v Hv; by apply quiet_ret].
  intros c Hx _. pose proof (triple_Run cc (ca_hash a) (ca_watch a) (ca_events a) (seen c) c
    (untouched_refl _ _ _) I) as Ht.
  destruct (Run cc _ _ _ c) as [[tr c'] res] eqn:Hrun. destruct Ht as (Htr & Hend & Hpost).
  split_and!; [|by rewrite (Hframe _ _ _ _ Hend)|].
  - eapply Forall_impl; [exact Htr|]. intros w' Hw. by rewrite (Hframe _ _ _ _ Hw).
  - destruct res as [[reason e]|e]; [|done]. intros Hn. exists cfg, bytes. split; [done|]. cbv zeta.
    fold a cc. destruct Hpost as [[Hs _] _]. apply workload_error_None in Hn as [Hn|(e' & Hn & He)].
    + left. by apply Hs.
    + right. simpl in Hn. subst e. by exists c, tr, c', reason, e'.
Qed.

Lemma quiet_check_workload_pipes x p w :
  quiet w_pipelines x (check_workload Version marshal r inp p w) (λ _, True).
Proof.
  eapply quiet_post; [|apply quiet_check_workload]; [done|]. by intros cc hash w0 w' (Hw & _).
Qed.

Lemma quiet_eg_wait {V} (vw : world → V) x f l (P : checked_workload → Prop) :
  (∀ w, w ∈ l → quiet vw x (f w) (λ e, e = None → P w)) →
  quiet vw x (eg_wait f l) (λ e, e = None → ∀ w, w ∈ l → P w).
Proof.
  intros Hf. unfold eg_wait. set (Q := λ (l : list checked_workload) (e : option err), e = None → ∀ w, w ∈ l → P w).
  assert (Hall : ∀ l done first, (∀ w, w ∈ l → quiet vw x (f w) (λ e, e = None → P w)) → Q done first →
    quiet vw x (k_fold (λ first w, e ← f w; mret (match first with Some _ => first | None => e end)) first l)
      (Q (done ++ l))).
  { clear. induction l as [|w l IH]; intros fin first Hf HQ; cbn [k_fold].
    { apply quiet_ret. by rewrite app_nil_r. }
    rewrite cons_middle, (assoc_L (++)). eapply quiet_bind with (R := Q (fin ++ [w])).
    - eapply quiet_bind; [apply Hf; by left|]. intros e He. apply quiet_ret. intros Hn w' Hw'.
      apply elem_of_app in Hw' as [Hw'|Hw'%list_elem_of_singleton]; destruct first as [e'|]; try done; [by apply HQ|].
      subst w'. by apply He.
    - intros first' HQ'. apply IH; [|done]. intros w' Hw'. apply Hf. by right. }
  apply (Hall l [] None); [done|]. by intros _ w ?%elem_of_nil.
Qed.

(** ** Validity *)

(** The labels a selector asks for are the pipeline's. *)
Definition selector_matches (selector : option (gmap string string)) (p : Pipeline) : Prop :=
  ∀ labels k v, selector = Some labels → labels !! k = Some v → map_get (GetLabels p) k = v.

(** The listed workloads a pipeline of a role is for: agents that are not being deleted, the
    aggregators of its namespace, or the cluster aggregators. *)
Inductive concerned (role : VectorPipelineRole) (p : Pipeline) : checked_workload → Prop :=
| concerned_agent agents v :
    role = VectorPipelineRoleAgent → pi_agents inp = Ok agents → v ∈ agents → v_deleted v = false →
    selector_matches (v_selector v) p → concerned role p (CheckAgent v)
| concerned_aggregator gs g :
    role ≠ VectorPipelineRoleAgent → pi_aggregators inp = Ok gs → g ∈ gs →
    GetNamespace p ≠ "" → ag_namespace g = GetNamespace p → selector_matches (va_selector (ag_spec g)) p →
    concerned role p (CheckAggregator (setAggregatorTypeMetaIfNeeded g))
| concerned_cluster_aggregator gs g :
    role ≠ VectorPipelineRoleAgent → pi_cluster_aggregators inp = Ok gs → g ∈ gs →
    GetNamespace p = "" → selector_matches (va_selector (ag_spec g)) p →
    concerned role p (CheckAggregator (setClusterAggregatorTypeMetaIfNeeded g)).

(** What it takes to mark a pipeline valid in a round that starts in [w0]. *)
Definition accepted (w0 : world) (p : Pipeline) : Prop :=
  is_Ok (pi_agents inp) ∧ is_Ok (pi_aggregators inp) ∧ is_Ok (pi_cluster_aggregators inp) ∧
  ∃ token cfg role,
    UnmarshalJson (GetSpec p) = Ok cfg ∧ VectorRole cfg = Ok role ∧
    token_of p (pi_reader inp) token ∧ well_shaped p ∧
    (∀ ref, needs p ref → ∃ get secret, pi_reader inp = Some get ∧ get ref.1 ref.2 = Ok secret) ∧
    ∀ w, concerned role p w → check_passed w0 (SetRole (Some role) (SetRelatedSecretsHash token p)) w.

Lemma selects_spec selector p : selects selector p = true ↔ selector_matches selector p.
Proof.
  unfold selects, selector_matches. rewrite MatchLabels_spec. destruct selector as [labels|]; simpl.
  - split; [by intros Hm ? k v [= <-]; apply Hm | intros Hm k v; by apply Hm].
  - split; [done|]. intros _ k v. by rewrite lookup_empty.
Qed.

(** Every workload the pipeline is for is checked. *)
Lemma concerned_checked role p ws w :
  list_workloads inp = Some ws → concerned role p w → w ∈ matching_workloads role p ws.
Proof.
  unfold list_workloads. destruct (listVectorAgents (pi_agents inp)) as [a|] eqn:Ha; [|done].
  destruct (listVectorAggregators (pi_aggregators inp)) as [g|] eqn:Hg; [|done].
  destruct (listClusterVectorAggregators (pi_cluster_aggregators inp)) as [cg|] eqn:Hcg; [|done].
  intros [= <-]. unfold matching_workloads. cbn [wl_agents wl_aggregators wl_cluster_aggregators].
  intros [agents v Hr Hl Hv Hd Hs|gs x Hr Hl Hx Hns Hn Hs|gs x Hr Hl Hx Hns Hs].
  - rewrite Hl in Ha. injection Ha as <-. rewrite bool_decide_eq_true_2 by done.
    apply list_elem_of_fmap. exists v. split; [done|]. rewrite !elem_of_List_filter, selects_spec, Hd. auto.
  - rewrite Hl in Hg. injection Hg as <-. rewrite bool_decide_eq_false_2, bool_decide_eq_true_2 by done.
    apply list_elem_of_fmap_2, elem_of_List_filter. split; [by apply list_elem_of_fmap_2|].
    rewrite andb_true_iff, bool_decide_eq_true, selects_spec.
    unfold setAggregatorTypeMetaIfNeeded, with_type_meta. by case_bool_decide.
  - rewrite Hl in Hcg. injection Hcg as <-. rewrite bool_decide_eq_false_2 by done.
    rewrite bool_decide_eq_false_2 by (by intros []).
    apply list_elem_of_fmap_2, elem_of_List_filter. split; [by apply list_elem_of_fmap_2|].
    rewrite selects_spec. unfold setClusterAggregatorTypeMetaIfNeeded, with_type_meta. by case_bool_decide.
Qed.

Lemma list_workloads_listed ws :
  list_workloads inp = Some ws →
  is_Ok (pi_agents inp) ∧ is_Ok (pi_aggregators inp) ∧ is_Ok (pi_cluster_aggregators inp).
Proof.
  unfold list_workloads, is_Ok, listVectorAgents, listVectorAggregators, listClusterVectorAggregators.
  destruct (pi_agents inp), (pi_aggregators inp), (pi_cluster_aggregators inp); try done. intros _. split_and!; by eexists.
Qed.

(** The Secrets behind a token. *)
Lemma token_of_read p token cfg :
  UnmarshalJson (GetSpec p) = Ok cfg → token_of p (pi_reader inp) token →
  well_shaped p ∧ ∀ ref, needs p ref → ∃ get secret, pi_reader inp = Some get ∧ get ref.1 ref.2 = Ok secret.
Proof.
  unfold token_of. intros ->. case_decide as Hd.
  - intros _. split; [intros alias b Hb; by rewrite Hd, lookup_empty in Hb|].
    intros ref (alias & b & Hb & _). by rewrite Hd, lookup_empty in Hb.
  - intros (get & Hget & Hs & used & refs & secrets & Hu & [_ Hin]%used_in_order_elem & Hread & _). split; [done|].
    intros ref (alias & b & Hb & Hr & Href). assert (Hi : ref ∈ refs).
    { apply Hin. exists alias, b. split_and!; [done| |done]. apply Hu. split; [by eexists | done]. }
    apply list_elem_of_lookup in Hi as [i Hi]. destruct (Forall2_lookup_l _ _ _ _ _ Hread Hi) as (secret & _ & Hs').
    by exists get, secret.
Qed.

(** What the checks leave alone: the pipelines and the namespaces. *)
Definition round_view (w : world) : pipes * store :=
  (w_pipelines w, filter (λ '(k, _), k.1.1 = KNamespace) (w_objects w)).

Lemma untouched_round_view cc hash w0 w : untouched cc hash w0 w → round_view w = round_view w0.
Proof.
  intros (Hp & _ & Ho). unfold round_view. rewrite Hp. f_equal. apply map_eq. intros [[kind ns] name].
  apply option_eq. intros o. rewrite !map_lookup_filter_Some. split; intros [Hk Hns]; simpl in Hns; subst kind;
    (split; [|done]); [rewrite <- Ho | rewrite Ho]; try done; unfold own_keys; clear;
    rewrite !elem_of_cons, elem_of_nil; naive_solver.
Qed.

Lemma round_view_terminating w w' name :
  round_view w = round_view w' → namespace_terminating name w → namespace_terminating name w'.
Proof.
  intros [= _ Hf]. unfold namespace_terminating.
  assert (Hk : w_objects w !! (KNamespace, "", name) = w_objects w' !! (KNamespace, "", name)); [|by rewrite Hk].
  apply option_eq. intros o.
  assert (Hl : filter (λ '(k, _), k.1.1 = KNamespace) (w_objects w) !! (KNamespace, "", name) = Some o ↔
    filter (λ '(k, _), k.1.1 = KNamespace) (w_objects w') !! (KNamespace, "", name) = Some o) by (by rewrite Hf).
  rewrite !map_lookup_filter_Some in Hl. naive_solver.
Qed.

Context (order_perm : ∀ l, pi_order inp l ≡ₚ l).

Definition valid_in (k : bool * NamespacedName) (w : world) : Prop :=
  ∃ p, w_pipelines w !! k = Some p ∧ IsValid p = true.

(** The stored pipeline is valid only if it was, or if [φ]. *)
Definition only_if (k : bool * NamespacedName) (w0 : world) (φ : Prop) (w : world) : Prop :=
  valid_in k w → φ ∨ valid_in k w0.

Lemma alter_lookup_status (f : VectorPipelineStatus → VectorPipelineStatus) (x : pipes) k k' p :
  alter (with_status f) k x !! k' = Some p →
  (k' = k ∧ ∃ p0, x !! k = Some p0 ∧ p = with_status f p0) ∨ (k' ≠ k ∧ x !! k' = Some p).
Proof.
  intros [(-> & p0 & -> & ->)|[Hne Hk]]%lookup_alter_Some; [left; eauto | right; eauto].
Qed.

Lemma triple_failed_status (pp base : Pipeline) reason k w0 (φ : Prop) P :
  triple (only_if k w0 φ) P (pipeline_SetFailedStatus pp reason base) (λ _ _, True).
Proof.
  unfold pipeline_SetFailedStatus. eapply triple_bind with (R := λ sp _, SetFailedStatus pp reason base = Ok sp);
    [by apply triple_lift|].
  intros sp. apply triple_patch. intros w HI (h & Hh & Hbase & Hobj)%SetFailedStatus_Ok. split; [|done].
  intros (p' & Hp' & Hv). apply HI. simpl in Hp'.
  apply alter_lookup_status in Hp' as [(-> & p0 & Hp0 & ->)|[_ Hp']]; [|by exists p'].
  exists p0. split; [done|]. revert Hv. rewrite Hobj. unfold IsValid. simpl. unfold merge_field.
  by case_decide.
Qed.

Section validity.
Context (Hapi : api_not_skipping)
  (Hanswers : ∀ w, answers_not_skipping (ca_watch (pi_answers inp w)) (ca_events (pi_answers inp w))).

Lemma run_passed_check w0 p w : run_passed round_view (round_view w0) p w → check_passed w0 p w.
Proof using Hapi Hanswers.
  intros (cfg & bytes & Hb & Hcase). exists cfg, bytes. split; [by apply build_alone_config|]. cbv zeta in *.
  pose proof (alone_check_checks w cfg bytes) as Hc. split; [done|].
  destruct Hcase as [Hs|(c & tr & c' & reason & e & Hv & Hrun & He)]; [by left|]. right.
  eapply round_view_terminating; [exact Hv|]. destruct Hc as (_ & _ & <-). by eapply Run_skipped.
Qed.

(** What a round may do to the validity of its pipeline and to the workloads. *)
Lemma triple_pipeline_round req p w0 :
  getPipeline req (pi_get inp) = Ok (Some p) →
  triple (only_if (pipe_key p) w0 (accepted w0 p)) (λ w, round_view w = round_view w0)
    (pipeline_reconcile Version marshal r inp req) (λ o _, po_notified o ≠ [] → accepted w0 p).
Proof using order_perm Hapi Hanswers.
  intros Hget. unfold pipeline_reconcile. rewrite Hget.
  set (I := only_if (pipe_key p) w0 (accepted w0 p)). set (Q := λ (o : pipeline_outcome) (_ : world), po_notified o ≠ [] → accepted w0 p).
  set (P := λ w, round_view w = round_view w0).
  assert (Hdone : ∀ R o, po_notified o = [] → triple I R (mret o) Q).
  { intros R o Ho. apply triple_ret. intros w _ _ Hn. by rewrite Ho in Hn. }
  assert (Hfail : ∀ R pp base reason o, po_notified o = [] →
    triple I R (pipeline_SetFailedStatus pp reason base ≫= λ _, mret o) Q).
  { intros R pp base reason o Ho. eapply triple_bind; [apply triple_failed_status | intros; by apply Hdone]. }
  eapply triple_bind with (R := λ a w, P w ∧ a = Some p); [apply triple_lift; by intros a w [= ->] _ ?|].
  intros a. apply triple_pure. intros ->.
  destruct (related_round (pi_reader inp) p).2 as [token|e] eqn:Hrel; [|by apply Hfail].
  destruct (list_workloads inp) as [ws|] eqn:Hws; [|by apply Hdone].
  case_bool_decide; [by apply Hdone|]. eapply triple_bind; [by apply triple_lift with (Q := λ _, P)|].
  intros []; [by apply Hdone|]. unfold judge. rewrite (eq_refl : GetSpec (SetRelatedSecretsHash token p) = GetSpec p).
  destruct (UnmarshalJson (GetSpec p)) as [cfg|e] eqn:Hu.
  2: { eapply triple_bind; [apply triple_wrap, triple_failed_status|]. intros ?. by apply Hdone. }
  destruct (VectorRole cfg) as [role|e] eqn:Hrole; [|by apply Hfail].
  set (pp := SetRole (Some role) (SetRelatedSecretsHash token p)).
  change (matching_workloads role pp ws) with (matching_workloads role p ws).
  apply (quiet_bind_triple round_view (round_view w0) (λ x, (∃ p', x.1 !! pipe_key p = Some p' ∧ IsValid p' = true) →
    accepted w0 p ∨ valid_in (pipe_key p) w0)) with (R := λ e, e = None → accepted w0 p).
  - intros Hv. by right.
  - eapply quiet_post; [|apply quiet_eg_wait with (P := check_passed w0 pp)].
    + intros e He Hn. unfold accepted. destruct (list_workloads_listed ws Hws) as (? & ? & ?).
      apply related_round_token in Hrel. destruct (token_of_read p token cfg) as [? ?]; [done..|].
      split_and!; [done..|]. exists token, cfg, role. split_and!; [done..|].
      intros w Hw. apply He; [done|]. rewrite order_perm. by apply concerned_checked.
    + intros w _. eapply quiet_post; [|apply (quiet_check_workload round_view); apply untouched_round_view].
      intros e He Hn. by apply run_passed_check, He.
  - intros [e|] Hacc; [unfold reject; by apply Hfail|]. specialize (Hacc eq_refl).
    eapply triple_bind with (R := λ _ _, True); [|intros ?; by apply triple_ret; intros w _ _ _].
    unfold pipeline_SetSuccessStatus. eapply triple_bind; [by apply triple_lift with (Q := λ _ _, True)|].
    intros sp. apply triple_patch. intros w _ _. split; [by left | done].
Qed.

(** C3: a pipeline that was not valid is valid in no world a round passes through, whatever
    fails and wherever the round stops, and no workload is woken up for it, unless all
    workloads could be listed, its backends have the right shape and every Secret it needs
    was read, its components make up a role, and every workload it is for (each agent
    listed that is not being deleted, each aggregator of its namespace, or each cluster
    aggregator, whose selector the labels of the pipeline satisfy) built its configuration
    with the pipeline alone in it and saw the pod that checks its text succeed, or would have run the
    check in a namespace that was being deleted when the round began. The API server, the
    watches and the ends of contexts are taken not to answer with the operator's own error
    for a skipped check. *)
Theorem pipeline_valid_only_if_checked req p c :
  getPipeline req (pi_get inp) = Ok (Some p) →
  let '(tr, c', res) := pipeline_reconcile Version marshal r inp req c in
  Forall (λ w, valid_in (pipe_key p) w → accepted (seen c) p ∨ valid_in (pipe_key p) (seen c)) tr ∧
  match res with
  | Ok o => po_notified o ≠ [] → accepted (seen c) p
  | Err _ => True
  end.
Proof using order_perm Hapi Hanswers.
  intros Hget. pose proof (triple_pipeline_round req p (seen c) Hget c (λ Hv, or_intror Hv) eq_refl) as Ht.
  destruct (pipeline_reconcile _ _ _ _ _ c) as [[tr c'] res]. destruct Ht as (Htr & _ & Hres). split; [exact Htr|].
  by destruct res.
Qed.
End validity.

(** ** The status a round leaves *)

Lemma merge_status_fresh base obj : merge_status base obj base = obj.
Proof.
  unfold merge_status, merge_field. destruct base, obj; simpl. f_equal; by case_decide.
Qed.

Lemma merge_status_success base obj :
  st_reason obj = None →
  merge_status (p_status (SetReason (Some "") base)) obj (p_status base) = obj.
Proof.
  intros Hr. unfold merge_status, merge_field. destruct obj; simpl in *. subst. f_equal; by case_decide.
Qed.

(** [p'] is [p] with another status, which remembers that [p] was judged. *)
Definition judged_as (p p' : Pipeline) : Prop :=
  p' = with_status (λ _, p_status p') p ∧ IsPipelineChanged p' = Ok true.

Lemma judged_as_written p st h :
  GetPipelineHash p = Ok h → st_last_applied_pipeline_hash st = Some h → judged_as p (with_status (λ _, st) p).
Proof.
  intros Hh Hst. split; [done|]. apply IsPipelineChanged_true. exists h. by split.
Qed.

(** The statuses a round writes: of [pp], which is [p] but for its status. *)
Lemma triple_failed_fresh (pp p : Pipeline) reason :
  pp = with_status (λ _, p_status pp) p →
  triple (λ _, True) (λ w, w_pipelines w !! pipe_key p = Some p) (pipeline_SetFailedStatus pp reason p)
    (λ _ w, ∃ p', w_pipelines w !! pipe_key p = Some p' ∧ judged_as p p' ∧ IsValid p' = false ∧
       GetReason p' = Some reason ∧ GetRelatedSecretsHash p' = GetRelatedSecretsHash pp).
Proof.
  intros Hpp. unfold pipeline_SetFailedStatus.
  apply triple_bind with (R := λ sp w, SetFailedStatus pp reason p = Ok sp ∧ w_pipelines w !! pipe_key p = Some p);
    [by apply triple_lift|].
  intros sp. apply triple_patch. intros w _ [(h & Hh & Hbase & Hobj)%SetFailedStatus_Ok Hp]. split; [done|].
  exists (with_status (λ _, p_status (sp_obj sp)) p). simpl.
  assert (Hkey : pipe_key (sp_obj sp) = pipe_key p) by (by rewrite Hobj, Hpp).
  rewrite Hkey, lookup_alter_eq, Hp, Hbase. simpl. split; [|split_and!].
  - f_equal. unfold with_status. f_equal. apply merge_status_fresh.
  - apply (judged_as_written _ _ h); [|by rewrite Hobj]. by rewrite Hpp in Hh.
  - by rewrite Hobj.
  - by rewrite Hobj.
  - by rewrite Hobj.
Qed.

Lemma triple_success_fresh (pp p : Pipeline) :
  pp = with_status (λ _, p_status pp) p →
  triple (λ _, True) (λ w, w_pipelines w !! pipe_key p = Some p) (pipeline_SetSuccessStatus pp p)
    (λ _ w, ∃ p', w_pipelines w !! pipe_key p = Some p' ∧ judged_as p p' ∧ IsValid p' = true ∧
       GetReason p' = None ∧ GetRelatedSecretsHash p' = GetRelatedSecretsHash pp).
Proof.
  intros Hpp. unfold pipeline_SetSuccessStatus.
  apply triple_bind with (R := λ sp w, SetSuccessStatus pp p = Ok sp ∧ w_pipelines w !! pipe_key p = Some p);
    [by apply triple_lift|].
  intros sp. apply triple_patch. intros w _ [(h & Hh & Hbase & Hobj)%SetSuccessStatus_Ok Hp]. split; [done|].
  exists (with_status (λ _, p_status (sp_obj sp)) p). simpl.
  assert (Hkey : pipe_key (sp_obj sp) = pipe_key p) by (by rewrite Hobj, Hpp).
  rewrite Hkey, lookup_alter_eq, Hp, Hbase. simpl. split; [|split_and!].
  - f_equal. unfold with_status. f_equal. apply merge_status_success. by rewrite Hobj.
  - apply (judged_as_written _ _ h); [|by rewrite Hobj]. by rewrite Hpp in Hh.
  - by rewrite Hobj.
  - by rewrite Hobj.
  - by rewrite Hobj.
Qed.

(** How a round of a pipeline that is there ends. *)
Inductive pipeline_round_end (p : Pipeline) (o : pipeline_outcome) : Pipeline → Prop :=
| end_idle token :                  (* nothing to do, or nobody to do it for *)
    (related_round (pi_reader inp) p).2 = Ok token → o = nothing_more →
    (list_workloads inp = None ∨ (∃ ws, list_workloads inp = Some ws ∧ all_workloads ws = []) ∨
     up_to_date r p token = Ok true) →
    pipeline_round_end p o p
| end_judged token p' :             (* a verdict on the pipeline and its Secrets *)
    (related_round (pi_reader inp) p).2 = Ok token →
    judged_as p p' → GetRelatedSecretsHash p' = token → (IsValid p' = false → is_Some (GetReason p')) →
    pipeline_round_end p o p'
| end_unresolved p' :               (* the Secrets could not be resolved *)
    judged_as p p' → GetRelatedSecretsHash p' = None → IsValid p' = false → is_Some (GetReason p') →
    (po_requeue o = relatedSecretsResolveRetryDelay ∨
     po_requeue o = 0 ∧ ∃ e, (related_round (pi_reader inp) p).2 = Err e ∧ errors_as is_secret_shape_error e = true) →
    pipeline_round_end p o p'.

Definition pipeline_round_ended (p : Pipeline) (o : pipeline_outcome) (w : world) : Prop :=
  ∃ p', w_pipelines w !! pipe_key p = Some p' ∧ pipeline_round_end p o p'.

Lemma triple_judge ws p token :
  (related_round (pi_reader inp) p).2 = Ok token →
  triple (λ _, True) (λ w, w_pipelines w !! pipe_key p = Some p) (judge Version marshal r inp ws p token) (pipeline_round_ended p).
Proof.
  intros Hrel. set (P := λ w : world, w_pipelines w !! pipe_key p = Some p).
  assert (Hfail : ∀ pp reason (o : pipeline_outcome), pp = with_status (λ _, p_status pp) p →
      GetRelatedSecretsHash pp = token ∨
        GetRelatedSecretsHash pp = None ∧ po_requeue o = relatedSecretsResolveRetryDelay →
      triple (λ _, True) P (pipeline_SetFailedStatus pp reason p ≫= λ _, mret o) (pipeline_round_ended p)).
  { intros pp reason o Hpp Hcase. eapply triple_bind; [by apply triple_failed_fresh|]. intros []. apply triple_ret.
    intros w _ (p' & Hp' & Hj & Hv & Hr & Hs). exists p'. split; [exact Hp'|]. destruct Hcase as [Ht|[Ht Ho]].
    - eapply end_judged; [done|done|congruence|by rewrite Hr].
    - apply end_unresolved; [done|congruence|done|by rewrite Hr|by left]. }
  unfold judge. rewrite (eq_refl : GetSpec (SetRelatedSecretsHash token p) = GetSpec p).
  destruct (UnmarshalJson (GetSpec p)) as [cfg|e].
  2: { eapply triple_bind; [apply triple_wrap; by apply triple_failed_fresh|]. intros []. apply triple_ret.
       intros w _ (p' & Hp' & Hj & Hv & Hr & Hs). exists p'. split; [exact Hp'|].
       eapply end_judged; [done|done|done|by rewrite Hr]. }
  destruct (VectorRole cfg) as [role|e]; [|apply Hfail; [done|by left]].
  apply triple_bind with (R := λ _, P).
  { eapply triple_post; [|apply (quiet_frame w_pipelines (λ _, True) (λ x, x !! pipe_key p = Some p));
      intros x; apply quiet_eg_wait with (P := λ _, True); intros w _; eapply quiet_post; [|apply quiet_check_workload_pipes]; done].
    by intros a w _ [Hw _]. }
  intros [e|].
  - unfold reject. destruct (errors_as is_resolve_error e); apply Hfail; [done|right; by split|done|by left].
  - eapply triple_bind; [by apply triple_success_fresh|]. intros []. apply triple_ret.
    intros w _ (p' & Hp' & Hj & Hv & Hr & Hs). exists p'. split; [exact Hp'|].
    eapply end_judged; [done|done|done|by rewrite Hv].
Qed.

Lemma triple_round_end req p :
  getPipeline req (pi_get inp) = Ok (Some p) →
  triple (λ _, True) (λ w, w_pipelines w !! pipe_key p = Some p) (pipeline_reconcile Version marshal r inp req)
    (pipeline_round_ended p).
Proof.
  intros Hget. set (P := λ w : world, w_pipelines w !! pipe_key p = Some p). unfold pipeline_reconcile. rewrite Hget.
  eapply triple_bind with (R := λ a w, P w ∧ a = Some p); [apply triple_lift; by intros a w [= ->] _ ?|].
  intros a. apply triple_pure. intros ->. destruct (related_round (pi_reader inp) p).2 as [token|e] eqn:Hrel.
  - assert (Hidle : (list_workloads inp = None ∨ (∃ ws, list_workloads inp = Some ws ∧ all_workloads ws = []) ∨
        up_to_date r p token = Ok true) → triple (λ _, True) P (mret nothing_more) (pipeline_round_ended p)).
    { intros Hi. apply triple_ret. intros w _ Hw. exists p. split; [exact Hw|]. by eapply end_idle. }
    destruct (list_workloads inp) as [ws|] eqn:Hws; [|by apply Hidle; left].
    case_bool_decide; [apply Hidle; right; left; by exists ws|].
    eapply triple_bind with (R := λ b w, P w ∧ up_to_date r p token = Ok b); [by apply triple_lift|].
    intros b. apply triple_pure. intros Hb. destruct b; [apply Hidle; by right; right | by apply triple_judge].
  - unfold unresolved_round. eapply triple_bind; [by apply triple_failed_fresh|]. intros []. apply triple_ret.
    intros w _ (p' & Hp' & Hj & Hv & Hr & Hs). exists p'. split; [exact Hp'|]. apply end_unresolved; [done..|by rewrite Hr|].
    simpl. destruct (errors_as is_secret_shape_error e) eqn:He; [right; eauto | by left].
Qed.

(** A later round, whatever it is answered, that reads the pipeline with the status of [p']
    and finds a workload does nothing, and writes nothing, exactly if the text of the
    pipeline hashes to [h], its Secrets have the token, and it is valid or invalid pipelines
    are not looked at again. *)
Definition next_rounds (p' : Pipeline) (h : Z) (token : option Z) : Prop :=
  ∀ (next : pipeline_inputs) req ws q c,
    getPipeline req (pi_get next) = Ok (Some q) → p_status q = p_status p' →
    list_workloads next = Some ws → all_workloads ws ≠ [] →
    pipeline_reconcile Version marshal r next req c = ([], c, Ok nothing_more) ↔
    (pl_reconcile_invalid r = false ∨ IsValid p' = true) ∧ GetPipelineHash q = Ok h ∧ token_of q (pi_reader next) token.

Lemma judged_next_rounds p p' :
  judged_as p p' → ∃ h, GetPipelineHash p = Ok h ∧ next_rounds p' h (GetRelatedSecretsHash p').
Proof.
  intros [Hp' (h & Hh & Hl)%IsPipelineChanged_true]. exists h. split; [by rewrite Hp' in Hh|].
  intros next req ws q c Hget Hst Hws Hne. rewrite (passed_over _ _ _ _ _ q ws) by done. setoid_rewrite up_to_date_spec.
  unfold IsValid, GetLastAppliedPipeline, GetRelatedSecretsHash in *. rewrite Hst, Hl. split.
  - intros (token & Ht & Hv & (h' & Hq & [= <-]) & ->). done.
  - intros (Hv & Hq & Ht). eexists. split_and!; [exact Ht | done | by exists h | done].
Qed.

(** C4: what a round leaves the next one; the stored pipeline keeps all but its status.
    Either the round wrote nothing and left the pipeline alone, because a listing failed,
    there are no workloads, or the status remembers the hash of the pipeline and the token
    of its Secrets (and it is valid, if invalid pipelines are looked at again). Or the
    pipeline was judged: a later round that reads this status passes it over exactly if its
    hash and the token of its Secrets are those of this round (and it is valid, if invalid
    pipelines are looked at again). Or its Secrets could not be resolved, now or by a build:
    it is invalid, the round asks for another in ten seconds unless only an edit can help,
    and a later round passes it over only if it then needs no Secret. *)
Theorem pipeline_next_round req p c tr c' o :
  getPipeline req (pi_get inp) = Ok (Some p) →
  w_pipelines (seen c) !! pipe_key p = Some p →
  pipeline_reconcile Version marshal r inp req c = (tr, c', Ok o) →
  ∃ p', w_pipelines (seen c') !! pipe_key p = Some p' ∧ p' = with_status (λ _, p_status p') p ∧
  ((p' = p ∧ tr = [] ∧ c' = c ∧ o = nothing_more ∧ ∃ token, token_of p (pi_reader inp) token ∧
      (list_workloads inp = None ∨ (∃ ws, list_workloads inp = Some ws ∧ all_workloads ws = []) ∨
       (pl_reconcile_invalid r = false ∨ IsValid p = true) ∧
         (∃ h, GetPipelineHash p = Ok h ∧ GetLastAppliedPipeline p = Some h) ∧ GetRelatedSecretsHash p = token)) ∨
   (∃ h token, GetPipelineHash p = Ok h ∧ token_of p (pi_reader inp) token ∧
      (IsValid p' = false → is_Some (GetReason p')) ∧ next_rounds p' h token) ∨
   (∃ h, GetPipelineHash p = Ok h ∧ IsValid p' = false ∧ is_Some (GetReason p') ∧ next_rounds p' h None ∧
      (po_requeue o = relatedSecretsResolveRetryDelay ∨
       po_requeue o = 0 ∧ ∃ e, (related_round (pi_reader inp) p).2 = Err e ∧ errors_as is_secret_shape_error e = true))).
Proof.
  intros Hget Hp Hrun. pose proof (triple_round_end req p Hget c I Hp) as Ht. rewrite Hrun in Ht.
  destruct Ht as (_ & _ & p' & Hp' & Hend). exists p'. split; [done|].
  destruct Hend as [token Hrel Ho Hw|token p' Hrel Hj Hs Hr|p' Hj Hs Hv Hr Ho].
  - apply related_round_token in Hrel. rewrite (idle_round _ _ _ inp req p token c) in Hrun by done.
    injection Hrun as <- <- <-. split; [by destruct p|]. left. split_and!; [done..|]. exists token.
    by rewrite <- up_to_date_spec.
  - split; [apply Hj|]. right; left. destruct (judged_next_rounds p p' Hj) as (h & Hh & Hn). rewrite Hs in Hn.
    exists h, token. by rewrite <- related_round_token.
  - split; [apply Hj|]. right; right. destruct (judged_next_rounds p p' Hj) as (h & Hh & Hn). rewrite Hs in Hn.
    by exists h.
Qed.
End rounds.

(** ** The poll of a scoped operator *)

Lemma poll_interval_range key :
  secretRotationPollBase <= secretRotationPollInterval key < secretRotationPollBase + secretRotationPollSpread.
Proof.
  unfold secretRotationPollInterval.
  change (secretRotationPollSpread / millisecond) with 60000. change secretRotationPollSpread with (60000 * millisecond).
  pose proof (Z.mod_pos_bound (fnv32a (bytes_of key.1 ++ [0] ++ bytes_of key.2)) 60000 ltac:(lia)). unfold millisecond. lia.
Qed.

Section poll.
Context `{GoRuntime, Libraries, KubeApi}.
Context (Version : string) (marshal : VectorConfig → result string).

(** Rounds do not ask to be woken up in the past. *)
Lemma requeue_nonneg r inp req c tr c' o :
  0 <= pl_retry_delay r → pipeline_reconcile Version marshal r inp req c = (tr, c', Ok o) → 0 <= po_requeue o.
Proof.
  intros Hd Hrun. set (Q := λ (o : pipeline_outcome) (_ : world), 0 <= po_requeue o).
  assert (Hret : ∀ o, 0 <= po_requeue o → triple (λ _, True) (λ _, True) (mret o) Q).
  { intros o' Ho. by apply triple_ret. }
  assert (Hany : ∀ {A} (m : K A), triple (λ _, True) (λ _, True) m (λ _ _, True)).
  { intros A m c0 _ _. destruct (m c0) as [[tr0 c0'] res]. split; [by apply Forall_true|]. by destruct res. }
  assert (Hbind : ∀ {A} (m : K A) (f : A → K pipeline_outcome), (∀ a, triple (λ _, True) (λ _, True) (f a) Q) →
    triple (λ _, True) (λ _, True) (m ≫= f) Q).
  { intros A m f Hf. eapply triple_bind; [apply Hany | exact Hf]. }
  assert (Ht : triple (λ _, True) (λ _, True) (pipeline_reconcile Version marshal r inp req) Q).
  { unfold pipeline_reconcile, unresolved_round, judge, reject.
    repeat first [ apply Hbind; intros ? | apply Hret; first [done | simpl; repeat case_match; first [done | lia]] | case_match ]. }
  specialize (Ht c I I). rewrite Hrun in Ht. apply Ht.
Qed.

Lemma arm_spec r req get p used z :
  getPipeline req get = Ok (Some p) → UsedSecretBackends p = Ok used → used ≠ ∅ →
  armSecretRotationPoll r req get z =
    if pl_poll r then
      if decide (z = 0) then secretRotationPollInterval (ObjectKey p)
      else Z.min z (secretRotationPollInterval (ObjectKey p))
    else z.
Proof.
  intros Hget Hused Hne. assert (Hsz : size (spec_secret (GetSpec p)) ≠ 0%nat).
  { rewrite map_size_empty_iff. intros He. unfold UsedSecretBackends in Hused. rewrite bool_decide_eq_true_2 in Hused by done.
    by injection Hused as <-. }
  unfold armSecretRotationPoll. rewrite Hget, Hused. destruct (pl_poll r); [|done]. cbn [negb].
  rewrite (bool_decide_eq_false_2 _ Hsz), (bool_decide_eq_false_2 _ Hne).
  destruct (Z.eqb_spec z 0) as [Hz|Hz]; cbn [orb]; [by rewrite decide_True|]. rewrite decide_False by done.
  destruct (Z.ltb_spec (secretRotationPollInterval (ObjectKey p)) z); lia.
Qed.

(** C35: the poll. When polling is on, a round that returns without an error, whatever its
    verdict, and leaves a pipeline that uses a Secret is followed by another within five
    minutes, four at the least unless the round itself asked for one sooner, which is
    then kept as it is; the interval depends on nothing but the pipeline's name, and the
    poll changes nothing else. *)
Theorem rotation_poll_bounds r inp req p used c tr c' o :
  0 <= pl_retry_delay r →
  pipeline_Reconcile Version marshal r inp req c = (tr, c', Ok o) →
  getPipeline req (pi_again inp) = Ok (Some p) → UsedSecretBackends p = Ok used → used ≠ ∅ →
  ∃ o0, pipeline_reconcile Version marshal r inp req c = (tr, c', Ok o0) ∧ po_notified o = po_notified o0 ∧
    po_requeue o = (if pl_poll r then
                      if decide (po_requeue o0 = 0) then secretRotationPollInterval (ObjectKey p)
                      else Z.min (po_requeue o0) (secretRotationPollInterval (ObjectKey p))
                    else po_requeue o0) ∧
    (pl_poll r = true →
       0 < po_requeue o < 5 * minute ∧
       (0 < po_requeue o0 → po_requeue o <= po_requeue o0) ∧
       (0 < po_requeue o0 <= 4 * minute → po_requeue o = po_requeue o0) ∧
       (po_requeue o < 4 * minute → po_requeue o = po_requeue o0)).
Proof.
  intros Hd Hrun Hget Hused Hne. unfold pipeline_Reconcile, mbind, K_bind, k_bind in Hrun.
  destruct (pipeline_reconcile Version marshal r inp req c) as [[tr0 c0] [o0|e]] eqn:Hr; [|done].
  simpl in Hrun. rewrite app_nil_r in Hrun. injection Hrun as -> -> <-. exists o0. split; [done|]. split; [done|].
  pose proof (requeue_nonneg _ _ _ _ _ _ _ Hd Hr) as Hpos. pose proof (poll_interval_range (ObjectKey p)) as Hi.
  cbn [po_requeue]. rewrite (arm_spec r req _ p used) by done.
  unfold secretRotationPollBase, secretRotationPollSpread, minute, second in *.
  split; [done|]. intros ->. case_decide; lia.
Qed.
End poll.

(** ** The Secret watch *)

Section watch.
Context `{GoRuntime, Libraries}.

(** What a round puts into the index, if it can read its pipeline. *)
Definition index_op (round : pipeline_inputs * NamespacedName) : option (NamespacedName * list NamespacedName) :=
  match getPipeline round.2 (pi_get round.1) with
  | Err _ => None
  | Ok None => Some (round.2, [])
  | Ok (Some p) => Some (ObjectKey p, (related_round (pi_reader round.1) p).1)
  end.

(** The pipeline a round read, or found deleted, by its name. *)
Definition round_about (round : pipeline_inputs * NamespacedName) (name : NamespacedName) : Prop :=
  match getPipeline round.2 (pi_get round.1) with
  | Err _ => False
  | Ok None => name = round.2
  | Ok (Some p) => name = ObjectKey p
  end.

(** The index of an operator after some rounds, in the order of their updates. *)
Definition index_after (rounds : list (pipeline_inputs * NamespacedName)) : option SecretIndex :=
  fold_left (λ si '(inp, req), index_round inp req si) rounds (Some NewSecretIndex).

Lemma index_after_sets rounds : index_after rounds = Some (run_sets (omap index_op rounds)).
Proof.
  induction rounds as [|[inp req] rounds IH] using rev_ind; [done|].
  unfold index_after in *. rewrite fold_left_app, IH, omap_app. unfold run_sets. rewrite fold_left_app. simpl.
  unfold index_round, index_op. simpl. by destruct (getPipeline req (pi_get inp)) as [[p|]|e].
Qed.

Lemma declared_last ops p s :
  s ∈ declared ops p ↔ ∃ before refs after, ops = before ++ (p, refs) :: after ∧ p ∉ after.*1 ∧ s ∈ refs.
Proof.
  induction ops as [|[q refs] ops IH]; simpl.
  { split; [by intros ?%elem_of_nil|]. by intros ([] & ? & ? & ? & _). }
  case_bool_decide as Hin.
  - rewrite IH. split.
    + intros (before & refs' & after & -> & ? & ?). by exists ((q, refs) :: before), refs', after.
    + intros ([|x before] & refs' & after & [= ? ?] & Hp & ?); subst; [done|]. by exists before, refs', after.
  - case_bool_decide as Hq; subst.
    + split; [intros Hs; by exists [], refs, ops|]. intros ([|x before] & refs' & after & [= ? ?] & Hp & ?); subst; [done|].
      exfalso. apply Hin. rewrite fmap_app. apply elem_of_app. right. by left.
    + split; [by intros ?%elem_of_nil|]. intros ([|x before] & refs' & after & [= ? ?] & Hp & ?); subst; [done|].
      exfalso. apply Hin. rewrite fmap_app. apply elem_of_app. right. by left.
Qed.

Lemma index_op_about round name refs : index_op round = Some (name, refs) → round_about round name.
Proof. unfold index_op, round_about. destruct (getPipeline _ _) as [[p|]|e]; [by intros [= <- _].. | done]. Qed.

Lemma round_about_op round name : round_about round name → ∃ refs, index_op round = Some (name, refs).
Proof. unfold index_op, round_about. destruct (getPipeline _ _) as [[p|]|e]; [intros ->; eauto.. | done]. Qed.

(** The last round about a pipeline. *)
Lemma omap_index_last rounds name refs :
  (∃ before after, omap index_op rounds = before ++ (name, refs) :: after ∧ name ∉ after.*1) ↔
  ∃ earlier round later, rounds = earlier ++ round :: later ∧ index_op round = Some (name, refs) ∧
    ∀ round', round' ∈ later → ¬ round_about round' name.
Proof.
  split.
  - induction rounds as [|x rounds IH]; [by intros ([] & after & ? & _)|]. intros (before & after & Heq & Hn).
    cbn [omap list_omap] in Heq. destruct (index_op x) as [op|] eqn:Hx.
    + destruct before as [|op' before]; cbn [app] in Heq; injection Heq as -> Heq.
      * exists [], x, rounds. split_and!; [done..|]. intros x' Hin [refs' Hop]%round_about_op. apply Hn.
        apply list_elem_of_fmap. exists (name, refs'). split; [done|]. rewrite <- Heq. apply list_elem_of_omap. by exists x'.
      * destruct IH as (earlier & y & later & -> & Hy & Hlater); [by exists before, after|]. by exists (x :: earlier), y, later.
    + destruct IH as (earlier & y & later & -> & Hy & Hlater); [by exists before, after|]. by exists (x :: earlier), y, later.
  - intros (earlier & x & later & -> & Hx & Hlater). exists (omap index_op earlier), (omap index_op later).
    rewrite omap_app. cbn [omap list_omap]. rewrite Hx. split; [done|].
    intros ([name' refs'] & -> & (y & Hy & Hop)%list_elem_of_omap)%list_elem_of_fmap.
    apply (Hlater y Hy). by eapply index_op_about.
Qed.

(** The pipelines of a changed Secret are exactly those that were there in the last round
    about them and whose text, as that round read it, needs the Secret. *)
Lemma secret_watch_lookup rounds secret :
  Forall (λ round, is_Some (pi_reader round.1)) rounds →
  NoDup (mapSecretToPipelines (index_after rounds) secret) ∧
  ∀ name, name ∈ mapSecretToPipelines (index_after rounds) secret ↔
    ∃ earlier round later p, rounds = earlier ++ round :: later ∧
      getPipeline round.2 (pi_get round.1) = Ok (Some p) ∧ ObjectKey p = name ∧ well_shaped p ∧ needs p secret ∧
      ∀ round', round' ∈ later → ¬ round_about round' name.
Proof.
  intros Hreader. rewrite index_after_sets. destruct (run_sets_indexes (omap index_op rounds)) as (_ & Hs & _).
  simpl. unfold PipelinesFor. split; [apply range_map_keys_NoDup|].
  intros name. rewrite range_keys, <- related_default, Hs, declared_last.
  assert (Hop : ∀ round, round ∈ rounds → ∀ refs, index_op round = Some (name, refs) ∧ secret ∈ refs ↔
    ∃ p, getPipeline round.2 (pi_get round.1) = Ok (Some p) ∧ ObjectKey p = name ∧ well_shaped p ∧ needs p secret ∧
      refs = (related_round (pi_reader round.1) p).1).
  { intros round Hin refs. rewrite Forall_forall in Hreader. destruct (Hreader round Hin) as [get Hget].
    unfold index_op. rewrite Hget. destruct (getPipeline _ _) as [[p|]|e].
    - split.
      + intros [[= <- <-] Hsec]. apply related_round_needs in Hsec as [? ?]. by exists p.
      + intros (p' & [= <-] & <- & ? & ? & ->). split; [done|]. by apply related_round_needs.
    - split; [|by intros (? & ? & _)]. intros [[= _ <-] Hsec]. by apply elem_of_nil in Hsec.
    - split; [by intros []|by intros (? & ? & _)]. }
  split.
  - intros (before & refs & after & Heq & Hn & Hsec).
    destruct (proj1 (omap_index_last rounds name refs)) as (earlier & round & later & -> & Hx & Hlater); [eauto|].
    destruct (proj1 (Hop round ltac:(set_solver) refs)) as (p & ? & ? & ? & ? & _); [done|]. by exists earlier, round, later, p.
  - intros (earlier & round & later & p & -> & Hg & Hk & Hw & Hneed & Hlater).
    set (refs := (related_round (pi_reader round.1) p).1).
    destruct (proj2 (Hop round ltac:(set_solver) refs)) as [Hx Hsec]; [by exists p|].
    destruct (proj2 (omap_index_last (earlier ++ round :: later) name refs)) as (before & after & Heq & Hn);
      [by exists earlier, round, later|].
    by exists before, refs, after.
Qed.
End watch.

(** ** Witnesses *)

#[local] Existing Instance stable_runtime.

(** A pipeline nobody has looked at, an agent, and a server both of whose Secrets can be
    read, or neither. *)
Definition pending_pipeline : Pipeline :=
  with_status (λ _, {| st_role := None; st_config_check_result := None; st_reason := None;
    st_last_applied_pipeline_hash := None; st_related_secrets_hash := None |}) sample_a.

Definition sample_pipeline_reconciler : PipelineReconciler :=
  {| pl_check_timeout := 300 * second; pl_reconcile_invalid := false; pl_retry_delay := 30 * second;
     pl_optimization := false; pl_poll := true |}.

Definition no_secrets : SecretGetter := Some (λ _ _, Err (ErrText "not found")).

Definition pipeline_answers (p : Pipeline) (reader : SecretGetter) : pipeline_inputs :=
  {| pi_get := λ _, Ok p; pi_again := λ _, Ok p; pi_reader := reader;
     pi_agents := Ok [sample_vector]; pi_aggregators := Ok []; pi_cluster_aggregators := Ok [];
     pi_answers := λ _, {| ca_getter := sample_getter; ca_hash := "abcde"; ca_watch := None;
       ca_events := [EvAdded {| pod_deleting := false; pod_ph := PodSucceeded; pod_waiting := [] |}] |};
     pi_order := id |}.

Definition pipeline_world : world :=
  set_pipelines (λ _, {[pipe_key pending_pipeline := pending_pipeline]}) round_world.

Definition pipeline_run (reader : SecretGetter) :=
  @pipeline_Reconcile stable_runtime _ simple_api "1" sample_marshal sample_pipeline_reconciler
    (pipeline_answers pending_pipeline reader) (ObjectKey pending_pipeline) (calm pipeline_world 0).
Definition pipeline_body_run (reader : SecretGetter) :=
  @pipeline_reconcile stable_runtime _ simple_api "1" sample_marshal sample_pipeline_reconciler
    (pipeline_answers pending_pipeline reader) (ObjectKey pending_pipeline) (calm pipeline_world 0).
Definition stored_after (w : world) : option (option bool * option string * bool) :=
  (λ p, (GetConfigCheckResult p, GetReason p, bool_decide (is_Some (GetRelatedSecretsHash p)))) <$>
    (w_pipelines w !! pipe_key pending_pipeline).

(** The pipeline becomes valid and the agent is woken up; its check ran in a namespace that
    was there. *)
Lemma pipeline_valid_only_if_checked_witness :
  stored_after (sc_world (pipeline_body_run sample_getter).1.2) = Some (Some true, None, true) ∧
  @accepted stable_runtime _ "1" sample_marshal sample_pipeline_reconciler (pipeline_answers pending_pipeline sample_getter)
    pipeline_world pending_pipeline ∧
  ¬ namespace_terminating (v_namespace sample_vector) pipeline_world.
Proof.
  split; [vm_compute; reflexivity|].
  split; [|intros Hn; vm_compute in Hn; discriminate Hn].
  assert (Hn : (length ∘ po_notified <$> (pipeline_body_run sample_getter).2) = Ok 1%nat) by (vm_compute; reflexivity).
  assert (Hans : answers_not_skipping None
    [EvAdded {| pod_deleting := false; pod_ph := PodSucceeded; pod_waiting := [] |}]).
  { split; [intros e He; discriminate He | repeat constructor]. }
  pose proof (@pipeline_valid_only_if_checked stable_runtime _ simple_api "1" sample_marshal sample_pipeline_reconciler
    (pipeline_answers pending_pipeline sample_getter) (λ l, reflexivity l) simple_api_not_skipping
    (λ w, Hans) (ObjectKey pending_pipeline) pending_pipeline (calm pipeline_world 0) eq_refl) as Ht.
  unfold pipeline_body_run in Hn. destruct (pipeline_reconcile _ _ _ _ _ _) as [[tr c'] res].
  destruct Ht as [_ Hres]. destruct res as [o|e]; [|done]. apply Hres. intros He. simpl in Hn. by rewrite He in Hn.
Defined.

(** Its Secret cannot be read: whatever a later round does, one that can read it does not
    pass the pipeline over. *)
Lemma pipeline_next_round_witness :
  stored_after (sc_world (pipeline_body_run no_secrets).1.2) =
    Some (Some false, Some (js "secret backend 'b_c': failed to get secret team/s1: not found"), false) ∧
  ∃ p', w_pipelines (sc_world (pipeline_body_run no_secrets).1.2) !! pipe_key pending_pipeline = Some p' ∧
    p' = with_status (λ _, p_status p') pending_pipeline ∧
    ∀ c, @pipeline_reconcile stable_runtime _ simple_api "1" sample_marshal sample_pipeline_reconciler
      (pipeline_answers p' sample_getter) (ObjectKey p') c ≠ ([], c, Ok nothing_more).
Proof.
  assert (Hs : stored_after (sc_world (pipeline_body_run no_secrets).1.2) =
    Some (Some false, Some (js "secret backend 'b_c': failed to get secret team/s1: not found"), false)) by (vm_compute; reflexivity).
  split; [exact Hs|].
  assert (Hr : (pipeline_body_run no_secrets).2 = Ok (requeue relatedSecretsResolveRetryDelay)) by (vm_compute; reflexivity).
  assert (He : match (related_round no_secrets pending_pipeline).2 with Ok _ => false | Err _ => true end = true)
    by (vm_compute; reflexivity).
  assert (Hres : match (related_round sample_getter pending_pipeline).2 with Ok (Some _) => true | _ => false end = true)
    by (vm_compute; reflexivity).
  destruct (@pipeline_next_round stable_runtime _ simple_api "1" sample_marshal sample_pipeline_reconciler
    (pipeline_answers pending_pipeline no_secrets) (ObjectKey pending_pipeline) pending_pipeline
    (calm pipeline_world 0) (pipeline_body_run no_secrets).1.1 (pipeline_body_run no_secrets).1.2
    (requeue relatedSecretsResolveRetryDelay)) as (p' & Hp' & Hst & Hcase); [done|by apply lookup_insert_eq| |].
  { rewrite <- Hr. unfold pipeline_body_run. by destruct (pipeline_reconcile _ _ _ _ _ _) as [[tr c'] res]. }
  exists p'. split; [exact Hp'|]. split; [exact Hst|]. intros c Hpass.
  assert (Hno : ∀ token, ¬ token_of pending_pipeline no_secrets token).
  { intros token Ht%related_round_token. rewrite Ht in He. discriminate He. }
  destruct Hcase as [(_ & _ & _ & _ & t & Ht & _)|[(h & t & _ & Ht & _)|(h & _ & _ & _ & Hnext & _)]];
    [by apply Hno in Ht..|].
  apply (Hnext _ _ {| wl_agents := [sample_vector]; wl_aggregators := []; wl_cluster_aggregators := [] |} p') in Hpass;
    [|by rewrite Hst|reflexivity|reflexivity|discriminate].
  destruct Hpass as (_ & _ & Ht%related_round_token).
  assert (Hrel : related_round sample_getter p' = related_round sample_getter pending_pipeline)
    by (rewrite Hst; apply related_round_status).
  change (pi_reader (pipeline_answers p' sample_getter)) with sample_getter in Ht. rewrite Hrel in Ht.
  rewrite Ht in Hres. discriminate Hres.
Defined.

(** A round that accepts the pipeline asks for nothing; the poll does. *)
Lemma rotation_poll_bounds_witness :
  (po_requeue <$> (pipeline_body_run sample_getter).2) = Ok 0 ∧
  ∃ o, (pipeline_run sample_getter).2 = Ok o ∧ 0 < po_requeue o < 5 * minute.
Proof.
  split; [vm_compute; reflexivity|].
  assert (Hr : match (pipeline_run sample_getter).2 with Ok _ => true | Err _ => false end = true) by (vm_compute; reflexivity).
  assert (Hu : match UsedSecretBackends pending_pipeline with Ok s => bool_decide (s ≠ ∅) | Err _ => false end = true)
    by (vm_compute; reflexivity).
  destruct (pipeline_run sample_getter).2 as [o|e] eqn:Ho; [|discriminate Hr]. clear Hr. exists o. split; [reflexivity|].
  destruct (UsedSecretBackends pending_pipeline) as [used|e] eqn:Hused; [|discriminate Hu].
  apply bool_decide_eq_true in Hu.
  destruct (@rotation_poll_bounds stable_runtime _ simple_api "1" sample_marshal sample_pipeline_reconciler
    (pipeline_answers pending_pipeline sample_getter) (ObjectKey pending_pipeline) pending_pipeline used
    (calm pipeline_world 0) (pipeline_run sample_getter).1.1 (pipeline_run sample_getter).1.2 o)
    as (o0 & _ & _ & _ & Hb); [apply (bool_decide_unpack _); exact I| |reflexivity|exact Hused|exact Hu|].
  - rewrite <- Ho. unfold pipeline_run. clear. by destruct (pipeline_Reconcile _ _ _ _ _ _) as [[tr c'] res].
  - exact (proj1 (Hb eq_refl)).
Defined.
