(* ===== verification/Manager.v ===== *)
(** * The manager

    [src/cmd/manager/main.go]: what the flags make of the cache and of the reconcilers, and
    [reconcileWithDelay], the goroutine that stands between the rounds of the pipelines and
    those of the workloads. *)

From S2P Require Export PipelineSafety.

(** ** Flags *)

Record manager_flags := {
  fl_watch_namespace : string;
  fl_watch_label : string;
  fl_check_timeout : Z;
  fl_reconcile_invalid : bool;
  fl_retry_delay : Z;
  fl_optimization : bool;
  fl_migration : bool;
  fl_merger_image : string
}.

(** The zero-argument command line. *)
Definition default_flags : manager_flags :=
  {| fl_watch_namespace := ""; fl_watch_label := ""; fl_check_timeout := 300 * second; fl_reconcile_invalid := false;
     fl_retry_delay := 30 * second; fl_optimization := false; fl_migration := false; fl_merger_image := "" |}.

(** The reconcilers [main] sets up; each is given the uncached reader. *)
Definition the_vector_reconciler (f : manager_flags) : VectorReconciler :=
  {| r_check_timeout := fl_check_timeout f; r_optimization := fl_optimization f; r_migration := fl_migration f;
     r_merger_image := fl_merger_image f; r_reader := true |}.
Definition the_pipeline_reconciler (f : manager_flags) : PipelineReconciler :=
  {| pl_check_timeout := fl_check_timeout f; pl_reconcile_invalid := fl_reconcile_invalid f;
     pl_retry_delay := fl_retry_delay f; pl_optimization := fl_optimization f;
     pl_poll := negb (bool_decide (fl_watch_namespace f = "")) || negb (bool_decide (fl_watch_label f = "")) |}.
Definition the_aggregator_reconciler (f : manager_flags) : AggregatorReconciler :=
  {| ar_check_timeout := fl_check_timeout f; ar_reader := true |}.

(** ** The cache *)

(** What the cache holds of a kind: the objects of a namespace (all of them if it is empty)
    with some labels. *)
Record cache_scope := { cs_namespace : string; cs_labels : gmap string string }.

(** The kinds that are cached in part only; [None] leaves the options as they are. *)
Definition setupCustomCache (namespace watchLabel : string) : option (list (obj_kind * cache_scope)) :=
  if bool_decide (namespace = "" ∧ watchLabel = "") then None else
  let labels : gmap string string :=
    if bool_decide (watchLabel = "") then ∅
    else {[ManagedByLabelKey := "vector-operator"; NameLabelKey := watchLabel]} in
  let scope := {| cs_namespace := namespace; cs_labels := labels |} in
  Some ((λ k, (k, scope)) <$> [KPod; KDaemonSet; KService; KSecret; KServiceAccount]).

(** Whether the cache shows an object of some labels. *)
Definition in_scope (s : cache_scope) (namespace : string) (labels : gmap string string) : bool :=
  (bool_decide (cs_namespace s = "") || bool_decide (cs_namespace s = namespace)) &&
  bool_decide (cs_labels s ⊆ labels).

Definition cached (scopes : option (list (obj_kind * cache_scope))) (kind : obj_kind) (namespace : string)
    (labels : gmap string string) : bool :=
  forallb (λ '(k, s), if decide (k = kind) then in_scope s namespace labels else true) (default [] scopes).

(** ** [reconcileWithDelay] *)

Section delay.
Context `{GoRuntime}.
Context {Ev : Type} (object_of : Ev → NamespacedName).

(** [fmt.Sprintf("%s/%s", namespace, name)] *)
Definition event_key (e : Ev) : string := (object_of e).1 +:+ "/" +:+ (object_of e).2.

(** What the [select] chooses: an event of the channel in, or the ticker. *)
Inductive stimulus := Received (e : Ev) | Tick.

(** The store and what has been sent to the channel out, which are the events of one tick
    after those of another, each batch in the order of a map. *)
Record delay_state := { ds_store : gmap string Ev; ds_sent : list (list Ev) }.

Definition delay_start : delay_state := {| ds_store := ∅; ds_sent := [] |}.

Definition delay_step (s : delay_state) (x : stimulus) : delay_state :=
  match x with
  | Received ev =>
      let key := event_key ev in
      {| ds_store := match ds_store s !! key with
                     | Some _ => ds_store s
                     | None => <[key := ev]> (ds_store s)
                     end;
         ds_sent := ds_sent s |}
  | Tick =>
      if bool_decide (size (ds_store s) ≠ 0%nat)
      then {| ds_store := ∅; ds_sent := ds_sent s ++ [(range_map 38 (ds_store s)).*2] |}
      else s
  end.

Definition delay_run (l : list stimulus) : delay_state := fold_left delay_step l delay_start.
End delay.
Arguments Received {Ev} e.
Arguments Tick {Ev}.

(** ** The cache and the watch *)

(** The objects an agent or an aggregator is made of are in the cache exactly when they
    are in the watched namespace and the label filter is the name they carry. *)
Lemma own_objects_cached f kind namespace component instance :
  kind ∈ [KPod; KDaemonSet; KService; KSecret; KServiceAccount] →
  cached (setupCustomCache (fl_watch_namespace f) (fl_watch_label f)) kind namespace
    {[ManagedByLabelKey := "vector-operator"; NameLabelKey := "vector"; ComponentLabelKey := component;
      InstanceLabelKey := instance]} = true ↔
  (fl_watch_namespace f = "" ∨ fl_watch_namespace f = namespace) ∧
  (fl_watch_label f = "" ∨ fl_watch_label f = "vector").
Proof.
  intros Hkind. unfold setupCustomCache, cached. case_bool_decide as Hall; [naive_solver|]. cbn [default from_option].
  set (labels := {[ManagedByLabelKey := "vector-operator"; NameLabelKey := "vector"; ComponentLabelKey := component;
    InstanceLabelKey := instance]} : gmap string string).
  set (scope := {| cs_namespace := fl_watch_namespace f; cs_labels := _ |}).
  assert (Hscope : in_scope scope namespace labels = true ↔
    (fl_watch_namespace f = "" ∨ fl_watch_namespace f = namespace) ∧ (fl_watch_label f = "" ∨ fl_watch_label f = "vector")).
  { unfold in_scope. rewrite andb_true_iff, orb_true_iff, !bool_decide_eq_true. simpl.
    apply and_iff_compat_l. case_bool_decide as Hl; [split; [by left | intros _; apply map_empty_subseteq]|].
    split; [|intros [He|He]; [done|rewrite He]].
    - intros Hsub. right. assert (Hn : labels !! NameLabelKey = Some (fl_watch_label f)).
      { eapply lookup_weaken; [|exact Hsub]. by rewrite lookup_insert_ne, lookup_singleton_eq. }
      unfold labels in Hn. rewrite lookup_insert_ne, lookup_insert_eq in Hn by done. by injection Hn as ->.
    - apply map_subseteq_spec. intros k v. rewrite lookup_insert_Some, lookup_singleton_Some.
      intros [[<- <-]|(_ & <- & <-)]; [done|]. unfold labels. by rewrite lookup_insert_ne, lookup_insert_eq. }
  rewrite <- Hscope, forallb_forall. split.
  - intros Hf. assert (Hin : In (kind, scope) ((λ k, (k, scope)) <$> [KPod; KDaemonSet; KService; KSecret; KServiceAccount])).
    { apply list_elem_of_In, list_elem_of_fmap. by exists kind. }
    specialize (Hf _ Hin). cbv beta iota in Hf. by rewrite decide_True in Hf.
  - intros Hs [k s] Hin. apply list_elem_of_In, list_elem_of_fmap in Hin as (k' & [= -> ->] & _). by case_decide.
Qed.

Section rotation.
Context `{GoRuntime, Libraries}.

Lemma uncached_polls f namespace labels :
  cached (setupCustomCache (fl_watch_namespace f) (fl_watch_label f)) KSecret namespace labels = true ∨
  pl_poll (the_pipeline_reconciler f) = true.
Proof.
  unfold setupCustomCache. simpl. case_bool_decide as Hall; [by left|]. right.
  destruct (bool_decide_reflect (fl_watch_namespace f = "")), (bool_decide_reflect (fl_watch_label f = "")); try done.
  naive_solver.
Qed.

(** C9: no rotation of a Secret goes unnoticed, for any flags and any labels of the Secret.
    A change of a Secret that the cache shows leads to a round of exactly the pipelines
    that need the Secret, each once: those that were there in the last round about them,
    whose backends had the right shape and of which some component referred, in the text
    that round read, to a declared backend that names the Secret. A Secret the cache may
    not show makes the operator poll: a pipeline that needs a Secret is looked at again
    within five minutes of every round that returned. The rounds are those of the manager,
    which have a reader of Secrets. *)
Theorem rotation_noticed f rounds secret labels :
  Forall (λ round, is_Some (pi_reader round.1)) rounds →
  (cached (setupCustomCache (fl_watch_namespace f) (fl_watch_label f)) KSecret secret.1 labels = true ∨
   (∀ req get p z, 0 <= z → getPipeline req get = Ok (Some p) → (∃ ref, needs p ref) →
      0 < armSecretRotationPoll (the_pipeline_reconciler f) req get z < 5 * minute)) ∧
  NoDup (mapSecretToPipelines (index_after rounds) secret) ∧
  ∀ name, name ∈ mapSecretToPipelines (index_after rounds) secret ↔
    ∃ earlier round later p, rounds = earlier ++ round :: later ∧
      getPipeline round.2 (pi_get round.1) = Ok (Some p) ∧ ObjectKey p = name ∧ well_shaped p ∧ needs p secret ∧
      ∀ round', round' ∈ later → ¬ round_about round' name.
Proof.
  intros Hreader. split; [|by apply secret_watch_lookup].
  destruct (uncached_polls f secret.1 labels) as [Hc|Hp]; [by left|]. right.
  intros req get p z Hz Hget (ref & alias & b & Hb & Href & _).
  assert (Hused : ∃ used, UsedSecretBackends p = Ok used ∧ used ≠ ∅).
  { destruct (UsedSecretBackends p) as [used|e] eqn:Hu.
    - exists used. split; [done|]. assert (alias ∈ used); [|set_solver].
      apply (UsedSecretBackends_elem p); [done|]. split; [by eexists | done].
    - apply UsedSecretBackends_Err in Hu as (_ & e' & He'). destruct Href as (cfg & _ & _ & Hcfg & _). congruence. }
  destruct Hused as (used & Hused & Hne).
  rewrite (arm_spec _ _ _ _ _ _ Hget Hused Hne), Hp.
  pose proof (poll_interval_range (ObjectKey p)) as Hi.
  unfold secretRotationPollBase, secretRotationPollSpread, minute, second in *. case_decide; lia.
Qed.
End rotation.

(** ** What the delay delivers *)

Section delivery.
Context `{GoRuntime}.
Context {Ev : Type} (object_of : Ev → NamespacedName).

Notation key := (event_key object_of).
Notation run := (delay_run object_of).

(** The reference: an event is dropped if an earlier one of its window is about the same
    object. *)
Definition firsts (l : list Ev) : list Ev :=
  fold_left (λ acc e, if bool_decide (object_of e ∈ object_of <$> acc) then acc else acc ++ [e]) l [].

(** The windows the ticks close, but for the empty ones, and the one that is open. *)
Definition window_step (w : list (list Ev) * list Ev) (x : stimulus (Ev := Ev)) : list (list Ev) * list Ev :=
  match x with
  | Received e => (w.1, w.2 ++ [e])
  | Tick => (match w.2 with [] => w.1 | _ => w.1 ++ [w.2] end, [])
  end.
Definition windows (l : list stimulus) : list (list Ev) * list Ev := fold_left window_step l ([], []).

Definition received (l : list (stimulus (Ev := Ev))) : list Ev :=
  omap (λ x, match x with Received e => Some e | Tick => None end) l.

Lemma firsts_snoc l e :
  firsts (l ++ [e]) = if bool_decide (object_of e ∈ object_of <$> firsts l) then firsts l else firsts l ++ [e].
Proof. unfold firsts. by rewrite fold_left_app. Qed.

Lemma firsts_objects l o : o ∈ object_of <$> firsts l ↔ o ∈ object_of <$> l.
Proof.
  induction l as [|e l IH] using rev_ind; [done|]. rewrite firsts_snoc.
  case_bool_decide as He; rewrite !fmap_app, !elem_of_app, IH; [|done].
  split; [by left|]. intros [?|Ho]; [done|]. apply list_elem_of_singleton in Ho as ->. by apply IH.
Qed.

Lemma firsts_NoDup l : NoDup (object_of <$> firsts l).
Proof.
  induction l as [|e l IH] using rev_ind; [constructor|]. rewrite firsts_snoc. case_bool_decide as He; [done|].
  rewrite fmap_app. apply NoDup_app. split_and!; [done| |apply NoDup_singleton].
  by intros o Ho ->%list_elem_of_singleton.
Qed.

Lemma firsts_nil l : firsts l = [] ↔ l = [].
Proof.
  split; [|by intros ->]. intros Hf. destruct l as [|e l]; [done|]. exfalso.
  assert (Hin : object_of e ∈ object_of <$> firsts (e :: l)) by (apply firsts_objects; by left).
  rewrite Hf in Hin. by apply elem_of_nil in Hin.
Qed.

Lemma event_key_inj e e' :
  slash_free (object_of e).1 → slash_free (object_of e').1 → key e = key e' → object_of e = object_of e'.
Proof. apply cache_key_inj. Qed.

(** The store is the open window, keyed. *)
Definition holds_window (l : list Ev) (m : gmap string Ev) : Prop :=
  ∀ k e, m !! k = Some e ↔ e ∈ firsts l ∧ key e = k.

Lemma holds_window_empty : holds_window [] ∅.
Proof. intros k e. rewrite lookup_empty. split; [done|]. by intros [?%elem_of_nil _]. Qed.

Lemma holds_window_values l m :
  Forall (λ e, slash_free (object_of e).1) l → holds_window l m → (map_to_list m).*2 ≡ₚ firsts l.
Proof.
  intros Hsf Hm. assert (Hin : ∀ e, e ∈ firsts l → e ∈ l).
  { clear. induction l as [|x l IH] using rev_ind; [done|]. intros e. rewrite firsts_snoc.
    case_bool_decide; rewrite ?elem_of_app; naive_solver. }
  apply NoDup_Permutation.
  - apply NoDup_fmap_2_strong; [|apply NoDup_map_to_list]. intros [k e] [k' e'] Hk Hk' Heq. simpl in Heq. subst e'.
    apply elem_of_map_to_list, Hm in Hk as [_ <-]. by apply elem_of_map_to_list, Hm in Hk' as [_ <-].
  - eapply NoDup_fmap_1, firsts_NoDup.
  - intros e. rewrite list_elem_of_fmap. split.
    + intros ([k e'] & -> & Hk%elem_of_map_to_list%Hm). apply Hk.
    + intros He. exists (key e, e). split; [done|]. apply elem_of_map_to_list, Hm. by split.
Qed.

Lemma holds_window_snoc l m e :
  Forall (λ e, slash_free (object_of e).1) (l ++ [e]) → holds_window l m →
  holds_window (l ++ [e]) (match m !! key e with Some _ => m | None => <[key e := e]> m end).
Proof.
  intros Hsf Hm. apply Forall_app in Hsf as [Hsf He]. rewrite Forall_singleton in He.
  assert (Hin : ∀ e, e ∈ firsts l → slash_free (object_of e).1).
  { intros x Hx. assert (Hx' : object_of x ∈ object_of <$> l) by (apply firsts_objects, list_elem_of_fmap; by exists x).
    apply list_elem_of_fmap in Hx' as (y & -> & Hy). rewrite Forall_forall in Hsf. by apply Hsf. }
  assert (Hsome : is_Some (m !! key e) ↔ object_of e ∈ object_of <$> firsts l).
  { rewrite list_elem_of_fmap. split.
    - intros [x [Hx Hk]%Hm]. exists x. split; [|done]. apply event_key_inj; auto.
    - intros (x & Ho & Hx). exists x. apply Hm. split; [done|]. unfold event_key. by rewrite Ho. }
  intros k x. rewrite firsts_snoc. destruct (m !! key e) as [y|] eqn:Hy.
  - rewrite bool_decide_eq_true_2 by (apply Hsome; eauto). apply Hm.
  - rewrite bool_decide_eq_false_2 by (rewrite <- Hsome; by intros []).
    rewrite lookup_insert_Some, elem_of_app, list_elem_of_singleton, (Hm k x). split.
    + intros [[<- <-]|[Hk [Hx <-]]]; split; auto.
    + intros [[Hx| ->] <-]; [right; split; [|by split] | by left].
      intros Hk. assert (Hc : m !! key x = Some x) by (apply Hm; by split). rewrite <- Hk, Hy in Hc. done.
Qed.

Lemma delay_windows l :
  Forall (λ e, slash_free (object_of e).1) (received l) →
  Forall2 (≡ₚ) (ds_sent (run l)) (firsts <$> (windows l).1) ∧ holds_window (windows l).2 (ds_store (run l)) ∧
  Forall (λ e, slash_free (object_of e).1) (windows l).2.
Proof.
  unfold received. induction l as [|x l IH] using rev_ind; intros Hsf.
  { split_and!; [constructor | apply holds_window_empty | constructor]. }
  rewrite omap_app in Hsf. apply Forall_app in Hsf as [Hsf Hx]. destruct (IH Hsf) as (Hsent & Hstore & Hopen).
  unfold delay_run, windows in *. rewrite !fold_left_app. cbn [fold_left].
  set (s := fold_left (delay_step object_of) l delay_start) in *.
  set (w := fold_left window_step l ([], [])) in *. destruct x as [e|]; simpl.
  - cbn in Hx. rewrite Forall_singleton in Hx. split_and!; [done| |by apply Forall_app; split; [|apply Forall_singleton]].
    apply holds_window_snoc; [by apply Forall_app; split; [|apply Forall_singleton]|done].
  - pose proof (holds_window_values _ _ Hopen Hstore) as Hv.
    assert (Hz : size (ds_store s) = 0%nat ↔ w.2 = []).
    { rewrite <- firsts_nil, map_size_empty_iff. split; intros He.
      - rewrite He in Hv. by apply Permutation_nil_l in Hv.
      - rewrite He in Hv. apply Permutation_nil_r, fmap_nil_inv in Hv. by apply map_to_list_empty_iff. }
    case_bool_decide as Hb; simpl.
    + destruct w.2 as [|e0 l0] eqn:Hw; [by destruct Hb; apply Hz|].
      split_and!; [|apply holds_window_empty|constructor]. rewrite fmap_app. apply Forall2_app; [done|].
      repeat constructor. etrans; [|exact Hv]. apply fmap_Permutation, range_map_perm.
    + assert (Hw : w.2 = []) by (apply Hz; lia). rewrite Hw in *.
      split_and!; [done|done|constructor].
Qed.

(** C36: the delay loses nothing and repeats nothing. Whatever the order of events and
    ticks, what has been sent are, tick by tick, the events of the window the tick
    closed, one for every object that an event of the window was about, the earliest
    one; an empty window sends nothing; and what is held back are the events since the
    last tick, so that any event is followed by one about the same object at the next
    tick, however many more arrive before it. *)
Theorem delay_delivers l :
  Forall (λ e, slash_free (object_of e).1) (received l) →
  Forall2 (≡ₚ) (ds_sent (run l)) (firsts <$> (windows l).1) ∧
  (map_to_list (ds_store (run l))).*2 ≡ₚ firsts (windows l).2 ∧
  ∀ l0 e es, l = l0 ++ Received e :: (Received <$> es) ++ [Tick] →
    ds_store (run l) = ∅ ∧ ∃ batch, ds_sent (run l) = ds_sent (run l0) ++ [batch] ∧
      NoDup (object_of <$> batch) ∧ object_of e ∈ object_of <$> batch.
Proof.
  intros Hsf. destruct (delay_windows l Hsf) as (Hsent & Hstore & Hopen).
  split; [done|]. split; [by apply holds_window_values|]. intros l0 e es ->.
  assert (Hmid : ∀ es w, fold_left window_step (Received <$> es) w = (w.1, w.2 ++ es)).
  { clear. induction es as [|e es IH]; intros [w1 w2]; simpl; [by rewrite app_nil_r|].
    change (list_fmap Ev stimulus Received es) with (Received (Ev := Ev) <$> es). rewrite IH. simpl.
    by rewrite <- (assoc_L (++)). }
  set (l1 := l0 ++ Received e :: (Received <$> es)).
  assert (Hl1 : l0 ++ Received e :: (Received <$> es) ++ [Tick] = l1 ++ [Tick]).
  { unfold l1. by rewrite <- (assoc_L (++)). }
  rewrite Hl1 in *. unfold received in Hsf. rewrite omap_app in Hsf. apply Forall_app in Hsf as [Hsf1 _].
  destruct (delay_windows l1 Hsf1) as (Hsent1 & Hstore1 & Hopen1).
  assert (Hw : ∃ l2, (windows l1).2 = l2 ++ e :: es).
  { unfold l1, windows. rewrite fold_left_app. cbn [fold_left]. rewrite Hmid. simpl.
    eexists. by rewrite <- (assoc_L (++)). }
  destruct Hw as [l2 Hl2].
  assert (Hkeep : ds_sent (run l1) = ds_sent (run l0)).
  { unfold l1. rewrite (cons_middle (Received e)), (assoc_L (++)). unfold delay_run.
    rewrite fold_left_app. change (Received <$> es) with (map (@Received Ev) es).
    assert (Hk : ∀ es s, ds_sent (fold_left (delay_step object_of) (map Received es) s) = ds_sent s).
    { clear. induction es as [|e es IH]; intros s; simpl; [done|]. by rewrite IH. }
    rewrite Hk, fold_left_app. done. }
  assert (Hv : (map_to_list (ds_store (run l1))).*2 ≡ₚ firsts (windows l1).2) by (by apply holds_window_values).
  assert (Hin : object_of e ∈ object_of <$> firsts (windows l1).2).
  { apply firsts_objects. rewrite Hl2, fmap_app, elem_of_app. right. by left. }
  assert (Hrun : run (l1 ++ [Tick]) = delay_step object_of (run l1) Tick) by (unfold delay_run; by rewrite fold_left_app).
  rewrite Hrun. cbn [delay_step].
  rewrite bool_decide_eq_true_2; [|intros Hz].
  - split; [done|]. eexists. split; [rewrite <- Hkeep; reflexivity|].
    assert (Hp : (range_map 38 (ds_store (run l1))).*2 ≡ₚ firsts (windows l1).2).
    { rewrite <- Hv. apply fmap_Permutation, range_map_perm. }
    split; [rewrite Hp; apply firsts_NoDup | by rewrite Hp].
  - apply map_size_empty_iff in Hz. rewrite Hz in Hv. apply Permutation_nil_l in Hv. rewrite <- Hv in Hin.
    by apply elem_of_nil in Hin.
Qed.
End delivery.

#[local] Existing Instance stable_runtime.

(** A round that read a pipeline using two Secrets. *)
Definition sample_rounds : list (pipeline_inputs * NamespacedName) :=
  [(pipeline_answers pending_pipeline sample_getter, ObjectKey pending_pipeline)].

Lemma rotation_noticed_witness :
  mapSecretToPipelines (index_after sample_rounds) ("team", "s1") = [ObjectKey pending_pipeline] ∧
  well_shaped pending_pipeline ∧ needs pending_pipeline ("team", "s1").
Proof.
  assert (Hmap : mapSecretToPipelines (index_after sample_rounds) ("team", "s1") = [ObjectKey pending_pipeline])
    by (vm_compute; reflexivity).
  split; [exact Hmap|].
  destruct (rotation_noticed default_flags sample_rounds ("team", "s1") ∅) as (_ & _ & Hw).
  { constructor; [|constructor]. eexists. reflexivity. }
  destruct (proj1 (Hw (ObjectKey pending_pipeline))) as (earlier & round & later & p & Heq & Hget & _ & Hs & Hn & _).
  { rewrite Hmap. apply list_elem_of_here. }
  destruct earlier as [|x earlier]; [|by destruct earlier]. injection Heq as <- _. injection Hget as <-. split; assumption.
Defined.

(** Two events about one object and one about another, and a tick. *)
Definition sample_events_in : list (stimulus (Ev := NamespacedName * nat)) :=
  [Received (("team", "a"), 1%nat); Received (("team", "a"), 2%nat); Received (("", "b"), 3%nat); Tick;
   Received (("team", "a"), 4%nat)].

Lemma delay_delivers_witness :
  ∃ batch, ds_sent (@delay_run stable_runtime _ fst (take 4 sample_events_in)) = [batch] ∧
    NoDup batch.*1 ∧ ("team", "a") ∈ batch.*1.
Proof.
  destruct (@delay_delivers stable_runtime _ fst (take 4 sample_events_in)) as (_ & _ & Hd).
  - repeat constructor.
  - destruct (Hd [] (("team", "a"), 1%nat) [(("team", "a"), 2%nat); (("", "b"), 3%nat)] eq_refl) as (_ & batch & Hb & Hn & Hin).
    exists batch. split; [exact Hb|]. split; [exact Hn | exact Hin].
Defined.
