(* ===== verification/CollectorBinary.v ===== *)
(** * The event collector

    [src/internal/evcollector] and [src/cmd/event_collector/main.go]: the binary that sends the
    events of Kubernetes to the [kubernetes_events] sources of an aggregator. A collector is
    a state machine driven by what its [select]s choose and what its calls return; the
    collectors that run follow the receivers of the configuration file. *)

From S2P Require Export WorkloadPlan Config.

(** ** Events *)

(** [corev1.Event], the fields used. Times are nanoseconds since 1970. *)
Record Event := {
  ev_uid : string; ev_message : string; ev_reason : string; ev_action : string; ev_type : string;
  ev_name : string; ev_namespace : string;
  ev_creation_timestamp : Z; ev_first_timestamp : Z; ev_last_timestamp : Z; ev_event_time : Z;
  ev_source_host : string; ev_source_component : string;
  ev_obj_uid : string; ev_obj_kind : string; ev_obj_name : string; ev_obj_namespace : string;
  ev_obj_api_version : string; ev_obj_resource_version : string; ev_obj_field_path : string
}.

(** [time.Time{}], the first second of the year 1. *)
Definition zero_time : Z := -62135596800 * second.

Definition eventTimestamp (ev : Event) : Z :=
  if negb (bool_decide (ev_event_time ev = zero_time)) then ev_event_time ev
  else if negb (bool_decide (ev_last_timestamp ev = zero_time)) then ev_last_timestamp ev
  else if negb (bool_decide (ev_first_timestamp ev = zero_time)) then ev_first_timestamp ev
  else zero_time.

(** [gen.Value]: bytes, and maps, whose entries are listed as the source does. *)
Inductive LogValue := LBytes (b : string) | LMap (fields : list (string * LogValue)).

Definition valueFromString (s : string) : LogValue := LBytes s.

Definition k8sEventToVectorLog `{GoRuntime} (ev : Event) : LogValue :=
  LMap [("event", LMap [
    ("uid", valueFromString (ev_uid ev));
    ("message", valueFromString (ev_message ev));
    ("reason", valueFromString (ev_reason ev));
    ("action", valueFromString (ev_action ev));
    ("type", valueFromString (ev_type ev));
    ("creationTimestamp", valueFromString (rfc3339 (ev_creation_timestamp ev)));
    ("firstTimestamp", valueFromString (rfc3339 (ev_first_timestamp ev)));
    ("lastTimestamp", valueFromString (rfc3339 (ev_last_timestamp ev)));
    ("name", valueFromString (ev_name ev));
    ("namespace", valueFromString (ev_namespace ev));
    ("source", LMap [
      ("host", valueFromString (ev_source_host ev));
      ("component", valueFromString (ev_source_component ev))]);
    ("involvedObject", LMap [
      ("uid", valueFromString (ev_obj_uid ev));
      ("kind", valueFromString (ev_obj_kind ev));
      ("name", valueFromString (ev_obj_name ev));
      ("namespace", valueFromString (ev_obj_namespace ev));
      ("apiVersion", valueFromString (ev_obj_api_version ev));
      ("resourceVersion", valueFromString (ev_obj_resource_version ev));
      ("fieldPath", valueFromString (ev_obj_field_path ev))])])].

(** The events of a request. *)
Definition k8sEventsToVectorEvents `{GoRuntime} (l : list Event) : list LogValue := k8sEventToVectorLog <$> l.

(** ** A collector *)

Record Collector := {
  co_addr : string;
  co_namespace : string;
  co_created : Z;
  co_max_batch : Z
}.

(** Where the loop stands: waiting for an event, a tick or the end; at its head with a
    batch to send; connecting; sending; or returned. *)
Inductive phase := PhWait | PhHead | PhDial | PhPush | PhStopped.

#[export] Instance phase_eq_dec : EqDecision phase.
Proof. solve_decision. Defined.

(** What happens next: an event of the informer, a tick, [stopCh] closed, the head of the
    loop with [stopCh] open, a connection or its failure, the answer to [PushEvents]. *)
Inductive col_input := Arrived (ev : Event) | Ticked | Stopped | Proceed | Dialed (ok : bool) | Pushed (ok : bool).

Record col_state := {
  cl_phase : phase;
  cl_batch : list Event;
  cl_conn : bool;                        (** [conn != nil] *)
  cl_skipped : nat;
  cl_pushes : list (list Event * bool)   (** the calls of [PushEvents] and whether they returned nil *)
}.

Definition col_start : col_state :=
  {| cl_phase := PhWait; cl_batch := []; cl_conn := false; cl_skipped := 0; cl_pushes := [] |}.

(** From the filled batch to the connection, if there is none. *)
Definition to_send (s : col_state) (batch : list Event) : col_state :=
  {| cl_phase := if cl_conn s then PhPush else PhDial; cl_batch := batch; cl_conn := cl_conn s;
     cl_skipped := cl_skipped s; cl_pushes := cl_pushes s |}.

Definition at_phase (ph : phase) (s : col_state) : col_state :=
  {| cl_phase := ph; cl_batch := cl_batch s; cl_conn := cl_conn s; cl_skipped := cl_skipped s;
     cl_pushes := cl_pushes s |}.

(** One step; [None] when the loop does not take this input where it stands. *)
Definition col_step (c : Collector) (s : col_state) (i : col_input) : option col_state :=
  match cl_phase s, i with
  | PhWait, Arrived ev =>
      if eventTimestamp ev <? co_created c then
        Some {| cl_phase := PhWait; cl_batch := cl_batch s; cl_conn := cl_conn s; cl_skipped := S (cl_skipped s);
                cl_pushes := cl_pushes s |}
      else
        let batch := cl_batch s ++ [ev] in
        if Z.of_nat (length batch) =? co_max_batch c then Some (to_send s batch)
        else Some {| cl_phase := PhWait; cl_batch := batch; cl_conn := cl_conn s; cl_skipped := cl_skipped s;
                     cl_pushes := cl_pushes s |}
  | PhWait, Ticked =>
      if bool_decide (0 < length (cl_batch s))%nat then Some (to_send s (cl_batch s)) else Some s
  | PhWait, Stopped | PhHead, Stopped => Some (at_phase PhStopped s)
  | PhHead, Proceed => Some (to_send s (cl_batch s))
  | PhDial, Dialed ok =>
      Some {| cl_phase := if ok then PhPush else PhDial; cl_batch := cl_batch s; cl_conn := ok;
              cl_skipped := cl_skipped s; cl_pushes := cl_pushes s |}
  | PhPush, Pushed ok =>
      Some {| cl_phase := if ok then PhWait else PhHead; cl_batch := if ok then [] else cl_batch s; cl_conn := ok;
              cl_skipped := cl_skipped s; cl_pushes := cl_pushes s ++ [(cl_batch s, ok)] |}
  | _, _ => None
  end.

Fixpoint col_run (c : Collector) (s : col_state) (l : list col_input) : option col_state :=
  match l with
  | [] => Some s
  | i :: l => s ← col_step c s i; col_run c s l
  end.

(** ** The collectors that run *)

(** [net.JoinHostPort] *)
Definition JoinHostPort (host port : string) : string :=
  if string_in (ch 58) host then "[" +:+ host +:+ "]:" +:+ port else host +:+ ":" +:+ port.

Definition receiver_host (r : ReceiverParams) : string := rp_service_name r +:+ "." +:+ rp_service_namespace r.

(** [evcollector.Config] as decoded. *)
Record collector_config := { cc_max_batch : Z; cc_receivers : list ReceiverParams }.

Inductive effect := StartCollector (c : Collector) | StopCollector (c : Collector).

(** [store] and what was started and stopped. *)
Record collectors := { cr_store : gmap string Collector; cr_effects : list effect }.

(** [evcollector.New]; [now] is its [time.Now]. *)
Definition New (addr namespace : string) (maxBatchSize now : Z) : Collector :=
  {| co_addr := addr; co_namespace := namespace; co_created := now; co_max_batch := maxBatchSize |}.

Definition setupCollector (now maxBatchSize : Z) (s : collectors) (r : ReceiverParams) : collectors :=
  let host := receiver_host r in
  let addr := JoinHostPort host (rp_port r) in
  let c := New addr (rp_watched_namespace r) maxBatchSize now in
  let started stopped := {| cr_store := <[host := c]> (cr_store s);
                            cr_effects := cr_effects s ++ stopped ++ [StartCollector c] |} in
  match cr_store s !! host with
  | Some old =>
      if bool_decide (co_addr old = addr ∧ co_namespace old = rp_watched_namespace r) then s
      else started [StopCollector old]
  | None => started []
  end.

Definition stop_unlisted (s : collectors) (host : string) : collectors :=
  match cr_store s !! host with
  | Some c => {| cr_store := delete host (cr_store s); cr_effects := cr_effects s ++ [StopCollector c] |}
  | None => s
  end.

(** [applyConfig], for a configuration that decodes. *)
Definition applyConfig `{GoRuntime} (now : Z) (cfg : collector_config) (store : gmap string Collector) : collectors :=
  let s := fold_left (setupCollector now (cc_max_batch cfg)) (cc_receivers cfg) {| cr_store := store; cr_effects := [] |} in
  let notModified := fold_left (λ m r, delete (receiver_host r) m) (cc_receivers cfg) store in
  fold_left stop_unlisted (range_map 39 notModified).*1 s.

(** ** What a collector sends *)

Section collector.
Context (c : Collector).

Definition arrivals (l : list col_input) : list Event :=
  omap (λ i, match i with Arrived ev => Some ev | _ => None end) l.
(** The events that are not from before the collector. *)
Definition fresh (l : list Event) : list Event := List.filter (λ ev, co_created c <=? eventTimestamp ev) l.
(** The events a call of [PushEvents] has taken. *)
Definition delivered (s : col_state) : list Event :=
  mjoin (fst <$> List.filter snd (cl_pushes s)).

(** The batch of the call in progress or to be made again. *)
Definition pending_batch (s : col_state) : Prop :=
  (cl_phase s = PhWait ∧ Z.of_nat (length (cl_batch s)) < co_max_batch c) ∨
  (cl_phase s = PhStopped ∧ Z.of_nat (length (cl_batch s)) <= co_max_batch c) ∨
  (cl_phase s ∈ [PhHead; PhDial; PhPush] ∧ cl_batch s ≠ [] ∧ Z.of_nat (length (cl_batch s)) <= co_max_batch c).

(** A batch that was not taken is the one of the next call, if there was one, and the
    one held otherwise. *)
Definition retried (pushes : list (list Event * bool)) (held : list Event) : Prop :=
  ∀ before b after, pushes = before ++ (b, false) :: after →
    match after with [] => held = b | (b', _) :: _ => b' = b end.

Record col_inv (l : list col_input) (s : col_state) : Prop := {
  inv_events : delivered s ++ cl_batch s = fresh (arrivals l);
  inv_pending : pending_batch s;
  inv_sizes : Forall (λ p, p.1 ≠ [] ∧ Z.of_nat (length p.1) <= co_max_batch c) (cl_pushes s);
  inv_skipped : (cl_skipped s + length (fresh (arrivals l)) = length (arrivals l))%nat;
  inv_retried : retried (cl_pushes s) (cl_batch s);
  inv_wait : cl_phase s = PhWait → ∀ before b, cl_pushes s ≠ before ++ [(b, false)]
}.

Context (Hmax : 0 < co_max_batch c).

Lemma arrivals_snoc l i : arrivals (l ++ [i]) = arrivals l ++ match i with Arrived ev => [ev] | _ => [] end.
Proof. unfold arrivals. rewrite omap_app. by destruct i. Qed.

Lemma fresh_app l1 l2 : fresh (l1 ++ l2) = fresh l1 ++ fresh l2.
Proof. apply List.filter_app. Qed.

Lemma col_run_snoc s l i s' :
  col_run c s (l ++ [i]) = Some s' ↔ ∃ s1, col_run c s l = Some s1 ∧ col_step c s1 i = Some s'.
Proof.
  revert s. induction l as [|j l IH]; intros s; simpl.
  - split; [|intros (s1 & [= ->] & Hs); by rewrite Hs]. destruct (col_step c s i) as [s1|] eqn:Hs; [|done].
    intros [= ->]. eauto.
  - destruct (col_step c s j) as [s1|]; simpl; [apply IH|]. split; [done|]. by intros (? & ? & _).
Qed.

(** A step that only moves on, with the batch that is held. *)
Lemma inv_move l s s' i :
  arrivals (l ++ [i]) = arrivals l → cl_batch s' = cl_batch s → cl_pushes s' = cl_pushes s →
  cl_skipped s' = cl_skipped s → cl_phase s' ≠ PhWait → pending_batch s' → col_inv l s → col_inv (l ++ [i]) s'.
Proof.
  intros Ha Hb Hp Hk Hw Hpend [H1 H2 H3 H4 H5 H6]. split; rewrite ?Ha; unfold delivered; rewrite ?Hb, ?Hp, ?Hk; done.
Qed.

Lemma inv_step l s i s' : col_inv l s → col_step c s i = Some s' → col_inv (l ++ [i]) s'.
Proof using Hmax.
  intros Hinv. pose proof Hinv as [H1 H2 H3 H4 H5 H6].
  assert (Hpend : ∀ ph, ph ∈ [PhHead; PhDial; PhPush] → pending_batch s → cl_phase s ≠ PhStopped →
      cl_batch s ≠ [] → pending_batch (at_phase ph s)).
  { intros ph Hph [(_ & Hl)|[(? & _)|(_ & Hn & Hl)]] Hns Hne; [|done|]; right; right; (split; [exact Hph|]); simpl;
      (split; [done|lia]). }
  unfold col_step. destruct (cl_phase s) eqn:Hph, i as [ev| | | |ok|ok]; try done.
  - (* an event arrives *)
    assert (Hlt : Z.of_nat (length (cl_batch s)) < co_max_batch c).
    { destruct H2 as [(_ & ?)|[(? & _)|(Hx & _)]]; [done|by rewrite Hph in *|].
      rewrite Hph in Hx. by apply (bool_decide_pack _) in Hx. }
    destruct (Z.ltb_spec (eventTimestamp ev) (co_created c)) as [Hold|Hnew].
    + intros [= <-].
      assert (Hf : fresh (arrivals (l ++ [Arrived ev])) = fresh (arrivals l)).
      { rewrite arrivals_snoc, fresh_app. simpl. destruct (Z.leb_spec (co_created c) (eventTimestamp ev)); [lia|].
        by rewrite app_nil_r. }
      split; rewrite ?Hf; simpl; [done|by left|done| |done|done].
      rewrite arrivals_snoc, length_app. simpl. lia.
    + assert (Hf : fresh (arrivals (l ++ [Arrived ev])) = fresh (arrivals l) ++ [ev]).
      { rewrite arrivals_snoc, fresh_app. simpl. destruct (Z.leb_spec (co_created c) (eventTimestamp ev)); [done|lia]. }
      assert (Hk : (cl_skipped s + length (fresh (arrivals (l ++ [Arrived ev]))) = length (arrivals (l ++ [Arrived ev])))%nat).
      { rewrite Hf, arrivals_snoc, !length_app. simpl. lia. }
      assert (Hr : retried (cl_pushes s) (cl_batch s ++ [ev])).
      { intros before b [|[b' ok'] after] Heq; [by destruct (H6 eq_refl before b)|]. by apply (H5 before b ((b', ok') :: after)). }
      destruct (Z.eqb_spec (Z.of_nat (length (cl_batch s ++ [ev]))) (co_max_batch c)) as [Hfull|Hmore]; intros [= <-].
      * split; simpl; [by rewrite Hf, <- H1, <- (assoc_L (++))| |done|done|done|by destruct (cl_conn s)].
        right; right. split; [simpl; by destruct (cl_conn s); apply (bool_decide_unpack _)|]. split; [by destruct (cl_batch s)|]. simpl. lia.
      * split; simpl; [by rewrite Hf, <- H1, <- (assoc_L (++))| |done|done|done|done].
        left. split; [done|]. simpl. rewrite length_app in *. simpl in *. lia.
  - (* a tick *)
    case_bool_decide as Hn; intros [= <-].
    + apply (inv_move l s); [rewrite arrivals_snoc; apply app_nil_r|done|done|done| | |exact Hinv].
      * simpl. by destruct (cl_conn s).
      * apply (Hpend (if cl_conn s then PhPush else PhDial)); [simpl; by destruct (cl_conn s); apply (bool_decide_unpack _)|done|congruence|].
        intros He. by rewrite He in Hn; simpl in Hn; lia.
    + assert (Ha : arrivals (l ++ [Ticked]) = arrivals l) by (rewrite arrivals_snoc; apply app_nil_r).
      split; rewrite ?Ha; [done..|]. intros _. by apply H6.
  - (* the end *)
    intros [= <-]. apply (inv_move l s); [rewrite arrivals_snoc; apply app_nil_r|done..| |exact Hinv].
    right; left. split; [done|]. simpl. destruct H2 as [(_ & ?)|[(? & _)|(_ & _ & ?)]]; [lia|congruence|done].
  - intros [= <-]. apply (inv_move l s); [rewrite arrivals_snoc; apply app_nil_r|done..| |exact Hinv].
    right; left. split; [done|]. simpl. destruct H2 as [(_ & ?)|[(? & _)|(_ & _ & ?)]]; [lia|congruence|done].
  - (* on with the batch *)
    intros [= <-]. apply (inv_move l s); [rewrite arrivals_snoc; apply app_nil_r|done|done|done| | |exact Hinv].
    + simpl. by destruct (cl_conn s).
    + apply (Hpend (if cl_conn s then PhPush else PhDial)); [simpl; by destruct (cl_conn s); apply (bool_decide_unpack _)|done|congruence|].
      destruct H2 as [(? & _)|[(? & _)|(_ & ? & _)]]; [congruence|congruence|done].
  - (* a connection or none *)
    intros [= <-]. apply (inv_move l s); [rewrite arrivals_snoc; apply app_nil_r|done|done|done| | |exact Hinv].
    + simpl. by destruct ok.
    + apply (Hpend (if ok then PhPush else PhDial)); [by destruct ok; apply (bool_decide_unpack _)|done|congruence|].
      destruct H2 as [(? & _)|[(? & _)|(_ & ? & _)]]; [congruence|congruence|done].
  - (* the call returns *)
    assert (Hb : cl_batch s ≠ [] ∧ Z.of_nat (length (cl_batch s)) <= co_max_batch c).
    { destruct H2 as [(? & _)|[(? & _)|(_ & ?)]]; [congruence|congruence|done]. }
    intros [= <-]. assert (Ha : arrivals (l ++ [Pushed ok]) = arrivals l) by (rewrite arrivals_snoc; apply app_nil_r).
    assert (Hlast : ∀ held, (ok = false → held = cl_batch s) → retried (cl_pushes s ++ [(cl_batch s, ok)]) held).
    { intros held Hheld before b after Heq. destruct after as [|x after _] using rev_ind.
      - apply app_inj_tail in Heq as [_ [= <- ->]]. by apply Hheld.
      - rewrite app_comm_cons, (assoc_L (++)) in Heq. apply app_inj_tail in Heq as [Heq <-].
        destruct after as [|[b' ok'] after]; simpl; [by apply (H5 before b [])|].
        by apply (H5 before b ((b', ok') :: after)). }
    split; rewrite ?Ha; simpl; [| | |done| |].
    + rewrite <- H1. unfold delivered. simpl. rewrite List.filter_app, fmap_app, join_app.
      destruct ok; simpl; by rewrite ?app_nil_r.
    + destruct ok; [left | right; right]; simpl; (split; [first [done | by apply (bool_decide_unpack _)]|]); simpl; [lia|done].
    + apply Forall_app. split; [done|]. by repeat constructor; apply Hb.
    + apply Hlast. by intros ->.
    + intros Hw before b Heq. apply app_inj_tail in Heq as [_ [= _ ->]]. done.
Qed.

Lemma col_run_inv l s : col_run c col_start l = Some s → col_inv l s.
Proof using Hmax.
  revert s. induction l as [|i l IH] using rev_ind; intros s.
  - intros [= <-]. split; simpl; [done|left; split; [done|simpl; lia]|constructor|done|by intros []|by intros _ []].
  - intros (s1 & H1 & H2)%col_run_snoc. eapply inv_step; [by apply IH | exact H2].
Qed.
End collector.

Section collector_claims.
Context (c : Collector) (Hmax : 0 < co_max_batch c).

Lemma col_run_cons s i s1 l : col_step c s i = Some s1 → col_run c s (i :: l) = col_run c s1 l.
Proof. intros Hs. cbn [col_run]. by rewrite Hs. Qed.

(** From a state that has not returned, what is held is sent without another event. *)
Lemma flush_possible s :
  cl_phase s ≠ PhStopped → pending_batch c s →
  ∃ l s', arrivals l = [] ∧ col_run c s l = Some s' ∧ cl_batch s' = [] ∧ delivered s' = delivered s ++ cl_batch s.
Proof.
  intros Hns Hpend.
  assert (Hpush : ∀ s, cl_phase s = PhPush → ∃ s', col_run c s [Pushed true] = Some s' ∧ cl_batch s' = [] ∧
    delivered s' = delivered s ++ cl_batch s).
  { intros t Ht. eexists. split; [cbn [col_run]; unfold col_step; rewrite Ht; reflexivity|].
    split; [done|]. unfold delivered. simpl. rewrite List.filter_app, fmap_app, join_app. simpl. by rewrite app_nil_r. }
  assert (Hdial : ∀ s, cl_phase s = PhDial → ∃ s', col_run c s [Dialed true; Pushed true] = Some s' ∧ cl_batch s' = [] ∧
    delivered s' = delivered s ++ cl_batch s).
  { intros t Ht. destruct (Hpush {| cl_phase := PhPush; cl_batch := cl_batch t; cl_conn := true;
      cl_skipped := cl_skipped t; cl_pushes := cl_pushes t |} eq_refl) as (s' & Hrun & Hs').
    exists s'. split; [|exact Hs']. erewrite col_run_cons; [exact Hrun|]. unfold col_step. by rewrite Ht. }
  assert (Hsend : ∀ s, ∃ l s', arrivals l = [] ∧ col_run c (to_send s (cl_batch s)) l = Some s' ∧ cl_batch s' = [] ∧
    delivered s' = delivered s ++ cl_batch s).
  { intros t. destruct (cl_conn t) eqn:Hc.
    - destruct (Hpush (to_send t (cl_batch t))) as (s' & ? & ?); [by simpl; rewrite Hc|]. by exists [Pushed true], s'.
    - destruct (Hdial (to_send t (cl_batch t))) as (s' & ? & ?); [by simpl; rewrite Hc|]. by exists [Dialed true; Pushed true], s'. }
  destruct (cl_phase s) eqn:Hph; [| | | |done].
  - destruct (decide (cl_batch s = [])) as [He|Hne].
    + exists [], s. split_and!; [done|done|done|]. by rewrite He, app_nil_r.
    + destruct (Hsend s) as (l & s' & Hl & Hrun & ?). exists (Ticked :: l), s'. split; [done|]. split; [|done].
      erewrite col_run_cons; [exact Hrun|]. unfold col_step. rewrite Hph, bool_decide_eq_true_2; [done|].
      destruct (cl_batch s); [done|simpl; lia].
  - destruct (Hsend s) as (l & s' & Hl & Hrun & ?). exists (Proceed :: l), s'. split; [done|]. split; [|done].
    erewrite col_run_cons; [exact Hrun|]. unfold col_step. by rewrite Hph.
  - destruct (Hdial s Hph) as (s' & ? & ?). by exists [Dialed true; Pushed true], s'.
  - destruct (Hpush s Hph) as (s' & ? & ?). by exists [Pushed true], s'.
Qed.

(** C37: a collector, however its inputs interleave and its calls fail: the batches that were
    taken and the one that is held are, in order, exactly the events that are not from
    before it; no call carries more than the limit or nothing; a call that fails is
    repeated with the same batch and nothing else is sent before it is taken; and as
    long as the collector has not been stopped, what it holds can be sent without
    another event arriving. *)
Theorem collector_delivers l s :
  col_run c col_start l = Some s →
  delivered s ++ cl_batch s = fresh c (arrivals l) ∧
  Forall (λ p, p.1 ≠ [] ∧ Z.of_nat (length p.1) <= co_max_batch c) (cl_pushes s) ∧
  Z.of_nat (length (cl_batch s)) <= co_max_batch c ∧
  retried (cl_pushes s) (cl_batch s) ∧
  (cl_phase s ≠ PhStopped → ∃ l' s', arrivals l' = [] ∧ col_run c s l' = Some s' ∧ cl_batch s' = [] ∧
     delivered s' = fresh c (arrivals l)).
Proof using Hmax.
  intros Hrun. destruct (col_run_inv c Hmax l s Hrun) as [H1 H2 H3 H4 H5 H6]. split_and!; [done|done| |done|].
  - destruct H2 as [(_ & ?)|[(_ & ?)|(_ & _ & ?)]]; lia.
  - intros Hns. destruct (flush_possible s Hns H2) as (l' & s' & ? & ? & ? & Hd). exists l', s'. by rewrite Hd, H1.
Qed.
End collector_claims.

(** ** What a reload changes *)

Section reload.
Context `{GoRuntime}.
Context (now : Z) (cfg : collector_config).

Notation max := (cc_max_batch cfg).

(** The collector a receiver asks for, and what it gets when one is there. *)
Definition collector_of (r : ReceiverParams) : Collector :=
  New (JoinHostPort (receiver_host r) (rp_port r)) (rp_watched_namespace r) max now.
Definition same_target (c : Collector) (r : ReceiverParams) : Prop :=
  co_addr c = JoinHostPort (receiver_host r) (rp_port r) ∧ co_namespace c = rp_watched_namespace r.
#[local] Instance same_target_dec c r : Decision (same_target c r).
Proof. unfold same_target. apply _. Defined.

Definition kept_or_new (old : option Collector) (r : ReceiverParams) : Collector :=
  match old with
  | Some c => if decide (same_target c r) then c else collector_of r
  | None => collector_of r
  end.

Lemma setup_lookup s r h :
  cr_store (setupCollector now max s r) !! h =
    if decide (h = receiver_host r) then Some (kept_or_new (cr_store s !! h) r) else cr_store s !! h.
Proof.
  unfold setupCollector, kept_or_new, same_target, collector_of. case_decide as Hh; subst.
  - destruct (cr_store s !! receiver_host r) as [old|] eqn:Ho; simpl; [|by rewrite lookup_insert_eq].
    case_bool_decide; case_decide; try done. simpl. by rewrite lookup_insert_eq.
  - destruct (cr_store s !! receiver_host r) as [old|]; [case_bool_decide|]; simpl; rewrite ?lookup_insert_ne; done.
Qed.

Lemma setups_lookup rs s h :
  NoDup (receiver_host <$> rs) →
  cr_store (fold_left (setupCollector now max) rs s) !! h =
    match List.find (λ r, bool_decide (receiver_host r = h)) rs with
    | Some r => Some (kept_or_new (cr_store s !! h) r)
    | None => cr_store s !! h
    end.
Proof.
  revert s. induction rs as [|r rs IH]; intros s; cbn [fold_left]; [done|].
  intros [Hr Hnd]%NoDup_cons. rewrite (IH _ Hnd), setup_lookup. simpl. case_bool_decide as Hh.
  - rewrite decide_True by done. subst h. destruct (List.find _ rs) as [r'|] eqn:Hf; [|done].
    apply find_some in Hf as [Hr' He%bool_decide_eq_true]. destruct Hr. rewrite <- He.
    apply list_elem_of_fmap. exists r'. by rewrite list_elem_of_In.
  - rewrite decide_False by (intros ->; done). by destruct (List.find _ rs).
Qed.

Lemma unlisted_lookup hs s h :
  cr_store (fold_left stop_unlisted hs s) !! h = if decide (h ∈ hs) then None else cr_store s !! h.
Proof.
  revert s. induction hs as [|x hs IH]; intros s; cbn [fold_left]; [by rewrite decide_False by (by intros ?%elem_of_nil)|].
  rewrite IH. destruct (decide (h ∈ hs)) as [Hin|Hni]; [by rewrite decide_True by (by right)|].
  unfold stop_unlisted. destruct (decide (h = x)) as [->|Hne].
  - rewrite decide_True by (by left). destruct (cr_store s !! x) as [c|] eqn:Hx; [apply lookup_delete_eq | done].
  - rewrite decide_False by (by intros [?|?]%elem_of_cons).
    destruct (cr_store s !! x) as [c|]; [by apply lookup_delete_ne | done].
Qed.

Lemma listed_lookup rs (store : gmap string Collector) h :
  fold_left (λ m r, delete (receiver_host r) m) rs store !! h =
    if decide (h ∈ receiver_host <$> rs) then None else store !! h.
Proof.
  revert store. induction rs as [|r rs IH]; intros store; cbn [fold_left]; [by rewrite decide_False by (by intros ?%elem_of_nil)|].
  rewrite IH. destruct (decide (h ∈ receiver_host <$> rs)) as [Hin|Hni]; [by rewrite decide_True by (by right)|].
  destruct (decide (h = receiver_host r)) as [->|Hne].
  - rewrite decide_True by (by left). apply lookup_delete_eq.
  - rewrite decide_False by (by intros [?|?]%elem_of_cons). by apply lookup_delete_ne.
Qed.

(** A reload, for receivers of different services. What runs afterwards are exactly the
    collectors of the receivers listed, each sending to the address and watching the
    namespace of its receiver; a collector whose receiver still has its address and its
    namespace is left running as it is, and so keeps the batch limit it was started
    with, whatever the new configuration says. *)
Lemma reload_exact (store : gmap string Collector) :
  NoDup (receiver_host <$> cc_receivers cfg) →
  let after := cr_store (applyConfig now cfg store) in
  (∀ h, is_Some (after !! h) ↔ h ∈ receiver_host <$> cc_receivers cfg) ∧
  ∀ r, r ∈ cc_receivers cfg → ∃ c, after !! receiver_host r = Some c ∧ same_target c r ∧
    (∀ old, store !! receiver_host r = Some old → same_target old r → c = old) ∧
    ((∀ old, store !! receiver_host r = Some old → ¬ same_target old r) → c = collector_of r).
Proof.
  intros Hnd. cbv zeta. unfold applyConfig.
  set (notModified := fold_left (λ m r, delete (receiver_host r) m) (cc_receivers cfg) store).
  assert (Hrest : ∀ h, h ∈ (range_map 39 notModified).*1 ↔ is_Some (store !! h) ∧ h ∉ receiver_host <$> cc_receivers cfg).
  { intros h. rewrite range_keys. unfold notModified. rewrite listed_lookup. case_decide as Hh.
    - split; [by intros []|]. by intros [_ ?].
    - naive_solver. }
  assert (Hfind : ∀ r, r ∈ cc_receivers cfg → List.find (λ r', bool_decide (receiver_host r' = receiver_host r)) (cc_receivers cfg) = Some r).
  { clear notModified Hrest. induction (cc_receivers cfg) as [|r0 rs IH]; intros r; [by intros ?%elem_of_nil|].
    rewrite fmap_cons in Hnd. apply NoDup_cons in Hnd as [Hr0 Hnd]. intros [->|Hr]%elem_of_cons; simpl.
    - by rewrite bool_decide_eq_true_2.
    - rewrite bool_decide_eq_false_2; [by apply IH|]. intros He. apply Hr0. rewrite He. by apply list_elem_of_fmap_2. }
  assert (Hafter : ∀ r, r ∈ cc_receivers cfg →
    cr_store (fold_left stop_unlisted (range_map 39 notModified).*1
      (fold_left (setupCollector now max) (cc_receivers cfg) {| cr_store := store; cr_effects := [] |})) !! receiver_host r =
    Some (kept_or_new (store !! receiver_host r) r)).
  { intros r Hr. rewrite unlisted_lookup, decide_False, (setups_lookup _ _ _ Hnd), (Hfind r Hr); [done|].
    rewrite Hrest. intros [_ Hn]. apply Hn. by apply list_elem_of_fmap_2. }
  split.
  - intros h. destruct (decide (h ∈ receiver_host <$> cc_receivers cfg)) as [Hin|Hni].
    + split; [done|]. intros _. apply list_elem_of_fmap in Hin as (r & -> & Hr). rewrite Hafter by done. by eexists.
    + split; [|done]. rewrite unlisted_lookup. case_decide as Hh; [by intros []|].
      rewrite (setups_lookup _ _ _ Hnd). destruct (List.find _ _) as [r|] eqn:Hf.
      * apply find_some in Hf as [Hr <-%bool_decide_eq_true]. destruct Hni. apply list_elem_of_fmap_2.
        by apply list_elem_of_In.
      * intros Hs. destruct Hh. apply Hrest. by split.
  - intros r Hr. eexists. split; [by apply Hafter|]. unfold kept_or_new.
    assert (Hnew : same_target (collector_of r) r) by done.
    destruct (store !! receiver_host r) as [old|]; [case_decide|]; split_and!; try done; naive_solver.
Qed.
End reload.

(** ** Witnesses *)

Definition sample_event (name : string) (at_ : Z) : Event :=
  {| ev_uid := ""; ev_message := ""; ev_reason := ""; ev_action := ""; ev_type := ""; ev_name := name; ev_namespace := "";
     ev_creation_timestamp := at_; ev_first_timestamp := zero_time; ev_last_timestamp := at_; ev_event_time := zero_time;
     ev_source_host := ""; ev_source_component := ""; ev_obj_uid := ""; ev_obj_kind := ""; ev_obj_name := "";
     ev_obj_namespace := ""; ev_obj_api_version := ""; ev_obj_resource_version := ""; ev_obj_field_path := "" |}.

Definition sample_running : Collector :=
  {| co_addr := "g-p.team:42000"; co_namespace := "team"; co_created := 100; co_max_batch := 2 |}.

(** An event from before, a full batch whose first call fails, and one event more. *)
Definition sample_inputs : list col_input :=
  [Arrived (sample_event "old" 1); Arrived (sample_event "a" 100); Arrived (sample_event "b" 101); Dialed true;
   Pushed false; Proceed; Dialed true; Pushed true; Arrived (sample_event "c" 102)].

Lemma collector_delivers_witness :
  ∃ s, col_run sample_running col_start sample_inputs = Some s ∧
    map (λ p, (map ev_name p.1, p.2)) (cl_pushes s) = [(["a"; "b"], false); (["a"; "b"], true)] ∧
    delivered s ++ cl_batch s = [sample_event "a" 100; sample_event "b" 101; sample_event "c" 102].
Proof.
  eexists. split; [reflexivity|]. split; [reflexivity|].
  apply (collector_delivers sample_running ltac:(reflexivity) sample_inputs); reflexivity.
Defined.

Definition sample_receiver : ReceiverParams :=
  {| rp_service_name := "g-p"; rp_service_namespace := "team"; rp_port := "42000"; rp_watched_namespace := "team" |}.
Definition sample_reload : collector_config := {| cc_max_batch := 500; cc_receivers := [sample_receiver] |}.

(** The batch limit of the configuration changes; the collector's does not. *)
Lemma reload_exact_witness :
  co_max_batch <$> cr_store (@applyConfig stable_runtime 200 sample_reload {["g-p.team" := sample_running]}) !! "g-p.team" =
    Some 2.
Proof.
  destruct (@reload_exact stable_runtime 200 sample_reload {["g-p.team" := sample_running]}) as [_ Hr].
  - apply NoDup_singleton.
  - destruct (Hr sample_receiver) as (c & Hc & _ & Hold & _); [by left|].
    rewrite (Hold sample_running) in Hc; [|reflexivity|split; reflexivity].
    change (receiver_host sample_receiver) with "g-p.team" in Hc. by rewrite Hc.
Defined.
