(* ===== verification/Checkpoint.v ===== *)
(** * Consolidating checkpoints

    [src/internal/checkpoint/consolidate.go] and [src/cmd/checkpoint_merger/main.go]: before the
    Vector of an agent starts, the positions saved under the directories of former sources
    are merged into those of the sources of its configuration. Documents are read and
    written as [encoding/json] does, with the entries carried as their text; the data
    directory is the state. *)

From S2P Require Export Samples.

Definition CheckpointFile : string := "checkpoints.json".
Definition supportedVersion : string := "1".

(** ** Reading with [json.Unmarshal] into structs and [json.RawMessage]s *)

(** [foldName]: the two letters that fold to ASCII besides the capitals. *)
Fixpoint fold_bytes (l : list Z) : list Z :=
  match l with
  | 0xC5 :: 0xBF :: l => 115 :: fold_bytes l
  | 0xE2 :: 0x84 :: 0xAA :: l => 107 :: fold_bytes l
  | b :: l => (if between 65 90 b then b + 32 else b) :: fold_bytes l
  | [] => []
  end.
Definition is_field (name key : string) : bool := bool_decide (fold_bytes (bytes_of key) = bytes_of name).

(** The text of the value a document starts with, and the rest. *)
Definition raw_value (s : string) : option (string * string) :=
  let s0 := skip_ws s in
  '(_, r) ← json_value (2 * String.length s0 + 2) s0;
  Some (String.substring 0 (String.length s0 - String.length r) s0, r).

(** The texts of the elements after [[] or [,]. *)
Fixpoint raw_elems (n : nat) (s : string) : option (list string) :=
  match n with
  | O => None
  | S n =>
      '(v, r) ← raw_value s;
      match skip_ws r with
      | String c r => if is_ch c 44 then l ← raw_elems n r; Some (v :: l)
                      else if is_ch c 93 then Some [v] else None
      | _ => None
      end
  end.

(** The members after [{] or [,], the texts of their values. *)
Fixpoint raw_members (n : nat) (s : string) : option (list (string * string)) :=
  match n with
  | O => None
  | S n =>
      r ← expect dquote (skip_ws s);
      '(k, r) ← json_chars r;
      r ← expect ":" (skip_ws r);
      '(v, r) ← raw_value r;
      match skip_ws r with
      | String c r => if is_ch c 44 then l ← raw_members n r; Some ((utf8_sanitize k, v) :: l)
                      else if is_ch c 125 then Some [(utf8_sanitize k, v)] else None
      | _ => None
      end
  end.

(** What a text is to a decoder. *)
Inductive decoded := DNull | DObject (l : list (string * string)) | DArray (l : list string) | DOther (v : value).

Definition open_of (c : Z) (s : string) : option string := expect (String (ch c) "") (skip_ws s).

(** [None]: a syntax error. A container has at most as many parts as bytes. *)
Definition decode (s : string) : option decoded :=
  v ← json_parse s;
  match v with
  | VNull => Some DNull
  | VMap [] => Some (DObject [])
  | VList [] => Some (DArray [])
  | VMap _ => r ← open_of 123 s; l ← raw_members (String.length s) r; Some (DObject l)
  | VList _ => r ← open_of 91 s; l ← raw_elems (String.length s) r; Some (DArray l)
  | v => Some (DOther v)
  end.

Definition syntax_error : err := ErrText "invalid character in JSON".
Definition type_error (field : string) : err := ErrText ("json: cannot unmarshal into Go struct field " +:+ field).

(** The fields of a struct, in the order of the members; [null] leaves the struct as it is. *)
Definition decode_struct {S} (field : S → string * string → result S) (zero : S) (s : string) : result S :=
  match decode s with
  | None => Err syntax_error
  | Some DNull => Ok zero
  | Some (DObject l) => foldM field zero l
  | Some _ => Err (type_error "")
  end.

(** ** Checkpoints *)

Record entry := { e_raw : string; e_fingerprint : string; e_position : Z }.

Definition state_field (st : string * list string) (kv : string * string) : result (string * list string) :=
  let '(k, raw) := kv in
  if is_field "version" k then
    match decode raw with
    | Some DNull => Ok st
    | Some (DOther (VStr v)) => Ok (v, st.2)
    | _ => Err (type_error k)
    end
  else if is_field "checkpoints" k then
    match decode raw with
    | Some DNull => Ok (st.1, [])
    | Some (DArray l) => Ok (st.1, l)
    | _ => Err (type_error k)
    end
  else Ok st.

(** [strconv.ParseUint(s, 10, 64)] *)
Definition ParseUint (s : string) : option Z :=
  if bool_decide (s = "") then None else
  v ← (fix go (acc : Z) (s : string) : option Z :=
         match s with
         | EmptyString => Some acc
         | String c s => if is_digit c then go (acc * 10 + (byte_val c - 48)) s else None
         end) 0 s;
  if v <? 2 ^ 64 then Some v else None.

(** [entryFields]: the text of the fingerprint, empty if there is none, and the position. *)
Definition entry_field (st : string * Z) (kv : string * string) : result (string * Z) :=
  let '(k, raw) := kv in
  if is_field "fingerprint" k then Ok (raw, st.2)
  else if is_field "position" k then
    match decode raw with
    | Some DNull => Ok st
    | Some (DOther (VNum t)) =>
        match ParseUint t with Some v => Ok (st.1, v) | None => Err (type_error k) end
    | _ => Err (type_error k)
    end
  else Ok st.

(** [json.Compact]: white space outside strings goes. *)
Fixpoint compact_go (in_str esc : bool) (s : string) : string :=
  match s with
  | EmptyString => ""
  | String c s =>
      if in_str then String c (compact_go (esc || negb (is_ch c 34)) (negb esc && is_ch c 92) s)
      else if is_ch c 32 || is_ch c 9 || is_ch c 10 || is_ch c 13 then compact_go false false s
      else String c (compact_go (is_ch c 34) false s)
  end.
Definition Compact (s : string) : result string :=
  match json_parse s with
  | Some _ => Ok (compact_go false false s)
  | None => Err syntax_error
  end.

Definition read_entry (raw : string) : result entry :=
  '(fp, position) ← decode_struct entry_field ("", 0) raw;
  fingerprint ← Compact fp;
  Ok {| e_raw := raw; e_fingerprint := fingerprint; e_position := position |}.

(** [readCheckpoints] of a file that was read. *)
Definition readCheckpoints (data : string) : result (list entry) :=
  '(version, checkpoints) ← decode_struct state_field ("", []) data;
  if bool_decide (version ≠ supportedVersion) then Err (ErrText "unsupported checkpoint version") else
  mapM read_entry checkpoints.

(** ** The data directory *)

(** What is under the data directory: files, and directories with the content of their
    checkpoint file, if they have one. *)
Inductive node := NFile | NDir (checkpoints : option string).
Notation data_dir := (gmap string node).

(** The system calls that fail, by the name of the directory. *)
Record io_faults := { io_read : string → bool; io_mkdir : string → bool; io_write : string → bool }.

(** [readCheckpoints] of a path: not there, in error, or its entries. *)
Inductive read_result := NotExist | Unreadable | Entries (l : list entry).

Definition read_dir (io : io_faults) (fs : data_dir) (name : string) : read_result :=
  match fs !! name with
  | None | Some (NDir None) => NotExist
  | Some NFile => Unreadable
  | Some (NDir (Some data)) =>
      if io_read io name then Unreadable else
      match readCheckpoints data with Ok l => Entries l | Err _ => Unreadable end
  end.

(** The highest position of a fingerprint wins, the first one of equal positions. *)
Definition merge_entry (m : gmap string entry) (e : entry) : gmap string entry :=
  match m !! e_fingerprint e with
  | Some cur => if e_position cur <? e_position e then <[e_fingerprint e := e]> m else m
  | None => <[e_fingerprint e := e]> m
  end.

Definition merge_dir (io : io_faults) (fs : data_dir) (m : gmap string entry) (name : string) : gmap string entry :=
  match read_dir io fs name with
  | Entries l => fold_left merge_entry l m
  | _ => m
  end.

Section consolidate.
Context `{GoRuntime}.

(** [os.ReadDir] sorts the names; only directories are looked into. *)
Definition dir_names (fs : data_dir) : list string :=
  sort_strings (List.filter (λ name, match fs !! name with Some (NDir _) => true | _ => false end) (map_to_list fs).*1).

Definition merge_all (io : io_faults) (fs : data_dir) : gmap string entry :=
  fold_left (merge_dir io fs) (dir_names fs) ∅.

(** [writeCheckpoints]: the document written. *)
Definition writeCheckpoints (entries : list entry) : string :=
  let sorted := sort_slice (λ a b, String.ltb (e_fingerprint a) (e_fingerprint b)) entries in
  json_obj [("version", json_quote supportedVersion);
            ("checkpoints", "[" +:+ join "," (json_compact ∘ e_raw <$> sorted) +:+ "]")].

(** The entries of a target, and how many of them changed. *)
Definition apply_merged (st : gmap string entry * nat) (m : string * entry) : gmap string entry * nat :=
  let '(res, changed) := st in
  let '(fp, e) := m in
  match res !! fp with
  | Some cur => if e_position cur <? e_position e then (<[fp := e]> res, S changed) else st
  | None => (<[fp := e]> res, S changed)
  end.

(** The entries of a target with [existing] ones, and whether any of them is new. *)
Definition by_fingerprint (existing : list entry) : gmap string entry :=
  fold_left (λ m e, <[e_fingerprint e := e]> m) existing ∅.
Definition target_entries (merged : gmap string entry) (existing : list entry) : gmap string entry * nat :=
  fold_left apply_merged (range_map 40 merged) (by_fingerprint existing, 0%nat).
Definition existing_entries (found : read_result) : list entry :=
  match found with Entries l => l | _ => [] end.

(** One target. *)
Definition consolidate_source (io : io_faults) (merged : gmap string entry) (fs : data_dir) (src : string) : data_dir :=
  match read_dir io fs src with
  | Unreadable => fs
  | found =>
      let '(res, changed) := target_entries merged (existing_entries found) in
      if bool_decide (changed = 0%nat) then fs
      else if io_mkdir io src then fs
      else if io_write io src then
        match fs !! src with Some _ => fs | None => <[src := NDir None]> fs end
      else <[src := NDir (Some (writeCheckpoints (range_map 41 res).*2))]> fs
  end.

(** [Consolidate], for a data directory that can be listed. *)
Definition Consolidate (io : io_faults) (sources : list string) (fs : data_dir) : data_dir :=
  let merged := merge_all io fs in
  if bool_decide (size merged = 0%nat) then fs
  else fold_left (consolidate_source io merged) sources fs.

(** ** The sources of a configuration *)

Definition source_type (st : string) (kv : string * string) : result string :=
  let '(k, raw) := kv in
  if is_field "type" k then
    match decode raw with
    | Some DNull => Ok st
    | Some (DOther (VStr v)) => Ok v
    | _ => Err (type_error k)
    end
  else Ok st.

Definition sources_field (st : gmap string string) (kv : string * string) : result (gmap string string) :=
  let '(k, raw) := kv in
  if is_field "sources" k then
    match decode raw with
    | Some DNull => Ok ∅
    | Some (DObject l) => foldM (λ m '(name, src), t ← decode_struct source_type "" src; Ok (<[name := t]> m)) st l
    | _ => Err (type_error k)
    end
  else Ok st.

Definition KubernetesLogsSources (configJSON : string) : result (list string) :=
  match decode_struct sources_field ∅ configJSON with
  | Err e => Err (ErrWrap "parse config: " e)
  | Ok m => Ok (sort_strings (omap (λ '(name, t), if bool_decide (t = "kubernetes_logs") then Some name else None)
                                (range_map 42 m)))
  end.

(** [run]: whatever goes wrong, the init container does not fail; [config] is the content
    of the configuration file and [listable] whether the data directory can be listed. *)
Definition run_merger (io : io_faults) (config : option string) (listable : bool) (fs : data_dir) : data_dir :=
  match config with
  | None => fs
  | Some c =>
      match KubernetesLogsSources c with
      | Err _ | Ok [] => fs
      | Ok sources => if listable then Consolidate io sources fs else fs
      end
  end.
End consolidate.

(** ** What consolidation guarantees *)

(** An entry some directory holds. *)
Definition known (io : io_faults) (fs : data_dir) (e : entry) : Prop :=
  ∃ name l, read_dir io fs name = Entries l ∧ e ∈ l.

(** The document of Vector's checkpoint file, version 1, with the texts of the entries [es],
    each once and in the order of their fingerprints, white space aside. *)
Definition document_of (es : list entry) (data : string) : Prop :=
  ∃ ordered, ordered ≡ₚ es ∧
    StronglySorted (λ a b, String.ltb (e_fingerprint b) (e_fingerprint a) = false) ordered ∧
    data = js "{'version':'1','checkpoints':[" +:+ join "," ((λ e, json_compact (e_raw e)) <$> ordered) +:+ "]}".

(** A source has the entries [es]: they are what its file is read as, or its file is their
    document and has one entry for a fingerprint. *)
Definition holds (io : io_faults) (fs : data_dir) (src : string) (es : list entry) : Prop :=
  read_dir io fs src = Entries es ∨
  ∃ data, fs !! src = Some (NDir (Some data)) ∧ document_of es data ∧ NoDup (e_fingerprint <$> es).

(** A source that starts from [m] does not read again what [e] is past. *)
Definition covers (m : gmap string entry) (fp : string) (e : entry) : Prop :=
  ∃ e', m !! fp = Some e' ∧ e_position e ≤ e_position e'.

(** No position goes back. *)
Definition advances (m m' : gmap string entry) : Prop := ∀ fp e, m !! fp = Some e → covers m' fp e.

Lemma advances_refl m : advances m m.
Proof. intros fp e He. exists e. auto with lia. Qed.
Lemma covers_advances m m' fp e : advances m m' → covers m fp e → covers m' fp e.
Proof.
  intros Hadv (e1 & He1 & ?). destruct (Hadv _ _ He1) as (e2 & ? & ?). exists e2. split; [done|lia].
Qed.
Lemma advances_trans m1 m2 m3 : advances m1 m2 → advances m2 m3 → advances m1 m3.
Proof. intros H12 H23 fp e He. eapply covers_advances, H12; eauto. Qed.
Lemma advances_insert m fp e :
  (∀ e', m !! fp = Some e' → e_position e' ≤ e_position e) → advances m (<[fp := e]> m).
Proof.
  intros Hle fp' e' He'. destruct (decide (fp = fp')) as [->|].
  - exists e. rewrite lookup_insert_eq. auto.
  - exists e'. rewrite lookup_insert_ne by done. auto with lia.
Qed.
Lemma covers_insert m fp e : covers (<[fp := e]> m) fp e.
Proof. exists e. rewrite lookup_insert_eq. auto with lia. Qed.

(** Every value of [m] is under its own fingerprint and is one of [P]. *)
Definition drawn (P : entry → Prop) (m : gmap string entry) : Prop :=
  ∀ fp e, m !! fp = Some e → e_fingerprint e = fp ∧ P e.

Lemma drawn_insert (P : entry → Prop) m e : drawn P m → P e → drawn P (<[e_fingerprint e := e]> m).
Proof. intros Hm He fp e'. rewrite lookup_insert_Some. intros [[<- <-]|[_ ?]]; [done | by apply Hm]. Qed.

Lemma merge_entry_spec P m e :
  drawn P m → P e →
  drawn P (merge_entry m e) ∧ advances m (merge_entry m e) ∧ covers (merge_entry m e) (e_fingerprint e) e.
Proof.
  intros Hm He. unfold merge_entry. destruct (m !! e_fingerprint e) as [cur|] eqn:Hcur; [case_match|].
  - split_and!; [by apply drawn_insert | apply advances_insert | apply covers_insert].
    intros ? ?. simplify_eq. lia.
  - split_and!; [done | apply advances_refl |]. exists cur. split; [done|lia].
  - split_and!; [by apply drawn_insert | apply advances_insert | apply covers_insert].
    intros ? ?. congruence.
Qed.

Lemma merge_entries_spec P l m :
  drawn P m → (∀ e, e ∈ l → P e) →
  let m' := fold_left merge_entry l m in
  drawn P m' ∧ advances m m' ∧ (∀ e, e ∈ l → covers m' (e_fingerprint e) e).
Proof.
  revert m. induction l as [|e l IH]; simpl; intros m Hm Hl.
  - split_and!; [done | apply advances_refl | set_solver].
  - destruct (merge_entry_spec P m e Hm) as (Hd & Ha & Hc); [set_solver|].
    destruct (IH _ Hd) as (Hd' & Ha' & Hc'); [set_solver|].
    split_and!; [done | by eapply advances_trans |].
    intros e' [->|He']%elem_of_cons; [by eapply covers_advances | by apply Hc'].
Qed.

Lemma merge_dirs_spec io fs names m :
  drawn (known io fs) m →
  let m' := fold_left (merge_dir io fs) names m in
  drawn (known io fs) m' ∧ advances m m' ∧
  (∀ name l e, name ∈ names → read_dir io fs name = Entries l → e ∈ l → covers m' (e_fingerprint e) e).
Proof.
  revert m. induction names as [|name names IH]; simpl; intros m Hm.
  - split_and!; [done | apply advances_refl | set_solver].
  - assert (drawn (known io fs) (merge_dir io fs m name) ∧ advances m (merge_dir io fs m name) ∧
            (∀ l e, read_dir io fs name = Entries l → e ∈ l → covers (merge_dir io fs m name) (e_fingerprint e) e))
      as (Hd & Ha & Hc).
    { unfold merge_dir. destruct (read_dir io fs name) as [| |l] eqn:Hr;
        [split_and!; [done | apply advances_refl | done].. |].
      destruct (merge_entries_spec (known io fs) l m Hm) as (?&?&?); [intros e ?; by exists name, l|].
      split_and!; [done..|]. intros ? e ? He. simplify_eq. auto. }
    destruct (IH _ Hd) as (Hd' & Ha' & Hc').
    split_and!; [done | by eapply advances_trans |].
    intros name' l e [->|Hn]%elem_of_cons Hr He; [|by eapply Hc'].
    eapply covers_advances; [done|]. by eapply Hc.
Qed.

Section consolidate_lemmas.
Context `{GoRuntime}.

Lemma dir_names_spec fs name : name ∈ dir_names fs ↔ ∃ c, fs !! name = Some (NDir c).
Proof.
  unfold dir_names, sort_strings. rewrite sort_slice_elem_of, list_elem_of_In, filter_In, <- list_elem_of_In.
  rewrite list_elem_of_fmap. split.
  - intros [_ Hc]. destruct (fs !! name) as [[|c]|]; [done | by exists c | done].
  - intros [c Hc]. rewrite Hc. split; [|done]. exists (name, NDir c). by rewrite elem_of_map_to_list.
Qed.

(** The union: every known entry is reached, and nothing else is in it. *)
Lemma merge_all_spec io fs :
  drawn (known io fs) (merge_all io fs) ∧
  ∀ e, known io fs e → covers (merge_all io fs) (e_fingerprint e) e.
Proof.
  destruct (merge_dirs_spec io fs (dir_names fs) ∅) as (Hd & _ & Hc); [intros ??; by rewrite lookup_empty|].
  split; [done|]. intros e (name & l & Hr & He). eapply Hc; [|done..].
  apply dir_names_spec. unfold read_dir in Hr. repeat case_match; try done; eauto.
Qed.

(** The loop over the merged entries, in whatever order. *)
Lemma apply_merged_fold (L : list (string * entry)) m n :
  let '(m', n') := fold_left apply_merged L (m, n) in
  advances m m' ∧ (n ≤ n')%nat ∧ (n' = n → m' = m) ∧
  (∀ fp e, (fp, e) ∈ L → covers m' fp e) ∧
  (∀ fp e, m' !! fp = Some e → m !! fp = Some e ∨ (fp, e) ∈ L).
Proof.
  revert m n. induction L as [|[fp e] L IH]; simpl; intros m n.
  - split_and!; [apply advances_refl | done | done | set_solver | auto].
  - assert (∃ m1 n1, apply_merged (m, n) (fp, e) = (m1, n1) ∧ advances m m1 ∧ (n ≤ n1)%nat ∧
              (n1 = n → m1 = m) ∧ covers m1 fp e ∧ (m1 = m ∨ m1 = <[fp := e]> m)) as
      (m1 & n1 & Hst & Ha & Hn & Heq & Hc & Hm1).
    { unfold apply_merged. destruct (m !! fp) as [cur|] eqn:Hcur; [destruct (e_position cur <? e_position e) eqn:?|].
      - do 2 eexists. split; [done|]. split_and!; [apply advances_insert | lia | lia | apply covers_insert | auto].
        intros ? ?. simplify_eq. lia.
      - do 2 eexists. split; [done|]. split_and!; [apply advances_refl | lia | done | | auto].
        exists cur. split; [done|lia].
      - do 2 eexists. split; [done|]. split_and!; [apply advances_insert | lia | lia | apply covers_insert | auto].
        intros ? ?. congruence. }
    unfold apply_merged in Hst. simpl in Hst. rewrite Hst.
    specialize (IH m1 n1). destruct (fold_left apply_merged L (m1, n1)) as [m' n'].
    destruct IH as (Ha' & Hn' & Heq' & Hc' & Hin').
    split_and!; [by eapply advances_trans | lia | | |].
    + intros ->. rewrite Heq', Heq by lia. done.
    + intros fp' e' [[= -> ->]|?]%elem_of_cons; [by eapply covers_advances | by apply Hc'].
    + intros fp' e' [Hl|Hl]%Hin'; [|set_solver].
      destruct Hm1 as [->| ->]; [auto|]. apply lookup_insert_Some in Hl as [[<- <-]|[_ ?]]; [set_solver | auto].
Qed.

Lemma writeCheckpoints_document es : document_of es (writeCheckpoints es).
Proof.
  eexists. split; [apply (sort_slice_perm (λ a b, String.ltb (e_fingerprint a) (e_fingerprint b)))|]. split.
  - apply sort_slice_sorted; [intros ??; apply string_lt_total|].
    intros x y z. apply string_lt_trans.
  - set (entries := join "," ((λ e, json_compact (e_raw e)) <$> sort_slice _ es)).
    transitivity (js "{'version':'1','checkpoints':[" +:+ (entries +:+ "]") +:+ "}"); [reflexivity|].
    exact (f_equal (λ t, js "{'version':'1','checkpoints':[" +:+ t) (str_app_assoc entries "]" "}")).
Qed.

(** What the entries of a file are turned into. *)
Lemma existing_map_spec l (m : gmap string entry) fp e :
  fold_left (λ m e, <[e_fingerprint e := e]> m) l m !! fp = Some e →
  m !! fp = Some e ∨ (e ∈ l ∧ e_fingerprint e = fp).
Proof.
  revert m. induction l as [|e' l IH]; simpl; intros m; [auto|].
  intros [Hm|[? ?]]%IH; [|set_solver].
  apply lookup_insert_Some in Hm as [[? <-]|[_ ?]]; [set_solver | auto].
Qed.

Lemma target_entries_spec (P : entry → Prop) merged existing :
  drawn P merged → (∀ e, e ∈ existing → P e) →
  let '(res, changed) := target_entries merged existing in
  drawn P res ∧
  (∀ fp e, merged !! fp = Some e → covers res fp e) ∧
  (changed = 0%nat → res = by_fingerprint existing ∧ ∀ fp e, res !! fp = Some e → e ∈ existing).
Proof.
  intros Hdrawn Hold. unfold target_entries. set (start := by_fingerprint existing).
  assert (Hstart : ∀ fp e, start !! fp = Some e → e ∈ existing ∧ e_fingerprint e = fp).
  { intros fp e Hs. apply existing_map_spec in Hs as [He|]; [|done]. by rewrite lookup_empty in He. }
  pose proof (apply_merged_fold (range_map 40 merged) start 0) as Hf.
  destruct (fold_left apply_merged _ _) as [res changed]. destruct Hf as (_ & _ & Hsame & Hcov & Hin).
  split_and!.
  - intros fp e [Hs|Hm]%Hin; [|apply range_map_lookup in Hm; by apply Hdrawn].
    destruct (Hstart _ _ Hs). auto.
  - intros fp e He. apply Hcov. by apply range_map_lookup.
  - intros Hch. rewrite Hsame by done. split; [done|]. intros fp e He. by apply (Hstart fp).
Qed.

(** The entries of a target have one fingerprint each. *)
Lemma drawn_fingerprints P res : drawn P res → NoDup (e_fingerprint <$> (range_map 41 res).*2).
Proof.
  intros Hres. replace (e_fingerprint <$> _) with ((range_map 41 res).*1); [apply range_map_keys_NoDup|].
  assert (Hk : ∀ fp e, (fp, e) ∈ range_map 41 res → e_fingerprint e = fp)
    by (intros fp e He%range_map_lookup; by apply Hres).
  induction (range_map 41 res) as [|[fp e] L IH]; [done|].
  rewrite !fmap_cons. cbn [fst snd]. rewrite (Hk fp e) by apply list_elem_of_here.
  f_equal. apply IH. intros ???. by apply Hk, list_elem_of_further.
Qed.

(** One target, when nothing goes wrong with it. *)
Lemma consolidate_source_spec io (P : entry → Prop) merged fs src :
  drawn P merged → merged ≠ ∅ →
  (∀ l e, read_dir io fs src = Entries l → e ∈ l → P e) →
  read_dir io fs src ≠ Unreadable → io_mkdir io src = false → io_write io src = false →
  ∃ es, holds io (consolidate_source io merged fs src) src es ∧
    (∀ e, e ∈ es → P e) ∧
    ∀ fp e, merged !! fp = Some e → ∃ e', e' ∈ es ∧ e_fingerprint e' = fp ∧ e_position e ≤ e_position e'.
Proof.
  intros Hdrawn Hne Hold Hread Hmk Hwr. unfold consolidate_source.
  set (existing := existing_entries (read_dir io fs src)).
  assert (Hex : ∀ e, e ∈ existing → P e).
  { intros e He. subst existing. destruct (read_dir io fs src) as [| |l]; [by apply elem_of_nil in He.. |].
    by apply (Hold l). }
  pose proof (target_entries_spec P merged existing Hdrawn Hex) as Hspec.
  assert (Hone : ∃ es, holds io (let '(res, changed) := target_entries merged existing in
      if bool_decide (changed = 0%nat) then fs
      else <[src := NDir (Some (writeCheckpoints (range_map 41 res).*2))]> fs) src es ∧
    (∀ e, e ∈ es → P e) ∧
    ∀ fp e, merged !! fp = Some e → ∃ e', e' ∈ es ∧ e_fingerprint e' = fp ∧ e_position e ≤ e_position e').
  { destruct (target_entries merged existing) as [res changed]. destruct Hspec as (Hres & Hall & Hsame).
    case_bool_decide as Hch; [destruct (Hsame Hch) as [_ Hin]|].
    - exists existing. split_and!; [left | done |].
      + destruct (map_choose merged Hne) as (fp & e & He). destruct (Hall _ _ He) as (e' & He' & _).
        apply Hin in He'. subst existing.
        by destruct (read_dir io fs src); [apply elem_of_nil in He'.. |].
      + intros fp e (e' & He' & Hle)%Hall. exists e'. split_and!; [by eapply Hin | by eapply Hres | done].
    - exists (range_map 41 res).*2. split_and!.
      + right. eexists. split_and!; [apply lookup_insert_eq | apply writeCheckpoints_document | by eapply drawn_fingerprints].
      + intros e ([fp ?] & -> & He%range_map_lookup)%list_elem_of_fmap. by eapply Hres.
      + intros fp e (e' & He' & Hle)%Hall. exists e'. split_and!; [| by eapply Hres | done].
        apply list_elem_of_fmap. exists (fp, e'). by rewrite range_map_lookup. }
  rewrite Hmk, Hwr. by destruct (read_dir io fs src).
Qed.

(** A directory that is not the target is left alone, and so is a target that cannot be
    read or made. *)
Lemma consolidate_source_other io merged fs src name :
  (name = src → read_dir io fs name = Unreadable ∨ io_mkdir io name = true) →
  consolidate_source io merged fs src !! name = fs !! name.
Proof.
  intros Hname. unfold consolidate_source. destruct (decide (name = src)) as [<-|Hne].
  - destruct (Hname eq_refl) as [-> | Hmk]; [done|].
    destruct (target_entries _ _) as [res changed]. rewrite Hmk.
    by repeat case_match.
  - destruct (target_entries _ _) as [res changed].
    repeat case_match; rewrite ?lookup_insert_ne by done; done.
Qed.

Lemma read_dir_local io fs fs' name : fs !! name = fs' !! name → read_dir io fs name = read_dir io fs' name.
Proof. unfold read_dir. by intros ->. Qed.

Lemma consolidate_fold_other io merged sources fs name :
  (name ∈ sources → read_dir io fs name = Unreadable ∨ io_mkdir io name = true) →
  fold_left (consolidate_source io merged) sources fs !! name = fs !! name.
Proof.
  revert fs. induction sources as [|src sources IH]; simpl; intros fs Hname; [done|].
  assert (Hone : consolidate_source io merged fs src !! name = fs !! name).
  { apply consolidate_source_other. intros ->. apply Hname. set_solver. }
  rewrite IH; [done|]. intros Hin. rewrite (read_dir_local io _ fs _ Hone). apply Hname. set_solver.
Qed.

Lemma holds_local io fs fs' src es : fs !! src = fs' !! src → holds io fs src es → holds io fs' src es.
Proof. unfold holds, read_dir. by intros ->. Qed.

(** [Consolidate] over targets named once. *)
Lemma consolidate_fold_target io (P : entry → Prop) merged sources fs src :
  NoDup sources → src ∈ sources → drawn P merged → merged ≠ ∅ →
  (∀ l e, read_dir io fs src = Entries l → e ∈ l → P e) →
  read_dir io fs src ≠ Unreadable → io_mkdir io src = false → io_write io src = false →
  ∃ es, holds io (fold_left (consolidate_source io merged) sources fs) src es ∧
    (∀ e, e ∈ es → P e) ∧
    ∀ fp e, merged !! fp = Some e → ∃ e', e' ∈ es ∧ e_fingerprint e' = fp ∧ e_position e ≤ e_position e'.
Proof.
  intros Hnd Hin Hdrawn Hne. revert fs. induction Hnd as [|s sources Hs Hnd IH]; simpl; intros fs Hold Hread Hmk Hwr.
  { by apply elem_of_nil in Hin. }
  destruct (decide (s = src)) as [->|Hd].
  - destruct (consolidate_source_spec io P merged fs src) as (es & Hh & Hes); [done..|].
    exists es. split; [|done]. eapply holds_local, Hh. symmetry. apply consolidate_fold_other. done.
  - assert (Hone : consolidate_source io merged fs s !! src = fs !! src).
    { apply consolidate_source_other. by intros ->. }
    pose proof (read_dir_local io _ fs _ Hone) as Hrd. rewrite <- Hrd in Hread.
    apply IH; [set_solver | | done..]. intros l e. rewrite Hrd. apply Hold.
Qed.

(** The sources of a configuration are named once. *)
Lemma kubernetes_logs_sources_once config sources :
  KubernetesLogsSources config = Ok sources → NoDup sources.
Proof.
  unfold KubernetesLogsSources. destruct (decode_struct _ _ _) as [m|]; [|done]. intros [= <-].
  unfold sort_strings. rewrite sort_slice_perm. generalize (range_map_keys_NoDup 42 m).
  generalize (range_map 42 m) as l. induction l as [|[name t] l IH]; [constructor|].
  intros [Hn Hl]%NoDup_cons. simpl. case_bool_decide; [|by apply IH]. constructor; [|by apply IH].
  intros ([n t'] & Hin & Heq)%list_elem_of_omap. apply Hn. case_bool_decide; simplify_eq.
  apply list_elem_of_fmap. by eexists (name, _).
Qed.

(** *** Consolidating twice *)

(** What a target file is written with. *)
Definition written (io : io_faults) (fs : data_dir) (src : string) : list entry :=
  (range_map 41 (target_entries (merge_all io fs) (existing_entries (read_dir io fs src))).1).*2.

Definition mark (e : entry) : string * Z := (e_fingerprint e, e_position e).

(** The document written for [es] gives the same positions when it is read. *)
Definition reads_back (es : list entry) : Prop :=
  ∃ es', readCheckpoints (writeCheckpoints es) = Ok es' ∧ (mark <$> es') ≡ₚ (mark <$> es).

Lemma by_fingerprint_lookup l (m : gmap string entry) e :
  NoDup (e_fingerprint <$> l) → e ∈ l →
  fold_left (λ m e, <[e_fingerprint e := e]> m) l m !! e_fingerprint e = Some e.
Proof.
  revert m. induction l as [|e' l IH]; intros m Hd Hin; [by apply elem_of_nil in Hin|].
  rewrite fmap_cons in Hd. apply NoDup_cons in Hd as [Hn Hnd]. simpl.
  apply elem_of_cons in Hin as [->|Hin]; [|by apply IH].
  assert (Hkeep : ∀ m' : gmap string entry, m' !! e_fingerprint e' = Some e' →
    fold_left (λ m e, <[e_fingerprint e := e]> m) l m' !! e_fingerprint e' = Some e').
  { clear IH Hnd. induction l as [|e'' l IH]; simpl; intros m' Hm'; [done|].
    rewrite fmap_cons in Hn. apply not_elem_of_cons in Hn as [? ?].
    apply IH; [done|]. by rewrite lookup_insert_ne by done. }
  apply Hkeep, lookup_insert_eq.
Qed.

(** Nothing above what the target has changes it. *)
Lemma target_unchanged M existing :
  (∀ fp e, M !! fp = Some e → covers (by_fingerprint existing) fp e) →
  (target_entries M existing).2 = 0%nat.
Proof.
  intros Hcov. unfold target_entries.
  assert (HL : ∀ fp e, (fp, e) ∈ range_map 40 M → covers (by_fingerprint existing) fp e)
    by (intros fp e He%range_map_lookup; auto).
  induction (range_map 40 M) as [|[fp e] L IH]; [done|]. simpl.
  destruct (HL fp e) as (cur & -> & Hle); [set_solver|].
  rewrite (proj2 (Z.ltb_ge _ _) Hle). apply IH. set_solver.
Qed.

(** A target that a union up to [K] leaves as it is. *)
Definition settled (io : io_faults) (K : gmap string entry) (fs : data_dir) (src : string) : Prop :=
  ∀ M, (∀ fp e, M !! fp = Some e → covers K fp e) →
  consolidate_source io M fs src = fs.

(** The three ways a target comes to rest. *)
Lemma settled_unreadable io K fs src : read_dir io fs src = Unreadable → settled io K fs src.
Proof. intros Hr M _. unfold consolidate_source. by rewrite Hr. Qed.

Lemma settled_faulty io K fs src :
  io_mkdir io src = true ∨ (io_write io src = true ∧ is_Some (fs !! src)) → settled io K fs src.
Proof.
  intros Hf M _. unfold consolidate_source. destruct (read_dir io fs src); try done.
  all: destruct (target_entries _ _); case_bool_decide; [done|].
  all: destruct Hf as [->|[-> [? ->]]]; [done | by destruct (io_mkdir io src)].
Qed.

Lemma settled_covering io K fs src :
  (∀ fp e, K !! fp = Some e → covers (by_fingerprint (existing_entries (read_dir io fs src))) fp e) →
  settled io K fs src.
Proof.
  intros Hcov M HM. unfold consolidate_source.
  assert (Hz : (target_entries M (existing_entries (read_dir io fs src))).2 = 0%nat).
  { apply target_unchanged. intros fp e (e1 & He1 & Hle1)%HM. destruct (Hcov _ _ He1) as (e2 & He2 & Hle2).
    exists e2. split; [done|lia]. }
  destruct (read_dir io fs src); try done; destruct (target_entries _ _); simpl in Hz; by rewrite Hz.
Qed.

Lemma consolidate_source_eq io M fs src :
  read_dir io fs src ≠ Unreadable →
  consolidate_source io M fs src =
    let '(res, changed) := target_entries M (existing_entries (read_dir io fs src)) in
    if bool_decide (changed = 0%nat) then fs
    else if io_mkdir io src then fs
    else if io_write io src then
      match fs !! src with Some _ => fs | None => <[src := NDir None]> fs end
    else <[src := NDir (Some (writeCheckpoints (range_map 41 res).*2))]> fs.
Proof. unfold consolidate_source. by destruct (read_dir io fs src). Qed.

Lemma read_dir_file_fault io fs src data :
  fs !! src = Some (NDir (Some data)) → io_read io src = true → read_dir io fs src = Unreadable.
Proof. unfold read_dir. by intros -> ->. Qed.

Lemma read_dir_file io fs src data l :
  fs !! src = Some (NDir (Some data)) → io_read io src = false → readCheckpoints data = Ok l →
  read_dir io fs src = Entries l.
Proof. unfold read_dir. by intros -> -> ->. Qed.

Lemma fmap_fingerprint es : e_fingerprint <$> es = (mark <$> es).*1.
Proof. induction es as [|e es IH]; [done|]. rewrite !fmap_cons. by rewrite IH. Qed.

(** Entries with the marks of a map give its positions. *)
Lemma marks_perm_lookup es' res fp e :
  drawn (λ _, True) res → (mark <$> es') ≡ₚ (mark <$> (range_map 41 res).*2) → res !! fp = Some e →
  ∃ e', by_fingerprint es' !! fp = Some e' ∧ e_position e' = e_position e.
Proof.
  intros Hres Hperm He. destruct (Hres _ _ He) as [<- _].
  assert (Hm : mark e ∈ mark <$> es').
  { rewrite Hperm. apply list_elem_of_fmap_2, list_elem_of_fmap.
    exists (e_fingerprint e, e). by rewrite range_map_lookup. }
  apply list_elem_of_fmap in Hm as (e' & Hmark & He'). unfold mark in Hmark. injection Hmark as Hf Hp.
  exists e'. split; [|done]. rewrite Hf. apply by_fingerprint_lookup; [|done].
  rewrite fmap_fingerprint, Hperm, <- fmap_fingerprint. by eapply drawn_fingerprints.
Qed.

(** A file that reads back as what it was written with is at rest. *)
Lemma settled_written io K fs src res :
  drawn (λ _, True) res → (∀ fp e, K !! fp = Some e → covers res fp e) →
  reads_back (range_map 41 res).*2 →
  fs !! src = Some (NDir (Some (writeCheckpoints (range_map 41 res).*2))) →
  settled io K fs src.
Proof.
  intros Hres Hall (es' & Hes' & Hback) Hfile.
  destruct (io_read io src) eqn:Hrd.
  { apply settled_unreadable. exact (read_dir_file_fault io fs src _ Hfile Hrd). }
  apply settled_covering. intros fp e (e1 & He1 & Hle1)%Hall.
  rewrite (read_dir_file io fs src _ es' Hfile Hrd Hes'). cbn [existing_entries].
  destruct (marks_perm_lookup es' res fp e1) as (e2 & He2 & Hp2); [exact Hres | exact Hback | exact He1 |].
  exists e2. split; [exact He2|lia].
Qed.

(** The first run puts a target to rest. *)
Lemma consolidate_source_settles io fs src :
  reads_back (written io fs src) →
  settled io (merge_all io fs) (consolidate_source io (merge_all io fs) fs src) src.
Proof.
  intros Hback. destruct (merge_all_spec io fs) as [Hdrawn _].
  pose proof (target_entries_spec (λ _, True) (merge_all io fs) (existing_entries (read_dir io fs src))) as Hspec.
  unfold written in Hback. set (fs1 := consolidate_source io (merge_all io fs) fs src).
  assert (read_dir io fs src = Unreadable ∨ read_dir io fs src ≠ Unreadable) as [Hu|Hu]
    by (destruct (read_dir io fs src); auto).
  { subst fs1. unfold consolidate_source. rewrite Hu. by apply settled_unreadable. }
  pose proof (consolidate_source_eq io (merge_all io fs) fs src Hu) as Hfs2. fold fs1 in Hfs2.
  destruct (target_entries (merge_all io fs) _) as [res changed].
  destruct Hspec as (Hres & Hall & Hsame); [intros ? ? ?%Hdrawn; naive_solver | done |].
  case_bool_decide as Hch.
  { rewrite Hfs2. apply settled_covering. by destruct (Hsame Hch) as [<- _]. }
  destruct (io_mkdir io src) eqn:Hmk; [apply settled_faulty; by left|].
  destruct (io_write io src) eqn:Hwr.
  { apply settled_faulty. right. split; [done|]. rewrite Hfs2.
    destruct (fs !! src) eqn:Hs; [by eexists | rewrite lookup_insert_eq; by eexists]. }
  eapply settled_written; [exact Hres | exact Hall | exact Hback |].
  rewrite Hfs2. apply lookup_insert_eq.
Qed.

Lemma consolidate_source_local io M fs fs' src :
  fs !! src = fs' !! src →
  consolidate_source io M fs src !! src = consolidate_source io M fs' src !! src.
Proof.
  intros Hl. unfold consolidate_source. rewrite (read_dir_local io fs fs' src Hl).
  destruct (read_dir io fs' src) as [| |l]; [|exact Hl|].
  all: destruct (target_entries M _) as [res changed]; case_bool_decide; [exact Hl|].
  all: destruct (io_mkdir io src); [exact Hl|]; destruct (io_write io src); [|by rewrite !lookup_insert_eq].
  all: rewrite Hl; destruct (fs' !! src) eqn:Hs; by rewrite ?lookup_insert_eq, ?Hl, ?Hs.
Qed.

Lemma settled_local io K fs fs' src : fs !! src = fs' !! src → settled io K fs src → settled io K fs' src.
Proof.
  intros Hl Hs M HM. apply map_eq. intros name. destruct (decide (name = src)) as [->|Hne].
  - by rewrite <- (consolidate_source_local io M fs fs' src Hl), Hs.
  - by apply consolidate_source_other.
Qed.

Lemma settled_fold io K M fs sources :
  (∀ src, src ∈ sources → settled io K fs src) → (∀ fp e, M !! fp = Some e → covers K fp e) →
  fold_left (consolidate_source io M) sources fs = fs.
Proof.
  intros Hs HM. induction sources as [|src sources IH]; simpl; [done|].
  rewrite (Hs src) by (done || set_solver). apply IH. set_solver.
Qed.

(** What is left of a target after the whole run: what its own turn made of it. *)
Lemma consolidate_fold_at io M sources fs src :
  NoDup sources → src ∈ sources →
  fold_left (consolidate_source io M) sources fs !! src = consolidate_source io M fs src !! src.
Proof.
  intros Hnd. revert fs. induction Hnd as [|s sources Hs Hnd IH]; intros fs Hin; [by apply elem_of_nil in Hin|].
  simpl. destruct (decide (s = src)) as [->|Hd].
  - rewrite consolidate_fold_other; [done|]. by intros ?%Hs.
  - rewrite IH by set_solver. apply consolidate_source_local.
    apply consolidate_source_other. by intros ->.
Qed.

(** Nothing a target holds afterwards is past the union. *)
Lemma consolidated_below io fs src l e :
  reads_back (written io fs src) →
  read_dir io (consolidate_source io (merge_all io fs) fs src) src = Entries l → e ∈ l →
  covers (merge_all io fs) (e_fingerprint e) e.
Proof.
  intros Hback Hread He. destruct (merge_all_spec io fs) as [Hdrawn Hknown].
  set (P := λ e, covers (merge_all io fs) (e_fingerprint e) e).
  assert (Hsame : read_dir io fs src = Entries l → covers (merge_all io fs) (e_fingerprint e) e)
    by (intros ?; apply Hknown; by exists src, l).
  assert (read_dir io fs src = Unreadable ∨ read_dir io fs src ≠ Unreadable) as [Hu|Hu]
    by (destruct (read_dir io fs src); auto).
  { apply Hsame. unfold consolidate_source in Hread. by rewrite Hu in Hread. }
  pose proof (target_entries_spec P (merge_all io fs) (existing_entries (read_dir io fs src))) as Hspec.
  rewrite consolidate_source_eq in Hread by done. destruct Hback as (es' & Hes' & Hperm). unfold written in *.
  destruct (target_entries _ _) as [res changed]. cbn [fst] in *. destruct Hspec as (Hres & _ & _).
  { intros fp e' Hm. destruct (Hdrawn _ _ Hm) as [<- _]. split; [done|]. exists e'. split; [done|lia]. }
  { intros e' He'. apply Hknown. destruct (read_dir io fs src) as [| |l'] eqn:Hr; [by apply elem_of_nil in He'.. |].
    by exists src, l'. }
  case_bool_decide; [by apply Hsame|]. destruct (io_mkdir io src); [by apply Hsame|]. destruct (io_write io src).
  - destruct (fs !! src) eqn:Hs; [by apply Hsame|].
    unfold read_dir in Hread. by rewrite lookup_insert_eq in Hread.
  - destruct (io_read io src) eqn:Hrd.
    { rewrite (read_dir_file_fault io _ src (writeCheckpoints (range_map 41 res).*2)) in Hread;
        [discriminate Hread | apply lookup_insert_eq | exact Hrd]. }
    rewrite (read_dir_file io _ src (writeCheckpoints (range_map 41 res).*2) es') in Hread; [|apply lookup_insert_eq | exact Hrd | exact Hes'].
    injection Hread as <-. assert (Hm : mark e ∈ mark <$> es') by by apply list_elem_of_fmap_2.
    rewrite Hperm in Hm. apply list_elem_of_fmap in Hm as (e' & Hmark & He').
    injection Hmark as Hf Hp. apply list_elem_of_fmap in He' as ([fp ?] & -> & Hin%range_map_lookup).
    destruct (Hres _ _ Hin) as [_ (e2 & ? & ?)]. cbn [snd] in *. rewrite Hf. exists e2. split; [done|lia].
Qed.

Lemma consolidate_twice io sources fs :
  NoDup sources → (∀ src, src ∈ sources → reads_back (written io fs src)) →
  Consolidate io sources (Consolidate io sources fs) = Consolidate io sources fs.
Proof.
  intros Hnd Hback. unfold Consolidate at 2 3. case_bool_decide as Hz.
  { unfold Consolidate. by rewrite bool_decide_true by done. }
  set (fs' := fold_left _ sources fs). unfold Consolidate. case_bool_decide; [done|].
  apply (settled_fold io (merge_all io fs)).
  - intros src Hin. eapply settled_local; [|by apply consolidate_source_settles, Hback].
    symmetry. by apply consolidate_fold_at.
  - intros fp e Hm. destruct (merge_all_spec io fs') as [Hdrawn _].
    destruct (Hdrawn _ _ Hm) as [<- (name & l & Hread & He)].
    destruct (decide (name ∈ sources)) as [Hin|Hin].
    + rewrite (read_dir_local io fs' _ name (consolidate_fold_at io _ sources fs name Hnd Hin)) in Hread.
      by eapply consolidated_below; [apply Hback | |].
    + rewrite (read_dir_local io fs' fs name) in Hread by by apply consolidate_fold_other.
      apply merge_all_spec. by exists name, l.
Qed.
End consolidate_lemmas.

(** ** Properties of the init container *)

Section run_properties.
Context `{GoRuntime}.

(** C10: When the names of an agent's sources change (the optimiser switched on or off), no
    source starts over: after the init container, every [kubernetes_logs] source of the
    configuration whose directory can be read and written holds, for every file whose position
    any directory knew, a position at least as far; and every entry it holds is one that some
    directory held, so no position is made up. What it holds is what its file is read as, or
    the file is the version 1 document of these entries, each there once and in the order of
    the fingerprints. *)
Theorem merger_resumes (io : io_faults) (fs : data_dir) (config src : string) (sources : list string)
    (Hsources : KubernetesLogsSources config = Ok sources) (Hin : src ∈ sources)
    (Hread : read_dir io fs src ≠ Unreadable)
    (Hmk : io_mkdir io src = false) (Hwr : io_write io src = false)
    (Hsome : ∃ e, known io fs e) :
  ∃ es, holds io (run_merger io (Some config) true fs) src es ∧
    (∀ e, known io fs e → ∃ e', e' ∈ es ∧ e_fingerprint e' = e_fingerprint e ∧ e_position e ≤ e_position e') ∧
    (∀ e, e ∈ es → known io fs e).
Proof.
  destruct (merge_all_spec io fs) as [Hdrawn Hknown].
  assert (Hne : merge_all io fs ≠ ∅).
  { destruct Hsome as [e (e' & He' & _)%Hknown]. intros Hz. by rewrite Hz, lookup_empty in He'. }
  assert (Hrun : run_merger io (Some config) true fs = fold_left (consolidate_source io (merge_all io fs)) sources fs).
  { unfold run_merger. rewrite Hsources. destruct sources; [done|]. unfold Consolidate.
    by rewrite bool_decide_false by by rewrite map_size_empty_iff. }
  rewrite Hrun.
  destruct (consolidate_fold_target io (known io fs) (merge_all io fs) sources fs src) as (es & Hh & Hes & Hcov);
    try done; [by eapply kubernetes_logs_sources_once | intros l e ??; by exists src, l |].
  exists es. split; [exact Hh|]. split; [|exact Hes].
  intros e (e1 & He1 & Hle1)%Hknown. destruct (Hcov _ _ He1) as (e2 & Hin2 & Hf2 & Hle2).
  exists e2. split; [done|]. split; [done|lia].
Qed.

(** The init container can do no harm: a directory that is not a [kubernetes_logs] source of
    the configuration, one whose checkpoints it does not understand, and every directory when
    the configuration cannot be read or parsed or the data directory cannot be listed, keep
    what they had; and nothing that was there is gone. *)
Lemma merger_spares (io : io_faults) (fs : data_dir) (config : option string) (listable : bool) (name : string) :
  ((∀ c sources, config = Some c → KubernetesLogsSources c = Ok sources → name ∈ sources → listable = true →
     read_dir io fs name = Unreadable ∨ io_mkdir io name = true) →
   run_merger io config listable fs !! name = fs !! name) ∧
  (is_Some (fs !! name) → is_Some (run_merger io config listable fs !! name)).
Proof.
  assert (Hkeep : ∀ M sources fs0, is_Some (fs0 !! name) → is_Some (fold_left (consolidate_source io M) sources fs0 !! name)).
  { intros M sources. induction sources as [|src sources IH]; intros fs0 Hs; [done|]. simpl. apply IH.
    unfold consolidate_source. destruct (target_entries _ _).
    repeat case_match; try done; by apply lookup_insert_is_Some'; right. }
  unfold run_merger. destruct config as [c|]; [|done].
  destruct (KubernetesLogsSources c) as [[|s sources]|] eqn:Hs; [done | | done].
  destruct listable; [|done]. unfold Consolidate. case_bool_decide; [done|]. split; [|apply Hkeep].
  intros Hname. apply consolidate_fold_other. intros Hin. by eapply Hname.
Qed.

(** A second run changes nothing: an agent Pod that restarts finds its checkpoints as the
    first run left them, provided the entries written are read back as they were (an entry
    whose fingerprint has characters that [json.Marshal] escapes is not). *)
Lemma merger_idempotent (io : io_faults) (fs : data_dir) (config : string)
    (Hback : ∀ sources src, KubernetesLogsSources config = Ok sources → src ∈ sources →
       reads_back (written io fs src)) :
  let fs' := run_merger io (Some config) true fs in
  run_merger io (Some config) true fs' = fs'.
Proof.
  unfold run_merger. destruct (KubernetesLogsSources config) as [[|s sources]|] eqn:Hs; [done| |done].
  apply consolidate_twice; [by eapply kubernetes_logs_sources_once|]. intros src. by apply Hback.
Qed.
End run_properties.

(** ** A rename: the optimiser is switched on, its directory survived an earlier run *)

Definition no_faults : io_faults :=
  {| io_read := λ _, false; io_mkdir := λ _, false; io_write := λ _, false |}.

Definition sample_agent_config : string :=
  js "{'sources':{'optimized-1':{'type':'kubernetes_logs'},'host':{'type':'journald'}}}".

Definition sample_data : data_dir :=
  {[ "ns-a-logs" := NDir (Some (js "{'version':'1','checkpoints':[{'fingerprint':{'first_lines_checksum':11},'position':100,'modified':'x'},{'fingerprint':{'first_lines_checksum':22},'position':200}]}"));
     "optimized-1" := NDir (Some (js "{'version':'1', 'checkpoints': [ {'fingerprint': {'first_lines_checksum': 11}, 'position': 7} ]}"));
     "future" := NDir (Some (js "{'version':'2','checkpoints':[{'fingerprint':{'first_lines_checksum':22},'position':900}]}"));
     "vector.lock" := NFile ]}.

Definition sample_merged : data_dir := @run_merger stable_runtime no_faults (Some sample_agent_config) true sample_data.

Example sample_merged_positions :
  match read_dir no_faults sample_merged "optimized-1" with Entries l => mark <$> l | _ => [] end =
    [(js "{'first_lines_checksum':11}", 100); (js "{'first_lines_checksum':22}", 200)].
Proof. vm_compute. reflexivity. Qed.

#[local] Existing Instance stable_runtime.

(** The entry the former source is ahead with. *)
Definition sample_ahead : entry :=
  {| e_raw := js "{'fingerprint':{'first_lines_checksum':11},'position':100,'modified':'x'}";
     e_fingerprint := js "{'first_lines_checksum':11}"; e_position := 100 |}.

Lemma sample_sources : KubernetesLogsSources sample_agent_config = Ok ["optimized-1"].
Proof. vm_compute. reflexivity. Qed.

Lemma sample_known : known no_faults sample_data sample_ahead.
Proof.
  exists "ns-a-logs". eexists. split; [vm_compute; reflexivity|]. apply list_elem_of_here.
Qed.

Lemma sample_readable : read_dir no_faults sample_data "optimized-1" ≠ Unreadable.
Proof. intros Hr. vm_compute in Hr. discriminate Hr. Qed.

Lemma merger_resumes_witness :
  (∃ es, holds no_faults sample_merged "optimized-1" es ∧
    (∀ e, known no_faults sample_data e →
       ∃ e', e' ∈ es ∧ e_fingerprint e' = e_fingerprint e ∧ e_position e ≤ e_position e') ∧
    (∀ e, e ∈ es → known no_faults sample_data e)) ∧
  match read_dir no_faults sample_merged "optimized-1" with Entries l => mark <$> l | _ => [] end =
    [(js "{'first_lines_checksum':11}", 100); (js "{'first_lines_checksum':22}", 200)].
Proof.
  split; [|vm_compute; reflexivity].
  exact (merger_resumes no_faults sample_data sample_agent_config "optimized-1" ["optimized-1"]
    sample_sources (list_elem_of_here _ _) sample_readable eq_refl eq_refl (ex_intro _ sample_ahead sample_known)).
Defined.

Lemma merged_reads_back : reads_back (written no_faults sample_data "optimized-1").
Proof.
  eexists. split; [vm_compute; reflexivity|]. vm_compute. reflexivity.
Qed.

Lemma merger_idempotent_witness :
  run_merger no_faults (Some sample_agent_config) true sample_merged = sample_merged.
Proof.
  apply (merger_idempotent no_faults sample_data sample_agent_config).
  intros sources src Hs Hin. rewrite sample_sources in Hs. injection Hs as <-.
  apply list_elem_of_singleton in Hin as ->. exact merged_reads_back.
Defined.
