(* ===== verification/Races.v ===== *)
(** * Verdicts that meet

    Two kinds of rounds write the status of a pipeline: its own
    ([src/internal/controller/pipeline_controller.go]) and those of the workloads that leave it
    out or take it back ([src/internal/controller/secrets.go]). A round of a pipeline holds the
    resource from its read until after the checks, and [PatchStatus] sends merge patches
    without a precondition, so a verdict can be written over another that the writer never
    saw. Stated here: which verdicts are lost then, and what becomes of the pipeline. *)

From S2P Require Import Round VectorSafety.
From S2P Require Export PipelineSafety.

Section verdicts.
Context `{GoRuntime, Libraries, KubeApi}.

(** What is stored for a pipeline. *)
Definition stored (k : bool * NamespacedName) (w : world) : option Pipeline := w_pipelines w !! k.

Lemma IsValid_verdict p b : GetConfigCheckResult p = Some b → IsValid p = b.
Proof. unfold IsValid, GetConfigCheckResult. by intros ->. Qed.

(** A status write over whatever is stored. *)
Lemma patch_over sp q c tr c' :
  stored (pipe_key (sp_obj sp)) (seen c) = Some q → PatchStatus sp c = (tr, c', Ok tt) →
  stored (pipe_key (sp_obj sp)) (seen c') =
    Some (with_status (merge_status (p_status (sp_base sp)) (p_status (sp_obj sp))) q).
Proof.
  unfold stored, PatchStatus. intros Hq. pose proof (api_patch_pipeline_spec sp c) as Hs.
  destruct (api_patch_pipeline sp c) as [[[]|e] c1]; [|done]. intros [= _ <-]. rewrite Hs. simpl.
  by rewrite lookup_alter_eq, Hq.
Qed.

(** A write that returned sent its patch. *)
Lemma write_run (s : result StatusPatch) c tr c' :
  (sp ← k_lift s; PatchStatus sp) c = (tr, c', Ok tt) → ∃ sp, s = Ok sp ∧ PatchStatus sp c = (tr, c', Ok tt).
Proof.
  unfold mbind, K_bind, k_bind, k_lift. destruct s as [sp|e]; [|done].
  destruct (PatchStatus sp c) as [[tr1 c1] r1] eqn:Hrun. intros [= <- <- ->]. by exists sp.
Qed.

(** C7: what a status write leaves, whatever was written to the pipeline since the writer
    read it ([base] as it was read, [q] as it is stored): the spec and the labels are not
    touched; a verdict is lost exactly when the pipeline already had it when it was read and
    somebody has stored the opposite since; a success always clears the reason, also when
    its verdict is lost, and a failure leaves its reason unless the same was there when it
    was read, also over a verdict that stays valid. *)
Theorem verdict_lost_iff p base q c tr c' :
  stored (pipe_key p) (seen c) = Some q →
  (pipeline_SetSuccessStatus p base c = (tr, c', Ok tt) →
   ∃ q', stored (pipe_key p) (seen c') = Some q' ∧ q' = with_status (λ _, p_status q') q ∧
     (IsValid q' = false ↔ GetConfigCheckResult base = Some true ∧ IsValid q = false) ∧
     GetReason q' = None) ∧
  (∀ reason, pipeline_SetFailedStatus p reason base c = (tr, c', Ok tt) →
   ∃ q', stored (pipe_key p) (seen c') = Some q' ∧ q' = with_status (λ _, p_status q') q ∧
     (IsValid q' = true ↔ GetConfigCheckResult base = Some false ∧ IsValid q = true) ∧
     GetReason q' = if decide (GetReason base = Some reason) then GetReason q else Some reason).
Proof.
  intros Hq. split.
  - intros (sp & (h & _ & Hb & Ho)%SetSuccessStatus_Ok & Hp)%write_run.
    apply (patch_over _ q) in Hp; [|by rewrite Ho]. rewrite Ho, Hb in Hp.
    eexists. split; [exact Hp|]. split; [done|]. unfold IsValid, GetReason, GetConfigCheckResult. simpl.
    unfold merge_field. split; [|done]. case_decide as Hd; [rewrite <- Hd; naive_solver | naive_solver].
  - intros reason (sp & (h & _ & Hb & Ho)%SetFailedStatus_Ok & Hp)%write_run.
    apply (patch_over _ q) in Hp; [|by rewrite Ho]. rewrite Ho, Hb in Hp.
    eexists. split; [exact Hp|]. split; [done|]. unfold IsValid, GetReason, GetConfigCheckResult. simpl.
    unfold merge_field. split; [case_decide as Hd; [rewrite <- Hd; naive_solver | naive_solver]|].
    repeat case_decide; congruence.
Qed.

(** ** A round that read another verdict *)

Context (Version : string) (marshal : VectorConfig → result string).
Context (r : PipelineReconciler) (inp : pipeline_inputs).

Definition verdict_is (k : bool * NamespacedName) (b : bool) (w : world) : Prop :=
  ∃ q, stored k w = Some q ∧ GetConfigCheckResult q = Some b.

(** One of the round's writes: [p] is the pipeline as read, [v] the verdict written. *)
Lemma stale_patch (p obj base : Pipeline) b v (Q : unit → world → Prop) k :
  GetConfigCheckResult p = Some b → GetConfigCheckResult base = Some b → GetConfigCheckResult obj = Some v →
  pipe_key obj = k →
  (∀ w q, stored k w = Some q →
     let q' := with_status (merge_status (p_status base) (p_status obj)) q in
     stored k (set_pipelines (alter (with_status (merge_status (p_status base) (p_status obj))) k) w) = Some q' →
     Q tt (set_pipelines (alter (with_status (merge_status (p_status base) (p_status obj))) k) w)) →
  triple (verdict_is k (negb b)) (λ _, True) (PatchStatus {| sp_obj := obj; sp_base := base |}) Q.
Proof.
  intros Hp Hb Hv Hk HQ. apply triple_patch. intros w (q & Hq & Hv') _. cbn [sp_obj sp_base]. rewrite Hk.
  assert (Hs : stored k (set_pipelines (alter (with_status (merge_status (p_status base) (p_status obj))) k) w) =
    Some (with_status (merge_status (p_status base) (p_status obj)) q)).
  { unfold stored in *. simpl. by rewrite lookup_alter_eq, Hq. }
  split; [|by eapply HQ]. eexists. split; [exact Hs|].
  unfold GetConfigCheckResult in *. simpl. unfold merge_field. rewrite Hb, Hv, Hv'. case_decide as Hd; [done|].
  destruct b, v; simpl in *; congruence.
Qed.

Lemma stale_failed (p pp : Pipeline) b reason :
  GetConfigCheckResult p = Some b → pipe_key pp = pipe_key p →
  triple (verdict_is (pipe_key p) (negb b)) (λ _, True) (pipeline_SetFailedStatus pp reason p) (λ _ _, True).
Proof.
  intros Hp Hk. unfold pipeline_SetFailedStatus.
  eapply triple_bind with (R := λ sp _, True ∧ SetFailedStatus pp reason p = Ok sp); [by apply triple_lift|].
  intros [obj base]. apply (triple_pure _ (λ _, True)). intros (h & _ & Hb & Ho)%SetFailedStatus_Ok.
  cbn [sp_obj sp_base] in *. subst base obj. by eapply stale_patch.
Qed.

Lemma stale_success (p pp : Pipeline) b :
  GetConfigCheckResult p = Some b → pipe_key pp = pipe_key p →
  triple (verdict_is (pipe_key p) (negb b)) (λ _, True) (pipeline_SetSuccessStatus pp p)
    (λ _ w, ∃ q, stored (pipe_key p) w = Some q ∧ GetReason q = None).
Proof.
  intros Hp Hk. unfold pipeline_SetSuccessStatus.
  eapply triple_bind with (R := λ sp _, True ∧ SetSuccessStatus pp p = Ok sp); [by apply triple_lift|].
  intros [obj base]. apply (triple_pure _ (λ _, True)). intros (h & _ & Hb & Ho)%SetSuccessStatus_Ok.
  cbn [sp_obj sp_base] in *. subst base obj. eapply stale_patch; [done..|].
  intros w q _ q' Hq'. by exists q'.
Qed.

(** The writes of a round are over the pipeline as it was read; all else leaves the
    pipelines alone. *)
Lemma triple_stale_round req p b :
  getPipeline req (pi_get inp) = Ok (Some p) → GetConfigCheckResult p = Some b →
  triple (verdict_is (pipe_key p) (negb b)) (λ _, True) (pipeline_reconcile Version marshal r inp req)
    (λ o w, po_notified o ≠ [] → ∃ q, stored (pipe_key p) w = Some q ∧ GetReason q = None).
Proof.
  intros Hget Hb. set (Q := λ (o : pipeline_outcome) w, po_notified o ≠ [] → ∃ q, stored (pipe_key p) w = Some q ∧ GetReason q = None).
  set (I := verdict_is (pipe_key p) (negb b)).
  assert (Hidle : ∀ o P, po_notified o = [] → triple I P (mret o) Q).
  { intros o P Ho. apply triple_ret. intros w _ _ Hn. by rewrite Ho in Hn. }
  assert (Hfail : ∀ pp reason o, po_notified o = [] → pipe_key pp = pipe_key p →
    triple I (λ _, True) (pipeline_SetFailedStatus pp reason p ≫= λ _, mret o) Q).
  { intros pp reason o Ho Hk. eapply triple_bind; [by apply stale_failed|]. intros []. by apply Hidle. }
  unfold pipeline_reconcile. rewrite Hget.
  eapply triple_bind with (R := λ a _, True ∧ a = Some p); [apply triple_lift; by intros a w [= ->] _ _|].
  intros a. apply (triple_pure _ (λ _, True)). intros ->.
  destruct (related_round (pi_reader inp) p).2 as [token|e]; [|by apply Hfail].
  destruct (list_workloads inp) as [ws|]; [|by apply Hidle].
  case_bool_decide; [by apply Hidle|].
  eapply triple_bind with (R := λ _ _, True); [by apply triple_lift|]. intros []; [by apply Hidle|].
  unfold judge. destruct (UnmarshalJson _) as [cfg|e].
  2: { eapply triple_bind; [apply triple_wrap; by apply stale_failed|]. intros []. by apply Hidle. }
  destruct (VectorRole cfg) as [role|e]; [|by apply Hfail].
  eapply triple_bind with (R := λ _ _, True).
  { eapply triple_post; [|apply (quiet_frame w_pipelines
      (λ x, ∃ q, x !! pipe_key p = Some q ∧ GetConfigCheckResult q = Some (negb b)) (λ _, True));
      intros x; apply quiet_eg_wait with (P := λ _, True); intros w _; eapply quiet_post; [|apply quiet_check_workload_pipes]; done].
    done. }
  intros [e|].
  - unfold reject. destruct (errors_as _ e); by apply Hfail.
  - eapply triple_bind; [by apply stale_success|]. intros []. apply triple_ret. by intros w _ Hw _.
Qed.

(** C6: a round cannot overturn what it did not see. If the stored verdict on a pipeline is
    the opposite of the one its round read (a workload took it back or left it out in the
    meantime), the stored verdict stays as it is in every world the round passes through,
    whatever the checks say; and a round that accepted the pipeline and woke the workloads
    up leaves no reason with it, so if the workload's verdict was to leave the pipeline out,
    then no listing takes the pipeline up again: it is neither valid nor to be retried. *)
Theorem stale_round_powerless req p q b c :
  getPipeline req (pi_get inp) = Ok (Some p) → GetConfigCheckResult p = Some b →
  stored (pipe_key p) (seen c) = Some q → GetConfigCheckResult q = Some (negb b) →
  let '(tr, c', res) := pipeline_reconcile Version marshal r inp req c in
  Forall (verdict_is (pipe_key p) (negb b)) tr ∧
  (∀ o, res = Ok o → po_notified o ≠ [] → b = true →
     ∃ q', stored (pipe_key p) (seen c') = Some q' ∧ pool_of [q'] = []).
Proof.
  intros Hget Hb Hq Hv. pose proof (triple_stale_round req p b Hget Hb c) as Ht.
  destruct (pipeline_reconcile _ _ _ _ _ c) as [[tr c'] res].
  destruct Ht as (Htr & (q1 & Hq1 & Hv1) & Hres); [by exists q | done |]. split; [exact Htr|].
  intros o -> Hn ->. destruct (Hres Hn) as (q' & Hq' & Hr). exists q'. split; [done|].
  rewrite Hq' in Hq1. injection Hq1 as ->. unfold pool_of. simpl.
  rewrite (IsValid_verdict q1 false) by done. unfold is_retry. by rewrite Hr, andb_false_r.
Qed.
End verdicts.

(** ** Both ways a verdict is lost, from beginning to end *)

#[local] Existing Instance stable_runtime.

Definition late : bool * NamespacedName := pipe_key sample_ab.

Definition pipelines_world (ps : list Pipeline) : world :=
  set_pipelines (λ _, list_to_map ((λ p, (pipe_key p, p)) <$> ps)) round_world.

Definition lister_of (w : world) : PipelineLister :=
  {| list_vps := Ok (map_to_list (w_pipelines w)).*2; list_cvps := Ok [] |}.

(** The selection of a workload's round from what is stored, and what it leaves. *)
Definition selection_of (w : world) :=
  @resolveWorkloadPipelines stable_runtime _ simple_api (lister_of w) sample_getter sample_filter
    sample_workload None (calm w 0).
Definition selected_world (w : world) : world := sc_world (selection_of w).1.2.
Definition candidates (w : world) : list Pipeline :=
  match (selection_of w).2 with Ok s => sel_reinstate s | Err _ => [] end.
Definition selected_names (w : world) : list string :=
  match (selection_of w).2 with Ok s => GetName <$> sel_result s | Err _ => [] end.

(** A round of the pipeline that read [p], with the end of the check's pod. *)
Definition late_inputs (p : Pipeline) (end_ : pod_phase) : pipeline_inputs :=
  {| pi_get := λ _, Ok p; pi_again := λ _, Ok p; pi_reader := sample_getter;
     pi_agents := Ok [sample_vector]; pi_aggregators := Ok []; pi_cluster_aggregators := Ok [];
     pi_answers := λ _, {| ca_getter := sample_getter; ca_hash := "abcde"; ca_watch := None;
       ca_events := [EvAdded {| pod_deleting := false; pod_ph := end_; pod_waiting := [] |}] |};
     pi_order := id |}.
Definition late_round (p : Pipeline) (end_ : pod_phase) (w : world) :=
  @pipeline_reconcile stable_runtime _ simple_api "1" sample_marshal sample_pipeline_reconciler
    (late_inputs p end_) (ObjectKey p) (calm w 0).

(** The edit of a pipeline's spec. *)
Definition edit (p : Pipeline) : Pipeline :=
  {| p_kind := p_kind p; GetNamespace := GetNamespace p; GetName := GetName p;
     GetCreationTimestamp := GetCreationTimestamp p; p_deletion_timestamp := p_deletion_timestamp p;
     GetLabels := GetLabels p; GetAnnotations := GetAnnotations p;
     GetSpec := sample_spec {["c" := sample_backend "s2"]} "edited SECRET[c.k]"; p_status := p_status p |}.

Definition late_in (w : world) : Pipeline := default sample_ab (w_pipelines w !! late).
Definition store_pipeline (p : Pipeline) (w : world) : world := set_pipelines <[pipe_key p := p]> w.
Definition judged_in (w : world) : bool * option string := (IsValid (late_in w), GetReason (late_in w)).

(** [a] kept the younger [a-b] out; [a] is gone and a workload's round has taken [a-b] back
    for its configuration, but not written so yet, when the spec of [a-b] is edited. *)
Definition collided : world := selected_world (pipelines_world [sample_a; sample_ab]).
Definition freed : world := set_pipelines (delete (pipe_key sample_a)) collided.
Definition edited : world := store_pipeline (edit (late_in freed)) freed.
Definition taken_back : world :=
  sc_world (@reinstatePipelines stable_runtime _ simple_api (candidates freed) (calm edited 0)).1.2.
Definition failing : pod_phase := PodFailed (Ok "bad option").
Definition rejected : world := sc_world (late_round (late_in edited) failing taken_back).1.2.

(** [a-b] is valid and edited; while its round checks it, [a] comes and a workload leaves
    [a-b] out; then [a] goes again. *)
Definition revised : world := store_pipeline (edit sample_ab) (pipelines_world [sample_a; sample_ab]).
Definition left_out : world := selected_world revised.
Definition accepted_late : world := sc_world (late_round (late_in revised) PodSucceeded left_out).1.2.

(** Both happen. (1) A pipeline whose edited configuration just failed its check ends up
    valid with the failure as its reason, because a workload took it back while the check
    ran: workloads select it, and its next round passes it over without a write. Had its
    round read the pipeline after the workload's write, the pipeline would be rejected. (2) A
    pipeline that passed its check ends up invalid without a reason, because a workload left
    it out while the check ran: when the pipeline it collided with goes, no workload takes it
    up, and its round asked for no other. Had its round read it after the workload's write, it
    would be selected. *)
Lemma verdicts_lost :
  judged_in rejected = (true, Some "agent ns/v config check failed: bad option") ∧
  selected_names rejected = ["a-b"] ∧
  late_round (late_in rejected) failing rejected = ([], calm rejected 0, Ok nothing_more) ∧
  judged_in (sc_world (late_round (late_in taken_back) failing taken_back).1.2) =
    (false, Some "agent ns/v config check failed: bad option") ∧
  judged_in accepted_late = (false, None) ∧
  selected_names (set_pipelines (delete (pipe_key sample_a)) accepted_late) = [] ∧
  (po_requeue <$> (late_round (late_in revised) PodSucceeded left_out).2) = Ok 0 ∧
  selected_names (set_pipelines (delete (pipe_key sample_a))
    (sc_world (late_round (late_in left_out) PodSucceeded left_out).1.2)) = ["a-b"].
Proof.
  split_and!.
  all: try (vm_compute; reflexivity).
Qed.

(** The failure is written over the workload's verdict, and lost. *)
Lemma verdict_lost_iff_witness :
  stored late taken_back = Some (late_in taken_back) ∧
  ∃ q', stored late (sc_world (@pipeline_SetFailedStatus stable_runtime _ simple_api (late_in edited) "no" (late_in edited)
      (calm taken_back 0)).1.2) = Some q' ∧ IsValid q' = true ∧ GetReason q' = Some "no".
Proof.
  assert (Hs : stored late taken_back = Some (late_in taken_back)) by (vm_compute; reflexivity).
  split; [exact Hs|].
  assert (Hb : GetConfigCheckResult (late_in edited) = Some false ∧ IsValid (late_in taken_back) = true ∧
    bool_decide (GetReason (late_in edited) = Some "no") = false) by (vm_compute; auto).
  destruct Hb as (Hb & Hv & Hr). apply bool_decide_eq_false in Hr.
  assert (Hok : (@pipeline_SetFailedStatus stable_runtime _ simple_api (late_in edited) "no" (late_in edited)
    (calm taken_back 0)).2 = Ok tt) by (vm_compute; reflexivity).
  destruct (@verdict_lost_iff stable_runtime _ simple_api (late_in edited) (late_in edited) (late_in taken_back)
    (calm taken_back 0) (@pipeline_SetFailedStatus stable_runtime _ simple_api (late_in edited) "no" (late_in edited)
      (calm taken_back 0)).1.1 (@pipeline_SetFailedStatus stable_runtime _ simple_api (late_in edited) "no" (late_in edited)
      (calm taken_back 0)).1.2 Hs) as [_ Hf].
  destruct (Hf "no") as (q' & Hq' & _ & Hiff & Hreason).
  { rewrite <- Hok. by destruct (pipeline_SetFailedStatus _ _ _ _) as [[tr c'] res]. }
  exists q'. split; [exact Hq'|]. split; [apply Hiff; by split|]. rewrite Hreason. by rewrite decide_False.
Defined.

(** The round that accepts the pipeline a workload left out strands it. *)
Lemma stale_round_powerless_witness :
  Forall (verdict_is late false) (late_round (late_in revised) PodSucceeded left_out).1.1 ∧
  ∃ q', stored late accepted_late = Some q' ∧ pool_of [q'] = [].
Proof.
  assert (Hq : stored late left_out = Some (late_in left_out)) by (vm_compute; reflexivity).
  assert (Hn : (length ∘ po_notified <$> (late_round (late_in revised) PodSucceeded left_out).2) = Ok 1%nat)
    by (vm_compute; reflexivity).
  pose proof (@stale_round_powerless stable_runtime _ simple_api "1" sample_marshal sample_pipeline_reconciler) as Ht.
  specialize (Ht (late_inputs (late_in revised) PodSucceeded) (ObjectKey (late_in revised)) (late_in revised) (late_in left_out) true (calm left_out 0) eq_refl).
  specialize (Ht ltac:(vm_compute; reflexivity) Hq ltac:(vm_compute; reflexivity)).
  unfold accepted_late, late_round in *. destruct (pipeline_reconcile _ _ _ _ _ _) as [[tr c'] res].
  destruct Ht as [Htr Hres]. split; [exact Htr|].
  destruct res as [o|e]; [|discriminate Hn]. apply (Hres o); [done| |done]. intros He. simpl in Hn. by rewrite He in Hn.
Defined.
