(* ===== verification/Footprint.v ===== *)
(** * What a publication touches

    The objects the publishing steps of a workload write or delete ([EnsureVectorAgent] of
    [src/internal/vector/vectoragent], [EnsureVectorAggregator] of
    [src/internal/vector/aggregator]): a list of names that follow from the name and the
    namespace of the workload. Workloads of other names or namespaces keep their objects; the
    cluster-scoped ones are named without the namespace, and namesakes share them. *)

From S2P Require Import AgentSafety AggregatorSafety Finalizer.
From S2P Require Export AggregatorController.

(** ** Code confined to some keys *)

Section touches.
Context `{GoRuntime, KubeApi}.
Context (P : ObjKey → Prop) (refs : list string).

(** Only objects under [P] differ from [w0]. *)
Definition same_but (w0 w : world) : Prop := ∀ k, ¬ P k → w_objects w !! k = w_objects w0 !! k.

(** What is stored was there before or has the owners [refs], but for a ClusterRole, which
    keeps the owners it had. *)
Definition owned (w0 w : world) : Prop := ∀ k o, w_objects w !! k = Some o →
  w_objects w0 !! k = Some o ∨ om_owners (o_meta o) = refs ∨
  k.1.1 = KClusterRole ∧ ∃ o0, w_objects w0 !! k = Some o0 ∧ om_owners (o_meta o) = om_owners (o_meta o0).

Definition within (w0 w : world) : Prop := same_but w0 w ∧ owned w0 w.

Lemma within_refl w : within w w.
Proof. split; [done|]. intros k o Ho. by left. Qed.

Definition touches {A} (m : K A) (Q : A → Prop) : Prop :=
  ∀ w0, triple (within w0) (λ _, True) m (λ a _, Q a).

Lemma touches_bind {A B} (m : K A) (f : A → K B) R Q :
  touches m R → (∀ a, R a → touches (f a) Q) → touches (m ≫= f) Q.
Proof.
  intros Hm Hf w0. eapply triple_bind; [apply Hm|]. intros a c Hc Ha. by apply Hf.
Qed.

Lemma touches_then {A B} (m : K A) (f : A → K B) Q :
  touches m (λ _, True) → (∀ a, touches (f a) Q) → touches (m ≫= f) Q.
Proof. intros Hm Hf. by eapply touches_bind. Qed.

Lemma touches_post {A} (m : K A) (Q Q' : A → Prop) : (∀ a, Q a → Q' a) → touches m Q → touches m Q'.
Proof. intros HQ Hm w0. eapply triple_post; [|apply Hm]. auto. Qed.

Lemma touches_ret {A} (a : A) (Q : A → Prop) : Q a → touches (mret a) Q.
Proof. intros HQ w0. by apply triple_ret. Qed.

Lemma touches_fail {A} e (Q : A → Prop) : touches (k_fail e) Q.
Proof. intros w0. apply triple_fail. Qed.

Lemma touches_lift {A} (r : result A) : touches (k_lift r) (λ _, True).
Proof. intros w0. by apply triple_lift. Qed.

Lemma touches_now : touches k_now (λ _, True).
Proof. intros w0. by apply triple_now. Qed.

Lemma touches_find k : touches (k_find k) (λ _, True).
Proof. intros w0. by apply triple_find. Qed.

Lemma touches_try {A} (m : K A) : touches m (λ _, True) → touches (k_try m) (λ _, True).
Proof. intros Hm w0. eapply triple_post; [|apply triple_try, Hm]. done. Qed.

Lemma touches_when b (m : K unit) : touches m (λ _, True) → touches (k_when b m) (λ _, True).
Proof. intros Hm. destruct b; [done | by apply touches_ret]. Qed.

Lemma touches_iter {A} (f : A → K unit) l : (∀ a, a ∈ l → touches (f a) (λ _, True)) → touches (k_iter f l) (λ _, True).
Proof.
  induction l as [|a l IH]; intros Hf; simpl; [by apply touches_ret|].
  apply touches_then; [apply Hf; by left|]. intros []. apply IH. intros b Hb. apply Hf. by right.
Qed.

(** What [CreateOrUpdateResource] stores has the owners asked for, or keeps those of the
    ClusterRole it replaces. *)
Lemma applied_owners o w :
  om_owners (o_meta (applied o w)) = om_owners (o_meta o) ∨
  (key_of o).1.1 = KClusterRole ∧ ∃ e, w_objects w !! key_of o = Some e ∧ om_owners (o_meta (applied o w)) = om_owners (o_meta e).
Proof.
  unfold applied. destruct (w_objects w !! key_of o) as [e|]; simpl; [|left; by destruct (o_body o)].
  destruct (o_body o); simpl; try by left.
  right. split; [done|]. by exists e.
Qed.

Lemma within_insert w0 w o :
  P (key_of o) → om_owners (o_meta o) = refs → within w0 w → within w0 (set_objects <[key_of o := applied o w]> w).
Proof.
  intros Hk Ho [Hw Hown]. split.
  - intros k' Hk'. simpl. rewrite lookup_insert_ne; [by apply Hw|]. by intros <-.
  - intros k' o' Hl. simpl in Hl. apply lookup_insert_Some in Hl as [[<- <-]|[_ Hl]]; [|by apply Hown].
    right. destruct (applied_owners o w) as [->|(Hc & e & He & ->)]; [by left|].
    destruct (Hown _ _ He) as [He0|[->|(_ & o0 & Ho0 & ->)]]; [right; split; [done|] | by left | right; split; [done|]]; eauto.
Qed.

Lemma within_delete w0 w k : P k → within w0 w → within w0 (set_objects (delete k) w).
Proof.
  intros Hk [Hw Hown]. split.
  - intros k' Hk'. simpl. rewrite lookup_delete_ne; [by apply Hw|]. by intros ->.
  - intros k' o' Hl. simpl in Hl. apply lookup_delete_Some in Hl as [_ Hl]. by apply Hown.
Qed.

Lemma touches_apply o :
  supported o → P (key_of o) → om_owners (o_meta o) = refs → touches (apply o) (λ _, True).
Proof.
  intros Hs Hk Ho w0. apply triple_apply; [done|]. intros w Hw _. split; [by apply within_insert | done].
Qed.

Lemma touches_delete_ignore k : P k → touches (k_delete_ignore k) (λ _, True).
Proof. intros Hk w0. apply triple_delete_ignore. intros w Hw _. split; [by apply within_delete | done]. Qed.

Lemma touches_delete k : P k → touches (k_delete k) (λ _, True).
Proof. intros Hk w0. apply triple_delete; [|done]. intros w Hw _. by apply within_delete. Qed.

Lemma touches_patch_status obj base : touches (PatchWorkloadStatus obj base) (λ _, True).
Proof. intros w0. apply triple_patch_status. intros w Hw _. by split. Qed.
End touches.

Create HintDb footprint.
#[export] Hint Resolve touches_fail touches_lift touches_now touches_find touches_patch_status : footprint.

(** Steps through a publication: every write is under [P], which [own] shows. *)
Ltac confined own :=
  repeat first
    [ solve [auto with footprint]
    | apply touches_apply; [by split | solve [own] | assumption]
    | apply touches_delete_ignore; solve [own]
    | apply touches_ret; done
    | apply touches_when
    | apply touches_try
    | apply touches_then; [|intros ?] ].

(** ** An agent *)

Definition agent_footprint (namespace name : string) : list ObjKey :=
  let n := name +:+ "-agent" in
  [(KDaemonSet, namespace, n); (KServiceAccount, namespace, n); (KService, namespace, n); (KPodMonitor, namespace, n);
   (KSecret, namespace, n); (KSecret, namespace, n +:+ "-opt");
   (KSecret, namespace, n +:+ "-secret-assets"); (KSecret, namespace, (n +:+ "-opt") +:+ "-secret-assets");
   (KClusterRole, "", n); (KClusterRoleBinding, "", n)].

Section agent.
Context `{GoRuntime, Libraries, KubeApi}.
Context (Version : string).

Context (ns name : string) (refs : list string).

(** The controller of the agent, whatever a round has changed of it. *)
Definition agent_is (c : Controller) : Prop :=
  v_namespace (ct_vector c) = ns ∧ v_name (ct_vector c) = name ∧ getControllerReference c = refs.

Notation own := (λ k, k ∈ agent_footprint ns name).

Lemma agent_secret c n :
  agent_is c → n ∈ [getNameVectorAgent c; getNameVectorAgent c +:+ "-opt"] →
  own (secret_key c n) ∧ own (secret_key c (assets_name n)).
Proof.
  intros (Hns & Hn & Hr). unfold secret_key, namespace, assets_name, getNameVectorAgent, agent_footprint. rewrite Hns, Hn.
  intros [->|Hx%list_elem_of_singleton]%elem_of_cons; [|subst n]; split; rewrite !elem_of_cons; tauto.
Qed.

Lemma config_names (c : Controller) :
  getConfigSecretName c ∈ [getNameVectorAgent c; getNameVectorAgent c +:+ "-opt"] ∧
  getAltConfigSecretName c ∈ [getNameVectorAgent c; getNameVectorAgent c +:+ "-opt"].
Proof. unfold getConfigSecretName, getAltConfigSecretName. destruct (_ && _); set_solver. Qed.

Lemma touches_ensure_assets c n d :
  agent_is c → n ∈ [getNameVectorAgent c; getNameVectorAgent c +:+ "-opt"] →
  touches own refs (ensure_assets c (assets_name n) d) (λ _, True).
Proof.
  intros Hc Hn. destruct (agent_secret c n Hc Hn) as [_ Hk]. pose proof Hc as (_ & _ & Hr). unfold ensure_assets, deleteAgentConfigSecret.
  case_bool_decide; confined ltac:(exact Hk).
Qed.

Lemma touches_agent_assets c : agent_is c → touches own refs (ensureVectorAgentSecretAssets c) (λ _, True).
Proof.
  intros Hc. destruct (config_names c) as [Hn1 Hn2]. unfold ensureVectorAgentSecretAssets, getSecretAssetsName.
  apply touches_then; [by apply touches_ensure_assets|]. intros []. destruct (negb _).
  - unfold deleteAgentConfigSecret. apply touches_delete_ignore. by apply (agent_secret c).
  - destruct (ct_alt_byte_config c); [by apply touches_ensure_assets | by apply touches_ret].
Qed.

Lemma touches_agent_config c : agent_is c → touches own refs (ensureVectorAgentConfig c) (λ _, True).
Proof.
  intros Hc. destruct (config_names c) as [Hn1 Hn2]. pose proof Hc as (_ & _ & Hr). unfold ensureVectorAgentConfig, deleteAgentConfigSecret.
  pose proof (proj1 (agent_secret c _ Hc Hn1)). pose proof (proj1 (agent_secret c _ Hc Hn2)).
  assert (own (secret_key c (getNameVectorAgent c +:+ "-opt"))) by (apply (agent_secret c); [done|set_solver]).
  apply touches_then; [by apply touches_apply|]. intros []. destruct (ct_migration c).
  - destruct (ct_alt_byte_config c); [by apply touches_apply | by apply touches_ret].
  - confined ltac:(done).
Qed.

Lemma touches_agent_daemonset c : agent_is c → touches own refs (ensureVectorAgentDaemonSet Version c) agent_is.
Proof.
  intros (Hns & Hn & Hr). unfold ensureVectorAgentDaemonSet.
  assert (Hk : ∀ o, key_of o = daemonset_key c → supported o → om_owners (o_meta o) = refs →
    touches own refs (apply o) (λ _, True)).
  { intros o Ho Hs Hrefs. apply touches_apply; [done| |done]. rewrite Ho. unfold daemonset_key, namespace, getNameVectorAgent.
    rewrite Hns, Hn. apply list_elem_of_here. }
  destruct (globalConfigChanged c).
  - apply touches_then; [auto with footprint|]. intros now. unfold mark_restart.
    destruct (vc_annotations (agent c)) as [an|]; (apply touches_then; [by apply Hk|]; intros []; by apply touches_ret).
  - apply touches_then; [by apply Hk|]. intros []. by apply touches_ret.
Qed.

Lemma touches_agent_stamp c (b : bool) :
  agent_is c → touches own refs (if b then StampConfigPublishing c else mret c) agent_is.
Proof.
  intros Hc. destruct b; [|by apply touches_ret]. unfold StampConfigPublishing.
  apply touches_then; [auto with footprint|]. intros now. cbv zeta.
  apply touches_then; [auto with footprint|]. intros []. by apply touches_ret.
Qed.

Lemma touches_agent_publish c b m : agent_is c → touches own refs (publish Version c b m) agent_is.
Proof.
  intros Hc. unfold publish. cbv zeta. destruct (_ && _); [|destruct (_ && _)].
  - apply touches_then; [by apply touches_agent_assets|]. intros [].
    eapply touches_bind; [by apply touches_agent_daemonset|]. intros c1 Hc1.
    eapply touches_bind; [by apply touches_agent_stamp|]. intros c2 Hc2.
    apply touches_then; [by apply touches_agent_config|]. intros []. by apply touches_ret.
  - eapply touches_bind; [by apply touches_agent_stamp|]. intros c1 Hc1.
    apply touches_then; [by apply touches_agent_config|]. intros [].
    eapply touches_bind; [by apply touches_agent_daemonset|]. intros c2 Hc2.
    apply touches_then; [by apply touches_agent_assets|]. intros []. by apply touches_ret.
  - apply touches_then; [by apply touches_agent_assets|]. intros [].
    eapply touches_bind; [by apply touches_agent_stamp|]. intros c1 Hc1.
    apply touches_then; [by apply touches_agent_config|]. intros []. by apply touches_agent_daemonset.
Qed.

Lemma touches_agent crd c b : agent_is c → touches own refs (EnsureVectorAgent Version crd c b) (λ _, True).
Proof.
  intros Hc. unfold EnsureVectorAgent, hasSecretAssetsMount.
  apply touches_then; [auto with footprint|]. intros monitoring.
  apply touches_then; [destruct (negb _); [auto with footprint|]; confined idtac|]. intros mount.
  eapply touches_bind; [by apply touches_agent_publish|]. intros c1 (Hns & Hn & Hr).
  unfold ensureVectorAgentRBAC, ensureVectorAgentServiceAccount, ensureVectorAgentClusterRole,
    ensureVectorAgentClusterRoleBinding, ensureVectorAgentService, ensureVectorAgentPodMonitor.
  confined ltac:(unfold key_of; simpl; rewrite ?Hns, ?Hn; unfold agent_footprint; rewrite !elem_of_cons; tauto).
Qed.
End agent.

(** ** An aggregator *)

Definition aggregator_footprint (namespace name : string) : list ObjKey :=
  let n := name +:+ "-aggregator" in
  let e := name +:+ "-event-collector" in
  [(KDeployment, namespace, n); (KStatefulSet, namespace, n); (KSecret, namespace, n);
   (KSecret, namespace, n +:+ "-secret-assets"); (KServiceAccount, namespace, n); (KPodMonitor, namespace, n);
   (KHPA, namespace, n); (KPodDisruptionBudget, namespace, n);
   (KDeployment, namespace, e); (KConfigMap, namespace, e); (KServiceAccount, namespace, e);
   (KClusterRole, "", n); (KClusterRoleBinding, "", n); (KClusterRole, "", e); (KClusterRoleBinding, "", e)].

(** The Services of the pipelines have names of their own; the stale ones are listed in the
    namespace. *)
Definition a_service_of (namespace : string) (k : ObjKey) : Prop := k.1 = (KService, namespace).

Section aggregator.
Context `{GoRuntime, Libraries, KubeApi}.
Context (ns name : string) (refs : list string).

Definition aggregator_is (c : AggregatorController) : Prop :=
  ac_namespace c = ns ∧ ac_name c = name ∧ aggregator_getControllerReference c = refs.
Notation own := (λ k, k ∈ aggregator_footprint ns name ∨ a_service_of ns k).

Ltac own_key Hns Hn :=
  unfold key_of; simpl; rewrite ?Hns, ?Hn; first
    [ by right
    | left; unfold aggregator_footprint, ac_secret_key, workload_key, aggregator_getSecretAssetsName,
        getNameVectorAggregator, collector_name;
      rewrite ?Hns, ?Hn, !elem_of_cons; tauto ].

Lemma touches_aggregator_assets c : aggregator_is c → touches own refs (ensureVectorAggregatorSecretAssets c) (λ _, True).
Proof.
  intros (Hns & Hn & Hr). unfold ensureVectorAggregatorSecretAssets, deleteSecretAssetsSecret, aggregator_getSecretAssetsName.
  case_bool_decide; confined ltac:(own_key Hns Hn).
Qed.

Lemma touches_aggregator_config c : aggregator_is c → touches own refs (ensureVectorAggregatorConfig c) (λ _, True).
Proof. intros (Hns & Hn & Hr). unfold ensureVectorAggregatorConfig. confined ltac:(own_key Hns Hn). Qed.

Lemma touches_apply_workload build kind c :
  (∀ c t, key_of (build c t) = workload_key c kind) → (∀ c t, supported (build c t)) →
  (∀ c t, om_owners (o_meta (build c t)) = aggregator_getControllerReference c) →
  kind ∈ [KDeployment; KStatefulSet] → aggregator_is c → touches own refs (apply_workload build c) aggregator_is.
Proof.
  intros Hkey Hs Href Hkind Hc.
  assert (Hone : ∀ c' t, aggregator_is c' → touches own refs (apply (build c' t)) (λ _, True)).
  { intros c' t (Hns & Hn & Hr). apply touches_apply; [done| |by rewrite Href]. rewrite Hkey. left.
    unfold workload_key, getNameVectorAggregator, aggregator_footprint. rewrite Hns, Hn.
    apply elem_of_cons in Hkind as [->|Hx%list_elem_of_singleton]; [|subst kind]; rewrite !elem_of_cons; tauto. }
  unfold apply_workload. destruct (aggregator_globalConfigChanged c).
  - apply touches_then; [auto with footprint|]. intros now. unfold aggregator_mark_restart.
    destruct (vc_annotations (ac_common c)) as [an|]; cbv zeta;
      (apply touches_then; [by apply Hone|]; intros []; by apply touches_ret).
  - apply touches_then; [by apply Hone|]. intros []. by apply touches_ret.
Qed.

Lemma touches_workload obsolete c : aggregator_is c → touches own refs (ensureWorkload obsolete c) aggregator_is.
Proof.
  intros Hc. unfold ensureWorkload, ensureVectorAggregatorStatefulSet, ensureVectorAggregatorDeployment, deleteObsoleteWorkload.
  destruct (persistenceEnabled c).
  - apply touches_then; [auto with footprint|]. intros [].
    eapply touches_bind; [by apply (touches_apply_workload _ KStatefulSet); [..|set_solver|]|].
    intros c1 (Hns & Hn & Hr). apply touches_then; [confined ltac:(own_key Hns Hn)|]. intros []. by apply touches_ret.
  - eapply touches_bind; [by apply (touches_apply_workload _ KDeployment); [..|set_solver|]|].
    intros c1 (Hns & Hn & Hr). apply touches_then; [confined ltac:(own_key Hns Hn)|]. intros []. by apply touches_ret.
Qed.

Lemma touches_aggregator_stamp c (b : bool) :
  aggregator_is c → touches own refs (if b then aggregator_StampConfigPublishing c else mret c) aggregator_is.
Proof.
  intros Hc. destruct b; [|by apply touches_ret]. unfold aggregator_StampConfigPublishing.
  apply touches_then; [auto with footprint|]. intros now. cbv zeta.
  apply touches_then; [auto with footprint|]. intros []. by apply touches_ret.
Qed.

Lemma touches_aggregator_publish c b s : aggregator_is c → touches own refs (aggregator_publish c b s) aggregator_is.
Proof.
  intros Hc. unfold aggregator_publish. cbv zeta. destruct (_ && _); [|destruct (_ && _)].
  - apply touches_then; [by apply touches_aggregator_assets|]. intros [].
    eapply touches_bind; [by apply touches_workload|]. intros c1 Hc1.
    eapply touches_bind; [by apply touches_aggregator_stamp|]. intros c2 Hc2.
    apply touches_then; [by apply touches_aggregator_config|]. intros []. by apply touches_ret.
  - eapply touches_bind; [by apply touches_aggregator_stamp|]. intros c1 Hc1.
    apply touches_then; [by apply touches_aggregator_config|]. intros [].
    eapply touches_bind; [by apply touches_workload|]. intros c2 Hc2.
    apply touches_then; [by apply touches_aggregator_assets|]. intros []. by apply touches_ret.
  - apply touches_then; [by apply touches_aggregator_assets|]. intros [].
    eapply touches_bind; [by apply touches_aggregator_stamp|]. intros c1 Hc1.
    apply touches_then; [by apply touches_aggregator_config|]. intros []. by apply touches_workload.
Qed.

(** The Services listed as the aggregator's are in its namespace. *)
Definition listed_in (listed : result (list Object)) : Prop :=
  ∀ l o, listed = Ok l → o ∈ l → om_namespace (o_meta o) = ns.

Lemma existing_in (l : list Object) m name' o :
  fold_left (λ m o, <[om_name (o_meta o) := o]> m) l m !! name' = Some o →
  o ∈ l ∨ (m : gmap string Object) !! name' = Some o.
Proof.
  revert m. induction l as [|o' l IH]; simpl; intros m; [by right|].
  intros [Hin|Hm]%IH; [left; set_solver|]. apply lookup_insert_Some in Hm as [[_ <-]|[_ ?]]; [left; set_solver | by right].
Qed.

Lemma stale_in (svcs : list Object) m name' o :
  fold_left (λ m svc, delete (om_name (o_meta svc)) m) svcs m !! name' = Some o → (m : gmap string Object) !! name' = Some o.
Proof.
  revert m. induction svcs as [|s svcs IH]; simpl; intros m Hm; [done|].
  by apply IH, lookup_delete_Some in Hm as [_ ?].
Qed.

Lemma created_service c o : o ∈ createVectorAggregatorServices c →
  (key_of o).1 = (KService, ac_namespace c) ∧ om_owners (o_meta o) = aggregator_getControllerReference c.
Proof.
  unfold createVectorAggregatorServices. rewrite !elem_of_app, list_elem_of_fmap.
  intros [([g ports] & -> & _)|[Ho|Ho]]; [done|..]; destruct (_ : bool) in Ho;
    first [by apply not_elem_of_nil in Ho | by apply list_elem_of_singleton in Ho as ->].
Qed.

Lemma touches_services listed c :
  aggregator_is c → listed_in listed → touches own refs (ensureVectorAggregatorService listed c) (λ _, True).
Proof.
  intros (Hns & Hn & Hr) Hl. unfold ensureVectorAggregatorService.
  eapply touches_bind with (R := λ existing, ∀ n o, existing !! n = Some o → om_namespace (o_meta o) = ns).
  { intros w0. apply triple_lift. intros existing w Hex _ _ n o Hno. unfold getExistingServices in Hex.
    apply bind_Ok in Hex as (l & Hlist & [= <-]). apply existing_in in Hno as [Hin|Hno]; [by eapply Hl|].
    by rewrite lookup_empty in Hno. }
  intros existing Hex. cbv zeta. apply touches_then.
  - apply touches_iter. intros o [Ho Hrefs]%created_service. apply touches_apply.
    + injection Ho as Hb _. by split; rewrite Hb.
    + right. unfold a_service_of. by rewrite Ho, Hns.
    + by rewrite Hrefs.
  - intros []. apply touches_iter. intros [n o] Hin%range_map_lookup%stale_in. apply touches_delete.
    right. unfold a_service_of. simpl. f_equal. by eapply Hex.
Qed.

Lemma touches_collector c : aggregator_is c → touches own refs (ensureEventCollector c) aggregator_is.
Proof.
  intros (Hns & Hn & Hr). unfold ensureEventCollector, ensureEventCollectorRBAC, ensureEventCollectorServiceAccount,
    ensureEventCollectorClusterRole, ensureEventCollectorClusterRoleBinding, cleanupEventCollector, createEventCollectorDeployment.
  assert (Hd : ∀ a : gmap string string, aggregator_is (match vc_annotations (ac_common c) with
    | Some _ => with_ac_agg (with_ag_spec (with_va_common (with_annotations (Some a) (ac_common c))
                 (ac_spec c)) (ac_agg c)) c
    | None => c end)) by (intros a; by destruct (vc_annotations (ac_common c))).
  destruct (GetEventCollectorConfig _ _) as [receivers|]; cbv beta iota zeta;
    set (c1 := match vc_annotations (ac_common c) with Some _ => _ | None => c end);
    (assert (Hc1 : aggregator_is c1) by apply Hd); clearbody c1.
  - do 4 (apply touches_then; [confined ltac:(own_key Hns Hn)|]; intros []). by apply touches_ret.
  - apply touches_then; [confined ltac:(own_key Hns Hn)|]. intros []. pose proof Hc1 as (Hns1 & Hn1 & Hr1).
    do 5 (apply touches_then; [confined ltac:(own_key Hns1 Hn1)|]; intros []). by apply touches_ret.
Qed.

Lemma touches_aggregator crd listed c b :
  aggregator_is c → listed_in listed → touches own refs (EnsureVectorAggregator crd listed c b) (λ _, True).
Proof.
  intros Hc Hl. unfold EnsureVectorAggregator, readSecretAssetsMountState.
  apply touches_then; [auto with footprint|]. intros monitoring.
  apply touches_then; [destruct (negb _); [auto with footprint|]; confined idtac|]. intros s.
  eapply touches_bind; [by apply touches_aggregator_publish|]. intros c1 Hc1. pose proof Hc1 as (Hns & Hn & Hr).
  unfold ensureVectorAggregatorRBAC, ensureVectorAggregatorServiceAccount, ensureVectorAggregatorClusterRole,
    ensureVectorAggregatorClusterRoleBinding, ensureVectorAggregatorPodMonitor.
  apply touches_then; [confined ltac:(own_key Hns Hn)|]. intros [].
  apply touches_then; [by apply touches_services|]. intros [].
  apply touches_then; [confined ltac:(own_key Hns Hn)|]. intros [].
  eapply touches_bind; [by apply touches_collector|]. intros c2 (Hns2 & Hn2 & Hr2).
  unfold ensureVectorAggregatorHPA, cleanupHPA, ensureVectorAggregatorPodDisruptionBudget. cbv zeta.
  apply touches_then; [destruct (negb _); confined ltac:(own_key Hns2 Hn2)|]. intros [].
  apply touches_then; [destruct (_ || _); confined ltac:(own_key Hns2 Hn2)|]. intros []. by apply touches_ret.
Qed.
End aggregator.

(** ** Names that do not meet *)

Definition own_suffixes : list string :=
  ["-agent"; "-agent-opt"; "-agent-secret-assets"; "-agent-opt-secret-assets";
   "-aggregator"; "-aggregator-secret-assets"; "-event-collector"].

(** No suffix ends in another. *)
Lemma own_suffixes_apart u v m :
  u ∈ own_suffixes → v ∈ own_suffixes → v = m +:+ u → m = "".
Proof.
  intros Hu Hv ->.
  assert (Hall : Forall (λ v, Forall (λ u, v = u ∨ string_drop (String.length v - String.length u) v ≠ u) own_suffixes)
    own_suffixes) by (apply (bool_decide_unpack _); vm_compute; exact I).
  rewrite Forall_forall in Hall. specialize (Hall _ Hv). rewrite Forall_forall in Hall.
  destruct (Hall _ Hu) as [Heq|Hne].
  - assert (Hlen : String.length (m +:+ u) = String.length u) by (by rewrite Heq).
    rewrite str_length_app in Hlen. destruct m; [done|]. simpl in Hlen. lia.
  - destruct Hne. rewrite str_length_app. replace (_ + _ - _)%nat with (String.length m) by lia. apply str_drop_app.
Qed.

Lemma own_names_apart x y u v :
  u ∈ own_suffixes → v ∈ own_suffixes → x +:+ u = y +:+ v → x = y ∧ u = v.
Proof.
  intros Hu Hv Heq. apply str_app_split in Heq as [(m & -> & Hm)|(m & Hne & _ & Hm)].
  - apply (own_suffixes_apart u v) in Hm as Hz; [|done..]. subst m. by rewrite str_app_nil_r.
  - by destruct Hne; apply (own_suffixes_apart v u).
Qed.

Definition cluster_kind (k : obj_kind) : Prop := k = KClusterRole ∨ k = KClusterRoleBinding.

(** A key of a footprint: a kind, the namespace unless the kind has none, and a name made of
    the workload's and a suffix that tells the two sorts of workloads apart. *)
Definition named (agent : bool) (ns name : string) (k : ObjKey) : Prop :=
  k.1.2 = (if decide (k.1.1 = KClusterRole ∨ k.1.1 = KClusterRoleBinding) then "" else ns) ∧
  ∃ u, u ∈ own_suffixes ∧ has_prefix "-agent" u = agent ∧ k.2 = name +:+ u.

Lemma agent_footprint_named ns name k : k ∈ agent_footprint ns name → named true ns name k.
Proof.
  revert k. apply Forall_forall. unfold agent_footprint.
  repeat apply Forall_cons_2; try (by apply Forall_nil_2); (split; [done|]);
    rewrite ?str_app_assoc; eexists; (split; [|split; [|reflexivity]]); try done; apply (bool_decide_unpack _); exact I.
Qed.

Lemma aggregator_footprint_named ns name k : k ∈ aggregator_footprint ns name → named false ns name k.
Proof.
  revert k. apply Forall_forall. unfold aggregator_footprint.
  repeat apply Forall_cons_2; try (by apply Forall_nil_2); (split; [done|]);
    rewrite ?str_app_assoc; eexists; (split; [|split; [|reflexivity]]); try done; apply (bool_decide_unpack _); exact I.
Qed.

Lemma named_apart a1 ns1 n1 a2 ns2 n2 k :
  named a1 ns1 n1 k → named a2 ns2 n2 k → a1 = a2 ∧ n1 = n2 ∧ (ns1 = ns2 ∨ cluster_kind k.1.1).
Proof.
  intros [Hk1 (u & Hu & <- & Hn1)] [Hk2 (v & Hv & <- & Hn2)]. rewrite Hn1 in Hn2.
  apply own_names_apart in Hn2 as [-> ->]; [|done..]. split_and!; [done..|].
  rewrite Hk1 in Hk2. case_decide; [by right | by left].
Qed.

(** ** Workloads side by side *)

(** The publishing step of a round: its controller, whether the configuration is about to
    change, and what discovery and the listing of the Services answer. *)
Inductive publication :=
| PublishAgent (crd : result bool) (c : Controller) (configPublishing : bool)
| PublishAggregator (crd : result bool) (listed : result (list Object)) (c : AggregatorController)
    (configPublishing : bool).

Definition pub_agent (p : publication) : bool := match p with PublishAgent _ _ _ => true | _ => false end.
Definition pub_namespace (p : publication) : string :=
  match p with PublishAgent _ c _ => v_namespace (ct_vector c) | PublishAggregator _ _ c _ => ac_namespace c end.
Definition pub_name (p : publication) : string :=
  match p with PublishAgent _ c _ => v_name (ct_vector c) | PublishAggregator _ _ c _ => ac_name c end.

(** The objects of a workload. *)
Definition pub_keys (p : publication) (k : ObjKey) : Prop :=
  if pub_agent p then k ∈ agent_footprint (pub_namespace p) (pub_name p)
  else k ∈ aggregator_footprint (pub_namespace p) (pub_name p) ∨ a_service_of (pub_namespace p) k.

(** The owner references of its objects. *)
Definition pub_refs (p : publication) : list string :=
  match p with PublishAgent _ c _ => getControllerReference c | PublishAggregator _ _ c _ => aggregator_getControllerReference c end.

(** What the listing of the Services of an aggregator promises. *)
Definition pub_given (p : publication) : Prop :=
  match p with PublishAggregator _ listed c _ => listed_in (ac_namespace c) listed | _ => True end.

Section side_by_side.
Context `{GoRuntime, Libraries, KubeApi}.
Context (Version : string).

Definition pub_run (p : publication) : K unit :=
  match p with
  | PublishAgent crd c b => _ ← EnsureVectorAgent Version crd c b; mret tt
  | PublishAggregator crd listed c b => _ ← EnsureVectorAggregator crd listed c b; mret tt
  end.

Lemma touches_publication p : pub_given p → touches (pub_keys p) (pub_refs p) (pub_run p) (λ _, True).
Proof.
  intros Hp. destruct p as [crd c b|crd listed c b]; simpl.
  - apply touches_then; [by apply touches_agent | intros ?; by apply touches_ret].
  - apply touches_then; [by apply touches_aggregator | intros ?; by apply touches_ret].
Qed.

Lemma pub_keys_named p k :
  pub_keys p k → named (pub_agent p) (pub_namespace p) (pub_name p) k ∨ pub_agent p = false ∧ a_service_of (pub_namespace p) k.
Proof.
  unfold pub_keys. destruct (pub_agent p); [intros ?; left; by apply agent_footprint_named|].
  intros [?|?]; [left; by apply aggregator_footprint_named | by right].
Qed.

(** C5: workloads leave each other alone. While one workload is published, whatever fails and
    wherever it stops, every object of another workload stays as it is, if they are not both
    agents or both aggregators of one name in one namespace: but for the Services of a
    namespace, which aggregators share with whatever pipelines name, and for the ClusterRoles
    and bindings of two agents, or two aggregators, of the same name. *)
Theorem workloads_isolated p1 p2 c :
  pub_given p1 →
  (pub_agent p1, pub_namespace p1, pub_name p1) ≠ (pub_agent p2, pub_namespace p2, pub_name p2) →
  let '(tr, c', r) := pub_run p1 c in
  Forall (λ w, ∀ k, pub_keys p2 k →
    (k.1.1 = KService → pub_namespace p1 ≠ pub_namespace p2) →
    (cluster_kind k.1.1 → pub_agent p1 = pub_agent p2 → pub_name p1 ≠ pub_name p2) →
    w_objects w !! k = w_objects (seen c) !! k) (tr ++ [seen c']).
Proof.
  intros Hp Hid. pose proof (touches_publication p1 Hp (seen c) c (within_refl _ _ _) I) as Ht.
  destruct (pub_run p1 c) as [[tr c'] r]. destruct Ht as (Htr & Hc' & _).
  assert (Hone : ∀ w, within (pub_keys p1) (pub_refs p1) (seen c) w → ∀ k, pub_keys p2 k →
    (k.1.1 = KService → pub_namespace p1 ≠ pub_namespace p2) →
    (cluster_kind k.1.1 → pub_agent p1 = pub_agent p2 → pub_name p1 ≠ pub_name p2) →
    w_objects w !! k = w_objects (seen c) !! k).
  { intros w [Hw _] k Hk2 Hs Hc. apply Hw. intros Hk1.
    apply pub_keys_named in Hk1 as [Hk1|[_ Hk1]], Hk2 as [Hk2|[_ Hk2]].
    - destruct (named_apart _ _ _ _ _ _ k Hk1 Hk2) as (Ha & Hn & [Hns|Hck]); [congruence | by apply Hc].
    - destruct Hk1 as [Hk1 _]. unfold a_service_of in Hk2. rewrite Hk2 in *. simpl in *. by apply Hs.
    - destruct Hk2 as [Hk2 _]. unfold a_service_of in Hk1. rewrite Hk1 in *. simpl in *. by apply Hs.
    - unfold a_service_of in *. rewrite Hk1 in *. simpl in *. by apply Hs; [|congruence]. }
  apply Forall_app. split; [eapply Forall_impl; [exact Htr | exact Hone]|]. apply Forall_singleton. by apply Hone.
Qed.

(** ** Namesakes *)

(** The subjects of a stored binding. *)
Definition bound_subjects (k : ObjKey) (w : world) : option settings :=
  match o_body <$> (w_objects w !! k) with Some (BClusterRoleBinding _ s) => Some s | _ => None end.

(** C38: two VectorAggregators of one name in different namespaces share their ClusterRole and
    its binding: publishing the second leaves the binding to its own service account alone,
    and once the second is deleted the first has neither. *)
Theorem namesakes_share_rbac g1 g2 c :
  ag_cluster g1 = false → ag_cluster g2 = false → ag_name g1 = ag_name g2 → ag_namespace g1 ≠ ag_namespace g2 →
  let c1 := aggregator_NewController Version g1 in
  let c2 := aggregator_NewController Version g2 in
  let binding := key_of (createVectorAggregatorClusterRoleBinding c1) in
  let subject (g : Aggregator) := [("kind", "ServiceAccount"); ("name", ag_name g +:+ "-aggregator");
                                   ("namespace", ag_namespace g)] in
  (∀ tr c', ensureVectorAggregatorClusterRoleBinding c2 c = (tr, c', Ok tt) →
     bound_subjects binding (seen c') = Some (subject g2) ∧ bound_subjects binding (seen c') ≠ Some (subject g1)) ∧
  (∀ update tr c' g2', is_Some (w_objects (seen c) !! key_of (createVectorAggregatorClusterRole c1)) →
     finalize_aggregator Version update g2 c = (tr, c', Ok (Some g2')) →
     w_objects (seen c') !! key_of (createVectorAggregatorClusterRole c1) = None ∧
     w_objects (seen c') !! binding = None).
Proof.
  intros Hn1 Hn2 Hname Hns c1 c2 binding subject.
  assert (Hk : key_of (createVectorAggregatorClusterRole c1) = key_of (createVectorAggregatorClusterRole c2) ∧
    binding = key_of (createVectorAggregatorClusterRoleBinding c2)).
  { unfold binding, key_of. simpl. unfold getNameVectorAggregator, ac_name. simpl. by rewrite Hname. }
  destruct Hk as [Hrole Hbind]. split.
  - intros tr c' Hrun. assert (Hsub : bound_subjects binding (seen c') = Some (subject g2)).
    { rewrite Hbind. unfold ensureVectorAggregatorClusterRoleBinding, apply, mbind, K_bind, k_bind in Hrun.
      pose proof (resource_run (createVectorAggregatorClusterRoleBinding c2) c) as Hres.
      destruct (CreateOrUpdateResource _ c) as [[tr1 d] [o|e]]; [|done]. injection Hrun as _ <-.
      destruct Hres as [_ ->]; [by split|]. unfold bound_subjects. simpl. rewrite lookup_insert_eq. simpl.
      unfold subject, getNameVectorAggregator, ac_namespace, ac_name. simpl. by rewrite Hn2. }
    split; [done|]. rewrite Hsub. unfold subject. intros [= ? Heq]. by apply Hns.
  - intros update tr c' g2' Hr Hrun. apply finalizer_exact in Hrun as (_ & _ & _ & Hend). fold c2 in Hend.
    rewrite Hrole in *. rewrite Hend by done. rewrite Hbind. simpl. split.
    + rewrite lookup_delete_ne by (intros Heq; discriminate (f_equal (λ k : ObjKey, k.1.1) Heq)). apply lookup_delete_eq.
    + apply lookup_delete_eq.
Qed.

(** ** What a deletion leaves *)

(** C40: deleting a VectorAggregator leaves the ClusterRole of its event collector and the
    binding of it where they are, however the finalization goes (the finalizer only removes
    those of the aggregator; nothing else removes a cluster-scoped object of a namespaced
    owner). *)
Theorem deletion_leaves_collector update g c :
  let ctl := aggregator_NewController Version g in
  let '(tr, c', r) := finalize_aggregator Version update g c in
  Forall (λ w,
    w_objects w !! key_of (createEventCollectorClusterRole ctl) =
      w_objects (seen c) !! key_of (createEventCollectorClusterRole ctl) ∧
    w_objects w !! key_of (createEventCollectorClusterRoleBinding ctl) =
      w_objects (seen c) !! key_of (createEventCollectorClusterRoleBinding ctl)) (tr ++ [seen c']).
Proof.
  intros ctl. set (P := λ k : ObjKey, k.2 = ac_name ctl +:+ "-aggregator").
  assert (Ht : touches P [] (finalize_aggregator Version update g) (λ _, True)).
  { unfold finalize_aggregator, deleteVectorAggregator, DeleteVectorAggregator, deleteVectorAggregatorClusterRole,
      deleteVectorAggregatorClusterRoleBinding. fold ctl. destruct (HasFinalizer _ _); [|by apply touches_ret].
    apply touches_then.
    - apply touches_try, touches_then; [by apply touches_delete|]. intros _. by apply touches_delete.
    - intros e. apply touches_then; [destruct e as [|e]; [by apply touches_ret|]; destruct (is_not_found e)|intros ?]; confined idtac. }
  specialize (Ht (seen c) c (within_refl _ _ _) I). destruct (finalize_aggregator _ _ _ _) as [[tr c'] r].
  destruct Ht as (Htr & Hc' & _).
  assert (Hall : Forall (within P [] (seen c)) (tr ++ [seen c'])) by (apply Forall_app; by rewrite Forall_singleton).
  eapply Forall_impl; [exact Hall|]. intros w [Hw _].
  split; apply Hw; unfold P; simpl; unfold collector_name; intros Heq;
    apply own_names_apart in Heq as [_ Hsuf]; try done; unfold own_suffixes; set_solver.
Qed.
End side_by_side.

(** ** Witnesses *)

#[local] Existing Instance stable_runtime.

Definition neighbour : AggregatorController := aggregator_NewController "1" deleted_aggregator.
Definition neighbour_config : Object := createVectorAggregatorConfig neighbour.
Definition shared_world : world := sample_status_world {[key_of neighbour_config := neighbour_config]}.
Definition agent_publication : publication := PublishAgent (Ok false) (sample_controller false false) true.
Definition neighbour_publication : publication := PublishAggregator (Ok false) (Ok []) neighbour true.

(** Publishing an agent leaves the configuration of an aggregator next to it. *)
Lemma workloads_isolated_witness :
  (size (w_objects (sc_world (@pub_run stable_runtime _ simple_api "1" agent_publication (calm shared_world 0)).1.2)) = 7)%nat ∧
  w_objects (sc_world (@pub_run stable_runtime _ simple_api "1" agent_publication (calm shared_world 0)).1.2) !!
    key_of neighbour_config = Some neighbour_config.
Proof.
  split; [vm_compute; reflexivity|].
  pose proof (@workloads_isolated stable_runtime _ simple_api "1" agent_publication neighbour_publication
    (calm shared_world 0) I ltac:(intros Heq; discriminate (f_equal (λ x, x.1.1) Heq))) as Ht.
  destruct (pub_run _ _ _) as [[tr c'] r].
  apply Forall_app in Ht as [_ Ht]. rewrite Forall_singleton in Ht.
  refine (eq_trans (Ht (key_of neighbour_config) _ _ _) (lookup_insert_eq _ _ _)).
  - left. apply (bool_decide_unpack _). vm_compute. exact I.
  - intros Hk. discriminate Hk.
  - intros [Hk|Hk]; discriminate Hk.
Defined.

(** The aggregator of the same name in another namespace. *)
Definition namesake : Aggregator :=
  {| ag_cluster := false; ag_namespace := "other"; ag_resource_namespace := ""; ag_name := "g"; ag_uid := "u2";
     ag_kind := "VectorAggregator"; ag_api_version := "v1alpha1"; ag_deleted := false;
     ag_finalizers := [aggregatorFinalizerName]; ag_spec := ag_spec sample_aggregator; ag_status := no_status |}.

Lemma namesakes_share_rbac_witness :
  is_Some (w_objects before_deletion !! key_of its_role) ∧
  w_objects (sc_world (@finalize_aggregator stable_runtime simple_api "1" (λ _, Ok tt) deleted_aggregator
    (calm before_deletion 0)).1.2) !! key_of (createVectorAggregatorClusterRoleBinding (aggregator_NewController "1" namesake)) = None.
Proof.
  assert (Hrole : is_Some (w_objects before_deletion !! key_of its_role)) by (by eexists).
  split; [exact Hrole|].
  destruct (@namesakes_share_rbac stable_runtime simple_api "1" namesake deleted_aggregator
    (calm before_deletion 0) eq_refl eq_refl eq_refl ltac:(discriminate)) as [_ Hfin].
  assert (Hr : match (@finalize_aggregator stable_runtime simple_api "1" (λ _, Ok tt) deleted_aggregator
    (calm before_deletion 0)).2 with Ok (Some _) => true | _ => false end = true) by (vm_compute; reflexivity).
  specialize (Hfin (λ _, Ok tt)).
  destruct (finalize_aggregator _ _ _ _) as [[tr c'] [[g'|]|e]]; [|discriminate Hr..].
  exact (proj2 (Hfin tr c' g' Hrole eq_refl)).
Defined.
