(* ===== verification/Watches.v ===== *)
(** * What leads to a round

    The watches the reconcilers register ([SetupWithManager] of the files of
    [src/internal/controller]): which changes in the cluster lead to requests, and for what.
    The predicates and handlers of controller-runtime are arguments ([WatchRuntime]) with what
    their documentation says of them. *)

From S2P Require Import Round VectorSafety AgentSafety AggregatorSafety Finalizer PipelineSafety.
From S2P Require Export Footprint PipelineReconciler.

(** [client.Object], as far as predicates look at it. *)
Record meta := {
  mt_generation : Z;
  mt_annotations : option (gmap string string);
  mt_labels : gmap string string;
  mt_resource_version : string
}.

Inductive watch_event :=
| Created (new : meta)
| Updated (old new : meta)
| Deleted (old : meta).

(** The packages [predicate] and [handler]. [EnqueueRequestForOwner] is given the type whose
    references it looks for, whether it is namespaced, and the namespace and the owner
    references of the object. *)
Class WatchRuntime := {
  GenerationChangedPredicate : watch_event → bool;
  AnnotationChangedPredicate : watch_event → bool;
  ResourceVersionChangedPredicate : watch_event → bool;
  predicate_Or : (watch_event → bool) → (watch_event → bool) → watch_event → bool;
  predicate_Funcs : (meta → meta → bool) → watch_event → bool;
  EnqueueRequestForOwner : string → string → bool → string → list string → list NamespacedName;
  generation_changed ev : GenerationChangedPredicate ev = true ↔
    ∀ old new, ev = Updated old new → mt_generation old ≠ mt_generation new;
  annotation_changed ev : AnnotationChangedPredicate ev = true ↔
    ∀ old new, ev = Updated old new → mt_annotations old ≠ mt_annotations new;
  resource_version_changed ev : ResourceVersionChangedPredicate ev = true ↔
    ∀ old new, ev = Updated old new → mt_resource_version old ≠ mt_resource_version new;
  or_either p q ev : predicate_Or p q ev = p ev || q ev;
  funcs_update f ev : predicate_Funcs f ev = match ev with Updated old new => f old new | _ => true end;
  enqueue_owner api kind namespaced ns owners name uid :
    controller_reference api kind name uid ⊆ owners →
    (if namespaced : bool then ns else "", name) ∈ EnqueueRequestForOwner api kind namespaced ns owners
}.

(** ** The watches of the reconcilers *)

(** [ResourceExists]; the answer of the discovery API are the kinds of the group. *)
Definition ResourceExists (answer : result (list string)) (kind : string) : result bool :=
  match answer with
  | Err e => if is_not_found e then Ok false else Err e
  | Ok kinds => Ok (existsb (λ k, bool_decide (k = kind)) kinds)
  end.

Definition PodMonitorsKind : string := "PodMonitor".

(** What a controller is told by: the updates of its own type, and the kinds it owns. The
    events the pipelines send come through a channel, for the workload they name. *)
Record watches := { wt_for : watch_event → bool; wt_owns : list obj_kind }.

Section setup.
Context `{GoRuntime, WatchRuntime}.

Definition with_monitor (kinds : list obj_kind) (monitoringCRD : bool) : list obj_kind :=
  kinds ++ (if monitoringCRD then [KPodMonitor] else []).

Definition vector_owns : list obj_kind :=
  [KDaemonSet; KService; KSecret; KServiceAccount; KClusterRole; KClusterRoleBinding].
Definition vector_SetupWithManager (answer : result (list string)) : result watches :=
  monitoringCRD ← ResourceExists answer PodMonitorsKind;
  Ok {| wt_for := predicate_Or GenerationChangedPredicate AnnotationChangedPredicate;
        wt_owns := with_monitor vector_owns monitoringCRD |}.

Definition aggregator_owns : list obj_kind :=
  [KDeployment; KStatefulSet; KService; KSecret; KConfigMap; KServiceAccount; KClusterRole; KClusterRoleBinding; KHPA].
Definition aggregator_SetupWithManager (answer : result (list string)) : result watches :=
  monitoringCRD ← ResourceExists answer PodMonitorsKind;
  Ok {| wt_for := GenerationChangedPredicate; wt_owns := with_monitor aggregator_owns monitoringCRD |}.
Definition cluster_aggregator_SetupWithManager (answer : result (list string)) : result watches :=
  monitoringCRD ← ResourceExists answer PodMonitorsKind;
  Ok {| wt_for := GenerationChangedPredicate; wt_owns := with_monitor aggregator_owns monitoringCRD |}.

(** ** Requests of the workloads *)

Inductive workload_type := TVector | TVectorAggregator | TClusterVectorAggregator.

Definition type_name (t : workload_type) : string :=
  match t with
  | TVector => "Vector" | TVectorAggregator => "VectorAggregator" | TClusterVectorAggregator => "ClusterVectorAggregator"
  end.
Definition is_namespaced (t : workload_type) : bool := match t with TClusterVectorAggregator => false | _ => true end.
Definition api_version : string := "observability.kaasops.io/v1alpha1".

Definition setup (t : workload_type) : result (list string) → result watches :=
  match t with
  | TVector => vector_SetupWithManager
  | TVectorAggregator => aggregator_SetupWithManager
  | TClusterVectorAggregator => cluster_aggregator_SetupWithManager
  end.

(** The requests an event about an object leads to, and one about a resource of the type. *)
Definition owner_requests (t : workload_type) (ws : watches) (k : ObjKey) (o : Object) : list NamespacedName :=
  if bool_decide (k.1.1 ∈ wt_owns ws)
  then EnqueueRequestForOwner api_version (type_name t) (is_namespaced t) k.1.2 (om_owners (o_meta o)) else [].
Definition resource_requests (ws : watches) (key : NamespacedName) (ev : watch_event) : list NamespacedName :=
  if wt_for ws ev then [key] else [].

(** ** Requests of the pipelines *)

(** The types in the cluster. *)
Inductive resource_type :=
| RVectorPipeline
| RClusterVectorPipeline
| RWorkload (t : workload_type)
| RObject (k : obj_kind).

Definition specAndAnnotationsFuncs : watch_event → bool :=
  predicate_Funcs (λ old new, specAndAnnotationsPredicate (mt_generation old, mt_annotations old)
                                                        (mt_generation new, mt_annotations new)).

(** The Secrets come past the filter of the builder. *)
Definition pipeline_requests (si : option SecretIndex) (t : resource_type) (key : NamespacedName) (ev : watch_event)
    : list NamespacedName :=
  match t with
  | RVectorPipeline | RClusterVectorPipeline => if specAndAnnotationsFuncs ev then [key] else []
  | RObject KSecret => if ResourceVersionChangedPredicate ev then mapSecretToPipelines si key else []
  | _ => []
  end.

(** ** Lemmas *)

Lemma setup_owns t answer ws :
  setup t answer = Ok ws → ∃ monitoring,
  wt_owns ws = with_monitor (match t with TVector => vector_owns | _ => aggregator_owns end) monitoring.
Proof. by destruct t; intros (b & _ & [= <-])%bind_Ok; exists b. Qed.

(** The status writes of the operator lead to no round. *)
Lemma status_updates_quiet t answer ws si key old new :
  setup t answer = Ok ws → mt_generation old = mt_generation new → mt_annotations old = mt_annotations new →
  resource_requests ws key (Updated old new) = [] ∧
  pipeline_requests si RVectorPipeline key (Updated old new) = [] ∧
  pipeline_requests si RClusterVectorPipeline key (Updated old new) = [].
Proof.
  intros Hs Hg Ha.
  assert (Hgen : GenerationChangedPredicate (Updated old new) = false).
  { apply not_true_iff_false. intros Hc. by apply (proj1 (generation_changed _) Hc old new). }
  assert (Hann : AnnotationChangedPredicate (Updated old new) = false).
  { apply not_true_iff_false. intros Hc. by apply (proj1 (annotation_changed _) Hc old new). }
  assert (Hf : specAndAnnotationsFuncs (Updated old new) = false).
  { unfold specAndAnnotationsFuncs, specAndAnnotationsPredicate. rewrite funcs_update. simpl.
    rewrite Hg, Ha, Z.eqb_refl, bool_decide_eq_true_2; done. }
  simpl. rewrite Hf. split; [|done]. unfold resource_requests.
  by destruct t; revert Hs; intros (b & _ & [= <-])%bind_Ok; simpl; rewrite ?or_either, ?Hgen, ?Hann.
Qed.

Lemma created_leads_to_round si key new :
  pipeline_requests si RVectorPipeline key (Created new) = [key] ∧
  pipeline_requests si RClusterVectorPipeline key (Created new) = [key].
Proof. simpl. unfold specAndAnnotationsFuncs. by rewrite funcs_update. Qed.

(** ** Objects that drift *)

Definition pub_type (p : publication) : workload_type :=
  match p with
  | PublishAgent _ _ _ => TVector
  | PublishAggregator _ _ c _ => if ag_cluster (ac_agg c) then TClusterVectorAggregator else TVectorAggregator
  end.

(** The type of the resource, as the reconcilers complete it when the read left it empty. *)
Definition typed (p : publication) : Prop :=
  match p with
  | PublishAgent _ c _ => v_kind (ct_vector c) = "Vector" ∧ v_api_version (ct_vector c) = api_version
  | PublishAggregator _ _ c _ =>
      ag_kind (ac_agg c) = type_name (pub_type p) ∧ ag_api_version (ac_agg c) = api_version
  end.

(** The requests a reconciler answers with a round of the workload: a request without a
    namespace is for all Vectors, and for the aggregators of the name. *)
Definition asks_for (p : publication) (req : NamespacedName) : Prop :=
  match pub_type p with
  | TVector => req = (pub_namespace p, pub_name p) ∨ req.1 = ""
  | TVectorAggregator => req = (pub_namespace p, pub_name p) ∨ req = ("", pub_name p)
  | TClusterVectorAggregator => req = ("", pub_name p)
  end.

Lemma pub_kind p k :
  pub_keys p k → k.1.1 = KPodDisruptionBudget ∨ k.1.1 = KPodMonitor ∨
  k.1.1 ∈ match pub_type p with TVector => vector_owns | _ => aggregator_owns end.
Proof.
  assert (Hagg : ∀ ns name, Forall (λ k, k.1.1 = KPodDisruptionBudget ∨ k.1.1 = KPodMonitor ∨ k.1.1 ∈ aggregator_owns)
    (aggregator_footprint ns name)).
  { intros ns name. unfold aggregator_footprint, aggregator_owns. repeat apply Forall_cons_2; try apply Forall_nil_2;
      simpl; rewrite ?elem_of_cons; tauto. }
  assert (Hagt : ∀ ns name, Forall (λ k, k.1.1 = KPodMonitor ∨ k.1.1 ∈ vector_owns) (agent_footprint ns name)).
  { intros ns name. unfold agent_footprint, vector_owns. repeat apply Forall_cons_2; try apply Forall_nil_2;
      simpl; rewrite ?elem_of_cons; tauto. }
  unfold pub_keys. destruct p as [crd c b|crd l c b]; simpl.
  - intros Hk. right. revert k Hk. by apply Forall_forall.
  - assert (Heq : (match (if ag_cluster (ac_agg c) then TClusterVectorAggregator else TVectorAggregator) with
        TVector => vector_owns | _ => aggregator_owns end) = aggregator_owns) by by destruct (ag_cluster _).
    rewrite Heq. intros [Hk|Hk].
    + revert k Hk. by apply Forall_forall.
    + right. right. unfold a_service_of in Hk. rewrite Hk. unfold aggregator_owns. simpl. set_solver.
Qed.

Lemma pub_refs_typed p :
  typed p → ∃ uid, pub_refs p = controller_reference api_version (type_name (pub_type p)) (pub_name p) uid.
Proof.
  destruct p as [crd c b|crd l c b]; simpl; intros [Hk Ha]; eexists;
    unfold getControllerReference, aggregator_getControllerReference; by rewrite Hk, Ha.
Qed.
End setup.

Section properties.
Context `{GoRuntime, Libraries, KubeApi, WatchRuntime}.
Context (Version : string) (marshal : VectorConfig → result string).

(** The objects whose changes lead to nothing. *)
Definition unwatched (answer : result (list string)) (k : obj_kind) : Prop :=
  k = KPodDisruptionBudget ∨ k = KPodMonitor ∧ ResourceExists answer PodMonitorsKind = Ok false.

#[local] Instance pub_keys_dec p k : Decision (pub_keys p k).
Proof. unfold pub_keys, a_service_of. destruct (pub_agent p); apply _. Defined.

Lemma watched p answer ws k :
  setup (pub_type p) answer = Ok ws → pub_keys p k →
  (unwatched answer k.1.1 → k.1.1 ∉ wt_owns ws) ∧ (¬ unwatched answer k.1.1 → k.1.1 ∈ wt_owns ws).
Proof.
  intros Hs Hk. unfold unwatched.
  assert (Hws : ∃ b, ResourceExists answer PodMonitorsKind = Ok b ∧
    wt_owns ws = with_monitor (match pub_type p with TVector => vector_owns | _ => aggregator_owns end) b).
  { destruct (pub_type p); revert Hs; intros (b & Hb & [= <-])%bind_Ok; by exists b. }
  destruct Hws as (b & -> & ->). unfold with_monitor. rewrite elem_of_app. split.
  - intros [->|[-> [= ->]]]; destruct (pub_type p); try destruct b; unfold vector_owns, aggregator_owns; set_solver.
  - intros Hn. destruct (pub_kind p k Hk) as [Hpdb|[Hpm|Hin]]; [by destruct Hn; left | | by left].
    destruct b; [right; rewrite Hpm; by left | by destruct Hn; right].
Qed.

(** A request for the owner named in the references of a publication, from an object of it. *)
Lemma owner_asked p k o :
  typed p → pub_keys p k → om_owners (o_meta o) = pub_refs p →
  ∃ req, req ∈ EnqueueRequestForOwner api_version (type_name (pub_type p)) (is_namespaced (pub_type p)) k.1.2
    (om_owners (o_meta o)) ∧ asks_for p req.
Proof.
  intros Ht Hk ->. destruct (pub_refs_typed p Ht) as [uid Href]. eexists. split.
  - apply (enqueue_owner api_version _ _ _ _ (pub_name p) uid). by rewrite Href.
  - assert (Hns : k.1.2 = pub_namespace p ∨ k.1.2 = "").
    { apply pub_keys_named in Hk as [[Hk _]|[_ Hk]]; [rewrite Hk; case_decide; auto|].
      left. unfold a_service_of in Hk. by rewrite Hk. }
    unfold asks_for. destruct (pub_type p); simpl; try destruct Hns as [->| ->]; auto.
Qed.

(** C8: what drifts is noticed. Publishing a workload marks what it writes, so that whatever
    is done later to one of its objects leads to a request that its reconciler answers with a
    round of that workload, also to a cluster-scoped one (whose requests have no namespace):
    every kind of object a publication writes is watched, but for the PodDisruptionBudget,
    whose edits and deletions lead to nothing, and for a PodMonitor whose type was unknown
    when the operator started. (A ClusterRole keeps the owners it had.) *)
Theorem drift_leads_to_round p answer ws c :
  pub_given p → typed p → setup (pub_type p) answer = Ok ws →
  let '(tr, c', res) := pub_run Version p c in
  Forall (λ w, ∀ k o, w_objects w !! k = Some o → w_objects (seen c) !! k ≠ Some o →
    (∀ o0, k.1.1 = KClusterRole → w_objects (seen c) !! k = Some o0 → om_owners (o_meta o0) = pub_refs p) →
    (unwatched answer k.1.1 → owner_requests (pub_type p) ws k o = []) ∧
    (¬ unwatched answer k.1.1 → ∃ req, req ∈ owner_requests (pub_type p) ws k o ∧ asks_for p req)) (tr ++ [seen c']).
Proof.
  intros Hp Ht Hs. pose proof (touches_publication Version p Hp (seen c) c (within_refl _ _ _) I) as Hrun.
  destruct (pub_run Version p c) as [[tr c'] res]. destruct Hrun as (Htr & Hc' & _).
  assert (Hall : Forall (within (pub_keys p) (pub_refs p) (seen c)) (tr ++ [seen c'])).
  { apply Forall_app. by rewrite Forall_singleton. }
  eapply Forall_impl; [exact Hall|]. intros w [Hsame Hown] k o Ho Hnew Hrole.
  assert (Hk : pub_keys p k).
  { destruct (decide (pub_keys p k)) as [|Hn]; [done|]. by rewrite (Hsame k Hn) in Ho. }
  assert (Hrefs : om_owners (o_meta o) = pub_refs p).
  { destruct (Hown k o Ho) as [Heq|[Hr|(Hc & o0 & Ho0 & ->)]]; [done | done | by apply Hrole]. }
  destruct (watched p answer ws k Hs Hk) as [Hno Hyes]. unfold owner_requests. split; intros Hu.
  - by rewrite bool_decide_eq_false_2 by auto.
  - rewrite bool_decide_eq_true_2 by auto. by apply owner_asked.
Qed.

(** ** Pipelines before workloads *)

(** C39: a pipeline that is there before the first workload waits for ever. Its creation leads
    to a round, which finds no workload, writes nothing and, when the pipeline uses no Secret
    or polling is off, asks for no other; the events of the workloads that come later lead to
    no request for any pipeline; and until its specification or annotations are edited no
    listing of a workload takes it up, since it has no verdict. *)
Theorem early_pipeline_waits r inp req p token c :
  getPipeline req (pi_get inp) = Ok (Some p) → (related_round (pi_reader inp) p).2 = Ok token →
  list_workloads inp = Some {| wl_agents := []; wl_aggregators := []; wl_cluster_aggregators := [] |} →
  (pl_poll r = false ∨ ∀ p', getPipeline req (pi_again inp) = Ok (Some p') → spec_secret (GetSpec p') = ∅) →
  GetConfigCheckResult p = None → GetReason p = None →
  pipeline_Reconcile Version marshal r inp req c = ([], c, Ok nothing_more) ∧
  (∀ si t key ev, pipeline_requests si (RWorkload t) key ev = []) ∧
  (∀ si key ev, req ∈ pipeline_requests si RVectorPipeline key ev → ∀ old new, ev = Updated old new →
     mt_generation old ≠ mt_generation new ∨ mt_annotations old ≠ mt_annotations new) ∧
  pool_of [p] = [].
Proof.
  intros Hget Hrel Hnone Hpoll Hv Hr. split_and!.
  - unfold pipeline_Reconcile, pipeline_reconcile, mbind, K_bind, k_bind, k_lift. rewrite Hget. simpl.
    rewrite Hrel, Hnone. simpl. unfold nothing_more. simpl. repeat f_equal.
    unfold armSecretRotationPoll. destruct Hpoll as [->|Hsec]; [done|].
    destruct (negb _); [done|]. destruct (getPipeline req (pi_again inp)) as [[p'|]|] eqn:Hagain; [|done..].
    by rewrite (Hsec p' eq_refl), map_size_empty.
  - done.
  - intros si key ev Hin old new ->. simpl in Hin. unfold specAndAnnotationsFuncs, specAndAnnotationsPredicate in Hin.
    rewrite funcs_update in Hin. simpl in Hin.
    destruct (Z.eqb_spec (mt_generation old) (mt_generation new)); [|by left].
    case_bool_decide; [by apply not_elem_of_nil in Hin | by right].
  - unfold pool_of. simpl. unfold is_retry, IsValid in *. unfold GetConfigCheckResult in Hv. rewrite Hv, Hr. done.
Qed.
End properties.

(** ** A runtime, and witnesses *)

Fixpoint prefixes (s : string) : list string :=
  "" :: match s with "" => [] | String a s => String a <$> prefixes s end.

Lemma prefix_of_app n t : n ∈ prefixes (n +:+ t).
Proof.
  induction n as [|a n IH]; simpl; [destruct t; by left|]. right. by apply list_elem_of_fmap_2.
Qed.

(** The names an owner reference can be of. *)
Definition owner_names (api kind owner : string) : list string :=
  let before := "apiVersion: " +:+ api +:+ ", kind: " +:+ kind +:+ ", name: " in
  if has_prefix before owner then
    let rest := string_drop (String.length before) owner in
    List.filter (λ n, has_prefix (n +:+ ", uid: ") rest) (prefixes rest)
  else [].

Lemma owner_names_reference api kind name uid owner :
  owner ∈ controller_reference api kind name uid → name ∈ owner_names api kind owner.
Proof.
  intros ->%list_elem_of_singleton.
  assert (Heq : ("apiVersion: " +:+ api +:+ ", kind: " +:+ kind +:+ ", name: " +:+ name +:+ ", uid: " +:+ uid +:+
    ", blockOwnerDeletion: true, controller: true") =
    ("apiVersion: " +:+ api +:+ ", kind: " +:+ kind +:+ ", name: ") +:+
      (name +:+ (", uid: " +:+ uid +:+ ", blockOwnerDeletion: true, controller: true")))
    by by rewrite !str_app_assoc.
  unfold owner_names. rewrite Heq, has_prefix_app, str_drop_app. apply list_elem_of_In, filter_In. split.
  - apply list_elem_of_In, prefix_of_app.
  - apply has_prefix_spec. eexists. by rewrite str_app_assoc.
Qed.

Definition on_updates (f : meta → meta → bool) (ev : watch_event) : bool :=
  match ev with Updated old new => f old new | _ => true end.

Lemma on_updates_changed {A} `{EqDecision A} (f : meta → A) ev :
  on_updates (λ old new, bool_decide (f old ≠ f new)) ev = true ↔ ∀ old new, ev = Updated old new → f old ≠ f new.
Proof.
  destruct ev as [new|old new|old]; simpl; [done| |done]. rewrite bool_decide_eq_true.
  split; [by intros Hne ? ? [= <- <-] | auto].
Qed.

#[export] Program Instance plain_watch : WatchRuntime := {|
  GenerationChangedPredicate := on_updates (λ old new, bool_decide (mt_generation old ≠ mt_generation new));
  AnnotationChangedPredicate := on_updates (λ old new, bool_decide (mt_annotations old ≠ mt_annotations new));
  ResourceVersionChangedPredicate :=
    on_updates (λ old new, bool_decide (mt_resource_version old ≠ mt_resource_version new));
  predicate_Or := λ p q ev, p ev || q ev;
  predicate_Funcs := on_updates;
  EnqueueRequestForOwner := λ api kind namespaced ns owners,
    owner ← owners; name ← owner_names api kind owner; [(if namespaced : bool then ns else "", name)]
|}.
Next Obligation. intros ev. apply on_updates_changed. Qed.
Next Obligation. intros ev. apply on_updates_changed. Qed.
Next Obligation. intros ev. apply on_updates_changed. Qed.
Next Obligation. done. Qed.
Next Obligation. done. Qed.
Next Obligation.
  intros api kind namespaced ns owners name uid Hin. apply list_elem_of_bind.
  eexists. split; [|apply Hin, list_elem_of_here]. apply list_elem_of_bind. exists name.
  split; [apply list_elem_of_here|]. eapply owner_names_reference, list_elem_of_here.
Qed.

#[local] Existing Instance stable_runtime.

(** An aggregator as the API server returns it, published for the first time. *)
Definition drifting_controller : AggregatorController :=
  let c := aggregator_NewController "1" (setAggregatorTypeMetaIfNeeded
    {| ag_cluster := false; ag_namespace := "other"; ag_resource_namespace := ""; ag_name := "g"; ag_uid := "u2";
       ag_kind := ""; ag_api_version := ""; ag_deleted := false; ag_finalizers := [aggregatorFinalizerName];
       ag_spec := ag_spec namesake; ag_status := no_status |}) in
  {| ac_agg := ac_agg c; ac_reader := true; ac_bytes := "{}"; ac_config := ac_config c; ac_assets := ac_assets c |}.
Definition drifting : publication := PublishAggregator (Ok false) (Ok []) drifting_controller false.
Definition drifting_run := @pub_run stable_runtime _ simple_api "1" drifting (calm (sample_status_world ∅) 0).
Definition drifting_role : ObjKey := (KClusterRole, "", "g-aggregator").
Definition drifting_watches : watches := {| wt_for := GenerationChangedPredicate; wt_owns := with_monitor aggregator_owns true |}.

(** Its ClusterRole. *)
Lemma drift_leads_to_round_witness :
  ∃ o, w_objects (sc_world drifting_run.1.2) !! drifting_role = Some o ∧
    ∃ req, req ∈ owner_requests TVectorAggregator drifting_watches drifting_role o ∧ asks_for drifting req.
Proof.
  assert (Hsome : match w_objects (sc_world drifting_run.1.2) !! drifting_role with Some _ => true | None => false end = true)
    by (vm_compute; reflexivity).
  assert (Hgiven : pub_given drifting) by (intros l o [= <-] Hin; destruct (not_elem_of_nil _ Hin)).
  assert (Htyped : typed drifting) by (vm_compute; split; reflexivity).
  assert (Hsetup : setup (pub_type drifting) (Ok ["PodMonitor"]) = Ok drifting_watches) by (vm_compute; reflexivity).
  pose proof (@drift_leads_to_round stable_runtime _ simple_api plain_watch "1" drifting (Ok ["PodMonitor"]) drifting_watches
    (calm (sample_status_world ∅) 0) Hgiven Htyped Hsetup) as Ht.
  unfold drifting_run in *. destruct (pub_run _ _ _) as [[tr c'] res].
  apply Forall_app in Ht as [_ Ht]. rewrite Forall_singleton in Ht. cbn [fst snd] in *.
  destruct (w_objects (sc_world c') !! drifting_role) as [o|] eqn:Ho; [|discriminate Hsome].
  exists o. split; [reflexivity|]. apply (Ht drifting_role o Ho).
  - intros Hk. discriminate Hk.
  - intros o0 _ Hk. discriminate Hk.
  - intros [Hk|[Hk _]]; discriminate Hk.
Defined.

(** A pipeline created in a cluster without workloads. *)
Definition early_pipeline : Pipeline := pending_pipeline.
Definition early_inputs : pipeline_inputs :=
  {| pi_get := λ _, Ok early_pipeline; pi_again := λ _, Ok early_pipeline; pi_reader := sample_getter;
     pi_agents := Ok []; pi_aggregators := Ok []; pi_cluster_aggregators := Ok [];
     pi_answers := pi_answers (pipeline_answers early_pipeline sample_getter); pi_order := id |}.
Definition waiting_reconciler : PipelineReconciler :=
  {| pl_check_timeout := 300 * second; pl_reconcile_invalid := false; pl_retry_delay := 30 * second;
     pl_optimization := false; pl_poll := false |}.

Lemma early_pipeline_waits_witness :
  @pipeline_Reconcile stable_runtime _ simple_api "1" sample_marshal waiting_reconciler early_inputs
    (ObjectKey early_pipeline) (calm pipeline_world 0) = ([], calm pipeline_world 0, Ok nothing_more) ∧
  pool_of [early_pipeline] = [].
Proof.
  assert (Hrel : ∃ token, (related_round (pi_reader early_inputs) early_pipeline).2 = Ok token).
  { destruct (related_round (pi_reader early_inputs) early_pipeline).2 as [token|e] eqn:Hr; [by exists token|].
    assert (Hok : match (related_round (pi_reader early_inputs) early_pipeline).2 with Ok _ => true | Err _ => false end = true)
      by (vm_compute; reflexivity).
    rewrite Hr in Hok. discriminate Hok. }
  destruct Hrel as [token Hrel].
  destruct (@early_pipeline_waits stable_runtime _ simple_api plain_watch "1" sample_marshal waiting_reconciler early_inputs
    (ObjectKey early_pipeline) early_pipeline token (calm pipeline_world 0) eq_refl Hrel eq_refl (or_introl eq_refl)
    eq_refl eq_refl) as (Hrun & _ & _ & Hpool).
  split; [exact Hrun | exact Hpool].
Defined.
